(* ===== verification/_CoqProject ===== *)
-Q . S2P
Prelude.v
Cache.v
Prog.v
ReaderAt.v
Superblock.v
Decompress.v
Metadata.v
Inode.v
Dir.v
Path.v
Xattr.v
Data.v
FileContent.v
OpenFile.v
Fs.v
Concurrency.v
Faults.v
FileCalls.v
Host.v
Compress.v
Writer.v
Scan.v
Stream.v
InodeFormat.v
XattrSpec.v
WriterMeta.v
WriterState.v
WriterInode.v
WriterFile.v
WriterDir.v
WriterTree.v
WriterImage.v
RoundTrip.v
HostTree.v
Instances.v
Examples.v
ComponentTheorems.v
WriterTheorems.v
ReaderTheorems.v
HandleTheorems.v
HostTheorems.v
