(* ===== verification/Prelude.v ===== *)
(** * SquashFS in Rocq: a verification of the Go driver

    The driver (src/, package squashfs) reads SquashFS 4.0 images and builds
    them from a directory.  This library models every operation of it that
    reads an image, and the whole of the writer, as executable definitions,
    and proves what they promise.

    ** The parts and how they interact

    An image is reached through an io.ReaderAt.  Open decodes the superblock
    and picks a decompressor.  Metadata (inodes, directories, attributes, the
    fragment table) is stored in compressed blocks of at most 8 KiB that a
    cursor reads as one stream; file data is stored in blocks of the image's
    block size, the tails of files in shared fragment blocks.  Decoded blocks
    go through one cache, shared by all calls on a handle.  Paths are resolved
    component by component through directory listings, symbolic links
    followed.  The writer scans a host directory into a tree of nodes, lays
    the tree out post-order, and patches the superblock last.

    ** The files

    Prelude        errors, results, machine integers, byte strings
                   (errors.go, encoding/binary)
    Cache          cache.go: blockCache, and the two queues it implements
    Prog           programs that use the cache and allocate: [exec] runs one
                   over a cache, [uncached] without, [wp] reasons on any cache
    ReaderAt       the image: io.ReaderAt, bytes.Reader
    Superblock     superblock.go
    Decompress     decompress.go
    Metadata       metadata.go
    Inode          inode.go
    Dir            dir.go
    Path           path.go, and the relation [Resolves] it implements
    Xattr          xattr.go, FS.inodeXattrs of fs.go
    Data           data.go
    FileContent    what an inode's content is, and that ReadFile returns it
    OpenFile       openfile.go
    Fs             fs.go, openreader.go: Open, the methods, [serve]
    Concurrency    interleavings of calls over the shared cache
    Faults         calls over a reader that fails: programs cut short
    FileCalls      interleavings of the calls on one open file, Close included
    Host           fs.go: OpenFile, Close, Superblock, over package os
    Compress       compress.go
    Writer         write.go: the layout of an image
    Scan           write.go: scanDir, scanEntry, BuildFromDir
    Stream         bytes at offsets, and what a cursor reads from them
    InodeFormat    what the bytes of an inode mean, for each of its kinds
    XattrSpec      what a stored attribute list means
    WriterMeta .. WriterImage
                   the writer's invariants, bottom up: metadata blocks, the
                   writer's state, inodes, files, directories, trees, tables
    RoundTrip      a tree, the image built from it, and paths in both
    HostTree       a host tree, the nodes it becomes, and paths in both
    Instances, Examples
                   codecs and inputs the theorems are evaluated on
    ComponentTheorems, WriterTheorems, ReaderTheorems, HandleTheorems,
    HostTheorems   the properties

    ** How the code is modelled

    A definition has the name of its function; a method has its receiver's
    type in front where the name alone is taken (FS_OpenFile,
    squashfsFile_ReadAt).  A loop is a Fixpoint named after its function.
    Integers are Z with Go's conversions written out ([u16], [i64], ...);
    byte strings are lists of bytes; a slice or index that Go would refuse is
    [Err Panic].  A fallible function returns [result]; one that uses the
    cache or allocates by the image's claims returns [prog], a tree of
    get/put/allocate steps.  The mutex of the cache makes each get or put one
    step, so [exec] is one call, [serve_all] calls one after the other, and
    [pool_step] calls at the same time.  The handle FS is its reader, size,
    superblock and decompressor; its cache is the state of [exec], its closer
    is in [FSHandle].  The closed flag of an open file, an atomic, is loaded
    or stored by the first step of a call ([begin], [file_step]).  A call sees
    one reader: a host file closed while a call goes on is, to that call,
    the file as it was when the call began ([handle_at]).  The writer's
    pointers are explicit state: each operation returns the new
    [imageWriter].

    ** What the theorems show

    Building and reading (WriterTheorems, HostTheorems).  An image built from
    a tree serves the tree: exactly its paths resolve, files read back whole
    or by ReadAt, listings are its children in name order, links their
    targets, each wrong method its error; building is total; the same from
    BuildFromDir on a host directory to OpenFile on the image file.  These
    assume what the format can represent ([node_ok]: names of 1 to 256 bytes,
    listings of at most 65532 bytes, targets of at most 8 KiB, files below
    4 GiB) and an image below 4 GiB.
    Any image (ReaderTheorems).  Calls on a handle opened on arbitrary bytes
    neither panic nor loop, alone or interleaved, allocate within stated
    bounds, and answer independently of the cache when no block is named with
    two lengths.  ReadAt and ReadFile agree and ReadFile returns the content
    the inode describes: without a cache on any image, through the cache under
    that same condition; the sizes they refuse are characterised
    ([ReadFile_limits]); resolution is exactly [Resolves].
    Handles and files in use (HandleTheorems, HostTheorems).  Under the same
    condition a reader that fails, at whichever reads, never makes a call answer
    wrongly nor spoils the cache ([reader_faults]), a handle that was closed
    answers out of its cache or with os.ErrClosed ([closed_handle]; an image
    whose root inode lies at a negative offset gets os.File's error for that),
    and calls on one open file, Close among them, are atomic
    ([file_calls_atomic]).
    Without any condition, calls at the same time over failing readers finish
    within their bounds ([concurrent_terminates]), and no host file is leaked.
    Parts (ComponentTheorems).  The cache is two bounded queues; metadata, the
    superblock, codecs and paths survive a round trip; decoders return well
    formed values within their bounds; the bytes of an inode are read as
    [inode_of] says, attribute lists mean what [xattr_map] says.
    Some statements are about inputs the code does not handle as it means to: a
    block named with two lengths ([data_cache_conflict], an example), a
    directory too long for its size field ([directory_overflow]), attributes
    of devices, pipes and sockets ([special_xattrs_lost]).
    Every property with a hypothesis has a witness, an instance on concrete
    data, after it.

    ** Fuel

    A loop that is not structural takes a fuel, computed from its input, that
    its totality lemma shows is enough: the bytes asked for ([read_loop],
    [ReadAt_loop]), the bytes left ([readDir_loop], 12 per header), the hop
    limit ([resolveFrom]), the budget of 8 bytes per pair
    ([readXattrPairs_loop]), the bytes or entries left to write.  [scanEntry]
    alone takes it as an argument, the depth of the host's directories
    ([scanDir_spec]).  [OutOfFuel] is an error no call returns
    ([requests_safe], [concurrent_terminates], [build_total]).

    ** Parameters

    The codec libraries ([CodecLib], [EncoderLib] with their laws),
    safeio.MakeBytes ([SafeIO]), the values of the interface package
    ([FsInterface]), and the calls of package os ([HostOS]).  Instances.v and
    HostTheorems.v give instances that satisfy the laws.

    ** Not modelled

    Texts of error messages (an error is its sentinel).  A read of the image
    that fails once and succeeds when the same call tries it again (no call
    reads a place twice unless its cache entry was evicted).  Memory
    that does not depend on the image's claims, and aliasing of cached slices,
    which no code of the package writes to.  A host directory that changes
    while it is scanned.  The algorithms of the codec libraries.  Tests and
    benchmarks. *)

From stdpp Require Export base numbers list gmap.
From Stdlib Require Export ZArith Lia.
From coqutil Require Export Byte Word.LittleEndianList.
Export LittleEndianList.

#[global] Open Scope Z_scope.
#[global] Set Default Goal Selector "!".

(** ** Errors

    The sentinel errors of errors.go, the standard-library errors the code
    returns or lets through, and two values that no Go function returns:
    [Panic] (a run-time panic) and [OutOfFuel] (the bound given to a loop of
    the model was too small).  Wrapping with %w keeps the sentinel, so an
    error is its sentinel; message texts are dropped. *)
Inductive err :=
| ErrReadOnly | ErrBadMagic | ErrUnsupportedVersion | ErrUnsupportedCompression
| ErrNotFound | ErrNotDirectory | ErrNotRegular | ErrNotSymlink
| ErrTooManyLinks | ErrTooLarge | ErrCorrupt
| ErrIO              (* the error of the io.ReaderAt *)
| ErrEOF             (* io.EOF *)
| ErrUnexpectedEOF   (* io.ErrUnexpectedEOF *)
| ErrClosed          (* os.ErrClosed *)
| ErrNegativeOffset  (* the unnamed error of squashfsFile.ReadAt *)
| ErrXzTooLarge      (* xz.ErrTooLarge of go-compressions/xz *)
| ErrLib             (* any other error of a codec library *)
| ErrIncompressible  (* the unnamed error of lz4Compressor.compress *)
| Panic
| OutOfFuel.

#[global] Instance err_eq_dec : EqDecision err.
Proof. solve_decision. Defined.

(** Go's (value, error) pair: a value is used only when the error is nil. *)
Inductive result (A : Type) : Type :=
| Ok (a : A)
| Err (e : err).
Arguments Ok {A} a.
Arguments Err {A} e.

Definition rbind {A B} (r : result A) (f : A -> result B) : result B :=
  match r with Ok a => f a | Err e => Err e end.

#[global] Instance result_ret : MRet result := @Ok.
#[global] Instance result_bind : MBind result := fun _ _ f r => rbind r f.

(** Reduce the binds of a monadic definition and nothing else. *)
Ltac rstep := cbn [mbind mret result_bind result_ret rbind negb andb orb].

(** A result that is a legitimate outcome of a Go call: no panic, and no loop
    cut short by the model. *)
Definition sane {A} (r : result A) : Prop := r <> Err Panic /\ r <> Err OutOfFuel.

Lemma sane_bind {A B} (r : result A) (f : A -> result B) :
  sane r -> (forall a, r = Ok a -> sane (f a)) -> sane (r ≫= f).
Proof.
  intros [H1 H2] Hf. destruct r as [a|e]; rstep; [by apply Hf|].
  split; congruence.
Qed.

Lemma sane_err {A B} e : sane (Err (A := A) e) -> sane (Err (A := B) e).
Proof. intros [H1 H2]. split; congruence. Qed.

(** Injectivity without the reductions [injection] makes. *)
Lemma Ok_inj {A} (a b : A) : Ok a = Ok b -> a = b.
Proof. by injection 1. Qed.

(** Split the conjunctions that show, without unfolding. *)
Ltac splits := repeat match goal with |- _ /\ _ => split end.

(** ** Machine integers

    Go's conversions and its wrapping arithmetic; [int] is 64 bits wide. *)
Definition u16 (z : Z) : Z := z mod 2 ^ 16.
Definition u32 (z : Z) : Z := z mod 2 ^ 32.
Definition u64 (z : Z) : Z := z mod 2 ^ 64.
Definition i16 (z : Z) : Z := (z + 2 ^ 15) mod 2 ^ 16 - 2 ^ 15.
Definition i32 (z : Z) : Z := (z + 2 ^ 31) mod 2 ^ 32 - 2 ^ 31.
Definition i64 (z : Z) : Z := (z + 2 ^ 63) mod 2 ^ 64 - 2 ^ 63.

(** Length of a slice as a Go int. *)
Definition zlen {A} (l : list A) : Z := Z.of_nat (length l).

(** ** Byte strings *)

(** encoding/binary's LittleEndian accessors on the first bytes of a slice
    (the callers' buffers always hold them). *)
Definition le_Uint16 (b : list byte) : Z := le_combine (take 2 b).
Definition le_Uint32 (b : list byte) : Z := le_combine (take 4 b).
Definition le_Uint64 (b : list byte) : Z := le_combine (take 8 b).
Definition le_PutUint16 (v : Z) : list byte := le_split 2 v.
Definition le_PutUint32 (v : Z) : list byte := le_split 4 v.
Definition le_PutUint64 (v : Z) : list byte := le_split 8 v.

(** make([]byte, n) *)
Definition zeros (n : nat) : list byte := replicate n Byte.x00.

(** l[lo:hi], which panics when the bounds are not 0 <= lo <= hi <= len l. *)
Definition slice {A} (l : list A) (lo hi : Z) : result (list A) :=
  if (0 <=? lo) && (lo <=? hi) && (hi <=? zlen l)
  then Ok (take (Z.to_nat (hi - lo)) (drop (Z.to_nat lo) l))
  else Err Panic.

#[global] Instance byte_eq_dec : EqDecision byte := Byte.byte_eq_dec.

#[global] Program Instance byte_countable : Countable byte :=
  inj_countable' Byte.to_N (fun n => default Byte.x00 (Byte.of_N n)) _.
Next Obligation. intros b. cbn. by rewrite Byte.of_to_N. Qed.

(** ** Lemmas on machine integers *)

Create HintDb squashfs.

Lemma u16_range z : 0 <= u16 z < 2 ^ 16.
Proof. apply Z.mod_pos_bound. lia. Qed.
Lemma u32_range z : 0 <= u32 z < 2 ^ 32.
Proof. apply Z.mod_pos_bound. lia. Qed.
Lemma u64_range z : 0 <= u64 z < 2 ^ 64.
Proof. apply Z.mod_pos_bound. lia. Qed.
Lemma i64_range z : - 2 ^ 63 <= i64 z < 2 ^ 63.
Proof. unfold i64. pose proof (Z.mod_pos_bound (z + 2 ^ 63) (2 ^ 64)). lia. Qed.

Lemma u16_small z : 0 <= z < 2 ^ 16 -> u16 z = z.
Proof. apply Z.mod_small. Qed.
Lemma u32_small z : 0 <= z < 2 ^ 32 -> u32 z = z.
Proof. apply Z.mod_small. Qed.
Lemma u64_small z : 0 <= z < 2 ^ 64 -> u64 z = z.
Proof. apply Z.mod_small. Qed.
Lemma i16_small z : - 2 ^ 15 <= z < 2 ^ 15 -> i16 z = z.
Proof. intros. unfold i16. rewrite Z.mod_small; lia. Qed.
Lemma i32_small z : - 2 ^ 31 <= z < 2 ^ 31 -> i32 z = z.
Proof. intros. unfold i32. rewrite Z.mod_small; lia. Qed.
Lemma i64_small z : - 2 ^ 63 <= z < 2 ^ 63 -> i64 z = z.
Proof. intros. unfold i64. rewrite Z.mod_small; lia. Qed.

Lemma i64_add_l a b : i64 (i64 a + b) = i64 (a + b).
Proof.
  unfold i64. f_equal.
  replace ((a + 2 ^ 63) mod 2 ^ 64 - 2 ^ 63 + b + 2 ^ 63)
    with ((a + 2 ^ 63) mod 2 ^ 64 + b) by ring.
  rewrite Zplus_mod_idemp_l. f_equal. ring.
Qed.

Lemma i64_i64 a : i64 (i64 a) = i64 a.
Proof. apply i64_small, i64_range. Qed.

(** Drop a conversion whose argument is in range. *)
Ltac wraps :=
  repeat first
    [ rewrite i64_small by lia | rewrite u64_small by lia | rewrite u32_small by lia
    | rewrite u16_small by lia | rewrite i32_small by lia | rewrite i16_small by lia ].

(** ** Lemmas on slices and byte strings *)

Lemma zlen_nonneg {A} (l : list A) : 0 <= zlen l.
Proof. unfold zlen. lia. Qed.

Lemma zlen_app {A} (l k : list A) : zlen (l ++ k) = zlen l + zlen k.
Proof. unfold zlen. rewrite length_app. lia. Qed.

Lemma zlen_nil {A} : zlen (@nil A) = 0.
Proof. done. Qed.

Lemma zlen_cons {A} (x : A) l : zlen (x :: l) = 1 + zlen l.
Proof. unfold zlen. cbn [length]. lia. Qed.

Lemma zlen_pos {A} (l : list A) : l <> [] -> 0 < zlen l.
Proof. destruct l; [done|]. rewrite zlen_cons. pose proof (zlen_nonneg l). lia. Qed.

Lemma slice_ok {A} (l : list A) lo hi :
  0 <= lo <= hi -> hi <= zlen l ->
  slice l lo hi = Ok (take (Z.to_nat (hi - lo)) (drop (Z.to_nat lo) l)).
Proof.
  intros. unfold slice. destruct (_ && _) eqn:E; [done|].
  rewrite !andb_false_iff, !Z.leb_gt in E. lia.
Qed.

Lemma slice_length {A} (l m : list A) lo hi :
  slice l lo hi = Ok m -> zlen m = hi - lo.
Proof.
  unfold slice, zlen. destruct (_ && _) eqn:E; [|done]. intros [= <-].
  rewrite !andb_true_iff, !Z.leb_le in E. unfold zlen in E.
  rewrite length_take, length_drop. lia.
Qed.

Lemma length_zeros n : length (zeros n) = n.
Proof. apply length_replicate. Qed.

Lemma zlen_zeros n : 0 <= n -> zlen (zeros (Z.to_nat n)) = n.
Proof. intros. unfold zlen. rewrite length_zeros. lia. Qed.

Lemma zlen_take {A} (l : list A) n : 0 <= n -> zlen (take (Z.to_nat n) l) = Z.min n (zlen l).
Proof. intros. unfold zlen. rewrite length_take. lia. Qed.

Lemma zlen_drop {A} (l : list A) n : 0 <= n -> zlen (drop (Z.to_nat n) l) = Z.max 0 (zlen l - n).
Proof. intros. unfold zlen. rewrite length_drop. lia. Qed.

Lemma le_combine_range b k :
  (length b <= k)%nat -> 0 <= le_combine b < 2 ^ (8 * Z.of_nat k).
Proof.
  intros H. pose proof (le_combine_bound b) as [H1 H2]. split; [done|].
  eapply Z.lt_le_trans; [done|]. apply Z.pow_le_mono_r; lia.
Qed.

Lemma le_Uint16_range b : 0 <= le_Uint16 b < 2 ^ 16.
Proof. apply (le_combine_range _ 2). rewrite length_take. lia. Qed.
Lemma le_Uint32_range b : 0 <= le_Uint32 b < 2 ^ 32.
Proof. apply (le_combine_range _ 4). rewrite length_take. lia. Qed.
Lemma le_Uint64_range b : 0 <= le_Uint64 b < 2 ^ 64.
Proof. apply (le_combine_range _ 8). rewrite length_take. lia. Qed.

Lemma length_PutUint16 v : length (le_PutUint16 v) = 2%nat.
Proof. apply length_le_split. Qed.
Lemma length_PutUint32 v : length (le_PutUint32 v) = 4%nat.
Proof. apply length_le_split. Qed.
Lemma length_PutUint64 v : length (le_PutUint64 v) = 8%nat.
Proof. apply length_le_split. Qed.

Lemma le_Uint16_Put v k : le_Uint16 (le_PutUint16 v ++ k) = u16 v.
Proof.
  unfold le_Uint16. rewrite take_app_length' by (symmetry; apply length_PutUint16).
  apply le_combine_split.
Qed.
Lemma le_Uint32_Put v k : le_Uint32 (le_PutUint32 v ++ k) = u32 v.
Proof.
  unfold le_Uint32. rewrite take_app_length' by (symmetry; apply length_PutUint32).
  apply le_combine_split.
Qed.
Lemma le_Uint64_Put v k : le_Uint64 (le_PutUint64 v ++ k) = u64 v.
Proof.
  unfold le_Uint64. rewrite take_app_length' by (symmetry; apply length_PutUint64).
  apply le_combine_split.
Qed.

Create Rewrite HintDb lens.
#[export] Hint Rewrite length_PutUint16 length_PutUint32 length_PutUint64 length_zeros
  @length_app @length_take @length_drop @length_map @length_nil @length_cons : lens.
#[export] Hint Resolve le_Uint16_range le_Uint32_range le_Uint64_range zlen_nonneg : squashfs.

(** Clearing one bit of a bounded word. *)
Lemma ldiff_bit_clear z k :
  0 <= k -> Z.testbit z k = false -> Z.ldiff z (2 ^ k) = z.
Proof.
  intros Hk Hb. apply Z.bits_inj'. intros i Hi.
  rewrite Z.ldiff_spec, Z.pow2_bits_eqb by done.
  destruct (Z.eqb_spec k i); [subst; by rewrite Hb|].
  by rewrite andb_true_r.
Qed.

Lemma ldiff_bit_set z k :
  0 <= k -> Z.testbit z k = true -> Z.ldiff z (2 ^ k) = z - 2 ^ k.
Proof.
  intros Hk Hb. symmetry. apply Z.sub_nocarry_ldiff. apply Z.bits_inj'. intros i Hi.
  rewrite Z.ldiff_spec, Z.pow2_bits_eqb, Z.bits_0 by done.
  destruct (Z.eqb_spec k i); [subst; by rewrite Hb|done].
Qed.

Lemma land_bit z k : 0 <= k -> (Z.land z (2 ^ k) =? 0) = negb (Z.testbit z k).
Proof.
  intros Hk. destruct (Z.testbit z k) eqn:E; cbn.
  - apply Z.eqb_neq. intros H. apply (f_equal (fun x => Z.testbit x k)) in H.
    rewrite Z.land_spec, E, Z.pow2_bits_true, Z.bits_0 in H by done. done.
  - apply Z.eqb_eq, Z.bits_inj'. intros i Hi.
    rewrite Z.land_spec, Z.pow2_bits_eqb, Z.bits_0 by done.
    destruct (Z.eqb_spec k i); [subst; by rewrite E|]. by rewrite andb_false_r.
Qed.

(** A bounded number has no high bits. *)
Lemma testbit_high z k i : 0 <= z < 2 ^ k -> k <= i -> Z.testbit z i = false.
Proof.
  intros Hz Hk. destruct (Z.eq_dec z 0) as [->|]; [apply Z.bits_0|].
  apply Z.bits_above_log2; [lia|]. eapply Z.lt_le_trans; [|exact Hk].
  apply Z.log2_lt_pow2; lia.
Qed.

(** Joining a high part and a low part with a bitwise or. *)
Lemma lor_shift_add hi lo k : 0 <= k -> 0 <= lo < 2 ^ k -> Z.lor (hi * 2 ^ k) lo = hi * 2 ^ k + lo.
Proof.
  intros Hk Hlo. rewrite <- Z.add_nocarry_lor; [done|].
  apply Z.bits_inj'. intros i Hi. rewrite Z.land_spec, Z.bits_0.
  destruct (Z.lt_ge_cases i k).
  - by rewrite Z.mul_pow2_bits_low.
  - rewrite (testbit_high lo k) by done. by rewrite andb_false_r.
Qed.

(** A slice of a prefix is a slice of the whole. *)
Lemma take_drop_take {A} (l : list A) n m k :
  (n + m <= k)%nat -> take m (drop n (take k l)) = take m (drop n l).
Proof.
  intros H.
  rewrite !firstn_skipn_comm, take_take. by rewrite Nat.min_l by lia.
Qed.

Lemma drop_take_zeros n m k : (n + m <= k)%nat -> take m (drop n (zeros k)) = zeros m.
Proof.
  intros H. unfold zeros. rewrite drop_replicate, take_replicate. f_equal. lia.
Qed.
