(* ===== verification/Cache.v ===== *)
(** * The block cache (src/cache.go)

    [blockCache] as the code has it: two maps, two insertion-order key lists
    and two caps.  A nil [*blockCache] is [None].  Each operation below is the
    body of one mutex-protected method, hence atomic; the interleavings of
    several goroutines are the steps of Concurrency.v.  The contract is the
    bounded FIFO queue of Module [Fifo]; [cache_wf] is the invariant under
    which the maps and the key lists implement it. *)

From S2P Require Export Prelude.

(** A decompressed metadata block and the file offset of the block after it. *)
Record metaEntry := MetaEntry { me_data : list byte; me_next : Z }.

Record blockCache := BlockCache {
  bc_meta : gmap Z metaEntry;
  bc_data : gmap Z (list byte);
  bc_metaCap : Z;
  bc_dataCap : Z;
  bc_metaKeys : list Z;  (* insertion order, for FIFO eviction *)
  bc_dataKeys : list Z
}.

Definition defaultMetaCacheBlocks : Z := 16384.
Definition defaultDataCacheBlocks : Z := 64.

Definition newBlockCache : blockCache :=
  BlockCache ∅ ∅ defaultMetaCacheBlocks defaultDataCacheBlocks [] [].

(** The common body of putMeta and putData: a new key evicts the oldest one
    when the map is full, and is appended to the keys; the entry is stored in
    both cases. *)
Definition putEntry {V} (cap : Z) (m : gmap Z V) (keys : list Z) (off : Z) (e : V) :
  gmap Z V * list Z :=
  match m !! off with
  | Some _ => (<[off:=e]> m, keys)
  | None =>
      let '(m1, keys1) :=
        match keys with
        | old :: rest => if cap <=? Z.of_nat (size m) then (delete old m, rest) else (m, keys)
        | [] => (m, keys)
        end in
      (<[off:=e]> m1, keys1 ++ [off])
  end.

Definition getMeta (c : option blockCache) (off : Z) : option metaEntry :=
  match c with None => None | Some c => bc_meta c !! off end.

Definition putMeta (c : option blockCache) (off : Z) (e : metaEntry) : option blockCache :=
  match c with
  | None => None
  | Some c =>
      let '(m, keys) := putEntry (bc_metaCap c) (bc_meta c) (bc_metaKeys c) off e in
      Some (BlockCache m (bc_data c) (bc_metaCap c) (bc_dataCap c) keys (bc_dataKeys c))
  end.

Definition getData (c : option blockCache) (off : Z) : option (list byte) :=
  match c with None => None | Some c => bc_data c !! off end.

Definition putData (c : option blockCache) (off : Z) (b : list byte) : option blockCache :=
  match c with
  | None => None
  | Some c =>
      let '(m, keys) := putEntry (bc_dataCap c) (bc_data c) (bc_dataKeys c) off b in
      Some (BlockCache (bc_meta c) m (bc_metaCap c) (bc_dataCap c) (bc_metaKeys c) keys)
  end.

(** ** The contract: a bounded FIFO queue of bindings, oldest first *)
Module Fifo.

Definition get {V} (q : list (Z * V)) (k : Z) : option V :=
  snd <$> (list_find (fun p => fst p = k) q ≫= fun ip => Some (snd ip)).

(** Replace the binding of a present key where it stands; otherwise drop the
    oldest binding of a full queue and append. *)
Definition put {V} (cap : Z) (q : list (Z * V)) (k : Z) (v : V) : list (Z * V) :=
  match get q k with
  | Some _ => (fun p => if decide (fst p = k) then (k, v) else p) <$> q
  | None => (if cap <=? zlen q then tail q else q) ++ [(k, v)]
  end.

End Fifo.

(** The queue a map and its key list stand for. *)
Definition fifo_view {V} (m : gmap Z V) (keys : list Z) : list (Z * V) :=
  omap (fun k => (fun v => (k, v)) <$> m !! k) keys.

(** One half of the cache is well formed: the keys are distinct, are the
    domain of the map, and exceed the cap by no more than the single entry a
    cap below 1 still admits. *)
Definition half_wf {V} (cap : Z) (m : gmap Z V) (keys : list Z) : Prop :=
  NoDup keys /\ dom m = list_to_set keys /\ zlen keys <= Z.max 1 cap.

Definition cache_wf (c : blockCache) : Prop :=
  half_wf (bc_metaCap c) (bc_meta c) (bc_metaKeys c) /\
  half_wf (bc_dataCap c) (bc_data c) (bc_dataKeys c).

Lemma half_wf_size {V} cap (m : gmap Z V) keys :
  half_wf cap m keys -> Z.of_nat (size m) = zlen keys.
Proof.
  intros (Hnd & Hdom & _). unfold zlen. rewrite <- size_dom, Hdom.
  by rewrite size_list_to_set.
Qed.

Lemma half_wf_elem {V} cap (m : gmap Z V) keys k :
  half_wf cap m keys -> k ∈ keys <-> is_Some (m !! k).
Proof. intros (_ & Hdom & _). by rewrite <- elem_of_dom, Hdom, elem_of_list_to_set. Qed.

Lemma half_wf_empty {V} cap : half_wf cap (∅ : gmap Z V) [].
Proof. split_and!; [apply NoDup_nil_2|set_solver|unfold zlen; cbn; lia]. Qed.

(** The step common to both put methods preserves well-formedness. *)
Lemma putEntry_wf {V} cap (m : gmap Z V) keys off e m' keys' :
  half_wf cap m keys -> putEntry cap m keys off e = (m', keys') -> half_wf cap m' keys'.
Proof.
  intros Hwf. pose proof (half_wf_size _ _ _ Hwf) as Hsize.
  pose proof (half_wf_elem _ _ _ off Hwf) as Helem.
  destruct Hwf as (Hnd & Hdom & Hlen). unfold putEntry.
  destruct (m !! off) eqn:Hoff.
  { intros [= <- <-]. split_and!; [done| |done].
    rewrite dom_insert_L, Hdom. assert (off ∈ keys) by (apply Helem; eauto). set_solver. }
  assert (off ∉ keys) as Hnin by (rewrite Helem; intros [? ?]; done).
  destruct keys as [|old rest].
  { intros [= <- <-]. split_and!; [apply NoDup_singleton| |unfold zlen; cbn; lia].
    rewrite dom_insert_L, Hdom. set_solver. }
  apply NoDup_cons in Hnd as [Hold Hnd]. unfold zlen in *; cbn [length] in *.
  destruct (Z.leb_spec cap (Z.of_nat (size m))); intros [= <- <-].
  - split_and!.
    + apply NoDup_app. split_and!; [done|set_solver|apply NoDup_singleton].
    + rewrite dom_insert_L, dom_delete_L, Hdom, list_to_set_app_L. set_solver.
    + unfold zlen. rewrite length_app. cbn. lia.
  - split_and!.
    + rewrite app_comm_cons. apply NoDup_app.
      split_and!; [by apply NoDup_cons|set_solver|apply NoDup_singleton].
    + rewrite dom_insert_L, Hdom, app_comm_cons, list_to_set_app_L. set_solver.
    + unfold zlen. cbn [app length]. rewrite length_app. cbn [length]. lia.
Qed.

Lemma putMeta_wf c off e c' :
  cache_wf c -> putMeta (Some c) off e = Some c' -> cache_wf c'.
Proof.
  intros [Hm Hd]. cbn. destruct (putEntry _ _ _ _ _) as [m keys] eqn:E. intros [= <-].
  split; [|done]. cbn. eauto using putEntry_wf.
Qed.

Lemma putData_wf c off b c' :
  cache_wf c -> putData (Some c) off b = Some c' -> cache_wf c'.
Proof.
  intros [Hm Hd]. cbn. destruct (putEntry _ _ _ _ _) as [m keys] eqn:E. intros [= <-].
  split; [done|]. cbn. eauto using putEntry_wf.
Qed.

(** A binding read after a put is the one just stored or an older one. *)
Lemma putEntry_lookup {V} cap (m : gmap Z V) keys off e m' keys' k v :
  putEntry cap m keys off e = (m', keys') -> m' !! k = Some v ->
  (k = off /\ v = e) \/ m !! k = Some v.
Proof.
  unfold putEntry. intros H Hv.
  destruct (m !! off); [|destruct keys as [|old rest]; [|destruct (_ <=? _)]];
    injection H as <- <-; destruct (decide (off = k)) as [->|Hne];
    rewrite ?lookup_insert_eq, ?lookup_insert_ne in Hv by done;
    try (left; split; congruence); right; try done.
  apply lookup_delete_Some in Hv. tauto.
Qed.

Lemma getMeta_putMeta c off e k v :
  getMeta (putMeta c off e) k = Some v -> (k = off /\ v = e) \/ getMeta c k = Some v.
Proof.
  destruct c as [c|]; [|done]. cbn. destruct (putEntry _ _ _ _ _) as [m keys] eqn:E. cbn.
  eauto using putEntry_lookup.
Qed.

Lemma getData_putData c off b k v :
  getData (putData c off b) k = Some v -> (k = off /\ v = b) \/ getData c k = Some v.
Proof.
  destruct c as [c|]; [|done]. cbn. destruct (putEntry _ _ _ _ _) as [m keys] eqn:E. cbn.
  eauto using putEntry_lookup.
Qed.

Lemma getData_putMeta c off e k : getData (putMeta c off e) k = getData c k.
Proof. destruct c as [c|]; [|done]. cbn. by destruct (putEntry _ _ _ _ _). Qed.

Lemma getMeta_putData c off b k : getMeta (putData c off b) k = getMeta c k.
Proof. destruct c as [c|]; [|done]. cbn. by destruct (putEntry _ _ _ _ _). Qed.

#[export] Hint Resolve putMeta_wf putData_wf half_wf_empty : squashfs.

(** ** Refinement of the FIFO queue *)

Lemma fifo_view_lookup {V} (m : gmap Z V) keys i k v :
  (forall k, k ∈ keys -> is_Some (m !! k)) ->
  fifo_view m keys !! i = Some (k, v) <-> keys !! i = Some k /\ m !! k = Some v.
Proof.
  unfold fifo_view. revert i. induction keys as [|k' keys IH]; intros i H.
  { cbn. rewrite !lookup_nil. naive_solver. }
  destruct (H k') as [v' Hv']; [set_solver|]. cbn. rewrite Hv'. cbn.
  destruct i as [|i]; cbn; [naive_solver|]. apply IH. set_solver.
Qed.

Lemma fifo_get_view {V} cap (m : gmap Z V) keys k :
  half_wf cap m keys -> Fifo.get (fifo_view m keys) k = m !! k.
Proof.
  intros Hwf. assert (forall k, k ∈ keys -> is_Some (m !! k)) as Hk
    by (intros ? ?; by eapply half_wf_elem).
  unfold Fifo.get. destruct (list_find _ _) as [[i [k' v]]|] eqn:E; cbn.
  - apply list_find_Some in E as (Hi & Heq & _). cbn in Heq. subst k'.
    by apply fifo_view_lookup in Hi as [_ ->].
  - apply list_find_None in E. destruct (m !! k) as [v|] eqn:Hm; [|done]. exfalso.
    assert (k ∈ keys) as [i Hi]%list_elem_of_lookup by (eapply half_wf_elem; eauto).
    assert (fifo_view m keys !! i = Some (k, v)) as Hl by (apply fifo_view_lookup; eauto).
    rewrite Forall_lookup in E. by apply (E _ _ Hl).
Qed.

Lemma fifo_view_ext {V} (m m' : gmap Z V) keys :
  (forall k, k ∈ keys -> m !! k = m' !! k) -> fifo_view m keys = fifo_view m' keys.
Proof.
  unfold fifo_view. induction keys as [|k keys IH]; intros H; [done|]. cbn.
  rewrite H by set_solver. rewrite IH by set_solver. done.
Qed.

Lemma fifo_view_length {V} cap (m : gmap Z V) keys :
  half_wf cap m keys -> length (fifo_view m keys) = length keys.
Proof.
  intros Hwf. assert (forall k, k ∈ keys -> is_Some (m !! k)) as Hk
    by (intros ? ?; by eapply half_wf_elem).
  clear Hwf. unfold fifo_view. induction keys as [|k keys IH]; [done|].
  destruct (Hk k) as [v Hv]; [set_solver|]. cbn. rewrite Hv. cbn. f_equal. apply IH. set_solver.
Qed.

Lemma fifo_view_insert {V} (m : gmap Z V) keys off e :
  (forall k, k ∈ keys -> is_Some (m !! k)) ->
  fifo_view (<[off:=e]> m) keys =
  (fun p => if decide (fst p = off) then (off, e) else p) <$> fifo_view m keys.
Proof.
  unfold fifo_view. induction keys as [|k keys IH]; intros H; [done|].
  destruct (H k) as [v Hv]; [set_solver|]. cbn. rewrite Hv. cbn.
  destruct (decide (k = off)) as [->|Hne].
  - rewrite lookup_insert_eq. cbn. f_equal. apply IH. set_solver.
  - rewrite lookup_insert_ne, Hv by done. cbn. f_equal. apply IH. set_solver.
Qed.

Lemma fifo_view_snoc {V} (m : gmap Z V) keys off e :
  off ∉ keys -> fifo_view (<[off:=e]> m) (keys ++ [off]) = fifo_view m keys ++ [(off, e)].
Proof.
  intros H. unfold fifo_view at 1. rewrite omap_app. f_equal.
  - apply fifo_view_ext. intros k Hk. apply lookup_insert_ne. set_solver.
  - cbn. by rewrite lookup_insert_eq.
Qed.

Lemma putEntry_fifo {V} cap (m : gmap Z V) keys off e m' keys' :
  half_wf cap m keys -> putEntry cap m keys off e = (m', keys') ->
  fifo_view m' keys' = Fifo.put cap (fifo_view m keys) off e.
Proof.
  intros Hwf. unfold putEntry, Fifo.put.
  rewrite (fifo_get_view _ _ _ _ Hwf).
  pose proof (half_wf_size _ _ _ Hwf) as Hsize.
  assert (forall k, k ∈ keys -> is_Some (m !! k)) as Hk
    by (intros ? ?; by eapply half_wf_elem).
  assert (zlen (fifo_view m keys) = zlen keys) as Hlen
    by (unfold zlen; by erewrite fifo_view_length).
  destruct (m !! off) eqn:Hoff.
  { intros [= <- <-]. by apply fifo_view_insert. }
  assert (off ∉ keys) as Hnin by (intros [? ?]%Hk; congruence).
  destruct keys as [|old rest].
  { intros [= <- <-]. unfold fifo_view. cbn. rewrite lookup_insert_eq. by destruct (_ <=? _). }
  rewrite Hlen, <- Hsize. destruct (Z.leb_spec cap (Z.of_nat (size m))); intros [= <- <-].
  2:{ rewrite app_comm_cons. by rewrite fifo_view_snoc. }
  rewrite fifo_view_snoc by set_solver. f_equal.
  destruct (Hk old) as [v Hv]; [set_solver|].
  unfold fifo_view at 2. cbn. rewrite Hv. cbn. apply fifo_view_ext.
  intros k Hin. apply lookup_delete_ne. destruct Hwf as (Hnd & _).
  apply NoDup_cons in Hnd as [? ?]. set_solver.
Qed.

(** ** Runs of the cache against two queues *)

(** The four methods, as operations on the cache. *)
Inductive cacheOp :=
| GetMetaOp (off : Z)
| PutMetaOp (off : Z) (e : metaEntry)
| GetDataOp (off : Z)
| PutDataOp (off : Z) (b : list byte).

Inductive cacheAnswer :=
| MetaAnswer (o : option metaEntry)
| DataAnswer (o : option (list byte))
| PutAnswer.

Definition cache_op (c : option blockCache) (o : cacheOp) : cacheAnswer * option blockCache :=
  match o with
  | GetMetaOp off => (MetaAnswer (getMeta c off), c)
  | PutMetaOp off e => (PutAnswer, putMeta c off e)
  | GetDataOp off => (DataAnswer (getData c off), c)
  | PutDataOp off b => (PutAnswer, putData c off b)
  end.

Fixpoint cache_run (c : option blockCache) (ops : list cacheOp) : list cacheAnswer * option blockCache :=
  match ops with
  | [] => ([], c)
  | o :: ops =>
      let '(a, c) := cache_op c o in
      let '(l, c) := cache_run c ops in
      (a :: l, c)
  end.

(** The specification: one bounded queue for metadata, one for data. *)
Definition queues : Type := list (Z * metaEntry) * list (Z * list byte).

Definition queue_op (q : queues) (o : cacheOp) : cacheAnswer * queues :=
  match o with
  | GetMetaOp off => (MetaAnswer (Fifo.get (fst q) off), q)
  | PutMetaOp off e => (PutAnswer, (Fifo.put defaultMetaCacheBlocks (fst q) off e, snd q))
  | GetDataOp off => (DataAnswer (Fifo.get (snd q) off), q)
  | PutDataOp off b => (PutAnswer, (fst q, Fifo.put defaultDataCacheBlocks (snd q) off b))
  end.

Fixpoint queue_run (q : queues) (ops : list cacheOp) : list cacheAnswer * queues :=
  match ops with
  | [] => ([], q)
  | o :: ops =>
      let '(a, q) := queue_op q o in
      let '(l, q) := queue_run q ops in
      (a :: l, q)
  end.

(** The cache stands for the queues. *)
Definition implements (c : blockCache) (q : queues) : Prop :=
  cache_wf c /\ bc_metaCap c = defaultMetaCacheBlocks /\ bc_dataCap c = defaultDataCacheBlocks /\
  fifo_view (bc_meta c) (bc_metaKeys c) = fst q /\ fifo_view (bc_data c) (bc_dataKeys c) = snd q.

Lemma implements_new : implements newBlockCache ([], []).
Proof. split; [split; apply half_wf_empty|done]. Qed.

(** One operation: the same answer, and states that still correspond. *)
Lemma cache_op_queue c q o :
  implements c q -> exists c', cache_op (Some c) o = (fst (queue_op q o), Some c') /\
    implements c' (snd (queue_op q o)).
Proof.
  intros Hi. pose proof Hi as ([Hm Hd] & Hcm & Hcd & Hvm & Hvd). destruct o as [off|off e|off|off b]; cbn.
  - exists c. split; [|done]. by rewrite <- Hvm, (fifo_get_view _ _ _ off Hm).
  - destruct (putEntry _ _ _ _ _) as [m keys] eqn:E. eexists. split; [done|].
    pose proof (putEntry_wf _ _ _ _ _ _ _ Hm E) as Hwf. apply (putEntry_fifo _ _ _ _ _ _ _ Hm) in E.
    split; [by split|]. split_and!; [done|done| |done]. etrans; [exact E|]. by rewrite Hvm, Hcm.
  - exists c. split; [|done]. by rewrite <- Hvd, (fifo_get_view _ _ _ off Hd).
  - destruct (putEntry _ _ _ _ _) as [m keys] eqn:E. eexists. split; [done|].
    pose proof (putEntry_wf _ _ _ _ _ _ _ Hd E) as Hwf. apply (putEntry_fifo _ _ _ _ _ _ _ Hd) in E.
    split; [by split|]. split_and!; [done|done|done|]. etrans; [exact E|]. by rewrite Hvd, Hcd.
Qed.

Lemma cache_run_queue c q ops :
  implements c q -> exists c', cache_run (Some c) ops = (fst (queue_run q ops), Some c') /\
    implements c' (snd (queue_run q ops)).
Proof.
  revert c q. induction ops as [|o ops IH]; intros c q Hi; [by exists c|].
  destruct (cache_op_queue c q o Hi) as (c1 & Ho & Hi1). cbn [cache_run queue_run].
  rewrite Ho. destruct (queue_op q o) as [a q1]. cbn [fst snd] in *.
  destruct (IH c1 q1 Hi1) as (c2 & -> & Hi2). exists c2. by destruct (queue_run q1 ops).
Qed.
