(* ===== verification/Prog.v ===== *)
(** * Reader programs: calls that use the shared cache and allocate

    A call of the reader is a [prog]: a tree of the effects it performs on
    state other calls can see or pay for, ending in its (value, error) pair.
    The effects are the four cache methods (each atomic, src/cache.go) and
    the allocations whose size comes from the image ([Make n] is
    make([]T, 0, n) or make([]T, n), which panics when n is negative).
    Everything else is pure: the image behind the io.ReaderAt never changes.

    [exec] runs a program alone against a cache; [uncached] runs it with a
    nil cache.  [wp] is the proof rule shared by all components: it holds of
    a program whose outcome satisfies a postcondition whatever valid answers
    the cache gives, and which stores only valid entries and makes only
    allocations of an allowed size.  It therefore speaks of sequential runs
    ([wp_exec]) and of interleaved ones (Concurrency.v) alike. *)

From S2P Require Export Cache.

Inductive prog (A : Type) : Type :=
| Ret (r : result A)
| GetMeta (off : Z) (k : option metaEntry -> prog A)
| PutMeta (off : Z) (e : metaEntry) (k : prog A)
| GetData (off : Z) (k : option (list byte) -> prog A)
| PutData (off : Z) (b : list byte) (k : prog A)
| Make (n : Z) (k : prog A).
Arguments Ret {A} r.
Arguments GetMeta {A} off k.
Arguments PutMeta {A} off e k.
Arguments GetData {A} off k.
Arguments PutData {A} off b k.
Arguments Make {A} n k.

Fixpoint pbind {A B} (p : prog A) (f : A -> prog B) : prog B :=
  match p with
  | Ret (Ok a) => f a
  | Ret (Err e) => Ret (Err e)
  | GetMeta off k => GetMeta off (fun o => pbind (k o) f)
  | PutMeta off e k => PutMeta off e (pbind k f)
  | GetData off k => GetData off (fun o => pbind (k o) f)
  | PutData off b k => PutData off b (pbind k f)
  | Make n k => Make n (pbind k f)
  end.

#[global] Instance prog_ret : MRet prog := fun _ a => Ret (Ok a).
#[global] Instance prog_bind : MBind prog := fun _ _ f p => pbind p f.

(** return nil, err *)
Definition throw {A} (e : err) : prog A := Ret (Err e).
(** A pure step that may return an error. *)
Definition lift {A} (r : result A) : prog A := Ret r.
Definition make (n : Z) : prog unit := Make n (Ret (Ok tt)).

(** Observe a call's (value, error) pair instead of returning early on the
    error; a panic still unwinds. *)
Definition observe {A} (r : result A) : result (result A) :=
  match r with
  | Err Panic => Err Panic
  | Err OutOfFuel => Err OutOfFuel
  | _ => Ok r
  end.

Fixpoint attempt {A} (p : prog A) : prog (result A) :=
  match p with
  | Ret r => Ret (observe r)
  | GetMeta off k => GetMeta off (fun o => attempt (k o))
  | PutMeta off e k => PutMeta off e (attempt k)
  | GetData off k => GetData off (fun o => attempt (k o))
  | PutData off b k => PutData off b (attempt k)
  | Make n k => Make n (attempt k)
  end.

(** Run alone, with the given cache. *)
Fixpoint exec {A} (p : prog A) (c : option blockCache) : result A * option blockCache :=
  match p with
  | Ret r => (r, c)
  | GetMeta off k => exec (k (getMeta c off)) c
  | PutMeta off e k => exec k (putMeta c off e)
  | GetData off k => exec (k (getData c off)) c
  | PutData off b k => exec k (putData c off b)
  | Make n k => if n <? 0 then (Err Panic, c) else exec k c
  end.

(** Run with a nil cache: every get misses, every put is dropped. *)
Fixpoint uncached {A} (p : prog A) : result A :=
  match p with
  | Ret r => r
  | GetMeta off k => uncached (k None)
  | PutMeta off e k => uncached k
  | GetData off k => uncached (k None)
  | PutData off b k => uncached k
  | Make n k => if n <? 0 then Err Panic else uncached k
  end.

Lemma exec_nil {A} (p : prog A) : exec p None = (uncached p, None).
Proof. induction p; cbn; try done. by destruct (_ <? _). Qed.

Lemma uncached_bind {A B} (p : prog A) (f : A -> prog B) :
  uncached (p ≫= f) = rbind (uncached p) (fun a => uncached (f a)).
Proof.
  unfold mbind, prog_bind. induction p as [[a|e]|off k IH| | | |]; cbn; auto.
  by destruct (_ <? _).
Qed.

(** Sequencing in a totality proof. *)
Lemma sane_pbind {A B} (p : prog A) (f : A -> prog B) :
  sane (uncached p) -> (forall a, uncached p = Ok a -> sane (uncached (f a))) ->
  sane (uncached (p ≫= f)).
Proof. intros Hp Hf. rewrite uncached_bind. by apply sane_bind. Qed.

Lemma uncached_lift {A} (r : result A) : uncached (lift r) = r.
Proof. done. Qed.

Lemma uncached_attempt {A} (p : prog A) : uncached (attempt p) = observe (uncached p).
Proof. induction p; cbn; auto. by destruct (_ <? _). Qed.

Lemma observe_sane {A} (r : result A) : sane r -> observe r = Ok r.
Proof. intros [H1 H2]. by destruct r as [|[]]. Qed.

Lemma uncached_throw {A} e : uncached (throw (A := A) e) = Err e.
Proof. done. Qed.

Lemma uncached_make n : 0 <= n -> uncached (make n) = Ok tt.
Proof. intros. cbn. by destruct (Z.ltb_spec n 0); [lia|]. Qed.

(** ** The program logic *)

Section wp.

(** Which entries count as valid answers of the cache, and which allocation
    sizes are allowed. *)
Context (okM : Z -> metaEntry -> Prop) (okD : Z -> list byte -> Prop) (okA : Z -> Prop).

Fixpoint wp {A} (p : prog A) (Q : result A -> Prop) : Prop :=
  match p with
  | Ret r => Q r
  | GetMeta off k => forall o, (forall e, o = Some e -> okM off e) -> wp (k o) Q
  | PutMeta off e k => okM off e /\ wp k Q
  | GetData off k => forall o, (forall b, o = Some b -> okD off b) -> wp (k o) Q
  | PutData off b k => okD off b /\ wp k Q
  | Make n k => 0 <= n /\ okA n /\ wp k Q
  end.

(** A cache that holds only valid entries. *)
Definition cache_ok (c : option blockCache) : Prop :=
  (forall off e, getMeta c off = Some e -> okM off e) /\
  (forall off b, getData c off = Some b -> okD off b).

Lemma wp_mono {A} (p : prog A) (Q Q' : result A -> Prop) :
  (forall r, Q r -> Q' r) -> wp p Q -> wp p Q'.
Proof.
  intros HQ. induction p as [r|off k IH|off e k IH|off k IH|off b k IH|n k IH]; cbn; auto.
  all: naive_solver.
Qed.

Lemma wp_bind {A B} (p : prog A) (f : A -> prog B) Q :
  wp p (fun r => match r with Ok a => wp (f a) Q | Err e => Q (Err e) end) ->
  wp (p ≫= f) Q.
Proof.
  unfold mbind, prog_bind.
  induction p as [[a|e]|off k IH|off e k IH|off k IH|off b k IH|n k IH]; cbn; auto.
  all: naive_solver.
Qed.

(** Sequencing with an intermediate assertion. *)
Lemma wp_seq {A B} (p : prog A) (f : A -> prog B) P Q :
  wp p P -> (forall a, P (Ok a) -> wp (f a) Q) -> (forall e, P (Err e) -> Q (Err e)) ->
  wp (p ≫= f) Q.
Proof.
  intros Hp Hok Herr. apply wp_bind. eapply wp_mono; [|exact Hp].
  intros [a|e]; [apply Hok|apply Herr].
Qed.

Lemma wp_lift {A} (r : result A) (Q : result A -> Prop) : Q r -> wp (lift r) Q.
Proof. done. Qed.

Lemma wp_make n (Q : result unit -> Prop) : 0 <= n -> okA n -> Q (Ok tt) -> wp (make n) Q.
Proof. done. Qed.

Lemma wp_ret {A} (a : A) (Q : result A -> Prop) : Q (Ok a) -> wp (mret a) Q.
Proof. done. Qed.

Lemma wp_and {A} (p : prog A) Q1 Q2 :
  wp p Q1 -> wp p Q2 -> wp p (fun r => Q1 r /\ Q2 r).
Proof.
  induction p as [r|off k IH|off e k IH|off k IH|off b k IH|n k IH]; cbn; auto.
  all: naive_solver.
Qed.

Lemma wp_attempt {A} (p : prog A) (Q : result (result A) -> Prop) :
  wp p (fun r => Q (observe r)) -> wp (attempt p) Q.
Proof.
  induction p as [r|off k IH|off e k IH|off k IH|off b k IH|n k IH]; cbn; auto.
  all: naive_solver.
Qed.

(** A program that meets its specification from a valid cache does so from
    the nil cache. *)
Lemma wp_uncached {A} (p : prog A) Q : wp p Q -> Q (uncached p).
Proof.
  induction p as [r|off k IH|off e k IH|off k IH|off b k IH|n k IH]; cbn; auto.
  - intros H. apply IH, H. done.
  - naive_solver.
  - intros H. apply IH, H. done.
  - naive_solver.
  - intros (Hn & _ & H). destruct (Z.ltb_spec n 0); [lia|]. auto.
Qed.

Lemma cache_ok_nil : cache_ok None.
Proof. done. Qed.

Lemma cache_ok_new : cache_ok (Some newBlockCache).
Proof. split; intros ? ? H; cbn in H; by rewrite lookup_empty in H. Qed.

Lemma cache_ok_putMeta c off e : cache_ok c -> okM off e -> cache_ok (putMeta c off e).
Proof.
  intros [Hm Hd] He. split.
  - intros k v [[-> ->]|H]%getMeta_putMeta; auto.
  - intros k v. rewrite getData_putMeta. auto.
Qed.

Lemma cache_ok_putData c off b : cache_ok c -> okD off b -> cache_ok (putData c off b).
Proof.
  intros [Hm Hd] Hb. split.
  - intros k v. rewrite getMeta_putData. auto.
  - intros k v [[-> ->]|H]%getData_putData; auto.
Qed.

Lemma wp_exec {A} (p : prog A) Q c :
  wp p Q -> cache_ok c -> Q (fst (exec p c)) /\ cache_ok (snd (exec p c)).
Proof.
  revert c. induction p as [r|off k IH|off e k IH|off k IH|off b k IH|n k IH]; cbn; intros c H Hc.
  - done.
  - apply IH; [|done]. apply H. intros e He. by apply Hc.
  - apply IH; [tauto|]. apply cache_ok_putMeta; tauto.
  - apply IH; [|done]. apply H. intros b Hb. by apply Hc.
  - apply IH; [tauto|]. apply cache_ok_putData; tauto.
  - destruct H as (Hn & _ & H). destruct (Z.ltb_spec n 0); [lia|]. auto.
Qed.

(** A program is transparent when the cache cannot change its outcome. *)
Definition transparent {A} (p : prog A) : Prop := wp p (fun r => r = uncached p).

Lemma transparent_bind {A B} (p : prog A) (f : A -> prog B) :
  transparent p -> (forall a, uncached p = Ok a -> transparent (f a)) ->
  transparent (p ≫= f).
Proof.
  intros Hp Hf. apply wp_bind. eapply wp_mono; [|exact Hp]. intros r ->.
  rewrite uncached_bind. destruct (uncached p) as [a|e] eqn:E; [|done]. by apply Hf.
Qed.

Lemma transparent_ret {A} (r : result A) : transparent (Ret r).
Proof. done. Qed.

Lemma transparent_mret {A} (a : A) : transparent (mret a).
Proof. done. Qed.

Lemma transparent_make n : 0 <= n -> okA n -> transparent (make n).
Proof. intros Hn HA. unfold transparent. rewrite uncached_make by done. by cbn. Qed.

Lemma transparent_attempt {A} (p : prog A) : transparent p -> transparent (attempt p).
Proof.
  intros Hp. apply wp_attempt. rewrite uncached_attempt. eapply wp_mono; [|exact Hp].
  by intros r ->.
Qed.

Lemma transparent_exec {A} (p : prog A) c :
  transparent p -> cache_ok c ->
  fst (exec p c) = uncached p /\ cache_ok (snd (exec p c)).
Proof. intros H Hc. exact (wp_exec p _ c H Hc). Qed.

Lemma transparent_wp {A} (p : prog A) (Q : result A -> Prop) :
  transparent p -> Q (uncached p) -> wp p Q.
Proof. intros Hp HQ. eapply wp_mono; [|exact Hp]. by intros r ->. Qed.

End wp.

#[export] Hint Resolve transparent_ret transparent_mret transparent_make transparent_attempt : transp.
#[export] Hint Extern 1 (transparent _ _ _ (throw _)) => apply transparent_ret : transp.
#[export] Hint Extern 1 (transparent _ _ _ (lift _)) => apply transparent_ret : transp.

(** Split a transparency goal along binds, tests and matches. *)
Ltac transp :=
  repeat first
    [ progress intros
    | match goal with
      | |- transparent _ _ _ (_ ≫= _) => apply transparent_bind
      | |- transparent _ _ _ (if ?b then _ else _) => destruct b eqn:?
      | |- transparent _ _ _ (match ?x with _ => _ end) => destruct x eqn:?
      end
    | solve [eauto with transp] ].

Lemma wp_okA_mono {A} okM okD (okA okA' : Z -> Prop) (p : prog A) Q :
  (forall n, okA n -> okA' n) -> wp okM okD okA p Q -> wp okM okD okA' p Q.
Proof.
  intros HA. induction p as [r|off k IH|off e k IH|off k IH|off b k IH|n k IH]; cbn; auto.
  all: naive_solver.
Qed.
