(* ===== verification/ReaderAt.v ===== *)
(** * io.ReaderAt, the image as the reader sees it

    The package reads the image only through [rs.ReadAt(p, off)] and uses the
    bytes only when the error is nil.  [ReadAt rs off n] is the outcome for a
    buffer of [n] bytes; the laws are the interface's contract: a nil error
    means the buffer is full, and a call returns.  The image is read-only, so
    the outcome is a function of the arguments.  [bytes_Reader] is the
    standard library's bytes.Reader over an image in memory. *)

From S2P Require Export Prelude.

Record ReaderAt := {
  ReadAt : Z -> nat -> result (list byte);
  ReadAt_len : forall off n b, ReadAt off n = Ok b -> length b = n;
  ReadAt_sane : forall off n, sane (ReadAt off n)
}.

(** bytes.Reader.ReadAt: a negative offset is an error, an offset at or past
    the end is io.EOF, and so is a short copy. *)
Definition bytes_ReadAt (img : list byte) (off : Z) (n : nat) : result (list byte) :=
  if off <? 0 then Err ErrIO
  else if zlen img <=? off then Err ErrEOF
  else
    let b := take n (drop (Z.to_nat off) img) in
    if (length b <? n)%nat then Err ErrEOF else Ok b.

Lemma bytes_ReadAt_len img off n b : bytes_ReadAt img off n = Ok b -> length b = n.
Proof.
  unfold bytes_ReadAt. destruct (_ <? 0); [done|]. destruct (_ <=? _); [done|].
  destruct (Nat.ltb_spec (length (take n (drop (Z.to_nat off) img))) n); [done|].
  intros [= <-]. rewrite length_take in *. lia.
Qed.

Lemma bytes_ReadAt_sane img off n : sane (bytes_ReadAt img off n).
Proof.
  unfold bytes_ReadAt. destruct (_ <? 0); [done|]. destruct (_ <=? _); [done|].
  by destruct (_ <? _)%nat.
Qed.

Definition bytes_Reader (img : list byte) : ReaderAt :=
  {| ReadAt := bytes_ReadAt img;
     ReadAt_len := bytes_ReadAt_len img;
     ReadAt_sane := bytes_ReadAt_sane img |}.

(** A read inside the image returns the bytes there. *)
Lemma bytes_ReadAt_app pre mid post :
  mid <> [] ->
  bytes_ReadAt (pre ++ mid ++ post) (zlen pre) (length mid) = Ok mid.
Proof.
  intros Hne. unfold bytes_ReadAt, zlen. destruct (Z.ltb_spec (Z.of_nat (length pre)) 0); [lia|].
  assert (length mid <> 0%nat) by (by destruct mid).
  destruct (Z.leb_spec (Z.of_nat (length (pre ++ mid ++ post))) (Z.of_nat (length pre))) as [H'|H'].
  { rewrite !length_app in H'. lia. }
  rewrite Nat2Z.id, drop_app_length, take_app_length.
  by rewrite Nat.ltb_irrefl.
Qed.

(** Adjacent reads compose. *)
Lemma bytes_ReadAt_range img off n b :
  bytes_ReadAt img off n = Ok b -> (0 < n)%nat ->
  0 <= off /\ off + Z.of_nat n <= zlen img /\ b = take n (drop (Z.to_nat off) img).
Proof.
  intros H Hn. pose proof (bytes_ReadAt_len _ _ _ _ H) as Hl. revert H.
  unfold bytes_ReadAt. destruct (Z.ltb_spec off 0); [done|]. destruct (_ <=? _); [done|].
  destruct (_ <? n)%nat; [done|]. intros [= <-].
  rewrite length_take, length_drop in Hl. unfold zlen. split_and!; [done|lia|done].
Qed.
