(* ===== verification/Superblock.v ===== *)
(** * The superblock (src/superblock.go)

    The decoded record, its validation, and the compressor-options block that
    may follow it.  [sb_wf] is what a successful [readSuperblock] guarantees:
    every later division by the block size and every buffer sized from it
    relies on it. *)

From S2P Require Export ReaderAt.

Definition Magic : Z := 0x73717368.

Definition compGZIP : Z := 1.
Definition compLZMA : Z := 2.
Definition compLZO : Z := 3.
Definition compXZ : Z := 4.
Definition compLZ4 : Z := 5.
Definition compZSTD : Z := 6.

Definition maxBlockSize : Z := 2 ^ 20.
Definition maxBlockLog : Z := 20.
Definition superblockSize : nat := 96.
Definition sbFlagCompressorOptions : Z := 0x0400.

(** metaBlockMax of src/metadata.go, which readCompressorOptions also uses. *)
Definition metaBlockMax : Z := 8192.

Record Superblock := mkSuperblock {
  sb_Magic : Z;            (* uint32 *)
  sb_InodeCount : Z;       (* uint32 *)
  sb_ModTime : Z;          (* uint32 *)
  sb_BlockSize : Z;        (* uint32 *)
  sb_FragCount : Z;        (* uint32 *)
  sb_Compression : Z;      (* uint16 *)
  sb_BlockLog : Z;         (* uint16 *)
  sb_Flags : Z;            (* uint16 *)
  sb_IDCount : Z;          (* uint16 *)
  sb_VersionMajor : Z;     (* uint16 *)
  sb_VersionMinor : Z;     (* uint16 *)
  sb_RootInode : Z;        (* uint64 *)
  sb_BytesUsed : Z;        (* uint64 *)
  sb_IDTableStart : Z;     (* uint64 *)
  sb_XattrTableStart : Z;  (* uint64 *)
  sb_InodeTableStart : Z;  (* uint64 *)
  sb_DirTableStart : Z;    (* uint64 *)
  sb_FragTableStart : Z;   (* uint64 *)
  sb_LookupTableStart : Z  (* uint64 *)
}.

(** The field decoding of readSuperblock. *)
Definition decodeSuperblock (buf : list byte) : Superblock := {|
  sb_Magic := le_Uint32 (drop 0x00 buf);
  sb_InodeCount := le_Uint32 (drop 0x04 buf);
  sb_ModTime := le_Uint32 (drop 0x08 buf);
  sb_BlockSize := le_Uint32 (drop 0x0C buf);
  sb_FragCount := le_Uint32 (drop 0x10 buf);
  sb_Compression := le_Uint16 (drop 0x14 buf);
  sb_BlockLog := le_Uint16 (drop 0x16 buf);
  sb_Flags := le_Uint16 (drop 0x18 buf);
  sb_IDCount := le_Uint16 (drop 0x1A buf);
  sb_VersionMajor := le_Uint16 (drop 0x1C buf);
  sb_VersionMinor := le_Uint16 (drop 0x1E buf);
  sb_RootInode := le_Uint64 (drop 0x20 buf);
  sb_BytesUsed := le_Uint64 (drop 0x28 buf);
  sb_IDTableStart := le_Uint64 (drop 0x30 buf);
  sb_XattrTableStart := le_Uint64 (drop 0x38 buf);
  sb_InodeTableStart := le_Uint64 (drop 0x40 buf);
  sb_DirTableStart := le_Uint64 (drop 0x48 buf);
  sb_FragTableStart := le_Uint64 (drop 0x50 buf);
  sb_LookupTableStart := le_Uint64 (drop 0x58 buf)
|}.

Definition readSuperblock (rs : ReaderAt) : result Superblock :=
  buf ← ReadAt rs 0 superblockSize;
  let sb := decodeSuperblock buf in
  if negb (sb_Magic sb =? Magic) then Err ErrBadMagic
  else if negb (sb_VersionMajor sb =? 4) || negb (sb_VersionMinor sb =? 0)
  then Err ErrUnsupportedVersion
  else if (maxBlockLog <? sb_BlockLog sb) || (maxBlockSize <? sb_BlockSize sb) ||
          (sb_BlockSize sb =? 0) || negb (sb_BlockSize sb =? Z.shiftl 1 (sb_BlockLog sb))
  then Err ErrCorrupt
  else Ok sb.

Definition readCompressorOptions (rs : ReaderAt) (sb : Superblock) : result unit :=
  if Z.land (sb_Flags sb) sbFlagCompressorOptions =? 0 then Ok tt
  else
    hdr ← ReadAt rs (Z.of_nat superblockSize) 2;
    let h := le_Uint16 hdr in
    let size := Z.ldiff h 0x8000 in
    if (size =? 0) || (metaBlockMax <? size) then Err ErrCorrupt
    else
      _ ← ReadAt rs (Z.of_nat superblockSize + 2) (Z.to_nat size);
      Ok tt.

(** ** What validation guarantees *)

(** Every field within its on-disk width. *)
Definition sb_fields_ok (sb : Superblock) : Prop :=
  0 <= sb_Magic sb < 2 ^ 32 /\ 0 <= sb_InodeCount sb < 2 ^ 32 /\
  0 <= sb_ModTime sb < 2 ^ 32 /\ 0 <= sb_BlockSize sb < 2 ^ 32 /\
  0 <= sb_FragCount sb < 2 ^ 32 /\ 0 <= sb_Compression sb < 2 ^ 16 /\
  0 <= sb_BlockLog sb < 2 ^ 16 /\ 0 <= sb_Flags sb < 2 ^ 16 /\
  0 <= sb_IDCount sb < 2 ^ 16 /\ 0 <= sb_VersionMajor sb < 2 ^ 16 /\
  0 <= sb_VersionMinor sb < 2 ^ 16 /\ 0 <= sb_RootInode sb < 2 ^ 64 /\
  0 <= sb_BytesUsed sb < 2 ^ 64 /\ 0 <= sb_IDTableStart sb < 2 ^ 64 /\
  0 <= sb_XattrTableStart sb < 2 ^ 64 /\ 0 <= sb_InodeTableStart sb < 2 ^ 64 /\
  0 <= sb_DirTableStart sb < 2 ^ 64 /\ 0 <= sb_FragTableStart sb < 2 ^ 64 /\
  0 <= sb_LookupTableStart sb < 2 ^ 64.

(** Accepted superblocks: SquashFS 4.0, and a block size that is the power of
    two block_log names, between 1 byte and 1 MiB. *)
Definition sb_wf (sb : Superblock) : Prop :=
  sb_Magic sb = Magic /\ sb_VersionMajor sb = 4 /\ sb_VersionMinor sb = 0 /\
  0 <= sb_BlockLog sb <= 20 /\ sb_BlockSize sb = 2 ^ sb_BlockLog sb /\
  1 <= sb_BlockSize sb <= 2 ^ 20.

Lemma decodeSuperblock_fields buf : sb_fields_ok (decodeSuperblock buf).
Proof.
  unfold sb_fields_ok, decodeSuperblock. cbn [sb_Magic sb_InodeCount sb_ModTime sb_BlockSize
    sb_FragCount sb_Compression sb_BlockLog sb_Flags sb_IDCount sb_VersionMajor sb_VersionMinor
    sb_RootInode sb_BytesUsed sb_IDTableStart sb_XattrTableStart sb_InodeTableStart
    sb_DirTableStart sb_FragTableStart sb_LookupTableStart].
  repeat (apply conj; [first [apply le_Uint16_range | apply le_Uint32_range | apply le_Uint64_range]|]).
  apply le_Uint64_range.
Qed.

Lemma readSuperblock_inv rs sb :
  readSuperblock rs = Ok sb -> sb_fields_ok sb /\ sb_wf sb.
Proof.
  unfold readSuperblock. rstep. destruct (ReadAt rs 0 superblockSize) as [buf|]; rstep; [|done].
  pose proof (decodeSuperblock_fields buf) as Hf.
  set (s := decodeSuperblock buf) in *. clearbody s.
  destruct (Z.eqb_spec (sb_Magic s) Magic); rstep; [|done].
  destruct (Z.eqb_spec (sb_VersionMajor s) 4); rstep; [|done].
  destruct (Z.eqb_spec (sb_VersionMinor s) 0); rstep; [|done].
  unfold maxBlockLog, maxBlockSize.
  destruct (Z.ltb_spec 20 (sb_BlockLog s)); rstep; [done|].
  destruct (Z.ltb_spec (2 ^ 20) (sb_BlockSize s)); rstep; [done|].
  destruct (Z.eqb_spec (sb_BlockSize s) 0); rstep; [done|].
  destruct (Z.eqb_spec (sb_BlockSize s) (Z.shiftl 1 (sb_BlockLog s))) as [Hb|]; rstep; [|done].
  intros [= <-]. split; [done|]. unfold sb_fields_ok in Hf.
  rewrite Z.shiftl_mul_pow2, Z.mul_1_l in Hb by lia. unfold sb_wf. lia.
Qed.

Lemma readSuperblock_sane rs : sane (readSuperblock rs).
Proof.
  unfold readSuperblock. rstep. pose proof (ReadAt_sane rs 0 superblockSize) as Hs.
  destruct (ReadAt rs 0 superblockSize) as [buf|e]; rstep.
  - repeat (destruct (negb _ || _) || destruct (negb _) || destruct (_ || _)); done.
  - destruct Hs. split; congruence.
Qed.

Lemma readCompressorOptions_sane rs sb : sane (readCompressorOptions rs sb).
Proof.
  unfold readCompressorOptions. destruct (_ =? 0); [done|]. rstep.
  pose proof (ReadAt_sane rs (Z.of_nat superblockSize) 2) as H1.
  destruct (ReadAt rs (Z.of_nat superblockSize) 2) as [hdr|e]; rstep; [|destruct H1; split; congruence].
  destruct (_ || _); [done|].
  match goal with |- context [ReadAt rs ?o ?n] => pose proof (ReadAt_sane rs o n) as H2;
    destruct (ReadAt rs o n) as [b|e] end; rstep; [done|destruct H2; split; congruence].
Qed.
