(* ===== verification/Decompress.v ===== *)
(** * Block decompressors (src/decompress.go)

    One constructor per implementation of the [decompressor] interface.  The
    codecs themselves are libraries outside the repository: they are the
    fields of [CodecLib], and [CodecLaws] is the behaviour the package relies
    on (calls return; a decoder into a caller's buffer reports a count within
    it).  What the package adds around them is translated: the output limit
    of every codec, the memory cap of the zstd decoder, the shape check of xz streams, the dictionary ceiling and
    the mapping of the libraries' size error. *)

From S2P Require Export Prog Superblock.

(** A decoder's io.Reader: the bytes it delivers, then io.EOF ([None]) or an
    error. *)
Record stream := Stream { st_bytes : list byte; st_end : option err }.

(** io.ReadAll(io.LimitReader(r, n)): at most [n] bytes; what follows them,
    an error included, is never reached. *)
Definition ReadAllLimit (r : stream) (n : Z) : result (list byte) :=
  if n <=? zlen (st_bytes r) then Ok (take (Z.to_nat n) (st_bytes r))
  else match st_end r with None => Ok (st_bytes r) | Some e => Err e end.

(** binary.Uvarint of the standard library: (value, n) with n > 0 the bytes
    read, n = 0 when the buffer is too small and n < 0 on overflow. *)
Fixpoint Uvarint_go (buf : list byte) (i x s : Z) : Z * Z :=
  match buf with
  | [] => (0, 0)
  | b :: rest =>
      let b := byte.unsigned b in
      if i =? 10 then (0, - (i + 1))
      else if b <? 0x80 then
        if (i =? 9) && (1 <? b) then (0, - (i + 1))
        else (Z.lor x (u64 (Z.shiftl b s)), i + 1)
      else Uvarint_go rest (i + 1) (Z.lor x (u64 (Z.shiftl (Z.land b 0x7f) s))) (s + 7)
  end.
Definition Uvarint (buf : list byte) : Z * Z := Uvarint_go buf 0 0 0.

(** The codec libraries. *)
Class CodecLib := {
  zlib_NewReader : list byte -> result stream;
  xz_NewReader : Z -> list byte -> result stream;    (* MaxDictionary, source *)
  lzma_NewReader : Z -> list byte -> result stream;  (* MaxDictionary, source *)
  lzma_MinDictCap : Z;
  (* source and the length of the destination: the count and the destination
     as the call leaves it *)
  lzo_Decompress : list byte -> Z -> result (Z * list byte);
  lz4_UncompressBlock : list byte -> Z -> result (Z * list byte);
  (* WithDecoderMaxMemory, WithDecoderMaxWindow, source *)
  zstd_DecodeAll : Z -> Z -> list byte -> result (list byte)
}.

Class CodecLaws `{CodecLib} : Prop := {
  zlib_sane : forall src, sane (zlib_NewReader src);
  xz_sane : forall cap src, sane (xz_NewReader cap src);
  lzma_sane : forall cap src, sane (lzma_NewReader cap src);
  zlib_end_sane : forall src r e, zlib_NewReader src = Ok r -> st_end r = Some e ->
    sane (Err (A := unit) e);
  xz_end_sane : forall cap src r e, xz_NewReader cap src = Ok r -> st_end r = Some e ->
    sane (Err (A := unit) e);
  lzma_end_sane : forall cap src r e, lzma_NewReader cap src = Ok r -> st_end r = Some e ->
    sane (Err (A := unit) e);
  lzo_sane : forall src m, sane (lzo_Decompress src m);
  lz4_sane : forall src m, sane (lz4_UncompressBlock src m);
  zstd_sane : forall mem win src, sane (zstd_DecodeAll mem win src);
  zstd_memory : forall mem win src out, zstd_DecodeAll mem win src = Ok out -> zlen out <= mem;
  lzo_fits : forall src m n dst, lzo_Decompress src m = Ok (n, dst) -> 0 <= n <= m /\ zlen dst = m;
  lz4_fits : forall src m n dst, lz4_UncompressBlock src m = Ok (n, dst) -> 0 <= n <= m /\ zlen dst = m
}.

Inductive decompressor :=
| gzipDecompressor | xzDecompressor | lzmaDecompressor
| lzoDecompressor | lz4Decompressor | zstdDecompressor.

#[global] Instance decompressor_eq_dec : EqDecision decompressor.
Proof. solve_decision. Defined.

Definition newDecompressor (compression : Z) : result decompressor :=
  if compression =? compGZIP then Ok gzipDecompressor
  else if compression =? compXZ then Ok xzDecompressor
  else if compression =? compLZO then Ok lzoDecompressor
  else if compression =? compZSTD then Ok zstdDecompressor
  else if compression =? compLZ4 then Ok lz4Decompressor
  else if compression =? compLZMA then Ok lzmaDecompressor
  else Err ErrUnsupportedCompression.

(** An xz or lzma error: the libraries' size error becomes ErrCorrupt, the
    others are wrapped. *)
Definition decodeErr (e : err) : err :=
  match e with ErrXzTooLarge => ErrCorrupt | _ => e end.

Definition decodeErrOf {A} (r : result A) : result A :=
  match r with Ok a => Ok a | Err e => Err (decodeErr e) end.

Definition dictCeiling `{CodecLib} (maxOut : Z) : Z := Z.max maxOut lzma_MinDictCap.

Definition checkXZ (src : list byte) : result unit :=
  let bad := Err ErrCorrupt in
  if zlen src <? 24 then bad
  else
    tail2 ← slice src (zlen src - 2) (zlen src);
    if negb (bool_decide (tail2 = [Byte.x59; Byte.x5a])) then bad
    else
      back ← slice src (zlen src - 8) (zlen src);
      let idxSize := u64 (u64 (le_Uint32 back + 1) * 4) in
      if u64 (zlen src - 24) <? idxSize then bad
      else
        idx ← slice src (zlen src - 12 - i64 idxSize) (zlen src - 12);
        idx1 ← slice idx 1 (zlen idx);
        let '(records, n) := Uvarint idx1 in
        match idx with
        | [] => Err Panic
        | idx0 :: _ =>
            if negb (byte.unsigned idx0 =? 0) || (n <=? 0) || (1 <? records)
            then bad else Ok tt
        end.

(** The output check of every codec but lzo and lz4. *)
Definition atMost (maxOut : Z) (out : list byte) : result (list byte) :=
  if maxOut <? zlen out then Err ErrCorrupt else Ok out.

Definition gzip_decompress `{CodecLib} (src : list byte) (maxOut : Z) : prog (list byte) :=
  lift (
    zr ← zlib_NewReader src;
    out ← ReadAllLimit zr (maxOut + 1);
    atMost maxOut out).

Definition xz_decompress `{CodecLib} (src : list byte) (maxOut : Z) : prog (list byte) :=
  lift (
    _ ← checkXZ src;
    r ← decodeErrOf (xz_NewReader (dictCeiling maxOut) src);
    out ← decodeErrOf (ReadAllLimit r (maxOut + 1));
    atMost maxOut out).

Definition lzma_decompress `{CodecLib} (src : list byte) (maxOut : Z) : prog (list byte) :=
  lift (
    r ← decodeErrOf (lzma_NewReader (dictCeiling maxOut) src);
    out ← decodeErrOf (ReadAllLimit r (maxOut + 1));
    atMost maxOut out).

Definition lzo_decompress `{CodecLib} (src : list byte) (maxOut : Z) : prog (list byte) :=
  _ ← make maxOut;
  lift ('(n, dst) ← lzo_Decompress src maxOut; slice dst 0 n).

Definition lz4_decompress `{CodecLib} (src : list byte) (maxOut : Z) : prog (list byte) :=
  _ ← make maxOut;
  lift ('(n, dst) ← lz4_UncompressBlock src maxOut; slice dst 0 n).

(** The shared decoder, capped at the largest block of the format. *)
Definition zstdDecoder `{CodecLib} (src : list byte) : result (list byte) :=
  zstd_DecodeAll maxBlockSize maxBlockSize src.

Definition zstd_decompress `{CodecLib} (src : list byte) (maxOut : Z) : prog (list byte) :=
  _ ← make maxOut;
  lift (out ← zstdDecoder src; atMost maxOut out).

(** The method of the interface. *)
Definition decompress `{CodecLib} (d : decompressor) (src : list byte) (maxOut : Z) :
  prog (list byte) :=
  match d with
  | gzipDecompressor => gzip_decompress src maxOut
  | xzDecompressor => xz_decompress src maxOut
  | lzmaDecompressor => lzma_decompress src maxOut
  | lzoDecompressor => lzo_decompress src maxOut
  | lz4Decompressor => lz4_decompress src maxOut
  | zstdDecompressor => zstd_decompress src maxOut
  end.

(** Opens the method of the decompressor at hand. *)
Ltac open_decompress :=
  cbn [decompress];
  unfold gzip_decompress, xz_decompress, lzma_decompress, lzo_decompress, lz4_decompress, zstd_decompress.

(** ** Output bounds, absence of panics *)

Lemma atMost_ok maxOut out o : atMost maxOut out = Ok o -> o = out /\ zlen o <= maxOut.
Proof. unfold atMost. destruct (Z.ltb_spec maxOut (zlen out)); [done|]. by intros [= <-]. Qed.

Lemma atMost_sane maxOut out : sane (atMost maxOut out).
Proof. unfold atMost. by destruct (_ <? _). Qed.

Lemma decodeErrOf_sane {A} (r : result A) : sane r -> sane (decodeErrOf r).
Proof.
  intros [H1 H2]. destruct r as [a|e]; [done|]. cbn.
  destruct e; try done; split; congruence.
Qed.

Lemma slice_sane {A} (l : list A) lo hi :
  0 <= lo <= hi -> hi <= zlen l -> sane (slice l lo hi).
Proof. intros. by rewrite slice_ok. Qed.

Lemma ReadAllLimit_sane r n :
  (forall e, st_end r = Some e -> sane (Err (A := unit) e)) -> sane (ReadAllLimit r n).
Proof.
  intros H. unfold ReadAllLimit. destruct (_ <=? _); [done|].
  destruct (st_end r) as [e|]; [|done]. destruct (H e) as [H1 H2]; [done|].
  split; congruence.
Qed.

(** checkXZ never slices or indexes outside the source. *)
Lemma checkXZ_sane src : zlen src < 2 ^ 63 -> sane (checkXZ src).
Proof.
  intros Hlen. unfold checkXZ. destruct (Z.ltb_spec (zlen src) 24); [done|].
  apply sane_bind; [apply slice_sane; lia|]. intros tail2 _.
  destruct (negb _); [done|].
  apply sane_bind; [apply slice_sane; lia|]. intros back _.
  pose proof (le_Uint32_range back). rewrite !u64_small by (rewrite ?u64_small; lia).
  destruct (Z.ltb_spec (zlen src - 24) ((le_Uint32 back + 1) * 4)) as [|Hfit]; [done|].
  rewrite i64_small by lia.
  apply sane_bind; [apply slice_sane; lia|]. intros idx Hidx%slice_length.
  apply sane_bind; [apply slice_sane; lia|]. intros idx1 _.
  destruct (Uvarint idx1) as [records n]. destruct idx as [|idx0 idx].
  { unfold zlen in Hidx at 1. cbn in Hidx. lia. }
  by destruct (_ || _).
Qed.

Section bounds.
Context `{CodecLib}.

Lemma decompress_length d src maxOut out :
  CodecLaws -> uncached (decompress d src maxOut) = Ok out -> zlen out <= maxOut.
Proof.
  intros HL. destruct d; open_decompress; cbn [lift uncached].
  - destruct (zlib_NewReader src) as [zr|]; rstep; [|done].
    destruct (ReadAllLimit zr _); rstep; [|done]. by intros [_ ?]%atMost_ok.
  - destruct (checkXZ src); rstep; [|done].
    destruct (decodeErrOf _) as [zr|]; rstep; [|done].
    destruct (decodeErrOf _); rstep; [|done]. by intros [_ ?]%atMost_ok.
  - destruct (decodeErrOf _) as [zr|]; rstep; [|done].
    destruct (decodeErrOf _); rstep; [|done]. by intros [_ ?]%atMost_ok.
  - rewrite uncached_bind. destruct (uncached (make maxOut)); rstep; [|done]. rewrite uncached_lift.
    destruct (lzo_Decompress src maxOut) as [[n dst]|] eqn:E; rstep; [|done].
    intros ->%slice_length. apply lzo_fits in E. lia.
  - rewrite uncached_bind. destruct (uncached (make maxOut)); rstep; [|done]. rewrite uncached_lift.
    destruct (lz4_UncompressBlock src maxOut) as [[n dst]|] eqn:E; rstep; [|done].
    intros ->%slice_length. apply lz4_fits in E. lia.
  - rewrite uncached_bind. destruct (uncached (make maxOut)); rstep; [|done]. rewrite uncached_lift.
    destruct (zstdDecoder src); rstep; [|done]. by intros [_ ?]%atMost_ok.
Qed.

Lemma decompress_sane d src maxOut :
  CodecLaws -> 0 <= maxOut -> zlen src < 2 ^ 63 -> sane (uncached (decompress d src maxOut)).
Proof.
  intros HL Hm Hsrc. destruct d; open_decompress; cbn [lift uncached];
    try (rewrite uncached_bind, uncached_make by done; rstep; rewrite uncached_lift).
  - apply sane_bind; [apply zlib_sane|]. intros r Hr.
    apply sane_bind; [apply ReadAllLimit_sane; eauto using zlib_end_sane|]. auto using atMost_sane.
  - apply sane_bind; [by apply checkXZ_sane|]. intros _ _.
    apply sane_bind; [apply decodeErrOf_sane, xz_sane|]. intros r Hr.
    destruct (xz_NewReader _ _) as [r'|] eqn:E; [|done]. injection Hr as ->.
    apply sane_bind; [|auto using atMost_sane].
    apply decodeErrOf_sane, ReadAllLimit_sane. eauto using xz_end_sane.
  - apply sane_bind; [apply decodeErrOf_sane, lzma_sane|]. intros r Hr.
    destruct (lzma_NewReader _ _) as [r'|] eqn:E; [|done]. injection Hr as ->.
    apply sane_bind; [|auto using atMost_sane].
    apply decodeErrOf_sane, ReadAllLimit_sane. eauto using lzma_end_sane.
  - apply sane_bind; [apply lzo_sane|]. intros [n dst] [Hn Hd]%lzo_fits. apply slice_sane; lia.
  - apply sane_bind; [apply lz4_sane|]. intros [n dst] [Hn Hd]%lz4_fits. apply slice_sane; lia.
  - apply sane_bind; [apply zstd_sane|]. auto using atMost_sane.
Qed.

Lemma decompress_transparent okM okD okA d src maxOut :
  0 <= maxOut -> okA maxOut -> transparent okM okD okA (decompress d src maxOut).
Proof. intros. destruct d; open_decompress; transp. Qed.

End bounds.

#[export] Hint Resolve decompress_transparent : transp.
