(* ===== verification/Metadata.v ===== *)
(** * Metadata blocks and the cursor over them (src/metadata.go)

    [readMetaBlock] reads one block; [readMetaBlockCached] puts the cache in
    front of it; [metaCursor] streams bytes across blocks.  The main facts:
    a read loop needs no more iterations than bytes asked for, the cache
    never changes the outcome ([read_transparent]), and a cursor's answers
    depend only on the block contents ([read_loop_spec] of Stream.v). *)

From S2P Require Export Decompress.

Definition metaHeaderCompressedBit : Z := 0x8000.

(** The FS handle of src/fs.go without its cache (the state of [exec]) and
    its closer. *)
Record FS := mkFS {
  fs_rs : ReaderAt;
  fs_size : Z;          (* int64; not positive when unknown *)
  fs_sb : Superblock;
  fs_d : decompressor
}.

Definition readMetaBlock `{CodecLib} (rs : ReaderAt) (d : decompressor) (at_ : Z) :
  prog (list byte * Z) :=
  hdr ← lift (ReadAt rs at_ 2);
  let h := le_Uint16 hdr in
  let stored := Z.ldiff h metaHeaderCompressedBit in
  if (stored =? 0) || (metaBlockMax <? stored) then throw ErrCorrupt
  else
    _ ← make stored;
    raw ← lift (ReadAt rs (i64 (at_ + 2)) (Z.to_nat stored));
    let next := i64 (i64 (at_ + 2) + stored) in
    if negb (Z.land h metaHeaderCompressedBit =? 0) then mret (raw, next)
    else
      data ← decompress d raw metaBlockMax;
      mret (data, next).

Definition readMetaBlockCached `{CodecLib} (fs : FS) (at_ : Z) : prog (list byte * Z) :=
  GetMeta at_ (fun hit =>
    match hit with
    | Some e => mret (me_data e, me_next e)
    | None =>
        '(data, next) ← readMetaBlock (fs_rs fs) (fs_d fs) at_;
        PutMeta at_ (MetaEntry data next) (mret (data, next))
    end).

Record metaCursor := mkCursor {
  mc_next : Z;           (* offset of the next block to load *)
  mc_cur : list byte;    (* current decompressed block *)
  mc_pos : nat           (* read position within it *)
}.

Definition load `{CodecLib} (fs : FS) (c : metaCursor) : prog metaCursor :=
  '(data, next) ← readMetaBlockCached fs (mc_next c);
  mret (mkCursor next data 0).

Definition newMetaCursor `{CodecLib} (fs : FS) (blockStart : Z) (inBlockOff : Z) :
  prog metaCursor :=
  c ← load fs (mkCursor blockStart [] 0);
  if zlen (mc_cur c) <? inBlockOff then throw ErrCorrupt
  else mret (mkCursor (mc_next c) (mc_cur c) (Z.to_nat inBlockOff)).

(** The loop of [read]: [need] bytes remain to be copied.  Every iteration
    copies at least one byte, so [need] is enough fuel. *)
Fixpoint read_loop `{CodecLib} (fs : FS) (fuel : nat) (c : metaCursor) (need : nat) :
  prog (list byte * metaCursor) :=
  match need with
  | O => mret ([], c)
  | _ =>
      match fuel with
      | O => throw OutOfFuel
      | S fuel =>
          c ← (if (length (mc_cur c) <=? mc_pos c)%nat
               then
                 c ← load fs c;
                 if (length (mc_cur c) =? 0)%nat then throw ErrUnexpectedEOF else mret c
               else mret c);
          let p := take need (drop (mc_pos c) (mc_cur c)) in
          '(rest, c) ←
            read_loop fs fuel (mkCursor (mc_next c) (mc_cur c) (mc_pos c + length p))
              (need - length p);
          mret (p ++ rest, c)
      end
  end.

(** read(p) for a buffer of [n] bytes. *)
Definition read `{CodecLib} (fs : FS) (c : metaCursor) (n : nat) : prog (list byte * metaCursor) :=
  read_loop fs n c n.

Definition readN `{CodecLib} (fs : FS) (c : metaCursor) (n : Z) : prog (list byte * metaCursor) :=
  _ ← make n;
  read fs c (Z.to_nat n).

Definition inodeRef (ref : Z) : Z * Z := (i64 (Z.shiftr ref 16), Z.land ref 0xFFFF).

(** ** Transparency of the cache *)

(** The valid metadata entries of an image. *)
Definition okMeta `{CodecLib} (fs : FS) (off : Z) (e : metaEntry) : Prop :=
  uncached (readMetaBlock (fs_rs fs) (fs_d fs) off) = Ok (me_data e, me_next e).

Lemma metaHeader_stored h :
  0 <= h < 2 ^ 16 -> 0 <= Z.ldiff h metaHeaderCompressedBit < 2 ^ 15.
Proof.
  intros Hh. unfold metaHeaderCompressedBit. change 0x8000 with (2 ^ 15).
  destruct (Z.testbit h 15) eqn:E.
  - rewrite ldiff_bit_set by done. split; [|lia].
    assert (2 ^ 15 <= h); [|lia].
    apply Z.testbit_true in E; [|done].
    destruct (Z.le_gt_cases (2 ^ 15) h); [done|]. by rewrite Z.div_small in E by lia.
  - rewrite ldiff_bit_clear by done. split; [lia|].
    destruct (Z.lt_ge_cases h (2 ^ 15)); [done|].
    apply Z.testbit_false in E; [|done].
    assert (h / 2 ^ 15 = 1) as Hq by (symmetry; apply (Z.div_unique _ _ _ (h - 2 ^ 15)); lia).
    by rewrite Hq in E.
Qed.

Section transparency.
Context `{CodecLib} (fs : FS).
Context (okD : Z -> list byte -> Prop) (okA : Z -> Prop).
Context (okA_meta : forall n, 0 <= n <= metaBlockMax -> okA n).

#[local] Notation transparent := (transparent (okMeta fs) okD okA).

Lemma readMetaBlock_transparent at_ : transparent (readMetaBlock (fs_rs fs) (fs_d fs) at_).
Proof using okA_meta.
  unfold readMetaBlock. apply transparent_bind; [transp|]. intros hdr _.
  pose proof (metaHeader_stored _ (le_Uint16_range hdr)).
  destruct (_ || _) eqn:E; [transp|].
  apply orb_false_iff in E as [E1%Z.eqb_neq E2%Z.ltb_ge].
  apply transparent_bind; [apply transparent_make; [lia|apply okA_meta; lia]|]. intros [] _.
  apply transparent_bind; [transp|]. intros raw _.
  destruct (negb _); [transp|].
  apply transparent_bind; [|transp].
  apply decompress_transparent; [done|]. by apply okA_meta.
Qed.

Lemma uncached_readMetaBlockCached at_ :
  uncached (readMetaBlockCached fs at_) = uncached (readMetaBlock (fs_rs fs) (fs_d fs) at_).
Proof.
  unfold readMetaBlockCached. cbn [uncached]. rewrite uncached_bind.
  by destruct (uncached (readMetaBlock (fs_rs fs) (fs_d fs) at_)) as [[data next]|].
Qed.

Lemma readMetaBlockCached_transparent at_ : transparent (readMetaBlockCached fs at_).
Proof using okA_meta.
  unfold Prog.transparent. rewrite uncached_readMetaBlockCached. unfold readMetaBlockCached. cbn [wp]. intros [e|] Ho.
  - symmetry. by apply Ho.
  - apply wp_bind. eapply wp_mono; [|apply readMetaBlock_transparent].
    intros r ->. destruct (uncached _) as [[data next]|] eqn:E; [|done].
    cbn. split; [|done]. by unfold okMeta.
Qed.

Lemma load_transparent c : transparent (load fs c).
Proof using okA_meta.
  apply transparent_bind; [apply readMetaBlockCached_transparent|]. transp.
Qed.

Lemma newMetaCursor_transparent start off : transparent (newMetaCursor fs start off).
Proof using okA_meta. apply transparent_bind; [apply load_transparent|]. transp. Qed.

Lemma read_loop_transparent fuel c need : transparent (read_loop fs fuel c need).
Proof using okA_meta.
  revert c need. induction fuel as [|fuel IH]; intros c [|need]; cbn [read_loop]; [transp..|].
  apply transparent_bind.
  { destruct (_ <=? _)%nat; [|transp]. apply transparent_bind; [apply load_transparent|]. transp. }
  intros c' _. apply transparent_bind; [apply IH|]. transp.
Qed.

Lemma readN_transparent c n : 0 <= n <= metaBlockMax -> transparent (readN fs c n).
Proof using okA_meta.
  intros Hn. apply transparent_bind; [apply transparent_make; [lia|by apply okA_meta]|].
  intros _ _. apply read_loop_transparent.
Qed.

Lemma read_transparent c n : transparent (read fs c n).
Proof using okA_meta. apply read_loop_transparent. Qed.

End transparency.

#[export] Hint Resolve readMetaBlockCached_transparent load_transparent
  newMetaCursor_transparent readN_transparent read_transparent : transp.

(** ** Reads terminate, never panic, and return exactly what was asked *)

Section total.
Context `{CodecLib} (fs : FS) (laws : CodecLaws).

Lemma readMetaBlock_sane rs d at_ : sane (uncached (readMetaBlock rs d at_)).
Proof using laws.
  unfold readMetaBlock. rewrite uncached_bind, uncached_lift.
  apply sane_bind; [apply ReadAt_sane|]. intros hdr _.
  pose proof (metaHeader_stored _ (le_Uint16_range hdr)).
  destruct (_ || _) eqn:E; [done|].
  rewrite uncached_bind, uncached_make by lia. rstep.
  rewrite uncached_bind, uncached_lift. apply sane_bind; [apply ReadAt_sane|].
  intros raw Hraw%ReadAt_len. destruct (negb _); [done|].
  rewrite uncached_bind. apply sane_bind; [|done].
  apply decompress_sane; [done|unfold metaBlockMax; lia|]. unfold zlen. lia.
Qed.

(** A block's payload is never longer than 8 KiB. *)
Lemma readMetaBlock_length rs d at_ data next :
  uncached (readMetaBlock rs d at_) = Ok (data, next) -> zlen data <= metaBlockMax.
Proof using laws.
  unfold readMetaBlock. rewrite uncached_bind, uncached_lift.
  destruct (ReadAt rs at_ 2) as [hdr|]; rstep; [|done].
  destruct (_ || _) eqn:E; [done|].
  apply orb_false_iff in E as [_ E%Z.ltb_ge].
  pose proof (metaHeader_stored _ (le_Uint16_range hdr)).
  rewrite uncached_bind, uncached_make by lia. rstep. rewrite uncached_bind, uncached_lift.
  destruct (ReadAt rs _ _) as [raw|] eqn:Hraw; rstep; [|done]. apply ReadAt_len in Hraw.
  destruct (negb _).
  - intros [= <- _]. unfold zlen. lia.
  - rewrite uncached_bind. destruct (uncached (decompress _ _ _)) as [out|] eqn:Hd; rstep; [|done].
    intros [= <- _]. by eapply decompress_length.
Qed.

Lemma load_sane c : sane (uncached (load fs c)).
Proof using laws.
  unfold load. rewrite uncached_bind, uncached_readMetaBlockCached.
  apply sane_bind; [apply readMetaBlock_sane|]. by intros [data next] _.
Qed.

Lemma newMetaCursor_sane start off : sane (uncached (newMetaCursor fs start off)).
Proof using laws.
  unfold newMetaCursor. rewrite uncached_bind. apply sane_bind; [apply load_sane|].
  intros c _. by destruct (_ <? _).
Qed.

Lemma read_loop_sane fuel c need : (need <= fuel)%nat -> sane (uncached (read_loop fs fuel c need)).
Proof using laws.
  revert c need. induction fuel as [|fuel IH]; intros c [|need] Hf; cbn [read_loop]; [done|lia|done|].
  rewrite uncached_bind. apply sane_bind.
  { destruct (_ <=? _)%nat; [|done]. rewrite uncached_bind. apply sane_bind; [apply load_sane|].
    intros c' _. by destruct (_ =? _)%nat. }
  intros c' Hc'. rewrite uncached_bind. apply sane_bind; [|by intros [? ?] _].
  apply IH. rewrite length_take, length_drop.
  assert (mc_pos c' < length (mc_cur c'))%nat; [|lia].
  destruct (Nat.leb_spec (length (mc_cur c)) (mc_pos c)).
  - rewrite uncached_bind in Hc'. unfold load in Hc'. rewrite uncached_bind in Hc'.
    destruct (uncached (readMetaBlockCached _ _)) as [[d nx]|]; [|done]. revert Hc'. rstep.
    cbn [uncached mret prog_ret]. rstep. cbn [mc_cur]. destruct (Nat.eqb_spec (length d) 0); [done|].
    intros [= <-]. cbn. lia.
  - by injection Hc' as <-.
Qed.

Lemma read_loop_length fuel c need b c' :
  uncached (read_loop fs fuel c need) = Ok (b, c') -> length b = need.
Proof using.
  revert c need b c'. induction fuel as [|fuel IH]; intros c [|need] b c'; cbn [read_loop]; [by intros [= <- <-]|done|by intros [= <- <-]|].
  rewrite uncached_bind. destruct (uncached (if _ : bool then _ else _)) as [c1|]; rstep; [|done].
  rewrite uncached_bind.
  destruct (uncached (read_loop _ _ _ _)) as [[rest c2]|] eqn:E; rstep; [|done].
  intros [= <- <-]. apply IH in E. rewrite length_app, E, length_take. lia.
Qed.

Lemma readN_sane c n : 0 <= n -> sane (uncached (readN fs c n)).
Proof using laws.
  intros. unfold readN. rewrite uncached_bind, uncached_make by done. by apply read_loop_sane.
Qed.

Lemma readN_length c n b c' : uncached (readN fs c n) = Ok (b, c') -> length b = Z.to_nat n.
Proof using.
  unfold readN. rewrite uncached_bind. destruct (uncached (make n)); rstep; [|done].
  apply read_loop_length.
Qed.

End total.
