(* ===== verification/Inode.v ===== *)
(** * Inodes (src/inode.go)

    The decoded [inode], the fourteen on-disk types and [readInode], with the
    block list of regular files.  The block list is read in chunks of 1024
    entries; the declared size decides how many entries are asked for but
    never how much is allocated at once. *)

From S2P Require Export Metadata.

Definition inodeBasicDir : Z := 1.
Definition inodeBasicFile : Z := 2.
Definition inodeBasicSymlink : Z := 3.
Definition inodeBasicBlkdev : Z := 4.
Definition inodeBasicChrdev : Z := 5.
Definition inodeBasicFifo : Z := 6.
Definition inodeBasicSocket : Z := 7.
Definition inodeExtDir : Z := 8.
Definition inodeExtFile : Z := 9.
Definition inodeExtSymlink : Z := 10.
Definition inodeExtBlkdev : Z := 11.
Definition inodeExtChrdev : Z := 12.
Definition inodeExtFifo : Z := 13.
Definition inodeExtSocket : Z := 14.

Definition sIFIFO : Z := 0x1000.
Definition sIFCHR : Z := 0x2000.
Definition sIFDIR : Z := 0x4000.
Definition sIFBLK : Z := 0x6000.
Definition sIFREG : Z := 0x8000.
Definition sIFLNK : Z := 0xA000.
Definition sIFSOCK : Z := 0xC000.

Definition invalidFrag : Z := 0xFFFFFFFF.
(** noXattr of src/xattr.go. *)
Definition noXattr : Z := 0xFFFFFFFF.

Record inode := mkInode {
  in_Type : Z;             (* uint16 *)
  in_Mode : Z;             (* uint16 *)
  in_UID : Z;              (* uint16 *)
  in_GID : Z;              (* uint16 *)
  in_Mtime : Z;            (* uint32 *)
  in_Number : Z;           (* uint32 *)
  in_Size : Z;             (* uint64 *)
  in_xattrIdx : Z;         (* uint32 *)
  in_blocksStart : Z;      (* uint64 *)
  in_fragIdx : Z;          (* uint32 *)
  in_fragOffset : Z;       (* uint32 *)
  in_blockSizes : list Z;  (* uint32 each *)
  in_dirStartBlock : Z;    (* uint32 *)
  in_dirOffset : Z;        (* uint16 *)
  in_symlinkTarget : list byte
}.

Definition isDir (i : inode) : bool :=
  (in_Type i =? inodeBasicDir) || (in_Type i =? inodeExtDir).
Definition isRegular (i : inode) : bool :=
  (in_Type i =? inodeBasicFile) || (in_Type i =? inodeExtFile).
Definition isSymlink (i : inode) : bool :=
  (in_Type i =? inodeBasicSymlink) || (in_Type i =? inodeExtSymlink).

Definition typeBits (t : Z) : Z :=
  if (t =? inodeBasicDir) || (t =? inodeExtDir) then sIFDIR
  else if (t =? inodeBasicFile) || (t =? inodeExtFile) then sIFREG
  else if (t =? inodeBasicSymlink) || (t =? inodeExtSymlink) then sIFLNK
  else if (t =? inodeBasicChrdev) || (t =? inodeExtChrdev) then sIFCHR
  else if (t =? inodeBasicBlkdev) || (t =? inodeExtBlkdev) then sIFBLK
  else if (t =? inodeBasicFifo) || (t =? inodeExtFifo) then sIFIFO
  else if (t =? inodeBasicSocket) || (t =? inodeExtSocket) then sIFSOCK
  else 0.

(** Unsigned division, which panics on a zero divisor. *)
Definition udiv (a b : Z) : result Z := if b =? 0 then Err Panic else Ok (a / b).

Definition blockCount (fileSize blockSize : Z) (hasFrag : bool) : result Z :=
  if hasFrag then q ← udiv fileSize blockSize; Ok (i64 q)
  else q ← udiv (u64 (u64 (fileSize + blockSize) - 1)) blockSize; Ok (i64 q).

Definition dirDataSize (stored : Z) : Z := if stored <=? 3 then 0 else stored - 3.

(** The zero inode of the composite literal in readInode. *)
Definition inodeOfHeader (hdr : list byte) : inode :=
  let typ := le_Uint16 hdr in
  {| in_Type := typ;
     in_Mode := Z.lor (le_Uint16 (drop 2 hdr)) (typeBits typ);
     in_UID := le_Uint16 (drop 4 hdr);
     in_GID := le_Uint16 (drop 6 hdr);
     in_Mtime := le_Uint32 (drop 8 hdr);
     in_Number := le_Uint32 (drop 12 hdr);
     in_Size := 0;
     in_xattrIdx := noXattr;
     in_blocksStart := 0; in_fragIdx := 0; in_fragOffset := 0; in_blockSizes := [];
     in_dirStartBlock := 0; in_dirOffset := 0;
     in_symlinkTarget := [] |}.

(** The field assignments of the three kinds that carry a body. *)
Definition setDir (i : inode) (start offset size xattr : Z) : inode :=
  mkInode (in_Type i) (in_Mode i) (in_UID i) (in_GID i) (in_Mtime i) (in_Number i)
    size xattr (in_blocksStart i) (in_fragIdx i) (in_fragOffset i) (in_blockSizes i)
    start offset (in_symlinkTarget i).
Definition setFile (i : inode) (start fragIdx fragOffset size xattr : Z) : inode :=
  mkInode (in_Type i) (in_Mode i) (in_UID i) (in_GID i) (in_Mtime i) (in_Number i)
    size xattr start fragIdx fragOffset (in_blockSizes i)
    (in_dirStartBlock i) (in_dirOffset i) (in_symlinkTarget i).
Definition setBlockSizes (i : inode) (sizes : list Z) : inode :=
  mkInode (in_Type i) (in_Mode i) (in_UID i) (in_GID i) (in_Mtime i) (in_Number i)
    (in_Size i) (in_xattrIdx i) (in_blocksStart i) (in_fragIdx i) (in_fragOffset i) sizes
    (in_dirStartBlock i) (in_dirOffset i) (in_symlinkTarget i).
Definition setSymlink (i : inode) (target : list byte) (size xattr : Z) : inode :=
  mkInode (in_Type i) (in_Mode i) (in_UID i) (in_GID i) (in_Mtime i) (in_Number i)
    size xattr (in_blocksStart i) (in_fragIdx i) (in_fragOffset i) (in_blockSizes i)
    (in_dirStartBlock i) (in_dirOffset i) target.

(** The k words of buf[:4*k]. *)
Fixpoint uint32s (k : nat) (buf : list byte) : list Z :=
  match k with O => [] | S k => le_Uint32 buf :: uint32s k (drop 4 buf) end.

Definition blockListChunk : nat := 1024.

(** The loop of readBlockList: [n] entries in all, [acc] those read so far.
    Every iteration reads at least one, so [n] is enough fuel. *)
Fixpoint readBlockList_loop `{CodecLib} (fs : FS) (fuel n : nat) (c : metaCursor) (acc : list Z) :
  prog (list Z * metaCursor) :=
  if (length acc <? n)%nat then
    match fuel with
    | O => throw OutOfFuel
    | S fuel =>
        let k := Nat.min (n - length acc) blockListChunk in
        '(buf, c) ← read fs c (4 * k);
        readBlockList_loop fs fuel n c (acc ++ uint32s k buf)
    end
  else mret (acc, c).

Definition readBlockList `{CodecLib} (fs : FS) (i : inode) (c : metaCursor) (blockSize : Z) :
  prog inode :=
  let hasFrag := negb (in_fragIdx i =? invalidFrag) in
  n ← lift (blockCount (in_Size i) blockSize hasFrag);
  if (n <? 0) || (2 ^ 24 <? n) then throw ErrCorrupt
  else
    _ ← make (Z.min n (Z.of_nat blockListChunk));
    '(sizes, _) ← readBlockList_loop fs (Z.to_nat n) (Z.to_nat n) c [];
    mret (setBlockSizes i sizes).

(** The switch of readInode on the inode type. *)
Definition readInodeBody `{CodecLib} (fs : FS) (i : inode) (c : metaCursor) : prog inode :=
  let t := in_Type i in
  if t =? inodeBasicDir then
    '(b, c) ← readN fs c 16;
    mret (setDir i (le_Uint32 b) (le_Uint16 (drop 10 b)) (dirDataSize (le_Uint16 (drop 8 b)))
            (in_xattrIdx i))
  else if t =? inodeExtDir then
    '(b, c) ← readN fs c 24;
    mret (setDir i (le_Uint32 (drop 8 b)) (le_Uint16 (drop 18 b)) (dirDataSize (le_Uint32 (drop 4 b)))
            (le_Uint32 (drop 20 b)))
  else if t =? inodeBasicFile then
    '(b, c) ← readN fs c 16;
    readBlockList fs
      (setFile i (le_Uint32 b) (le_Uint32 (drop 4 b)) (le_Uint32 (drop 8 b)) (le_Uint32 (drop 12 b))
         (in_xattrIdx i))
      c (sb_BlockSize (fs_sb fs))
  else if t =? inodeExtFile then
    '(b, c) ← readN fs c 40;
    readBlockList fs
      (setFile i (le_Uint64 b) (le_Uint32 (drop 28 b)) (le_Uint32 (drop 32 b)) (le_Uint64 (drop 8 b))
         (le_Uint32 (drop 36 b)))
      c (sb_BlockSize (fs_sb fs))
  else if (t =? inodeBasicSymlink) || (t =? inodeExtSymlink) then
    '(b, c) ← readN fs c 8;
    let n := le_Uint32 (drop 4 b) in
    if metaBlockMax <? n then throw ErrCorrupt
    else
      '(target, c) ← readN fs c n;
      if t =? inodeExtSymlink then
        '(xb, c) ← readN fs c 4;
        mret (setSymlink i target n (le_Uint32 xb))
      else mret (setSymlink i target n (in_xattrIdx i))
  else if (t =? inodeBasicChrdev) || (t =? inodeBasicBlkdev) || (t =? inodeBasicFifo) ||
          (t =? inodeBasicSocket) || (t =? inodeExtChrdev) || (t =? inodeExtBlkdev) ||
          (t =? inodeExtFifo) || (t =? inodeExtSocket) then mret i
  else throw ErrCorrupt.

Definition readInode `{CodecLib} (fs : FS) (ref : Z) : prog inode :=
  let '(blockOff, inBlockOff) := inodeRef ref in
  c ← newMetaCursor fs (i64 (i64 (sb_InodeTableStart (fs_sb fs)) + blockOff)) inBlockOff;
  '(hdr, c) ← readN fs c 16;
  readInodeBody fs (inodeOfHeader hdr) c.

(** ** Transparency, totality *)

Lemma le_Uint32_nonneg b : 0 <= le_Uint32 b.
Proof. pose proof (le_Uint32_range b). lia. Qed.

#[export] Hint Extern 1 (0 <= _ <= metaBlockMax) =>
  unfold metaBlockMax in *; lia : transp.

Section transparency.
Context `{CodecLib} (fs : FS).
Context (okD : Z -> list byte -> Prop) (okA : Z -> Prop).
Context (okA_meta : forall n, 0 <= n <= metaBlockMax -> okA n).

#[local] Notation transparent := (transparent (okMeta fs) okD okA).

Lemma readBlockList_loop_transparent fuel n c acc :
  transparent (readBlockList_loop fs fuel n c acc).
Proof using okA_meta.
  revert c acc. induction fuel as [|fuel IH]; intros c acc; cbn [readBlockList_loop];
    (destruct (_ <? _)%nat; [|transp]); [transp|].
  apply transparent_bind; [auto with transp|]. intros [buf c'] _. apply IH.
Qed.

Lemma readBlockList_transparent i c bs : transparent (readBlockList fs i c bs).
Proof using okA_meta.
  unfold readBlockList. apply transparent_bind; [transp|]. intros n _.
  destruct (_ || _) eqn:E; [transp|]. apply orb_false_iff in E as [E1%Z.ltb_ge E2%Z.ltb_ge].
  apply transparent_bind.
  { apply transparent_make; [unfold blockListChunk; lia|].
    apply okA_meta. unfold blockListChunk, metaBlockMax. lia. }
  intros _ _. apply transparent_bind; [apply readBlockList_loop_transparent|]. transp.
Qed.

Lemma readInodeBody_transparent i c : transparent (readInodeBody fs i c).
Proof using okA_meta.
  unfold readInodeBody.
  repeat match goal with |- _ (if ?b then _ else _) => destruct b eqn:? end;
    try (apply transparent_bind; [auto with transp|]; intros [b c'] _);
    try (apply readBlockList_transparent); try solve [transp].
  all: destruct (Z.ltb_spec metaBlockMax (le_Uint32 (drop 4 b))); [transp|].
  all: pose proof (le_Uint32_nonneg (drop 4 b)); transp.
Qed.

Lemma readInode_transparent ref : transparent (readInode fs ref).
Proof using okA_meta.
  unfold readInode. destruct (inodeRef ref) as [bo ib].
  apply transparent_bind; [auto with transp|]. intros c _.
  apply transparent_bind; [auto with transp|]. intros [hdr c'] _.
  apply readInodeBody_transparent.
Qed.

End transparency.

#[export] Hint Resolve readInode_transparent : transp.

Lemma length_uint32s k buf : length (uint32s k buf) = k.
Proof. revert buf. induction k as [|k IH]; intros buf; cbn; [done|]. by rewrite IH. Qed.

Lemma uint32s_range k buf x : x ∈ uint32s k buf -> 0 <= x < 2 ^ 32.
Proof.
  revert buf. induction k as [|k IH]; intros buf; cbn; [by intros ?%not_elem_of_nil|].
  intros [->|H]%elem_of_cons; [apply le_Uint32_range|eauto].
Qed.

Section total.
Context `{CodecLib} (fs : FS) (laws : CodecLaws) (wf : sb_wf (fs_sb fs)).

Lemma readBlockList_loop_sane fuel n c acc :
  (n <= fuel + length acc)%nat -> sane (uncached (readBlockList_loop fs fuel n c acc)).
Proof using laws.
  revert c acc. induction fuel as [|fuel IH]; intros c acc Hf; cbn [readBlockList_loop];
    destruct (Nat.ltb_spec (length acc) n); try done; [lia|].
  apply sane_pbind; [by apply read_loop_sane|]. intros [buf c'] _. apply IH.
  rewrite length_app, length_uint32s. unfold blockListChunk. lia.
Qed.

Lemma blockCount_sane size frag bs : bs <> 0 -> sane (blockCount size bs frag).
Proof using.
  intros Hbs. unfold blockCount, udiv. destruct (Z.eqb_spec bs 0); [done|]. by destruct frag.
Qed.

Lemma readBlockList_sane i c : sane (uncached (readBlockList fs i c (sb_BlockSize (fs_sb fs)))).
Proof using laws wf.
  unfold readBlockList. apply sane_pbind.
  { apply blockCount_sane. unfold sb_wf in wf. lia. }
  intros n _. destruct (_ || _) eqn:E; [done|].
  apply orb_false_iff in E as [E1%Z.ltb_ge E2%Z.ltb_ge].
  apply sane_pbind; [by rewrite uncached_make by (unfold blockListChunk; lia)|].
  intros _ _. apply sane_pbind; [|by intros [? ?]].
  apply readBlockList_loop_sane. cbn. lia.
Qed.

Lemma readInodeBody_sane i c : sane (uncached (readInodeBody fs i c)).
Proof using laws wf.
  unfold readInodeBody.
  repeat match goal with |- sane (uncached (if ?b then _ else _)) => destruct b eqn:? end;
    try (apply sane_pbind; [by apply readN_sane|]; intros [b c'] _);
    try apply readBlockList_sane; try done.
  all: destruct (_ <? _); [done|].
  all: apply sane_pbind; [apply readN_sane; [done|apply le_Uint32_nonneg]|]; intros [target c2] _.
  all: destruct (in_Type i =? inodeExtSymlink); [|done].
  all: apply sane_pbind; [by apply readN_sane|]; by intros [xb c3] _.
Qed.

Lemma readInode_sane ref : sane (uncached (readInode fs ref)).
Proof using laws wf.
  unfold readInode. destruct (inodeRef ref) as [bo ib].
  apply sane_pbind; [by apply newMetaCursor_sane|]. intros c _.
  apply sane_pbind; [by apply readN_sane|]. intros [hdr c'] _. apply readInodeBody_sane.
Qed.

End total.

(** ** Decoded inodes are well formed *)

(** Every field within its width, size words included, and a block list of at
    most 2^24 entries. *)
Definition inode_wf (i : inode) : Prop :=
  0 <= in_Size i < 2 ^ 64 /\ 0 <= in_fragIdx i < 2 ^ 32 /\ 0 <= in_fragOffset i < 2 ^ 32 /\
  zlen (in_blockSizes i) <= 2 ^ 24 /\
  Forall (fun sz => 0 <= sz < 2 ^ 32) (in_blockSizes i) /\
  0 <= in_Type i < 2 ^ 16 /\ 0 <= in_Mode i < 2 ^ 16 /\ 0 <= in_UID i < 2 ^ 16 /\ 0 <= in_GID i < 2 ^ 16 /\
  0 <= in_Mtime i < 2 ^ 32 /\ 0 <= in_Number i < 2 ^ 32 /\ 0 <= in_xattrIdx i < 2 ^ 32 /\
  0 <= in_blocksStart i < 2 ^ 64 /\ 0 <= in_dirStartBlock i < 2 ^ 32 /\ 0 <= in_dirOffset i < 2 ^ 16.

Lemma lor_width a b k : 0 <= k -> 0 <= a < 2 ^ k -> 0 <= b < 2 ^ k -> 0 <= Z.lor a b < 2 ^ k.
Proof.
  intros Hk Ha Hb. assert (0 <= Z.lor a b) by (apply Z.lor_nonneg; lia). split; [done|].
  rewrite <- (Z.mod_small a (2 ^ k)), <- (Z.mod_small b (2 ^ k)), <- !Z.land_ones, <- Z.land_lor_distr_l by lia.
  rewrite Z.land_ones by lia. apply Z.mod_pos_bound. lia.
Qed.

Lemma typeBits_range t : 0 <= typeBits t < 2 ^ 16.
Proof. unfold typeBits. by repeat match goal with |- context [if ?b then _ else _] => destruct b end. Qed.

Lemma udiv_ok a b q : udiv a b = Ok q -> b <> 0 /\ q = a / b.
Proof. unfold udiv. destruct (Z.eqb_spec b 0); [done|]. by intros [= <-]. Qed.

Section decoded.
Context `{CodecLib} (fs : FS).

Lemma readBlockList_loop_ok fuel n c acc sizes c' :
  Forall (fun sz => 0 <= sz < 2 ^ 32) acc -> (length acc <= n)%nat ->
  uncached (readBlockList_loop fs fuel n c acc) = Ok (sizes, c') ->
  Forall (fun sz => 0 <= sz < 2 ^ 32) sizes /\ length sizes = n.
Proof.
  revert c acc. induction fuel as [|fuel IH]; intros c acc Hacc Hle; cbn [readBlockList_loop];
    destruct (Nat.ltb_spec (length acc) n); try done; try (intros [= <- _]; split; [done|lia]).
  rewrite uncached_bind. destruct (uncached (read _ _ _)) as [[buf c1]|]; rstep; [|done].
  apply IH.
  - apply Forall_app. split; [done|]. apply Forall_forall. intros sz. apply uint32s_range.
  - rewrite length_app, length_uint32s. lia.
Qed.

(** The block list has exactly the number of entries the size calls for. *)
Lemma readBlockList_ok i c bs j :
  uncached (readBlockList fs i c bs) = Ok j ->
  exists sizes, j = setBlockSizes i sizes /\
    Forall (fun sz => 0 <= sz < 2 ^ 32) sizes /\ zlen sizes <= 2 ^ 24 /\
    blockCount (in_Size i) bs (negb (in_fragIdx i =? invalidFrag)) = Ok (zlen sizes).
Proof.
  unfold readBlockList. rewrite uncached_bind, uncached_lift.
  destruct (blockCount _ _ _) as [n|]; rstep; [|done].
  destruct (_ || _) eqn:E; [done|]. apply orb_false_iff in E as [E1%Z.ltb_ge E2%Z.ltb_ge].
  rewrite uncached_bind. destruct (uncached (make _)); rstep; [|done].
  rewrite uncached_bind.
  destruct (uncached (readBlockList_loop _ _ _ _ _)) as [[sizes c']|] eqn:El; rstep; [|done].
  intros [= <-]. apply readBlockList_loop_ok in El as [Hs Hl]; [|apply Forall_nil_2|cbn; lia].
  exists sizes. unfold zlen. split_and!; [done|done|lia|]. f_equal. lia.
Qed.

Lemma dirDataSize_range s : 0 <= s < 2 ^ 32 -> 0 <= dirDataSize s < 2 ^ 64.
Proof. unfold dirDataSize. destruct (Z.leb_spec s 3); lia. Qed.

(** Close a well-formedness goal field by field: a decoded word, or a field
    that is well formed by hypothesis. *)
#[local] Ltac wf_fields :=
  unfold inode_wf in *; cbn;
  repeat first [ solve [auto with squashfs] | assumption | lia | apply Forall_nil_2 | match goal with |- _ /\ _ => split end ].

Lemma inode_wf_header hdr : inode_wf (inodeOfHeader hdr).
Proof.
  pose proof (lor_width _ _ 16 ltac:(lia) (le_Uint16_range (drop 2 hdr)) (typeBits_range (le_Uint16 hdr))).
  assert (zlen (@nil Z) <= 2 ^ 24) by done. assert (0 <= noXattr < 2 ^ 32) by done. wf_fields.
Qed.

Lemma readInodeBody_wf i c j :
  inode_wf i -> uncached (readInodeBody fs i c) = Ok j -> inode_wf j.
Proof.
  intros (H1 & H2 & H3 & H4 & H5 & H6 & H7 & H8 & H9 & H10 & H11 & H12 & H13 & H14 & H15). unfold readInodeBody.
  repeat match goal with |- uncached (if ?b then _ else _) = _ -> _ => destruct b eqn:? end;
    try done; try (rewrite uncached_bind;
    destruct (uncached (readN _ _ _)) as [[b c1]|]; rstep; [|done]).
  - pose proof (le_Uint16_range (drop 8 b)). pose proof (dirDataSize_range (le_Uint16 (drop 8 b)) ltac:(lia)).
    intros [= <-]. wf_fields.
  - pose proof (dirDataSize_range _ (le_Uint32_range (drop 4 b))). intros [= <-]. wf_fields.
  - intros (sizes & -> & Hs & Hl & _)%readBlockList_ok.
    pose proof (le_Uint32_range (drop 12 b)). pose proof (le_Uint32_range b). wf_fields.
  - intros (sizes & -> & Hs & Hl & _)%readBlockList_ok. wf_fields.
  - destruct (_ <? _); [done|]. pose proof (le_Uint32_range (drop 4 b)).
    rewrite uncached_bind. destruct (uncached (readN _ _ _)) as [[target c2]|]; rstep; [|done].
    assert (0 <= le_Uint32 (drop 4 b) < 2 ^ 64) by lia.
    destruct (in_Type i =? inodeExtSymlink); [|intros [= <-]; wf_fields].
    rewrite uncached_bind. destruct (uncached (readN _ _ _)) as [[xb c3]|]; rstep; [|done].
    intros [= <-]. wf_fields.
  - intros [= <-]. wf_fields.
Qed.

Lemma readInode_wf ref j : uncached (readInode fs ref) = Ok j -> inode_wf j.
Proof.
  unfold readInode. destruct (inodeRef ref) as [bo ib]. rewrite uncached_bind.
  destruct (uncached (newMetaCursor _ _ _)) as [c|]; rstep; [|done].
  rewrite uncached_bind. destruct (uncached (readN _ _ _)) as [[hdr c1]|]; rstep; [|done].
  apply readInodeBody_wf, inode_wf_header.
Qed.

(** The block count, told apart from how it is computed: the blocks that the
    size fills, when a fragment holds the rest; or those that cover it, unless
    the sum that rounds the size up wraps around. *)
Lemma blockCount_inv size bs frag n :
  0 <= size < 2 ^ 64 -> 1 <= bs <= 2 ^ 20 -> 0 <= n <= 2 ^ 24 -> blockCount size bs frag = Ok n ->
  if frag then n * bs <= size < (n + 1) * bs
  else (n - 1) * bs < size <= n * bs \/ 2 ^ 64 - bs < size /\ n = 0.
Proof.
  intros Hs Hb Hn. unfold blockCount, udiv. destruct (Z.eqb_spec bs 0); [lia|].
  assert (forall x, 0 <= x < 2 ^ 64 -> i64 (x / bs) = n -> x / bs = n) as Hq.
  { intros x Hx. pose proof (Z.div_pos x bs ltac:(lia) ltac:(lia)).
    pose proof (Z.div_le_upper_bound x bs x ltac:(lia) ltac:(nia)).
    unfold i64. destruct (Z.lt_ge_cases (x / bs) (2 ^ 63)); [rewrite Z.mod_small; lia|].
    rewrite <- (Z.mod_unique (x / bs + 2 ^ 63) (2 ^ 64) 1 (x / bs + 2 ^ 63 - 2 ^ 64)); lia. }
  destruct frag; rstep; intros E%Ok_inj.
  - apply Hq in E; [|done]. pose proof (Z.div_mod size bs ltac:(lia)). pose proof (Z.mod_pos_bound size bs ltac:(lia)). nia.
  - apply Hq in E; [|apply u64_range].
    assert (u64 (u64 (size + bs) - 1) = u64 (size + bs - 1)) as Hu by (unfold u64; apply Zminus_mod_idemp_l).
    rewrite Hu in E. destruct (Z.le_gt_cases size (2 ^ 64 - bs)).
    + left. rewrite u64_small in E by lia. pose proof (Z.div_mod (size + bs - 1) bs ltac:(lia)).
      pose proof (Z.mod_pos_bound (size + bs - 1) bs ltac:(lia)). nia.
    + right. split; [lia|]. rewrite <- E. unfold u64.
      rewrite <- (Z.mod_unique (size + bs - 1) (2 ^ 64) 1 (size + bs - 1 - 2 ^ 64)) by lia. apply Z.div_small. lia.
Qed.

(** What each kind of inode is decoded to: a directory's size fits the field
    its type stores it in, a regular file has as many block sizes as its size
    asks for, a link's size is the length of its target. *)
Definition inode_kind_ok (i : inode) : Prop :=
  (in_Type i = inodeBasicDir -> 0 <= in_Size i <= 65532) /\
  (isDir i = true -> 0 <= in_Size i <= 2 ^ 32 - 4) /\
  (isRegular i = true ->
     blockCount (in_Size i) (sb_BlockSize (fs_sb fs)) (negb (in_fragIdx i =? invalidFrag)) =
     Ok (zlen (in_blockSizes i))) /\
  (isSymlink i = true -> in_Size i = zlen (in_symlinkTarget i) /\ zlen (in_symlinkTarget i) <= metaBlockMax) /\
  1 <= in_Type i <= 14.

Lemma dirDataSize_le s n : 3 <= n -> 0 <= s <= n -> 0 <= dirDataSize s <= n - 3.
Proof. unfold dirDataSize. destruct (Z.leb_spec s 3); lia. Qed.

(** An inode of a kind that is none of the others. *)
Lemma kind_ok_file i :
  isRegular i = true ->
  blockCount (in_Size i) (sb_BlockSize (fs_sb fs)) (negb (in_fragIdx i =? invalidFrag)) =
    Ok (zlen (in_blockSizes i)) -> inode_kind_ok i.
Proof.
  unfold inode_kind_ok, isRegular, isDir, isSymlink. intros Hr Hb.
  apply orb_true_iff in Hr as [Hr%Z.eqb_eq|Hr%Z.eqb_eq]; rewrite Hr; by split_and!.
Qed.

Lemma readBlockList_kind i c j :
  isRegular i = true -> uncached (readBlockList fs i c (sb_BlockSize (fs_sb fs))) = Ok j -> inode_kind_ok j.
Proof.
  intros Hr (sizes & -> & _ & _ & Hc)%readBlockList_ok. by apply kind_ok_file.
Qed.

Lemma kind_ok_dir i start off size x :
  in_Type i = inodeBasicDir /\ 0 <= size <= 65532 \/ in_Type i = inodeExtDir /\ 0 <= size <= 2 ^ 32 - 4 ->
  inode_kind_ok (setDir i start off size x).
Proof.
  unfold inode_kind_ok, isRegular, isDir, isSymlink. cbn.
  intros [[-> ?]|[-> ?]]; split_and!; try done; intros; lia.
Qed.

Lemma kind_ok_link i target n x :
  isSymlink i = true -> zlen target = n -> n <= metaBlockMax -> inode_kind_ok (setSymlink i target n x).
Proof.
  unfold inode_kind_ok, isRegular, isDir, isSymlink. cbn. intros Ht <- Hn.
  apply orb_true_iff in Ht as [Ht%Z.eqb_eq|Ht%Z.eqb_eq]; rewrite Ht; by split_and!.
Qed.

Lemma kind_ok_other i : 4 <= in_Type i <= 7 \/ 11 <= in_Type i <= 14 -> inode_kind_ok i.
Proof.
  intros Ht. unfold inode_kind_ok, isRegular, isDir, isSymlink, inodeBasicDir, inodeExtDir, inodeBasicFile,
    inodeExtFile, inodeBasicSymlink, inodeExtSymlink.
  split_and!; try (intros E%orb_true_iff; exfalso); lia.
Qed.

Lemma readInodeBody_kind i c j : uncached (readInodeBody fs i c) = Ok j -> inode_kind_ok j.
Proof.
  unfold readInodeBody.
  destruct (Z.eqb_spec (in_Type i) inodeBasicDir) as [Ht|_].
  { rewrite uncached_bind. destruct (uncached (readN _ _ _)) as [[b c1]|]; rstep; [|done]. intros [= <-].
    pose proof (le_Uint16_range (drop 8 b)).
    pose proof (dirDataSize_le (le_Uint16 (drop 8 b)) 65535). apply kind_ok_dir. left. split; [done|lia]. }
  destruct (Z.eqb_spec (in_Type i) inodeExtDir) as [Ht|_].
  { rewrite uncached_bind. destruct (uncached (readN _ _ _)) as [[b c1]|]; rstep; [|done]. intros [= <-].
    pose proof (le_Uint32_range (drop 4 b)).
    pose proof (dirDataSize_le (le_Uint32 (drop 4 b)) (2 ^ 32 - 1)). apply kind_ok_dir. right. split; [done|lia]. }
  destruct (Z.eqb_spec (in_Type i) inodeBasicFile) as [Ht|_].
  { rewrite uncached_bind. destruct (uncached (readN _ _ _)) as [[b c1]|]; rstep; [|done].
    apply readBlockList_kind. unfold isRegular. cbn. by rewrite Ht. }
  destruct (Z.eqb_spec (in_Type i) inodeExtFile) as [Ht|_].
  { rewrite uncached_bind. destruct (uncached (readN _ _ _)) as [[b c1]|]; rstep; [|done].
    apply readBlockList_kind. unfold isRegular. cbn. by rewrite Ht. }
  destruct ((in_Type i =? inodeBasicSymlink) || _) eqn:Ht.
  { change (isSymlink i = true) in Ht. rewrite uncached_bind. destruct (uncached (readN _ _ _)) as [[b c1]|]; rstep; [|done].
    destruct (Z.ltb_spec metaBlockMax (le_Uint32 (drop 4 b))); [done|]. rewrite uncached_bind.
    destruct (uncached (readN _ _ _)) as [[target c2]|] eqn:En; rstep; [|done]. apply readN_length in En.
    pose proof (le_Uint32_range (drop 4 b)).
    assert (zlen target = le_Uint32 (drop 4 b)) as Hl by (unfold zlen; lia).
    destruct (in_Type i =? inodeExtSymlink); [|intros [= <-]; apply kind_ok_link; [exact Ht|done|done]].
    rewrite uncached_bind. destruct (uncached (readN _ _ _)) as [[xb c3]|]; rstep; [|done].
    intros [= <-]. apply kind_ok_link; [exact Ht|done|done]. }
  match goal with |- uncached (if ?b then _ else _) = _ -> _ => destruct b eqn:Ho end; [|done]. intros [= <-]. apply kind_ok_other.
  unfold inodeBasicChrdev, inodeBasicBlkdev, inodeBasicFifo, inodeBasicSocket, inodeExtChrdev, inodeExtBlkdev,
    inodeExtFifo, inodeExtSocket in Ho. lia.
Qed.

Lemma readInode_kind ref j : uncached (readInode fs ref) = Ok j -> inode_kind_ok j.
Proof.
  unfold readInode. destruct (inodeRef ref) as [bo ib]. rewrite uncached_bind.
  destruct (uncached (newMetaCursor _ _ _)) as [c|]; rstep; [|done].
  rewrite uncached_bind. destruct (uncached (readN _ _ _)) as [[hdr c1]|]; rstep; [|done].
  apply readInodeBody_kind.
Qed.

End decoded.
