(* ===== verification/Dir.v ===== *)
(** * Directory listings (src/dir.go)

    A listing is a run of 12-byte headers, each followed by up to 256 entries
    of 8 bytes and a name.  [readDir] keeps the count of listing bytes still
    to come in [remaining] and stops when they cannot hold another record. *)

From S2P Require Export Inode.

Record dirEntry := mkDirEntry {
  de_Name : list byte;
  de_InodeRef : Z;   (* uint64 *)
  de_Number : Z;     (* uint32 *)
  de_Type : Z        (* uint16 *)
}.

Definition maxDirEntries : Z := 2 ^ 22.

(** The inner loop of readDir, over the entries of one header: [i] counts
    down what the header announced; the result carries the cursor, the bytes
    remaining and the entries so far. *)
Fixpoint readDirEntries `{CodecLib} (fs : FS) (i : nat) (c : metaCursor) (remaining : Z)
    (startBlock baseInode : Z) (out : list dirEntry) :
  prog (metaCursor * Z * list dirEntry) :=
  match i with
  | O => mret (c, remaining, out)
  | S i =>
      if remaining <? 8 then mret (c, remaining, out)
      else
        '(eh, c) ← readN fs c 8;
        let remaining := remaining - 8 in
        let offset := le_Uint16 eh in
        let inodeDelta := i16 (le_Uint16 (drop 2 eh)) in
        let etype := le_Uint16 (drop 4 eh) in
        let nameLen := le_Uint16 (drop 6 eh) + 1 in
        if (remaining <? nameLen) || (256 <? nameLen) then throw ErrCorrupt
        else
          '(nameB, c) ← readN fs c nameLen;
          let remaining := remaining - nameLen in
          if maxDirEntries <=? zlen out then throw ErrTooLarge
          else
            readDirEntries fs i c remaining startBlock baseInode
              (out ++ [mkDirEntry nameB (Z.lor (u64 (Z.shiftl startBlock 16)) offset)
                         (u32 (baseInode + inodeDelta)) etype])
  end.

(** The outer loop; a header consumes 12 bytes of [remaining]. *)
Fixpoint readDir_loop `{CodecLib} (fs : FS) (fuel : nat) (c : metaCursor) (remaining : Z)
    (out : list dirEntry) : prog (list dirEntry) :=
  if remaining <? 12 then mret out
  else
    match fuel with
    | O => throw OutOfFuel
    | S fuel =>
        '(hdr, c) ← readN fs c 12;
        let remaining := remaining - 12 in
        let count := le_Uint32 hdr + 1 in
        let startBlock := le_Uint32 (drop 4 hdr) in
        let baseInode := i32 (le_Uint32 (drop 8 hdr)) in
        if (count <? 1) || (256 <? count) then throw ErrCorrupt
        else
          '(c, remaining, out) ←
            readDirEntries fs (Z.to_nat count) c remaining startBlock baseInode out;
          readDir_loop fs fuel c remaining out
    end.

Definition readDir `{CodecLib} (fs : FS) (dir : inode) : prog (list dirEntry) :=
  if in_Size dir =? 0 then mret []
  else
    c ← newMetaCursor fs
          (i64 (i64 (sb_DirTableStart (fs_sb fs)) + in_dirStartBlock dir)) (in_dirOffset dir);
    let remaining := i64 (in_Size dir) in
    readDir_loop fs (Z.to_nat (remaining / 12)) c remaining [].

(** ** Transparency, totality, bounds *)

#[export] Hint Extern 1 (0 <= le_Uint16 _ + 1 <= metaBlockMax) =>
  match goal with |- 0 <= le_Uint16 ?b + 1 <= _ => pose proof (le_Uint16_range b) end;
  unfold metaBlockMax; lia : transp.

Section transparency.
Context `{CodecLib} (fs : FS).
Context (okD : Z -> list byte -> Prop) (okA : Z -> Prop).
Context (okA_meta : forall n, 0 <= n <= metaBlockMax -> okA n).

#[local] Notation transparent := (transparent (okMeta fs) okD okA).

Lemma readDirEntries_transparent i c remaining sb bi out :
  transparent (readDirEntries fs i c remaining sb bi out).
Proof using okA_meta.
  revert c remaining out. induction i as [|i IH]; intros c remaining out; cbn [readDirEntries]; [transp|].
  destruct (_ <? 8); [transp|].
  apply transparent_bind; [auto with transp|]. intros [eh c1] _.
  destruct (_ || _) eqn:E; [transp|]. apply orb_false_iff in E as [_ E%Z.ltb_ge].
  pose proof (le_Uint16_range (drop 6 eh)).
  apply transparent_bind; [auto with transp|]. intros [nameB c2] _.
  destruct (_ <=? _); [transp|]. apply IH.
Qed.

Lemma readDir_loop_transparent fuel c remaining out :
  transparent (readDir_loop fs fuel c remaining out).
Proof using okA_meta.
  revert c remaining out. induction fuel as [|fuel IH]; intros c remaining out;
    cbn [readDir_loop]; (destruct (_ <? 12); [transp|]); [transp|].
  apply transparent_bind; [auto with transp|]. intros [hdr c1] _.
  destruct (_ || _); [transp|].
  apply transparent_bind; [apply readDirEntries_transparent|].
  intros [[c2 rem] out'] _. apply IH.
Qed.

Lemma readDir_transparent dir : transparent (readDir fs dir).
Proof using okA_meta.
  unfold readDir. destruct (_ =? 0); [transp|].
  apply transparent_bind; [auto with transp|]. intros c _. apply readDir_loop_transparent.
Qed.

End transparency.

#[export] Hint Resolve readDir_transparent : transp.

Section total.
Context `{CodecLib} (fs : FS) (laws : CodecLaws).

(** The inner loop only consumes listing bytes. *)
Lemma readDirEntries_remaining i c remaining sb bi out c' rem' out' :
  uncached (readDirEntries fs i c remaining sb bi out) = Ok (c', rem', out') ->
  rem' <= remaining.
Proof using.
  revert c remaining out. induction i as [|i IH]; intros c remaining out; cbn [readDirEntries].
  { intros [= _ <- _]. lia. }
  destruct (_ <? 8). { intros [= _ <- _]. lia. }
  rewrite uncached_bind. destruct (uncached (readN fs c 8)) as [[eh c1]|]; rstep; [|done].
  destruct (_ || _); [done|]. pose proof (le_Uint16_range (drop 6 eh)).
  rewrite uncached_bind. destruct (uncached (readN _ _ _)) as [[nameB c2]|]; rstep; [|done].
  destruct (_ <=? _); [done|]. intros Hr%IH. lia.
Qed.

Lemma readDirEntries_sane i c remaining sb bi out :
  sane (uncached (readDirEntries fs i c remaining sb bi out)).
Proof using laws.
  revert c remaining out. induction i as [|i IH]; intros c remaining out; cbn [readDirEntries]; [done|].
  destruct (_ <? 8); [done|].
  apply sane_pbind; [by apply readN_sane|]. intros [eh c1] _.
  destruct (_ || _) eqn:E; [done|]. pose proof (le_Uint16_range (drop 6 eh)).
  apply sane_pbind; [apply readN_sane; [done|lia]|]. intros [nameB c2] _.
  destruct (_ <=? _); [done|]. apply IH.
Qed.

Lemma readDir_loop_sane fuel c remaining out :
  remaining / 12 <= Z.of_nat fuel -> sane (uncached (readDir_loop fs fuel c remaining out)).
Proof using laws.
  revert c remaining out. induction fuel as [|fuel IH]; intros c remaining out Hf;
    cbn [readDir_loop]; destruct (Z.ltb_spec remaining 12); try done.
  { assert (1 <= remaining / 12) by (apply Z.div_le_lower_bound; lia). lia. }
  apply sane_pbind; [by apply readN_sane|]. intros [hdr c1] _.
  destruct (_ || _); [done|].
  apply sane_pbind; [apply readDirEntries_sane|].
  intros [[c2 rem] out'] Hr%readDirEntries_remaining. apply IH.
  assert (rem / 12 <= (remaining - 12) / 12) by (apply Z.div_le_mono; lia).
  replace (remaining - 12) with (remaining + (-1) * 12) in * by ring.
  rewrite Z.div_add in * by lia. lia.
Qed.

Lemma readDir_sane dir : sane (uncached (readDir fs dir)).
Proof using laws.
  unfold readDir. destruct (_ =? 0); [done|].
  apply sane_pbind; [by apply newMetaCursor_sane|]. intros c _.
  apply readDir_loop_sane. lia.
Qed.

(** A listing never exceeds the entry cap, and every entry is decoded within
    its width from a name of 1 to 256 bytes. *)
Definition entry_ok (e : dirEntry) : Prop :=
  1 <= zlen (de_Name e) <= 256 /\ 0 <= de_InodeRef e < 2 ^ 48 /\
  0 <= de_Number e < 2 ^ 32 /\ 0 <= de_Type e < 2 ^ 16.

Lemma inodeRef_join sb off :
  0 <= sb < 2 ^ 32 -> 0 <= off < 2 ^ 16 ->
  Z.lor (u64 (Z.shiftl sb 16)) off = sb * 2 ^ 16 + off.
Proof using.
  intros. rewrite Z.shiftl_mul_pow2 by lia. rewrite u64_small by lia.
  by apply lor_shift_add.
Qed.

Lemma readDirEntries_ok i c remaining sb bi out c' rem' out' :
  0 <= sb < 2 ^ 32 -> zlen out <= maxDirEntries -> Forall entry_ok out ->
  uncached (readDirEntries fs i c remaining sb bi out) = Ok (c', rem', out') ->
  zlen out' <= maxDirEntries /\ Forall entry_ok out'.
Proof using.
  intros Hsb. revert c remaining out.
  induction i as [|i IH]; intros c remaining out Hl Ho; cbn [readDirEntries].
  { by intros [= _ _ <-]. }
  destruct (_ <? 8). { by intros [= _ _ <-]. }
  rewrite uncached_bind. destruct (uncached (readN fs c 8)) as [[eh c1]|]; rstep; [|done].
  destruct (_ || _) eqn:E; [done|]. apply orb_false_iff in E as [_ E%Z.ltb_ge].
  pose proof (le_Uint16_range (drop 6 eh)).
  rewrite uncached_bind. destruct (uncached (readN _ _ _)) as [[nameB c2]|] eqn:En; rstep; [|done].
  apply readN_length in En.
  destruct (Z.leb_spec maxDirEntries (zlen out)); [done|]. apply IH.
  { rewrite zlen_app. unfold zlen at 2. cbn. lia. }
  apply Forall_app. split; [done|]. apply Forall_singleton. split_and!; cbn.
  1,2: unfold zlen; lia.
  1,2: pose proof (le_Uint16_range eh); rewrite inodeRef_join by done; lia.
  1,2: apply u32_range. all: apply le_Uint16_range.
Qed.

Lemma readDir_loop_ok fuel c remaining out out' :
  zlen out <= maxDirEntries -> Forall entry_ok out ->
  uncached (readDir_loop fs fuel c remaining out) = Ok out' ->
  zlen out' <= maxDirEntries /\ Forall entry_ok out'.
Proof using.
  revert c remaining out. induction fuel as [|fuel IH]; intros c remaining out Hl Ho;
    cbn [readDir_loop]; (destruct (_ <? 12); [by intros [= <-]|]); [done|].
  rewrite uncached_bind. destruct (uncached (readN fs c 12)) as [[hdr c1]|]; rstep; [|done].
  destruct (_ || _); [done|]. rewrite uncached_bind.
  destruct (uncached (readDirEntries _ _ _ _ _ _ _)) as [[[c2 rem] out2]|] eqn:E; rstep; [|done].
  apply readDirEntries_ok in E as [? ?]; [|apply le_Uint32_range|done|done]. by apply IH.
Qed.

Lemma readDir_ok dir out :
  uncached (readDir fs dir) = Ok out -> zlen out <= maxDirEntries /\ Forall entry_ok out.
Proof using.
  unfold readDir. destruct (_ =? 0); [by intros [= <-]|].
  rewrite uncached_bind. destruct (uncached (newMetaCursor _ _ _)); rstep; [|done].
  apply readDir_loop_ok; [done|apply Forall_nil_2].
Qed.

(** The listing bytes the entries were decoded from, headers aside. *)
Definition entries_cost (es : list dirEntry) : Z :=
  foldr (fun e n => 8 + zlen (de_Name e) + n) 0 es.

(** The same of a list of names. *)
Definition names_cost (names : list (list byte)) : Z := foldr (fun s n => 8 + zlen s + n) 0 names.

Lemma entries_cost_names es : entries_cost es = names_cost (de_Name <$> es).
Proof using. unfold entries_cost, names_cost. induction es as [|e es IH]; cbn; [done|]. by rewrite IH. Qed.

Lemma names_cost_perm l k : l ≡ₚ k -> names_cost l = names_cost k.
Proof using. unfold names_cost. induction 1; cbn; lia. Qed.

Lemma names_cost_ge k l : Forall (fun s => k <= zlen s) l -> zlen l * (8 + k) <= names_cost l.
Proof using.
  induction 1 as [|s l Hs _ IH]; [done|]. rewrite zlen_cons. unfold names_cost in *. cbn [foldr]. lia.
Qed.

Lemma entries_cost_app es es' : entries_cost (es ++ es') = entries_cost es + entries_cost es'.
Proof using. unfold entries_cost. induction es as [|e es IH]; cbn; [done|]. rewrite IH. lia. Qed.

Lemma readDirEntries_cost i c remaining sb bi out c' rem' out' :
  0 <= remaining -> uncached (readDirEntries fs i c remaining sb bi out) = Ok (c', rem', out') ->
  0 <= rem' /\ entries_cost out' + rem' = entries_cost out + remaining.
Proof using.
  revert c remaining out. induction i as [|i IH]; intros c remaining out Hrem; cbn [readDirEntries].
  { by intros [= _ <- <-]. }
  destruct (Z.ltb_spec remaining 8). { by intros [= _ <- <-]. }
  rewrite uncached_bind. destruct (uncached (readN fs c 8)) as [[eh c1]|]; rstep; [|done].
  destruct (_ || _) eqn:E; [done|]. apply orb_false_iff in E as [E%Z.ltb_ge _].
  pose proof (le_Uint16_range (drop 6 eh)).
  rewrite uncached_bind. destruct (uncached (readN _ _ _)) as [[nameB c2]|] eqn:En; rstep; [|done].
  apply readN_length in En. destruct (_ <=? _); [done|]. intros [Hr Hc]%IH; [|lia]. split; [done|].
  rewrite Hc, entries_cost_app. cbn. unfold zlen. lia.
Qed.

Lemma readDir_loop_cost fuel c remaining out out' :
  0 <= remaining -> uncached (readDir_loop fs fuel c remaining out) = Ok out' ->
  entries_cost out' <= entries_cost out + remaining.
Proof using.
  revert c remaining out. induction fuel as [|fuel IH]; intros c remaining out Hrem;
    cbn [readDir_loop]; (destruct (Z.ltb_spec remaining 12); [intros [= <-]; lia|]); [done|].
  rewrite uncached_bind. destruct (uncached (readN fs c 12)) as [[hdr c1]|]; rstep; [|done].
  destruct (_ || _); [done|]. rewrite uncached_bind.
  destruct (uncached (readDirEntries _ _ _ _ _ _ _)) as [[[c2 rem] out2]|] eqn:E; rstep; [|done].
  apply readDirEntries_cost in E as [Hr Hc]; [|lia]. intros ?%IH; [lia|done].
Qed.

Lemma readDir_cost dir out :
  0 <= in_Size dir < 2 ^ 63 -> uncached (readDir fs dir) = Ok out -> entries_cost out <= in_Size dir.
Proof using.
  intros Hs. unfold readDir. destruct (_ =? 0). { intros [= <-]. cbn. lia. }
  rewrite uncached_bind. destruct (uncached (newMetaCursor _ _ _)); rstep; [|done].
  rewrite i64_small by lia. intros Hc%readDir_loop_cost; cbn in *; lia.
Qed.

End total.
