(* ===== verification/Path.v ===== *)
(** * Path resolution (src/path.go)

    [resolve] walks a path from the root, following symlinks; every followed
    link re-enters [resolveFrom] one hop deeper.  [Resolves] is the
    declarative account of what a walk returns; the two agree
    ([resolveFrom_complete], [resolveFrom_sound]). *)

From S2P Require Export Dir.

Definition maxSymlinkHops : Z := 40.

Definition slash : byte := Byte.x2f.
Definition dot : byte := Byte.x2e.

(** strings.Split(p, "/") with the segment read so far in [cur]. *)
Fixpoint strings_Split (cur p : list byte) : list (list byte) :=
  match p with
  | [] => [cur]
  | b :: p => if decide (b = slash) then cur :: strings_Split [] p else strings_Split (cur ++ [b]) p
  end.

Definition splitPath (p : list byte) : list (list byte) :=
  filter (fun s => s <> [] /\ s <> [dot]) (strings_Split [] p).

(** strings.HasPrefix(s, "/") *)
Definition hasPrefixSlash (s : list byte) : bool :=
  match s with b :: _ => bool_decide (b = slash) | [] => false end.

(** The search loop over the entries of a directory. *)
Fixpoint findChild `{CodecLib} (fs : FS) (entries : list dirEntry) (name : list byte) :
  prog (option inode) :=
  match entries with
  | [] => mret None
  | e :: entries =>
      if decide (de_Name e = name) then child ← readInode fs (de_InodeRef e); mret (Some child)
      else findChild fs entries name
  end.

(** The component loop of resolveFrom; [follow base target] is its recursive
    call. *)
Fixpoint walk `{CodecLib} (fs : FS) (follow : inode -> list byte -> prog inode)
    (followFinal : bool) (cur : inode) (parts : list (list byte)) : prog inode :=
  match parts with
  | [] => mret cur
  | name :: rest =>
      if negb (isDir cur) then throw ErrNotDirectory
      else
        entries ← readDir fs cur;
        found ← findChild fs entries name;
        match found with
        | None => throw ErrNotFound
        | Some child =>
            let last := bool_decide (rest = []) in
            child ←
              (if isSymlink child && (negb last || followFinal) then
                 let target := in_symlinkTarget child in
                 base ← (if hasPrefixSlash target
                         then readInode fs (sb_RootInode (fs_sb fs)) else mret cur);
                 follow base target
               else mret child);
            walk fs follow followFinal child rest
        end
  end.

Fixpoint resolveFrom `{CodecLib} (fs : FS) (fuel : nat) (start : inode) (path : list byte)
    (followFinal : bool) (hops : Z) : prog inode :=
  if maxSymlinkHops <? hops then throw ErrTooManyLinks
  else
    match fuel with
    | O => throw OutOfFuel
    | S fuel =>
        walk fs (fun base target => resolveFrom fs fuel base target true (hops + 1))
          followFinal start (splitPath path)
    end.

(** One level of recursion per hop, 0 to maxSymlinkHops. *)
Definition resolveFuel : nat := Z.to_nat (maxSymlinkHops + 1).

Definition resolve `{CodecLib} (fs : FS) (path : list byte) (followFinal : bool) : prog inode :=
  root ← readInode fs (sb_RootInode (fs_sb fs));
  resolveFrom fs resolveFuel root path followFinal 0.

(** ** Transparency and totality *)

Section transparency.
Context `{CodecLib} (fs : FS).
Context (okD : Z -> list byte -> Prop) (okA : Z -> Prop).
Context (okA_meta : forall n, 0 <= n <= metaBlockMax -> okA n).

#[local] Notation transparent := (transparent (okMeta fs) okD okA).

Lemma findChild_transparent entries name : transparent (findChild fs entries name).
Proof using okA_meta.
  induction entries as [|e entries IH]; cbn [findChild]; [transp|].
  destruct (decide _); [|done]. apply transparent_bind; transp.
Qed.

Lemma walk_transparent follow ff cur parts :
  (forall base target, transparent (follow base target)) ->
  transparent (walk fs follow ff cur parts).
Proof using okA_meta.
  intros Hf. revert cur. induction parts as [|name rest IH]; intros cur; cbn [walk]; [transp|].
  destruct (negb _); [transp|].
  apply transparent_bind; [auto with transp|]. intros entries _.
  apply transparent_bind; [apply findChild_transparent|]. intros [child|] _; [|transp].
  apply transparent_bind; [|auto]. destruct (_ && _); [|transp].
  apply transparent_bind; [|auto]. transp.
Qed.

Lemma resolveFrom_transparent fuel start path ff hops :
  transparent (resolveFrom fs fuel start path ff hops).
Proof using okA_meta.
  revert start path ff hops. induction fuel as [|fuel IH]; intros; cbn [resolveFrom];
    (destruct (_ <? _); [transp|]); [transp|].
  by apply walk_transparent.
Qed.

Lemma resolve_transparent path ff : transparent (resolve fs path ff).
Proof using okA_meta.
  unfold resolve. apply transparent_bind; [auto with transp|]. intros root _.
  apply resolveFrom_transparent.
Qed.

End transparency.

#[export] Hint Resolve resolve_transparent : transp.

Section total.
Context `{CodecLib} (fs : FS) (laws : CodecLaws) (wf : sb_wf (fs_sb fs)).

Lemma findChild_sane entries name : sane (uncached (findChild fs entries name)).
Proof using laws wf.
  induction entries as [|e entries IH]; cbn [findChild]; [done|].
  destruct (decide _); [|done]. apply sane_pbind; [by apply readInode_sane|done].
Qed.

Lemma walk_sane follow ff cur parts :
  (forall base target, sane (uncached (follow base target))) ->
  sane (uncached (walk fs follow ff cur parts)).
Proof using laws wf.
  intros Hf. revert cur. induction parts as [|name rest IH]; intros cur; cbn [walk]; [done|].
  destruct (negb _); [done|].
  apply sane_pbind; [by apply readDir_sane|]. intros entries _.
  apply sane_pbind; [by apply findChild_sane|]. intros [child|] _; [|done].
  apply sane_pbind; [|auto]. destruct (_ && _); [|done].
  apply sane_pbind; [|auto]. destruct (hasPrefixSlash _); [by apply readInode_sane|done].
Qed.

Lemma resolveFrom_sane fuel start path ff hops :
  maxSymlinkHops + 1 - hops <= Z.of_nat fuel ->
  sane (uncached (resolveFrom fs fuel start path ff hops)).
Proof using laws wf.
  revert start path ff hops. induction fuel as [|fuel IH]; intros start path ff hops Hf;
    cbn [resolveFrom]; destruct (Z.ltb_spec maxSymlinkHops hops); try done; [lia|].
  apply walk_sane. intros. apply IH. lia.
Qed.

Lemma resolve_sane path ff : sane (uncached (resolve fs path ff)).
Proof using laws wf.
  unfold resolve. apply sane_pbind; [by apply readInode_sane|]. intros root _.
  apply resolveFrom_sane. done.
Qed.

End total.

(** ** Splitting a path *)

Lemma strings_Split_nosep cur p s :
  slash ∉ cur -> s ∈ strings_Split cur p -> slash ∉ s.
Proof.
  revert cur. induction p as [|b p IH]; intros cur Hc; cbn.
  { by intros ->%list_elem_of_singleton. }
  destruct (decide (b = slash)).
  - intros [->|Hs]%elem_of_cons; [done|]. eapply IH; [|done]. apply not_elem_of_nil.
  - apply IH. rewrite elem_of_app, list_elem_of_singleton. naive_solver.
Qed.

(** A name a path component can be: not empty, not ".", without a slash. *)
Definition component (s : list byte) : Prop := s <> [] /\ s <> [dot] /\ slash ∉ s.

Lemma splitPath_components p : Forall component (splitPath p).
Proof.
  apply Forall_forall. intros s [[H1 H2] Hs]%list_elem_of_filter.
  split_and!; [done|done|]. eapply strings_Split_nosep; [|done]. apply not_elem_of_nil.
Qed.

(** "/a/b/c" *)
Definition joinPath (parts : list (list byte)) : list byte :=
  mjoin ((fun s => slash :: s) <$> parts).

Lemma strings_Split_word cur s p :
  slash ∉ s -> strings_Split cur (s ++ slash :: p) = (cur ++ s) :: strings_Split [] p.
Proof.
  revert cur. induction s as [|b s IH]; intros cur Hs; cbn.
  - by rewrite decide_True, app_nil_r.
  - apply not_elem_of_cons in Hs as [Hb Hs]. rewrite decide_False by done.
    rewrite IH by done. by rewrite <- app_assoc.
Qed.

Lemma strings_Split_last cur s : slash ∉ s -> strings_Split cur s = [cur ++ s].
Proof.
  revert cur. induction s as [|b s IH]; intros cur Hs; cbn.
  - by rewrite app_nil_r.
  - apply not_elem_of_cons in Hs as [Hb Hs]. rewrite decide_False by done.
    rewrite IH by done. by rewrite <- app_assoc.
Qed.

Lemma strings_Split_join s parts :
  slash ∉ s -> Forall component parts -> strings_Split [] (s ++ joinPath parts) = s :: parts.
Proof.
  revert s. induction parts as [|p parts IH]; intros s Hs Hp; cbn.
  - rewrite app_nil_r. by apply strings_Split_last.
  - apply Forall_cons in Hp as [(_ & _ & Hns) Hp].
    rewrite strings_Split_word by done. cbn. f_equal. by apply IH.
Qed.

Lemma splitPath_joinPath parts : Forall component parts -> splitPath (joinPath parts) = parts.
Proof.
  intros Hp. unfold splitPath.
  pose proof (strings_Split_join [] parts (not_elem_of_nil _) Hp) as E. cbn in E. rewrite E.
  rewrite filter_cons_False by naive_solver.
  induction Hp as [|s parts (H1 & H2 & H3) Hp IH]; [done|].
  rewrite filter_cons_True by done. f_equal. apply IH.
  exact (strings_Split_join [] parts (not_elem_of_nil _) Hp).
Qed.

(** ** What a walk returns *)

(** The inode of the first entry with the given name. *)
Definition child_named `{CodecLib} (fs : FS) (entries : list dirEntry) (name : list byte)
    (child : inode) : Prop :=
  exists pre e post,
    entries = pre ++ e :: post /\ de_Name e = name /\
    Forall (fun e' => de_Name e' <> name) pre /\
    uncached (readInode fs (de_InodeRef e)) = Ok child.

(** The directory a link's target is resolved against. *)
Definition link_base `{CodecLib} (fs : FS) (cur : inode) (target : list byte) (base : inode) : Prop :=
  if hasPrefixSlash target
  then uncached (readInode fs (sb_RootInode (fs_sb fs))) = Ok base
  else base = cur.

(** [Resolves fs n cur parts ff res]: following the components from [cur],
    with links nested at most [n] deep, ends at [res]. *)
Inductive Resolves `{CodecLib} (fs : FS) : nat -> inode -> list (list byte) -> bool -> inode -> Prop :=
| R_nil n cur ff : Resolves fs n cur [] ff cur
| R_plain n cur name rest ff entries child res :
    isDir cur = true -> uncached (readDir fs cur) = Ok entries ->
    child_named fs entries name child ->
    isSymlink child = false \/ (rest = [] /\ ff = false) ->
    Resolves fs n child rest ff res ->
    Resolves fs n cur (name :: rest) ff res
| R_link n cur name rest ff entries child base dest res :
    isDir cur = true -> uncached (readDir fs cur) = Ok entries ->
    child_named fs entries name child ->
    isSymlink child = true -> rest <> [] \/ ff = true ->
    link_base fs cur (in_symlinkTarget child) base ->
    Resolves fs n base (splitPath (in_symlinkTarget child)) true dest ->
    Resolves fs (S n) dest rest ff res ->
    Resolves fs (S n) cur (name :: rest) ff res.

Section spec.
Context `{CodecLib} (fs : FS).

Lemma findChild_spec entries name child :
  uncached (findChild fs entries name) = Ok (Some child) <-> child_named fs entries name child.
Proof.
  induction entries as [|e entries IH]; cbn [findChild].
  { split; [done|]. intros ([|? pre] & e & post & He & _); done. }
  destruct (decide (de_Name e = name)) as [Hn|Hn].
  - rewrite uncached_bind. split.
    + destruct (uncached (readInode _ _)) as [i|] eqn:E; [|done]. intros [= <-].
      exists [], e, entries. split_and!; [done..|apply Forall_nil_2|done].
    + intros (pre & e' & post & He & Hn' & Hpre & Hr).
      destruct pre as [|e0 pre]; injection He as <- ->; [by rewrite Hr|].
      apply Forall_cons in Hpre. naive_solver.
  - rewrite IH. split.
    + intros (pre & e' & post & -> & Hn' & Hpre & Hr).
      exists (e :: pre), e', post. split_and!; [done..|by apply Forall_cons|done].
    + intros (pre & e' & post & He & Hn' & Hpre & Hr).
      destruct pre as [|e0 pre]; injection He as <- ->; [done|].
      apply Forall_cons in Hpre as [_ Hpre]. by exists pre, e', post.
Qed.

Lemma link_base_spec cur target base :
  uncached (if hasPrefixSlash target then readInode fs (sb_RootInode (fs_sb fs)) else mret cur) =
    Ok base <-> link_base fs cur target base.
Proof. unfold link_base. destruct (hasPrefixSlash target); [done|]. cbn. split; [by intros [= ->]|by intros ->]. Qed.

(** A walk returns only what [Resolves] derives, and conversely, when the
    same holds of the links it follows one level deeper. *)
Lemma walk_sound n follow ff cur parts res :
  (forall base target dest, uncached (follow base target) = Ok dest ->
     exists m, n = S m /\ Resolves fs m base (splitPath target) true dest) ->
  uncached (walk fs follow ff cur parts) = Ok res -> Resolves fs n cur parts ff res.
Proof.
  intros Hf. revert cur. induction parts as [|name rest IH]; intros cur; cbn [walk].
  { intros [= ->]. constructor. }
  destruct (isDir cur) eqn:Hd; [|done]. cbn [negb]. rewrite uncached_bind.
  destruct (uncached (readDir fs cur)) as [entries|] eqn:He; [|done]. rstep. rewrite uncached_bind.
  destruct (uncached (findChild fs entries name)) as [[child|]|] eqn:Hc; [|done..]. rstep.
  apply findChild_spec in Hc. rewrite uncached_bind.
  destruct (isSymlink child && (negb (bool_decide (rest = [])) || ff)) eqn:Hl.
  - apply andb_true_iff in Hl as [Hl Hlast].
    rewrite uncached_bind. destruct (uncached (if hasPrefixSlash _ then _ else _)) as [base|] eqn:Hb; [|done].
    apply link_base_spec in Hb. rstep.
    destruct (uncached (follow base _)) as [dest|] eqn:Hfo; [|done].
    apply Hf in Hfo as (m & -> & Hm). rstep. intros Hw%IH.
    eapply R_link; try done. apply orb_true_iff in Hlast as [Hr|Hff]; [left|by right].
    by apply negb_true_iff, bool_decide_eq_false in Hr.
  - intros Hw. apply IH in Hw. eapply R_plain; try done.
    apply andb_false_iff in Hl as [Hl|Hl]; [by left|right].
    apply orb_false_iff in Hl as [Hr ->].
    by apply negb_false_iff, bool_decide_eq_true in Hr.
Qed.

Lemma resolveFrom_sound fuel start path ff hops res :
  0 <= hops ->
  uncached (resolveFrom fs fuel start path ff hops) = Ok res ->
  hops <= maxSymlinkHops /\
  Resolves fs (Z.to_nat (maxSymlinkHops - hops)) start (splitPath path) ff res.
Proof.
  revert start path ff hops res. induction fuel as [|fuel IH]; intros start path ff hops res Hh;
    cbn [resolveFrom]; destruct (Z.ltb_spec maxSymlinkHops hops); try done.
  intros Hw. split; [done|]. eapply walk_sound; [|exact Hw]. intros base target dest Hd.
  apply IH in Hd as [Hle Hd]; [|lia].
  eexists. split; [|exact Hd]. lia.
Qed.

Lemma resolveFrom_S fuel start path ff hops :
  hops <= maxSymlinkHops ->
  resolveFrom fs (S fuel) start path ff hops =
  walk fs (fun base target => resolveFrom fs fuel base target true (hops + 1))
    ff start (splitPath path).
Proof. intros. cbn [resolveFrom]. destruct (Z.ltb_spec maxSymlinkHops hops); [lia|done]. Qed.

Lemma resolveFrom_complete n start parts ff res :
  Resolves fs n start parts ff res ->
  forall fuel hops, maxSymlinkHops - hops = Z.of_nat n -> (n < fuel)%nat ->
  (uncached (walk fs (fun base target => resolveFrom fs (pred fuel) base target true (hops + 1))
               ff start parts)) = Ok res.
Proof.
  induction 1 as [n cur ff|n cur name rest ff entries child res Hd He Hc Hl _ IH
    |n cur name rest ff entries child base dest res Hd He Hc Hs Hl Hb _ IH1 _ IH2];
    intros fuel hops Hn Hfuel; cbn [walk]; [done|..];
    rewrite Hd; cbn [negb]; rewrite uncached_bind, He; rstep; rewrite uncached_bind;
    apply findChild_spec in Hc; rewrite Hc; rstep; rewrite uncached_bind.
  - replace (isSymlink child && _) with false; [cbn [uncached mret prog_ret]; rstep; by apply IH|].
    destruct Hl as [->|[-> ->]]; [done|]. by rewrite andb_false_r.
  - rewrite Hs. replace (true && _) with true.
    2:{ destruct Hl as [Hr| ->]; [by rewrite bool_decide_eq_false_2|by rewrite orb_true_r]. }
    rewrite uncached_bind. apply link_base_spec in Hb. rewrite Hb. rstep.
    destruct fuel as [|[|fuel]]; [lia..|]. cbn [pred]. rewrite resolveFrom_S by lia.
    pose proof (IH1 (S fuel) (hops + 1) ltac:(lia) ltac:(lia)) as E1. cbn [pred] in E1.
    rewrite E1. rstep. apply (IH2 (S (S fuel))); lia.
Qed.

Lemma resolve_iff path ff res :
  uncached (resolve fs path ff) = Ok res <->
  exists root, uncached (readInode fs (sb_RootInode (fs_sb fs))) = Ok root /\
    Resolves fs 40 root (splitPath path) ff res.
Proof.
  unfold resolve. rewrite uncached_bind.
  destruct (uncached (readInode _ _)) as [root|]; rstep.
  2:{ split; [done|]. by intros (? & ? & _). }
  split.
  - intros Hr%resolveFrom_sound; [|done]. destruct Hr as [_ Hr]. by exists root.
  - intros (root' & [= <-] & Hr). unfold resolveFuel.
    change (Z.to_nat (maxSymlinkHops + 1)) with 41%nat. rewrite resolveFrom_S by done.
    exact (resolveFrom_complete 40 root _ ff res Hr 41 0 eq_refl ltac:(lia)).
Qed.

(** ** Paths that fail *)

(** A walk goes through the inode its first components lead to. *)
Lemma walk_app follow ff cur parts d rest :
  rest <> [] -> uncached (walk fs follow true cur parts) = Ok d ->
  uncached (walk fs follow ff cur (parts ++ rest)) = uncached (walk fs follow ff d rest).
Proof.
  intros Hr. revert cur. induction parts as [|name parts IH]; intros cur; cbn [walk app].
  { by intros [= ->]. }
  destruct (negb _); [done|]. rewrite !uncached_bind.
  destruct (uncached (readDir fs cur)) as [entries|]; rstep; [|done]. rewrite !uncached_bind.
  destruct (uncached (findChild fs entries name)) as [[child|]|]; rstep; [|done..]. rewrite !uncached_bind.
  rewrite (bool_decide_eq_false_2 (parts ++ rest = [])) by (by intros [_ ?]%app_eq_nil).
  cbn [negb]. rewrite orb_true_r. cbn [orb].
  destruct (uncached (if _ : bool then _ else _)) as [dest|]; rstep; [|done]. apply IH.
Qed.

Lemma findChild_none entries name :
  Forall (fun e => de_Name e <> name) entries -> uncached (findChild fs entries name) = Ok None.
Proof.
  induction 1 as [|e entries He _ IH]; cbn [findChild]; [done|]. by destruct (decide _).
Qed.

(** Past an inode a prefix of the path resolves to. *)
Lemma resolve_prefix dirpath path d name rest ff :
  uncached (resolve fs dirpath true) = Ok d -> splitPath path = splitPath dirpath ++ name :: rest ->
  uncached (resolve fs path ff) =
  uncached (walk fs (fun base target => resolveFrom fs 40 base target true 1) ff d (name :: rest)).
Proof.
  unfold resolve. rewrite !uncached_bind. destruct (uncached (readInode _ _)) as [root|]; rstep; [|done].
  unfold resolveFuel. change (Z.to_nat (maxSymlinkHops + 1)) with 41%nat. rewrite !resolveFrom_S by done.
  intros Hd ->. by rewrite (walk_app _ ff root _ d).
Qed.

(** ** Links that never end, and the hop limit *)

(** A link whose target starts by naming the link itself, found again in the
    same directory, exhausts the hops whatever else the path holds. *)
Lemma walk_self_link follow cur name rest entries l ff e :
  isDir cur = true -> uncached (readDir fs cur) = Ok entries ->
  child_named fs entries name l -> isSymlink l = true ->
  hasPrefixSlash (in_symlinkTarget l) = false ->
  rest <> [] \/ ff = true ->
  uncached (follow cur (in_symlinkTarget l)) = Err e ->
  uncached (walk fs follow ff cur (name :: rest)) = Err e.
Proof.
  intros Hd He Hc Hs Hp Hl Hf. cbn [walk]. rewrite Hd. cbn [negb].
  rewrite uncached_bind, He. rstep. rewrite uncached_bind.
  apply findChild_spec in Hc. rewrite Hc. rstep. rewrite uncached_bind, Hs.
  replace (true && _) with true.
  2:{ destruct Hl as [Hr| ->]; [by rewrite bool_decide_eq_false_2|by rewrite orb_true_r]. }
  rewrite uncached_bind, Hp. cbn [uncached mret prog_ret]. rstep. by rewrite Hf.
Qed.

Lemma resolveFrom_self_link fuel cur name more entries l hops path rest ff :
  isDir cur = true -> uncached (readDir fs cur) = Ok entries ->
  child_named fs entries name l -> isSymlink l = true ->
  hasPrefixSlash (in_symlinkTarget l) = false ->
  splitPath (in_symlinkTarget l) = name :: more ->
  splitPath path = name :: rest -> rest <> [] \/ ff = true ->
  maxSymlinkHops + 1 - hops <= Z.of_nat fuel ->
  uncached (resolveFrom fs fuel cur path ff hops) = Err ErrTooManyLinks.
Proof.
  intros Hd He Hc Hs Hp Ht. revert path rest ff hops.
  induction fuel as [|fuel IH]; intros path rest ff hops Hpath Hl Hf; cbn [resolveFrom];
    destruct (Z.ltb_spec maxSymlinkHops hops); try done; [lia|].
  rewrite Hpath. eapply walk_self_link; eauto. eapply IH; [exact Ht|by right|lia].
Qed.

(** A link to "." costs one hop of depth each time it is followed, and the
    depth is given back: any number of them resolves. *)
Lemma walk_dot_links n fuel hops cur name entries l :
  isDir cur = true -> uncached (readDir fs cur) = Ok entries ->
  child_named fs entries name l -> isSymlink l = true ->
  in_symlinkTarget l = [dot] -> hops < maxSymlinkHops -> (0 < fuel)%nat ->
  uncached (walk fs (fun base target => resolveFrom fs fuel base target true (hops + 1))
              true cur (replicate n name)) = Ok cur.
Proof.
  intros Hd He Hc Hs Ht Hh Hf. induction n as [|n IH]; [done|].
  cbn [replicate walk]. rewrite Hd. cbn [negb].
  rewrite uncached_bind, He. rstep. rewrite uncached_bind.
  pose proof Hc as Hc'. apply findChild_spec in Hc'. rewrite Hc'. rstep. rewrite uncached_bind, Hs, Ht.
  replace (true && _) with true by (by rewrite orb_true_r).
  rewrite uncached_bind. cbn [hasPrefixSlash]. rewrite bool_decide_eq_false_2 by done.
  cbn [uncached mret prog_ret]. rstep.
  destruct fuel as [|fuel]; [lia|]. rewrite resolveFrom_S by lia.
  change (splitPath [dot]) with (@nil (list byte)). cbn [walk uncached mret prog_ret]. rstep. exact IH.
Qed.

End spec.
