(* ===== verification/Xattr.v ===== *)
(** * Extended attributes (src/xattr.go)

    The two-level id table, the key/value lists with their out-of-line
    values, and the budget that bounds what one inode's list may return.  A
    Go map is a [gmap]; a later pair with the same name replaces the
    earlier one. *)

From S2P Require Export Inode.
From stdpp Require Import strings.
#[local] Open Scope Z_scope.

Definition xattrPrefixes (t : Z) : option (list byte) :=
  if t =? 0 then Some (String.list_byte_of_string "user.")
  else if t =? 1 then Some (String.list_byte_of_string "trusted.")
  else if t =? 2 then Some (String.list_byte_of_string "security.")
  else None.

Definition xattrFlagOOL : Z := 0x0100.
Definition maxXattrBytes : Z := 16 * 2 ^ 20.

Record xattrIDEntry := mkXattrIDEntry {
  xe_ref : Z;     (* uint64 *)
  xe_count : Z;   (* uint32 *)
  xe_size : Z     (* uint32 *)
}.

Definition xattrIDEntrySize : Z := 16.
Definition xattrIDPerMetaBlock : Z := 512.

Record xattrTable := mkXattrTable {
  xt_kvStart : Z;   (* int64 *)
  xt_idCount : Z;   (* uint32 *)
  xt_nBlocks : Z    (* uint64 *)
}.

Definition hasXattrTable (fs : FS) : bool :=
  negb (sb_XattrTableStart (fs_sb fs) =? 0xFFFFFFFFFFFFFFFF).

Definition readXattrTable (fs : FS) : result xattrTable :=
  let start := sb_XattrTableStart (fs_sb fs) in
  if negb (hasXattrTable fs) then Err ErrNotFound
  else
    hdr ← ReadAt (fs_rs fs) (i64 start) 16;
    let idCount := le_Uint32 (drop 8 hdr) in
    let nBlocks := (idCount + xattrIDPerMetaBlock - 1) / xattrIDPerMetaBlock in
    let end_ := u64 (u64 (start + 16) + u64 (nBlocks * 8)) in
    if (0 <? fs_size fs) && ((u64 (fs_size fs) <? start) || (u64 (fs_size fs) <? end_))
    then Err ErrCorrupt
    else Ok (mkXattrTable (i64 (le_Uint64 hdr)) idCount nBlocks).

Definition readXattrIDEntry `{CodecLib} (fs : FS) (t : xattrTable) (idx : Z) : prog xattrIDEntry :=
  if xt_idCount t <=? idx then throw ErrCorrupt
  else
    let blockIdx := idx / xattrIDPerMetaBlock in
    let inBlock := idx mod xattrIDPerMetaBlock in
    if xt_nBlocks t <=? blockIdx then throw ErrCorrupt
    else
      ptr ← lift (ReadAt (fs_rs fs)
        (i64 (i64 (i64 (sb_XattrTableStart (fs_sb fs)) + 16) + blockIdx * 8)) 8);
      '(block, _) ← readMetaBlockCached fs (i64 (le_Uint64 ptr));
      let o := inBlock * xattrIDEntrySize in
      if zlen block <? o + xattrIDEntrySize then throw ErrCorrupt
      else
        let rec := drop (Z.to_nat o) block in
        mret (mkXattrIDEntry (le_Uint64 rec) (le_Uint32 (drop 8 rec)) (le_Uint32 (drop 12 rec))).

Definition readXattrValueAt `{CodecLib} (fs : FS) (t : xattrTable) (ref : Z) : prog (list byte) :=
  let '(blockOff, inBlockOff) := inodeRef ref in
  c ← newMetaCursor fs (i64 (xt_kvStart t + blockOff)) inBlockOff;
  '(hdr, c) ← readN fs c 4;
  let vsize := le_Uint32 hdr in
  if metaBlockMax <? vsize then throw ErrCorrupt
  else
    '(v, _) ← readN fs c vsize;
    mret v.

(** The value of the pair the cursor stands at: inline, or out of line
    through an 8-byte reference. *)
Definition readXattrValue `{CodecLib} (fs : FS) (t : xattrTable) (c : metaCursor) (typ : Z) :
  prog (list byte * metaCursor) :=
  '(valHdr, c) ← readN fs c 4;
  let vsize := le_Uint32 valHdr in
  if negb (Z.land typ xattrFlagOOL =? 0) then
    if negb (vsize =? 8) then throw ErrCorrupt
    else
      '(refBytes, c) ← readN fs c 8;
      val ← readXattrValueAt fs t (le_Uint64 refBytes);
      mret (val, c)
  else if metaBlockMax <? vsize then throw ErrCorrupt
  else readN fs c vsize.

(** The loop of readXattrPairs with [i] pairs to go. *)
Fixpoint readXattrPairs_loop `{CodecLib} (fs : FS) (t : xattrTable) (fuel : nat) (i : Z)
    (c : metaCursor) (budget : Z) (out : gmap (list byte) (list byte)) :
  prog (gmap (list byte) (list byte)) :=
  if i <=? 0 then mret out
  else
    match fuel with
    | O => throw OutOfFuel
    | S fuel =>
        let budget := budget - 8 in
        if budget <? 0 then throw ErrTooLarge
        else
          '(keyHdr, c) ← readN fs c 4;
          let typ := le_Uint16 keyHdr in
          let nameSize := le_Uint16 (drop 2 keyHdr) in
          if metaBlockMax <? nameSize then throw ErrCorrupt
          else
            '(nameBytes, c) ← readN fs c nameSize;
            match xattrPrefixes (Z.land typ 0x00FF) with
            | None => throw ErrCorrupt
            | Some prefix =>
                let name := prefix ++ nameBytes in
                '(val, c) ← readXattrValue fs t c typ;
                let budget := budget - (zlen name + zlen val) in
                if budget <? 0 then throw ErrTooLarge
                else readXattrPairs_loop fs t fuel (i - 1) c budget (<[name:=val]> out)
            end
    end.

(** Every pair is charged at least 8 bytes, so the budget bounds the
    iterations whatever the count says. *)
Definition xattrFuel (count : Z) : nat := Z.to_nat (Z.min count (maxXattrBytes / 8 + 1)).

Definition readXattrPairs `{CodecLib} (fs : FS) (t : xattrTable) (e : xattrIDEntry) :
  prog (gmap (list byte) (list byte)) :=
  let '(blockOff, inBlockOff) := inodeRef (xe_ref e) in
  c ← newMetaCursor fs (i64 (xt_kvStart t + blockOff)) inBlockOff;
  _ ← make (Z.min (xe_count e) 64);
  readXattrPairs_loop fs t (xattrFuel (xe_count e)) (xe_count e) c maxXattrBytes ∅.

(** inodeXattrs of src/fs.go: [None] is the nil map. *)
Definition inodeXattrs `{CodecLib} (fs : FS) (i : inode) :
  prog (option (gmap (list byte) (list byte))) :=
  if (in_xattrIdx i =? noXattr) || negb (hasXattrTable fs) then mret None
  else
    t ← lift (readXattrTable fs);
    e ← readXattrIDEntry fs t (in_xattrIdx i);
    m ← readXattrPairs fs t e;
    mret (Some m).

(** ** Transparency, totality, bounds *)

Lemma readXattrIDEntry_count `{CodecLib} fs t idx e :
  uncached (readXattrIDEntry fs t idx) = Ok e -> 0 <= xe_count e.
Proof.
  unfold readXattrIDEntry. destruct (_ <=? _); [done|]. destruct (_ <=? _); [done|].
  rewrite uncached_bind, uncached_lift. destruct (ReadAt _ _ _); rstep; [|done].
  rewrite uncached_bind. destruct (uncached (readMetaBlockCached _ _)) as [[b nx]|]; rstep; [|done].
  destruct (_ <? _); [done|]. intros [= <-]. apply le_Uint32_nonneg.
Qed.

Section transparency.
Context `{CodecLib} (fs : FS).
Context (okD : Z -> list byte -> Prop) (okA : Z -> Prop).
Context (okA_meta : forall n, 0 <= n <= metaBlockMax -> okA n).

#[local] Notation transparent := (transparent (okMeta fs) okD okA).

Lemma readXattrIDEntry_transparent t idx : transparent (readXattrIDEntry fs t idx).
Proof using okA_meta.
  unfold readXattrIDEntry. destruct (_ <=? idx); [transp|]. destruct (_ <=? _); [transp|].
  apply transparent_bind; [transp|]. intros ptr _.
  apply transparent_bind; [auto with transp|]. intros [block nx] _. transp.
Qed.

Lemma readXattrValueAt_transparent t ref : transparent (readXattrValueAt fs t ref).
Proof using okA_meta.
  unfold readXattrValueAt. destruct (inodeRef ref) as [bo ib].
  apply transparent_bind; [auto with transp|]. intros c _.
  apply transparent_bind; [auto with transp|]. intros [hdr c1] _.
  destruct (Z.ltb_spec metaBlockMax (le_Uint32 hdr)); [transp|].
  pose proof (le_Uint32_nonneg hdr). transp.
Qed.

Lemma readXattrValue_transparent t c typ : transparent (readXattrValue fs t c typ).
Proof using okA_meta.
  unfold readXattrValue. apply transparent_bind; [auto with transp|]. intros [hdr c1] _.
  destruct (negb _).
  - destruct (negb _); [transp|].
    apply transparent_bind; [auto with transp|]. intros [refBytes c2] _.
    apply transparent_bind; [apply readXattrValueAt_transparent|]. transp.
  - destruct (Z.ltb_spec metaBlockMax (le_Uint32 hdr)); [transp|].
    pose proof (le_Uint32_nonneg hdr). transp.
Qed.

Lemma readXattrPairs_loop_transparent t fuel i c budget out :
  transparent (readXattrPairs_loop fs t fuel i c budget out).
Proof using okA_meta.
  revert i c budget out. induction fuel as [|fuel IH]; intros i c budget out;
    cbn [readXattrPairs_loop]; (destruct (i <=? 0); [transp|]); [transp|].
  destruct (_ <? 0); [transp|].
  apply transparent_bind; [auto with transp|]. intros [keyHdr c1] _.
  destruct (Z.ltb_spec metaBlockMax (le_Uint16 (drop 2 keyHdr))); [transp|].
  pose proof (le_Uint16_range (drop 2 keyHdr)).
  apply transparent_bind; [auto with transp|]. intros [nameBytes c2] _.
  destruct (xattrPrefixes _) as [prefix|]; [|transp].
  apply transparent_bind; [apply readXattrValue_transparent|]. intros [val c3] _.
  destruct (_ <? 0); [transp|]. apply IH.
Qed.

Lemma inodeXattrs_transparent i :
  transparent (inodeXattrs fs i).
Proof using okA_meta.
  unfold inodeXattrs. destruct (_ || _); [transp|].
  apply transparent_bind; [transp|]. intros t _.
  apply transparent_bind; [apply readXattrIDEntry_transparent|]. intros e He.
  apply transparent_bind; [|transp].
  unfold readXattrPairs. destruct (inodeRef _) as [bo ib].
  apply transparent_bind; [auto with transp|]. intros c _.
  pose proof (readXattrIDEntry_count _ _ _ _ He).
  apply transparent_bind; [apply transparent_make; [lia|apply okA_meta; unfold metaBlockMax; lia]|].
  intros _ _. apply readXattrPairs_loop_transparent.
Qed.

End transparency.

#[export] Hint Resolve inodeXattrs_transparent : transp.

(** The bytes an attribute map holds: names and values, 8 per pair. *)
Definition xattr_bytes (m : gmap (list byte) (list byte)) : Z :=
  map_fold (fun k v acc => 8 + zlen k + zlen v + acc) 0 m.

Lemma xattr_bytes_insert_new m k v :
  m !! k = None -> xattr_bytes (<[k:=v]> m) = 8 + zlen k + zlen v + xattr_bytes m.
Proof.
  intros Hk. unfold xattr_bytes. rewrite map_fold_insert_L; [done| |done].
  intros. lia.
Qed.

Lemma xattr_bytes_insert m k v :
  xattr_bytes (<[k:=v]> m) <= 8 + zlen k + zlen v + xattr_bytes m.
Proof.
  destruct (m !! k) as [v'|] eqn:Hk; [|by rewrite xattr_bytes_insert_new].
  rewrite <- insert_delete_eq, xattr_bytes_insert_new by apply lookup_delete_eq.
  assert (xattr_bytes m = 8 + zlen k + zlen v' + xattr_bytes (delete k m)) as ->.
  { rewrite <- xattr_bytes_insert_new by apply lookup_delete_eq. by rewrite insert_delete_id. }
  pose proof (zlen_nonneg k). pose proof (zlen_nonneg v'). lia.
Qed.

Section total.
Context `{CodecLib} (fs : FS) (laws : CodecLaws).

Lemma readXattrTable_sane : sane (readXattrTable fs).
Proof using.
  unfold readXattrTable. destruct (negb _); [done|].
  apply sane_bind; [apply ReadAt_sane|]. intros hdr _. by destruct (_ && _).
Qed.

Lemma readXattrIDEntry_sane t idx : sane (uncached (readXattrIDEntry fs t idx)).
Proof using laws.
  unfold readXattrIDEntry. destruct (_ <=? idx); [done|]. destruct (_ <=? _); [done|].
  apply sane_pbind; [apply ReadAt_sane|]. intros ptr _.
  apply sane_pbind; [rewrite uncached_readMetaBlockCached; by apply readMetaBlock_sane|].
  intros [block nx] _. by destruct (_ <? _).
Qed.

Lemma readXattrValueAt_sane t ref : sane (uncached (readXattrValueAt fs t ref)).
Proof using laws.
  unfold readXattrValueAt. destruct (inodeRef ref) as [bo ib].
  apply sane_pbind; [by apply newMetaCursor_sane|]. intros c _.
  apply sane_pbind; [by apply readN_sane|]. intros [hdr c1] _. destruct (_ <? _); [done|].
  apply sane_pbind; [apply readN_sane; [done|apply le_Uint32_nonneg]|]. by intros [v c2] _.
Qed.

Lemma readXattrValue_sane t c typ : sane (uncached (readXattrValue fs t c typ)).
Proof using laws.
  unfold readXattrValue. apply sane_pbind; [by apply readN_sane|]. intros [hdr c1] _.
  destruct (negb _).
  - destruct (negb _); [done|]. apply sane_pbind; [by apply readN_sane|]. intros [rb c2] _.
    apply sane_pbind; [apply readXattrValueAt_sane|done].
  - destruct (_ <? _); [done|]. apply readN_sane; [done|apply le_Uint32_nonneg].
Qed.

(** The loop ends within its fuel: by the count, or by the budget. *)
Lemma readXattrPairs_loop_sane t fuel i c budget out :
  (i <= Z.of_nat fuel \/ budget < 8 * Z.of_nat fuel) -> 0 <= budget ->
  sane (uncached (readXattrPairs_loop fs t fuel i c budget out)).
Proof using laws.
  revert i c budget out. induction fuel as [|fuel IH]; intros i c budget out Hf Hb;
    cbn [readXattrPairs_loop]; destruct (Z.leb_spec i 0); try done.
  { lia. }
  destruct (Z.ltb_spec (budget - 8) 0); [done|].
  apply sane_pbind; [by apply readN_sane|]. intros [keyHdr c1] _.
  destruct (_ <? le_Uint16 _); [done|]. pose proof (le_Uint16_range (drop 2 keyHdr)).
  apply sane_pbind; [apply readN_sane; [done|lia]|]. intros [nameBytes c2] _.
  destruct (xattrPrefixes _) as [prefix|]; [|done].
  apply sane_pbind; [apply readXattrValue_sane|]. intros [val c3] _.
  pose proof (zlen_nonneg (prefix ++ nameBytes)). pose proof (zlen_nonneg val).
  destruct (Z.ltb_spec (budget - 8 - (zlen (prefix ++ nameBytes) + zlen val)) 0); [done|].
  apply IH; lia.
Qed.

Lemma inodeXattrs_sane i : sane (uncached (inodeXattrs fs i)).
Proof using laws.
  unfold inodeXattrs. destruct (_ || _); [done|].
  apply sane_pbind; [apply readXattrTable_sane|]. intros t _.
  apply sane_pbind; [apply readXattrIDEntry_sane|]. intros e He.
  apply sane_pbind; [|done]. unfold readXattrPairs. destruct (inodeRef _) as [bo ib].
  apply sane_pbind; [by apply newMetaCursor_sane|]. intros c _.
  pose proof (readXattrIDEntry_count _ _ _ _ He).
  apply sane_pbind; [by rewrite uncached_make by lia|]. intros _ _.
  apply readXattrPairs_loop_sane; [|done].
  unfold xattrFuel. change (maxXattrBytes / 8 + 1) with 2097153. unfold maxXattrBytes. lia.
Qed.

(** What a list returns fits the budget. *)
Lemma readXattrPairs_loop_bytes t fuel i c budget out m :
  xattr_bytes out + budget <= maxXattrBytes -> 0 <= budget ->
  uncached (readXattrPairs_loop fs t fuel i c budget out) = Ok m -> xattr_bytes m <= maxXattrBytes.
Proof using.
  revert i c budget out. induction fuel as [|fuel IH]; intros i c budget out Ho Hb;
    cbn [readXattrPairs_loop]; (destruct (i <=? 0); [intros [= <-]; lia|]); [done|].
  destruct (Z.ltb_spec (budget - 8) 0); [done|].
  rewrite uncached_bind. destruct (uncached (readN _ _ _)) as [[keyHdr c1]|]; rstep; [|done].
  destruct (_ <? le_Uint16 _); [done|].
  rewrite uncached_bind. destruct (uncached (readN _ _ _)) as [[nameBytes c2]|]; rstep; [|done].
  destruct (xattrPrefixes _) as [prefix|]; [|done].
  rewrite uncached_bind. destruct (uncached (readXattrValue _ _ _ _)) as [[val c3]|]; rstep; [|done].
  destruct (Z.ltb_spec (budget - 8 - (zlen (prefix ++ nameBytes) + zlen val)) 0); [done|].
  apply IH; [|done]. pose proof (xattr_bytes_insert out (prefix ++ nameBytes) val). lia.
Qed.

Lemma inodeXattrs_bytes i m :
  uncached (inodeXattrs fs i) = Ok (Some m) -> xattr_bytes m <= maxXattrBytes.
Proof using.
  unfold inodeXattrs. destruct (_ || _); [done|].
  rewrite uncached_bind, uncached_lift. destruct (readXattrTable fs) as [t|]; rstep; [|done].
  rewrite uncached_bind. destruct (uncached (readXattrIDEntry _ _ _)) as [e|]; rstep; [|done].
  rewrite uncached_bind. unfold readXattrPairs. destruct (inodeRef _) as [bo ib].
  rewrite uncached_bind. destruct (uncached (newMetaCursor _ _ _)) as [c|]; rstep; [|done].
  rewrite uncached_bind. destruct (uncached (make _)); rstep; [|done].
  destruct (uncached (readXattrPairs_loop _ _ _ _ _ _ _)) as [m'|] eqn:E; rstep; [|done].
  intros [= <-]. eapply readXattrPairs_loop_bytes; [| |exact E]; [|done].
  unfold xattr_bytes. rewrite map_fold_empty. lia.
Qed.

End total.
