(* ===== verification/Data.v ===== *)
(** * Data blocks, fragments and whole-file reads (src/data.go)

    [readBlock] reads one data or fragment block through the data cache;
    [readFragmentEntry] looks a fragment up in its two-level table;
    [readFileLimit] assembles a file.  [FileContent] is the abstract account
    of what a regular inode holds, which both the whole-file read and
    ReadAt (OpenFile.v) refine. *)

From S2P Require Export Path.

(** safeio.MakeBytes(n, max) of github.com/go-volumes/safeio: the buffer, or
    [None] for an error. *)
Class SafeIO := { safeio_MakeBytes : Z -> Z -> option (list byte) }.

(** It allocates n bytes when 0 <= n <= max and refuses otherwise. *)
Class SafeIOLaws `{SafeIO} : Prop := {
  MakeBytes_some : forall n max, 0 <= n <= max ->
    exists b, safeio_MakeBytes n max = Some b /\ zlen b = n;
  MakeBytes_none : forall n max, ~ (0 <= n <= max) -> safeio_MakeBytes n max = None
}.

Definition dataUncompressedBit : Z := 2 ^ 24.

Definition blockOnDiskBytes (sz : Z) : Z := Z.ldiff sz dataUncompressedBit.

Definition blockOnDiskSize (sz : Z) : Z * bool :=
  (blockOnDiskBytes sz, Z.land sz dataUncompressedBit =? 0).

Definition checkExtent (fs : FS) (off n : Z) : result unit :=
  if (0 <? fs_size fs) && ((off <? 0) || (i64 (fs_size fs - n) <? off)) then Err ErrCorrupt else Ok tt.

(** The part of readBlock after a cache miss. *)
Definition fetchBlock `{CodecLib} (fs : FS) (off n : Z) (compressed : bool) : prog (list byte) :=
  _ ← make n;
  raw ← lift (ReadAt (fs_rs fs) off (Z.to_nat n));
  if negb compressed then mret raw
  else
    out ← decompress (fs_d fs) raw (sb_BlockSize (fs_sb fs));
    PutData off out (mret out).

Definition readBlock `{CodecLib} (fs : FS) (off sizeWord : Z) : prog (list byte) :=
  let '(n, compressed) := blockOnDiskSize sizeWord in
  if n =? 0 then mret []
  else if sb_BlockSize (fs_sb fs) <? n then throw ErrCorrupt
  else
    _ ← lift (checkExtent fs off n);
    if compressed then
      GetData off (fun hit =>
        match hit with
        | Some b => mret b
        | None => fetchBlock fs off n compressed
        end)
    else fetchBlock fs off n compressed.

Record fragmentEntry := mkFragmentEntry {
  fe_start : Z;     (* uint64 *)
  fe_sizeWord : Z   (* uint32 *)
}.

Definition fragEntrySize : Z := 16.
Definition fragPerMetaBlock : Z := 512.

Definition readFragmentEntry `{CodecLib} (fs : FS) (idx : Z) : prog fragmentEntry :=
  if sb_FragCount (fs_sb fs) <=? idx then throw ErrCorrupt
  else
    let blockIdx := idx / fragPerMetaBlock in
    let inBlock := idx mod fragPerMetaBlock in
    ptr ← lift (ReadAt (fs_rs fs) (i64 (i64 (sb_FragTableStart (fs_sb fs)) + blockIdx * 8)) 8);
    let metaOff := i64 (le_Uint64 ptr) in
    '(block, _) ← readMetaBlockCached fs metaOff;
    let o := inBlock * fragEntrySize in
    if zlen block <? o + fragEntrySize then throw ErrCorrupt
    else
      let rec := drop (Z.to_nat o) block in
      mret (mkFragmentEntry (le_Uint64 rec) (le_Uint32 (drop 8 rec))).

Definition readFragment `{CodecLib} (fs : FS) (idx : Z) : prog (list byte) :=
  fe ← readFragmentEntry fs idx;
  readBlock fs (i64 (fe_start fe)) (fe_sizeWord fe).

(** The loop that checks every stored block before anything is allocated. *)
Fixpoint checkBlocks (fs : FS) (blockSize cur : Z) (sizes : list Z) : result unit :=
  match sizes with
  | [] => Ok tt
  | sz :: sizes =>
      let n := blockOnDiskBytes sz in
      if n =? 0 then checkBlocks fs blockSize cur sizes
      else if blockSize <? n then Err ErrCorrupt
      else
        _ ← checkExtent fs cur n;
        checkBlocks fs blockSize (i64 (cur + n)) sizes
  end.

(** The loop that appends the blocks to [out]; returns what remains and the
    bytes so far. *)
Fixpoint readBlocks `{CodecLib} (fs : FS) (blockSize off remaining : Z) (sizes : list Z)
    (out : list byte) : prog (Z * list byte) :=
  match sizes with
  | [] => mret (remaining, out)
  | sz :: sizes =>
      let want := if remaining <? blockSize then remaining else blockSize in
      let n := blockOnDiskBytes sz in
      if n =? 0 then
        _ ← make want;
        readBlocks fs blockSize off (remaining - want) sizes (out ++ zeros (Z.to_nat want))
      else
        data ← readBlock fs off sz;
        if zlen data <? want then throw ErrCorrupt
        else
          d ← lift (slice data 0 want);
          readBlocks fs blockSize (i64 (off + n)) (remaining - want) sizes (out ++ d)
  end.

(** The tail-end fragment step. *)
Definition readTail `{CodecLib} (fs : FS) (i : inode) (remaining : Z) (out : list byte) :
  prog (list byte) :=
  if negb (in_fragIdx i =? invalidFrag) && (0 <? remaining) then
    frag ← readFragment fs (in_fragIdx i);
    let start := in_fragOffset i in
    let end_ := u64 (start + remaining) in
    if zlen frag <? end_ then throw ErrCorrupt
    else
      d ← lift (slice frag start end_);
      mret (out ++ d)
  else mret out.

(** The ceiling (len(blockSizes) + 1) * block_size, in uint64. *)
Definition maxBytes (fs : FS) (i : inode) : Z :=
  u64 (u64 (zlen (in_blockSizes i) + 1) * sb_BlockSize (fs_sb fs)).

Definition readFileLimit `{CodecLib} `{SafeIO} (fs : FS) (i : inode) (max : Z) : prog (list byte) :=
  let blockSize := sb_BlockSize (fs_sb fs) in
  let off := i64 (in_blocksStart i) in
  let maxBytes := maxBytes fs i in
  if maxBytes <? in_Size i then throw ErrCorrupt
  else if (0 <=? max) && (max <? in_Size i) then throw ErrTooLarge
  else
    _ ← lift (checkBlocks fs blockSize off (in_blockSizes i));
    match safeio_MakeBytes (i64 (in_Size i)) (i64 maxBytes) with
    | None => throw ErrCorrupt
    | Some hint =>
        _ ← make (zlen hint);
        '(remaining, out) ← readBlocks fs blockSize off (in_Size i) (in_blockSizes i) [];
        out ← readTail fs i remaining out;
        if negb (zlen out =? in_Size i) then throw ErrCorrupt else mret out
    end.

Definition DefaultMaxReadFile : Z := 2 ^ 30.

Definition readFile `{CodecLib} `{SafeIO} (fs : FS) (i : inode) : prog (list byte) :=
  readFileLimit fs i DefaultMaxReadFile.

(** ** Size words *)

(** The flag is bit 24 and the length is the word without it: below 2^24 the
    word is the length of a compressed block, and 2^24 more the length of a
    stored one. *)
Lemma blockOnDiskSize_compressed n : 0 <= n < 2 ^ 24 -> blockOnDiskSize n = (n, true).
Proof.
  intros Hn. unfold blockOnDiskSize, blockOnDiskBytes, dataUncompressedBit.
  assert (Z.testbit n 24 = false) as Hb by (by apply (testbit_high n 24)).
  rewrite ldiff_bit_clear by done. by rewrite land_bit, Hb.
Qed.

Lemma blockOnDiskSize_stored n :
  0 <= n < 2 ^ 24 -> blockOnDiskSize (Z.lor n dataUncompressedBit) = (n, false).
Proof.
  intros Hn. unfold blockOnDiskSize, blockOnDiskBytes, dataUncompressedBit.
  assert (Z.testbit n 24 = false) as Hb by (by apply (testbit_high n 24)).
  assert (Z.testbit (Z.lor n (2 ^ 24)) 24 = true) as Hb'.
  { by rewrite Z.lor_spec, Z.pow2_bits_true, orb_true_r. }
  rewrite land_bit, Hb' by done. cbn [negb]. f_equal.
  apply Z.bits_inj'. intros k Hk. rewrite Z.ldiff_spec, Z.lor_spec, Z.pow2_bits_eqb by done.
  destruct (Z.eqb_spec 24 k) as [<-|]; [by rewrite Hb|]. by rewrite orb_false_r, andb_true_r.
Qed.

Lemma blockOnDiskBytes_range sz : 0 <= sz < 2 ^ 32 -> 0 <= blockOnDiskBytes sz < 2 ^ 32.
Proof.
  intros Hsz. unfold blockOnDiskBytes, dataUncompressedBit.
  destruct (Z.testbit sz 24) eqn:E; [|by rewrite ldiff_bit_clear].
  rewrite ldiff_bit_set by done. split; [|lia].
  destruct (Z.lt_ge_cases sz (2 ^ 24)); [|lia].
  by rewrite (testbit_high sz 24) in E by lia.
Qed.

(** ** The data cache

    The cache is keyed by offset alone, while a size word names an offset and
    a length.  [W off n] says that compressed blocks at [off] are [n] bytes
    long; the cache is transparent for the calls whose size words agree on
    one length per offset, which is what [functional W] states. *)

Definition okData `{CodecLib} (W : Z -> Z -> Prop) (fs : FS) (off : Z) (b : list byte) : Prop :=
  exists n, W off n /\ uncached (fetchBlock fs off n true) = Ok b.

Definition functional (W : Z -> Z -> Prop) : Prop :=
  forall off n n', W off n -> W off n' -> n = n'.

(** The size word at [off] is one [W] knows about. *)
Definition agrees (W : Z -> Z -> Prop) (off sz : Z) : Prop :=
  forall n, blockOnDiskSize sz = (n, true) -> n <> 0 -> W off n.

Fixpoint agrees_list (W : Z -> Z -> Prop) (off : Z) (sizes : list Z) : Prop :=
  match sizes with
  | [] => True
  | sz :: sizes =>
      agrees W off sz /\
      agrees_list W (if blockOnDiskBytes sz =? 0 then off else i64 (off + blockOnDiskBytes sz)) sizes
  end.

Definition agrees_frag `{CodecLib} (W : Z -> Z -> Prop) (fs : FS) (i : inode) : Prop :=
  forall fe, in_fragIdx i <> invalidFrag -> uncached (readFragmentEntry fs (in_fragIdx i)) = Ok fe ->
  agrees W (i64 (fe_start fe)) (fe_sizeWord fe).

(** Every compressed block the file [i] refers to is one [W] knows about. *)
Definition agrees_file `{CodecLib} (W : Z -> Z -> Prop) (fs : FS) (i : inode) : Prop :=
  agrees_list W (i64 (in_blocksStart i)) (in_blockSizes i) /\ agrees_frag W fs i.

Lemma readFragmentEntry_transparent `{CodecLib} (fs : FS) okD (okA : Z -> Prop) idx :
  (forall n, 0 <= n <= metaBlockMax -> okA n) ->
  transparent (okMeta fs) okD okA (readFragmentEntry fs idx).
Proof.
  intros okA_meta. unfold readFragmentEntry. destruct (_ <=? _); [transp|].
  apply transparent_bind; [transp|]. intros ptr _.
  apply transparent_bind; [auto with transp|]. intros [block nx] _. transp.
Qed.

Section transparency.
Context `{CodecLib} `{SafeIO} (fs : FS) (wf : sb_wf (fs_sb fs)).
Context (W : Z -> Z -> Prop) (HW : functional W) (okA : Z -> Prop).
Context (okA_meta : forall n, 0 <= n <= metaBlockMax -> okA n).
Context (okA_block : forall n, 0 <= n <= sb_BlockSize (fs_sb fs) -> okA n).

#[local] Notation transparent := (transparent (okMeta fs) (okData W fs) okA).

Lemma fetchBlock_transparent off n compressed :
  (compressed = true -> W off n) -> 0 <= n <= sb_BlockSize (fs_sb fs) ->
  transparent (fetchBlock fs off n compressed).
Proof using okA_block wf.
  intros Hn Hr. unfold sb_wf in wf. unfold fetchBlock.
  destruct compressed; cbn [negb].
  2:{ apply transparent_bind; [apply transparent_make; [lia|auto]|]. transp. }
  assert (forall raw, uncached (make n) = Ok tt -> ReadAt (fs_rs fs) off (Z.to_nat n) = Ok raw ->
    forall out, uncached (decompress (fs_d fs) raw (sb_BlockSize (fs_sb fs))) = Ok out ->
    uncached (fetchBlock fs off n true) = Ok out) as Hfetch.
  { intros raw Hm Hraw out Hout. unfold fetchBlock. rewrite uncached_bind, Hm. rstep.
    rewrite uncached_bind, uncached_lift, Hraw. rstep. cbn [negb].
    by rewrite uncached_bind, Hout. }
  apply transparent_bind; [apply transparent_make; [lia|auto]|]. intros [] Hm.
  apply transparent_bind; [transp|]. intros raw Hraw.
  apply transparent_bind; [apply decompress_transparent; [lia|apply okA_block; lia]|].
  intros out Hout. cbn. split; [|done]. exists n. split; [auto|]. by apply (Hfetch raw).
Qed.

Lemma readBlock_transparent off sz :
  0 <= sz < 2 ^ 32 -> agrees W off sz -> transparent (readBlock fs off sz).
Proof using okA_block wf HW.
  intros Hsz Hag. pose proof (blockOnDiskBytes_range sz Hsz) as Hr. unfold readBlock.
  destruct (blockOnDiskSize sz) as [n compressed] eqn:E.
  assert (n = blockOnDiskBytes sz) as -> by (by unfold blockOnDiskSize in E; injection E as -> _).
  destruct (Z.eqb_spec (blockOnDiskBytes sz) 0) as [|Hne]; [transp|].
  destruct (Z.ltb_spec (sb_BlockSize (fs_sb fs)) (blockOnDiskBytes sz)); [transp|].
  apply transparent_bind; [transp|]. intros _ _.
  destruct compressed.
  2:{ apply fetchBlock_transparent; [done|lia]. }
  assert (W off (blockOnDiskBytes sz)) as HWn by (by apply Hag).
  unfold Prog.transparent. cbn [wp uncached]. intros [b|] Hb.
  - cbn. destruct (Hb b eq_refl) as (n & Hn & Hf).
    by rewrite (HW _ _ _ HWn Hn).
  - apply fetchBlock_transparent; [done|lia].
Qed.

Lemma readFragmentEntry_range idx fe :
  uncached (readFragmentEntry fs idx) = Ok fe ->
  0 <= fe_start fe < 2 ^ 64 /\ 0 <= fe_sizeWord fe < 2 ^ 32.
Proof using.
  unfold readFragmentEntry. destruct (_ <=? _); [done|]. rewrite uncached_bind, uncached_lift.
  destruct (ReadAt _ _ _) as [ptr|]; rstep; [|done].
  rewrite uncached_bind. destruct (uncached (readMetaBlockCached _ _)) as [[block nx]|]; rstep; [|done].
  destruct (_ <? _); [done|]. intros [= <-]. cbn [fe_start fe_sizeWord].
  split; [apply le_Uint64_range|apply le_Uint32_range].
Qed.

Lemma readFragment_transparent i :
  in_fragIdx i <> invalidFrag -> agrees_frag W fs i -> transparent (readFragment fs (in_fragIdx i)).
Proof using okA_block okA_meta wf HW.
  intros Hne Hag. apply transparent_bind; [by apply readFragmentEntry_transparent|]. intros fe Hfe.
  pose proof (readFragmentEntry_range _ _ Hfe). apply readBlock_transparent; [tauto|]. by apply Hag.
Qed.

Lemma readBlocks_transparent off remaining sizes out :
  0 <= remaining -> Forall (fun sz => 0 <= sz < 2 ^ 32) sizes -> agrees_list W off sizes ->
  transparent (readBlocks fs (sb_BlockSize (fs_sb fs)) off remaining sizes out).
Proof using okA_block wf HW.
  assert (0 <= sb_BlockSize (fs_sb fs)) as Hbs by (unfold sb_wf in wf; lia).
  revert off remaining out. induction sizes as [|sz sizes IH]; intros off remaining out Hr Hs;
    cbn [readBlocks agrees_list]; [transp|]. intros [Hag Hags]. apply Forall_cons in Hs as [Hsz Hs].
  set (want := if remaining <? sb_BlockSize (fs_sb fs) then remaining else sb_BlockSize (fs_sb fs)).
  assert (0 <= want <= sb_BlockSize (fs_sb fs) /\ want <= remaining) as Hw.
  { unfold want. destruct (Z.ltb_spec remaining (sb_BlockSize (fs_sb fs))); lia. }
  clearbody want. destruct (Z.eqb_spec (blockOnDiskBytes sz) 0).
  - apply transparent_bind; [apply transparent_make; [lia|apply okA_block; lia]|].
    intros _ _. apply IH; [lia|done|done].
  - apply transparent_bind; [by apply readBlock_transparent|]. intros data _.
    destruct (_ <? _); [transp|]. apply transparent_bind; [transp|]. intros d _.
    apply IH; [lia|done|done].
Qed.

Lemma readTail_transparent i remaining out :
  agrees_frag W fs i -> transparent (readTail fs i remaining out).
Proof using okA_block okA_meta wf HW.
  intros Hag. unfold readTail. destruct (Z.eqb_spec (in_fragIdx i) invalidFrag); rstep; [transp|].
  destruct (_ <? _); [|transp].
  apply transparent_bind; [by apply readFragment_transparent|]. intros frag _. transp.
Qed.

Lemma checkBlocks_sane bs cur sizes : sane (checkBlocks fs bs cur sizes).
Proof using.
  revert cur. induction sizes as [|sz sizes IH]; intros cur; cbn [checkBlocks]; [done|].
  destruct (_ =? 0); [done|]. destruct (_ <? _); [done|].
  apply sane_bind; [|done]. unfold checkExtent. by destruct (_ && _).
Qed.

Lemma readFileLimit_transparent `{!SafeIOLaws} i max :
  inode_wf i -> agrees_file W fs i -> okA (in_Size i) ->
  transparent (readFileLimit fs i max).
Proof using okA_block okA_meta wf HW.
  intros Hi [Hag Hfr] HokA. unfold readFileLimit.
  destruct (_ <? _); [transp|]. destruct (_ && _); [transp|].
  apply transparent_bind; [transp|]. intros _ _.
  destruct (safeio_MakeBytes _ _) as [hint|] eqn:Hh; [|transp].
  apply transparent_bind.
  { unfold inode_wf in Hi. apply transparent_make; [apply zlen_nonneg|].
    destruct (decide (0 <= i64 (in_Size i) <= i64 (maxBytes fs i))) as [Hd|Hd].
    - destruct (MakeBytes_some _ _ Hd) as (b & Hb & Hl). rewrite Hh in Hb. injection Hb as ->.
      rewrite Hl. replace (i64 (in_Size i)) with (in_Size i); [done|].
      unfold i64 in *. symmetry. destruct (Z.lt_ge_cases (in_Size i) (2 ^ 63)).
      + rewrite Z.mod_small; lia.
      + assert ((in_Size i + 2 ^ 63) mod 2 ^ 64 = in_Size i - 2 ^ 63); [|lia].
        symmetry. apply (Z.mod_unique _ _ 1); lia.
    - by rewrite MakeBytes_none in Hh. }
  intros _ _. destruct Hi as (Hsize & _ & _ & _ & Hsz & _).
  apply transparent_bind; [apply readBlocks_transparent; [lia|done|done]|].
  intros [remaining out] _.
  apply transparent_bind; [by apply readTail_transparent|]. transp.
Qed.

End transparency.

(** ** Safety on any image

    Without assuming that size words agree: the cache may answer with any
    block of at most block_size bytes. *)

Definition okBlock (fs : FS) (off : Z) (b : list byte) : Prop :=
  zlen b <= sb_BlockSize (fs_sb fs).

Section safety.
Context `{CodecLib} `{SafeIO} (fs : FS) (laws : CodecLaws) (wf : sb_wf (fs_sb fs)).
Context (okA : Z -> Prop).
Context (okA_meta : forall n, 0 <= n <= metaBlockMax -> okA n).
Context (okA_block : forall n, 0 <= n <= sb_BlockSize (fs_sb fs) -> okA n).

#[local] Notation wp := (wp (okMeta fs) (okBlock fs) okA).
#[local] Notation bs := (sb_BlockSize (fs_sb fs)).

(** A data block call: no panic, and never more than a block. *)
Definition block_post (r : result (list byte)) : Prop :=
  sane r /\ forall b, r = Ok b -> zlen b <= bs.

Lemma block_post_err e : sane (Err (A := list byte) e) -> block_post (Err e).
Proof using. by split. Qed.

Lemma fetchBlock_safe off n compressed :
  0 <= n <= bs -> wp (fetchBlock fs off n compressed) block_post.
Proof using okA_block laws wf.
  intros Hn. unfold sb_wf in wf. unfold fetchBlock.
  apply (wp_seq _ _ _ _ _ (fun r => r = Ok tt)); [by apply wp_make; [lia|auto|]| |done].
  intros [] _. apply wp_bind, wp_lift. pose proof (ReadAt_sane (fs_rs fs) off (Z.to_nat n)) as Hs.
  destruct (ReadAt (fs_rs fs) off (Z.to_nat n)) as [raw|e] eqn:E; [|by eapply block_post_err, sane_err].
  apply ReadAt_len in E. destruct compressed; cbn [negb].
  2:{ split; [done|]. intros b [= <-]. unfold zlen. lia. }
  assert (0 <= bs) by lia. assert (zlen raw < 2 ^ 63) by (unfold zlen; lia).
  apply wp_bind, transparent_wp; [apply decompress_transparent; [done|apply okA_block; lia]|].
  pose proof (decompress_sane (fs_d fs) raw bs laws) as Hd.
  destruct (uncached (decompress (fs_d fs) raw bs)) as [out|e] eqn:Eo.
  - apply decompress_length in Eo; [|done]. split; [done|]. split; [done|]. by intros b [= <-].
  - apply block_post_err. apply (sane_err (A := list byte)). auto.
Qed.

Lemma readBlock_safe off sz :
  0 <= sz < 2 ^ 32 -> wp (readBlock fs off sz) block_post.
Proof using okA_block laws wf.
  intros Hsz. pose proof (blockOnDiskBytes_range sz Hsz) as Hr. unfold readBlock.
  destruct (blockOnDiskSize sz) as [n compressed] eqn:E.
  assert (n = blockOnDiskBytes sz) as -> by (by unfold blockOnDiskSize in E; injection E as -> _).
  unfold sb_wf in wf.
  destruct (_ =? 0). { split; [done|]. intros b [= <-]. unfold zlen. cbn. lia. }
  destruct (Z.ltb_spec bs (blockOnDiskBytes sz)); [by split|].
  apply wp_bind, wp_lift. unfold checkExtent. destruct (_ && _); [by split|].
  destruct compressed; [|apply fetchBlock_safe; lia].
  cbn [Prog.wp]. intros [b|] Hb; [|apply fetchBlock_safe; lia].
  split; [done|]. intros ? [= <-]. by apply Hb.
Qed.

Lemma readFragmentEntry_sane idx : 0 <= idx -> sane (uncached (readFragmentEntry fs idx)).
Proof using laws.
  intros Hi. unfold readFragmentEntry. destruct (_ <=? _); [done|].
  apply sane_pbind; [apply ReadAt_sane|]. intros ptr _.
  apply sane_pbind; [rewrite uncached_readMetaBlockCached; by apply readMetaBlock_sane|].
  intros [block nx] _. by destruct (_ <? _).
Qed.

Lemma readFragment_safe idx : 0 <= idx -> wp (readFragment fs idx) block_post.
Proof using okA_block okA_meta laws wf.
  intros Hi. apply wp_bind, transparent_wp; [by apply readFragmentEntry_transparent|].
  pose proof (readFragmentEntry_sane idx Hi) as Hs.
  destruct (uncached (readFragmentEntry fs idx)) as [fe|e] eqn:E.
  - apply readBlock_safe. by eapply readFragmentEntry_range.
  - by eapply block_post_err, sane_err.
Qed.

(** The assembly loop accounts for every byte. *)
Lemma readBlocks_safe off remaining sizes out :
  0 <= remaining -> Forall (fun sz => 0 <= sz < 2 ^ 32) sizes ->
  wp (readBlocks fs bs off remaining sizes out)
    (fun r => sane r /\ forall rem' out', r = Ok (rem', out') ->
       0 <= rem' /\ zlen out' + rem' = zlen out + remaining).
Proof using okA_block laws wf.
  assert (0 <= bs) as Hbs by (unfold sb_wf in wf; lia).
  revert off remaining out. induction sizes as [|sz sizes IH]; intros off remaining out Hr Hs;
    cbn [readBlocks]. { split; [done|]. by intros ? ? [= <- <-]. }
  apply Forall_cons in Hs as [Hsz Hs].
  set (want := if remaining <? bs then remaining else bs).
  assert (0 <= want <= bs /\ want <= remaining) as Hw
    by (unfold want; destruct (Z.ltb_spec remaining bs); lia).
  clearbody want. destruct (_ =? 0).
  - apply (wp_seq _ _ _ _ _ (fun r => r = Ok tt)); [apply wp_make; [lia|apply okA_block; lia|done]| |done].
    intros [] _. eapply wp_mono; [|apply IH; [lia|done]].
    intros r [Hsr Hr']. split; [done|]. intros rem' out' Ho. apply Hr' in Ho.
    rewrite zlen_app in Ho. unfold zlen in *. rewrite length_zeros in Ho. lia.
  - apply (wp_seq _ _ _ _ _ block_post); [by apply readBlock_safe| |].
    2:{ intros e [He _]. split; [|done]. eauto using sane_err. }
    intros data _. destruct (Z.ltb_spec (zlen data) want); [done|].
    apply wp_bind, wp_lift. rewrite slice_ok by lia.
    eapply wp_mono; [|apply IH; [lia|done]].
    intros r [Hsr Hr']. split; [done|]. intros rem' out' Ho. apply Hr' in Ho.
    rewrite zlen_app in Ho. unfold zlen in *. cbn [drop] in Ho.
    rewrite length_take, drop_0 in Ho. lia.
Qed.

Lemma readTail_safe i remaining out :
  inode_wf i -> 0 <= remaining -> remaining < 2 ^ 63 ->
  wp (readTail fs i remaining out) sane.
Proof using okA_block okA_meta laws wf.
  intros (_ & Hidx & Hoff & _) Hr Hr'. unfold readTail. destruct (_ && _) eqn:E; [|done].
  apply andb_true_iff in E as [_ E%Z.ltb_lt].
  apply (wp_seq _ _ _ _ _ block_post); [apply readFragment_safe; lia| |].
  2:{ intros e [He _]. eauto using sane_err. }
  intros frag _. rewrite u64_small by lia.
  destruct (Z.ltb_spec (zlen frag) (in_fragOffset i + remaining)); [done|].
  apply wp_bind, wp_lift. by rewrite slice_ok by lia.
Qed.

Lemma maxBytes_bound i : inode_wf i -> 0 <= maxBytes fs i < 2 ^ 62.
Proof using wf.
  intros (_ & _ & _ & Hl & _). pose proof (zlen_nonneg (in_blockSizes i)). unfold sb_wf in wf.
  unfold maxBytes. assert (0 <= (zlen (in_blockSizes i) + 1) * bs <= (2 ^ 24 + 1) * 2 ^ 20) by nia.
  rewrite u64_small; rewrite u64_small; lia.
Qed.

(** The ceiling without its wraps, and which decoded files exceed it: only
    those whose block count wrapped (inode.go:102). *)
Lemma maxBytes_exact i : inode_wf i -> maxBytes fs i = (zlen (in_blockSizes i) + 1) * bs.
Proof using wf.
  intros (_ & _ & _ & Hl & _). pose proof (zlen_nonneg (in_blockSizes i)). unfold sb_wf in wf.
  unfold maxBytes. assert (0 <= (zlen (in_blockSizes i) + 1) * bs <= (2 ^ 24 + 1) * 2 ^ 20) by nia.
  rewrite u64_small; rewrite u64_small; lia.
Qed.

Definition size_wraps i : Prop := in_fragIdx i = invalidFrag /\ 2 ^ 64 - bs < in_Size i.

Lemma file_blocks i :
  inode_wf i -> inode_kind_ok fs i -> isRegular i = true ->
  let n := zlen (in_blockSizes i) in
  (in_fragIdx i <> invalidFrag -> n * bs <= in_Size i < (n + 1) * bs) /\
  (in_fragIdx i = invalidFrag -> (n - 1) * bs < in_Size i <= n * bs \/ size_wraps i /\ n = 0).
Proof using wf.
  intros (Hs & _ & _ & Hl & _) (_ & _ & Hb & _) Hr n. specialize (Hb Hr).
  apply blockCount_inv in Hb; [|done|unfold sb_wf in wf; lia|split; [apply zlen_nonneg|done]].
  unfold size_wraps. destruct (Z.eqb_spec (in_fragIdx i) invalidFrag) as [E|E]; cbn [negb] in Hb; [|done].
  split; [done|]. intros _. destruct Hb as [|[]]; [by left|by right].
Qed.

Lemma file_reach i :
  inode_wf i -> inode_kind_ok fs i -> isRegular i = true ->
  (size_wraps i -> maxBytes fs i < in_Size i) /\ (~ size_wraps i -> in_Size i <= maxBytes fs i).
Proof using wf.
  intros Hi Hk Hr. rewrite maxBytes_exact by done. pose proof (file_blocks i Hi Hk Hr) as [Hf Hn]. cbv zeta in *.
  pose proof (zlen_nonneg (in_blockSizes i)). pose proof wf as Hwf. unfold sb_wf in Hwf.
  destruct (Hi) as (_ & _ & _ & Hl & _). split.
  - intros [E Hw]. specialize (Hn E). assert ((zlen (in_blockSizes i) + 1) * bs <= (2 ^ 24 + 1) * 2 ^ 20) by nia. lia.
  - intros Hno. destruct (Z.eq_dec (in_fragIdx i) invalidFrag) as [E|E]; [|specialize (Hf E); lia].
    destruct (Hn E) as [|[]]; [lia|done].
Qed.

(** A whole-file read never panics, allocates nothing larger than a block or
    the file, and returns exactly the declared size, within the ceiling. *)
Lemma readFileLimit_safe `{!SafeIOLaws} i max :
  inode_wf i -> ((0 <= max -> in_Size i <= max) -> okA (in_Size i)) ->
  wp (readFileLimit fs i max)
    (fun r => sane r /\ forall out, r = Ok out ->
       zlen out = in_Size i /\ (0 <= max -> zlen out <= max)).
Proof using okA_block okA_meta laws wf.
  intros Hi HokA. pose proof (maxBytes_bound i Hi) as Hmb. destruct (Hi) as (Hsize & _ & _ & _ & Hsz & _).
  unfold readFileLimit. destruct (Z.ltb_spec (maxBytes fs i) (in_Size i)); [done|].
  destruct (_ && _) eqn:E; [done|].
  assert (0 <= max -> in_Size i <= max) as Hmax.
  { intros. apply andb_false_iff in E as [E%Z.leb_gt|E%Z.ltb_ge]; lia. }
  apply wp_bind, wp_lift. pose proof (checkBlocks_sane fs bs (i64 (in_blocksStart i)) (in_blockSizes i)) as Hcb.
  destruct (checkBlocks _ _ _ _) as [[]|e]; [|split; [eauto using sane_err|done]].
  rewrite !i64_small by lia.
  destruct (MakeBytes_some (in_Size i) (maxBytes fs i)) as (hint & -> & Hhint); [lia|].
  apply (wp_seq _ _ _ _ _ (fun r => r = Ok tt)).
  { apply wp_make; [apply zlen_nonneg|rewrite Hhint; auto|done]. } 2: done.
  intros [] _. eapply wp_seq; [apply readBlocks_safe; [lia|done]| |].
  2:{ intros e [He _]. split; [eauto using sane_err|done]. }
  intros [remaining out] [_ Hro]. destruct (Hro _ _ eq_refl) as [Hr0 Hr1].
  pose proof (zlen_nonneg out). unfold zlen in Hr1 at 2. cbn in Hr1.
  eapply wp_seq; [apply readTail_safe; [done|lia|lia]| |].
  2:{ intros e He. split; [eauto using sane_err|done]. }
  intros out' _. destruct (Z.eqb_spec (zlen out') (in_Size i)) as [Hl|]; [|done].
  split; [done|]. intros ? [= <-]. rewrite Hl. auto.
Qed.

End safety.
