(* ===== verification/FileContent.v ===== *)
(** * What a regular file contains

    The abstract specification of a file: its bytes, block by block and tail,
    as the inode's block list and fragment describe them.  The whole-file
    read of Data.v produces it ([readFileLimit_content]); the random-access
    read of OpenFile.v serves slices of it. *)

From S2P Require Export Data.

(** Where each block of a list starts: the running sum of the lengths. *)
Fixpoint offsetsFrom (off : Z) (sizes : list Z) : list Z :=
  match sizes with
  | [] => []
  | sz :: sizes => off :: offsetsFrom (i64 (off + blockOnDiskBytes sz)) sizes
  end.

(** The first [logical] bytes of the block stored at [off] under size word
    [sz] are [piece]: zeros for a sparse block. *)
Definition block_piece `{CodecLib} (fs : FS) (off sz logical : Z) (piece : list byte) : Prop :=
  if blockOnDiskBytes sz =? 0 then piece = zeros (Z.to_nat logical)
  else exists full,
    uncached (readBlock fs off sz) = Ok full /\ logical <= zlen full /\
    piece = take (Z.to_nat logical) full.

(** The bytes [data], [size] long in all, are held by the blocks [sizes] from
    offset [off] on, as far as the blocks reach. *)
Definition blocks_hold `{CodecLib} (fs : FS) (off size : Z) (sizes : list Z) (data : list byte) : Prop :=
  forall (k : nat) sz o,
    sizes !! k = Some sz -> offsetsFrom off sizes !! k = Some o ->
    Z.of_nat k * sb_BlockSize (fs_sb fs) < size ->
    let start := Z.of_nat k * sb_BlockSize (fs_sb fs) in
    let logical := Z.min (sb_BlockSize (fs_sb fs)) (size - start) in
    block_piece fs o sz logical (take (Z.to_nat logical) (drop (Z.to_nat start) data)).

(** What the blocks do not reach is in the tail fragment. *)
Definition tail_holds `{CodecLib} (fs : FS) (i : inode) (data : list byte) : Prop :=
  let tailStart := zlen (in_blockSizes i) * sb_BlockSize (fs_sb fs) in
  tailStart < in_Size i ->
  in_fragIdx i <> invalidFrag /\
  exists frag, uncached (readFragment fs (in_fragIdx i)) = Ok frag /\
    in_fragOffset i + (in_Size i - tailStart) <= zlen frag /\
    drop (Z.to_nat tailStart) data =
      take (Z.to_nat (in_Size i - tailStart)) (drop (Z.to_nat (in_fragOffset i)) frag).

Definition FileContent `{CodecLib} (fs : FS) (i : inode) (data : list byte) : Prop :=
  zlen data = in_Size i /\
  blocks_hold fs (i64 (in_blocksStart i)) (in_Size i) (in_blockSizes i) data /\
  tail_holds fs i data.

Section content.
Context `{CodecLib} `{SafeIO} (fs : FS) (wf : sb_wf (fs_sb fs)).

#[local] Notation bs := (sb_BlockSize (fs_sb fs)).

Lemma length_offsetsFrom off sizes : length (offsetsFrom off sizes) = length sizes.
Proof using. revert off. induction sizes as [|sz sizes IH]; intros off; cbn; [done|]. by rewrite IH. Qed.

Lemma zlen_offsetsFrom off sizes : zlen (offsetsFrom off sizes) = zlen sizes.
Proof using. unfold zlen. by rewrite length_offsetsFrom. Qed.

(** Skipping a whole first block of data. *)
Lemma blocks_hold_cons off size sz sizes d data :
  zlen d = Z.min bs size -> 0 <= size ->
  (0 < size -> block_piece fs off sz (Z.min bs size) d) ->
  blocks_hold fs (i64 (off + blockOnDiskBytes sz)) (size - Z.min bs size) sizes data ->
  blocks_hold fs off size (sz :: sizes) (d ++ data).
Proof using wf.
  assert (1 <= bs) as Hbs by (unfold sb_wf in wf; lia).
  intros Hd Hsize Hfirst Hrest k sz' o Hsz Ho Hk. unfold zlen in Hd.
  destruct k as [|k]; cbn in Hsz, Ho.
  - injection Hsz as <-. injection Ho as <-. cbn. rewrite !Z.sub_0_r, drop_0.
    rewrite take_app_length' by lia. apply Hfirst. lia.
  - assert (Z.min bs size = bs) as Hmin by lia. rewrite Hmin in *. cbn zeta.
    replace (size - Z.of_nat (S k) * bs) with (size - bs - Z.of_nat k * bs) by lia.
    replace (Z.to_nat (Z.of_nat (S k) * bs)) with (length d + Z.to_nat (Z.of_nat k * bs))%nat by lia.
    rewrite <- drop_drop, drop_app_length. apply Hrest; [done|done|lia].
Qed.

Lemma readBlocks_content off remaining sizes out rem' out' :
  - 2 ^ 63 <= off < 2 ^ 63 -> 0 <= remaining ->
  uncached (readBlocks fs bs off remaining sizes out) = Ok (rem', out') ->
  rem' = Z.max 0 (remaining - zlen sizes * bs) /\
  exists data, out' = out ++ data /\ zlen data = remaining - rem' /\
    blocks_hold fs off remaining sizes data.
Proof using wf.
  assert (1 <= bs) as Hbs by (unfold sb_wf in wf; lia).
  revert off remaining out. induction sizes as [|sz sizes IH]; intros off remaining out Hoff Hr;
    cbn [readBlocks].
  { intros [= <- <-]. split; [unfold zlen; cbn [length]; lia|]. exists []. rewrite app_nil_r.
    split_and!; [done|unfold zlen; cbn; lia|]. intros k ? ? Hk. by rewrite lookup_nil in Hk. }
  replace (if remaining <? bs then remaining else bs) with (Z.min bs remaining)
    by (destruct (Z.ltb_spec remaining bs); lia).
  set (want := Z.min bs remaining) in *.
  assert (zlen (sz :: sizes) = zlen sizes + 1) as -> by (unfold zlen; cbn; lia).
  pose proof (zlen_nonneg sizes).
  destruct (Z.eqb_spec (blockOnDiskBytes sz) 0) as [Hz|Hz].
  - rewrite uncached_bind, uncached_make by lia. rstep. intros Hrec.
    apply IH in Hrec as (-> & data & -> & Hl & Hh); [|done|lia].
    split; [unfold want in *; nia|]. exists (zeros (Z.to_nat want) ++ data).
    rewrite app_assoc. split_and!; [done| |].
    { rewrite zlen_app, Hl. unfold zlen at 1. rewrite length_zeros. lia. }
    apply blocks_hold_cons; [unfold zlen; rewrite length_zeros; lia|lia| |].
    + intros _. unfold block_piece. by rewrite Hz.
    + by rewrite Hz, Z.add_0_r, i64_small.
  - rewrite uncached_bind. destruct (uncached (readBlock fs off sz)) as [full|] eqn:Ef; rstep; [|done].
    destruct (Z.ltb_spec (zlen full) want); [done|].
    rewrite uncached_bind, uncached_lift, slice_ok by lia. rstep.
    rewrite Z.sub_0_r, drop_0. intros Hrec.
    apply IH in Hrec as (-> & data & -> & Hl & Hh); [|apply i64_range|lia].
    assert (zlen (take (Z.to_nat want) full) = want) as Htake.
    { unfold zlen in *. rewrite length_take. lia. }
    split; [unfold want in *; nia|]. exists (take (Z.to_nat want) full ++ data).
    rewrite app_assoc. split_and!; [done| |].
    { rewrite zlen_app, Hl, Htake. lia. }
    apply blocks_hold_cons; [done|lia| |done].
    intros _. unfold block_piece. destruct (Z.eqb_spec (blockOnDiskBytes sz) 0); [done|].
    exists full. done.
Qed.

(** A whole-file read fails on a size its block list cannot reach. *)
Lemma readFileLimit_reach i max out : uncached (readFileLimit fs i max) = Ok out -> in_Size i <= maxBytes fs i.
Proof using. unfold readFileLimit. by destruct (Z.ltb_spec (maxBytes fs i) (in_Size i)). Qed.

(** A whole-file read that succeeds returns the content. *)
Lemma readFileLimit_content `{!SafeIOLaws} i max out :
  inode_wf i -> uncached (readFileLimit fs i max) = Ok out -> FileContent fs i out.
Proof using wf.
  intros Hi. destruct (Hi) as (Hsize & Hidx & Hfoff & Hlen & Hsz & _).
  assert (1 <= bs <= 2 ^ 20) as Hbs by (unfold sb_wf in wf; lia).
  unfold readFileLimit. destruct (Z.ltb_spec (maxBytes fs i) (in_Size i)) as [|Hmb]; [done|].
  destruct (_ && _); [done|]. rewrite uncached_bind.
  destruct (uncached (lift (checkBlocks _ _ _ _))); rstep; [|done].
  destruct (safeio_MakeBytes _ _); [|done]. rewrite uncached_bind, uncached_make by apply zlen_nonneg.
  rstep. rewrite uncached_bind.
  destruct (uncached (readBlocks _ _ _ _ _ _)) as [[rem data]|] eqn:Eb; rstep; [|done].
  apply readBlocks_content in Eb as (-> & data' & -> & Hl & Hh); [|apply i64_range|lia].
  rewrite app_nil_l. rewrite uncached_bind.
  destruct (uncached (readTail fs i _ data')) as [data|] eqn:Et; rstep; [|done].
  destruct (Z.eqb_spec (zlen data) (in_Size i)) as [Hd|]; [|done]. cbn [negb]. intros [= <-].
  pose proof (zlen_nonneg (in_blockSizes i)).
  revert Et. unfold readTail. set (tailStart := zlen (in_blockSizes i) * bs) in *.
  assert (0 <= tailStart) by (unfold tailStart; nia).
  destruct (negb (in_fragIdx i =? invalidFrag) && (0 <? Z.max 0 (in_Size i - tailStart))) eqn:Ecase.
  - apply andb_true_iff in Ecase as [Hfr%negb_true_iff%Z.eqb_neq Hrem%Z.ltb_lt].
    rewrite uncached_bind. destruct (uncached (readFragment fs _)) as [frag|] eqn:Ef; rstep; [|done].
    assert (0 <= tailStart <= (2 ^ 24) * 2 ^ 20) by (unfold tailStart; nia).
    assert (in_Size i < 2 ^ 62) by (pose proof (maxBytes_bound fs wf i Hi); lia).
    rewrite u64_small by lia.
    destruct (Z.ltb_spec (zlen frag) (in_fragOffset i + Z.max 0 (in_Size i - tailStart))); [done|].
    rewrite uncached_bind, uncached_lift, slice_ok by lia. rstep. intros [= <-].
    replace (in_fragOffset i + Z.max 0 (in_Size i - tailStart) - in_fragOffset i)
      with (in_Size i - tailStart) in * by lia.
    assert (zlen data' = tailStart) as Hdl by lia.
    split_and!; [done| |].
    + intros k sz o Hk Ho Hlt.
      assert (Z.of_nat k < zlen (in_blockSizes i)) as Hkl by (apply lookup_lt_Some in Hk; unfold zlen; lia).
      assert (Z.of_nat k * bs + bs <= tailStart) by (unfold tailStart; nia).
      pose proof (Hh k sz o Hk Ho Hlt) as Hp. cbn zeta in *.
      rewrite drop_app_le by (unfold zlen in Hdl; lia).
      rewrite take_app_le; [done|]. rewrite length_drop. unfold zlen in Hdl. lia.
    + intros _. split; [done|]. exists frag. split_and!; [done|lia|].
      by rewrite drop_app_length' by (unfold zlen in Hdl; lia).
  - intros [= <-]. split_and!; [done|done|]. intros Hlt. exfalso.
    apply andb_false_iff in Ecase as [Hc%negb_false_iff%Z.eqb_eq|Hc%Z.ltb_ge]; [|lia].
    unfold tailStart in *. lia.
Qed.

End content.
