(* ===== verification/OpenFile.v ===== *)
(** * Random access (src/openfile.go)

    [newFile] builds the block map of an open file, [squashfsFile_ReadAt]
    serves a range of it.  ReadAt returns a count together with an error, so
    its outcome here is the bytes delivered and the error, if any. *)

From S2P Require Export FileContent.

Record squashfsFile := mkFile {
  f_fs : FS;
  f_blockOffsets : list Z;   (* int64 each *)
  f_blockWords : list Z;     (* uint32 each *)
  f_fragIdx : Z;             (* uint32 *)
  f_fragOffset : Z;          (* uint32 *)
  f_size : Z;                (* int64 *)
  f_blockSize : Z;           (* int64 *)
  f_closed : bool
}.

Definition newFile (fs : FS) (i : inode) : prog squashfsFile :=
  let blockSize := sb_BlockSize (fs_sb fs) in
  let maxBytes := maxBytes fs i in
  if maxBytes <? in_Size i then throw ErrCorrupt
  else
    _ ← make (zlen (in_blockSizes i));
    _ ← make (zlen (in_blockSizes i));
    mret {|
      f_fs := fs;
      f_blockOffsets := offsetsFrom (i64 (in_blocksStart i)) (in_blockSizes i);
      f_blockWords := in_blockSizes i;
      f_fragIdx := in_fragIdx i;
      f_fragOffset := in_fragOffset i;
      f_size := i64 (in_Size i);
      f_blockSize := i64 blockSize;
      f_closed := false
    |}.

Definition FS_OpenFile `{CodecLib} (fs : FS) (path : list byte) : prog squashfsFile :=
  i ← resolve fs path true;
  if negb (isRegular i) then throw ErrNotRegular else newFile fs i.

Definition squashfsFile_Size (f : squashfsFile) : Z := f_size f.

(** Close only marks the file. *)
Definition squashfsFile_Close (f : squashfsFile) : squashfsFile :=
  mkFile (f_fs f) (f_blockOffsets f) (f_blockWords f) (f_fragIdx f) (f_fragOffset f)
    (f_size f) (f_blockSize f) true.

(** readFragmentInto for a destination of [want] bytes: the bytes copied. *)
Definition readFragmentInto `{CodecLib} (f : squashfsFile) (want cur : Z) : prog (list byte) :=
  if f_fragIdx f =? invalidFrag then throw ErrCorrupt
  else
    frag ← readFragment (f_fs f) (f_fragIdx f);
    let tailStart := i64 (zlen (f_blockOffsets f) * f_blockSize f) in
    let start := i64 (f_fragOffset f + i64 (cur - tailStart)) in
    let end_ := i64 (f_fragOffset f + i64 (f_size f - tailStart)) in
    if (start <? 0) || (zlen frag <? end_) then throw ErrCorrupt
    else
      src ← lift (slice frag start (zlen frag));
      mret (take (Z.to_nat want) src).

(** s[i], which panics out of range. *)
Definition index {A} (s : list A) (i : Z) : result A :=
  if (0 <=? i) && (i <? zlen s)
  then match s !! Z.to_nat i with Some a => Ok a | None => Err Panic end
  else Err Panic.

(** The loop of ReadAt for a buffer of [plen] bytes; [acc] are the bytes
    copied so far.  Every iteration copies at least one byte. *)
Fixpoint ReadAt_loop `{CodecLib} (f : squashfsFile) (fuel : nat) (plen off : Z) (acc : list byte) :
  prog (list byte * option err) :=
  if plen <=? zlen acc then mret (acc, None)
  else
    let cur := i64 (off + zlen acc) in
    if f_size f <=? cur then mret (acc, Some ErrEOF)
    else
      match fuel with
      | O => throw OutOfFuel
      | S fuel =>
          let want := Z.min (plen - zlen acc) (f_size f - cur) in
          idx ← lift (udiv cur (f_blockSize f));
          let within := cur mod f_blockSize f in
          if zlen (f_blockOffsets f) <=? idx then
            r ← attempt (readFragmentInto f want cur);
            match r with
            | Ok m => ReadAt_loop f fuel plen off (acc ++ m)
            | Err e => mret (acc, Some e)
            end
          else
            let want := Z.min want (f_blockSize f - within) in
            let logical := Z.min (f_blockSize f) (f_size f - idx * f_blockSize f) in
            word ← lift (index (f_blockWords f) idx);
            if blockOnDiskBytes word =? 0 then
              ReadAt_loop f fuel plen off (acc ++ zeros (Z.to_nat want))
            else
              boff ← lift (index (f_blockOffsets f) idx);
              r ← attempt (readBlock (f_fs f) boff word);
              match r with
              | Err e => mret (acc, Some e)
              | Ok data =>
                  if zlen data <? logical then mret (acc, Some ErrCorrupt)
                  else
                    src ← lift (slice data within (zlen data));
                    ReadAt_loop f fuel plen off (acc ++ take (Z.to_nat want) src)
              end
      end.

Definition squashfsFile_ReadAt `{CodecLib} (f : squashfsFile) (plen off : Z) :
  prog (list byte * option err) :=
  if f_closed f then mret ([], Some ErrClosed)
  else if off <? 0 then mret ([], Some ErrNegativeOffset)
  else if f_size f <=? off then mret ([], Some ErrEOF)
  else ReadAt_loop f (Z.to_nat plen) plen off [].

(** ** Open files *)

(** What newFile establishes about the file it returns for [i]. *)
Definition file_of (fs : FS) (i : inode) (f : squashfsFile) : Prop :=
  f_fs f = fs /\ f_blockOffsets f = offsetsFrom (i64 (in_blocksStart i)) (in_blockSizes i) /\
  f_blockWords f = in_blockSizes i /\ f_fragIdx f = in_fragIdx i /\
  f_fragOffset f = in_fragOffset i /\ f_size f = in_Size i /\
  f_blockSize f = sb_BlockSize (fs_sb fs) /\ f_closed f = false /\
  in_Size i <= maxBytes fs i.

(** The io.ReaderAt contract for a source holding [data]. *)
Definition readAt_spec (data : list byte) (plen off : Z) : list byte * option err :=
  let got := take (Z.to_nat plen) (drop (Z.to_nat off) data) in
  if zlen data <=? off then ([], Some ErrEOF)
  else (got, if zlen got <? plen then Some ErrEOF else None).

Lemma index_lookup {A} (s : list A) i a :
  0 <= i -> s !! Z.to_nat i = Some a -> index s i = Ok a.
Proof.
  intros Hi Ha. unfold index. pose proof (lookup_lt_Some _ _ _ Ha). rewrite Ha.
  destruct (Z.leb_spec 0 i); [|lia]. destruct (Z.ltb_spec i (zlen s)); [done|].
  unfold zlen in *. lia.
Qed.

Lemma index_sane {A} (s : list A) i : 0 <= i < zlen s -> exists a, index s i = Ok a /\ s !! Z.to_nat i = Some a.
Proof.
  intros Hi. destruct (lookup_lt_is_Some_2 s (Z.to_nat i)) as [a Ha]; [unfold zlen in Hi; lia|].
  exists a. split; [|done]. apply index_lookup; [lia|done].
Qed.

Section openfile.
Context `{CodecLib} (fs : FS) (wf : sb_wf (fs_sb fs)).

#[local] Notation bs := (sb_BlockSize (fs_sb fs)).

Lemma newFile_ok i f : inode_wf i -> uncached (newFile fs i) = Ok f -> file_of fs i f.
Proof using wf.
  intros Hi. pose proof (maxBytes_bound fs wf i Hi). assert (1 <= bs <= 2 ^ 20) by (unfold sb_wf in wf; lia).
  destruct Hi as (Hsize & _). unfold newFile.
  destruct (Z.ltb_spec (maxBytes fs i) (in_Size i)); [done|].
  do 2 (rewrite uncached_bind, uncached_make by apply zlen_nonneg; rstep).
  rewrite (i64_small (in_Size i)), (i64_small bs) by lia. intros [= <-]. by split_and!.
Qed.

Lemma newFile_total i :
  inode_wf i -> in_Size i <= maxBytes fs i -> exists f, uncached (newFile fs i) = Ok f /\ file_of fs i f.
Proof using wf.
  intros Hi Hs. destruct (uncached (newFile fs i)) as [f|e] eqn:E.
  { exists f. split; [done|]. by apply newFile_ok. }
  revert E. unfold newFile. destruct (Z.ltb_spec (maxBytes fs i) (in_Size i)); [lia|].
  by do 2 (rewrite uncached_bind, uncached_make by apply zlen_nonneg; rstep).
Qed.

(** The bytes of [data] from position [cur] on that one iteration delivers. *)
Section iteration.
Context (i : inode) (f : squashfsFile) (data : list byte).
Context (Hi : inode_wf i) (Hf : file_of fs i f) (Hc : FileContent fs i data).

Lemma file_bounds : 1 <= bs <= 2 ^ 20 /\ 0 <= in_Size i < 2 ^ 62 /\
  0 <= zlen (in_blockSizes i) <= 2 ^ 24.
Proof using Hi Hf wf.
  pose proof (maxBytes_bound fs wf i Hi). destruct Hi as (? & _ & _ & ? & _).
  destruct Hf as (_ & _ & _ & _ & _ & _ & _ & _ & ?). unfold sb_wf in wf.
  pose proof (zlen_nonneg (in_blockSizes i)). lia.
Qed.

Lemma fragment_iteration want cur :
  zlen (in_blockSizes i) * bs <= cur < in_Size i -> 0 <= want <= in_Size i - cur ->
  uncached (readFragmentInto f want cur) =
    Ok (take (Z.to_nat want) (drop (Z.to_nat cur) data)).
Proof using Hi Hf Hc wf.
  intros Hcur Hw. pose proof file_bounds as (Hbs & Hsize & Hlen).
  destruct Hc as (Hdl & _ & Ht). destruct Hi as (_ & _ & Hfo & _).
  destruct Ht as (Hne & frag & Hfrag & Hend & Htail); [lia|].
  unfold readFragmentInto. destruct Hf as (Hff & Ho & _ & Hfi & Hfof & Hfs & Hfb & _).
  rewrite Hff, Hfi, Hfof, Hfb, Hfs, Ho.
  destruct (Z.eqb_spec (in_fragIdx i) invalidFrag); [done|].
  rewrite uncached_bind, Hfrag. rstep.
  rewrite zlen_offsetsFrom. set (ts := zlen (in_blockSizes i) * bs) in *. assert (0 <= ts <= 2 ^ 44) by (unfold ts; nia).
  rewrite (i64_small ts), (i64_small (cur - ts)), (i64_small (in_Size i - ts)) by lia.
  rewrite (i64_small (in_fragOffset i + (cur - ts))), (i64_small (in_fragOffset i + (in_Size i - ts))) by lia.
  destruct (Z.ltb_spec (in_fragOffset i + (cur - ts)) 0); [lia|].
  destruct (Z.ltb_spec (zlen frag) (in_fragOffset i + (in_Size i - ts))); [lia|]. cbn [orb].
  rewrite uncached_bind, uncached_lift, slice_ok by lia. rstep.
  cbn [uncached mret prog_ret]. f_equal.
  rewrite (take_ge (drop _ frag)) by (rewrite length_drop; unfold zlen; lia).
  replace (Z.to_nat cur) with (Z.to_nat ts + Z.to_nat (cur - ts))%nat by lia.
  rewrite <- drop_drop, Htail.
  rewrite take_drop_take by lia. rewrite drop_drop. do 2 f_equal. lia.
Qed.

(** An iteration inside block [k] of the list, for a stored block. *)
Lemma block_iteration k sz o want within :
  in_blockSizes i !! k = Some sz ->
  offsetsFrom (i64 (in_blocksStart i)) (in_blockSizes i) !! k = Some o ->
  let start := Z.of_nat k * bs in
  let logical := Z.min bs (in_Size i - start) in
  0 <= within -> 0 <= want -> within + want <= logical -> 0 < logical ->
  (blockOnDiskBytes sz = 0 ->
   zeros (Z.to_nat want) = take (Z.to_nat want) (drop (Z.to_nat (start + within)) data)) /\
  (blockOnDiskBytes sz <> 0 ->
   exists full, uncached (readBlock fs o sz) = Ok full /\ logical <= zlen full /\
   take (Z.to_nat want) (drop (Z.to_nat within) full) =
     take (Z.to_nat want) (drop (Z.to_nat (start + within)) data)).
Proof using Hi Hf Hc wf.
  intros Hk Ho. cbn zeta. intros Hw0 Hw1 Hw2 Hl.
  pose proof file_bounds as (Hbs & _). destruct Hc as (_ & Hh & _).
  pose proof (Hh k sz o Hk Ho ltac:(lia)) as Hp. cbn zeta in Hp.
  replace (Z.to_nat (Z.of_nat k * bs + within)) with (Z.to_nat (Z.of_nat k * bs) + Z.to_nat within)%nat by lia.
  rewrite <- drop_drop.
  set (logical := Z.min bs (in_Size i - Z.of_nat k * bs)) in *.
  rewrite <- (take_drop_take _ (Z.to_nat within) (Z.to_nat want) (Z.to_nat logical)) by lia.
  unfold block_piece in Hp. split; intros Hz.
  - rewrite Hz in Hp. cbn in Hp. rewrite Hp. by rewrite drop_take_zeros by lia.
  - destruct (Z.eqb_spec (blockOnDiskBytes sz) 0); [done|].
    destruct Hp as (full & Hr & Hlf & ->). exists full. split_and!; [done|done|].
    by rewrite take_drop_take by lia.
Qed.

(** The window of the content an iteration at [cur] copies. *)
#[local] Notation window cur want := (take (Z.to_nat want) (drop (Z.to_nat cur) data)).

(** One iteration: as long as bytes are wanted and there are any, the loop
    goes on with at least one byte more of the content. *)
Lemma ReadAt_step fuel plen off acc :
  0 <= off -> zlen acc < plen -> off + zlen acc < in_Size i ->
  exists want, 1 <= want <= Z.min (plen - zlen acc) (in_Size i - (off + zlen acc)) /\
    uncached (ReadAt_loop f (S fuel) plen off acc) =
    uncached (ReadAt_loop f fuel plen off (acc ++ window (off + zlen acc) want)).
Proof using Hi Hf Hc wf.
  intros Hoff Hacc Hin. pose proof file_bounds as (Hbs & Hsize & Hlen). pose proof (zlen_nonneg acc).
  destruct Hf as (Hff & Hfo & Hfw & _ & _ & Hfs & Hfb & _).
  cbn [ReadAt_loop]. rewrite Hfs, Hfb, (i64_small (off + zlen acc)) by lia. set (cur := off + zlen acc) in *.
  destruct (Z.leb_spec plen (zlen acc)); [lia|]. destruct (Z.leb_spec (in_Size i) cur); [lia|].
  unfold udiv. destruct (Z.eqb_spec bs 0); [lia|]. rewrite uncached_bind, uncached_lift. rstep.
  pose proof (Z.div_mod cur bs ltac:(lia)) as Hdm. pose proof (Z.mod_pos_bound cur bs ltac:(lia)).
  assert (0 <= cur / bs) by (apply Z.div_pos; lia). set (idx := cur / bs) in *. set (within := cur mod bs) in *.
  rewrite Hfo, zlen_offsetsFrom. destruct (Z.leb_spec (zlen (in_blockSizes i)) idx) as [Htail|Hblock].
  { exists (Z.min (plen - zlen acc) (in_Size i - cur)). split; [lia|].
    rewrite uncached_bind, uncached_attempt, fragment_iteration by nia. done. }
  exists (Z.min (Z.min (plen - zlen acc) (in_Size i - cur)) (bs - within)). split; [lia|].
  set (want := Z.min (Z.min (plen - zlen acc) (in_Size i - cur)) (bs - within)).
  rewrite Hfw. destruct (index_sane (in_blockSizes i) idx) as (sz & -> & Hsz); [lia|].
  rewrite uncached_bind, uncached_lift. rstep.
  destruct (index_sane (offsetsFrom (i64 (in_blocksStart i)) (in_blockSizes i)) idx) as (o & Hio & Ho).
  { rewrite zlen_offsetsFrom. lia. }
  replace (idx * bs) with (Z.of_nat (Z.to_nat idx) * bs) by lia.
  destruct (block_iteration (Z.to_nat idx) sz o want within) as [Hsp Hst]; try done; try lia.
  replace (Z.of_nat (Z.to_nat idx) * bs + within) with cur in * by lia.
  destruct (Z.eqb_spec (blockOnDiskBytes sz) 0) as [Hz|Hz]; [by rewrite <- Hsp|].
  destruct (Hst Hz) as (full & Hr & Hlf & <-). rewrite uncached_bind, uncached_lift, Hio. rstep.
  rewrite uncached_bind, uncached_attempt, Hff, Hr. cbn [observe]. rstep.
  destruct (Z.ltb_spec (zlen full) (Z.min bs (in_Size i - Z.of_nat (Z.to_nat idx) * bs))); [lia|].
  rewrite uncached_bind, uncached_lift, slice_ok by lia. rstep.
  by rewrite (take_ge (drop _ full)) by (rewrite length_drop; unfold zlen; lia).
Qed.

(** What is copied so far is a window; an iteration extends it. *)
Lemma window_extend off acc want :
  0 <= off -> acc = window off (zlen acc) -> 0 <= want -> off + zlen acc + want <= zlen data ->
  let acc' := acc ++ window (off + zlen acc) want in
  acc' = window off (zlen acc') /\ zlen acc' = zlen acc + want.
Proof using.
  intros Hoff Hacc Hw Hin acc'. pose proof (zlen_nonneg acc).
  assert (zlen acc' = zlen acc + want) as Hl.
  { unfold acc'. rewrite zlen_app, zlen_take, zlen_drop by lia. lia. }
  split; [|done]. rewrite Hl. unfold acc'. rewrite Hacc at 1.
  rewrite !Z2Nat.inj_add, <- drop_drop by lia. apply take_take_drop.
Qed.

(** The loop from what is copied so far, given an iteration per byte that
    is still to come. *)
Lemma ReadAt_loop_spec fuel plen off acc :
  0 <= off -> zlen acc <= plen -> plen <= zlen acc + Z.of_nat fuel -> off + zlen acc <= in_Size i ->
  acc = window off (zlen acc) ->
  uncached (ReadAt_loop f fuel plen off acc) =
    Ok (let got := window off plen in (got, if zlen got <? plen then Some ErrEOF else None)).
Proof using Hi Hf Hc wf.
  intros Hoff. assert (zlen data = in_Size i) as Hdl by apply Hc. pose proof file_bounds as (_ & Hsize & _).
  revert acc. induction fuel as [|fuel IH]; intros acc Hacc Hfuel Hin Heq.
  all: destruct (decide (zlen acc = plen)) as [<-|Hne].
  1,3: cbn [ReadAt_loop]; by rewrite Z.leb_refl, <- Heq, Z.ltb_irrefl.
  { lia. }
  destruct (decide (off + zlen acc = in_Size i)) as [Hend|Hmore].
  - cbn [ReadAt_loop]. destruct Hf as (_ & _ & _ & _ & _ & -> & _). pose proof (zlen_nonneg acc).
    rewrite i64_small, Hend, Z.leb_refl by lia. destruct (Z.leb_spec plen (zlen acc)); [lia|].
    assert (window off plen = acc) as ->.
    { rewrite Heq at 1. unfold zlen in *. by rewrite !take_ge by (rewrite length_drop; lia). }
    by destruct (Z.ltb_spec (zlen acc) plen); [|lia].
  - destruct (ReadAt_step fuel plen off acc) as (want & Hw & ->); [lia..|].
    destruct (window_extend off acc want) as [Heq' Hl']; [lia|done|lia|lia|]. apply IH; lia || done.
Qed.

(** Random access serves the content exactly as io.ReaderAt asks. *)
Lemma ReadAt_content plen off :
  0 <= plen -> 0 <= off -> uncached (squashfsFile_ReadAt f plen off) = Ok (readAt_spec data plen off).
Proof using Hi Hf Hc wf.
  intros Hp Hoff. assert (zlen data = in_Size i) as Hdl by apply Hc.
  assert (f_size f = in_Size i /\ f_closed f = false) as [Hs Hcl] by (split; apply Hf).
  unfold squashfsFile_ReadAt, readAt_spec. rewrite Hs, Hcl, Hdl.
  destruct (Z.ltb_spec off 0); [lia|]. destruct (Z.leb_spec (in_Size i) off); [done|].
  by apply ReadAt_loop_spec; unfold zlen; cbn; try lia.
Qed.

End iteration.

End openfile.

(** ** Safety and transparency on any image *)

(** ReadAt's contract, whatever the image holds: it returns, without a panic,
    at most the bytes asked for, and fewer only with an error. *)
Definition readAt_post (plen : Z) (r : result (list byte * option err)) : Prop :=
  sane r /\ forall b e, r = Ok (b, e) -> zlen b <= plen /\ (e = None -> zlen b = plen).

Section safety.
Context `{CodecLib} (fs : FS) (laws : CodecLaws) (wf : sb_wf (fs_sb fs)).
Context (okA : Z -> Prop).
Context (okA_meta : forall n, 0 <= n <= metaBlockMax -> okA n).
Context (okA_block : forall n, 0 <= n <= sb_BlockSize (fs_sb fs) -> okA n).
Context (i : inode) (f : squashfsFile) (Hi : inode_wf i) (Hf : file_of fs i f).

#[local] Notation wp := (wp (okMeta fs) (okBlock fs) okA).
#[local] Notation bs := (sb_BlockSize (fs_sb fs)).

(** Between 1 and [want] bytes from the tail fragment. *)
Lemma readFragmentInto_safe want cur :
  zlen (in_blockSizes i) * bs <= cur < in_Size i -> 1 <= want ->
  wp (readFragmentInto f want cur)
    (fun r => sane r /\ forall m, r = Ok m -> 1 <= zlen m <= want).
Proof using okA_block okA_meta laws wf Hi Hf.
  intros Hcur Hw. pose proof (file_bounds fs wf i f Hi Hf) as (Hbs & Hsize & Hlen).
  destruct Hf as (Hff & Ho & _ & Hfi & Hfof & Hfs & Hfb & _). destruct Hi as (_ & Hidx & Hfo & _).
  unfold readFragmentInto. rewrite Hff, Hfi, Hfof, Hfb, Hfs, Ho. destruct (_ =? _); [by split|].
  eapply wp_seq; [apply readFragment_safe; [done|done|done|done|lia]| |].
  2:{ intros e [He _]. split; [eauto using sane_err|done]. }
  intros frag _. rewrite zlen_offsetsFrom. set (ts := zlen (in_blockSizes i) * bs) in *. assert (0 <= ts <= 2 ^ 44) by (unfold ts; nia).
  rewrite (i64_small ts), (i64_small (cur - ts)), (i64_small (in_Size i - ts)) by lia.
  rewrite (i64_small (in_fragOffset i + (cur - ts))), (i64_small (in_fragOffset i + (in_Size i - ts))) by lia.
  destruct (Z.ltb_spec (in_fragOffset i + (cur - ts)) 0); [by split|]. cbn [orb].
  destruct (Z.ltb_spec (zlen frag) (in_fragOffset i + (in_Size i - ts))); [by split|].
  apply wp_bind, wp_lift. rewrite slice_ok by lia. split; [done|]. intros m [= <-].
  unfold zlen in *. rewrite !length_take, length_drop. lia.
Qed.

Lemma ReadAt_loop_safe fuel plen off acc :
  0 <= off -> zlen acc <= plen -> plen <= zlen acc + Z.of_nat fuel -> off + zlen acc < 2 ^ 63 ->
  wp (ReadAt_loop f fuel plen off acc) (readAt_post plen).
Proof using okA_block okA_meta laws wf Hi Hf.
  pose proof (file_bounds fs wf i f Hi Hf) as (Hbs & Hsize & Hlen).
  pose proof Hf as (Hff & Hfo & Hfw & _ & _ & Hfs & Hfb & _).
  pose proof Hi as (_ & _ & _ & _ & Hszs & _).
  assert (forall e b, zlen b <= plen -> readAt_post plen (Ok (b, Some e))) as Hstop.
  { intros e b Hb. split; [done|]. intros ? ? [= <- <-]. done. }
  revert acc. induction fuel as [|fuel IH]; intros acc Hoff Hacc Hfuel Hov;
    cbn [ReadAt_loop]; pose proof (zlen_nonneg acc).
  all: destruct (Z.leb_spec plen (zlen acc)) as [Hd|Hd];
    [split; [done|]; intros ? ? [= <- <-]; lia|].
  { lia. }
  rewrite Hfs, Hfb, (i64_small (off + zlen acc)) by lia.
  destruct (Z.leb_spec (in_Size i) (off + zlen acc)) as [Hend|Hend]; [by apply Hstop|].
  assert (forall m, 1 <= zlen m <= Z.min (plen - zlen acc) (in_Size i - (off + zlen acc)) ->
    wp (ReadAt_loop f fuel plen off (acc ++ m)) (readAt_post plen)) as Hnext.
  { intros m Hm. apply IH; rewrite ?zlen_app; lia. }
  unfold udiv. destruct (Z.eqb_spec bs 0); [lia|]. apply wp_bind, wp_lift.
  set (cur := off + zlen acc) in *.
  pose proof (Z.div_mod cur bs ltac:(lia)) as Hdm. pose proof (Z.mod_pos_bound cur bs ltac:(lia)).
  assert (0 <= cur / bs) by (apply Z.div_pos; lia).
  rewrite Hfo, zlen_offsetsFrom.
  destruct (Z.leb_spec (zlen (in_blockSizes i)) (cur / bs)) as [Htail|Hblock].
  - apply wp_bind, wp_attempt. eapply wp_mono; [|apply readFragmentInto_safe; [nia|lia]].
    intros r [Hs Hr]. rewrite observe_sane by done.
    destruct r as [m|e]; [|by apply Hstop]. apply Hnext. by apply Hr.
  - rewrite Hfw. destruct (index_sane (in_blockSizes i) (cur / bs)) as (sz & -> & Hsz); [lia|].
    assert (0 <= sz < 2 ^ 32) as Hszr by (rewrite Forall_lookup in Hszs; eauto).
    apply wp_bind, wp_lift. destruct (_ =? 0).
    { apply Hnext. rewrite zlen_zeros; lia. }
    destruct (index_sane (offsetsFrom (i64 (in_blocksStart i)) (in_blockSizes i)) (cur / bs)) as (o & -> & _).
    { rewrite zlen_offsetsFrom. lia. }
    apply wp_bind, wp_lift, wp_bind, wp_attempt. rewrite Hff.
    eapply wp_mono; [|by apply readBlock_safe].
    intros r [Hs _]. rewrite observe_sane by done. destruct r as [data|e]; [|by apply Hstop].
    destruct (Z.ltb_spec (zlen data) (Z.min bs (in_Size i - cur / bs * bs))); [by apply Hstop|].
    apply wp_bind, wp_lift. rewrite slice_ok by lia.
    apply Hnext. rewrite !zlen_take, zlen_drop by lia. lia.
Qed.

Lemma ReadAt_safe plen off :
  0 <= plen < 2 ^ 62 -> wp (squashfsFile_ReadAt f plen off) (readAt_post plen).
Proof using okA_block okA_meta laws wf Hi Hf.
  intros Hp. pose proof (file_bounds fs wf i f Hi Hf) as (_ & Hsize & _).
  assert (f_size f = in_Size i /\ f_closed f = false) as [Hs Hcl] by (split; apply Hf).
  unfold squashfsFile_ReadAt. rewrite Hs, Hcl.
  assert (forall e, readAt_post plen (Ok ([], Some e))) as Hnil.
  { intros e. split; [done|]. intros ? ? [= <- <-]. unfold zlen. cbn. split; [lia|done]. }
  destruct (Z.ltb_spec off 0); [apply Hnil|]. destruct (Z.leb_spec (in_Size i) off); [apply Hnil|].
  apply ReadAt_loop_safe; unfold zlen; cbn; lia.
Qed.

End safety.

Section transparency.
Context `{CodecLib} (fs : FS) (wf : sb_wf (fs_sb fs)).
Context (W : Z -> Z -> Prop) (HW : functional W) (okA : Z -> Prop).
Context (okA_meta : forall n, 0 <= n <= metaBlockMax -> okA n).
Context (okA_block : forall n, 0 <= n <= sb_BlockSize (fs_sb fs) -> okA n).
Context (i : inode) (f : squashfsFile) (Hi : inode_wf i) (Hf : file_of fs i f).
Context (Hag : agrees_file W fs i).

#[local] Notation transparent := (transparent (okMeta fs) (okData W fs) okA).

Lemma agrees_list_lookup off sizes k o sz :
  - 2 ^ 63 <= off < 2 ^ 63 -> agrees_list W off sizes ->
  offsetsFrom off sizes !! k = Some o -> sizes !! k = Some sz -> agrees W o sz.
Proof using.
  revert off k. induction sizes as [|s sizes IH]; intros off [|k] Hoff Ha Ho Hs; cbn in *; try done.
  - injection Ho as <-. injection Hs as <-. apply Ha.
  - destruct Ha as [_ Ha]. apply (IH (i64 (off + blockOnDiskBytes s)) k); [apply i64_range| |done|done].
    destruct (Z.eqb_spec (blockOnDiskBytes s) 0) as [Hz|]; [|done].
    by rewrite Hz, Z.add_0_r, i64_small.
Qed.

Lemma index_ok {A} (s : list A) j a : index s j = Ok a -> s !! Z.to_nat j = Some a.
Proof using.
  unfold index. destruct (_ && _); [|done]. destruct (s !! Z.to_nat j); [|done]. by intros [= ->].
Qed.

Lemma readFragmentInto_transparent want cur : transparent (readFragmentInto f want cur).
Proof using okA_block okA_meta wf HW Hf Hag.
  destruct Hf as (Hff & _ & _ & Hfi & _). unfold readFragmentInto. rewrite Hff, Hfi.
  destruct (Z.eqb_spec (in_fragIdx i) invalidFrag); [transp|].
  apply transparent_bind; [eapply readFragment_transparent; eauto; apply Hag|].
  intros frag _. transp.
Qed.

Lemma ReadAt_loop_transparent fuel plen off acc : transparent (ReadAt_loop f fuel plen off acc).
Proof using okA_block okA_meta wf HW Hi Hf Hag.
  pose proof Hf as (Hff & Hfo & Hfw & _). pose proof Hi as (_ & _ & _ & _ & Hszs & _).
  revert acc. induction fuel as [|fuel IH]; intros acc; cbn [ReadAt_loop];
    (destruct (_ <=? zlen acc); [transp|]); (destruct (f_size f <=? _); [transp|]); [transp|].
  apply transparent_bind; [transp|]. intros idx _. destruct (_ <=? idx).
  { apply transparent_bind; [apply transparent_attempt, readFragmentInto_transparent|].
    intros [m|e] _; [apply IH|transp]. }
  apply transparent_bind; [transp|]. rewrite Hfw, Hfo, Hff. intros word Hword%index_ok.
  destruct (_ =? 0); [apply IH|].
  apply transparent_bind; [transp|]. intros boff Hboff%index_ok.
  apply transparent_bind.
  { apply transparent_attempt, readBlock_transparent; auto.
    - rewrite Forall_lookup in Hszs. eauto.
    - eapply agrees_list_lookup; [|apply Hag|done|done]. apply i64_range. }
  intros [data|e] _; [|transp]. destruct (_ <? _); [transp|].
  apply transparent_bind; [transp|]. intros src _. apply IH.
Qed.

Lemma ReadAt_transparent plen off : transparent (squashfsFile_ReadAt f plen off).
Proof using okA_block okA_meta wf HW Hi Hf Hag.
  unfold squashfsFile_ReadAt. destruct (f_closed f); [transp|]. destruct (off <? 0); [transp|].
  destruct (_ <=? off); [transp|]. apply ReadAt_loop_transparent.
Qed.

End transparency.
