(* ===== verification/Fs.v ===== *)
(** * The filesystem handle and its methods (src/fs.go)

    Open and the read methods of FS.  [serve] gathers the methods in one
    request type, so that runs over a shared cache can be stated for any
    sequence ([serve_all]) and any interleaving (Concurrency.v) of calls. *)

From S2P Require Export OpenFile Xattr.

(** The values of github.com/go-filesystems/interface that ListDir and Stat
    build. *)
Class FsInterface := {
  DirEntry : Type;
  Stat : Type;
  NewDirEntry : Z -> list byte -> Z -> DirEntry;  (* inode number, name, type *)
  NewStat : Z -> Z -> Z -> Stat                   (* mode, size, inode number *)
}.

(** Open: the handle; its cache starts as [newBlockCache]. *)
Definition Open (rs : ReaderAt) (size : Z) : result FS :=
  sb ← readSuperblock rs;
  d ← newDecompressor (sb_Compression sb);
  _ ← readCompressorOptions rs sb;
  Ok (mkFS rs size sb d).

(** OpenReader returns Open's handle as an interface value. *)
Definition OpenReader (rs : ReaderAt) (size : Z) : result FS :=
  match Open rs size with
  | Err e => Err e
  | Ok fs => Ok fs
  end.

Definition FS_ReadFileLimit `{CodecLib} `{SafeIO} (fs : FS) (path : list byte) (max : Z) :
  prog (list byte) :=
  i ← resolve fs path true;
  if negb (isRegular i) then throw ErrNotRegular else readFileLimit fs i max.

Definition FS_ReadFile `{CodecLib} `{SafeIO} (fs : FS) (path : list byte) : prog (list byte) :=
  FS_ReadFileLimit fs path DefaultMaxReadFile.

Definition u8 (z : Z) : Z := z mod 2 ^ 8.

Definition FS_ListDir `{CodecLib} `{FsInterface} (fs : FS) (path : list byte) : prog (list DirEntry) :=
  i ← resolve fs path true;
  if negb (isDir i) then throw ErrNotDirectory
  else
    entries ← readDir fs i;
    _ ← make (zlen entries);
    mret ((fun e => NewDirEntry (de_Number e) (de_Name e) (u8 (de_Type e))) <$> entries).

Definition FS_Stat `{CodecLib} `{FsInterface} (fs : FS) (path : list byte) : prog Stat :=
  i ← resolve fs path true;
  mret (NewStat (in_Mode i) (in_Size i) (in_Number i)).

Definition FS_Xattrs `{CodecLib} (fs : FS) (path : list byte) :
  prog (option (gmap (list byte) (list byte))) :=
  i ← resolve fs path true;
  inodeXattrs fs i.

Definition FS_ReadLink `{CodecLib} (fs : FS) (path : list byte) : prog (list byte) :=
  i ← resolve fs path false;
  if negb (isSymlink i) then throw ErrNotSymlink else mret (in_symlinkTarget i).

(** The five mutating methods, by name: all refuse. *)
Inductive mutator :=
| WriteFile (path data : list byte) (perm : Z)
| MkDir (path : list byte) (perm : Z)
| DeleteFile (path : list byte)
| DeleteDir (path : list byte)
| Rename (oldpath newpath : list byte).

Definition FS_mutate (fs : FS) (m : mutator) : prog unit :=
  match m with
  | WriteFile _ _ _ => throw ErrReadOnly
  | MkDir _ _ => throw ErrReadOnly
  | DeleteFile _ => throw ErrReadOnly
  | DeleteDir _ => throw ErrReadOnly
  | Rename _ _ => throw ErrReadOnly
  end.

(** ** Requests *)

Inductive request :=
| QReadFile (path : list byte) (max : Z)
| QListDir (path : list byte)
| QStat (path : list byte)
| QXattrs (path : list byte)
| QReadLink (path : list byte)
| QReadAt (path : list byte) (plen off : Z)   (* OpenFile, then one ReadAt *)
| QMutate (m : mutator).

Section serve.
Context `{CodecLib} `{SafeIO} `{FsInterface}.

Inductive response :=
| ABytes (b : list byte)
| AEntries (es : list DirEntry)
| AStat (s : Stat)
| AXattrs (m : option (gmap (list byte) (list byte)))
| AReadAt (b : list byte) (e : option err)
| ADone.

Definition serve (fs : FS) (q : request) : prog response :=
  match q with
  | QReadFile p max => b ← FS_ReadFileLimit fs p max; mret (ABytes b)
  | QListDir p => es ← FS_ListDir fs p; mret (AEntries es)
  | QStat p => s ← FS_Stat fs p; mret (AStat s)
  | QXattrs p => m ← FS_Xattrs fs p; mret (AXattrs m)
  | QReadLink p => b ← FS_ReadLink fs p; mret (ABytes b)
  | QReadAt p plen off =>
      f ← FS_OpenFile fs p;
      '(b, e) ← squashfsFile_ReadAt f plen off;
      mret (AReadAt b e)
  | QMutate m => _ ← FS_mutate fs m; mret ADone
  end.

(** Requests served one after the other over one cache. *)
Fixpoint serve_all (fs : FS) (qs : list request) (c : option blockCache) :
  list (result response) * option blockCache :=
  match qs with
  | [] => ([], c)
  | q :: qs =>
      let '(r, c) := exec (serve fs q) c in
      let '(rs, c) := serve_all fs qs c in
      (r :: rs, c)
  end.

(** The answer on a path that resolves. *)
Lemma serve_ReadFile_ok fs path max i b :
  uncached (resolve fs path true) = Ok i -> isRegular i = true ->
  uncached (readFileLimit fs i max) = Ok b -> uncached (serve fs (QReadFile path max)) = Ok (ABytes b).
Proof using.
  intros Hi Hr Hb. cbn [serve]. rewrite uncached_bind. unfold FS_ReadFileLimit. rewrite uncached_bind, Hi. rstep.
  rewrite Hr. cbn [negb]. by rewrite Hb.
Qed.

Lemma serve_ReadLink_ok fs path i :
  uncached (resolve fs path false) = Ok i -> isSymlink i = true ->
  uncached (serve fs (QReadLink path)) = Ok (ABytes (in_symlinkTarget i)).
Proof using.
  intros Hi Hl. cbn [serve]. rewrite uncached_bind. unfold FS_ReadLink. rewrite uncached_bind, Hi. rstep.
  by rewrite Hl.
Qed.

Lemma serve_Stat_resolve fs path :
  uncached (serve fs (QStat path)) =
  (i ← uncached (resolve fs path true); Ok (AStat (NewStat (in_Mode i) (in_Size i) (in_Number i)))).
Proof using.
  cbn [serve]. rewrite uncached_bind. unfold FS_Stat. rewrite uncached_bind.
  by destruct (uncached (resolve fs path true)).
Qed.

(** ** Open *)

Lemma newDecompressor_sane c : sane (newDecompressor c).
Proof using. unfold newDecompressor. repeat destruct (_ =? _). all: done. Qed.

Lemma Open_sane rs size : sane (Open rs size).
Proof using.
  unfold Open. apply sane_bind; [apply readSuperblock_sane|]. intros sb _.
  apply sane_bind; [apply newDecompressor_sane|]. intros d _.
  apply sane_bind; [apply readCompressorOptions_sane|done].
Qed.

Lemma Open_inv rs size fs :
  Open rs size = Ok fs ->
  readSuperblock rs = Ok (fs_sb fs) /\ newDecompressor (sb_Compression (fs_sb fs)) = Ok (fs_d fs) /\
  fs_rs fs = rs /\ fs_size fs = size.
Proof using.
  unfold Open. rstep. destruct (readSuperblock rs) as [sb|]; rstep; [|done].
  destruct (newDecompressor _) as [d|] eqn:Ed; rstep; [|done].
  destruct (readCompressorOptions _ _); rstep; [|done]. by intros [= <-].
Qed.

Lemma Open_wf rs size fs : Open rs size = Ok fs -> sb_wf (fs_sb fs).
Proof using. intros (Hsb & _)%Open_inv. by apply readSuperblock_inv in Hsb as [_ ?]. Qed.

(** ** Resolution yields decoded inodes *)

Section resolved.
Context (fs : FS).

Definition decoded (i : inode) : Prop := exists ref, uncached (readInode fs ref) = Ok i.

Lemma walk_decoded follow ff cur parts i :
  (forall base target j, decoded base -> uncached (follow base target) = Ok j -> decoded j) ->
  decoded cur -> uncached (walk fs follow ff cur parts) = Ok i -> decoded i.
Proof using.
  intros Hf. revert cur. induction parts as [|name rest IH]; intros cur Hcur; cbn [walk].
  { by intros [= <-]. }
  destruct (negb _); [done|]. rewrite uncached_bind.
  destruct (uncached (readDir fs cur)) as [entries|]; rstep; [|done]. rewrite uncached_bind.
  destruct (uncached (findChild fs entries name)) as [[child|]|] eqn:Hc; rstep; [|done..].
  apply findChild_spec in Hc as (pre & e & post & _ & _ & _ & Hchild).
  rewrite uncached_bind.
  destruct (uncached (if _ : bool then _ else _)) as [dest|] eqn:Hd; rstep; [|done].
  apply IH. revert Hd. destruct (_ && _); [|intros [= <-]; by eexists].
  rewrite uncached_bind. destruct (uncached (if _ : bool then _ else _)) as [base|] eqn:Hb; rstep; [|done].
  apply Hf. revert Hb. destruct (hasPrefixSlash _); [by eexists|by intros [= <-]].
Qed.

Lemma resolveFrom_decoded fuel start path ff hops i :
  decoded start -> uncached (resolveFrom fs fuel start path ff hops) = Ok i -> decoded i.
Proof using.
  revert start path ff hops i. induction fuel as [|fuel IH]; intros start path ff hops i Hs;
    cbn [resolveFrom]; (destruct (_ <? _); [done|]); [done|].
  apply walk_decoded; [|done]. intros. by eapply IH.
Qed.

Lemma resolve_decoded path ff i : uncached (resolve fs path ff) = Ok i -> decoded i.
Proof using.
  unfold resolve. rewrite uncached_bind.
  destruct (uncached (readInode _ _)) as [root|] eqn:E; rstep; [|done].
  apply resolveFrom_decoded. by eexists.
Qed.

Lemma resolve_wf path ff i : uncached (resolve fs path ff) = Ok i -> inode_wf i.
Proof using. by intros [ref Hr%readInode_wf]%resolve_decoded. Qed.

Lemma resolve_kind path ff i : uncached (resolve fs path ff) = Ok i -> inode_kind_ok fs i.
Proof using. by intros [ref Hr%readInode_kind]%resolve_decoded. Qed.

End resolved.

(** ** Every request on any image *)

(** The largest single allocation of a request: a metadata or data block, the
    block list's copies (at most 2^24 entries), the entries of a listing, or
    the file within the caller's ceiling. *)
Definition alloc_bound (fs : FS) (q : request) (n : Z) : Prop :=
  n <= metaBlockMax \/ n <= sb_BlockSize (fs_sb fs) \/
  match q with
  | QReadFile _ max => max < 0 \/ n <= max
  | QListDir _ => n <= maxDirEntries
  | QReadAt _ _ _ => n <= 2 ^ 24
  | _ => False
  end.

Definition response_ok (q : request) (r : result response) : Prop :=
  sane r /\
  match q, r with
  | QReadFile _ max, Ok (ABytes b) => 0 <= max -> zlen b <= max
  | QReadAt _ plen _, Ok (AReadAt b e) => zlen b <= plen /\ (e = None -> zlen b = plen)
  | QXattrs _, Ok (AXattrs (Some m)) => xattr_bytes m <= maxXattrBytes
  | QListDir _, Ok (AEntries es) => zlen es <= maxDirEntries
  | QMutate _, Ok _ => False
  | _, _ => True
  end.

Definition request_ok (q : request) : Prop :=
  match q with QReadAt _ plen _ => 0 <= plen < 2 ^ 62 | _ => True end.

Section safety.
Context {laws : CodecLaws} {safeio : SafeIOLaws} (fs : FS) (wf : sb_wf (fs_sb fs)).

#[local] Notation wpq q := (wp (okMeta fs) (okBlock fs) (alloc_bound fs q)).

Lemma alloc_meta q n : 0 <= n <= metaBlockMax -> alloc_bound fs q n.
Proof using. intros. left. lia. Qed.

Lemma alloc_block q n : 0 <= n <= sb_BlockSize (fs_sb fs) -> alloc_bound fs q n.
Proof using. intros. right. left. lia. Qed.

Lemma response_ok_err q e : sane (Err (A := unit) e) -> response_ok q (Err e).
Proof using. intros Hs. split; [by eapply sane_err|]. by destruct q. Qed.

(** Resolve first; then continue with a decoded inode. *)
Lemma wp_resolve {A} q path ff (k : inode -> prog A) (Q : result A -> Prop) :
  (forall e, sane (Err (A := unit) e) -> Q (Err e)) ->
  (forall i, inode_wf i -> wpq q (k i) Q) ->
  wpq q (resolve fs path ff ≫= k) Q.
Proof using laws wf.
  intros He Hk. apply wp_bind, transparent_wp; [apply resolve_transparent; intros; by apply alloc_meta|].
  pose proof (resolve_sane fs laws wf path ff) as Hs.
  destruct (uncached (resolve fs path ff)) as [i|e] eqn:E.
  - apply Hk. by eapply resolve_wf.
  - apply He. by eapply sane_err.
Qed.

(** Respond to the value of a program whose errors are sane. *)
Lemma wp_respond {A} q (p : prog A) (k : A -> response) (P : result A -> Prop) :
  wpq q p P -> (forall r, P r -> sane r) ->
  (forall a, P (Ok a) -> response_ok q (Ok (k a))) ->
  wpq q (p ≫= fun a => mret (k a)) (response_ok q).
Proof using.
  intros Hp Hs Hk. eapply wp_seq; [exact Hp|exact Hk|].
  intros e He%Hs. by eapply response_ok_err, sane_err.
Qed.

Lemma FS_ReadFileLimit_safe path max :
  wpq (QReadFile path max) (FS_ReadFileLimit fs path max)
    (fun r => sane r /\ forall b, r = Ok b -> 0 <= max -> zlen b <= max).
Proof using laws safeio wf.
  apply wp_resolve. { intros e He. split; [by eapply sane_err|done]. }
  intros i Hi. destruct (negb _); [by split|].
  eapply wp_mono; [|apply readFileLimit_safe; eauto using alloc_meta, alloc_block].
  - intros r [Hs Hr]. split; [done|]. intros b Hb. by apply Hr.
  - intros Hm. right. right. cbn. lia.
Qed.

Lemma FS_ListDir_safe path :
  wpq (QListDir path) (FS_ListDir fs path)
    (fun r => sane r /\ forall es, r = Ok es -> zlen es <= maxDirEntries).
Proof using laws wf.
  apply wp_resolve. { intros e He. split; [by eapply sane_err|done]. }
  intros i Hi. destruct (negb _); [by split|].
  apply wp_bind, transparent_wp; [apply readDir_transparent; intros; by apply alloc_meta|].
  pose proof (readDir_sane fs laws i) as Hs.
  destruct (uncached (readDir fs i)) as [es|e] eqn:E; [|split; [by eapply sane_err|done]].
  apply readDir_ok in E as [El _]. cbn. split_and!; [apply zlen_nonneg|by right; right|done|].
  intros ? [= <-]. unfold zlen in *. by rewrite length_fmap.
Qed.

Lemma FS_OpenFile_safe q path :
  (forall n, n <= 2 ^ 24 -> alloc_bound fs q n) ->
  wpq q (FS_OpenFile fs path)
    (fun r => sane r /\ forall f, r = Ok f -> exists i, inode_wf i /\ file_of fs i f).
Proof using laws wf.
  intros Hq. apply wp_resolve. { intros e He. split; [by eapply sane_err|done]. }
  intros i Hi. destruct (negb _); [by split|].
  assert (zlen (in_blockSizes i) <= 2 ^ 24) as Hl by apply Hi.
  pose proof (newFile_total fs wf i Hi) as Ht. revert Ht. unfold newFile.
  destruct (Z.ltb_spec (maxBytes fs i) (in_Size i)); [by split|]. intros (f & Hf & Hof); [lia|].
  cbn. split_and!; [apply zlen_nonneg|by apply Hq|apply zlen_nonneg|by apply Hq|done|].
  intros f' [= <-]. exists i. split; [done|].
  revert Hf. do 2 (rewrite uncached_bind, uncached_make by apply zlen_nonneg; rstep).
  by intros [= <-].
Qed.

(** The reader's safety contract: no panic and no runaway loop, no oversized
    allocation, and results within their documented bounds, whatever bytes
    the image holds. *)
Lemma serve_safe q : request_ok q -> wpq q (serve fs q) (response_ok q).
Proof using laws safeio wf.
  destruct q as [p max|p|p|p|p|p plen off|m]; cbn [serve request_ok]; intros Hq.
  - eapply wp_respond; [apply FS_ReadFileLimit_safe|by intros ? []|]. intros b [Hs Hb]. split; [done|]. auto.
  - eapply wp_respond; [apply FS_ListDir_safe|by intros ? []|]. intros es [Hs Hb]. split; [done|]. auto.
  - eapply (wp_respond _ _ _ sane); [|done|done].
    apply wp_resolve; [intros e He; by eapply sane_err|]. done.
  - eapply (wp_respond _ _ _ (fun r => sane r /\ forall m, r = Ok (Some m) -> xattr_bytes m <= maxXattrBytes));
      [|by intros ? []|].
    + apply wp_resolve. { intros e He. split; [by eapply sane_err|done]. }
      intros i Hi. apply transparent_wp; [apply inodeXattrs_transparent; intros; by apply alloc_meta|].
      split; [by apply inodeXattrs_sane|]. intros m. apply inodeXattrs_bytes.
    + intros [m|] [Hs Hb]; (split; [done|]); auto.
  - eapply (wp_respond _ _ _ sane); [|done|done].
    apply wp_resolve; [intros e He; by eapply sane_err|]. intros i Hi. by destruct (negb _).
  - eapply wp_seq; [apply FS_OpenFile_safe; intros; by right; right| |].
    2:{ intros e [He _]. by eapply response_ok_err, sane_err. }
    intros f [_ Hf]. destruct (Hf f eq_refl) as (i & Hi & Hof).
    eapply wp_seq; [eapply (ReadAt_safe fs laws wf); eauto using alloc_meta, alloc_block| |].
    2:{ intros e [He _]. by eapply response_ok_err, sane_err. }
    intros [b e] [Hs Hb]. split; [done|]. by apply Hb.
  - destruct m; cbn; by split.
Qed.

(** Over any valid cache, one request after the other. *)
Lemma serve_all_safe qs c :
  Forall request_ok qs -> cache_ok (okMeta fs) (okBlock fs) c ->
  Forall2 response_ok qs (fst (serve_all fs qs c)).
Proof using laws safeio wf.
  intros Hqs. revert c. induction Hqs as [|q qs Hq Hqs IH]; intros c Hc; [constructor|].
  cbn [serve_all]. destruct (wp_exec _ _ _ _ _ c (serve_safe q Hq) Hc) as [Hr Hc'].
  destruct (exec (serve fs q) c) as [r c']. cbn in Hr, Hc'. specialize (IH c' Hc').
  destruct (serve_all fs qs c') as [rs c'']. by constructor.
Qed.

End safety.

(** ** Transparency over requests *)

(** The file a request reads, if any, refers only to blocks [W] knows. *)
Definition names_ok (W : Z -> Z -> Prop) (fs : FS) (q : request) : Prop :=
  match q with
  | QReadFile p _ | QReadAt p _ _ =>
      forall i, uncached (resolve fs p true) = Ok i -> isRegular i = true -> agrees_file W fs i
  | _ => True
  end.

Definition any_size (n : Z) : Prop := True.

Section transparency.
Context {safeio : SafeIOLaws} (fs : FS) (wf : sb_wf (fs_sb fs)).
Context (W : Z -> Z -> Prop) (HW : functional W).

#[local] Notation transparent := (transparent (okMeta fs) (okData W fs) any_size).

Lemma serve_transparent q : names_ok W fs q -> transparent (serve fs q).
Proof using safeio wf HW.
  assert (forall n, 0 <= n <= metaBlockMax -> any_size n) as Hm by done.
  destruct q as [p max|p|p|p|p|p plen off|m]; cbn [names_ok serve]; intros Hq.
  6: apply transparent_bind; [|intros f Hf; apply transparent_bind;
       [|intros [b e] _; apply transparent_mret]].
  8: by destruct m; apply transparent_bind.
  1-5: apply transparent_bind; [|intros ? _; apply transparent_mret].
  - apply transparent_bind; [auto with transp|]. intros i Hi.
    destruct (isRegular i) eqn:Hr; [|apply transparent_ret]. cbn [negb].
    apply readFileLimit_transparent; auto; [done|by eapply resolve_wf|done].
  - apply transparent_bind; [auto with transp|]. intros i _.
    destruct (negb _); [apply transparent_ret|].
    apply transparent_bind; [auto with transp|]. intros es _.
    apply transparent_bind; [apply transparent_make; [apply zlen_nonneg|done]|]. intros; apply transparent_mret.
  - apply transparent_bind; [auto with transp|]. intros; apply transparent_mret.
  - apply transparent_bind; auto with transp.
  - apply transparent_bind; [auto with transp|]. intros i _. by destruct (negb _).
  - apply transparent_bind; [auto with transp|]. intros i _.
    destruct (negb _); [apply transparent_ret|]. unfold newFile.
    destruct (_ <? _); [apply transparent_ret|].
    do 2 (apply transparent_bind; [apply transparent_make; [apply zlen_nonneg|done]|]; intros _ _).
    apply transparent_mret.
  - revert Hf. unfold FS_OpenFile. rewrite uncached_bind.
    destruct (uncached (resolve fs p true)) as [i|] eqn:Hi; rstep; [|done].
    destruct (isRegular i) eqn:Hr; [|done]. cbn [negb]. intros Hf.
    pose proof (resolve_wf _ _ _ _ Hi) as Hwf.
    eapply ReadAt_transparent; eauto using newFile_ok. done.
Qed.

(** A sequence of requests gives, over any valid cache, the answers of the
    cacheless reader, one by one. *)
Lemma serve_all_uncached qs c :
  Forall (names_ok W fs) qs -> cache_ok (okMeta fs) (okData W fs) c ->
  fst (serve_all fs qs c) = (fun q => uncached (serve fs q)) <$> qs /\
  cache_ok (okMeta fs) (okData W fs) (snd (serve_all fs qs c)).
Proof using safeio wf HW.
  intros Hqs. revert c. induction Hqs as [|q qs Hq Hqs IH]; intros c Hc; [done|].
  cbn [serve_all fmap list_fmap].
  destruct (transparent_exec _ _ _ _ c (serve_transparent q Hq) Hc) as [Hr Hc'].
  destruct (exec (serve fs q) c) as [r c']. cbn in Hr, Hc'. subst r.
  destruct (IH c' Hc') as [Hrs Hc'']. destruct (serve_all fs qs c') as [rs c'']. cbn in *.
  split; [|done]. by rewrite Hrs.
Qed.

End transparency.

End serve.
