(* ===== verification/Concurrency.v ===== *)
(** * Concurrent calls over one cache

    FS is documented safe for concurrent use: goroutines share only the block
    cache, whose methods run under its mutex, and the image never changes.
    A pool of calls steps by performing one effect of one of them; the order
    is arbitrary.  Whatever [wp] proves of the calls one by one then holds of
    each of them in every interleaving, the cache stays valid and within its
    caps, and every schedule ends. *)

From S2P Require Export Fs.
From stdpp Require Import relations.

#[local] Open Scope Z_scope.

(** One effect of one program; [None] when it has returned. *)
Definition pstep {A} (p : prog A) (c : option blockCache) : option (prog A * option blockCache) :=
  match p with
  | Ret _ => None
  | GetMeta off k => Some (k (getMeta c off), c)
  | PutMeta off e k => Some (k, putMeta c off e)
  | GetData off k => Some (k (getData c off), c)
  | PutData off b k => Some (k, putData c off b)
  | Make n k => Some (if n <? 0 then Ret (Err Panic) else k, c)
  end.

Inductive pool_step {A} : list (prog A) * option blockCache -> list (prog A) * option blockCache -> Prop :=
| pool_one ts c i p p' c' :
    ts !! i = Some p -> pstep p c = Some (p', c') ->
    pool_step (ts, c) (<[i:=p']> ts, c').

(** A scheduler: step the threads in the given order, skipping those that
    have returned. *)
Fixpoint run_schedule {A} (sched : list nat) (cfg : list (prog A) * option blockCache) :
  list (prog A) * option blockCache :=
  match sched with
  | [] => cfg
  | i :: sched =>
      match fst cfg !! i ≫= fun p => pstep p (snd cfg) with
      | Some (p', c') => run_schedule sched (<[i:=p']> (fst cfg), c')
      | None => run_schedule sched cfg
      end
  end.

Lemma run_schedule_steps {A} sched (cfg : list (prog A) * option blockCache) :
  rtc pool_step cfg (run_schedule sched cfg).
Proof.
  revert cfg. induction sched as [|i sched IH]; intros [ts c]; cbn [run_schedule fst snd]; [done|].
  destruct (ts !! i) as [p|] eqn:Hi; cbn [mbind option_bind]; [|apply IH].
  destruct (pstep p c) as [[p' c']|] eqn:Hp; [|apply IH].
  eapply rtc_l; [by eapply pool_one|apply IH].
Qed.

(** The cache of a handle: well formed, with the caps it was made with. *)
Definition cache_wf_opt (c : option blockCache) : Prop :=
  match c with
  | Some c => cache_wf c /\ bc_metaCap c = defaultMetaCacheBlocks /\ bc_dataCap c = defaultDataCacheBlocks
  | None => True
  end.

Lemma cache_wf_new : cache_wf_opt (Some newBlockCache).
Proof. split; [split; apply half_wf_empty|done]. Qed.

Lemma pstep_cache_wf {A} (p p' : prog A) c c' :
  pstep p c = Some (p', c') -> cache_wf_opt c -> cache_wf_opt c'.
Proof.
  destruct p as [r|off k|off e k|off k|off b k|n k]; cbn [pstep]; intros [= <- <-]; try done.
  - destruct c as [c|]; [|done]. intros (Hc & Hm & Hd). unfold cache_wf_opt.
    destruct (putMeta (Some c) off e) eqn:E; [|done]. split; [by eapply putMeta_wf|].
    revert E. cbn [putMeta]. destruct (putEntry _ _ _ _ _). by intros [= <-].
  - destruct c as [c|]; [|done]. intros (Hc & Hm & Hd). unfold cache_wf_opt.
    destruct (putData (Some c) off b) eqn:E; [|done]. split; [by eapply putData_wf|].
    revert E. cbn [putData]. destruct (putEntry _ _ _ _ _). by intros [= <-].
Qed.

Section invariance.
Context (okM : Z -> metaEntry -> Prop) (okD : Z -> list byte -> Prop) (okA : Z -> Prop).

Lemma pstep_wp {A} (p p' : prog A) c c' Q :
  wp okM okD okA p Q -> cache_ok okM okD c -> pstep p c = Some (p', c') ->
  wp okM okD okA p' Q /\ cache_ok okM okD c'.
Proof.
  intros Hp Hc. destruct p as [r|off k|off e k|off k|off b k|n k]; cbn [pstep]; intros [= <- <-];
    cbn [wp] in Hp.
  - split; [|done]. apply Hp. intros e He. by apply Hc.
  - split; [apply Hp|]. apply cache_ok_putMeta; [done|apply Hp].
  - split; [|done]. apply Hp. intros b Hb. by apply Hc.
  - split; [apply Hp|]. apply cache_ok_putData; [done|apply Hp].
  - destruct Hp as (Hn & _ & Hp). destruct (Z.ltb_spec n 0); [lia|]. done.
Qed.

(** The pool's invariant: every thread still meets its own specification. *)
Definition pool_ok {A} (Qs : list (result A -> Prop)) (ts : list (prog A)) (c : option blockCache) : Prop :=
  Forall2 (wp okM okD okA) ts Qs /\ cache_ok okM okD c /\ cache_wf_opt c.

Lemma pool_step_ok {A} (Qs : list (result A -> Prop)) ts c ts' c' :
  pool_ok Qs ts c -> pool_step (ts, c) (ts', c') -> pool_ok Qs ts' c'.
Proof.
  intros (Hts & Hc & Hwf) Hstep. inversion Hstep as [? ? i p p' ? Hi Hp]; subst.
  destruct (Forall2_lookup_l _ _ _ _ _ Hts Hi) as (Q & HQ & Hpq).
  destruct (pstep_wp _ _ _ _ _ Hpq Hc Hp) as [Hp' Hc'].
  split_and!; [|done|by eapply pstep_cache_wf].
  rewrite <- (list_insert_id Qs i Q HQ). by apply Forall2_insert.
Qed.

Lemma pool_reachable_ok {A} (Qs : list (result A -> Prop)) cfg cfg' :
  rtc pool_step cfg cfg' -> pool_ok Qs (fst cfg) (snd cfg) -> pool_ok Qs (fst cfg') (snd cfg').
Proof.
  induction 1 as [|[ts c] [ts' c'] cfg'' Hstep _ IH]; [done|]. intros Hok. apply IH.
  by eapply pool_step_ok.
Qed.

(** A call that has returned in some interleaving meets its specification. *)
Lemma pool_result {A} (Qs : list (result A -> Prop)) ts c ts' c' i r Q :
  pool_ok Qs ts c -> rtc pool_step (ts, c) (ts', c') ->
  ts' !! i = Some (Ret r) -> Qs !! i = Some Q -> Q r.
Proof.
  intros Hok Hsteps Hr HQ. apply (pool_reachable_ok Qs) in Hsteps; [|done].
  destruct Hsteps as (Hts & _). exact (Forall2_lookup_lr _ _ _ _ _ _ Hts Hr HQ).
Qed.

End invariance.

(** ** Every schedule ends *)

Lemma list_insert_cons_inv {A} (x : A) l i y :
  (i = 0%nat /\ <[i:=y]> (x :: l) = y :: l) \/
  exists j, i = S j /\ <[i:=y]> (x :: l) = x :: <[j:=y]> l.
Proof. destruct i as [|j]; [by left|right]. by exists j. Qed.

(** [p'] is what remains of [p] after one effect, whatever the cache held. *)
Definition remains {A} (p' p : prog A) : Prop := exists c c', pstep p c = Some (p', c').

Lemma remains_wf {A} : well_founded (@remains A).
Proof.
  intros p. induction p as [r|off k IH|off e k IH|off k IH|off b k IH|n k IH];
    constructor; intros p' (c & c' & [= <- _]); auto.
  destruct (_ <? 0); [|done]. constructor. by intros p' (? & ? & ?).
Qed.

(** One element of the list goes down. *)
Definition one_down {T} (R : T -> T -> Prop) (ts' ts : list T) : Prop :=
  exists i t t', ts !! i = Some t /\ R t' t /\ ts' = <[i:=t']> ts.

Lemma one_down_wf {T} (R : T -> T -> Prop) : well_founded R -> well_founded (one_down R).
Proof.
  intros HR ts. induction ts as [|p ts IHts].
  { constructor. intros ts' (i & q & q' & Hi & _). by rewrite lookup_nil in Hi. }
  revert ts IHts. induction (HR p) as [p _ IHp]. intros ts Hts.
  induction Hts as [ts Hacc IHts]. constructor. intros ts' (i & q & q' & Hi & Hq & ->).
  destruct (list_insert_cons_inv p ts i q') as [[-> ->]|(j & -> & ->)]; cbn in Hi.
  - injection Hi as ->. by apply IHp.
  - apply IHts. by exists j, q, q'.
Qed.

(** No infinite interleaving exists. *)
Lemma pool_terminates {A} (ts : list (prog A)) c : Acc (flip pool_step) (ts, c).
Proof.
  revert c. induction (one_down_wf _ remains_wf ts) as [ts _ IH]. intros c. constructor.
  intros [ts' c'] Hstep. unfold flip in Hstep. inversion Hstep as [? ? i p p' ? Hi Hp]; subst.
  apply IH. exists i, p, p'. split_and!; [done| |done]. by exists c, c'.
Qed.

(** A pool that cannot step has returned everywhere. *)
Lemma pool_progress {A} (ts : list (prog A)) c :
  (forall cfg, ~ pool_step (ts, c) cfg) -> Forall (fun p => exists r, p = Ret r) ts.
Proof.
  intros Hstuck. apply Forall_lookup. intros i p Hi.
  destruct (pstep p c) as [[p' c']|] eqn:E.
  - destruct (Hstuck (<[i:=p']> ts, c')). by eapply pool_one.
  - destruct p; try done. by eexists.
Qed.

(** ** Requests in a pool *)

(** Calls that refer only to blocks [W] knows return, in any interleaving,
    what they return with no cache, and leave a cache of valid entries. *)
Section transparency.
Context `{CodecLib} `{SafeIO} `{FsInterface} `{!SafeIOLaws} (fs : FS) (wf : sb_wf (fs_sb fs)).
Context (W : Z -> Z -> Prop) (HW : functional W) (qs : list request) (Hqs : Forall (names_ok W fs) qs).

#[local] Notation Qs := ((fun q r => r = uncached (serve fs q)) <$> qs).

Lemma serve_pool_ok :
  pool_ok (okMeta fs) (okData W fs) any_size Qs (serve fs <$> qs) (Some newBlockCache).
Proof using All.
  split; [|split; [apply cache_ok_new|apply cache_wf_new]].
  apply Forall2_fmap_2, Forall_Forall2_diag. eapply Forall_impl; [exact Hqs|]. intros q' Hq'.
  by apply serve_transparent with (W := W).
Qed.

Lemma serve_pool_uncached ts c i q r :
  rtc pool_step (serve fs <$> qs, Some newBlockCache) (ts, c) ->
  qs !! i = Some q -> ts !! i = Some (Ret r) -> r = uncached (serve fs q).
Proof using All.
  intros Hsteps Hq Hr.
  apply (pool_result _ _ _ Qs _ _ ts c i r (fun r => r = uncached (serve fs q)) serve_pool_ok Hsteps Hr).
  by rewrite list_lookup_fmap, Hq.
Qed.

Lemma serve_pool_cache ts c :
  rtc pool_step (serve fs <$> qs, Some newBlockCache) (ts, c) -> cache_ok (okMeta fs) (okData W fs) c.
Proof using All.
  intros Hsteps. by destruct (pool_reachable_ok _ _ _ Qs _ _ Hsteps serve_pool_ok) as (_ & Hc & _).
Qed.

(** A request after any interleaving of the others. *)
Lemma serve_after_pool ts c q :
  rtc pool_step (serve fs <$> qs, Some newBlockCache) (ts, c) -> names_ok W fs q ->
  fst (exec (serve fs q) c) = uncached (serve fs q).
Proof using All.
  intros Hc%serve_pool_cache Hq. by apply (transparent_exec _ _ _ _ c (serve_transparent fs wf W HW q Hq) Hc).
Qed.

End transparency.
