(* ===== verification/Faults.v ===== *)
(** * Readers that fail (src/metadata.go, data.go, xattr.go, openfile.go)

    The image is read through an io.ReaderAt that the package does not own: a
    disk goes bad, or the file behind it is closed.  [reads_as E rs' rs] says
    that [rs'] reads what [rs] reads or fails with an error of [E].  A call over [rs'] is
    then a call over [rs] cut short: [cuts] relates the two programs, and
    [cuts_wp] carries what is known of the one to the other. *)

From S2P Require Export Concurrency.

#[local] Open Scope Z_scope.

(** Nobody reads nothing: a read of no bytes is left out. *)
Definition reads_as (E : err -> Prop) (rs' rs : ReaderAt) : Prop :=
  forall off n, (0 < n)%nat ->
    ReadAt rs' off n = ReadAt rs off n \/ exists e, E e /\ ReadAt rs' off n = Err e.

(** ** Programs cut short

    [F r r0] says that a call may stop with [r] where the whole of it would
    have given [r0]; [R] relates the values of calls that are not cut. *)
Inductive cuts {A B} (R : A -> B -> Prop) (F : result A -> result B -> Prop) : prog A -> prog B -> Prop :=
| cuts_stop r p : F r (uncached p) -> cuts R F (Ret r) p
| cuts_ok a b : R a b -> cuts R F (Ret (Ok a)) (Ret (Ok b))
| cuts_err x : cuts R F (Ret (Err x)) (Ret (Err x))
| cuts_GetMeta off k' k : (forall o, cuts R F (k' o) (k o)) -> cuts R F (GetMeta off k') (GetMeta off k)
| cuts_PutMeta off m k' k : cuts R F k' k -> cuts R F (PutMeta off m k') (PutMeta off m k)
| cuts_GetData off k' k : (forall o, cuts R F (k' o) (k o)) -> cuts R F (GetData off k') (GetData off k)
| cuts_PutData off b k' k : cuts R F k' k -> cuts R F (PutData off b k') (PutData off b k)
| cuts_Make n k' k : (0 <= n -> cuts R F k' k) -> cuts R F (Make n k') (Make n k).

(** What holds of the whole call holds of the cut one, up to the cut. *)
Lemma cuts_wp {A} okM okD okA (F : result A -> result A -> Prop) (p' p : prog A) Q :
  cuts eq F p' p -> wp okM okD okA p Q ->
  wp okM okD okA p' (fun r => exists r0, Q r0 /\ (r = r0 \/ F r r0)).
Proof.
  induction 1 as [r p Hr|a b Hab|x|off k' k _ IH|off m k' k _ IH|off k' k _ IH|off b k' k _ IH|n k' k _ IH];
    cbn; intros Hp; try subst b; eauto.
  - apply wp_uncached in Hp. eauto.
  - naive_solver.
  - naive_solver.
  - naive_solver.
Qed.

(** Without a cut, the two run alike. *)
Lemma cuts_exec {A} (F : result A -> result A -> Prop) (p' p : prog A) c :
  (forall r r0, ~ F r r0) -> cuts eq F p' p -> exec p' c = exec p c.
Proof.
  intros HF Hp. revert c.
  induction Hp as [r p Hr|a b ->|x|off k' k _ IH|off m k' k _ IH|off k' k _ IH|off b k' k _ IH|n k' k _ IH];
    intros c; cbn [exec]; auto.
  - by apply HF in Hr.
  - destruct (Z.ltb_spec n 0); [done|]. by apply IH.
Qed.

(** Stopping with an error of [E]. *)
Definition fails {A B} (E : err -> Prop) (r : result A) (_ : result B) : Prop := exists e, E e /\ r = Err e.

#[local] Notation "p' ≲{ E } p" := (cuts eq (fails E) p' p) (at level 70, E at level 9).

Section cuts.
Context (E : err -> Prop).

Lemma cuts_refl {A} (F : result A -> result A -> Prop) (p : prog A) : cuts eq F p p.
Proof using. induction p as [[a|x]| | | | |]; by constructor. Qed.

Lemma cuts_bind {A A' B B'} (R : A' -> A -> Prop) (S : B' -> B -> Prop) G (p' : prog A') (p : prog A) k' k :
  (forall e r0, E e -> G (Err e) r0) ->
  cuts R (fails E) p' p -> (forall a b, R a b -> cuts S G (k' a) (k b)) ->
  cuts S G (p' ≫= k') (p ≫= k).
Proof using.
  intros HG Hp Hk. unfold mbind, prog_bind.
  induction Hp as [r p Hr|a b Hab|x|off f' f _ IH|off m f' f _ IH|off f' f _ IH|off b f' f _ IH|n f' f _ IH];
    cbn [pbind]; try (constructor; by auto).
  - destruct Hr as (e & He & ->). apply cuts_stop. by apply HG.
  - by apply Hk.
Qed.

(** In a chain of calls that return early on the error. *)
Lemma cuts_seq {A B} (p' p : prog A) (k' k : A -> prog B) :
  p' ≲{E} p -> (forall a, k' a ≲{E} k a) -> (p' ≫= k') ≲{E} (p ≫= k).
Proof using. intros Hp Hk. eapply cuts_bind; [by intros e ? He; exists e|exact Hp|]. by intros a ? <-. Qed.

Lemma cuts_make {A B} (R : A -> B -> Prop) F n k' k :
  (0 <= n -> cuts R F (k' tt) (k tt)) -> cuts R F (make n ≫= k') (make n ≫= k).
Proof using. intros Hk. by apply cuts_Make. Qed.

(** A pure step that no reader touches. *)
Lemma cuts_lift {A B C} (S : B -> C -> Prop) G (r : result A) k' k :
  (forall a, cuts S G (k' a) (k a)) -> cuts S G (lift r ≫= k') (lift r ≫= k).
Proof using. intros Hk. destruct r as [a|x]; [apply Hk|apply cuts_err]. Qed.

(** A read, at last. *)
Lemma cuts_read rs' rs off n :
  reads_as E rs' rs -> (0 < n)%nat -> lift (ReadAt rs' off n) ≲{E} lift (ReadAt rs off n).
Proof using. intros Hrs Hn. destruct (Hrs off n Hn) as [Hr|(e & He & Hr)]; rewrite Hr; [apply cuts_refl|]. apply cuts_stop. by exists e. Qed.

(** A call that observes the error of another and stops at it. *)
Lemma cuts_attempt {A B} (F : result B -> result B -> Prop) (p' p : prog A) (k' k : result A -> prog B) s :
  (forall e, E e -> sane (Err (A := unit) e) /\ k' (Err e) = Ret (s e)) ->
  (forall e r, E e -> F (s e) (uncached (k r))) -> (forall e x, E e -> F (s e) (Err x)) ->
  p' ≲{E} p -> (forall r, cuts eq F (k' r) (k r)) -> cuts eq F (attempt p' ≫= k') (attempt p ≫= k).
Proof using.
  intros Hs Hstop Hx Hp Hk. unfold mbind, prog_bind.
  induction Hp as [r p Hr|a b Hab|x|off f' f _ IH|off m f' f _ IH|off f' f _ IH|off b f' f _ IH|n f' f _ IH];
    cbn [attempt pbind]; try (constructor; by auto).
  - destruct Hr as (e & He & ->). destruct (Hs e He) as [Hsane Hke].
    rewrite observe_sane by (by eapply sane_err). rewrite Hke. apply cuts_stop.
    change (pbind (attempt p) k) with (attempt p ≫= k). rewrite uncached_bind, uncached_attempt.
    destruct (observe (uncached p)); cbn [rbind]; auto.
  - subst b. apply Hk.
  - destruct (observe (Err x)); cbn; [apply Hk|apply cuts_err].
Qed.

End cuts.

#[export] Hint Resolve cuts_read : cuts.

(** Cut a chain of calls along its binds, tests and matches. *)
Ltac cuts_step :=
  first
    [ progress intros
    | match goal with |- cuts eq _ ?p ?p => apply cuts_refl end
    | solve [auto with cuts nocore]
    | match goal with
      | |- cuts _ _ (make _ ≫= _) (make _ ≫= _) => apply cuts_make
      | |- cuts eq (fails _) (_ ≫= _) (_ ≫= _) => apply cuts_seq
      | |- cuts _ _ (if ?b then _ else _) _ => destruct b eqn:?
      | |- cuts _ _ (match ?x with _ => _ end) _ => destruct x eqn:?
      end ].
Ltac cuts := repeat cuts_step.

(** ** The reader's functions, cut by a failing reader *)

(** The handle with another reader behind it. *)
Definition with_reader (rs : ReaderAt) (fs : FS) : FS := mkFS rs (fs_size fs) (fs_sb fs) (fs_d fs).

Section functions.
Context `{CodecLib} (fs : FS) (rs' : ReaderAt) (E : err -> Prop).
Context (He : forall e, E e -> sane (Err (A := unit) e)) (Hrs : reads_as E rs' (fs_rs fs)).

#[local] Notation fs' := (with_reader rs' fs).
#[local] Ltac fields := cbn [with_reader fs_rs fs_size fs_sb fs_d].

Lemma readMetaBlock_cuts at_ : readMetaBlock rs' (fs_d fs) at_ ≲{E} readMetaBlock (fs_rs fs) (fs_d fs) at_.
Proof using Hrs.
  unfold readMetaBlock. apply cuts_seq; [apply cuts_read; [done|lia]|]. intros hdr.
  destruct (Z.eqb_spec (Z.ldiff (le_Uint16 hdr) metaHeaderCompressedBit) 0) as [|Hne]; cbn [orb]; [cuts|].
  destruct (_ <? _); [cuts|]. apply cuts_make. intros Hn.
  apply cuts_seq; [apply cuts_read; [done|lia]|]. cuts.
Qed.

Lemma readMetaBlockCached_cuts at_ : readMetaBlockCached fs' at_ ≲{E} readMetaBlockCached fs at_.
Proof using Hrs.
  apply cuts_GetMeta. intros [m|]; [cuts|]. apply cuts_seq; [apply readMetaBlock_cuts|cuts].
Qed.

#[local] Hint Resolve readMetaBlockCached_cuts : cuts.

Lemma load_cuts c : load fs' c ≲{E} load fs c.
Proof using Hrs. unfold load. cuts. Qed.

#[local] Hint Resolve load_cuts : cuts.

Lemma newMetaCursor_cuts start off : newMetaCursor fs' start off ≲{E} newMetaCursor fs start off.
Proof using Hrs. unfold newMetaCursor. cuts. Qed.

Lemma read_loop_cuts fuel c need : read_loop fs' fuel c need ≲{E} read_loop fs fuel c need.
Proof using Hrs.
  revert c need. induction fuel as [|fuel IH]; intros c [|need]; cbn [read_loop]; cuts.
Qed.

Lemma read_cuts c n : read fs' c n ≲{E} read fs c n.
Proof using Hrs. apply read_loop_cuts. Qed.

#[local] Hint Resolve newMetaCursor_cuts read_cuts : cuts.

Lemma readN_cuts c n : readN fs' c n ≲{E} readN fs c n.
Proof using Hrs. unfold readN. cuts. Qed.

#[local] Hint Resolve readN_cuts : cuts.

Lemma readBlockList_loop_cuts fuel n c acc :
  readBlockList_loop fs' fuel n c acc ≲{E} readBlockList_loop fs fuel n c acc.
Proof using Hrs.
  revert c acc. induction fuel as [|fuel IH]; intros c acc; cbn [readBlockList_loop]; cuts.
Qed.

#[local] Hint Resolve readBlockList_loop_cuts : cuts.

Lemma readBlockList_cuts i c bs : readBlockList fs' i c bs ≲{E} readBlockList fs i c bs.
Proof using Hrs. unfold readBlockList. cuts. Qed.

#[local] Hint Resolve readBlockList_cuts : cuts.

Lemma readInodeBody_cuts i c : readInodeBody fs' i c ≲{E} readInodeBody fs i c.
Proof using Hrs. unfold readInodeBody. fields. cuts. Qed.

#[local] Hint Resolve readInodeBody_cuts : cuts.

Lemma readInode_cuts ref : readInode fs' ref ≲{E} readInode fs ref.
Proof using Hrs. unfold readInode. fields. cuts. Qed.

#[local] Hint Resolve readInode_cuts : cuts.

Lemma readDirEntries_cuts i c remaining sb bi out :
  readDirEntries fs' i c remaining sb bi out ≲{E} readDirEntries fs i c remaining sb bi out.
Proof using Hrs.
  revert c remaining out. induction i as [|i IH]; intros c remaining out; cbn [readDirEntries]; cuts.
Qed.

#[local] Hint Resolve readDirEntries_cuts : cuts.

Lemma readDir_loop_cuts fuel c remaining out :
  readDir_loop fs' fuel c remaining out ≲{E} readDir_loop fs fuel c remaining out.
Proof using Hrs.
  revert c remaining out. induction fuel as [|fuel IH]; intros c remaining out; cbn [readDir_loop]; cuts.
Qed.

#[local] Hint Resolve readDir_loop_cuts : cuts.

Lemma readDir_cuts i : readDir fs' i ≲{E} readDir fs i.
Proof using Hrs. unfold readDir. fields. cuts. Qed.

#[local] Hint Resolve readDir_cuts : cuts.

Lemma findChild_cuts entries name : findChild fs' entries name ≲{E} findChild fs entries name.
Proof using Hrs. induction entries as [|d entries IH]; cbn [findChild]; cuts. Qed.

#[local] Hint Resolve findChild_cuts : cuts.

Lemma walk_cuts follow' follow ff cur parts :
  (forall base target, follow' base target ≲{E} follow base target) ->
  walk fs' follow' ff cur parts ≲{E} walk fs follow ff cur parts.
Proof using Hrs.
  intros Hf. revert cur. induction parts as [|name rest IH]; intros cur; cbn [walk]; fields; cuts.
Qed.

Lemma resolveFrom_cuts fuel start path ff hops :
  resolveFrom fs' fuel start path ff hops ≲{E} resolveFrom fs fuel start path ff hops.
Proof using Hrs.
  revert start path ff hops. induction fuel as [|fuel IH]; intros; cbn [resolveFrom]; cuts.
  apply walk_cuts. auto.
Qed.

#[local] Hint Resolve resolveFrom_cuts : cuts.

Lemma resolve_cuts path ff : resolve fs' path ff ≲{E} resolve fs path ff.
Proof using Hrs. unfold resolve. fields. cuts. Qed.

(** *** Attributes *)

Lemma readXattrTable_cuts : lift (readXattrTable fs') ≲{E} lift (readXattrTable fs).
Proof using Hrs.
  unfold readXattrTable, hasXattrTable. fields. destruct (negb (negb _)); [cuts|].
  destruct (Hrs (i64 (sb_XattrTableStart (fs_sb fs))) 16%nat) as [Hr|(e & HE & Hr)]; [lia|..]; rewrite Hr; [cuts|].
  apply cuts_stop. by exists e.
Qed.

Lemma readXattrIDEntry_cuts t idx : readXattrIDEntry fs' t idx ≲{E} readXattrIDEntry fs t idx.
Proof using Hrs.
  unfold readXattrIDEntry. fields. destruct (_ <=? idx); [cuts|]. destruct (_ <=? _); [cuts|].
  apply cuts_seq; [apply cuts_read; [done|lia]|]. cuts.
Qed.

Lemma readXattrValueAt_cuts t ref : readXattrValueAt fs' t ref ≲{E} readXattrValueAt fs t ref.
Proof using Hrs. unfold readXattrValueAt. cuts. Qed.

#[local] Hint Resolve readXattrTable_cuts readXattrIDEntry_cuts readXattrValueAt_cuts : cuts.

Lemma readXattrValue_cuts t c typ : readXattrValue fs' t c typ ≲{E} readXattrValue fs t c typ.
Proof using Hrs. unfold readXattrValue. cuts. Qed.

#[local] Hint Resolve readXattrValue_cuts : cuts.

Lemma readXattrPairs_loop_cuts t fuel i c budget out :
  readXattrPairs_loop fs' t fuel i c budget out ≲{E} readXattrPairs_loop fs t fuel i c budget out.
Proof using Hrs.
  revert i c budget out. induction fuel as [|fuel IH]; intros i c budget out; cbn [readXattrPairs_loop]; cuts.
Qed.

#[local] Hint Resolve readXattrPairs_loop_cuts : cuts.

Lemma inodeXattrs_cuts i : inodeXattrs fs' i ≲{E} inodeXattrs fs i.
Proof using Hrs.
  unfold inodeXattrs. change (hasXattrTable fs') with (hasXattrTable fs). unfold readXattrPairs. cuts.
Qed.

(** *** Data *)

Lemma readFragmentEntry_cuts idx : readFragmentEntry fs' idx ≲{E} readFragmentEntry fs idx.
Proof using Hrs.
  unfold readFragmentEntry. fields. destruct (_ <=? idx); [cuts|].
  apply cuts_seq; [apply cuts_read; [done|lia]|]. cuts.
Qed.

Lemma fetchBlock_cuts off n compressed :
  n <> 0 -> fetchBlock fs' off n compressed ≲{E} fetchBlock fs off n compressed.
Proof using Hrs.
  intros Hn. unfold fetchBlock. apply cuts_make. intros Hpos. fields.
  apply cuts_seq; [apply cuts_read; [done|lia]|]. cuts.
Qed.

Lemma readBlock_cuts off sz : readBlock fs' off sz ≲{E} readBlock fs off sz.
Proof using Hrs.
  unfold readBlock. destruct (blockOnDiskSize sz) as [n compressed]. fields.
  destruct (Z.eqb_spec n 0) as [|Hn]; [cuts|]. destruct (_ <? n); [cuts|].
  apply cuts_seq; [apply cuts_refl|]. intros _.
  destruct compressed; [apply cuts_GetData; intros [b|]; [cuts|]|]; by apply fetchBlock_cuts.
Qed.

#[local] Hint Resolve readFragmentEntry_cuts readBlock_cuts : cuts.

Lemma readFragment_cuts idx : readFragment fs' idx ≲{E} readFragment fs idx.
Proof using Hrs. unfold readFragment. cuts. Qed.

#[local] Hint Resolve readFragment_cuts : cuts.

Lemma readBlocks_cuts bs off remaining sizes out :
  readBlocks fs' bs off remaining sizes out ≲{E} readBlocks fs bs off remaining sizes out.
Proof using Hrs.
  revert off remaining out. induction sizes as [|sz sizes IH]; intros off remaining out; cbn [readBlocks]; cuts.
Qed.

Lemma readTail_cuts i remaining out : readTail fs' i remaining out ≲{E} readTail fs i remaining out.
Proof using Hrs. unfold readTail. cuts. Qed.

#[local] Hint Resolve readBlocks_cuts readTail_cuts : cuts.

Lemma checkBlocks_reader bs off sizes : checkBlocks fs' bs off sizes = checkBlocks fs bs off sizes.
Proof using.
  revert off. induction sizes as [|sz sizes IH]; intros off; cbn [checkBlocks]; [done|]. by rewrite !IH.
Qed.

Lemma readFileLimit_cuts `{SafeIO} i max : readFileLimit fs' i max ≲{E} readFileLimit fs i max.
Proof using Hrs.
  unfold readFileLimit, maxBytes. fields. rewrite checkBlocks_reader. cuts.
Qed.

(** *** Random access

    ReadAt delivers what it copied before the error, with the error. *)

(** Stopping with the bytes so far. *)
Definition partial (r r0 : result (list byte * option err)) : Prop :=
  exists e b, E e /\ r = Ok (b, Some e) /\ forall b0 x, r0 = Ok (b0, x) -> b `prefix_of` b0.

(** The same file behind another reader. *)
Definition refile (f : squashfsFile) : squashfsFile :=
  mkFile (with_reader rs' (f_fs f)) (f_blockOffsets f) (f_blockWords f) (f_fragIdx f) (f_fragOffset f)
    (f_size f) (f_blockSize f) (f_closed f).

Lemma readFragmentInto_cuts f want cur :
  f_fs f = fs -> readFragmentInto (refile f) want cur ≲{E} readFragmentInto f want cur.
Proof using Hrs.
  intros Hf. unfold readFragmentInto. destruct f as [g offs words fi fo size bs cl]. cbn in Hf. subst g.
  cbn [refile f_fs f_blockOffsets f_fragIdx f_fragOffset f_size f_blockSize]. cuts.
Qed.

(** The loop keeps what it has copied. *)
Definition keeps (acc : list byte) (r : result (list byte * option err)) : Prop :=
  forall b x, r = Ok (b, x) -> acc `prefix_of` b.

Lemma keeps_bind {A} acc (p : prog A) k :
  (forall a, keeps acc (uncached (k a))) -> keeps acc (uncached (p ≫= k)).
Proof using. intros Hk. rewrite uncached_bind. destruct (uncached p) as [a|]; [apply Hk|done]. Qed.

Lemma keeps_stop acc x : keeps acc (Ok (acc, x)).
Proof using. by intros b y [= <- _]. Qed.

Lemma keeps_app acc m r : keeps (acc ++ m) r -> keeps acc r.
Proof using. intros Hr b x Hb. etrans; [by apply prefix_app_r|]. by eapply Hr. Qed.

#[local] Ltac keeps IH :=
  repeat first
    [ apply keeps_bind; intros ?
    | match goal with |- keeps _ (uncached (if ?b then _ else _)) => destruct b end
    | match goal with |- keeps _ (uncached (match ?x with _ => _ end)) => destruct x end
    | apply keeps_stop
    | solve [eapply keeps_app, IH]
    | done ].

Lemma ReadAt_loop_keeps f fuel plen off acc : keeps acc (uncached (ReadAt_loop f fuel plen off acc)).
Proof using. revert acc. induction fuel as [|fuel IH]; intros acc; cbn [ReadAt_loop]; keeps IH. Qed.

Lemma ReadAt_loop_cuts f fuel plen off acc :
  f_fs f = fs -> cuts eq partial (ReadAt_loop (refile f) fuel plen off acc) (ReadAt_loop f fuel plen off acc).
Proof using Hrs He.
  intros Hf. revert acc. induction fuel as [|fuel IH]; intros acc; cbn [ReadAt_loop].
  all: cbn [refile f_fs f_blockOffsets f_blockWords f_size f_blockSize].
  all: destruct (_ <=? zlen acc); [apply cuts_refl|]; destruct (f_size f <=? _); [apply cuts_refl|].
  { apply cuts_refl. }
  assert (forall e r, E e -> keeps acc r -> partial (Ok (acc, Some e)) r) as Hpart by (intros e r; by exists e, acc).
  pose proof (ReadAt_loop_keeps f fuel plen off) as Hk.
  apply cuts_lift. intros idx. destruct (_ <=? idx).
  { eapply (cuts_attempt E); [intros e HE; split; [by apply He|reflexivity]| |by intros e x HE; apply Hpart|by apply readFragmentInto_cuts|].
    - intros e r HE. apply Hpart; [done|]. keeps Hk.
    - intros [m|x]; [apply IH|apply cuts_refl]. }
  apply cuts_lift. intros word. destruct (_ =? 0); [apply IH|].
  apply cuts_lift. intros boff. rewrite Hf.
  eapply (cuts_attempt E); [intros e HE; split; [by apply He|reflexivity]| |by intros e x HE; apply Hpart|by apply readBlock_cuts|].
  - intros e r HE. apply Hpart; [done|]. keeps Hk.
  - intros [data|x]; [|apply cuts_refl]. destruct (_ <? _); [apply cuts_refl|].
    apply cuts_lift. intros src. apply IH.
Qed.

Lemma ReadAt_cuts f plen off :
  f_fs f = fs -> cuts eq partial (squashfsFile_ReadAt (refile f) plen off) (squashfsFile_ReadAt f plen off).
Proof using Hrs He.
  intros Hf. unfold squashfsFile_ReadAt. cbn [refile f_closed f_size].
  destruct (f_closed f); [apply cuts_refl|]. destruct (off <? 0); [apply cuts_refl|].
  destruct (_ <=? off); [apply cuts_refl|]. by apply ReadAt_loop_cuts.
Qed.

Lemma newFile_cuts i : cuts (fun f' f => f_fs f = fs /\ f' = refile f) (fails E) (newFile fs' i) (newFile fs i).
Proof using.
  unfold newFile, maxBytes. fields. destruct (_ <? _); [apply cuts_err|].
  apply cuts_make. intros _. apply cuts_make. intros _. by apply cuts_ok.
Qed.

Lemma FS_OpenFile_cuts path :
  cuts (fun f' f => f_fs f = fs /\ f' = refile f) (fails E) (FS_OpenFile fs' path) (FS_OpenFile fs path).
Proof using Hrs.
  unfold FS_OpenFile. eapply cuts_bind; [by intros e ? HE; exists e|apply resolve_cuts|]. intros i ? <-.
  destruct (negb _); [apply cuts_err|apply newFile_cuts].
Qed.

(** *** Requests *)

Section requests.
Context `{SafeIO} `{FsInterface}.

(** What a call answers over the failing reader, where [r0] is its answer:
    that, or the error, or, for ReadAt, the first bytes of it and the error. *)
Definition degraded (r r0 : result response) : Prop :=
  exists e, E e /\
    (r = Err e \/
     exists b, r = Ok (AReadAt b (Some e)) /\ forall b0 x, r0 = Ok (AReadAt b0 x) -> b `prefix_of` b0).

Lemma degraded_err e r0 : E e -> degraded (Err e) r0.
Proof using. intros HE. exists e. split; [done|by left]. Qed.

#[local] Hint Resolve resolve_cuts readDir_cuts inodeXattrs_cuts readFileLimit_cuts : cuts.

(** A value made into a response. *)
Lemma cuts_respond {A} (g : A -> response) (p' p : prog A) :
  p' ≲{E} p -> cuts eq degraded (p' ≫= fun a => mret (g a)) (p ≫= fun a => mret (g a)).
Proof using.
  intros Hp. eapply cuts_bind; [apply degraded_err|exact Hp|]. intros a ? <-. apply cuts_refl.
Qed.

(** A cut call followed by a pure step. *)
Lemma cuts_partial (p' p : prog (list byte * option err)) :
  cuts eq partial p' p ->
  cuts eq degraded ('(b, x) ← p'; mret (AReadAt b x)) ('(b, x) ← p; mret (AReadAt b x)).
Proof using.
  unfold mbind, prog_bind.
  induction 1 as [r p Hr|a b Hab|x|off f' f _ IH|off m f' f _ IH|off f' f _ IH|off b f' f _ IH|n f' f _ IH];
    cbn [pbind]; try (constructor; by auto).
  - destruct Hr as (e & b & HE & -> & Hb). apply cuts_stop. exists e. split; [done|].
    right. exists b. split; [done|]. intros b0 x.
    change (pbind p ?k) with (p ≫= k). rewrite uncached_bind.
    destruct (uncached p) as [[b1 y]|]; rstep; [|done]. intros [= <- _]. by eapply Hb.
  - subst b. destruct a. apply cuts_refl.
Qed.

Lemma serve_cuts q : cuts eq degraded (serve fs' q) (serve fs q).
Proof using Hrs He.
  destruct q as [p max|p|p|p|p|p plen off|m]; cbn [serve]; [apply cuts_respond..| |].
  - unfold FS_ReadFileLimit. cuts.
  - unfold FS_ListDir. cuts.
  - unfold FS_Stat. cuts.
  - unfold FS_Xattrs. cuts.
  - unfold FS_ReadLink. cuts.
  - eapply cuts_bind; [apply degraded_err|apply FS_OpenFile_cuts|]. intros ? f [Hf ->].
    by apply cuts_partial, ReadAt_cuts.
  - apply cuts_refl.
Qed.

End requests.
End functions.

(** ** Handles on readers that fail *)

(** The two readers read alike. *)
Definition same_reads (rs' rs : ReaderAt) : Prop :=
  forall off n, (0 < n)%nat -> ReadAt rs' off n = ReadAt rs off n.

Lemma same_reads_as E rs' rs : same_reads rs' rs -> reads_as E rs' rs.
Proof. intros Hrs off n Hn. left. by apply Hrs. Qed.

Lemma reads_as_refl E rs : reads_as E rs rs.
Proof. by apply same_reads_as. Qed.

(** Opening reads the superblock and the options. *)
Lemma readSuperblock_reads E rs' rs sb :
  reads_as E rs' rs -> readSuperblock rs = Ok sb ->
  readSuperblock rs' = Ok sb \/ exists e, E e /\ readSuperblock rs' = Err e.
Proof.
  intros Hrs. unfold readSuperblock.
  destruct (Hrs 0 superblockSize) as [Hr|(e & He & Hr)]; [unfold superblockSize; lia|..]; rewrite Hr; [by left|].
  right. by exists e.
Qed.

Lemma readCompressorOptions_reads E rs' rs sb :
  reads_as E rs' rs -> readCompressorOptions rs sb = Ok tt ->
  readCompressorOptions rs' sb = Ok tt \/ exists e, E e /\ readCompressorOptions rs' sb = Err e.
Proof.
  intros Hrs. unfold readCompressorOptions. destruct (_ =? 0); [by left|].
  destruct (Hrs (Z.of_nat superblockSize) 2%nat) as [Hr|(e & He & Hr)]; [lia|..]; rewrite Hr;
    [|right; by exists e].
  destruct (ReadAt rs (Z.of_nat superblockSize) 2) as [hdr|]; rstep; [|done].
  pose proof (metaHeader_stored _ (le_Uint16_range hdr)) as Hst. unfold metaHeaderCompressedBit in Hst.
  destruct (Z.eqb_spec (Z.ldiff (le_Uint16 hdr) 0x8000) 0) as [|Hne]; [done|]. destruct (_ || _); [done|].
  match goal with |- context [ReadAt rs ?o ?n] =>
    destruct (Hrs o n) as [Hr2|(e & He & Hr2)]; [lia|..]; rewrite Hr2; [by left|right; by exists e] end.
Qed.

Lemma Open_reads E rs' rs size fs :
  reads_as E rs' rs -> Open rs size = Ok fs ->
  Open rs' size = Ok (with_reader rs' fs) \/ exists e, E e /\ Open rs' size = Err e.
Proof.
  intros Hrs. unfold Open. destruct (readSuperblock rs) as [sb|] eqn:Hsb; rstep; [|done].
  destruct (readSuperblock_reads E rs' rs sb Hrs Hsb) as [->|(e & He & ->)]; rstep; [|by right; exists e].
  destruct (newDecompressor _) as [d|]; rstep; [|done].
  destruct (readCompressorOptions rs sb) as [[]|] eqn:Ho; rstep; [|done]. intros [= <-].
  destruct (readCompressorOptions_reads E rs' rs sb Hrs Ho) as [->|(e & He & ->)]; [by left|by right; exists e].
Qed.

Section handles.
Context `{CodecLib} `{SafeIO} `{FsInterface}.

(** Readers that read alike are served alike, with the same cache after. *)
Lemma serve_same fs rs' q c :
  same_reads rs' (fs_rs fs) -> exec (serve (with_reader rs' fs) q) c = exec (serve fs q) c.
Proof using.
  intros Hrs. apply (cuts_exec (degraded (fun _ => False))); [by intros r r0 (e & [] & _)|].
  apply serve_cuts; [done|]. by apply same_reads_as.
Qed.

Lemma serve_all_same fs rs' qs c :
  same_reads rs' (fs_rs fs) -> serve_all (with_reader rs' fs) qs c = serve_all fs qs c.
Proof using.
  intros Hrs. revert c. induction qs as [|q qs IH]; intros c; cbn [serve_all]; [done|].
  rewrite serve_same by done. destruct (exec (serve fs q) c) as [r c']. by rewrite IH.
Qed.

(** Nothing cached and nothing to be read: no call gets past the root. *)
Lemma exec_bind_err {A B} (p : prog A) (k : A -> prog B) c c' e :
  exec p c = (Err e, c') -> exec (p ≫= k) c = (Err e, c').
Proof using.
  unfold mbind, prog_bind. revert c.
  induction p as [r|off f IH|off m f IH|off f IH|off b f IH|n f IH]; intros c; cbn [exec pbind]; auto.
  - intros [= -> ->]. done.
  - destruct (_ <? _); [by intros [= -> ->]|apply IH].
Qed.

(** Where every call begins: the metadata block of the root inode. *)
Definition rootBlock (fs : FS) : Z :=
  i64 (i64 (sb_InodeTableStart (fs_sb fs)) + fst (inodeRef (sb_RootInode (fs_sb fs)))).

Lemma resolve_unread fs rs e path ff :
  ReadAt rs (rootBlock fs) 2 = Err e ->
  exec (resolve (with_reader rs fs) path ff) (Some newBlockCache) = (Err e, Some newBlockCache).
Proof using.
  unfold rootBlock. intros Hrs. unfold resolve. apply exec_bind_err. unfold readInode.
  cbn [with_reader fs_sb] in *. destruct (inodeRef _) as [bo ib]. apply exec_bind_err. unfold newMetaCursor, load.
  do 2 apply exec_bind_err. unfold readMetaBlockCached. cbn [exec].
  replace (getMeta (Some newBlockCache) _) with (@None metaEntry) by (symmetry; apply lookup_empty).
  apply exec_bind_err. unfold readMetaBlock. apply exec_bind_err. cbn [with_reader fs_rs fs_sb mc_next lift exec fst] in *.
  by rewrite Hrs.
Qed.

Lemma serve_unread fs rs e q :
  ReadAt rs (rootBlock fs) 2 = Err e -> (forall m, q <> QMutate m) ->
  fst (exec (serve (with_reader rs fs) q) (Some newBlockCache)) = Err e.
Proof using.
  intros Hrs Hq. assert (forall path ff, exec (resolve (with_reader rs fs) path ff) (Some newBlockCache) =
    (Err e, Some newBlockCache)) as Hres by (intros; by apply resolve_unread).
  destruct q as [p max|p|p|p|p|p plen off|m]; [..|by destruct (Hq m)]; cbn [serve].
  all: by erewrite exec_bind_err by (apply exec_bind_err, Hres).
Qed.

Section faults.
Context {safeio : SafeIOLaws} (fs : FS) (wf : sb_wf (fs_sb fs)).
Context (W : Z -> Z -> Prop) (HW : functional W).

(** A call over a reader of its own. *)
Record faulty_call := mkFaulty {
  fc_errs : err -> Prop;   (* the errors its reader may fail with *)
  fc_reader : ReaderAt;
  fc_request : request
}.

Definition fault_ok (fc : faulty_call) : Prop :=
  (forall e, fc_errs fc e -> sane (Err (A := unit) e)) /\ reads_as (fc_errs fc) (fc_reader fc) (fs_rs fs).

Definition faulty_ok (fc : faulty_call) : Prop :=
  (forall e, fc_errs fc e -> sane (Err (A := unit) e)) /\
  reads_as (fc_errs fc) (fc_reader fc) (fs_rs fs) /\ names_ok W fs (fc_request fc).

Definition serve_faulty (fc : faulty_call) : prog response :=
  serve (with_reader (fc_reader fc) fs) (fc_request fc).

(** What it answers: the answer of the image, or that cut short. *)
Definition faulty_answer (fc : faulty_call) (r : result response) : Prop :=
  let r0 := uncached (serve fs (fc_request fc)) in r = r0 \/ degraded (fc_errs fc) r r0.

Lemma serve_faulty_ok fc :
  faulty_ok fc -> wp (okMeta fs) (okData W fs) any_size (serve_faulty fc) (faulty_answer fc).
Proof using safeio wf HW.
  intros (He & Hrs & Hn). eapply wp_mono; [|eapply cuts_wp; [by apply (serve_cuts fs _ (fc_errs fc))|]].
  2: by apply (serve_transparent fs wf W HW).
  cbv beta. intros r (r0 & -> & Hr). done.
Qed.

(** Calls at the same time, each over its reader. *)
Lemma serve_faulty_pool fcs ts c :
  Forall faulty_ok fcs -> rtc pool_step (serve_faulty <$> fcs, Some newBlockCache) (ts, c) ->
  (forall i fc r, fcs !! i = Some fc -> ts !! i = Some (Ret r) -> faulty_answer fc r) /\
  cache_ok (okMeta fs) (okData W fs) c.
Proof using safeio wf HW.
  intros Hfcs Hsteps.
  assert (pool_ok (okMeta fs) (okData W fs) any_size (faulty_answer <$> fcs) (serve_faulty <$> fcs) (Some newBlockCache)) as Hok.
  { split; [|split; [apply cache_ok_new|apply cache_wf_new]].
    apply Forall2_fmap_2, Forall_Forall2_diag. eapply Forall_impl; [exact Hfcs|]. apply serve_faulty_ok. }
  split.
  - intros i fc r Hfc Hr. apply (pool_result _ _ _ _ _ _ ts c i r (faulty_answer fc) Hok Hsteps Hr).
    by rewrite list_lookup_fmap, Hfc.
  - apply (pool_reachable_ok _ _ _ _ _ _ Hsteps) in Hok. apply Hok.
Qed.

(** On any image, names_ok or not: an answer within its bounds, or one cut
    short by an error of the reader. *)
Definition faulty_bounded (fc : faulty_call) (r : result response) : Prop :=
  sane r /\ (response_ok (fc_request fc) r \/
    exists e, fc_errs fc e /\ (r = Err e \/ exists b, r = Ok (AReadAt b (Some e)))).

Lemma serve_faulty_safe `{!CodecLaws} fc :
  fault_ok fc -> request_ok (fc_request fc) ->
  wp (okMeta fs) (okBlock fs) any_size (serve_faulty fc) (faulty_bounded fc).
Proof using safeio wf.
  intros [He Hrs] Hq. eapply wp_mono; [|eapply cuts_wp; [by apply (serve_cuts fs _ (fc_errs fc))|]].
  2: { eapply wp_okA_mono; [|exact (serve_safe fs wf _ Hq)]. done. }
  cbv beta. intros r (r0 & Hr0 & [->|(e & HE & Hr)]); unfold faulty_bounded.
  - split; [apply Hr0|by left].
  - split; [|right; exists e; split; [done|]; destruct Hr as [->|(b & -> & _)]; eauto].
    destruct Hr as [->|(b & -> & _)]; [by eapply sane_err, He|done].
Qed.

End faults.
End handles.
