(* ===== verification/FileCalls.v ===== *)
(** * Calls on one open file (src/openfile.go)

    A File is shared by the goroutines that hold it: ReadAt calls overlap, and
    Close may come at any moment.  The one field that changes is the atomic
    closed flag; ReadAt loads it once, first.  A pool holds the calls on one
    file together with calls on its FS, which share the block cache: a call
    that has not begun ([Waiting]) begins with one step that loads or stores
    the flag, and goes on ([Running]) one effect at a time.  The state is the
    file as it is now and the cache. *)

From S2P Require Export Concurrency.

#[local] Open Scope Z_scope.

Inductive fileCall :=
| CReadAt (plen off : Z)
| CSize
| CClose
| CServe (q : request).   (* a call on the FS the file came from *)

Section calls.
Context `{CodecLib} `{SafeIO} `{FsInterface}.

Inductive fileAnswer :=
| FRead (b : list byte) (e : option err)
| FSize (n : Z)
| FClosed
| FServed (r : response).

(** Begin a call: what is left of it, and the file after its first step. *)
Definition begin (f : squashfsFile) (q : fileCall) : prog fileAnswer * squashfsFile :=
  match q with
  | CReadAt plen off => ('(b, e) ← squashfsFile_ReadAt f plen off; mret (FRead b e), f)
  | CSize => (mret (FSize (squashfsFile_Size f)), f)
  | CClose => (mret FClosed, squashfsFile_Close f)
  | CServe q => (r ← serve (f_fs f) q; mret (FServed r), f)
  end.

Inductive caller :=
| Waiting (q : fileCall)
| Running (p : prog fileAnswer).

Record fileState := mkState {
  st_callers : list caller;
  st_file : squashfsFile;
  st_cache : option blockCache
}.

Inductive file_step : fileState -> fileState -> Prop :=
| file_begin ts f c i q :
    ts !! i = Some (Waiting q) ->
    file_step (mkState ts f c) (mkState (<[i:=Running (fst (begin f q))]> ts) (snd (begin f q)) c)
| file_run ts f c i p p' c' :
    ts !! i = Some (Running p) -> pstep p c = Some (p', c') ->
    file_step (mkState ts f c) (mkState (<[i:=Running p']> ts) f c').

(** Nothing has begun. *)
Definition file_start (f : squashfsFile) (qs : list fileCall) (c : option blockCache) : fileState :=
  mkState (Waiting <$> qs) f c.

(** A scheduler, as [run_schedule]. *)
Definition file_next (s : fileState) (i : nat) : option fileState :=
  t ← st_callers s !! i;
  match t with
  | Waiting q =>
      Some (mkState (<[i:=Running (fst (begin (st_file s) q))]> (st_callers s)) (snd (begin (st_file s) q)) (st_cache s))
  | Running p =>
      '(p', c') ← pstep p (st_cache s);
      Some (mkState (<[i:=Running p']> (st_callers s)) (st_file s) c')
  end.

Fixpoint run_files (sched : list nat) (s : fileState) : fileState :=
  match sched with
  | [] => s
  | i :: sched => run_files sched (default s (file_next s i))
  end.

Lemma file_next_step s i s' : file_next s i = Some s' -> file_step s s'.
Proof using.
  destruct s as [ts f c]. unfold file_next. cbn [st_callers st_file st_cache].
  destruct (ts !! i) as [[q|p]|] eqn:Hi; cbn [mbind option_bind]; [| |done].
  - intros [= <-]. by apply file_begin.
  - destruct (pstep p c) as [[p' c']|] eqn:Hp; [|done]. intros [= <-]. by eapply file_run.
Qed.

Lemma run_files_steps sched s : rtc file_step s (run_files sched s).
Proof using.
  revert s. induction sched as [|i sched IH]; intros s; cbn [run_files]; [done|].
  destruct (file_next s i) as [s'|] eqn:E; cbn [default]; [|apply IH].
  eapply rtc_l; [by eapply file_next_step|apply IH].
Qed.

(** ** Calls one at a time *)

(** What a call gives run alone on [f], with no cache. *)
Definition at_once (f : squashfsFile) (q : fileCall) : result fileAnswer := uncached (fst (begin f q)).

Definition closes (q : fileCall) : bool := match q with CClose => true | _ => false end.

(** The file [f], closed or not. *)
Definition file_at (f : squashfsFile) (b : bool) : squashfsFile := if b then squashfsFile_Close f else f.

Lemma begin_file f b q : snd (begin (file_at f b) q) = file_at f (b || closes q).
Proof using. by destruct q, b. Qed.

Lemma at_once_closed_read f plen off :
  at_once (squashfsFile_Close f) (CReadAt plen off) = Ok (FRead [] (Some ErrClosed)).
Proof using. done. Qed.

(** The calls that Close does not touch. *)
Lemma at_once_other f b q :
  match q with CReadAt _ _ => False | _ => True end -> at_once (file_at f b) q = at_once f q.
Proof using. by destruct q, b. Qed.

(** ** The invariant *)

(** A specification of a call's result: what it may be once the file is in a
    given state; closing the file never takes an answer away. *)
Definition spec := bool -> result fileAnswer -> Prop.
Definition grows (Q : spec) : Prop := forall r, Q false r -> Q true r.

Section invariance.
Context (okM : Z -> metaEntry -> Prop) (okD : Z -> list byte -> Prop) (okA : Z -> Prop).
Context (f : squashfsFile).

#[local] Notation wp := (wp okM okD okA).

Definition caller_ok (b : bool) (Q : spec) (t : caller) : Prop :=
  match t with
  | Waiting q =>
      forall b', (b = true -> b' = true) -> wp (fst (begin (file_at f b') q)) (Q (b' || closes q))
  | Running p => wp p (Q b)
  end.

Definition state_ok (Qs : list spec) (b : bool) (s : fileState) : Prop :=
  st_file s = file_at f b /\ Forall2 (caller_ok b) Qs (st_callers s) /\
  cache_ok okM okD (st_cache s) /\ cache_wf_opt (st_cache s).

Lemma caller_ok_later b b' Q t : grows Q -> (b = true -> b' = true) -> caller_ok b Q t -> caller_ok b' Q t.
Proof using.
  intros HQ Hb. destruct t as [q|p]; cbn.
  - intros Hq b'' Hb''. apply Hq. auto.
  - apply wp_mono. intros r. destruct b, b'; auto. by specialize (Hb eq_refl).
Qed.

Lemma file_step_ok Qs b s s' :
  Forall grows Qs -> state_ok Qs b s -> file_step s s' ->
  exists b', (b = true -> b' = true) /\ state_ok Qs b' s'.
Proof using.
  intros Hgrow (Hf & Hts & Hc & Hwf) Hstep.
  destruct Hstep as [ts g c i q Hi|ts g c i p p' c' Hi Hp]; cbn [st_file st_callers st_cache] in *; subst g.
  all: destruct (Forall2_lookup_r _ _ _ _ _ Hts Hi) as (Q & HQ & Ht).
  - exists (b || closes q). assert (b = true -> b || closes q = true) as Hb by (by intros ->). split; [done|].
    split_and!; [apply begin_file| |done|done]. cbn [st_callers].
    rewrite <- (list_insert_id Qs i Q HQ). apply Forall2_insert; [|by apply Ht].
    apply Forall2_same_length_lookup_2; [by eapply Forall2_length|]. intros k Q' t HQ' Hk.
    eapply caller_ok_later; [|done|exact (Forall2_lookup_lr _ _ _ _ _ _ Hts HQ' Hk)].
    rewrite Forall_lookup in Hgrow. eauto.
  - exists b. split; [done|]. destruct (pstep_wp okM okD okA p p' c c' _ Ht Hc Hp) as [Hp' Hc'].
    split_and!; [done| |done|by eapply pstep_cache_wf]. cbn [st_callers].
    rewrite <- (list_insert_id Qs i Q HQ). by apply Forall2_insert.
Qed.

Lemma file_reachable_ok Qs b s s' :
  Forall grows Qs -> rtc file_step s s' -> state_ok Qs b s ->
  exists b', (b = true -> b' = true) /\ state_ok Qs b' s'.
Proof using.
  intros Hgrow Hsteps. revert b. induction Hsteps as [s|s s1 s' Hstep _ IH]; intros b Hok; [by exists b|].
  destruct (file_step_ok _ _ _ _ Hgrow Hok Hstep) as (b1 & Hb1 & Hok1).
  destruct (IH _ Hok1) as (b' & Hb' & Hok'). exists b'. auto.
Qed.

(** A call that has returned meets its specification. *)
Lemma state_result Qs b s i Q r :
  state_ok Qs b s -> Qs !! i = Some Q -> st_callers s !! i = Some (Running (Ret r)) -> Q b r.
Proof using. intros (_ & Hts & _) HQ Hr. exact (Forall2_lookup_lr _ _ _ _ _ _ Hts HQ Hr). Qed.

End invariance.

(** ** Every schedule ends *)

Definition caller_down (t' t : caller) : Prop :=
  match t, t' with
  | Waiting _, Running _ => True
  | Running p, Running p' => remains p' p
  | _, _ => False
  end.

Lemma caller_down_wf : well_founded caller_down.
Proof using.
  assert (forall p, Acc caller_down (Running p)) as Hrun.
  { intros p. induction (remains_wf p) as [p _ IH]. constructor. intros [q|p'] Hp; [done|]. by apply IH. }
  intros [q|p]; [|apply Hrun]. constructor. intros [q'|p] Hp; [done|apply Hrun].
Qed.

Lemma file_terminates s : Acc (flip file_step) s.
Proof using.
  destruct s as [ts f c]. revert f c. induction (one_down_wf _ caller_down_wf ts) as [ts _ IH].
  intros f c. constructor. intros s' Hstep. unfold flip in Hstep.
  inversion Hstep as [? ? ? i q Hi|? ? ? i p p' c' Hi Hp]; subst; apply IH; eexists _, _, _;
    (split_and!; [exact Hi| |done]); [done|by exists c, c'].
Qed.

(** A pool that cannot step has returned everywhere. *)
Lemma file_progress s :
  (forall s', ~ file_step s s') -> Forall (fun t => exists r, t = Running (Ret r)) (st_callers s).
Proof using.
  destruct s as [ts f c]. intros Hstuck. apply Forall_lookup. intros i [q|p] Hi.
  { exfalso. eapply Hstuck. by apply file_begin. }
  destruct (pstep p c) as [[p' c']|] eqn:E; [exfalso; eapply Hstuck; by eapply file_run|].
  destruct p; try done. by eexists.
Qed.

(** ** Close and the calls that have begun *)

(** A Close among the calls has begun. *)
Definition close_begun (qs : list fileCall) (s : fileState) : Prop :=
  exists i p, qs !! i = Some CClose /\ st_callers s !! i = Some (Running p).

(** [s] was reached from calls [qs] on [f]: those that wait are still the
    calls they were, and the file is closed only when a Close has begun. *)
Definition begun (qs : list fileCall) (s : fileState) : Prop :=
  (forall i q, st_callers s !! i = Some (Waiting q) -> qs !! i = Some q) /\
  length (st_callers s) = length qs /\
  (f_closed (st_file s) = true -> close_begun qs s).

Lemma begun_step qs s s' : begun qs s -> file_step s s' -> begun qs s'.
Proof using.
  intros (Hw & Hlen & Hc) Hstep.
  assert (forall (ts : list caller) i t p, ts !! i = Some t ->
    (exists j p', qs !! j = Some CClose /\ ts !! j = Some (Running p')) ->
    exists j p', qs !! j = Some CClose /\ <[i:=Running p]> ts !! j = Some (Running p')) as Hkeep.
  { intros ts i t p Hi (j & p' & Hj & Hp'). exists j. destruct (decide (i = j)) as [->|Hne].
    - exists p. rewrite list_lookup_insert_eq by (by eapply lookup_lt_Some). done.
    - exists p'. by rewrite list_lookup_insert_ne. }
  destruct Hstep as [ts g c i q Hi|ts g c i p p' c' Hi Hp]; unfold begun, close_begun in *; cbn [st_file st_callers] in *;
    rewrite length_insert; (split_and!; [|done|]).
  1,3: intros k q' Hk; destruct (decide (i = k)) as [->|Hne];
    [rewrite list_lookup_insert_eq in Hk by (by eapply lookup_lt_Some); discriminate Hk|
     rewrite list_lookup_insert_ne in Hk by done; auto].
  - destruct q; cbn [begin snd]; intros Hcl; eauto. exists i, (mret FClosed).
    rewrite list_lookup_insert_eq by (by eapply lookup_lt_Some). auto.
  - eauto.
Qed.

Lemma begun_start f qs c : f_closed f = false -> begun qs (file_start f qs c).
Proof using.
  intros Hf. unfold begun, file_start. cbn. rewrite length_fmap. split_and!; [|done|by rewrite Hf].
  intros i q. rewrite list_lookup_fmap. destruct (qs !! i); [|done]. by intros [= ->].
Qed.

Lemma begun_reachable qs s s' : rtc file_step s s' -> begun qs s -> begun qs s'.
Proof using. induction 1; eauto using begun_step. Qed.

(** ** Answers, when no block has two lengths *)

Section transparency.
Context {safeio : SafeIOLaws} (fs : FS) (wf : sb_wf (fs_sb fs)).
Context (W : Z -> Z -> Prop) (HW : functional W).
Context (i : inode) (f : squashfsFile) (Hi : inode_wf i) (Hf : file_of fs i f) (Hag : agrees_file W fs i).

#[local] Notation state_ok := (state_ok (okMeta fs) (okData W fs) any_size f).
#[local] Notation caller_ok := (caller_ok (okMeta fs) (okData W fs) any_size f).

Definition call_ok (q : fileCall) : Prop := match q with CServe q => names_ok W fs q | _ => True end.

Lemma begin_at_once b q :
  call_ok q -> wp (okMeta fs) (okData W fs) any_size (fst (begin (file_at f b) q))
    (fun r => r = at_once (file_at f b) q).
Proof using safeio wf HW Hi Hf Hag.
  intros Hq. change (transparent (okMeta fs) (okData W fs) any_size (fst (begin (file_at f b) q))).
  destruct q as [plen off| | |q]; cbn [begin fst]; [|transp..|].
  - apply transparent_bind; [|intros [? ?] _; apply transparent_mret].
    destruct b; [apply transparent_ret|]. by apply (ReadAt_transparent fs wf W HW any_size) with (i := i).
  - apply transparent_bind; [|intros ? _; apply transparent_mret].
    assert (f_fs (file_at f b) = fs) as -> by (destruct b; apply Hf). by apply serve_transparent with (W := W).
Qed.

(** What a call's answer may be: that of the file as it was when it began. *)
Definition answers (q : fileCall) : spec := fun b r =>
  (r = at_once f q /\ (closes q = true -> b = true)) \/ (b = true /\ r = at_once (squashfsFile_Close f) q).

Lemma answers_grows q : grows (answers q).
Proof using. intros r [[Hr Hb]|[? _]]; [left|done]. split; [done|]. by intros ?%Hb. Qed.

Lemma answers_grow qs : Forall grows (answers <$> qs).
Proof using. apply Forall_fmap, Forall_true. apply answers_grows. Qed.

Lemma caller_ok_start q : call_ok q -> caller_ok false (answers q) (Waiting q).
Proof using safeio wf HW Hi Hf Hag.
  intros Hq b' _. eapply wp_mono; [|by apply begin_at_once]. intros r ->.
  destruct b'; [by right|]. left. by split.
Qed.

Lemma state_ok_start qs :
  Forall call_ok qs -> state_ok (answers <$> qs) false (file_start f qs (Some newBlockCache)).
Proof using safeio wf HW Hi Hf Hag.
  intros Hqs. split_and!; [done| |apply cache_ok_new|apply cache_wf_new]. cbn [st_callers file_start].
  apply Forall2_fmap, Forall_Forall2_diag. eapply Forall_impl; [exact Hqs|]. apply caller_ok_start.
Qed.

Lemma file_reached qs s :
  Forall call_ok qs -> rtc file_step (file_start f qs (Some newBlockCache)) s ->
  exists b, state_ok (answers <$> qs) b s.
Proof using safeio wf HW Hi Hf Hag.
  intros Hqs Hsteps.
  destruct (file_reachable_ok (okMeta fs) (okData W fs) any_size f _ _ _ _ (answers_grow qs) Hsteps
    (state_ok_start qs Hqs)) as (b & _ & Hb). by exists b.
Qed.

(** The file is closed exactly when a Close has begun. *)
Lemma file_closed qs b s :
  state_ok (answers <$> qs) b s -> begun qs s -> b = true <-> close_begun qs s.
Proof using Hf.
  intros (Hfile & Hts & _) (_ & _ & Hcl). split.
  - intros ->. apply Hcl. by rewrite Hfile.
  - intros (k & p & Hq & Hp). assert ((answers <$> qs) !! k = Some (answers CClose)) as HQ.
    { by rewrite list_lookup_fmap, Hq. }
    pose proof (Forall2_lookup_lr _ _ _ _ _ _ Hts HQ Hp) as Hwp. cbn in Hwp.
    apply wp_uncached in Hwp as [[_ Hb]|[Hb _]]; auto.
Qed.

(** From a state on, a call whose specification is now [Q] gives [Q]. *)
Lemma file_later qs s s' b k (Q : result fileAnswer -> Prop) r t :
  state_ok (answers <$> qs) b s -> st_callers s !! k = Some t -> caller_ok b (fun _ => Q) t ->
  rtc file_step s s' -> st_callers s' !! k = Some (Running (Ret r)) -> Q r.
Proof using.
  intros (Hfile & Hts & Hc & Hwf) Hk Ht Hsteps Hr.
  assert (state_ok (<[k:=fun _ => Q]> (answers <$> qs)) b s) as Hok.
  { split_and!; [done| |done|done]. rewrite <- (list_insert_id _ _ _ Hk). by apply Forall2_insert. }
  assert (Forall grows (<[k:=fun _ => Q]> (answers <$> qs))) as Hgrow by (apply Forall_insert; [apply answers_grow|by intros ?]).
  destruct (file_reachable_ok (okMeta fs) (okData W fs) any_size f _ _ _ _ Hgrow Hsteps Hok) as (b' & _ & Hb').
  apply (state_result _ _ _ _ _ _ _ k (fun _ => Q) _ Hb'); [|done].
  apply lookup_lt_Some in Hk. rewrite <- (Forall2_length _ _ _ Hts) in Hk. by apply list_lookup_insert_eq.
Qed.

End transparency.
End calls.
