(* ===== verification/Host.v ===== *)
(** * The host system, and images opened from it (src/fs.go)

    BuildFromDir and OpenFile call package os.  [HostOS] is what they see of
    it: the state of the host, the calls on paths, and the open files, each
    with the reader it gives.  A call takes the state of the host and, when it
    can change it, returns the next one.  [HostLaws] is what the calls
    document.  [FSHandle] is the FS value with the closer that Open finds on its
    reader; everything the read methods use of it is [h_fs].  The reader of an
    open file is whatever the host now has behind it ([handle_at]). *)

From S2P Require Export Faults.

#[local] Open Scope Z_scope.

Class HostOS := {
  host : Type;
  os_Lstat : host -> list byte -> result Z;                     (* the FileMode *)
  os_ReadDir : host -> list byte -> result (list (list byte));  (* the names *)
  os_Readlink : host -> list byte -> result (list byte);
  os_ReadFile : host -> list byte -> result (list byte);
  os_WriteFile : host -> list byte -> list byte -> Z -> host * option err;
  os_Open : host -> list byte -> host * result Z;               (* the open file *)
  os_File_Size : host -> Z -> result Z;                         (* f.Stat(), Size() *)
  os_File : host -> Z -> ReaderAt;                              (* f.ReadAt *)
  os_Close : host -> Z -> host * option err;                    (* f.Close() *)
  os_files : host -> gset Z                                     (* the open files *)
}.

(** A name the host can give an entry of a directory. *)
Definition hostname (s : list byte) : Prop := component s /\ s <> [dot; dot].

Class HostLaws `{HostOS} : Prop := {
  os_Lstat_sane : forall h p, sane (os_Lstat h p);
  os_ReadDir_sane : forall h p, sane (os_ReadDir h p);
  os_Readlink_sane : forall h p, sane (os_Readlink h p);
  os_ReadFile_sane : forall h p, sane (os_ReadFile h p);
  os_File_Size_sane : forall h f, sane (os_File_Size h f);
  os_Open_sane : forall h p, sane (snd (os_Open h p));
  (* ReadDir lists each entry once, without "." and "..". *)
  os_ReadDir_names : forall h p names,
    os_ReadDir h p = Ok names -> NoDup names /\ Forall hostname names;
  (* Open opens one more file or none; Close closes the one it is called on,
     and refuses one that is not open. *)
  os_Open_files : forall h p h' f,
    os_Open h p = (h', Ok f) -> f ∉ os_files h /\ os_files h' = {[f]} ∪ os_files h;
  os_Open_fails : forall h p h' e, os_Open h p = (h', Err e) -> os_files h' = os_files h;
  os_Close_files : forall h f, os_files (fst (os_Close h f)) = os_files h ∖ {[f]};
  os_Close_closed : forall h f, f ∉ os_files h -> os_Close h f = (h, Some ErrClosed);
  (* A negative offset is refused before the file is looked at; a file that
     is not open cannot be read. *)
  os_File_negative : forall h f off n, off < 0 -> ReadAt (os_File h f) off n = Err ErrIO;
  os_File_closed : forall h f off n,
    f ∉ os_files h -> 0 <= off -> (0 < n)%nat -> ReadAt (os_File h f) off n = Err ErrClosed;
  (* A file written and then opened reads as what was written. *)
  os_WriteFile_Open : forall h p b perm h1 h2 f,
    os_WriteFile h p b perm = (h1, None) -> os_Open h1 p = (h2, Ok f) ->
    os_File_Size h2 f = Ok (zlen b) /\ same_reads (os_File h2 f) (bytes_Reader b)
}.

(** ** Handles on host files *)

Record FSHandle := mkFSHandle {
  h_fs : FS;
  h_closer : option Z   (* the open file that is also an io.Closer *)
}.

Section host.
Context `{HostOS}.

(** Open on a reader that is an io.Closer ([Some f]) or not. *)
Definition OpenCloser (rs : ReaderAt) (closer : option Z) (size : Z) : result FSHandle :=
  fs ← Open rs size;
  Ok (mkFSHandle fs closer).

Definition OpenFile (h : host) (path : list byte) : host * result FSHandle :=
  let '(h, r) := os_Open h path in
  match r with
  | Err e => (h, Err e)
  | Ok f =>
      match os_File_Size h f with
      | Err e => (fst (os_Close h f), Err e)
      | Ok size =>
          match OpenCloser (os_File h f) (Some f) size with
          | Err e => (fst (os_Close h f), Err e)
          | Ok fs => (h, Ok fs)
          end
      end
  end.

Definition FS_Superblock (fs : FSHandle) : Superblock := fs_sb (h_fs fs).

Definition FS_Close (h : host) (fs : FSHandle) : host * option err :=
  match h_closer fs with
  | Some f => os_Close h f
  | None => (h, None)
  end.

(** The FS of a handle, reading its file as it is now. *)
Definition handle_at (h : host) (fs : FSHandle) : FS :=
  match h_closer fs with
  | Some f => with_reader (os_File h f) (h_fs fs)
  | None => h_fs fs
  end.

(** ** What OpenFile leaves open *)

Lemma OpenCloser_inv rs closer size fs :
  OpenCloser rs closer size = Ok fs -> Open rs size = Ok (h_fs fs) /\ h_closer fs = closer.
Proof using.
  unfold OpenCloser. destruct (Open rs size); rstep; [|done]. by intros <-%Ok_inj.
Qed.

Lemma OpenCloser_sane rs closer size : sane (OpenCloser rs closer size).
Proof using. apply sane_bind; [apply Open_sane|done]. Qed.

Section laws.
Context {laws : HostLaws}.

Lemma OpenFile_inv h path h' fs :
  OpenFile h path = (h', Ok fs) ->
  exists f size, os_Open h path = (h', Ok f) /\ os_File_Size h' f = Ok size /\
    Open (os_File h' f) size = Ok (h_fs fs) /\ h_closer fs = Some f.
Proof using.
  unfold OpenFile. destruct (os_Open h path) as [h1 [f|]] eqn:Ho; [|done].
  destruct (os_File_Size h1 f) as [size|] eqn:Hs; [|done].
  destruct (OpenCloser _ _ _) as [fs'|] eqn:Hf; [|done]. intros [= <- <-].
  apply OpenCloser_inv in Hf as [Hf Hc]. by exists f, size.
Qed.

(** Closing the file just opened leaves the open files as they were. *)
Lemma close_opened h path h1 f :
  os_Open h path = (h1, Ok f) -> os_files (fst (os_Close h1 f)) = os_files h.
Proof using laws.
  intros [Hnew Hf]%os_Open_files. rewrite os_Close_files, Hf. set_solver.
Qed.

(** What a closed file answers to a read of some bytes. *)
Definition closed_err (off : Z) : err := if off <? 0 then ErrIO else ErrClosed.

(** Once closed, the handle reads nothing; and where it fails with another
    error than os.ErrClosed, the open file failed with it, too. *)
Lemma closed_reads h path h1 fs h2 :
  OpenFile h path = (h1, Ok fs) -> fst (FS_Close h1 fs) = h2 ->
  exists rs, handle_at h2 fs = with_reader rs (h_fs fs) /\
    (forall off n, (0 < n)%nat -> ReadAt rs off n = Err (closed_err off)) /\
    reads_as (fun e => e = ErrClosed) rs (fs_rs (h_fs fs)).
Proof using laws.
  intros (f & size & Hf & _ & Ho & Hc)%OpenFile_inv. unfold FS_Close, handle_at. rewrite Hc. intros <-.
  destruct (Open_inv _ _ _ Ho) as (_ & _ & -> & _). set (h2 := fst (os_Close h1 f)).
  assert (forall off n, (0 < n)%nat -> ReadAt (os_File h2 f) off n = Err (closed_err off)) as Hrs.
  { intros off n Hn. unfold closed_err. destruct (Z.ltb_spec off 0); [by apply os_File_negative|].
    apply os_File_closed; [unfold h2; rewrite os_Close_files; set_solver|done..]. }
  exists (os_File h2 f). split_and!; [done|done|]. intros off n Hn. rewrite (Hrs off n Hn). unfold closed_err.
  destruct (Z.ltb_spec off 0); [left; by rewrite os_File_negative|right; by exists ErrClosed].
Qed.

Lemma OpenFile_sane h path : sane (snd (OpenFile h path)).
Proof using laws.
  unfold OpenFile. pose proof (os_Open_sane h path) as Ho.
  destruct (os_Open h path) as [h1 [f|e]]; [|by eapply sane_err].
  pose proof (os_File_Size_sane h1 f) as Hs.
  destruct (os_File_Size h1 f) as [size|e]; [|by eapply sane_err].
  pose proof (OpenCloser_sane (os_File h1 f) (Some f) size) as Hc.
  destruct (OpenCloser _ _ _) as [fs|e]; [done|by eapply sane_err].
Qed.

Lemma OpenFile_fails h path h' e : OpenFile h path = (h', Err e) -> os_files h' = os_files h.
Proof using laws.
  unfold OpenFile. destruct (os_Open h path) as [h1 [f|]] eqn:Ho.
  - destruct (os_File_Size h1 f) as [size|]; [destruct (OpenCloser _ _ _)|]; try done;
      intros [= <- _]; by eapply close_opened.
  - intros [= <- _]. by eapply os_Open_fails.
Qed.

End laws.
End host.
