(* ===== verification/Compress.v ===== *)
(** * Block compressors (src/compress.go)

    The write-side counterparts of Decompress.v.  The encoders are libraries:
    they are the fields of [EncoderLib], and [EncoderLaws] is what they
    document: what an encoder produced, the library's decoder gives back, within
    its own limits.  [compressor_compress] is the glue the package adds; that
    the package's decompressors accept and return what it compressed, with the
    limits, size checks and shape check they put around the libraries, is
    proved ([compress_decoded]). *)

From S2P Require Export Decompress.

(** The encoding libraries.  A streaming encoder's calls are separate
    fields, since each can fail: the bytes it puts in the buffer on creation,
    on Write and on Close. *)
Class EncoderLib := {
  zlib_Write : list byte -> result (list byte);
  zlib_Close : list byte -> result (list byte);
  zstd_EncodeAll : list byte -> list byte;
  xz_NewWriter : result (list byte);
  xz_Write : list byte -> result (list byte);
  xz_Close : list byte -> result (list byte);
  lz4_CompressBlockBound : Z -> Z;
  (* source and length of the destination: the count and the destination *)
  lz4_CompressBlock : list byte -> Z -> result (Z * list byte)
}.

Inductive compressor :=
| gzipCompressor | zstdCompressor | xzCompressor | lz4Compressor.

#[global] Instance compressor_eq_dec : EqDecision compressor.
Proof. solve_decision. Defined.

Definition CompressGZIP : Z := compGZIP.
Definition CompressZSTD : Z := compZSTD.
Definition CompressXZ : Z := compXZ.
Definition CompressLZ4 : Z := compLZ4.

Definition newCompressor (c : Z) : result compressor :=
  if (c =? 0) || (c =? CompressGZIP) then Ok gzipCompressor
  else if c =? CompressZSTD then Ok zstdCompressor
  else if c =? CompressXZ then Ok xzCompressor
  else if c =? CompressLZ4 then Ok lz4Compressor
  else Err ErrUnsupportedCompression.

Definition compressor_id (c : compressor) : Z :=
  match c with
  | gzipCompressor => compGZIP
  | zstdCompressor => compZSTD
  | xzCompressor => compXZ
  | lz4Compressor => compLZ4
  end.

Definition gzip_compress `{EncoderLib} (src : list byte) : result (list byte) :=
  w ← zlib_Write src;
  z ← zlib_Close src;
  Ok (w ++ z).

Definition zstd_compress `{EncoderLib} (src : list byte) : result (list byte) := Ok (zstd_EncodeAll src).

Definition xz_compress `{EncoderLib} (src : list byte) : result (list byte) :=
  h ← xz_NewWriter;
  w ← xz_Write src;
  z ← xz_Close src;
  Ok (h ++ w ++ z).

Definition lz4_compress `{EncoderLib} (src : list byte) : result (list byte) :=
  let bound := lz4_CompressBlockBound (zlen src) in
  if bound <? 0 then Err Panic
  else
    '(n, dst) ← lz4_CompressBlock src bound;
    if n =? 0 then Err ErrIncompressible else slice dst 0 n.

(** The method of the interface. *)
Definition compressor_compress `{EncoderLib} (c : compressor) (src : list byte) : result (list byte) :=
  match c with
  | gzipCompressor => gzip_compress src
  | zstdCompressor => zstd_compress src
  | xzCompressor => xz_compress src
  | lz4Compressor => lz4_compress src
  end.

(** Opens the method of the compressor at hand. *)
Ltac open_compress :=
  cbn [compressor_compress]; unfold gzip_compress, zstd_compress, xz_compress, lz4_compress.

(** ** What the format relies on *)

(** The decoder each encoder is for. *)
Definition decompressor_of (c : compressor) : decompressor :=
  match c with
  | gzipCompressor => gzipDecompressor
  | zstdCompressor => zstdDecompressor
  | xzCompressor => xzDecompressor
  | lz4Compressor => lz4Decompressor
  end.

(** The .xz file format, as far as checkXZ looks: a header of 12 bytes, the
    blocks, the index, and a footer of 12 bytes that ends in "YZ" and gives
    the length of the index.  The index is a zero byte, the number of its
    records (below 128 the multibyte integer is one byte), one record per
    block, padding to four bytes and a checksum, here [rest]. *)
Definition xz_index (records : Z) (rest : list byte) : list byte :=
  Byte.x00 :: byte.of_Z records :: rest.

Definition xz_stream (records : Z) (s : list byte) : Prop :=
  exists header blocks rest crc flags,
    zlen header = 12 /\ zlen crc = 4 /\ zlen flags = 2 /\
    (4 | zlen (xz_index records rest)) /\ zlen (xz_index records rest) <= 2 ^ 34 /\
    s = header ++ blocks ++ xz_index records rest ++
        crc ++ le_PutUint32 (zlen (xz_index records rest) / 4 - 1) ++ flags ++ [Byte.x59; Byte.x5a].

(** What the libraries document.  A decoder gives back what its encoder was
    given, where its limits allow: the zstd decoder up to its memory and window
    limits; the xz reader up to its MaxDictionary, beyond which it fails with
    xz.ErrTooLarge; the lz4 block decoder into a destination with the room,
    beyond which it fails.  The xz writer makes a stream of at most one block. *)
Class EncoderLaws `{CodecLib} `{EncoderLib} : Prop := {
  zlib_Write_sane : forall src, sane (zlib_Write src);
  zlib_Close_sane : forall src, sane (zlib_Close src);
  xz_NewWriter_sane : sane xz_NewWriter;
  xz_Write_sane : forall src, sane (xz_Write src);
  xz_Close_sane : forall src, sane (xz_Close src);
  lz4_CompressBlock_sane : forall src m, sane (lz4_CompressBlock src m);
  lz4_CompressBlockBound_nonneg : forall n, 0 <= n -> 0 <= lz4_CompressBlockBound n;
  lz4_CompressBlock_fits : forall src m n dst,
    lz4_CompressBlock src m = Ok (n, dst) -> 0 <= n <= m /\ zlen dst = m;
  zlib_roundtrip : forall src w z, zlib_Write src = Ok w -> zlib_Close src = Ok z ->
    w ++ z <> [] /\ zlib_NewReader (w ++ z) = Ok (Stream src None);
  zstd_roundtrip : forall src mem win, src <> [] -> zlen src <= mem -> zlen src <= win -> 1024 <= win ->
    zstd_EncodeAll src <> [] /\ zstd_DecodeAll mem win (zstd_EncodeAll src) = Ok src;
  xz_roundtrip : forall src h w z cap,
    xz_NewWriter = Ok h -> xz_Write src = Ok w -> xz_Close src = Ok z ->
    zlen src <= cap -> xz_NewReader cap (h ++ w ++ z) = Ok (Stream src None);
  xz_too_large : forall src h w z cap,
    xz_NewWriter = Ok h -> xz_Write src = Ok w -> xz_Close src = Ok z -> cap < zlen src ->
    exists b, xz_NewReader cap (h ++ w ++ z) = Ok (Stream b (Some ErrXzTooLarge));
  xz_format : forall src h w z,
    xz_NewWriter = Ok h -> xz_Write src = Ok w -> xz_Close src = Ok z ->
    zlen (h ++ w ++ z) < 2 ^ 63 /\ exists records, 0 <= records <= 1 /\ xz_stream records (h ++ w ++ z);
  lz4_roundtrip : forall src m n dst cap,
    lz4_CompressBlock src m = Ok (n, dst) -> 0 < n -> zlen src <= cap ->
    exists rest, lz4_UncompressBlock (take (Z.to_nat n) dst) cap = Ok (zlen src, src ++ rest);
  lz4_too_large : forall src m n dst cap,
    lz4_CompressBlock src m = Ok (n, dst) -> 0 < n -> 0 <= cap < zlen src ->
    exists e, lz4_UncompressBlock (take (Z.to_nat n) dst) cap = Err e /\ sane (Err (A := unit) e)
}.

(** ** checkXZ accepts exactly the streams of at most one block *)

Lemma Uvarint_small n rest : 0 <= n < 128 -> Uvarint (byte.of_Z n :: rest) = (n, 1).
Proof.
  intros Hn. unfold Uvarint. cbn [Uvarint_go]. rewrite byte.unsigned_of_Z. unfold byte.wrap.
  rewrite Z.mod_small by lia. change (0 =? 10) with false. cbv iota.
  destruct (Z.ltb_spec n 0x80); [|lia]. cbn [Z.eqb andb]. rewrite Z.shiftl_0_r, u64_small by lia. done.
Qed.

(** The piece of a list between two others. *)
Lemma slice_mid {A} (l a b c : list A) lo hi :
  l = a ++ b ++ c -> lo = zlen a -> hi = lo + zlen b -> slice l lo hi = Ok b.
Proof.
  intros -> -> ->. pose proof (zlen_nonneg a). pose proof (zlen_nonneg b). pose proof (zlen_nonneg c).
  rewrite slice_ok by (rewrite ?zlen_app; lia). f_equal. unfold zlen.
  replace (Z.of_nat (length a) + Z.of_nat (length b) - Z.of_nat (length a)) with (Z.of_nat (length b)) by lia.
  by rewrite !Nat2Z.id, drop_app_length, take_app_length.
Qed.

Lemma checkXZ_stream records s :
  0 <= records < 128 -> zlen s < 2 ^ 63 -> xz_stream records s ->
  checkXZ s = if 1 <? records then Err ErrCorrupt else Ok tt.
Proof.
  intros Hr Hlen (header & blocks & rest & crc & flags & Hh & Hc & Hf & [q Hq] & Hi & Hs).
  set (index := xz_index records rest) in *. set (back := le_PutUint32 (zlen index / 4 - 1)) in *.
  assert (0 < zlen index) as Hi0 by (unfold index, xz_index; rewrite !zlen_cons; pose proof (zlen_nonneg rest); lia).
  assert (zlen back = 4) as Hb by (unfold zlen, back; by rewrite length_PutUint32).
  pose proof (zlen_nonneg blocks) as Hb0. set (yz := [Byte.x59; Byte.x5a]) in *.
  assert (zlen yz = 2) as Hyz by done.
  assert (zlen s = 24 + zlen blocks + zlen index) as Hl by (rewrite Hs, !zlen_app; lia).
  unfold checkXZ. destruct (Z.ltb_spec (zlen s) 24); [lia|].
  rewrite (slice_mid s (header ++ blocks ++ index ++ crc ++ back ++ flags) yz [] (zlen s - 2));
    [|by rewrite Hs, app_nil_r, <- !app_assoc|rewrite !zlen_app; lia|lia].
  rstep. rewrite bool_decide_true by done. cbn [negb].
  rewrite (slice_mid s (header ++ blocks ++ index ++ crc) (back ++ flags ++ yz) [] (zlen s - 8));
    [|by rewrite Hs, app_nil_r, <- !app_assoc|rewrite !zlen_app; lia|rewrite !zlen_app; lia].
  rstep. assert (zlen index / 4 = q) as Hdiv by (rewrite Hq; by apply Z.div_mul).
  unfold back. rewrite le_Uint32_Put, Hdiv, (u32_small (q - 1)) by lia. replace (q - 1 + 1) with q by lia.
  rewrite (u64_small q), (u64_small (q * 4)), (u64_small (zlen s - 24)), <- Hq by lia.
  destruct (Z.ltb_spec (zlen s - 24) (zlen index)); [lia|]. rewrite i64_small by lia.
  rewrite (slice_mid s (header ++ blocks) index (crc ++ back ++ flags ++ yz));
    [|by rewrite Hs, <- !app_assoc|rewrite !zlen_app; lia|lia].
  rstep. rewrite (slice_mid index [Byte.x00] (byte.of_Z records :: rest) [] 1);
    [|by rewrite app_nil_r|done|unfold index, xz_index; rewrite !zlen_cons; change (zlen [Byte.x00]) with 1; lia].
  rstep. rewrite Uvarint_small by done. unfold index, xz_index. by destruct (1 <? records).
Qed.

Section roundtrip.
Context `{CodecLib} `{EncoderLib} {enclaws : EncoderLaws}.

Lemma ReadAllLimit_whole src n : zlen src < n -> ReadAllLimit (Stream src None) n = Ok src.
Proof using. intros. unfold ReadAllLimit. cbn [st_bytes st_end]. destruct (Z.leb_spec n (zlen src)); [lia|done]. Qed.

Lemma atMost_spec m src : atMost m src = if zlen src <=? m then Ok src else Err ErrCorrupt.
Proof using. unfold atMost. destruct (Z.ltb_spec m (zlen src)), (Z.leb_spec (zlen src) m); done || lia. Qed.

(** A stream read through the limit and checked: whole, or refused. *)
Lemma limited_whole src m :
  0 <= m ->
  (out ← ReadAllLimit (Stream src None) (m + 1); atMost m out) = if zlen src <=? m then Ok src else Err ErrCorrupt.
Proof using.
  intros Hm. rewrite <- atMost_spec. destruct (Z.le_gt_cases (zlen src) m).
  - by rewrite ReadAllLimit_whole by lia.
  - unfold ReadAllLimit. cbn [st_bytes st_end]. destruct (Z.leb_spec (m + 1) (zlen src)); [|lia]. rstep.
    unfold atMost. destruct (Z.ltb_spec m (zlen src)); [|lia].
    rewrite zlen_take by lia. by destruct (Z.ltb_spec m (Z.min (m + 1) (zlen src))); [|lia].
Qed.

(** Encode, then decode under a limit. *)
Definition decoded_within (c : compressor) (src : list byte) (maxOut : Z) (r : result (list byte)) : Prop :=
  if zlen src <=? maxOut then r = Ok src
  else exists e, r = Err e /\ sane (Err (A := unit) e) /\ (c <> lz4Compressor -> e = ErrCorrupt).

Lemma decoded_limit c src maxOut :
  decoded_within c src maxOut (if zlen src <=? maxOut then Ok src else Err ErrCorrupt).
Proof using. unfold decoded_within. destruct (_ <=? _); [done|]. by eexists. Qed.

Lemma xz_decoded src h w z maxOut :
  xz_NewWriter = Ok h -> xz_Write src = Ok w -> xz_Close src = Ok z -> 0 <= maxOut ->
  h ++ w ++ z <> [] /\ decoded_within xzCompressor src maxOut (uncached (xz_decompress (h ++ w ++ z) maxOut)).
Proof using enclaws.
  intros Eh Ew Ez Hm. destruct (xz_format _ _ _ _ Eh Ew Ez) as (Hlen & records & Hr & Hx).
  pose proof (checkXZ_stream records _ ltac:(lia) Hlen Hx) as Hc. destruct (Z.ltb_spec 1 records); [lia|].
  split; [intros E; by rewrite E in Hc|]. unfold xz_decompress. rewrite uncached_lift, Hc. rstep.
  destruct (Z.le_gt_cases (zlen src) (dictCeiling maxOut)).
  - rewrite (xz_roundtrip _ _ _ _ _ Eh Ew Ez) by done. cbn [decodeErrOf]. rstep.
    pose proof (limited_whole src maxOut Hm) as Hl. revert Hl.
    unfold ReadAllLimit. destruct (_ <=? _); cbn [st_end decodeErrOf]; rstep; intros ->; apply decoded_limit.
  - destruct (xz_too_large _ _ _ _ (dictCeiling maxOut) Eh Ew Ez) as (b & ->); [lia|]. cbn [decodeErrOf]. rstep.
    unfold decoded_within, dictCeiling in *. destruct (Z.leb_spec (zlen src) maxOut); [lia|]. exists ErrCorrupt. split; [|done].
    unfold ReadAllLimit. cbn [st_bytes st_end]. destruct (Z.leb_spec (maxOut + 1) (zlen b)); [|done]. cbn [decodeErrOf]. rstep.
    unfold atMost. rewrite zlen_take by lia. by destruct (Z.ltb_spec maxOut (Z.min (maxOut + 1) (zlen b))); [|lia].
Qed.

Lemma lz4_decoded src n dst m maxOut :
  lz4_CompressBlock src m = Ok (n, dst) -> n <> 0 -> 0 <= maxOut ->
  take (Z.to_nat n) dst <> [] /\
  decoded_within lz4Compressor src maxOut (uncached (lz4_decompress (take (Z.to_nat n) dst) maxOut)).
Proof using enclaws.
  intros El Hne Hm. destruct (lz4_CompressBlock_fits _ _ _ _ El) as [Hn Hd]. pose proof (zlen_nonneg src). split.
  { intros E. apply (f_equal zlen) in E. rewrite zlen_take in E by lia. unfold zlen in E at 2. cbn in E. lia. }
  unfold lz4_decompress, decoded_within. rewrite uncached_bind, uncached_make by lia. rstep. rewrite uncached_lift.
  destruct (Z.leb_spec (zlen src) maxOut).
  - destruct (lz4_roundtrip _ _ _ _ maxOut El) as [rest ->]; [lia|lia|]. rstep. by apply (slice_mid _ [] src rest).
  - destruct (lz4_too_large _ _ _ _ maxOut El) as (e & -> & He); [lia|lia|]. by exists e.
Qed.

Lemma compress_decoded c src z maxOut :
  src <> [] -> 0 <= maxOut -> zlen src <= maxBlockSize -> compressor_compress c src = Ok z ->
  z <> [] /\ decoded_within c src maxOut (uncached (decompress (decompressor_of c) z maxOut)).
Proof using enclaws.
  intros Hne Hm Hb. destruct c; open_compress; cbn [decompressor_of decompress].
  - destruct (zlib_Write src) as [w|] eqn:Ew; rstep; [|done].
    destruct (zlib_Close src) as [k|] eqn:Ek; rstep; [|done]. intros [= <-].
    destruct (zlib_roundtrip _ _ _ Ew Ek) as [Hnz Hr]. split; [done|]. unfold gzip_decompress. rewrite uncached_lift, Hr. rstep.
    rewrite limited_whole by done. apply decoded_limit.
  - intros [= <-]. unfold maxBlockSize in Hb.
    destruct (zstd_roundtrip src maxBlockSize maxBlockSize Hne) as [Hnz Hr]; [unfold maxBlockSize; lia..|]. split; [done|].
    unfold zstd_decompress, zstdDecoder. rewrite uncached_bind, uncached_make by lia. rstep. rewrite uncached_lift, Hr. rstep.
    rewrite atMost_spec. apply decoded_limit.
  - destruct xz_NewWriter as [h|] eqn:Eh; rstep; [|done].
    destruct (xz_Write src) as [w|] eqn:Ew; rstep; [|done].
    destruct (xz_Close src) as [k|] eqn:Ek; rstep; [|done]. intros [= <-]. by apply xz_decoded.
  - destruct (_ <? 0); [done|]. destruct (lz4_CompressBlock src _) as [[n dst]|] eqn:El; rstep; [|done].
    destruct (lz4_CompressBlock_fits _ _ _ _ El) as [Hn Hd].
    destruct (Z.eqb_spec n 0); [done|]. rewrite slice_ok by lia. intros [= <-].
    rewrite Z.sub_0_r, drop_0. by eapply lz4_decoded.
Qed.

Lemma compress_decompress c src z maxOut :
  src <> [] -> zlen src <= maxOut <= maxBlockSize -> compressor_compress c src = Ok z ->
  z <> [] /\ uncached (decompress (decompressor_of c) z maxOut) = Ok src.
Proof using enclaws.
  intros Hne Hm Hz. pose proof (zlen_nonneg src). apply (compress_decoded _ _ _ maxOut) in Hz as [Hnz Hr]; [|done|lia|lia].
  split; [done|]. unfold decoded_within in Hr. by destruct (Z.leb_spec (zlen src) maxOut); [|lia].
Qed.

Lemma compress_sane c src : sane (compressor_compress c src).
Proof using enclaws.
  destruct c; open_compress.
  - apply sane_bind; [apply zlib_Write_sane|]. intros w _.
    apply sane_bind; [apply zlib_Close_sane|]. done.
  - done.
  - apply sane_bind; [apply xz_NewWriter_sane|]. intros h _.
    apply sane_bind; [apply xz_Write_sane|]. intros w _.
    apply sane_bind; [apply xz_Close_sane|]. done.
  - pose proof (lz4_CompressBlockBound_nonneg (zlen src) (zlen_nonneg _)).
    destruct (Z.ltb_spec (lz4_CompressBlockBound (zlen src)) 0); [lia|].
    apply sane_bind; [apply lz4_CompressBlock_sane|].
    intros [n dst] [Hn Hd]%lz4_CompressBlock_fits. destruct (n =? 0); [done|].
    apply slice_sane; lia.
Qed.

(** The superblock's compression id selects the matching decoder. *)
Lemma newDecompressor_id c : newDecompressor (compressor_id c) = Ok (decompressor_of c).
Proof using. by destruct c. Qed.

End roundtrip.
