(* ===== verification/Writer.v ===== *)
(** * The image writer (src/write.go)

    [imageWriter] accumulates the image; two [metaWriter]s buffer the inode
    and directory tables and hand out references.  Go mutates these through
    pointers; here every operation takes the state and returns the new one.
    [emitNode] fills the [n_inodeRef] and [n_inodeNum] of the tree and sorts
    the children of its directories, so it returns the tree as well. *)

From S2P Require Export Fs Compress.
From stdpp Require Export sorting.

#[local] Open Scope Z_scope.

Definition defaultBlockSize : Z := 131072.

Definition flagUncompressedInodes : Z := 0x0001.
Definition flagUncompressedData : Z := 0x0002.
Definition flagNoFragments : Z := 0x0010.
Definition flagNoXattrs : Z := 0x0200.
Definition flagCompressorOptions : Z := 0x0400.

Definition lz4OptionsVersion : Z := 1.
Definition lz4OptionsFlagHC : Z := 1.

Record BuildOptions := mkBuildOptions {
  opt_Uncompressed : bool;
  opt_Compressor : Z;   (* uint16 *)
  opt_NoFragments : bool
}.

#[warnings="-register-all"]
Inductive node := mkNode {
  n_name : list byte;
  n_mode : Z;            (* uint16 *)
  n_uid : Z;             (* uint32 *)
  n_gid : Z;             (* uint32 *)
  n_target : list byte;
  n_data : list byte;
  n_children : list node;
  n_inodeRef : Z;        (* uint64 *)
  n_inodeNum : Z         (* uint32 *)
}.

(** The assignments of emitNode to a node. *)
Definition setRef (n : node) (num ref : Z) : node :=
  mkNode (n_name n) (n_mode n) (n_uid n) (n_gid n) (n_target n) (n_data n) (n_children n) ref num.
Definition setChildren (n : node) (cs : list node) : node :=
  mkNode (n_name n) (n_mode n) (n_uid n) (n_gid n) (n_target n) (n_data n) cs
    (n_inodeRef n) (n_inodeNum n).

Record metaWriter := mkMetaWriter {
  mw_out : list byte;   (* emitted metadata blocks *)
  mw_buf : list byte    (* pending uncompressed payload *)
}.

Record imageWriter := mkImageWriter {
  iw_opts : BuildOptions;
  iw_comp : option compressor;   (* nil when Uncompressed *)
  iw_data : list byte;
  iw_inodes : metaWriter;
  iw_dirs : metaWriter;
  iw_inodeNum : Z;               (* uint32 *)
  iw_blockSize : Z;              (* uint32 *)
  iw_fragBuf : list byte;
  iw_fragEntries : list fragmentEntry
}.

Definition iw_setData (iw : imageWriter) (d : list byte) : imageWriter :=
  mkImageWriter (iw_opts iw) (iw_comp iw) d (iw_inodes iw) (iw_dirs iw)
    (iw_inodeNum iw) (iw_blockSize iw) (iw_fragBuf iw) (iw_fragEntries iw).
Definition iw_setInodes (iw : imageWriter) (m : metaWriter) : imageWriter :=
  mkImageWriter (iw_opts iw) (iw_comp iw) (iw_data iw) m (iw_dirs iw)
    (iw_inodeNum iw) (iw_blockSize iw) (iw_fragBuf iw) (iw_fragEntries iw).
Definition iw_setDirs (iw : imageWriter) (m : metaWriter) : imageWriter :=
  mkImageWriter (iw_opts iw) (iw_comp iw) (iw_data iw) (iw_inodes iw) m
    (iw_inodeNum iw) (iw_blockSize iw) (iw_fragBuf iw) (iw_fragEntries iw).
Definition iw_setInodeNum (iw : imageWriter) (k : Z) : imageWriter :=
  mkImageWriter (iw_opts iw) (iw_comp iw) (iw_data iw) (iw_inodes iw) (iw_dirs iw)
    k (iw_blockSize iw) (iw_fragBuf iw) (iw_fragEntries iw).
Definition iw_setFrag (iw : imageWriter) (buf : list byte) (es : list fragmentEntry) : imageWriter :=
  mkImageWriter (iw_opts iw) (iw_comp iw) (iw_data iw) (iw_inodes iw) (iw_dirs iw)
    (iw_inodeNum iw) (iw_blockSize iw) buf es.

(** iw.data.Write(p) *)
Definition iw_Write (iw : imageWriter) (p : list byte) : imageWriter :=
  iw_setData iw (iw_data iw ++ p).

Section writer.
Context `{EncoderLib}.

(** ** Blocks *)

(** compress: the stored bytes and whether they are compressed. *)
Definition iw_compress (iw : imageWriter) (payload : list byte) (forceRaw : bool) :
  result (list byte * bool) :=
  if forceRaw || (zlen payload =? 0) then Ok (payload, false)
  else
    match iw_comp iw with
    | None => Ok (payload, false)
    | Some c =>
        r ← observe (compressor_compress c payload);
        match r with
        | Err _ => Ok (payload, false)
        | Ok out => if zlen payload <=? zlen out then Ok (payload, false) else Ok (out, true)
        end
    end.

(** The 2-byte header and the stored bytes of a metadata block; the common
    part of emit and writeMetaBlock. *)
Definition metaBlock (iw : imageWriter) (payload : list byte) : result (list byte) :=
  '(stored, compressed) ← iw_compress iw payload (opt_Uncompressed (iw_opts iw));
  let hdr := u16 (zlen stored) in
  let hdr := if negb compressed then Z.lor hdr metaHeaderCompressedBit else hdr in
  Ok (le_PutUint16 hdr ++ stored).

(** [iw] is the metaWriter's back pointer; it is only read. *)
Definition metaWriter_emit (iw : imageWriter) (m : metaWriter) (payload : list byte) :
  result metaWriter :=
  b ← metaBlock iw payload;
  Ok (mkMetaWriter (mw_out m ++ b) (mw_buf m)).

Definition metaWriter_ref (m : metaWriter) : Z :=
  Z.lor (u64 (Z.shiftl (zlen (mw_out m)) 16)) (zlen (mw_buf m)).

(** The loop of write; every iteration removes metaBlockMax bytes. *)
Fixpoint metaWriter_write_loop (fuel : nat) (iw : imageWriter) (m : metaWriter) : result metaWriter :=
  if metaBlockMax <=? zlen (mw_buf m) then
    match fuel with
    | O => Err OutOfFuel
    | S fuel =>
        m ← metaWriter_emit iw m (take (Z.to_nat metaBlockMax) (mw_buf m));
        metaWriter_write_loop fuel iw
          (mkMetaWriter (mw_out m) (drop (Z.to_nat metaBlockMax) (mw_buf m)))
    end
  else Ok m.

Definition metaWriter_write (iw : imageWriter) (m : metaWriter) (p : list byte) : result metaWriter :=
  let buf := mw_buf m ++ p in
  metaWriter_write_loop (length buf) iw (mkMetaWriter (mw_out m) buf).

Definition metaWriter_finish (iw : imageWriter) (m : metaWriter) : result metaWriter :=
  if 0 <? zlen (mw_buf m) then
    m ← metaWriter_emit iw m (mw_buf m);
    Ok (mkMetaWriter (mw_out m) [])
  else Ok m.

(** iw.inodes.write(p), iw.dirs.write(p) *)
Definition iw_writeInodes (iw : imageWriter) (p : list byte) : result imageWriter :=
  m ← metaWriter_write iw (iw_inodes iw) p; Ok (iw_setInodes iw m).
Definition iw_writeDirs (iw : imageWriter) (p : list byte) : result imageWriter :=
  m ← metaWriter_write iw (iw_dirs iw) p; Ok (iw_setDirs iw m).

Definition writeMetaBlock (iw : imageWriter) (payload : list byte) : result imageWriter :=
  b ← metaBlock iw payload; Ok (iw_Write iw b).

Definition writeDataBlock (iw : imageWriter) (block : list byte) : result (imageWriter * Z) :=
  '(stored, compressed) ← iw_compress iw block (opt_Uncompressed (iw_opts iw));
  let sz := u32 (zlen stored) in
  Ok (iw_Write iw stored, if negb compressed then Z.lor sz dataUncompressedBit else sz).

(** ** Fragments *)

Definition flushFragment (iw : imageWriter) : result imageWriter :=
  if zlen (iw_fragBuf iw) =? 0 then Ok iw
  else
    let start := zlen (iw_data iw) in
    '(iw, sz) ← writeDataBlock iw (iw_fragBuf iw);
    Ok (iw_setFrag iw [] (iw_fragEntries iw ++ [mkFragmentEntry start sz])).

Definition addToFragment (iw : imageWriter) (tail : list byte) : result (imageWriter * (Z * Z)) :=
  iw ← (if iw_blockSize iw <? zlen (iw_fragBuf iw) + zlen tail then flushFragment iw else Ok iw);
  let offset := u32 (zlen (iw_fragBuf iw)) in
  let idx := u32 (zlen (iw_fragEntries iw)) in
  Ok (iw_setFrag iw (iw_fragBuf iw ++ tail) (iw_fragEntries iw), (idx, offset)).

(** ** Inodes *)

Definition nextInode (iw : imageWriter) : imageWriter * Z :=
  let k := u32 (iw_inodeNum iw + 1) in (iw_setInodeNum iw k, k).

(** The block loop of emitFileInode; an iteration advances [off] by the block
    size. *)
Fixpoint writeBlocks (fuel : nat) (iw : imageWriter) (data : list byte) (fullLen off : Z) :
  result (imageWriter * list Z) :=
  if off <? fullLen then
    match fuel with
    | O => Err OutOfFuel
    | S fuel =>
        let bs := iw_blockSize iw in
        let end_ := if fullLen <? off + bs then fullLen else off + bs in
        b ← slice data off end_;
        '(iw, sz) ← writeDataBlock iw b;
        '(iw, szs) ← writeBlocks fuel iw data fullLen (off + bs);
        Ok (iw, sz :: szs)
    end
  else Ok (iw, []).

Definition uint32Bytes (l : list Z) : list byte := mjoin (le_PutUint32 <$> l).

Definition emitFileInode (iw : imageWriter) (n : node) : result (imageWriter * node) :=
  let useFrag := negb (opt_NoFragments (iw_opts iw)) in
  let bs := iw_blockSize iw in
  let dataLen := zlen (n_data n) in
  fullLen ← (if useFrag then q ← udiv dataLen bs; Ok (q * bs) else Ok dataLen);
  let blocksStart := zlen (iw_data iw) in
  '(iw, blockSizes) ← writeBlocks (length (n_data n)) iw (n_data n) fullLen 0;
  '(iw, (fragIdx, fragOffset)) ←
    (if useFrag && (fullLen <? dataLen)
     then tail ← slice (n_data n) fullLen dataLen; addToFragment iw tail
     else Ok (iw, (invalidFrag, 0)));
  let '(iw, num) := nextInode iw in
  let ref := metaWriter_ref (iw_inodes iw) in
  let body :=
    le_PutUint16 inodeBasicFile ++ le_PutUint16 (Z.land (n_mode n) 0xFFF) ++
    le_PutUint16 0 ++ le_PutUint16 0 ++ le_PutUint32 0 ++ le_PutUint32 num ++
    le_PutUint32 (u32 blocksStart) ++ le_PutUint32 fragIdx ++ le_PutUint32 fragOffset ++
    le_PutUint32 (u32 dataLen) ++ uint32Bytes blockSizes in
  iw ← iw_writeInodes iw body;
  Ok (iw, setRef n num ref).

Definition emitSymlinkInode (iw : imageWriter) (n : node) : result (imageWriter * node) :=
  let '(iw, num) := nextInode iw in
  let ref := metaWriter_ref (iw_inodes iw) in
  let body :=
    le_PutUint16 inodeBasicSymlink ++ le_PutUint16 (Z.land (n_mode n) 0xFFF) ++
    zeros 8 ++ le_PutUint32 num ++
    le_PutUint32 1 ++ le_PutUint32 (u32 (zlen (n_target n))) ++ n_target n in
  iw ← iw_writeInodes iw body;
  Ok (iw, setRef n num ref).

(** ** Directories *)

(** dirEntryType *)
Definition dirEntryType (mode : Z) : Z :=
  let t := Z.land mode 0xF000 in
  if t =? sIFDIR then inodeBasicDir
  else if t =? sIFLNK then inodeBasicSymlink
  else inodeBasicFile.

Definition refBlock (n : node) : Z := u32 (Z.shiftr (n_inodeRef n) 16).

(** How many of [cs], up to 256 with the [k] counted so far, lie in the same
    inode-table block: j - i of the grouping loop. *)
Fixpoint groupLen (baseBlock : Z) (k : nat) (cs : list node) : nat :=
  match cs with
  | [] => O
  | c :: cs =>
      if (k <? 256)%nat && (refBlock c =? baseBlock) then S (groupLen baseBlock (S k) cs) else O
  end.

Definition dirEntryBytes (baseInode : Z) (c : node) : list byte :=
  le_PutUint16 (u16 (Z.land (n_inodeRef c) 0xFFFF)) ++
  le_PutUint16 (u16 (i16 (n_inodeNum c - baseInode))) ++
  le_PutUint16 (dirEntryType (n_mode c)) ++
  le_PutUint16 (u16 (zlen (n_name c) - 1)) ++
  n_name c.

(** The loop over groups; every group takes at least one child. *)
Fixpoint buildDirListing_loop (fuel : nat) (cs : list node) : result (list byte) :=
  match cs with
  | [] => Ok []
  | c :: _ =>
      match fuel with
      | O => Err OutOfFuel
      | S fuel =>
          let baseBlock := refBlock c in
          let baseInode := n_inodeNum c in
          let j := groupLen baseBlock 0 cs in
          rest ← buildDirListing_loop fuel (drop j cs);
          Ok (le_PutUint32 (u32 (Z.of_nat j - 1)) ++ le_PutUint32 baseBlock ++
              le_PutUint32 baseInode ++
              mjoin (dirEntryBytes baseInode <$> take j cs) ++ rest)
      end
  end.

Definition buildDirListing (n : node) : result (list byte) :=
  buildDirListing_loop (length (n_children n)) (n_children n).

(** Go's < on strings: bytewise, a proper prefix first. *)
Fixpoint string_ltb (a b : list byte) : bool :=
  match a, b with
  | _, [] => false
  | [], _ :: _ => true
  | x :: a, y :: b =>
      (byte.unsigned x <? byte.unsigned y) ||
      ((byte.unsigned x =? byte.unsigned y) && string_ltb a b)
  end.

(** Sorting by name; sort.Slice leaves the order of equal names open, and
    merge_sort keeps it. *)
Definition name_le (a b : node) : Prop := Is_true (negb (string_ltb (n_name b) (n_name a))).

#[global] Instance name_le_dec : RelDecision name_le.
Proof. intros a b. unfold name_le. apply _. Defined.

Definition sortChildren (cs : list node) : list node := merge_sort name_le cs.

Definition emitDirInode (iw : imageWriter) (n : node) : result (imageWriter * node) :=
  let n := setChildren n (sortChildren (n_children n)) in
  let dirStart := metaWriter_ref (iw_dirs iw) in
  let dirBlock := u32 (Z.shiftr dirStart 16) in
  let dirOffset := u16 (Z.land dirStart 0xFFFF) in
  listing ← buildDirListing n;
  iw ← iw_writeDirs iw listing;
  let '(iw, num) := nextInode iw in
  let ref := metaWriter_ref (iw_inodes iw) in
  let body :=
    le_PutUint16 inodeBasicDir ++ le_PutUint16 (Z.land (n_mode n) 0xFFF) ++
    zeros 8 ++ le_PutUint32 num ++
    le_PutUint32 dirBlock ++ le_PutUint32 (u32 (u32 (zlen (n_children n)) + 2)) ++
    le_PutUint16 (u16 (zlen listing + 3)) ++ le_PutUint16 dirOffset ++
    le_PutUint32 1 in
  iw ← iw_writeInodes iw body;
  Ok (iw, setRef n num ref).

(** The loop over a directory's children. *)
Definition emitChildren (emit : imageWriter -> node -> result (imageWriter * node)) :=
  fix go (iw : imageWriter) (cs : list node) : result (imageWriter * list node) :=
    match cs with
    | [] => Ok (iw, [])
    | c :: cs =>
        '(iw, c) ← emit iw c;
        '(iw, cs) ← go iw cs;
        Ok (iw, c :: cs)
    end.

Fixpoint emitNode (iw : imageWriter) (n : node) : result (imageWriter * node) :=
  let t := Z.land (n_mode n) 0xF000 in
  if t =? sIFDIR then
    '(iw, cs) ← emitChildren emitNode iw (n_children n);
    emitDirInode iw (setChildren n cs)
  else if t =? sIFLNK then emitSymlinkInode iw n
  else emitFileInode iw n.

(** ** Tables, superblock, image *)

Definition fragEntryBytes (fe : fragmentEntry) : list byte :=
  le_PutUint64 (fe_start fe) ++ le_PutUint32 (fe_sizeWord fe) ++ zeros 4.

(** The first loop of writeFragmentTable, on the entries not yet written; the
    result carries the offsets of the blocks written. *)
Fixpoint writeFragmentBlocks (fuel : nat) (iw : imageWriter) (es : list fragmentEntry) :
  result (imageWriter * list Z) :=
  match es with
  | [] => Ok (iw, [])
  | _ =>
      match fuel with
      | O => Err OutOfFuel
      | S fuel =>
          let k := Z.to_nat fragPerMetaBlock in
          let off := zlen (iw_data iw) in
          iw ← writeMetaBlock iw (mjoin (fragEntryBytes <$> take k es));
          '(iw, offs) ← writeFragmentBlocks fuel iw (drop k es);
          Ok (iw, off :: offs)
      end
  end.

Definition writeFragmentTable (iw : imageWriter) : result (imageWriter * Z) :=
  let es := iw_fragEntries iw in
  '(iw, offs) ← writeFragmentBlocks (length es) iw es;
  let start := zlen (iw_data iw) in
  Ok (iw_Write iw (mjoin (le_PutUint64 <$> offs)), start).

Definition hasCompressorOptions (iw : imageWriter) : bool :=
  match iw_comp iw with Some c => compressor_id c =? compLZ4 | None => false end.

Definition writeCompressorOptions (iw : imageWriter) : imageWriter :=
  if negb (hasCompressorOptions iw) then iw
  else
    let payload := le_PutUint32 lz4OptionsVersion ++ le_PutUint32 lz4OptionsFlagHC in
    let iw := iw_Write iw (le_PutUint16 (Z.lor (u16 (zlen payload)) metaHeaderCompressedBit)) in
    iw_Write iw payload.

(** The loop of blockLog; 32 shifts empty a uint32. *)
Fixpoint blockLog_loop (fuel : nat) (v l : Z) : Z :=
  match fuel with
  | O => l
  | S fuel => if 1 <? v then blockLog_loop fuel (Z.shiftr v 1) (u16 (l + 1)) else l
  end.
Definition blockLog (bs : Z) : Z := blockLog_loop 32 bs 0.

Definition bytesUsedNoTable : Z := 2 ^ 64 - 1.

Definition superblock (iw : imageWriter) (rootRef inodeCount inodeStart dirStart idStart
    fragStart fragCount bytesUsed : Z) : list byte :=
  let compID := match iw_comp iw with Some c => compressor_id c | None => compGZIP end in
  let flags := flagNoXattrs in
  let flags := if fragCount =? 0 then Z.lor flags flagNoFragments else flags in
  let flags := if opt_Uncompressed (iw_opts iw)
               then Z.lor flags (Z.lor flagUncompressedInodes flagUncompressedData) else flags in
  let flags := if hasCompressorOptions iw then Z.lor flags flagCompressorOptions else flags in
  le_PutUint32 Magic ++ le_PutUint32 inodeCount ++ le_PutUint32 0 ++ le_PutUint32 (iw_blockSize iw) ++
  le_PutUint32 fragCount ++ le_PutUint16 compID ++ le_PutUint16 (blockLog (iw_blockSize iw)) ++
  le_PutUint16 flags ++ le_PutUint16 1 ++ le_PutUint16 4 ++ le_PutUint16 0 ++
  le_PutUint64 rootRef ++ le_PutUint64 bytesUsed ++ le_PutUint64 idStart ++
  le_PutUint64 0xFFFFFFFFFFFFFFFF ++ le_PutUint64 inodeStart ++ le_PutUint64 dirStart ++
  le_PutUint64 fragStart ++ le_PutUint64 0xFFFFFFFFFFFFFFFF.

(** copy(dst, src) *)
Definition copy (dst src : list byte) : list byte :=
  take (length dst) src ++ drop (length src) dst.

(** The writer before anything but the superblock's place is written. *)
Definition newImageWriter (opts : BuildOptions) : result imageWriter :=
  comp ← (if opt_Uncompressed opts then Ok None
          else c ← newCompressor (opt_Compressor opts); Ok (Some c));
  Ok (mkImageWriter opts comp [] (mkMetaWriter [] []) (mkMetaWriter [] []) 0 defaultBlockSize [] []).

(** The part of buildImage after the tree is emitted. *)
Definition finishImage (iw : imageWriter) (rootRef : Z) : result (list byte) :=
  iw ← flushFragment iw;
  let inodeCount := iw_inodeNum iw in
  m ← metaWriter_finish iw (iw_inodes iw);
  let iw := iw_setInodes iw m in
  m ← metaWriter_finish iw (iw_dirs iw);
  let iw := iw_setDirs iw m in
  let inodeTableStart := zlen (iw_data iw) in
  let iw := iw_Write iw (mw_out (iw_inodes iw)) in
  let dirTableStart := zlen (iw_data iw) in
  let iw := iw_Write iw (mw_out (iw_dirs iw)) in
  '(iw, fragTableStart) ←
    (if 0 <? zlen (iw_fragEntries iw) then writeFragmentTable iw else Ok (iw, bytesUsedNoTable));
  let idValuesAt := zlen (iw_data iw) in
  iw ← writeMetaBlock iw (zeros 4);
  let idTableStart := zlen (iw_data iw) in
  let iw := iw_Write iw (le_PutUint64 idValuesAt) in
  let bytesUsed := zlen (iw_data iw) in
  let sb := superblock iw rootRef inodeCount inodeTableStart dirTableStart idTableStart
              fragTableStart (u32 (zlen (iw_fragEntries iw))) bytesUsed in
  Ok (copy (iw_data iw) sb).

Definition buildImage (root : node) (opts : BuildOptions) : result (list byte) :=
  iw ← newImageWriter opts;
  let iw := iw_Write iw (zeros superblockSize) in
  let iw := writeCompressorOptions iw in
  '(iw, root) ← emitNode iw root;
  finishImage iw (n_inodeRef root).

End writer.
