(* ===== verification/Scan.v ===== *)
(** * Scanning a host directory (src/write.go)

    scanDir and scanEntry turn a directory of the host into the node tree that
    buildImage lays out; BuildFromDir writes the image.  The recursion follows
    the host's directories, so it takes a fuel: how deep it may go.  The
    specification is a tree: [shows h path t] says that what the host reports
    at [path] and below is [t], and [node_of] is the node a tree becomes.
    [scanDir_iff]: the scan returns exactly that node, for enough fuel. *)

From S2P Require Export Writer Host.

#[local] Open Scope Z_scope.

(** ** io/fs.FileMode *)

Definition ModeDir : Z := 2 ^ 31.
Definition ModeSymlink : Z := 2 ^ 27.
(** ModeDir | ModeSymlink | ModeNamedPipe | ModeSocket | ModeDevice |
    ModeCharDevice | ModeIrregular *)
Definition ModeType : Z := 2 ^ 31 + 2 ^ 27 + 2 ^ 25 + 2 ^ 24 + 2 ^ 26 + 2 ^ 21 + 2 ^ 19.
Definition ModePerm : Z := 0x1FF.

Definition FileMode_IsDir (m : Z) : bool := negb (Z.land m ModeDir =? 0).
Definition FileMode_IsSymlink (m : Z) : bool := negb (Z.land m ModeSymlink =? 0).
Definition FileMode_IsRegular (m : Z) : bool := Z.land m ModeType =? 0.
Definition FileMode_Perm (m : Z) : Z := Z.land m ModePerm.

(** ** path/filepath on Unix *)

Definition dotdot : list byte := [dot; dot].

(** The elements of a cleaned path: [acc] holds those kept so far, last
    first. *)
Fixpoint Clean_elems (rooted : bool) (acc segs : list (list byte)) : list (list byte) :=
  match segs with
  | [] => rev acc
  | s :: segs =>
      if decide (s = [] \/ s = [dot]) then Clean_elems rooted acc segs
      else if decide (s = dotdot) then
        match acc with
        | top :: rest =>
            if decide (top = dotdot) then Clean_elems rooted (s :: acc) segs
            else Clean_elems rooted rest segs
        | [] => if rooted then Clean_elems rooted [] segs else Clean_elems rooted [s] segs
        end
      else Clean_elems rooted (s :: acc) segs
  end.

Definition filepath_Clean (p : list byte) : list byte :=
  if decide (p = []) then [dot]
  else
    let elems := Clean_elems (hasPrefixSlash p) [] (strings_Split [] p) in
    if hasPrefixSlash p then match elems with [] => [slash] | _ => joinPath elems end
    else match elems with [] => [dot] | _ => drop 1 (joinPath elems) end.

(** Join of two elements. *)
Definition filepath_Join (dir name : list byte) : list byte :=
  if decide (dir = []) then if decide (name = []) then [] else filepath_Clean name
  else filepath_Clean (dir ++ slash :: name).

(** ** The scan *)

Section scan.
Context `{HostOS}.

(** The loop over the entries of a directory; a nil child is left out. *)
Definition scanEntries (scan : list byte -> result (option node)) :=
  fix go (names : list (list byte)) : result (list node) :=
    match names with
    | [] => Ok []
    | name :: names =>
        c ← scan name;
        cs ← go names;
        Ok (match c with Some c => c :: cs | None => cs end)
    end.

Fixpoint scanEntry (fuel : nat) (h : host) (path name : list byte) : result (option node) :=
  fi ← os_Lstat h path;
  if FileMode_IsDir fi then
    match fuel with
    | O => Err OutOfFuel
    | S fuel =>
        entries ← os_ReadDir h path;
        cs ← scanEntries (fun e => scanEntry fuel h (filepath_Join path e) e) entries;
        Ok (Some (mkNode name (Z.lor sIFDIR (u16 (FileMode_Perm fi))) 0 0 [] [] cs 0 0))
    end
  else if FileMode_IsSymlink fi then
    target ← os_Readlink h path;
    Ok (Some (mkNode name (Z.lor sIFLNK 0x1FF) 0 0 target [] [] 0 0))
  else if FileMode_IsRegular fi then
    data ← os_ReadFile h path;
    Ok (Some (mkNode name (Z.lor sIFREG (u16 (FileMode_Perm fi))) 0 0 [] data [] 0 0))
  else Ok None.

Definition scanDir (fuel : nat) (h : host) (dir : list byte) : result node :=
  fi ← os_Lstat h dir;
  entries ← os_ReadDir h dir;
  cs ← scanEntries (fun e => scanEntry fuel h (filepath_Join dir e) e) entries;
  Ok (mkNode [] (Z.lor sIFDIR (u16 (FileMode_Perm fi))) 0 0 [] [] cs 0 0).

(** The mode of the image file, 0o644. *)
Definition imageMode : Z := 0x1A4.

Definition BuildFromDir `{EncoderLib} (fuel : nat) (h : host) (imgPath srcDir : list byte)
    (opts : BuildOptions) : host * option err :=
  match scanDir fuel h srcDir with
  | Err e => (h, Some e)
  | Ok root =>
      match buildImage root opts with
      | Err e => (h, Some e)
      | Ok img => os_WriteFile h imgPath img imageMode
      end
  end.

(** ** What the host shows *)

#[warnings="-register-all"]
Inductive host_tree :=
| HDir (perm : Z) (entries : list (list byte * host_tree))
| HLink (target : list byte)
| HFile (perm : Z) (data : list byte)
| HOther.   (* a device, pipe or socket *)

(** The node a tree becomes under a name. *)
Fixpoint node_of (name : list byte) (t : host_tree) : option node :=
  match t with
  | HDir perm es =>
      Some (mkNode name (Z.lor sIFDIR perm) 0 0 [] [] (omap (fun '(k, t) => node_of k t) es) 0 0)
  | HLink target => Some (mkNode name (Z.lor sIFLNK 0x1FF) 0 0 target [] [] 0 0)
  | HFile perm data => Some (mkNode name (Z.lor sIFREG perm) 0 0 [] data [] 0 0)
  | HOther => None
  end.

(** How many directories deep a tree is. *)
Fixpoint height (t : host_tree) : nat :=
  match t with
  | HDir _ es => S (foldr (fun e n => Nat.max (height (snd e)) n) 0%nat es)
  | _ => 0
  end.

Inductive shows (h : host) : list byte -> host_tree -> Prop :=
| shows_dir path fi es :
    os_Lstat h path = Ok fi -> FileMode_IsDir fi = true ->
    os_ReadDir h path = Ok (fst <$> es) ->
    (forall name t, (name, t) ∈ es -> shows h (filepath_Join path name) t) ->
    shows h path (HDir (FileMode_Perm fi) es)
| shows_link path fi target :
    os_Lstat h path = Ok fi -> FileMode_IsDir fi = false -> FileMode_IsSymlink fi = true ->
    os_Readlink h path = Ok target -> shows h path (HLink target)
| shows_file path fi data :
    os_Lstat h path = Ok fi -> FileMode_IsRegular fi = true ->
    os_ReadFile h path = Ok data -> shows h path (HFile (FileMode_Perm fi) data)
| shows_other path fi :
    os_Lstat h path = Ok fi -> FileMode_IsDir fi = false -> FileMode_IsSymlink fi = false ->
    FileMode_IsRegular fi = false -> shows h path HOther.

(** The scanned directory itself may be reached through a link: its entries
    are those ReadDir lists, whatever Lstat says it is. *)
Definition shows_root (h : host) (dir : list byte) (t : host_tree) : Prop :=
  exists fi es, t = HDir (FileMode_Perm fi) es /\ os_Lstat h dir = Ok fi /\
    os_ReadDir h dir = Ok (fst <$> es) /\
    forall name t, (name, t) ∈ es -> shows h (filepath_Join dir name) t.

(** ** The scan returns what the host shows *)

Lemma height_entry name t (es : list (list byte * host_tree)) :
  (name, t) ∈ es -> (height t <= foldr (fun e n => Nat.max (height (snd e)) n) 0 es)%nat.
Proof using.
  induction es as [|e es IH]; [by intros ?%not_elem_of_nil|].
  intros [<-|Ht]%elem_of_cons; cbn; [lia|]. specialize (IH Ht). lia.
Qed.

Lemma height_bound (es : list (list byte * host_tree)) m :
  (forall name t, (name, t) ∈ es -> (height t <= m)%nat) ->
  (foldr (fun e n => Nat.max (height (snd e)) n) 0 es <= m)%nat.
Proof using.
  induction es as [|[name t] es IH]; cbn; [lia|]. intros Hm.
  pose proof (Hm name t (list_elem_of_here _ _)). specialize (IH (fun k u Hu => Hm k u (list_elem_of_further _ _ _ Hu))).
  lia.
Qed.

Lemma FileMode_regular m :
  FileMode_IsRegular m = true -> FileMode_IsDir m = false /\ FileMode_IsSymlink m = false.
Proof using.
  unfold FileMode_IsRegular, FileMode_IsDir, FileMode_IsSymlink. intros Hm%Z.eqb_eq.
  assert (forall b, Z.land ModeType b = b -> Z.land m b = 0) as Hb.
  { intros b Hb. by rewrite <- Hb, Z.land_assoc, Hm. }
  by rewrite !Hb.
Qed.

Lemma FileMode_Perm_range m : 0 <= FileMode_Perm m < 2 ^ 9.
Proof using.
  unfold FileMode_Perm. change ModePerm with (Z.ones 9). rewrite Z.land_ones by lia.
  apply Z.mod_pos_bound. lia.
Qed.

Lemma u16_Perm m : u16 (FileMode_Perm m) = FileMode_Perm m.
Proof using. pose proof (FileMode_Perm_range m). unfold u16. rewrite Z.mod_small; lia. Qed.

Lemma scanEntries_complete scan es :
  (forall name t, (name, t) ∈ es -> scan name = Ok (node_of name t)) ->
  scanEntries scan (fst <$> es) = Ok (omap (fun '(k, t) => node_of k t) es).
Proof using.
  induction es as [|[name t] es IH]; intros Hs; [done|]. cbn. rewrite (Hs name t) by left. rstep.
  rewrite IH by (intros; apply Hs; by right). rstep. by destruct (node_of name t).
Qed.

Lemma scanEntries_sound scan (R : list byte -> host_tree -> Prop) names cs :
  (forall name r, scan name = Ok r -> exists t, R name t /\ node_of name t = r) ->
  scanEntries scan names = Ok cs ->
  exists es, fst <$> es = names /\ (forall name t, (name, t) ∈ es -> R name t) /\
    cs = omap (fun '(k, t) => node_of k t) es.
Proof using.
  intros Hs. revert cs. induction names as [|name names IH]; intros cs; cbn.
  { intros <-%Ok_inj. exists []. splits; [done| |done]. by intros ? ? ?%not_elem_of_nil. }
  destruct (scan name) as [r|] eqn:Hr; rstep; [|done].
  destruct (scanEntries scan names) as [cs'|]; rstep; [|done]. intros <-%Ok_inj.
  destruct (Hs _ _ Hr) as (t & Ht & Hn). destruct (IH _ eq_refl) as (es & Hes & Hall & ->).
  exists ((name, t) :: es). splits.
  - cbn. by rewrite Hes.
  - intros k u [[= -> ->]|Hu]%elem_of_cons; [done|by apply Hall].
  - cbn. rewrite Hn. by destruct r.
Qed.

(** Outside directories the scan does not recurse. *)
Lemma scanEntry_leaf fuel h path name fi :
  os_Lstat h path = Ok fi -> FileMode_IsDir fi = false ->
  scanEntry fuel h path name =
    if FileMode_IsSymlink fi then
      target ← os_Readlink h path; Ok (node_of name (HLink target))
    else if FileMode_IsRegular fi then
      data ← os_ReadFile h path; Ok (node_of name (HFile (FileMode_Perm fi) data))
    else Ok None.
Proof using. intros Hl Hd. destruct fuel; cbn; rewrite Hl; rstep; by rewrite Hd, u16_Perm. Qed.

Lemma scanEntry_complete h fuel path name t :
  shows h path t -> (height t <= fuel)%nat -> scanEntry fuel h path name = Ok (node_of name t).
Proof using.
  revert path name t. induction fuel as [|fuel IH]; intros path name t Hs Hh;
    inversion Hs as [? fi es Hl Hd Hr Hc|? fi target Hl Hd Hy Hr|? fi data Hl Hg Hr|? fi Hl Hd Hy Hg]; subst.
  all: try by rewrite (scanEntry_leaf _ _ _ _ _ Hl Hd), Hy, ?Hg, ?Hr.
  all: try by destruct (FileMode_regular _ Hg) as [Hd Hy]; rewrite (scanEntry_leaf _ _ _ _ _ Hl Hd), Hy, Hg, Hr.
  - cbn in Hh. lia.
  - cbn [scanEntry node_of]. rewrite Hl. rstep. rewrite Hd, Hr, u16_Perm. rstep.
    rewrite (scanEntries_complete _ es); [done|]. intros k u Hu. apply IH; [by apply Hc|].
    pose proof (height_entry _ _ _ Hu). cbn in Hh. lia.
Qed.

Lemma scanEntry_sound h fuel path name r :
  scanEntry fuel h path name = Ok r ->
  exists t, shows h path t /\ node_of name t = r /\ (height t <= fuel)%nat.
Proof using.
  revert path name r. induction fuel as [|fuel IH]; intros path name r Hs.
  all: destruct (os_Lstat h path) as [fi|] eqn:Hl; [|cbn in Hs; by rewrite Hl in Hs].
  all: destruct (FileMode_IsDir fi) eqn:Hd.
  all: try (rewrite (scanEntry_leaf _ _ _ _ _ Hl Hd) in Hs; revert Hs;
    destruct (FileMode_IsSymlink fi) eqn:Hy; [|destruct (FileMode_IsRegular fi) eqn:Hg];
    [destruct (os_Readlink h path) eqn:Hr|destruct (os_ReadFile h path) eqn:Hr|]; rstep; try done;
    intros <-%Ok_inj; eexists; (split;
    [first [eapply shows_link; eassumption|eapply shows_file; eassumption|eapply shows_other; eassumption]|split; [done|cbn; lia]])).
  - cbn in Hs. rewrite Hl in Hs. revert Hs. rstep. by rewrite Hd.
  - cbn [scanEntry] in Hs. rewrite Hl in Hs. revert Hs. rstep. rewrite Hd. cbv iota.
    destruct (os_ReadDir h path) as [names|] eqn:Hr; rstep; [|done].
    destruct (scanEntries _ names) as [cs|] eqn:Hcs; rstep; [|done]. intros <-%Ok_inj.
    apply (scanEntries_sound _ (fun k u => shows h (filepath_Join path k) u /\ (height u <= fuel)%nat))
      in Hcs as (es & <- & Hes & ->).
    2:{ intros k r Hk. destruct (IH _ _ _ Hk) as (u & Hu & Hn & Hh). by exists u. }
    exists (HDir (FileMode_Perm fi) es). rewrite u16_Perm. splits; [|done|].
    + apply shows_dir; [done..|]. intros k u Hu. by apply Hes.
    + cbn. apply le_n_S, height_bound. intros k u Hu. by destruct (Hes _ _ Hu).
Qed.

(** What the host shows, the scan returns, given fuel for its height; and it
    returns nothing else. *)
Lemma scanDir_complete h fuel dir t root :
  shows_root h dir t -> node_of [] t = Some root -> (height t <= S fuel)%nat ->
  scanDir fuel h dir = Ok root.
Proof using.
  intros (fi & es & -> & Hl & Hr & Hc) Hn Hh. unfold scanDir. rewrite Hl. rstep. rewrite Hr, u16_Perm. rstep.
  rewrite (scanEntries_complete _ es); [cbn in Hn; by injection Hn as <-|]. intros k u Hu.
  apply scanEntry_complete; [by apply Hc|]. pose proof (height_entry _ _ _ Hu). cbn in Hh. lia.
Qed.

Lemma scanDir_sound h fuel dir root :
  scanDir fuel h dir = Ok root ->
  exists t, shows_root h dir t /\ node_of [] t = Some root /\ (height t <= S fuel)%nat.
Proof using.
  unfold scanDir. destruct (os_Lstat h dir) as [fi|] eqn:Hl; rstep; [|done].
  destruct (os_ReadDir h dir) as [names|] eqn:Hr; rstep; [|done].
  destruct (scanEntries _ names) as [cs|] eqn:Hcs; rstep; [|done]. intros <-%Ok_inj.
  apply (scanEntries_sound _ (fun k u => shows h (filepath_Join dir k) u /\ (height u <= fuel)%nat))
    in Hcs as (es & <- & Hes & ->).
  2:{ intros k r (u & Hu & Hn & Hh)%scanEntry_sound. by exists u. }
  exists (HDir (FileMode_Perm fi) es). rewrite u16_Perm. splits; [|done|].
  - exists fi, es. splits; [done..|]. intros k u Hu. by apply Hes.
  - cbn. apply le_n_S, height_bound. intros k u Hu. by destruct (Hes _ _ Hu).
Qed.

End scan.
