(* ===== verification/Stream.v ===== *)
(** * Images that hold given bytes, and what a cursor reads from them

    [holds img off b] places bytes in an image; [chain fs at_ s] says that the
    metadata blocks from offset [at_] on decode, one after the other, to [s].
    A cursor on such a chain reads [s] as if it were contiguous, wherever the
    block boundaries fall ([read_loop_spec]). *)

From S2P Require Export Metadata.

(** The bytes [b] stand at offset [off]. *)
Definition holds (img : list byte) (off : Z) (b : list byte) : Prop :=
  exists pre post, img = pre ++ b ++ post /\ zlen pre = off.

Lemma holds_app img off a b :
  holds img off (a ++ b) -> holds img off a /\ holds img (off + zlen a) b.
Proof.
  intros (pre & post & -> & <-). split.
  - exists pre, (b ++ post). by rewrite <- !app_assoc.
  - exists (pre ++ a), post. rewrite <- !app_assoc. by rewrite zlen_app.
Qed.

Lemma holds_join img off a b :
  holds img off a -> holds img (off + zlen a) b -> holds img off (a ++ b).
Proof.
  intros (pre & post & -> & <-) (pre' & post' & E & Hl).
  exists pre, post'. split; [|done]. rewrite app_assoc in E.
  apply app_inj_1 in E as [<- ->].
  - by rewrite <- !app_assoc.
  - unfold zlen in Hl. rewrite length_app. lia.
Qed.

Lemma holds_bound img off b : holds img off b -> 0 <= off /\ off + zlen b <= zlen img.
Proof. intros (pre & post & -> & <-). rewrite !zlen_app. pose proof (zlen_nonneg pre). pose proof (zlen_nonneg post). lia. Qed.

Lemma holds_sub img off a b c : holds img off (a ++ b ++ c) -> holds img (off + zlen a) b.
Proof. intros [_ H]%holds_app. by apply holds_app in H as [H _]. Qed.

Lemma holds_end pre b : holds (pre ++ b) (zlen pre) b.
Proof. exists pre, []. by rewrite app_nil_r. Qed.

Lemma holds_extend img more off b : holds img off b -> holds (img ++ more) off b.
Proof. intros (pre & post & -> & <-). exists pre, (post ++ more). by rewrite <- !app_assoc. Qed.

Lemma holds_prepend pre img off b : holds img off b -> holds (pre ++ img) (zlen pre + off) b.
Proof. intros (p & post & -> & <-). exists (pre ++ p), post. by rewrite <- !app_assoc, zlen_app. Qed.

(** Reading bytes that are there. *)
Lemma holds_ReadAt img off b :
  b <> [] -> holds img off b -> ReadAt (bytes_Reader img) off (length b) = Ok b.
Proof. intros Hb (pre & post & -> & <-). by apply bytes_ReadAt_app. Qed.

(** The decoded blocks from an offset on. *)
Inductive chain `{CodecLib} (fs : FS) : Z -> list byte -> Prop :=
| chain_end at_ : chain fs at_ []
| chain_block at_ d next s :
    uncached (readMetaBlock (fs_rs fs) (fs_d fs) at_) = Ok (d, next) -> d <> [] ->
    chain fs next s -> chain fs at_ (d ++ s).

(** [s] is what the cursor has still to deliver. *)
Definition cursor_at `{CodecLib} (fs : FS) (c : metaCursor) (s : list byte) : Prop :=
  exists s', s = drop (mc_pos c) (mc_cur c) ++ s' /\ chain fs (mc_next c) s'.

Section stream.
Context `{CodecLib} (fs : FS).

Lemma uncached_load c :
  uncached (load fs c) =
  rbind (uncached (readMetaBlock (fs_rs fs) (fs_d fs) (mc_next c)))
    (fun '(data, next) => Ok (mkCursor next data 0)).
Proof.
  unfold load. rewrite uncached_bind, uncached_readMetaBlockCached.
  by destruct (uncached (readMetaBlock _ _ _)) as [[data next]|].
Qed.

(** The refill step of [read]: afterwards the block has bytes to deliver. *)
Lemma refill_spec c p :
  p <> [] -> cursor_at fs c p ->
  exists c1, uncached (if (length (mc_cur c) <=? mc_pos c)%nat
      then c ← load fs c;
           if (length (mc_cur c) =? 0)%nat then throw ErrUnexpectedEOF else mret c
      else mret c) = Ok c1 /\
    cursor_at fs c1 p /\ (mc_pos c1 < length (mc_cur c1))%nat.
Proof.
  intros Hp (s' & -> & Hs). destruct (Nat.leb_spec (length (mc_cur c)) (mc_pos c)) as [Hle|Hlt].
  - rewrite drop_ge in * by done. cbn [app] in *. inversion Hs as [|at_ d next s Hb Hd Hs']; subst; [done|].
    exists (mkCursor next d 0). rewrite uncached_bind, uncached_load. cbn [mc_next] in *.
    rewrite Hb. rstep. cbn [mc_cur mc_pos].
    assert (length d <> 0%nat) by (by destruct d).
    destruct (Nat.eqb_spec (length d) 0); [done|]. split_and!; [done| |lia].
    exists s. split; [by rewrite drop_0|done].
  - exists c. split_and!; [done| |done]. by exists s'.
Qed.

Lemma read_loop_spec fuel c p s :
  (length p <= fuel)%nat -> cursor_at fs c (p ++ s) ->
  exists c', uncached (read_loop fs fuel c (length p)) = Ok (p, c') /\ cursor_at fs c' s.
Proof.
  revert c p. induction fuel as [|fuel IH]; intros c p Hf Hc.
  { destruct p; [|cbn in Hf; lia]. by exists c. }
  destruct (decide (p = [])) as [->|Hp]; [by exists c|].
  destruct (refill_spec c (p ++ s)) as (c1 & Hr & (s' & Heq & Hs) & Hpos); [by destruct p|done|].
  assert (length p <> 0%nat) by (by destruct p).
  cbn [read_loop]. destruct (length p) as [|n] eqn:Hlen; [done|].
  rewrite uncached_bind, Hr. rstep. rewrite <- Hlen in *.
  set (av := drop (mc_pos c1) (mc_cur c1)) in *.
  assert (0 < length av)%nat by (unfold av; rewrite length_drop; lia).
  set (q := take (length p) av).
  assert (p = q ++ drop (length q) p) as Hq.
  { unfold q. apply (f_equal (take (length q))) in Heq as Ht. unfold q in Ht.
    rewrite <- (take_drop (length (take (length p) av)) p) at 1. f_equal.
    rewrite length_take in Ht |- *. rewrite !take_app_le in Ht by lia. rewrite Ht.
    destruct (Nat.min_spec (length p) (length av)) as [[? ->]|[? ->]]; [done|].
    rewrite take_ge by lia. by rewrite take_ge by lia. }
  destruct (IH (mkCursor (mc_next c1) (mc_cur c1) (mc_pos c1 + length q)) (drop (length q) p))
    as (c2 & Hr2 & Hc2).
  { rewrite length_drop. unfold q. rewrite length_take. lia. }
  { exists s'. split; [|done]. cbn [mc_pos mc_cur]. rewrite <- drop_drop. fold av.
    apply (f_equal (drop (length q))) in Heq. rewrite drop_app_le in Heq by (unfold q; rewrite length_take; lia).
    rewrite Heq. rewrite drop_app_le; [done|]. unfold q. rewrite length_take. lia. }
  rewrite length_drop in Hr2. rewrite uncached_bind, Hr2. rstep.
  exists c2. split; [|done]. cbn [uncached mret prog_ret]. by rewrite <- Hq.
Qed.

Lemma read_spec c p s :
  cursor_at fs c (p ++ s) ->
  exists c', uncached (read fs c (length p)) = Ok (p, c') /\ cursor_at fs c' s.
Proof. by apply read_loop_spec. Qed.

Lemma readN_spec c n p s :
  zlen p = n -> cursor_at fs c (p ++ s) ->
  exists c', uncached (readN fs c n) = Ok (p, c') /\ cursor_at fs c' s.
Proof.
  intros Hn Hc. pose proof (zlen_nonneg p). unfold readN. rewrite uncached_bind, uncached_make by lia.
  rstep. replace (Z.to_nat n) with (length p) by (unfold zlen in Hn; lia). by apply read_spec.
Qed.

Lemma newMetaCursor_spec at_ d next s a rest :
  uncached (readMetaBlock (fs_rs fs) (fs_d fs) at_) = Ok (d, next) -> chain fs next s ->
  d ++ s = a ++ rest -> zlen a <= zlen d ->
  exists c, uncached (newMetaCursor fs at_ (zlen a)) = Ok c /\ cursor_at fs c rest.
Proof.
  intros Hb Hs Heq Ha. unfold newMetaCursor. rewrite uncached_bind, uncached_load. cbn [mc_next].
  rewrite Hb. rstep. cbn [mc_cur mc_next]. destruct (Z.ltb_spec (zlen d) (zlen a)); [lia|].
  eexists. split; [done|]. exists s. split; [|done]. cbn [mc_pos mc_cur].
  apply (f_equal (drop (length a))) in Heq. rewrite drop_app_length in Heq. rewrite <- Heq.
  unfold zlen in *. rewrite Nat2Z.id. by rewrite drop_app_le by lia.
Qed.

End stream.
