(* ===== verification/InodeFormat.v ===== *)
(** * What the bytes of an inode mean

    The specification of src/inode.go: an inode of the format is a header and
    a body of one of fourteen kinds ([inode_body]), whose bytes are
    [stored_inode]; [inode_of] is what the reader is to find in them.
    [readInode_stored]: where a metadata table holds those bytes, readInode
    returns that inode, for every kind.  The lemmas on decoding a record of
    fixed-width fields serve the writer's proofs, too. *)

From S2P Require Export Stream Xattr.

#[local] Open Scope Z_scope.

(** ** Decoding concatenated fields *)

Lemma drop_PutUint16 n v k : drop (S (S n)) (le_PutUint16 v ++ k) = drop n k.
Proof. rewrite drop_app_ge; rewrite length_PutUint16; [f_equal|]; lia. Qed.
Lemma drop_PutUint32 n v k : drop (S (S (S (S n)))) (le_PutUint32 v ++ k) = drop n k.
Proof. rewrite drop_app_ge; rewrite length_PutUint32; [f_equal|]; lia. Qed.
Lemma drop_PutUint64 n v k : drop (S (S (S (S (S (S (S (S n)))))))) (le_PutUint64 v ++ k) = drop n k.
Proof. rewrite drop_app_ge; rewrite length_PutUint64; [f_equal|]; lia. Qed.
Lemma drop_zeros8 n k : drop (S (S (S (S (S (S (S (S n)))))))) (zeros 8 ++ k) = drop n k.
Proof. rewrite drop_app_ge; rewrite length_zeros; [f_equal|]; lia. Qed.

Lemma le_Uint16_take k n s : (k + 2 <= n)%nat -> le_Uint16 (drop k (take n s)) = le_Uint16 (drop k s).
Proof. intros. unfold le_Uint16. by rewrite take_drop_take. Qed.
Lemma le_Uint32_take k n s : (k + 4 <= n)%nat -> le_Uint32 (drop k (take n s)) = le_Uint32 (drop k s).
Proof. intros. unfold le_Uint32. by rewrite take_drop_take. Qed.
Lemma le_Uint64_take k n s : (k + 8 <= n)%nat -> le_Uint64 (drop k (take n s)) = le_Uint64 (drop k s).
Proof. intros. unfold le_Uint64. by rewrite take_drop_take. Qed.

(** The word at offset 0, which the code reads without a drop. *)
Lemma le_Uint16_take0 n s : (2 <= n)%nat -> le_Uint16 (take n s) = le_Uint16 s.
Proof. intros. apply (le_Uint16_take 0 n s). lia. Qed.
Lemma le_Uint32_take0 n s : (4 <= n)%nat -> le_Uint32 (take n s) = le_Uint32 s.
Proof. intros. apply (le_Uint32_take 0 n s). lia. Qed.
Lemma le_Uint64_take0 n s : (8 <= n)%nat -> le_Uint64 (take n s) = le_Uint64 s.
Proof. intros. apply (le_Uint64_take 0 n s). lia. Qed.

(** Read the fields of a record that was written with the Put functions. *)
Ltac fields := repeat progress
  rewrite ?drop_PutUint16, ?drop_PutUint32, ?drop_PutUint64, ?drop_zeros8, ?drop_0,
    ?le_Uint16_Put, ?le_Uint32_Put, ?le_Uint64_Put.

Lemma zlen_PutUint16 v : zlen (le_PutUint16 v) = 2.
Proof. unfold zlen. by rewrite length_PutUint16. Qed.
Lemma zlen_PutUint32 v : zlen (le_PutUint32 v) = 4.
Proof. unfold zlen. by rewrite length_PutUint32. Qed.
Lemma zlen_PutUint64 v : zlen (le_PutUint64 v) = 8.
Proof. unfold zlen. by rewrite length_PutUint64. Qed.

(** Lengths of records. *)
Ltac zlens := rewrite ?zlen_app, ?zlen_PutUint16, ?zlen_PutUint32, ?zlen_PutUint64, ?zlen_nil, ?zlen_cons.

(** A uint32 array on disk. *)
Definition words (l : list Z) : list byte := mjoin (le_PutUint32 <$> l).

Lemma words_cons v l : words (v :: l) = le_PutUint32 v ++ words l.
Proof. done. Qed.

Lemma words_app l k : words (l ++ k) = words l ++ words k.
Proof. unfold words. by rewrite fmap_app, join_app. Qed.

Lemma uint32s_words l k :
  Forall (fun v => 0 <= v < 2 ^ 32) l -> uint32s (length l) (words l ++ k) = l.
Proof.
  induction 1 as [|v l Hv Hl IH]; [done|]. rewrite words_cons, <- app_assoc.
  cbn [uint32s length]. fields. by rewrite u32_small, IH.
Qed.

Lemma zlen_words l : zlen (words l) = 4 * zlen l.
Proof.
  induction l as [|v l IH]; [done|].
  rewrite words_cons, zlen_app, zlen_PutUint32, zlen_cons, IH. lia.
Qed.

Lemma inodeOfHeader_take s : inodeOfHeader (take 16 s) = inodeOfHeader s.
Proof.
  unfold inodeOfHeader. rewrite le_Uint16_take0 by lia.
  rewrite !le_Uint16_take, !le_Uint32_take by lia. done.
Qed.

(** ** Reading at a reference *)

Section read.
Context `{CodecLib} (fs : FS).

Lemma readN_take c n s :
  0 <= n <= zlen s -> cursor_at fs c s ->
  exists c', uncached (readN fs c n) = Ok (take (Z.to_nat n) s, c') /\
    cursor_at fs c' (drop (Z.to_nat n) s).
Proof using.
  intros Hn Hc. apply readN_spec; [rewrite zlen_take; lia|]. by rewrite take_drop.
Qed.

(** The metadata from the inode reference [ref] on starts with [b]. *)
Definition inode_at (ref : Z) (b : list byte) : Prop :=
  exists c s,
    uncached (newMetaCursor fs (i64 (i64 (sb_InodeTableStart (fs_sb fs)) + fst (inodeRef ref)))
                (snd (inodeRef ref))) = Ok c /\ cursor_at fs c (b ++ s).

(** From the bytes of an inode to the switch on its type. *)
Lemma readInode_at ref c s :
  uncached (newMetaCursor fs (i64 (i64 (sb_InodeTableStart (fs_sb fs)) + fst (inodeRef ref)))
              (snd (inodeRef ref))) = Ok c ->
  cursor_at fs c s -> 16 <= zlen s ->
  exists c', uncached (readInode fs ref) = uncached (readInodeBody fs (inodeOfHeader s) c') /\
    cursor_at fs c' (drop 16 s).
Proof using.
  intros Hc Hs Hl. destruct (readN_take c 16 s) as (c' & Hr & Hc'); [lia|done|]. exists c'. split; [|done].
  unfold readInode. destruct (inodeRef ref) as [bo ib]. cbn [fst snd] in Hc.
  rewrite uncached_bind, Hc. rstep. rewrite uncached_bind, Hr. rstep. by rewrite inodeOfHeader_take.
Qed.

Lemma readBlockList_loop_spec fuel c szs acc rest :
  Forall (fun sz => 0 <= sz < 2 ^ 32) szs -> (length szs <= fuel)%nat ->
  cursor_at fs c (words szs ++ rest) ->
  exists c', uncached (readBlockList_loop fs fuel (length acc + length szs) c acc) = Ok (acc ++ szs, c').
Proof using.
  revert c szs acc. induction fuel as [|fuel IH]; intros c szs acc Hs Hf Hc; cbn [readBlockList_loop];
    destruct (Nat.ltb_spec (length acc) (length acc + length szs)) as [Hlt|Hge]; try lia.
  1,3: destruct szs; [|cbn in *; lia]; rewrite app_nil_r; by eexists.
  replace (length acc + length szs - length acc)%nat with (length szs) by lia.
  set (k := Nat.min (length szs) blockListChunk).
  assert (0 < k <= length szs)%nat as Hk by (unfold k, blockListChunk; lia).
  rewrite <- (take_drop k szs) in Hs, Hc. apply Forall_app in Hs as [Hs1 Hs2].
  rewrite words_app, <- app_assoc in Hc.
  destruct (read_spec fs c _ _ Hc) as (c1 & Hr & Hc1).
  assert (length (words (take k szs)) = (4 * k)%nat) as Hl.
  { pose proof (zlen_words (take k szs)) as E. unfold zlen in E. rewrite length_take in E. lia. }
  rewrite Hl in Hr. rewrite uncached_bind, Hr. rstep.
  assert (uint32s k (words (take k szs)) = take k szs) as ->.
  { replace k with (length (take k szs)) at 1 by (rewrite length_take; lia).
    rewrite <- (app_nil_r (words _)). by apply uint32s_words. }
  destruct (IH c1 (drop k szs) (acc ++ take k szs)) as (c2 & Hr2); [done|rewrite length_drop; lia|done|].
  exists c2. rewrite <- app_assoc, take_drop in Hr2.
  rewrite length_app, length_take, length_drop in Hr2.
  by replace (length acc + Nat.min k (length szs) + (length szs - k))%nat
    with (length acc + length szs)%nat in Hr2 by lia.
Qed.

Lemma readBlockList_spec i c bs szs rest :
  Forall (fun sz => 0 <= sz < 2 ^ 32) szs -> zlen szs <= 2 ^ 24 ->
  blockCount (in_Size i) bs (negb (in_fragIdx i =? invalidFrag)) = Ok (zlen szs) ->
  cursor_at fs c (words szs ++ rest) ->
  uncached (readBlockList fs i c bs) = Ok (setBlockSizes i szs).
Proof using.
  intros Hs Hl Hn Hc. unfold readBlockList. rewrite uncached_bind, uncached_lift, Hn. rstep.
  pose proof (zlen_nonneg szs). destruct (Z.ltb_spec (zlen szs) 0); [lia|].
  destruct (Z.ltb_spec (2 ^ 24) (zlen szs)); [lia|]. cbn [orb].
  rewrite uncached_bind, uncached_make by (unfold blockListChunk; lia). rstep.
  destruct (readBlockList_loop_spec (length szs) c szs [] rest) as (c' & Hr); [done|done|done|].
  unfold zlen. rewrite Nat2Z.id, uncached_bind. cbn [length app Nat.add] in Hr. by rewrite Hr.
Qed.

End read.

(** ** The format *)

(** The header all inodes share: the permission bits, the indexes of the owner
    in the id table, the time and the number. *)
Record inode_head := mkInodeHead {
  ih_perm : Z; ih_uid : Z; ih_gid : Z; ih_mtime : Z; ih_number : Z
}.

(** The body of each kind, basic and extended.  [len] is the length of a
    directory's listing; [xattr] the index of the attributes; [nlink],
    [parent], [icount], [sparse] and [rdev] are what the reader passes over.  Of
    the kinds that carry no more than these, [chr] and [sock] tell a character
    from a block device and a socket from a pipe. *)
Inductive inode_body :=
| BasicDir (start nlink len offset parent : Z)
| ExtDir (nlink len start parent icount offset xattr : Z)
| BasicFile (start fragIdx fragOffset size : Z) (sizes : list Z)
| ExtFile (start size sparse nlink fragIdx fragOffset xattr : Z) (sizes : list Z)
| BasicSymlink (nlink : Z) (target : list byte)
| ExtSymlink (nlink : Z) (target : list byte) (xattr : Z)
| BasicDev (chr : bool) (nlink rdev : Z)
| ExtDev (chr : bool) (nlink rdev xattr : Z)
| BasicIpc (sock : bool) (nlink : Z)
| ExtIpc (sock : bool) (nlink xattr : Z).

(** The number of the kind, and the type bits of its mode. *)
Definition body_type (b : inode_body) : Z :=
  match b with
  | BasicDir _ _ _ _ _ => 1 | BasicFile _ _ _ _ _ => 2 | BasicSymlink _ _ => 3
  | BasicDev chr _ _ => if chr then 5 else 4
  | BasicIpc sock _ => if sock then 7 else 6
  | ExtDir _ _ _ _ _ _ _ => 8 | ExtFile _ _ _ _ _ _ _ _ => 9 | ExtSymlink _ _ _ => 10
  | ExtDev chr _ _ _ => if chr then 12 else 11
  | ExtIpc sock _ _ => if sock then 14 else 13
  end.

Definition body_mode (b : inode_body) : Z :=
  match b with
  | BasicDir _ _ _ _ _ | ExtDir _ _ _ _ _ _ _ => 0x4000
  | BasicFile _ _ _ _ _ | ExtFile _ _ _ _ _ _ _ _ => 0x8000
  | BasicSymlink _ _ | ExtSymlink _ _ _ => 0xA000
  | BasicDev chr _ _ | ExtDev chr _ _ _ => if chr then 0x2000 else 0x6000
  | BasicIpc sock _ | ExtIpc sock _ _ => if sock then 0xC000 else 0x1000
  end.

Definition body_bytes (b : inode_body) : list byte :=
  match b with
  | BasicDir start nlink len offset parent =>
      le_PutUint32 start ++ le_PutUint32 nlink ++ le_PutUint16 (len + 3) ++ le_PutUint16 offset ++ le_PutUint32 parent
  | ExtDir nlink len start parent icount offset xattr =>
      le_PutUint32 nlink ++ le_PutUint32 (len + 3) ++ le_PutUint32 start ++ le_PutUint32 parent ++
      le_PutUint16 icount ++ le_PutUint16 offset ++ le_PutUint32 xattr
  | BasicFile start fragIdx fragOffset size sizes =>
      le_PutUint32 start ++ le_PutUint32 fragIdx ++ le_PutUint32 fragOffset ++ le_PutUint32 size ++ words sizes
  | ExtFile start size sparse nlink fragIdx fragOffset xattr sizes =>
      le_PutUint64 start ++ le_PutUint64 size ++ le_PutUint64 sparse ++ le_PutUint32 nlink ++ le_PutUint32 fragIdx ++
      le_PutUint32 fragOffset ++ le_PutUint32 xattr ++ words sizes
  | BasicSymlink nlink target => le_PutUint32 nlink ++ le_PutUint32 (zlen target) ++ target
  | ExtSymlink nlink target xattr =>
      le_PutUint32 nlink ++ le_PutUint32 (zlen target) ++ target ++ le_PutUint32 xattr
  | BasicDev _ nlink rdev => le_PutUint32 nlink ++ le_PutUint32 rdev
  | ExtDev _ nlink rdev xattr => le_PutUint32 nlink ++ le_PutUint32 rdev ++ le_PutUint32 xattr
  | BasicIpc _ nlink => le_PutUint32 nlink
  | ExtIpc _ nlink xattr => le_PutUint32 nlink ++ le_PutUint32 xattr
  end.

Definition stored_inode (h : inode_head) (b : inode_body) : list byte :=
  le_PutUint16 (body_type b) ++ le_PutUint16 (ih_perm h) ++ le_PutUint16 (ih_uid h) ++ le_PutUint16 (ih_gid h) ++
  le_PutUint32 (ih_mtime h) ++ le_PutUint32 (ih_number h) ++ body_bytes b.

(** What fits the fields; a file lists the blocks its size fills, and without
    a tail fragment the last, short one, too. *)
Definition head_ok (h : inode_head) : Prop :=
  0 <= ih_perm h < 2 ^ 12 /\ 0 <= ih_uid h < 2 ^ 16 /\ 0 <= ih_gid h < 2 ^ 16 /\
  0 <= ih_mtime h < 2 ^ 32 /\ 0 <= ih_number h < 2 ^ 32.

Definition sizes_ok (bs size fragIdx : Z) (sizes : list Z) : Prop :=
  Forall (fun sz => 0 <= sz < 2 ^ 32) sizes /\ zlen sizes <= 2 ^ 24 /\
  zlen sizes = if fragIdx =? 2 ^ 32 - 1 then (size + bs - 1) / bs else size / bs.

Definition body_ok (bs : Z) (b : inode_body) : Prop :=
  match b with
  | BasicDir start _ len offset _ => 0 <= start < 2 ^ 32 /\ 0 <= len <= 65532 /\ 0 <= offset < 2 ^ 16
  | ExtDir _ len start _ _ offset xattr =>
      0 <= start < 2 ^ 32 /\ 0 <= len <= 2 ^ 32 - 4 /\ 0 <= offset < 2 ^ 16 /\ 0 <= xattr < 2 ^ 32
  | BasicFile start fragIdx fragOffset size sizes =>
      0 <= start < 2 ^ 32 /\ 0 <= fragIdx < 2 ^ 32 /\ 0 <= fragOffset < 2 ^ 32 /\ 0 <= size < 2 ^ 32 /\
      sizes_ok bs size fragIdx sizes
  | ExtFile start size _ _ fragIdx fragOffset xattr sizes =>
      0 <= start < 2 ^ 64 /\ 0 <= fragIdx < 2 ^ 32 /\ 0 <= fragOffset < 2 ^ 32 /\ 0 <= size < 2 ^ 64 - bs /\
      0 <= xattr < 2 ^ 32 /\ sizes_ok bs size fragIdx sizes
  | BasicSymlink _ target => zlen target <= 8192
  | ExtSymlink _ target xattr => zlen target <= 8192 /\ 0 <= xattr < 2 ^ 32
  | _ => True
  end.

(** What the reader is to find.  Fields a kind does not have are zero; a kind
    without attributes has the index 2^32 - 1, and so have the extended
    devices, pipes and sockets: their index is not read. *)
Definition inode_of (h : inode_head) (b : inode_body) : inode :=
  let mk size xattr start fragIdx fragOffset sizes dirStart dirOffset target :=
    mkInode (body_type b) (ih_perm h + body_mode b) (ih_uid h) (ih_gid h) (ih_mtime h) (ih_number h)
      size xattr start fragIdx fragOffset sizes dirStart dirOffset target in
  match b with
  | BasicDir start _ len offset _ => mk len (2 ^ 32 - 1) 0 0 0 [] start offset []
  | ExtDir _ len start _ _ offset xattr => mk len xattr 0 0 0 [] start offset []
  | BasicFile start fragIdx fragOffset size sizes => mk size (2 ^ 32 - 1) start fragIdx fragOffset sizes 0 0 []
  | ExtFile start size _ _ fragIdx fragOffset xattr sizes => mk size xattr start fragIdx fragOffset sizes 0 0 []
  | BasicSymlink _ target => mk (zlen target) (2 ^ 32 - 1) 0 0 0 [] 0 0 target
  | ExtSymlink _ target xattr => mk (zlen target) xattr 0 0 0 [] 0 0 target
  | _ => mk 0 (2 ^ 32 - 1) 0 0 0 [] 0 0 []
  end.

(** ** The reader finds it *)

(** The inode after the header is decoded. *)
Definition head_inode (h : inode_head) (b : inode_body) : inode :=
  mkInode (body_type b) (ih_perm h + body_mode b) (ih_uid h) (ih_gid h) (ih_mtime h) (ih_number h)
    0 noXattr 0 0 0 [] 0 0 [].

Lemma body_type_range b : 1 <= body_type b <= 14.
Proof. destruct b as [| | | | | |[]|[]|[]|[]]; cbn; lia. Qed.

Lemma body_typeBits b : typeBits (body_type b) = body_mode b.
Proof. by destruct b as [| | | | | |[]|[]|[]|[]]. Qed.

Lemma head_mode h b : head_ok h -> Z.lor (ih_perm h) (typeBits (body_type b)) = ih_perm h + body_mode b.
Proof.
  intros [Hp _]. rewrite body_typeBits, Z.lor_comm.
  assert (exists k, body_mode b = k * 2 ^ 12) as [k ->].
  { exists (body_mode b / 2 ^ 12). by destruct b as [| | | | | |[]|[]|[]|[]]. }
  rewrite lor_shift_add by lia. lia.
Qed.

Lemma inodeOfHeader_stored h b s : head_ok h -> inodeOfHeader (stored_inode h b ++ s) = head_inode h b.
Proof.
  intros Hh. pose proof (head_mode h b Hh) as Hm. destruct Hh as (Hp & Hu & Hg & Ht & Hn). pose proof (body_type_range b).
  unfold stored_inode, inodeOfHeader. rewrite <- !app_assoc. fields.
  rewrite (u16_small (body_type b)), (u16_small (ih_perm h)), (u16_small (ih_uid h)), (u16_small (ih_gid h)),
    (u32_small (ih_mtime h)), (u32_small (ih_number h)) by lia. by rewrite Hm.
Qed.

Lemma zlen_stored_head h b : 16 <= zlen (stored_inode h b).
Proof. unfold stored_inode. zlens. pose proof (zlen_nonneg (body_bytes b)). lia. Qed.

Lemma drop_stored_head h b s : drop 16 (stored_inode h b ++ s) = body_bytes b ++ s.
Proof. unfold stored_inode. rewrite <- !app_assoc. by fields. Qed.

Section stored.
Context `{CodecLib} (fs : FS) (wf : sb_wf (fs_sb fs)).

#[local] Notation bs := (sb_BlockSize (fs_sb fs)).

Lemma blockCount_stored size fragIdx sizes :
  0 <= size < 2 ^ 64 - bs -> sizes_ok bs size fragIdx sizes ->
  blockCount size bs (negb (fragIdx =? invalidFrag)) = Ok (zlen sizes).
Proof using wf.
  intros Hs (_ & Hl & Hn). pose proof (zlen_nonneg sizes) as H0. unfold sb_wf in wf.
  unfold blockCount, udiv. destruct (Z.eqb_spec bs 0); [lia|].
  change invalidFrag with (2 ^ 32 - 1). destruct (fragIdx =? 2 ^ 32 - 1); cbn [negb]; rstep; f_equal.
  - rewrite (u64_small (size + bs)), u64_small by lia. rewrite <- Hn. apply i64_small. lia.
  - rewrite <- Hn. apply i64_small. lia.
Qed.

(** Take the branch of the switch for the kind at hand.  (By rewriting: a
    conversion would have the kernel unfold the branches.) *)
#[local] Ltac branch :=
  repeat match goal with
  | |- uncached (if ?t then _ else _) = _ => first [assert (t = true) as -> by reflexivity | assert (t = false) as -> by reflexivity]; cbv iota
  end.
#[local] Ltac switch := unfold readInodeBody; cbn [head_inode body_type in_Type]; branch.

(** Read the [n] bytes of fixed-width fields that the cursor stands before. *)
#[local] Ltac read_fields Hc n c' :=
  let c := match type of Hc with cursor_at _ ?c _ => c end in let Hr := fresh "Hr" in let Hc' := fresh "Hc" in
  edestruct (readN_take fs c n) as (c' & Hr & Hc'); [|exact Hc|]; [zlens; lia|];
  rewrite uncached_bind, Hr; rstep; clear Hr Hc; rename Hc' into Hc;
  let k := eval vm_compute in (Z.to_nat n) in change (Z.to_nat n) with k in *;
  revert Hc; rewrite ?le_Uint16_take, ?le_Uint32_take, ?le_Uint64_take, ?le_Uint32_take0, ?le_Uint64_take0 by lia;
  fields; intros Hc.

#[local] Ltac small := rewrite ?u16_small, ?u32_small, ?u64_small by lia.

Lemma readInodeBody_stored_dir h b c s :
  match b with BasicDir _ _ _ _ _ | ExtDir _ _ _ _ _ _ _ => True | _ => False end ->
  body_ok bs b -> cursor_at fs c (body_bytes b ++ s) ->
  uncached (readInodeBody fs (head_inode h b) c) = Ok (inode_of h b).
Proof using.
  pose proof (zlen_nonneg s). destruct b as [start nlink len offset parent|nlink len start parent icount offset xattr| | | | | | | |];
    try done; intros _; cbn [body_ok body_bytes].
  - intros (Hst & Hl & Ho) Hc. rewrite <- !app_assoc in Hc. switch. read_fields Hc 16 c0.
    small. unfold dirDataSize, setDir. destruct (Z.leb_spec (len + 3) 3); cbn; do 2 f_equal; lia.
  - intros (Hst & Hl & Ho & Hx) Hc. rewrite <- !app_assoc in Hc. switch. read_fields Hc 24 c0.
    small. unfold dirDataSize, setDir. destruct (Z.leb_spec (len + 3) 3); cbn; do 2 f_equal; lia.
Qed.

Lemma readInodeBody_stored_file h b c s :
  match b with BasicFile _ _ _ _ _ | ExtFile _ _ _ _ _ _ _ _ => True | _ => False end ->
  body_ok bs b -> cursor_at fs c (body_bytes b ++ s) ->
  uncached (readInodeBody fs (head_inode h b) c) = Ok (inode_of h b).
Proof using wf.
  pose proof (zlen_nonneg s). pose proof wf as Hwf. unfold sb_wf in Hwf.
  destruct b as [| |start fragIdx fragOffset size sizes|start size sparse nlink fragIdx fragOffset xattr sizes| | | | | |];
    try done; intros _; cbn [body_ok body_bytes]; pose proof (zlen_nonneg sizes); pose proof (zlen_words sizes).
  - intros (Hst & Hfi & Hfo & Hs & Hss) Hc. rewrite <- !app_assoc in Hc. switch. read_fields Hc 16 c0. small.
    rewrite (readBlockList_spec fs _ _ bs sizes s); [done|apply Hss..| |exact Hc].
    by apply blockCount_stored; [cbn; lia|].
  - intros (Hst & Hfi & Hfo & Hs & Hx & Hss) Hc. rewrite <- !app_assoc in Hc. switch. read_fields Hc 40 c0. small.
    rewrite (readBlockList_spec fs _ _ bs sizes s); [done|apply Hss..| |exact Hc].
    by apply blockCount_stored.
Qed.

Lemma readInodeBody_stored_link h b c s :
  match b with BasicSymlink _ _ | ExtSymlink _ _ _ => True | _ => False end ->
  body_ok bs b -> cursor_at fs c (body_bytes b ++ s) ->
  uncached (readInodeBody fs (head_inode h b) c) = Ok (inode_of h b).
Proof using.
  pose proof (zlen_nonneg s). destruct b as [| | | |nlink target|nlink target xattr| | | |];
    try done; intros _; cbn [body_ok body_bytes]; pose proof (zlen_nonneg target).
  - intros Hl Hc. rewrite <- !app_assoc in Hc. switch. read_fields Hc 8 c0. cbv zeta. small.
    unfold metaBlockMax. destruct (Z.ltb_spec 8192 (zlen target)); [lia|].
    edestruct (readN_spec fs c0 (zlen target) target) as (c2 & Hr2 & _); [done|exact Hc|].
    rewrite uncached_bind, Hr2. rstep. by branch.
  - intros [Hl Hx] Hc. rewrite <- !app_assoc in Hc. switch. read_fields Hc 8 c0. cbv zeta. small.
    unfold metaBlockMax. destruct (Z.ltb_spec 8192 (zlen target)); [lia|].
    edestruct (readN_spec fs c0 (zlen target) target) as (c2 & Hr2 & Hc2); [done|exact Hc|].
    rewrite uncached_bind, Hr2. rstep. branch. edestruct (readN_take fs c2 4) as (c3 & Hr3 & _); [|exact Hc2|]; [zlens; lia|].
    rewrite uncached_bind, Hr3. rstep. change (Z.to_nat 4) with 4%nat. rewrite le_Uint32_take0 by lia. fields. by small.
Qed.

(** Whatever the kind. *)
Lemma readInode_stored ref h b :
  head_ok h -> body_ok bs b -> inode_at fs ref (stored_inode h b) ->
  uncached (readInode fs ref) = Ok (inode_of h b).
Proof using wf.
  intros Hh Hb (c & s & Hnew & Hc).
  destruct (readInode_at fs ref c _ Hnew Hc) as (c1 & -> & Hc1).
  { rewrite zlen_app. pose proof (zlen_stored_head h b). pose proof (zlen_nonneg s). lia. }
  rewrite inodeOfHeader_stored by done. rewrite drop_stored_head in Hc1.
  destruct b as [| | | | | |[]|[]|[]|[]]; try done;
    first [by eapply readInodeBody_stored_dir|by eapply readInodeBody_stored_file|by eapply readInodeBody_stored_link].
Qed.

End stored.

(** The attributes of an extended device, pipe or socket are lost: whatever its
    stored index, the inode decoded from it has none. *)
Lemma special_xattrs_lost `{CodecLib} (fs : FS) h b :
  match b with ExtDev _ _ _ _ | ExtIpc _ _ _ => True | _ => False end ->
  uncached (inodeXattrs fs (inode_of h b)) = Ok None.
Proof. by destruct b. Qed.
