(* ===== verification/XattrSpec.v ===== *)
(** * What an attribute list means

    The specification of src/xattr.go: [xattr_format] says how the format
    stores the attributes of an inode (the table header, the pointer to the
    block of id entries, the entry, the list of pairs, the values stored out of
    line), and [xattr_map] what they mean.  [inodeXattrs_spec]: the reader
    returns that map, or refuses a list whose pairs exceed the budget. *)

From S2P Require Export Stream Xattr.

#[local] Open Scope Z_scope.

(** A stored pair; [xp_ref] is the reference to a value stored out of line. *)
Record xattr_pair := mkXattr {
  xp_type : Z;
  xp_name : list byte;
  xp_value : list byte;
  xp_ref : option Z
}.

Definition xattr_stored (p : xattr_pair) : list byte :=
  le_PutUint16 (match xp_ref p with Some _ => xp_type p + xattrFlagOOL | None => xp_type p end) ++
  le_PutUint16 (zlen (xp_name p)) ++ xp_name p ++
  match xp_ref p with
  | None => le_PutUint32 (zlen (xp_value p)) ++ xp_value p
  | Some r => le_PutUint32 8 ++ le_PutUint64 r
  end.

(** The full name, what a pair costs of the budget, and what a list means: a
    later pair replaces an earlier one of the same name. *)
Definition xattr_key (p : xattr_pair) : list byte := default [] (xattrPrefixes (xp_type p)) ++ xp_name p.
Definition xattr_cost (p : xattr_pair) : Z := 8 + zlen (xattr_key p) + zlen (xp_value p).
Definition xattr_total (ps : list xattr_pair) : Z := foldr (fun p z => xattr_cost p + z) 0 ps.
Definition xattr_map (ps : list xattr_pair) (m : gmap (list byte) (list byte)) : gmap (list byte) (list byte) :=
  foldl (fun m p => <[xattr_key p := xp_value p]> m) m ps.

Lemma xattr_total_nonneg ps : 0 <= xattr_total ps.
Proof.
  induction ps as [|p ps IH]; [done|]. change (0 <= xattr_cost p + xattr_total ps). unfold xattr_cost.
  pose proof (zlen_nonneg (xattr_key p)). pose proof (zlen_nonneg (xp_value p)). lia.
Qed.

Section spec.
Context `{CodecLib} (fs : FS).

(** The metadata from reference [ref] of the key/value region starts with
    [b]. *)
Definition kv_holds (t : xattrTable) (ref : Z) (b : list byte) : Prop :=
  exists c s, let '(blockOff, inBlockOff) := inodeRef ref in
    uncached (newMetaCursor fs (i64 (xt_kvStart t + blockOff)) inBlockOff) = Ok c /\ cursor_at fs c (b ++ s).

Definition xattr_ok (t : xattrTable) (p : xattr_pair) : Prop :=
  0 <= xp_type p < 3 /\ zlen (xp_name p) <= metaBlockMax /\ zlen (xp_value p) <= metaBlockMax /\
  match xp_ref p with
  | None => True
  | Some r => 0 <= r < 2 ^ 64 /\ kv_holds t r (le_PutUint32 (zlen (xp_value p)) ++ xp_value p)
  end.

(** A field of fixed width at the cursor. *)
Lemma readN_u32 c v s :
  cursor_at fs c (le_PutUint32 v ++ s) ->
  exists c', uncached (readN fs c 4) = Ok (le_PutUint32 v, c') /\ cursor_at fs c' s.
Proof using. intros Hc. apply readN_spec; [|done]. unfold zlen. by rewrite length_PutUint32. Qed.

Lemma readN_u64 c v s :
  cursor_at fs c (le_PutUint64 v ++ s) ->
  exists c', uncached (readN fs c 8) = Ok (le_PutUint64 v, c') /\ cursor_at fs c' s.
Proof using. intros Hc. apply readN_spec; [|done]. unfold zlen. by rewrite length_PutUint64. Qed.

Lemma get32 v : 0 <= v < 2 ^ 32 -> le_Uint32 (le_PutUint32 v) = v.
Proof using. intros. rewrite <- (app_nil_r (le_PutUint32 v)), le_Uint32_Put. by apply u32_small. Qed.

Lemma get64 v : 0 <= v < 2 ^ 64 -> le_Uint64 (le_PutUint64 v) = v.
Proof using. intros. rewrite <- (app_nil_r (le_PutUint64 v)), le_Uint64_Put. by apply u64_small. Qed.

(** A value: its length and its bytes. *)
Lemma readXattrValueAt_spec t r v :
  zlen v <= metaBlockMax -> kv_holds t r (le_PutUint32 (zlen v) ++ v) ->
  uncached (readXattrValueAt fs t r) = Ok v.
Proof using.
  intros Hv (c & s & Hc). unfold readXattrValueAt. destruct (inodeRef r) as [bo ib]. destruct Hc as [Hn Hc].
  rewrite uncached_bind, Hn. rstep. rewrite <- app_assoc in Hc.
  destruct (readN_u32 _ _ _ Hc) as (c1 & Hr & Hc1). rewrite uncached_bind, Hr. rstep. cbv zeta.
  pose proof (zlen_nonneg v). unfold metaBlockMax in *. rewrite get32 by lia.
  destruct (Z.ltb_spec 8192 (zlen v)); [lia|].
  destruct (readN_spec fs c1 _ v s eq_refl Hc1) as (c2 & Hr2 & _). by rewrite uncached_bind, Hr2.
Qed.

(** The value part of a pair, inline or out of line. *)
Lemma readXattrValue_spec t p c s :
  xattr_ok t p ->
  cursor_at fs c (match xp_ref p with
                  | None => le_PutUint32 (zlen (xp_value p)) ++ xp_value p
                  | Some r => le_PutUint32 8 ++ le_PutUint64 r
                  end ++ s) ->
  exists c', uncached (readXattrValue fs t c
      (match xp_ref p with Some _ => xp_type p + xattrFlagOOL | None => xp_type p end)) = Ok (xp_value p, c') /\
    cursor_at fs c' s.
Proof using.
  intros (Ht & _ & Hv & Hr) Hc. pose proof (zlen_nonneg (xp_value p)). unfold metaBlockMax in Hv.
  assert (xp_type p = 0 \/ xp_type p = 1 \/ xp_type p = 2) as Hty by lia.
  unfold readXattrValue. destruct (xp_ref p) as [r|]; rewrite <- app_assoc in Hc.
  - destruct Hr as [Hr Hkv]. destruct (readN_u32 _ _ _ Hc) as (c1 & E1 & Hc1). rewrite uncached_bind, E1. rstep.
    cbv zeta. rewrite get32 by lia.
    assert (Z.land (xp_type p + xattrFlagOOL) xattrFlagOOL =? 0 = false) as -> by (by destruct Hty as [->|[->| ->]]).
    cbn [negb]. change (8 =? 8) with true. cbn [negb].
    destruct (readN_u64 _ _ _ Hc1) as (c2 & E2 & Hc2). rewrite uncached_bind, E2. rstep.
    rewrite get64 by done. rewrite uncached_bind, (readXattrValueAt_spec _ _ _ Hv Hkv). rstep. by exists c2.
  - destruct (readN_u32 _ _ _ Hc) as (c1 & E1 & Hc1). rewrite uncached_bind, E1. rstep. cbv zeta.
    assert (Z.land (xp_type p) xattrFlagOOL =? 0 = true) as -> by (by destruct Hty as [->|[->| ->]]).
    cbn [negb]. rewrite get32 by lia. unfold metaBlockMax. destruct (Z.ltb_spec 8192 (zlen (xp_value p))); [lia|].
    by apply readN_spec.
Qed.

Lemma xattrPrefixes_stored p t :
  xattr_ok t p ->
  let typ := match xp_ref p with Some _ => xp_type p + xattrFlagOOL | None => xp_type p end in
  0 <= typ < 2 ^ 16 /\ xattrPrefixes (Z.land typ 0xFF) = Some (default [] (xattrPrefixes (xp_type p))).
Proof using.
  intros (Ht & _). assert (xp_type p = 0 \/ xp_type p = 1 \/ xp_type p = 2) as Hty by lia.
  destruct (xp_ref p); cbv zeta; (split; [unfold xattrFlagOOL; lia|]); by destruct Hty as [->|[->| ->]].
Qed.

(** The loop over the pairs. *)
Lemma readXattrPairs_loop_spec t fuel ps c s budget out :
  Forall (xattr_ok t) ps -> cursor_at fs c (mjoin (xattr_stored <$> ps) ++ s) ->
  (zlen ps <= Z.of_nat fuel \/ budget < 8 * Z.of_nat fuel) -> 0 <= budget ->
  uncached (readXattrPairs_loop fs t fuel (zlen ps) c budget out) =
    if xattr_total ps <=? budget then Ok (xattr_map ps out) else Err ErrTooLarge.
Proof using.
  intros Hok. revert fuel c budget out.
  induction Hok as [|p ps Hp Hok IH]; intros fuel c budget out Hc Hf Hb.
  { cbn. destruct fuel; cbn; by destruct (Z.leb_spec 0 budget); [|lia]. }
  pose proof (zlen_nonneg ps). pose proof (xattr_total_nonneg ps).
  pose proof (zlen_nonneg (xattr_key p)). pose proof (zlen_nonneg (xp_value p)). pose proof (zlen_nonneg (xp_name p)).
  destruct fuel as [|fuel]; [rewrite zlen_cons in Hf; lia|].
  cbn [readXattrPairs_loop xattr_total foldr fmap list_fmap mjoin list_join] in *. fold (xattr_total ps).
  rewrite zlen_cons in *. destruct (Z.leb_spec (1 + zlen ps) 0); [lia|]. unfold xattr_cost in *.
  destruct (Z.ltb_spec (budget - 8) 0).
  { destruct (Z.leb_spec (8 + zlen (xattr_key p) + zlen (xp_value p) + xattr_total ps) budget); [lia|done]. }
  pose proof (xattrPrefixes_stored p t Hp) as [Htyp Hpre]. pose proof Hp as (Ht & Hnm & Hv & Hr). unfold metaBlockMax in Hnm, Hv.
  unfold xattr_stored in Hc. set (typ := match xp_ref p with Some _ => _ | None => _ end) in *.
  rewrite <- !app_assoc in Hc.
  destruct (readN_spec fs c 4 (le_PutUint16 typ ++ le_PutUint16 (zlen (xp_name p))) _ ltac:(unfold zlen; by autorewrite with lens)
    ltac:(rewrite <- app_assoc; exact Hc)) as (c1 & E1 & Hc1).
  rewrite uncached_bind, E1. rstep. cbv zeta. rewrite le_Uint16_Put, u16_small by done.
  rewrite drop_app_length' by (by rewrite length_PutUint16).
  rewrite <- (app_nil_r (le_PutUint16 (zlen (xp_name p)))), le_Uint16_Put, u16_small by lia.
  unfold metaBlockMax. destruct (Z.ltb_spec 8192 (zlen (xp_name p))); [lia|].
  destruct (readN_spec fs c1 _ (xp_name p) _ eq_refl Hc1) as (c2 & E2 & Hc2). rewrite uncached_bind, E2. rstep.
  rewrite Hpre. cbv zeta.
  destruct (readXattrValue_spec t p c2 (mjoin (xattr_stored <$> ps) ++ s) Hp Hc2) as (c3 & E3 & Hc3). fold typ in E3.
  rewrite uncached_bind, E3. rstep. fold (xattr_key p).
  destruct (Z.ltb_spec (budget - 8 - (zlen (xattr_key p) + zlen (xp_value p))) 0).
  { destruct (Z.leb_spec (8 + zlen (xattr_key p) + zlen (xp_value p) + xattr_total ps) budget); [lia|done]. }
  replace (1 + zlen ps - 1) with (zlen ps) by lia. rewrite IH by (done || lia).
  destruct (Z.leb_spec (xattr_total ps) (budget - 8 - (zlen (xattr_key p) + zlen (xp_value p))));
    destruct (Z.leb_spec (8 + zlen (xattr_key p) + zlen (xp_value p) + xattr_total ps) budget); lia || done.
Qed.

(** ** The table *)

(** The attributes [ps] of the inodes with index [idx], as an image stores
    them: the header at the table's start, the pointer to the block of id
    entries that [idx] falls into, its entry there, and the list. *)
Record xattr_format (img : list byte) (t : xattrTable) (idx : Z) (ps : list xattr_pair) : Prop := {
  xf_image : fs_rs fs = bytes_Reader img;
  xf_start : 0 <= sb_XattrTableStart (fs_sb fs) < 2 ^ 62;
  xf_kvStart : 0 <= xt_kvStart t < 2 ^ 63;
  xf_idCount : 0 <= xt_idCount t < 2 ^ 32;
  xf_nBlocks : xt_nBlocks t = (xt_idCount t + 511) / 512;
  xf_header : exists unused, zlen unused = 4 /\
    holds img (sb_XattrTableStart (fs_sb fs)) (le_PutUint64 (xt_kvStart t) ++ le_PutUint32 (xt_idCount t) ++ unused);
  xf_inside : 0 < fs_size fs < 2 ^ 63 -> sb_XattrTableStart (fs_sb fs) + 16 + xt_nBlocks t * 8 <= fs_size fs;
  xf_size : fs_size fs < 2 ^ 63;
  xf_idx : 0 <= idx < xt_idCount t;
  xf_entry : exists ptr d next ref size, 0 <= ptr < 2 ^ 63 /\ 0 <= ref < 2 ^ 64 /\
    holds img (sb_XattrTableStart (fs_sb fs) + 16 + idx / 512 * 8) (le_PutUint64 ptr) /\
    uncached (readMetaBlock (fs_rs fs) (fs_d fs) ptr) = Ok (d, next) /\
    holds d (idx mod 512 * 16) (le_PutUint64 ref ++ le_PutUint32 (zlen ps) ++ le_PutUint32 size) /\
    kv_holds t ref (mjoin (xattr_stored <$> ps));
  xf_count : zlen ps < 2 ^ 32;
  xf_pairs : Forall (xattr_ok t) ps
}.

Section table.
Context (img : list byte) (t : xattrTable) (idx : Z) (ps : list xattr_pair) (Hf : xattr_format img t idx ps).

Lemma hasXattrTable_spec : hasXattrTable fs = true.
Proof using Hf.
  unfold hasXattrTable. pose proof (xf_start _ _ _ _ Hf). by destruct (Z.eqb_spec (sb_XattrTableStart (fs_sb fs)) 0xFFFFFFFFFFFFFFFF); [lia|].
Qed.

Lemma readXattrTable_spec : readXattrTable fs = Ok t.
Proof using Hf.
  pose proof Hf as [Himg Hst Hkv Hid Hnb (unused & Hu & Hh) Hin Hsz _ _ _ _].
  unfold readXattrTable. rewrite hasXattrTable_spec. cbn [negb]. rewrite i64_small by lia.
  assert (length (le_PutUint64 (xt_kvStart t) ++ le_PutUint32 (xt_idCount t) ++ unused) = 16%nat) as Hlen.
  { autorewrite with lens. unfold zlen in Hu. lia. }
  apply holds_ReadAt in Hh; [|by intros E; rewrite E in Hlen]. rewrite Hlen in Hh. rewrite Himg, Hh. rstep. cbv zeta.
  rewrite le_Uint64_Put, drop_app_length', le_Uint32_Put by (by rewrite length_PutUint64).
  rewrite u32_small, (u64_small (xt_kvStart t)) by lia. unfold xattrIDPerMetaBlock.
  replace (xt_idCount t + 512 - 1) with (xt_idCount t + 511) by lia. rewrite <- Hnb.
  assert (0 <= xt_nBlocks t < 2 ^ 32) as Hn.
  { rewrite Hnb. split; [apply Z.div_pos; lia|]. apply Z.div_lt_upper_bound; lia. }
  rewrite (i64_small (xt_kvStart t)) by lia.
  destruct (Z.ltb_spec 0 (fs_size fs)); cbn [andb]; [|by destruct t].
  specialize (Hin ltac:(lia)).
  rewrite !(u64_small (fs_size fs)), (u64_small (sb_XattrTableStart (fs_sb fs) + 16)), (u64_small (_ * 8)), u64_small by lia.
  destruct (Z.ltb_spec (fs_size fs) (sb_XattrTableStart (fs_sb fs))); [lia|].
  destruct (Z.ltb_spec (fs_size fs) (sb_XattrTableStart (fs_sb fs) + 16 + xt_nBlocks t * 8)); [lia|]. by destruct t.
Qed.

Lemma readXattrIDEntry_spec :
  exists ref size, uncached (readXattrIDEntry fs t idx) = Ok (mkXattrIDEntry ref (zlen ps) size) /\
    kv_holds t ref (mjoin (xattr_stored <$> ps)).
Proof using Hf.
  pose proof Hf as [Himg Hst _ Hid Hnb _ _ _ Hidx (ptr & d & next & ref & size & Hp & Href & Hptr & Hd & Hent & Hkv) Hc _].
  exists ref, (u32 size). split; [|done]. unfold readXattrIDEntry.
  destruct (Z.leb_spec (xt_idCount t) idx); [lia|]. unfold xattrIDPerMetaBlock, xattrIDEntrySize. cbv zeta.
  pose proof (Z.div_mod idx 512 ltac:(lia)). pose proof (Z.mod_pos_bound idx 512 ltac:(lia)).
  pose proof (Z.div_mod (xt_idCount t + 511) 512 ltac:(lia)).
  pose proof (Z.mod_pos_bound (xt_idCount t + 511) 512 ltac:(lia)).
  destruct (Z.leb_spec (xt_nBlocks t) (idx / 512)); [lia|].
  pose proof (Z.div_pos idx 512 ltac:(lia) ltac:(lia)). rewrite i64_add_l, <- Z.add_assoc, i64_add_l, i64_small, Z.add_assoc by lia.
  apply holds_ReadAt in Hptr; [|intros E; apply (f_equal length) in E; by rewrite length_PutUint64 in E].
  rewrite length_PutUint64 in Hptr. rewrite uncached_bind, uncached_lift, Himg, Hptr. rstep.
  rewrite <- (app_nil_r (le_PutUint64 ptr)), le_Uint64_Put, u64_small, i64_small by lia.
  rewrite uncached_bind, uncached_readMetaBlockCached, Hd. rstep.
  pose proof (holds_bound _ _ _ Hent) as [_ Hb]. assert (zlen (le_PutUint64 ref ++ le_PutUint32 (zlen ps) ++ le_PutUint32 size) = 16) as Hlen
    by (unfold zlen at 1; by autorewrite with lens). rewrite Hlen in Hb. destruct (Z.ltb_spec (zlen d) (idx mod 512 * 16 + 16)); [lia|].
  destruct Hent as (pre & post & -> & Hpre). rewrite drop_app_length' by (unfold zlen in Hpre; lia).
  rewrite <- !app_assoc, le_Uint64_Put, drop_app_length', le_Uint32_Put by (by rewrite length_PutUint64).
  rewrite app_assoc, drop_app_length', le_Uint32_Put by (autorewrite with lens; done).
  pose proof (zlen_nonneg ps). by rewrite u64_small, u32_small by lia.
Qed.

Lemma inodeXattrs_spec i :
  in_xattrIdx i = idx -> idx <> noXattr ->
  uncached (inodeXattrs fs i) =
    if xattr_total ps <=? maxXattrBytes then Ok (Some (xattr_map ps ∅)) else Err ErrTooLarge.
Proof using Hf.
  intros Hi Hno. unfold inodeXattrs. rewrite Hi, hasXattrTable_spec.
  destruct (Z.eqb_spec idx noXattr); [done|]. cbn [orb negb].
  rewrite uncached_bind, uncached_lift, readXattrTable_spec. rstep.
  destruct readXattrIDEntry_spec as (ref & size & He & (c & s & Hc)). rewrite uncached_bind, He. rstep.
  rewrite uncached_bind. unfold readXattrPairs. cbn [xe_ref xe_count]. destruct (inodeRef ref) as [bo ib].
  destruct Hc as [Hnew Hc]. rewrite uncached_bind, Hnew. rstep. pose proof (zlen_nonneg ps).
  rewrite uncached_bind, uncached_make by lia. rstep.
  rewrite (readXattrPairs_loop_spec t _ ps c s) by
    (apply (xf_pairs _ _ _ _ Hf) || done || (unfold xattrFuel; change (maxXattrBytes / 8 + 1) with 2097153; unfold maxXattrBytes; lia)).
  by destruct (_ <=? _).
Qed.

End table.
End spec.
