(* ===== verification/WriterMeta.v ===== *)
(** * Metadata the writer emits, read back

    [iw_compress] is undone by the reader's decompressor; a metadata block is
    read back by [readMetaBlock]; the blocks a metaWriter emits decode to the
    bytes written to it ([blocks_chain]); and a reference it hands out splits
    into the position of the next byte. *)

From S2P Require Export Writer Stream.

#[local] Open Scope Z_scope.

(** The part of the writer that never changes after newImageWriter. *)
Definition conf (iw : imageWriter) : BuildOptions * option compressor * Z :=
  (iw_opts iw, iw_comp iw, iw_blockSize iw).

Section meta.
Context `{CodecLib} `{EncoderLib}.

Lemma iw_compress_conf iw iw' p raw :
  conf iw = conf iw' -> iw_compress iw p raw = iw_compress iw' p raw.
Proof using. unfold iw_compress. by intros [= _ -> _]. Qed.

Lemma metaBlock_conf iw iw' p : conf iw = conf iw' -> metaBlock iw p = metaBlock iw' p.
Proof using.
  intros Hc. unfold metaBlock. rewrite (iw_compress_conf iw iw') by done.
  by injection Hc as -> _ _.
Qed.

(** The decoder the image's compression id selects decodes what the writer
    compresses. *)
Definition codec_matches (iw : imageWriter) (d : decompressor) : Prop :=
  match iw_comp iw with Some c => d = decompressor_of c | None => True end.

Context {enclaws : EncoderLaws}.

Lemma iw_compress_spec iw d p raw stored compressed maxOut :
  codec_matches iw d -> p <> [] -> zlen p <= maxOut <= maxBlockSize ->
  iw_compress iw p raw = Ok (stored, compressed) ->
  stored <> [] /\ zlen stored <= zlen p /\
  (if compressed then uncached (decompress d stored maxOut) = Ok p else stored = p).
Proof using enclaws.
  intros Hd Hp Hm. unfold iw_compress. destruct (_ || _); [by intros [= <- <-]|].
  unfold codec_matches in Hd. destruct (iw_comp iw) as [c|]; [|by intros [= <- <-]].
  rewrite observe_sane by apply compress_sane. rstep.
  destruct (compressor_compress c p) as [out|] eqn:E; [|by intros [= <- <-]].
  destruct (Z.leb_spec (zlen p) (zlen out)); intros [= <- <-]; [done|].
  destruct (compress_decompress c p out maxOut) as [Hz Hr]; [done..|]. subst d. split_and!; [done|lia|done].
Qed.

Lemma iw_compress_total iw p raw : exists r, iw_compress iw p raw = Ok r.
Proof using enclaws.
  unfold iw_compress. destruct (_ || _); [by eexists|]. destruct (iw_comp iw) as [c|]; [|by eexists].
  rewrite observe_sane by apply compress_sane. rstep.
  destruct (compressor_compress c p); [|by eexists]. destruct (_ <=? _); by eexists.
Qed.

Lemma metaBlock_total iw p : exists b, metaBlock iw p = Ok b.
Proof using enclaws.
  unfold metaBlock. destruct (iw_compress_total iw p (opt_Uncompressed (iw_opts iw))) as [[st c] ->].
  rstep. by eexists.
Qed.

(** The header word: length and flag survive in 16 bits. *)
Lemma metaHeader_word n (stored : bool) :
  0 < n <= metaBlockMax ->
  let h := if stored then Z.lor n metaHeaderCompressedBit else n in
  0 <= h < 2 ^ 16 /\ Z.ldiff h metaHeaderCompressedBit = n /\
  (Z.land h metaHeaderCompressedBit =? 0) = negb stored.
Proof using.
  unfold metaBlockMax, metaHeaderCompressedBit. change 0x8000 with (2 ^ 15). intros Hn. cbn zeta.
  assert (Z.testbit n 15 = false) as Hb by (apply (testbit_high n 15); lia).
  destruct stored.
  - assert (Z.lor n (2 ^ 15) = n + 2 ^ 15) as Hl.
    { rewrite Z.lor_comm. pose proof (lor_shift_add 1 n 15) as E. rewrite Z.mul_1_l in E. rewrite E; lia. }
    assert (Z.testbit (Z.lor n (2 ^ 15)) 15 = true) as Hb'.
    { by rewrite Z.lor_spec, Z.pow2_bits_true, orb_true_r. }
    rewrite land_bit, Hb', ldiff_bit_set by done. rewrite Hl. split_and!; [lia|lia|lia|done].
  - rewrite land_bit, Hb, ldiff_bit_clear by done. split_and!; [lia|lia|done|done].
Qed.

(** One metadata block, written then read. *)
Lemma metaBlock_read iw fs img at_ p b :
  fs_rs fs = bytes_Reader img -> codec_matches iw (fs_d fs) -> zlen img < 2 ^ 62 ->
  p <> [] -> zlen p <= metaBlockMax -> metaBlock iw p = Ok b -> holds img at_ b ->
  uncached (readMetaBlock (fs_rs fs) (fs_d fs) at_) = Ok (p, at_ + zlen b).
Proof using enclaws.
  intros Hrs Hd Himg Hp Hlen. unfold metaBlock.
  destruct (iw_compress _ _ _) as [[stored compressed]|] eqn:E; rstep; [|done]. intros <-%Ok_inj Hat.
  pose proof (holds_bound _ _ _ Hat) as Hbd. apply holds_app in Hat as [Hh Hs].
  apply (iw_compress_spec _ (fs_d fs) _ _ _ _ metaBlockMax) in E as (Hne & Hle & Hdec); [|done..|
    unfold metaBlockMax, maxBlockSize in *; lia].
  assert (0 < zlen stored) as Hpos by (destruct stored; [done|unfold zlen; cbn; lia]).
  rewrite (u16_small (zlen stored)) in * by (unfold metaBlockMax in *; lia).
  destruct (metaHeader_word (zlen stored) (negb compressed)) as (Hw & Hld & Hla); [lia|].
  set (h := if negb compressed then _ else _) in *.
  assert (zlen (le_PutUint16 h) = 2) as Hl2 by (unfold zlen; by rewrite length_PutUint16).
  rewrite zlen_app, Hl2 in Hbd. rewrite Hl2 in Hs.
  unfold readMetaBlock. rewrite Hrs, uncached_bind, uncached_lift.
  replace 2%nat with (length (le_PutUint16 h)) by apply length_PutUint16.
  rewrite holds_ReadAt; [|intros Hnil; by rewrite Hnil in Hl2|done]. rstep.
  assert (le_Uint16 (le_PutUint16 h) = h) as ->.
  { rewrite <- (app_nil_r (le_PutUint16 h)), le_Uint16_Put. by apply u16_small. }
  rewrite Hld, Hla, negb_involutive.
  destruct (Z.eqb_spec (zlen stored) 0); [lia|]. destruct (Z.ltb_spec metaBlockMax (zlen stored)); [lia|].
  cbn [orb]. rewrite uncached_bind, uncached_make by lia. rstep.
  rewrite (i64_small (at_ + 2)), (i64_small (at_ + 2 + zlen stored)) by lia.
  rewrite uncached_bind, uncached_lift. unfold zlen at 1. rewrite Nat2Z.id, holds_ReadAt by done. rstep.
  rewrite zlen_app, Hl2, Z.add_assoc. destruct compressed; cbn [negb].
  - rewrite uncached_bind, Hdec. done.
  - by subst stored.
Qed.

(** ** The blocks of a table *)

(** [bs] are metadata blocks whose payloads make up [s]; all but the last
    are full. *)
Inductive blocks_of (iw : imageWriter) : list byte -> list byte -> Prop :=
| blocks_nil : blocks_of iw [] []
| blocks_cons p b bs s :
    p <> [] -> zlen p <= metaBlockMax -> (s <> [] -> zlen p = metaBlockMax) ->
    metaBlock iw p = Ok b -> blocks_of iw bs s -> blocks_of iw (b ++ bs) (p ++ s).

Lemma blocks_of_conf iw iw' bs s : conf iw = conf iw' -> blocks_of iw bs s -> blocks_of iw' bs s.
Proof using.
  intros Hc. induction 1 as [|p b bs s Hp Hl Hf Hb _ IH]; [constructor|].
  constructor; try done. by rewrite <- (metaBlock_conf iw).
Qed.

Lemma blocks_chain iw fs img at_ bs s :
  fs_rs fs = bytes_Reader img -> codec_matches iw (fs_d fs) -> zlen img < 2 ^ 62 ->
  blocks_of iw bs s -> holds img at_ bs -> chain fs at_ s.
Proof using enclaws.
  intros Hrs Hd Himg Hb. revert at_. induction Hb as [|p b bs s Hp Hl Hf Hb _ IH]; intros at_ Hat;
    [constructor|]. apply holds_app in Hat as [Hat Hat'].
  econstructor; [by eapply metaBlock_read|done|by apply IH].
Qed.

(** A cursor at a position inside the first block. *)
Lemma blocks_cursor iw fs img at_ bs a rest :
  fs_rs fs = bytes_Reader img -> codec_matches iw (fs_d fs) -> zlen img < 2 ^ 62 ->
  blocks_of iw bs (a ++ rest) -> holds img at_ bs -> zlen a < metaBlockMax -> rest <> [] ->
  exists c, uncached (newMetaCursor fs at_ (zlen a)) = Ok c /\ cursor_at fs c rest.
Proof using enclaws.
  intros Hrs Hd Himg Hb Hat Ha Hr.
  inversion Hb as [Hbs Hnil|p b bs' s Hp Hl Hf Hmb Hbs' Hbs Heq].
  { destruct a; [|done]. cbn in Hnil. by subst rest. }
  subst bs. apply holds_app in Hat as [Hat Hat'].
  eapply (newMetaCursor_spec fs at_ p (at_ + zlen b) s); [by eapply metaBlock_read|by eapply blocks_chain|done|].
  destruct (decide (s = [])) as [->|Hs]; [|rewrite Hf by done; lia].
  rewrite app_nil_r in Heq. rewrite Heq, zlen_app. pose proof (zlen_nonneg rest). lia.
Qed.

(** ** The metaWriter *)

Definition mw_ok (m : metaWriter) : Prop := zlen (mw_buf m) < metaBlockMax.

(** When the table ends up as [out], what follows the pending bytes of [m] in
    its stream is [rest]. *)
Definition mw_final (iw : imageWriter) (m : metaWriter) (rest out : list byte) : Prop :=
  exists bs, out = mw_out m ++ bs /\ blocks_of iw bs (mw_buf m ++ rest).

Lemma mw_final_conf iw iw' m rest out :
  conf iw = conf iw' -> mw_final iw m rest out -> mw_final iw' m rest out.
Proof using. intros Hc (bs & -> & Hbs). exists bs. split; [done|]. by eapply blocks_of_conf. Qed.

(** [m'] is [m] after [p] was written. *)
Definition mw_step (m : metaWriter) (p : list byte) (m' : metaWriter) : Prop :=
  exists bs s, mw_out m' = mw_out m ++ bs /\ mw_buf m ++ p = s ++ mw_buf m' /\ (bs = [] -> s = []).

Lemma mw_step_refl m : mw_step m [] m.
Proof using. exists [], []. by rewrite !app_nil_r. Qed.

Lemma mw_step_trans m1 m2 m3 p q : mw_step m1 p m2 -> mw_step m2 q m3 -> mw_step m1 (p ++ q) m3.
Proof using.
  intros (b1 & s1 & Ho1 & Hb1 & Hn1) (b2 & s2 & Ho2 & Hb2 & Hn2). exists (b1 ++ b2), (s1 ++ s2).
  split_and!.
  - by rewrite Ho2, Ho1, app_assoc.
  - by rewrite app_assoc, Hb1, <- app_assoc, Hb2, app_assoc.
  - intros [-> ->]%app_eq_nil. rewrite Hn1, Hn2; done.
Qed.

Lemma metaBlock_nonempty iw p b : metaBlock iw p = Ok b -> b <> [].
Proof using.
  unfold metaBlock. destruct (iw_compress _ _ _) as [[st c]|]; rstep; [|done]. intros <-%Ok_inj E.
  apply (f_equal length) in E. by rewrite length_app, length_PutUint16 in E.
Qed.

Lemma write_loop_spec fuel iw m m' :
  metaWriter_write_loop fuel iw m = Ok m' ->
  mw_ok m' /\ mw_step m [] m' /\ forall rest out, mw_final iw m' rest out -> mw_final iw m rest out.
Proof using.
  revert m. induction fuel as [|fuel IH]; intros m; cbn [metaWriter_write_loop];
    destruct (Z.leb_spec metaBlockMax (zlen (mw_buf m))) as [Hfull|Hshort]; try done;
    try (intros [= <-]; split_and!; [done|apply mw_step_refl|done]).
  unfold metaWriter_emit. destruct (metaBlock iw _) as [b|] eqn:Eb; rstep; [|done]. cbn [mw_out mw_buf].
  intros (Hok & (bs & s & Ho & Hbuf & Hn) & Hfin)%IH. cbn [mw_out mw_buf] in *.
  set (p := take (Z.to_nat metaBlockMax) (mw_buf m)) in *.
  assert (zlen p = metaBlockMax) as Hp by (unfold p; rewrite zlen_take; unfold metaBlockMax in *; lia).
  assert (mw_buf m = p ++ drop (Z.to_nat metaBlockMax) (mw_buf m)) as Hm by (unfold p; by rewrite take_drop).
  split_and!; [done| |].
  - exists (b ++ bs), (p ++ s). split_and!.
    + by rewrite Ho, app_assoc.
    + rewrite Hm, <- !app_assoc. f_equal. done.
    + intros [Hb _]%app_eq_nil. by apply metaBlock_nonempty in Eb.
  - intros rest out Hf. destruct (Hfin _ _ Hf) as (bs' & -> & Hbs'). cbn [mw_out mw_buf] in *.
    exists (b ++ bs'). split; [by rewrite app_assoc|]. rewrite Hm, <- app_assoc.
    constructor; try done; [|lia]. intros Hpn. rewrite Hpn in Hp. done.
Qed.

Lemma write_loop_total fuel iw m :
  zlen (mw_buf m) <= Z.of_nat fuel -> exists m', metaWriter_write_loop fuel iw m = Ok m'.
Proof using enclaws.
  revert m. induction fuel as [|fuel IH]; intros m Hf; cbn [metaWriter_write_loop];
    destruct (Z.leb_spec metaBlockMax (zlen (mw_buf m))); try (by eexists).
  { unfold metaBlockMax in *. lia. }
  unfold metaWriter_emit. destruct (metaBlock_total iw (take (Z.to_nat metaBlockMax) (mw_buf m))) as [b ->].
  rstep. apply IH. cbn [mw_buf]. rewrite zlen_drop; unfold metaBlockMax in *; lia.
Qed.

Lemma write_spec iw m p m' :
  metaWriter_write iw m p = Ok m' ->
  mw_ok m' /\ mw_step m p m' /\
  forall rest out, mw_final iw m' rest out -> mw_final iw m (p ++ rest) out.
Proof using.
  intros (Hok & (bs & s & Ho & Hb & Hn) & Hf)%write_loop_spec. cbn [mw_out mw_buf] in *.
  split_and!; [done| |].
  - exists bs, s. by rewrite app_nil_r in Hb.
  - intros rest out (bs' & -> & Hbs')%Hf. cbn [mw_out mw_buf] in *.
    exists bs'. split; [done|]. by rewrite app_assoc.
Qed.

Lemma write_total iw m p : exists m', metaWriter_write iw m p = Ok m'.
Proof using enclaws. apply write_loop_total. cbn [mw_buf]. unfold zlen. lia. Qed.

Lemma finish_spec iw m m' :
  mw_ok m -> metaWriter_finish iw m = Ok m' -> mw_final iw m [] (mw_out m').
Proof using.
  intros Hok. unfold metaWriter_finish, mw_ok in *. destruct (Z.ltb_spec 0 (zlen (mw_buf m))) as [Hb|Hb].
  - unfold metaWriter_emit. destruct (metaBlock iw _) as [b|] eqn:E; rstep; [|done]. intros [= <-].
    exists b. cbn [mw_out]. split; [done|]. rewrite <- (app_nil_r b).
    constructor; [|lia|done|done|constructor]. intros Hn. rewrite Hn in Hb. unfold zlen in Hb. cbn in Hb. lia.
  - intros [= <-]. exists []. rewrite !app_nil_r. split; [done|].
    destruct (mw_buf m); [constructor|]. unfold zlen in Hb. cbn in Hb. lia.
Qed.

Lemma finish_total iw m : exists m', metaWriter_finish iw m = Ok m'.
Proof using enclaws.
  unfold metaWriter_finish. destruct (_ <? _); [|by eexists]. unfold metaWriter_emit.
  destruct (metaBlock_total iw (mw_buf m)) as [b ->]. rstep. by eexists.
Qed.

(** ** References *)

(** A reference is the offset of its block and a position inside it. *)
Lemma ref_value m :
  zlen (mw_out m) < 2 ^ 32 -> mw_ok m ->
  metaWriter_ref m = zlen (mw_out m) * 2 ^ 16 + zlen (mw_buf m).
Proof using.
  intros Ho Hb. unfold mw_ok, metaBlockMax in Hb. pose proof (zlen_nonneg (mw_out m)).
  pose proof (zlen_nonneg (mw_buf m)). unfold metaWriter_ref.
  rewrite Z.shiftl_mul_pow2, u64_small by lia. apply lor_shift_add; lia.
Qed.

Lemma ref_split hi lo :
  0 <= lo < 2 ^ 16 ->
  Z.shiftr (hi * 2 ^ 16 + lo) 16 = hi /\ Z.land (hi * 2 ^ 16 + lo) 0xFFFF = lo.
Proof using.
  intros Hlo. split.
  - rewrite Z.shiftr_div_pow2, Z.div_add_l, Z.div_small by lia. lia.
  - change 0xFFFF with (Z.ones 16). rewrite Z.land_ones by lia.
    rewrite Z.add_comm, Z.mod_add by lia. by apply Z.mod_small.
Qed.

Lemma inodeRef_ref m :
  zlen (mw_out m) < 2 ^ 32 -> mw_ok m ->
  inodeRef (metaWriter_ref m) = (zlen (mw_out m), zlen (mw_buf m)).
Proof using.
  intros Ho Hb. pose proof (zlen_nonneg (mw_out m)). pose proof (zlen_nonneg (mw_buf m)).
  rewrite (ref_value m Ho Hb). unfold inodeRef, mw_ok, metaBlockMax in *.
  destruct (ref_split (zlen (mw_out m)) (zlen (mw_buf m))) as [-> ->]; [lia|]. by rewrite i64_small by lia.
Qed.

(** ** A whole table, written and read *)

(** Consecutive writes, and consecutive reads. *)
Fixpoint writeAll (iw : imageWriter) (m : metaWriter) (ps : list (list byte)) : result metaWriter :=
  match ps with
  | [] => Ok m
  | p :: ps => m ← metaWriter_write iw m p; writeAll iw m ps
  end.

Fixpoint readAll (fs : FS) (c : metaCursor) (ns : list Z) : prog (list (list byte)) :=
  match ns with
  | [] => mret []
  | n :: ns => '(p, c) ← readN fs c n; ps ← readAll fs c ns; mret (p :: ps)
  end.

Lemma writeAll_spec iw m ps m' :
  mw_ok m -> writeAll iw m ps = Ok m' ->
  mw_ok m' /\ forall rest out, mw_final iw m' rest out -> mw_final iw m (mjoin ps ++ rest) out.
Proof using.
  revert m. induction ps as [|p ps IH]; intros m Hok; cbn [writeAll].
  { by intros [= <-]. }
  destruct (metaWriter_write iw m p) as [m1|] eqn:E; rstep; [|done].
  destruct (write_spec _ _ _ _ E) as (Hok1 & _ & Hf1). intros [Hok' Hf]%IH; [|done].
  split; [done|]. intros rest out Hr. change (mjoin (p :: ps)) with (p ++ mjoin ps).
  rewrite <- app_assoc. by apply Hf1, Hf.
Qed.

Lemma writeAll_total iw m ps : exists m', writeAll iw m ps = Ok m'.
Proof using enclaws.
  revert m. induction ps as [|p ps IH]; intros m; [by exists m|]. cbn [writeAll].
  destruct (write_total iw m p) as [m1 ->]. rstep. apply IH.
Qed.

Lemma readAll_spec fs c ps rest :
  cursor_at fs c (mjoin ps ++ rest) -> uncached (readAll fs c (zlen <$> ps)) = Ok ps.
Proof using.
  revert c. induction ps as [|p ps IH]; intros c Hc; [done|]. cbn [readAll fmap list_fmap].
  change (mjoin (p :: ps)) with (p ++ mjoin ps) in Hc. rewrite <- app_assoc in Hc.
  destruct (readN_spec fs c (zlen p) p _ eq_refl Hc) as (c' & Hr & Hc').
  rewrite uncached_bind, Hr. rstep. by rewrite uncached_bind, (IH c' Hc').
Qed.

(** What is written after a reference was taken is read back from it. *)
Lemma table_roundtrip iw fs img start m1 ps m2 m3 qs :
  mw_ok m1 -> writeAll iw m1 ps = Ok m2 -> metaWriter_finish iw m2 = Ok m3 ->
  fs_rs fs = bytes_Reader img -> codec_matches iw (fs_d fs) -> zlen img < 2 ^ 32 ->
  holds img start (mw_out m3) -> mjoin qs = mjoin ps -> mjoin ps <> [] ->
  let '(block, off) := inodeRef (metaWriter_ref m1) in
  uncached (c ← newMetaCursor fs (i64 (start + block)) off; readAll fs c (zlen <$> qs)) = Ok qs.
Proof using enclaws.
  intros Hok Hw Hfi Hrs Hcm Himg Hh Hqs Hne. destruct (writeAll_spec _ _ _ _ Hok Hw) as [Hok2 Hf].
  destruct (Hf _ _ (finish_spec _ _ _ Hok2 Hfi)) as (bs & Hout & Hbs). rewrite app_nil_r in Hbs.
  pose proof (holds_bound _ _ _ Hh) as Hbd. rewrite Hout in Hh, Hbd. apply holds_app in Hh as [_ Hh].
  rewrite zlen_app in Hbd. pose proof (zlen_nonneg bs). pose proof (zlen_nonneg (mw_out m1)).
  rewrite (inodeRef_ref m1) by (try done; lia). rewrite i64_small by lia.
  destruct (blocks_cursor iw fs img (start + zlen (mw_out m1)) bs (mw_buf m1) (mjoin ps))
    as (c & Hc & Hcur); try done; [lia|].
  rewrite uncached_bind, Hc. rstep. apply (readAll_spec fs c qs []). by rewrite Hqs, app_nil_r.
Qed.

End meta.
