(* ===== verification/WriterState.v ===== *)
(** * The writer's state and the image it ends up in

    Everything the writer stores is read back from the finished image, long
    after later operations have appended to it.  [final iw] says what the
    finished image must contain for the state [iw] to have been on the way to
    it; every operation [iw -> iw'] is shown to [evolve]: it keeps the
    writer's invariant, and [final iw'] implies [final iw].  Facts about what
    an operation stored then hold in the finished image by going backwards
    from it. *)

From S2P Require Export WriterMeta.

#[local] Open Scope Z_scope.

(** Reduce the projections of an updated writer state. *)
Ltac iw_simpl := cbn [iw_opts iw_comp iw_data iw_inodes iw_dirs iw_inodeNum iw_blockSize
  iw_fragBuf iw_fragEntries iw_setData iw_setInodes iw_setDirs iw_setInodeNum iw_setFrag iw_Write] in *.

(** ** The writer's invariant *)

(** The fragment entries are within their widths and point into the data. *)
Definition entries_ok (iw : imageWriter) : Prop :=
  Forall (fun fe => 0 <= fe_start fe <= zlen (iw_data iw) /\ 0 <= fe_sizeWord fe < 2 ^ 32)
    (iw_fragEntries iw).

Definition iw_ok (iw : imageWriter) : Prop :=
  iw_blockSize iw = defaultBlockSize /\ mw_ok (iw_inodes iw) /\ mw_ok (iw_dirs iw) /\
  Z.of_nat superblockSize + zlen (iw_fragEntries iw) <= zlen (iw_data iw) /\
  zlen (iw_fragBuf iw) <= defaultBlockSize /\ entries_ok iw /\ 0 <= iw_inodeNum iw < 2 ^ 32.

(** What happened to the inode table and the data: [k] inodes, of at least 24
    bytes each, were written to the one, and the other grew. *)
Definition progress (iw iw' : imageWriter) : Prop :=
  exists p k, mw_step (iw_inodes iw) p (iw_inodes iw') /\ 0 <= 24 * k <= zlen p /\
    u32 (iw_inodeNum iw') = u32 (iw_inodeNum iw + k) /\
    exists x, iw_data iw' = iw_data iw ++ x.

(** ** The log of data blocks *)

(** [l] lists the data blocks, offset and bytes on disk, written from [iw] to
    [iw']: each has an offset of its own, and every fragment entry made on the
    way is among them. *)
Record logs (iw iw' : imageWriter) (l : list (Z * Z)) : Prop := {
  lg_grow : zlen (iw_data iw) <= zlen (iw_data iw');
  lg_range : Forall (fun b => zlen (iw_data iw) <= b.1 < zlen (iw_data iw')) l;
  lg_nodup : NoDup l.*1;
  lg_frags : forall fe, fe ∈ iw_fragEntries iw' ->
    fe ∈ iw_fragEntries iw \/ (fe_start fe, blockOnDiskBytes (fe_sizeWord fe)) ∈ l
}.

Lemma logs_none iw iw' :
  (exists x, iw_data iw' = iw_data iw ++ x) -> iw_fragEntries iw' = iw_fragEntries iw -> logs iw iw' [].
Proof.
  intros [x Hx] Hf. split; [|constructor|constructor|rewrite Hf; by left].
  rewrite Hx, zlen_app. pose proof (zlen_nonneg x). lia.
Qed.

Lemma logs_refl iw : logs iw iw [].
Proof. apply logs_none; [exists []; by rewrite app_nil_r|done]. Qed.

Lemma logs_trans iw1 iw2 iw3 l k : logs iw1 iw2 l -> logs iw2 iw3 k -> logs iw1 iw3 (l ++ k).
Proof.
  intros [Hg Hr Hn Hf] [Hg' Hr' Hn' Hf']. split; [lia| | |].
  - apply Forall_app. split; (eapply Forall_impl; [eassumption|]); cbn; lia.
  - rewrite fmap_app. apply NoDup_app. splits; [done| |done].
    intros o (b & -> & Hb)%list_elem_of_fmap (c & Heq & Hc)%list_elem_of_fmap.
    rewrite Forall_forall in Hr, Hr'. specialize (Hr _ Hb). specialize (Hr' _ Hc). lia.
  - intros fe [Hfe|Hfe]%Hf'; [|right; set_solver]. destruct (Hf _ Hfe); [by left|right; set_solver].
Qed.

(** ** The finished image *)

(** The image, its handle, its fragment entries and its two tables. *)
Record image := mkImage {
  im_img : list byte;
  im_fs : FS;
  im_frags : list fragmentEntry;
  im_itab : list byte;
  im_dtab : list byte
}.

Section state.
Context `{CodecLib} `{EncoderLib}.

Record image_ok (im : image) : Prop := {
  im_rs : fs_rs (im_fs im) = bytes_Reader (im_img im);
  im_size : fs_size (im_fs im) = zlen (im_img im);
  im_small : zlen (im_img im) < 2 ^ 32;
  im_bs : sb_BlockSize (fs_sb (im_fs im)) = defaultBlockSize;
  im_inodes : holds (im_img im) (sb_InodeTableStart (fs_sb (im_fs im))) (im_itab im);
  im_dirs : holds (im_img im) (sb_DirTableStart (fs_sb (im_fs im))) (im_dtab im);
  im_entries : forall k fe, im_frags im !! k = Some fe ->
    uncached (readFragmentEntry (im_fs im) (Z.of_nat k)) = Ok fe;
  im_nfrags : zlen (im_frags im) < invalidFrag
}.

(** [iw] is a state on the way to the finished image. *)
Record final (im : image) (iw : imageWriter) : Prop := {
  fin_codec : codec_matches iw (fs_d (im_fs im));
  fin_data : forall off b, Z.of_nat superblockSize <= off ->
    holds (iw_data iw) off b -> holds (im_img im) off b;
  fin_inodes : exists rest, mw_final iw (iw_inodes iw) rest (im_itab im);
  fin_dirs : exists rest, mw_final iw (iw_dirs iw) rest (im_dtab im);
  fin_frags : exists more, im_frags im = iw_fragEntries iw ++ more;
  fin_fragBuf : iw_fragBuf iw <> [] -> exists fe tl,
    im_frags im !! length (iw_fragEntries iw) = Some fe /\
    uncached (readBlock (im_fs im) (i64 (fe_start fe)) (fe_sizeWord fe)) = Ok (iw_fragBuf iw ++ tl)
}.

Definition evolves (im : image) (iw iw' : imageWriter) : Prop :=
  iw_ok iw -> conf iw' = conf iw /\ iw_ok iw' /\ progress iw iw' /\ (final im iw' -> final im iw).

Lemma progress_refl iw : progress iw iw.
Proof using.
  exists [], 0. splits; [apply mw_step_refl|lia|unfold zlen; cbn; lia|by rewrite Z.add_0_r|].
  exists []. by rewrite app_nil_r.
Qed.

Lemma progress_same iw iw' :
  iw_inodes iw' = iw_inodes iw -> iw_inodeNum iw' = iw_inodeNum iw ->
  (exists x, iw_data iw' = iw_data iw ++ x) -> progress iw iw'.
Proof using.
  intros Hi Hn Hx. exists [], 0. rewrite Hi, Hn, Z.add_0_r. splits; [apply mw_step_refl|lia|unfold zlen; cbn; lia|done|done].
Qed.

Lemma progress_trans iw1 iw2 iw3 : progress iw1 iw2 -> progress iw2 iw3 -> progress iw1 iw3.
Proof using.
  intros (p & k & Hp & Hk & Hn & [x Hx]) (q & l & Hq & Hl & Hm & [y Hy]). exists (p ++ q), (k + l). splits.
  - by eapply mw_step_trans.
  - lia.
  - rewrite zlen_app. lia.
  - rewrite Hm. unfold u32 in *. rewrite Z.add_assoc.
    by rewrite <- (Zplus_mod_idemp_l (iw_inodeNum iw2)), Hn, Zplus_mod_idemp_l.
  - exists (x ++ y). by rewrite Hy, Hx, app_assoc.
Qed.

#[export] Instance evolves_preorder im : PreOrder (evolves im).
Proof using.
  split.
  - intros iw Hok. splits; [done|done|apply progress_refl|done].
  - intros iw1 iw2 iw3 H12 H23 Hok. destruct (H12 Hok) as (Hc & Hok2 & Hp & Hf).
    destruct (H23 Hok2) as (Hc' & Hok3 & Hp' & Hf').
    splits; [congruence|done|by eapply progress_trans|auto].
Qed.

Context {enclaws : EncoderLaws} (im : image) (Him : image_ok im).

#[local] Notation fs := (im_fs im).
#[local] Notation img := (im_img im).

(** Going back one step: what was in the data, the tables and the entries
    still is. *)
Lemma final_back iw iw' :
  conf iw' = conf iw -> final im iw' ->
  (exists x, iw_data iw' = iw_data iw ++ x) ->
  (forall rest out, mw_final iw (iw_inodes iw') rest out ->
     exists rest', mw_final iw (iw_inodes iw) rest' out) ->
  (forall rest out, mw_final iw (iw_dirs iw') rest out ->
     exists rest', mw_final iw (iw_dirs iw) rest' out) ->
  (exists x, iw_fragEntries iw' = iw_fragEntries iw ++ x) ->
  (iw_fragBuf iw <> [] -> exists fe tl,
    im_frags im !! length (iw_fragEntries iw) = Some fe /\
    uncached (readBlock (im_fs im) (i64 (fe_start fe)) (fe_sizeWord fe)) = Ok (iw_fragBuf iw ++ tl)) ->
  final im iw.
Proof using.
  intros Hc [Hcm Hdt [ri Hin] [rd Hdi] [more Hfr] _] [x Hx] Hi Hd [y Hy] Hb. split; [| | | | |done].
  - unfold codec_matches in *. by injection Hc as _ <- _.
  - intros off b Ho Hh. apply Hdt; [done|]. rewrite Hx. by apply holds_extend.
  - eapply Hi, mw_final_conf; [|exact Hin]. done.
  - eapply Hd, mw_final_conf; [|exact Hdi]. done.
  - exists (y ++ more). by rewrite Hfr, Hy, <- app_assoc.
Qed.

(** The same when only data was appended. *)
Lemma final_back_data iw iw' :
  conf iw' = conf iw -> final im iw' -> (exists x, iw_data iw' = iw_data iw ++ x) ->
  iw_inodes iw' = iw_inodes iw -> iw_dirs iw' = iw_dirs iw ->
  iw_fragEntries iw' = iw_fragEntries iw -> iw_fragBuf iw' = iw_fragBuf iw -> final im iw.
Proof using.
  intros Hc Hf Hx Hi Hd He Hb. eapply final_back; eauto.
  - rewrite Hi. eauto.
  - rewrite Hd. eauto.
  - exists []. by rewrite app_nil_r.
  - rewrite <- He, <- Hb. apply Hf.
Qed.

(** ** Appending to the data area *)

Lemma entries_ok_Write iw p : entries_ok iw -> entries_ok (iw_Write iw p).
Proof using.
  unfold entries_ok. iw_simpl. intros He. eapply Forall_impl; [exact He|]. intros fe.
  rewrite zlen_app. pose proof (zlen_nonneg p). lia.
Qed.

Lemma iw_Write_evolves iw p : evolves im iw (iw_Write iw p).
Proof using.
  intros (Hbs & Hi & Hd & Hl & Hf & He & Hn). splits; [done| |apply progress_same; [done|done|by exists p]|].
  - unfold iw_ok. iw_simpl. rewrite zlen_app. pose proof (zlen_nonneg p).
    splits; first [done | lia | by apply entries_ok_Write].
  - intros Hfin. eapply final_back_data; [|exact Hfin|by eexists|done..]; done.
Qed.

(** The bytes an append leaves in the finished image. *)
Lemma iw_Write_holds iw p :
  iw_ok iw -> final im (iw_Write iw p) -> holds img (zlen (iw_data iw)) p.
Proof using.
  intros (_ & _ & _ & Hl & _) [_ Hdt _ _ _ _]. apply Hdt; [|apply holds_end].
  pose proof (zlen_nonneg (iw_fragEntries iw)). lia.
Qed.

Lemma checkExtent_ok off b : holds img off b -> checkExtent fs off (zlen b) = Ok tt.
Proof using Him.
  intros Hh%holds_bound. destruct Him as [_ Hsz Hsm _ _ _ _ _]. unfold checkExtent. rewrite Hsz.
  pose proof (zlen_nonneg b). rewrite i64_small by lia.
  destruct (Z.ltb_spec off 0); [lia|]. destruct (Z.ltb_spec (zlen img - zlen b) off); [lia|].
  by rewrite andb_false_r.
Qed.

(** ** Data blocks *)

(** A data block, written then read. *)
Lemma writeDataBlock_spec iw p iw' sz :
  p <> [] -> zlen p <= defaultBlockSize -> writeDataBlock iw p = Ok (iw', sz) ->
  exists stored, iw' = iw_Write iw stored /\ blockOnDiskBytes sz = zlen stored /\
    0 < zlen stored <= defaultBlockSize /\ 0 <= sz < 2 ^ 32 /\
    (codec_matches iw (fs_d fs) -> holds img (zlen (iw_data iw)) stored ->
     uncached (readBlock fs (zlen (iw_data iw)) sz) = Ok p).
Proof using enclaws Him.
  intros Hp Hl. unfold writeDataBlock.
  destruct (iw_compress _ _ _) as [[stored compressed]|] eqn:E; rstep; [|done].
  intros [= <- <-]. exists stored. assert (codec_matches iw (fs_d fs) \/ ~ codec_matches iw (fs_d fs)) as Hdec.
  { unfold codec_matches. destruct (iw_comp iw); [|by left]. destruct (decide (fs_d fs = decompressor_of c)); auto. }
  assert (stored <> [] /\ zlen stored <= zlen p) as [Hne Hle].
  { destruct (iw_comp iw) as [c|] eqn:Ec.
    - apply (iw_compress_spec _ (decompressor_of c) _ _ _ _ defaultBlockSize) in E;
        [tauto|by (unfold codec_matches; rewrite Ec)|done|unfold defaultBlockSize, maxBlockSize in *; lia].
    - apply (iw_compress_spec _ gzipDecompressor _ _ _ _ defaultBlockSize) in E;
        [tauto|by (unfold codec_matches; rewrite Ec)|done|unfold defaultBlockSize, maxBlockSize in *; lia]. }
  assert (0 < zlen stored) by (destruct stored; [done|unfold zlen; cbn; lia]).
  unfold defaultBlockSize in *. rewrite u32_small by lia.
  assert (blockOnDiskSize (if negb compressed then Z.lor (zlen stored) dataUncompressedBit else zlen stored)
          = (zlen stored, compressed)) as Hsw.
  { destruct compressed; cbn [negb]; [apply blockOnDiskSize_compressed|apply blockOnDiskSize_stored]; lia. }
  set (sz := if negb compressed then _ else _) in *.
  assert (0 <= sz < 2 ^ 32) as Hsz.
  { unfold sz. destruct compressed; cbn [negb]; [lia|]. unfold dataUncompressedBit.
    rewrite Z.lor_comm. pose proof (lor_shift_add 1 (zlen stored) 24) as El.
    rewrite Z.mul_1_l in El. rewrite El; lia. }
  splits; [done|by injection Hsw|lia|lia|lia|lia|]. intros Hcm Hh.
  apply (iw_compress_spec _ (fs_d fs) _ _ _ _ defaultBlockSize) in E as (_ & _ & Hd);
    [|done|done|unfold defaultBlockSize, maxBlockSize in *; lia].
  pose proof (checkExtent_ok _ _ Hh) as Hce. destruct Him as [Hrs Hsi Hsm Hb _ _ _ _].
  unfold readBlock. rewrite Hsw. destruct (Z.eqb_spec (zlen stored) 0); [lia|].
  rewrite Hb. unfold defaultBlockSize in *. destruct (Z.ltb_spec 131072 (zlen stored)); [lia|].
  rewrite uncached_bind, uncached_lift, Hce. rstep.
  assert (uncached (fetchBlock fs (zlen (iw_data iw)) (zlen stored) compressed) = Ok p) as Hfb.
  { unfold fetchBlock. rewrite uncached_bind, uncached_make by lia. rstep.
    rewrite uncached_bind, uncached_lift, Hrs. unfold zlen at 2. rewrite Nat2Z.id, holds_ReadAt by done.
    rstep. destruct compressed; cbn [negb]; [|by subst stored].
    rewrite uncached_bind, Hb, Hd. done. }
  destruct compressed; [|exact Hfb]. exact Hfb.
Qed.

Lemma writeDataBlock_logs iw p iw' sz :
  p <> [] -> zlen p <= defaultBlockSize -> writeDataBlock iw p = Ok (iw', sz) ->
  0 < blockOnDiskBytes sz /\ zlen (iw_data iw') = zlen (iw_data iw) + blockOnDiskBytes sz /\
  logs iw iw' [(zlen (iw_data iw), blockOnDiskBytes sz)].
Proof using enclaws Him.
  intros Hp Hl E. destruct (writeDataBlock_spec _ _ _ _ Hp Hl E) as (stored & -> & Hsz & Hpos & _).
  rewrite Hsz. splits; [lia|iw_simpl; apply zlen_app|]. split; iw_simpl.
  1,2: rewrite zlen_app; try lia.
  - apply Forall_singleton. cbn. lia.
  - apply NoDup_singleton.
  - by left.
Qed.

Lemma writeDataBlock_total iw p : exists iw' sz, writeDataBlock iw p = Ok (iw', sz).
Proof using enclaws.
  unfold writeDataBlock. destruct (iw_compress_total iw p (opt_Uncompressed (iw_opts iw))) as [[st c] ->].
  rstep. by eexists _, _.
Qed.

(** ** Fragments *)

Lemma zlen_zero_nil {A} (l : list A) : (zlen l =? 0) = bool_decide (l = []).
Proof using. destruct l; [done|]. rewrite bool_decide_eq_false_2 by done. apply Z.eqb_neq. unfold zlen. cbn. lia. Qed.

Lemma flushFragment_spec iw iw' :
  flushFragment iw = Ok iw' -> evolves im iw iw' /\ iw_fragBuf iw' = [] /\
  (iw_fragBuf iw = [] -> iw' = iw).
Proof using enclaws Him.
  unfold flushFragment. rewrite zlen_zero_nil. case_bool_decide as Hb.
  { intros [= <-]. by splits. }
  destruct (writeDataBlock iw _) as [[iw1 sz]|] eqn:E; rstep; [|done].
  intros [= <-]. splits; [|done|done]. intros Hok.
  destruct (writeDataBlock_spec _ _ _ _ Hb ltac:(apply Hok) E) as (stored & -> & Hsz & Hpos & Hszr & Hread).
  destruct (iw_Write_evolves iw stored Hok) as (Hc & Hok1 & Hp & Hf).
  assert (Z.of_nat superblockSize <= zlen (iw_data iw)) as Hlo.
  { destruct Hok as (_ & _ & _ & Hl & _). pose proof (zlen_nonneg (iw_fragEntries iw)). lia. }
  splits; [done| |done|].
  - destruct Hok as (H1 & H2 & H3 & H4 & H5 & H6 & H7). unfold iw_ok. iw_simpl. rewrite !zlen_app.
    rewrite zlen_cons, !zlen_nil.
    unfold defaultBlockSize. splits; try done; try lia.
    pose proof (entries_ok_Write iw stored H6) as He. unfold entries_ok in *. iw_simpl.
    apply Forall_app. split; [done|]. apply Forall_singleton. cbn [fe_start fe_sizeWord].
    rewrite zlen_app. pose proof (zlen_nonneg (iw_data iw)). lia.
  - intros Hfin. assert (holds img (zlen (iw_data iw)) stored) as Hh.
    { apply (fin_data _ _ Hfin); [done|apply holds_end]. }
    pose proof (fin_codec _ _ Hfin) as Hcm. destruct (fin_frags _ _ Hfin) as [more Hfr].
    cbn in Hfr. rewrite <- app_assoc in Hfr.
    eapply final_back; [|exact Hfin|..]; eauto; try done.
    + intros _. exists (mkFragmentEntry (zlen (iw_data iw)) sz), []. rewrite Hfr.
      split; [cbn [app]; by rewrite list_lookup_middle|]. cbn [fe_start fe_sizeWord]. rewrite app_nil_r.
      pose proof (holds_bound _ _ _ Hh). pose proof (im_small im Him).
      rewrite i64_small by lia. by apply Hread.
Qed.

Lemma flushFragment_logs iw iw' : iw_ok iw -> flushFragment iw = Ok iw' -> exists l, logs iw iw' l.
Proof using enclaws Him.
  intros Hok. unfold flushFragment. rewrite zlen_zero_nil. case_bool_decide as Hb.
  { intros [= <-]. exists []. apply logs_refl. }
  destruct (writeDataBlock iw _) as [[iw1 sz]|] eqn:E; rstep; [|done]. intros [= <-].
  assert (iw_fragEntries iw1 = iw_fragEntries iw) as Hfe.
  { destruct (writeDataBlock_spec _ _ _ _ Hb ltac:(apply Hok) E) as (stored & -> & _). done. }
  destruct (writeDataBlock_logs _ _ _ _ Hb ltac:(apply Hok) E) as (_ & _ & [Hg Hr Hn Hf]).
  exists [(zlen (iw_data iw), blockOnDiskBytes sz)]. split; iw_simpl; [done..|].
  rewrite Hfe. intros fe [Hin|Hin%list_elem_of_singleton]%elem_of_app; [by left|right; subst fe].
  by apply list_elem_of_singleton.
Qed.

Lemma flushFragment_total iw : exists iw', flushFragment iw = Ok iw'.
Proof using enclaws.
  unfold flushFragment. destruct (_ =? 0); [by eexists|].
  destruct (writeDataBlock_total iw (iw_fragBuf iw)) as (iw' & sz & ->). rstep. by eexists.
Qed.

(** A tail packed into a fragment, and what the reader finds there. *)
Lemma addToFragment_spec iw tail iw' idx off :
  tail <> [] -> zlen tail <= defaultBlockSize -> addToFragment iw tail = Ok (iw', (idx, off)) ->
  evolves im iw iw' /\
  (iw_ok iw -> final im iw' -> 0 <= idx < zlen (im_frags im) /\ 0 <= off < 2 ^ 32 /\
   exists pre post, uncached (readFragment fs idx) = Ok (pre ++ tail ++ post) /\ zlen pre = off).
Proof using enclaws Him.
  intros Ht Hl. unfold addToFragment.
  destruct (if _ : bool then _ else _) as [iw1|] eqn:E; rstep; [|done]. intros [= <- <- <-].
  assert (evolves im iw iw1 /\ (iw_ok iw -> zlen (iw_fragBuf iw1) + zlen tail <= defaultBlockSize)) as [Hev Hroom].
  { destruct (Z.ltb_spec (iw_blockSize iw) (zlen (iw_fragBuf iw) + zlen tail)).
    - apply flushFragment_spec in E as (? & -> & _). split; [done|]. intros _. rewrite zlen_nil. lia.
    - injection E as <-. split; [reflexivity|]. intros (Hbs & _). lia. }
  clear E. set (iw2 := iw_setFrag iw1 _ _).
  assert (iw_ok iw1 -> final im iw2 -> exists fe tl,
    im_frags im !! length (iw_fragEntries iw1) = Some fe /\
    uncached (readBlock fs (i64 (fe_start fe)) (fe_sizeWord fe)) = Ok (iw_fragBuf iw1 ++ tail ++ tl)) as Hfe.
  { intros _ Hfin. destruct (fin_fragBuf _ _ Hfin) as (fe & tl & Hfe & Hr).
    - cbn. by intros [_ ?]%app_eq_nil.
    - cbn in *. exists fe, tl. by rewrite <- app_assoc in Hr. }
  split.
  - intros Hok. destruct (Hev Hok) as (Hc & Hok1 & Hp & Hf). specialize (Hroom Hok).
    splits; [done| |done|].
    + destruct Hok1 as (H1 & H2 & H3 & H4 & H5 & H6 & H7). unfold iw_ok, iw2. iw_simpl. rewrite zlen_app.
      splits; first [done | lia].
    + intros Hfin. apply Hf. destruct (Hfe Hok1 Hfin) as (fe & tl & Hlk & Hr).
      eapply final_back; [|exact Hfin|..]; eauto; try done.
      * exists []. by rewrite app_nil_r.
      * exists []. by rewrite app_nil_r.
  - intros Hok Hfin. destruct (Hev Hok) as (_ & Hok1 & _). destruct (Hfe Hok1 Hfin) as (fe & tl & Hlk & Hr).
    assert (zlen (iw_fragEntries iw1) < zlen (im_frags im)) as Hn.
    { apply lookup_lt_Some in Hlk. unfold zlen. lia. }
    pose proof (im_nfrags im Him). pose proof (zlen_nonneg (iw_fragEntries iw1)). unfold invalidFrag in *.
    destruct Hok1 as (_ & _ & _ & _ & Hfb & _). unfold defaultBlockSize in Hfb.
    pose proof (zlen_nonneg (iw_fragBuf iw1)).
    rewrite !u32_small by lia. splits; try lia.
    exists (iw_fragBuf iw1), tl. split; [|done]. unfold readFragment. rewrite uncached_bind.
    unfold zlen. rewrite (im_entries im Him _ _ Hlk). rstep. done.
Qed.

Lemma addToFragment_logs iw tail iw' io :
  iw_ok iw -> addToFragment iw tail = Ok (iw', io) -> exists l, logs iw iw' l.
Proof using enclaws Him.
  intros Hok. unfold addToFragment. destruct (if _ : bool then _ else _) as [iw1|] eqn:E; rstep; [|done].
  intros [= <- _]. assert (exists l, logs iw iw1 l) as [l Hl].
  { revert E. destruct (_ <? _); [by apply flushFragment_logs|]. intros [= <-]. exists []. apply logs_refl. }
  exists (l ++ []). eapply logs_trans; [exact Hl|]. apply logs_none; [|done]. exists []. by rewrite app_nil_r.
Qed.

Lemma addToFragment_total iw tail : exists iw' io, addToFragment iw tail = Ok (iw', io).
Proof using enclaws.
  unfold addToFragment. destruct (_ <? _); [|rstep; by eexists _, _].
  destruct (flushFragment_total iw) as [iw1 ->]. rstep. by eexists _, _.
Qed.

(** The data area is no longer than the image. *)
Lemma final_data_bound iw : iw_ok iw -> final im iw -> zlen (iw_data iw) <= zlen img.
Proof using.
  intros (_ & _ & _ & Hl & _) Hfin. pose proof (zlen_nonneg (iw_fragEntries iw)).
  assert (holds img (Z.of_nat superblockSize) (drop superblockSize (iw_data iw))) as Hh.
  { apply (fin_data _ _ Hfin); [done|]. exists (take superblockSize (iw_data iw)), [].
    rewrite app_nil_r, take_drop. split; [done|]. unfold zlen in *. rewrite length_take. lia. }
  apply holds_bound in Hh. unfold zlen in *. rewrite length_drop in Hh. lia.
Qed.

(** ** Writing an inode *)

(** The common end of the three emit functions: a number, a reference, and a
    body of at least 24 bytes. *)
Definition putInode (iw : imageWriter) (body : Z -> list byte) : result (imageWriter * (Z * Z)) :=
  let '(iw, num) := nextInode iw in
  let ref := metaWriter_ref (iw_inodes iw) in
  iw ← iw_writeInodes iw (body num);
  Ok (iw, (num, ref)).

(** [num] and [ref] were handed out between two states. *)
Definition handed (iw iw' : imageWriter) (num ref : Z) : Prop :=
  exists s, progress iw s /\ ref = metaWriter_ref (iw_inodes s) /\ num = u32 (iw_inodeNum s + 1) /\
    mw_ok (iw_inodes s) /\ progress s iw'.

Lemma handed_from iw iw1 iw' num ref : progress iw iw1 -> handed iw1 iw' num ref -> handed iw iw' num ref.
Proof using. intros Hp (s & Hs & Hrest). exists s. split; [by eapply progress_trans|done]. Qed.

Lemma progress_out iw iw' :
  progress iw iw' -> exists out, mw_out (iw_inodes iw') = mw_out (iw_inodes iw) ++ out.
Proof using. intros (p & k & (bs & s & Ho & _) & _). by exists bs. Qed.

Lemma handed_to iw iw1 iw' num ref : handed iw iw1 num ref -> progress iw1 iw' -> handed iw iw' num ref.
Proof using.
  intros (s & Hs & Hr & Hn & Hm & Hs1) Hp. exists s.
  splits; [done|done|done|done|by eapply progress_trans].
Qed.

Lemma putInode_spec iw body iw' num ref :
  (forall num, 24 <= zlen (body num)) -> putInode iw body = Ok (iw', (num, ref)) ->
  evolves im iw iw' /\ (iw_ok iw -> 0 <= num < 2 ^ 32 /\ handed iw iw' num ref) /\
  (iw_ok iw -> final im iw' -> exists c rest,
     uncached (newMetaCursor fs (i64 (i64 (sb_InodeTableStart (fs_sb fs)) + fst (inodeRef ref)))
                 (snd (inodeRef ref))) = Ok c /\
     cursor_at fs c (body num ++ rest)).
Proof using enclaws Him.
  intros Hlen. unfold putInode, nextInode, iw_writeInodes. cbn [iw_inodes iw_setInodeNum].
  destruct (metaWriter_write _ _ _) as [m|] eqn:E; rstep; [|done]. intros [= <- <- <-].
  set (num := u32 (iw_inodeNum iw + 1)) in *.
  destruct (write_spec _ _ _ _ E) as (Hmok & Hstep & Hfin).
  assert (progress iw (iw_setInodes (iw_setInodeNum iw num) m)) as Hprog.
  { exists (body num), 1. cbn. splits; [done|lia|by pose proof (Hlen num); lia| |].
    - unfold num, u32. by rewrite Z.mod_mod.
    - exists []. by rewrite app_nil_r. }
  pose proof (u32_range (iw_inodeNum iw + 1)) as Hr.
  assert (iw_ok iw -> final im (iw_setInodes (iw_setInodeNum iw num) m) ->
    exists rest, mw_final iw (iw_inodes iw) (body num ++ rest) (im_itab im)) as Hmf.
  { intros _ Hf. destruct (fin_inodes _ _ Hf) as (rest & bs & Hb1 & Hb2). cbn in Hb1, Hb2.
    exists rest. destruct (Hfin rest (im_itab im)) as (bs' & Ho & Hb').
    - exists bs. split; [done|]. by eapply blocks_of_conf; [|exact Hb2].
    - exists bs'. split; [done|]. by eapply blocks_of_conf; [|exact Hb']. }
  splits.
  - intros Hok. destruct (Hok) as (H1 & H2 & H3 & H4 & H5 & H6 & H7). splits; [done|splits; first [done | lia]|done|].
    intros Hf. eapply final_back; [|exact Hf|..]; eauto; try done.
    + exists []. by rewrite app_nil_r.
    + intros rest out Hm. exists (body num ++ rest). by eapply mw_final_conf, Hfin, mw_final_conf, Hm.
    + exists []. by rewrite app_nil_r.
    + apply (fin_fragBuf _ _ Hf).
  - intros Hok. split; [done|]. exists iw. splits; [apply progress_refl|done|done|apply Hok|done].
  - intros Hok Hf. destruct (Hmf Hok Hf) as (rest & bs & Ho & Hbs).
    pose proof (fin_codec _ _ Hf) as Hcm. pose proof (im_inodes im Him) as Hit.
    pose proof (im_small im Him). pose proof (holds_bound _ _ _ Hit) as Hbd.
    rewrite Ho in Hit, Hbd. apply holds_app in Hit as [_ Hit]. rewrite zlen_app in Hbd.
    pose proof (zlen_nonneg bs). pose proof (zlen_nonneg (mw_out (iw_inodes iw))).
    assert (mw_ok (iw_inodes iw)) as Hmo by apply Hok.
    rewrite (inodeRef_ref (iw_inodes iw)) by (try done; lia). cbn [fst snd].
    destruct (blocks_cursor iw fs img (sb_InodeTableStart (fs_sb fs) + zlen (mw_out (iw_inodes iw)))
      bs (mw_buf (iw_inodes iw)) (body num ++ rest)) as (c & Hc & Hcur); try done.
    + by apply (im_rs im Him).
    + lia.
    + intros [Hn _]%app_eq_nil. pose proof (Hlen num) as Hb. by rewrite Hn in Hb.
    + exists c, rest. split; [|done]. rewrite <- Hc. do 2 f_equal.
      rewrite (i64_small (sb_InodeTableStart _)) by lia. rewrite i64_small; lia.
Qed.

Lemma putInode_logs iw body iw' nr : putInode iw body = Ok (iw', nr) -> logs iw iw' [].
Proof using.
  unfold putInode, nextInode, iw_writeInodes. destruct (metaWriter_write _ _ _); rstep; [|done].
  intros [= <- _]. apply logs_none; [|done]. exists []. by rewrite app_nil_r.
Qed.

Lemma putInode_total iw body : exists iw' nr, putInode iw body = Ok (iw', nr).
Proof using enclaws.
  unfold putInode, nextInode, iw_writeInodes.
  destruct (write_total (iw_setInodeNum iw (u32 (iw_inodeNum iw + 1)))
    (iw_inodes (iw_setInodeNum iw (u32 (iw_inodeNum iw + 1)))) (body (u32 (iw_inodeNum iw + 1)))) as [m ->].
  rstep. by eexists _, _.
Qed.

End state.
