(* ===== verification/WriterInode.v ===== *)
(** * Inodes the writer emits, decoded

    The three emit functions end in [putInode]; decoding the bytes they put
    gives back the number, the mode and the kind-specific fields. *)

From S2P Require Export WriterState InodeFormat.

#[local] Open Scope Z_scope.

(** Permission bits and type bits make up a mode. *)
Lemma mode_bits mode t :
  0 <= mode < 2 ^ 16 -> Z.land mode 0xF000 = t -> Z.lor (Z.land mode 0xFFF) t = mode.
Proof.
  intros Hm <-. rewrite <- Z.land_lor_distr_r. change (Z.lor 0xFFF 0xF000) with (Z.ones 16).
  rewrite Z.land_ones by lia. by apply Z.mod_small.
Qed.

Lemma mode_perm mode : 0 <= mode < 2 ^ 16 -> 0 <= Z.land mode 0xFFF < 2 ^ 16.
Proof.
  intros Hm. change 0xFFF with (Z.ones 12). rewrite Z.land_ones by lia.
  pose proof (Z.mod_pos_bound mode (2 ^ 12)). lia.
Qed.

(** ** Kinds of nodes *)

Definition node_type (n : node) : Z := Z.land (n_mode n) 0xF000.

(** The header an emit function writes decodes to the number and the mode. *)
Definition header_of (i : inode) (typ : Z) (n : node) (num : Z) : Prop :=
  in_Type i = typ /\ in_Mode i = n_mode n /\ in_Number i = num /\ in_xattrIdx i = noXattr.

Section inode.
Context `{CodecLib} `{EncoderLib} {enclaws : EncoderLaws} (im : image) (Him : image_ok im).

#[local] Notation fs := (im_fs im).

Lemma header_of_fields typ n num k t :
  0 <= n_mode n < 2 ^ 16 -> node_type n = t -> typeBits typ = t -> 0 <= typ < 2 ^ 16 -> 0 <= num < 2 ^ 32 ->
  header_of (inodeOfHeader (le_PutUint16 typ ++ le_PutUint16 (Z.land (n_mode n) 0xFFF) ++
    zeros 8 ++ le_PutUint32 num ++ k)) typ n num.
Proof using.
  intros Hm Ht Htb Htyp Hnum. unfold header_of, inodeOfHeader. cbn [in_Type in_Mode in_Number in_xattrIdx].
  fields. rewrite (u16_small typ), (u32_small num) by lia. rewrite u16_small by (by apply mode_perm).
  split_and!; try done. rewrite Htb. by apply mode_bits.
Qed.

(** ** Symbolic links *)

Lemma emitSymlinkInode_put iw n :
  emitSymlinkInode iw n =
  ('(iw, (num, ref)) ← putInode iw (fun num =>
     le_PutUint16 inodeBasicSymlink ++ le_PutUint16 (Z.land (n_mode n) 0xFFF) ++
     zeros 8 ++ le_PutUint32 num ++
     le_PutUint32 1 ++ le_PutUint32 (u32 (zlen (n_target n))) ++ n_target n);
   Ok (iw, setRef n num ref)).
Proof using.
  unfold emitSymlinkInode, putInode, nextInode. cbv zeta beta.
  destruct (iw_writeInodes _ _); done.
Qed.

(** What the reader finds of a link. *)
Definition link_stored (n : node) (i : inode) : Prop :=
  in_symlinkTarget i = n_target n /\ in_Size i = zlen (n_target n).

Lemma readInodeBody_symlink i c :
  in_Type i = inodeBasicSymlink ->
  readInodeBody fs i c =
    ('(b, c) ← readN fs c 8;
     let n := le_Uint32 (drop 4 b) in
     if metaBlockMax <? n then throw ErrCorrupt
     else '(target, c) ← readN fs c n; mret (setSymlink i target n (in_xattrIdx i))).
Proof using. intros Ht. unfold readInodeBody. by rewrite Ht. Qed.

Lemma emitSymlinkInode_spec iw n iw' n' :
  0 <= n_mode n < 2 ^ 16 -> node_type n = sIFLNK -> zlen (n_target n) <= metaBlockMax ->
  emitSymlinkInode iw n = Ok (iw', n') ->
  evolves im iw iw' /\
  exists num ref, n' = setRef n num ref /\
    (iw_ok iw -> handed iw iw' num ref) /\
    (iw_ok iw -> final im iw' -> exists i, uncached (readInode fs ref) = Ok i /\
       header_of i inodeBasicSymlink n num /\ link_stored n i).
Proof using enclaws Him.
  intros Hm Ht Hl. rewrite emitSymlinkInode_put.
  destruct (putInode iw _) as [[iw1 [num ref]]|] eqn:E; rstep; [|done]. intros [= <- <-].
  apply (putInode_spec im Him) in E as (Hev & Hh & Hc).
  2:{ intros k. zlens. unfold zlen. cbn. lia. }
  split; [done|]. exists num, ref. split; [done|]. split; [intros Hok; by apply Hh|].
  intros Hok Hfin. destruct (Hh Hok) as [Hnum _]. destruct (Hc Hok Hfin) as (c & rest & Hcur & Hs).
  unfold metaBlockMax in Hl. pose proof (zlen_nonneg (n_target n)). pose proof (zlen_nonneg rest).
  rewrite <- !app_assoc in Hs.
  destruct (readInode_at fs ref c _ Hcur Hs) as (c1 & -> & Hs1).
  { zlens. change (zlen (zeros 8)) with 8. lia. }
  match goal with |- context [inodeOfHeader ?h] => set (i0 := inodeOfHeader h) end.
  assert (header_of i0 inodeBasicSymlink n num) as Hhd by (by eapply (header_of_fields _ _ _ _ _ Hm Ht)).
  revert Hs1. fields. intros Hs1.
  edestruct (readN_take fs c1 8) as (c2 & Hr2 & Hs2); [|exact Hs1|]; [zlens; lia|].
  rewrite readInodeBody_symlink by apply Hhd. rewrite uncached_bind, Hr2. rstep.
  change (Z.to_nat 8) with 8%nat in *. rewrite le_Uint32_take by lia. revert Hs2. fields. intros Hs2.
  rewrite u32_small by (rewrite u32_small; lia). rewrite u32_small by lia. cbv zeta.
  unfold metaBlockMax. destruct (Z.ltb_spec 8192 (zlen (n_target n))); [lia|].
  edestruct (readN_spec fs c2 (zlen (n_target n)) (n_target n)) as (c3 & Hr3 & _); [done|exact Hs2|].
  rewrite uncached_bind, Hr3. rstep. eexists. split; [done|]. split; [apply Hhd|]. done.
Qed.

(** ** Directories *)

(** The directory's own inode, for a listing of [len] bytes at [dirStart]. *)
Definition dirBody (n : node) (dirStart len num : Z) : list byte :=
  le_PutUint16 inodeBasicDir ++ le_PutUint16 (Z.land (n_mode n) 0xFFF) ++
  zeros 8 ++ le_PutUint32 num ++
  le_PutUint32 (u32 (Z.shiftr dirStart 16)) ++ le_PutUint32 (u32 (u32 (zlen (n_children n)) + 2)) ++
  le_PutUint16 (u16 (len + 3)) ++ le_PutUint16 (u16 (Z.land dirStart 0xFFFF)) ++
  le_PutUint32 1.

Lemma emitDirInode_put iw n :
  emitDirInode iw n =
  (let n := setChildren n (sortChildren (n_children n)) in
   let dirStart := metaWriter_ref (iw_dirs iw) in
   listing ← buildDirListing n;
   iw ← iw_writeDirs iw listing;
   '(iw, (num, ref)) ← putInode iw (dirBody n dirStart (zlen listing));
   Ok (iw, setRef n num ref)).
Proof using.
  unfold emitDirInode, putInode, nextInode. cbv zeta beta.
  destruct (buildDirListing _); [|done]. rstep. destruct (iw_writeDirs _ _); [|done]. rstep.
  unfold dirBody. destruct (iw_writeInodes _ _); done.
Qed.

Lemma readInodeBody_dir i c :
  in_Type i = inodeBasicDir ->
  readInodeBody fs i c =
    ('(b, c) ← readN fs c 16;
     mret (setDir i (le_Uint32 b) (le_Uint16 (drop 10 b)) (dirDataSize (le_Uint16 (drop 8 b)))
             (in_xattrIdx i))).
Proof using. intros Ht. unfold readInodeBody. by rewrite Ht. Qed.

Lemma dirDataSize_bias len : 0 <= len -> dirDataSize (len + 3) = len.
Proof using. intros. unfold dirDataSize. destruct (Z.leb_spec (len + 3) 3); lia. Qed.

(** The inode put for a directory, decoded: where its listing is and how long
    it is, as far as 16 bits tell. *)
Lemma dirInode_decode iw n dirStart len iw' num ref :
  0 <= n_mode n < 2 ^ 16 -> node_type n = sIFDIR ->
  0 <= dirStart < 2 ^ 48 ->
  putInode iw (dirBody n dirStart len) = Ok (iw', (num, ref)) ->
  evolves im iw iw' /\ (iw_ok iw -> handed iw iw' num ref) /\
  (iw_ok iw -> final im iw' -> exists i, uncached (readInode fs ref) = Ok i /\
     header_of i inodeBasicDir n num /\
     in_Size i = dirDataSize (u16 (len + 3)) /\
     in_dirStartBlock i = Z.shiftr dirStart 16 /\ in_dirOffset i = Z.land dirStart 0xFFFF).
Proof using enclaws Him.
  intros Hm Ht Hd E. apply (putInode_spec im Him) in E as (Hev & Hh & Hc).
  2:{ intros k. unfold dirBody. zlens. change (zlen (zeros 8)) with 8. lia. }
  split; [done|]. split; [intros Hok; by apply Hh|].
  intros Hok Hfin. destruct (Hh Hok) as [Hnum _]. destruct (Hc Hok Hfin) as (c & rest & Hcur & Hs).
  pose proof (zlen_nonneg rest). unfold dirBody in Hs. rewrite <- !app_assoc in Hs.
  destruct (readInode_at fs ref c _ Hcur Hs) as (c1 & -> & Hs1).
  { zlens. change (zlen (zeros 8)) with 8. lia. }
  match goal with |- context [inodeOfHeader ?h] => set (i0 := inodeOfHeader h) end.
  assert (header_of i0 inodeBasicDir n num) as Hhd by (by eapply (header_of_fields _ _ _ _ _ Hm Ht)).
  revert Hs1. fields. intros Hs1.
  edestruct (readN_take fs c1 16) as (c2 & Hr2 & Hs2); [|exact Hs1|]; [zlens; lia|].
  rewrite readInodeBody_dir by apply Hhd. rewrite uncached_bind, Hr2. rstep.
  change (Z.to_nat 16) with 16%nat in *. rewrite !le_Uint16_take, le_Uint32_take0 by lia. fields.
  assert (0 <= Z.shiftr dirStart 16 < 2 ^ 32) as Hhi.
  { rewrite Z.shiftr_div_pow2 by lia. split; [apply Z.div_pos; lia|].
    apply Z.div_lt_upper_bound; lia. }
  assert (0 <= Z.land dirStart 0xFFFF < 2 ^ 16) as Hlo.
  { change 0xFFFF with (Z.ones 16). rewrite Z.land_ones by lia. apply Z.mod_pos_bound. lia. }
  rewrite (u32_small (u32 (Z.shiftr dirStart 16))), (u32_small (Z.shiftr dirStart 16))
    by (rewrite ?u32_small; lia).
  rewrite (u16_small (u16 (Z.land dirStart 0xFFFF))), (u16_small (Z.land dirStart 0xFFFF))
    by (rewrite ?u16_small; lia).
  rewrite (u16_small (u16 (len + 3))) by apply u16_range. eexists. split; [done|]. split; [apply Hhd|done].
Qed.

(** A listing of up to 65532 bytes fits the size field. *)
Lemma dirInode_spec iw n dirStart len iw' num ref :
  0 <= n_mode n < 2 ^ 16 -> node_type n = sIFDIR ->
  0 <= len <= 65532 -> 0 <= dirStart < 2 ^ 48 ->
  putInode iw (dirBody n dirStart len) = Ok (iw', (num, ref)) ->
  evolves im iw iw' /\ (iw_ok iw -> handed iw iw' num ref) /\
  (iw_ok iw -> final im iw' -> exists i, uncached (readInode fs ref) = Ok i /\
     header_of i inodeBasicDir n num /\ in_Size i = len /\
     in_dirStartBlock i = Z.shiftr dirStart 16 /\ in_dirOffset i = Z.land dirStart 0xFFFF).
Proof using enclaws Him.
  intros Hm Ht Hl Hd (Hev & Hh & Hi)%dirInode_decode; [|done..]. splits; [done|done|].
  intros Hok Hfin. destruct (Hi Hok Hfin) as (i & Hr & Hhd & Hs & Hrest). exists i.
  rewrite u16_small, dirDataSize_bias in Hs by lia. done.
Qed.

End inode.
