(* ===== verification/WriterFile.v ===== *)
(** * Regular files: blocks, tail and inode, read back

    A file is cut into full blocks and a tail, which is the short last block
    or goes into a shared fragment.  Reading the emitted inode's block list,
    its blocks and its fragment gives the contents back. *)

From S2P Require Export WriterInode.

#[local] Open Scope Z_scope.

Lemma take_take_app {A} (l : list A) n m k :
  (n + m = k)%nat -> take n l ++ take m (drop n l) = take k l.
Proof. intros <-. by rewrite take_take_drop. Qed.

Section file.
Context `{CodecLib} `{EncoderLib} {enclaws : EncoderLaws} (im : image) (Him : image_ok im).

#[local] Notation fs := (im_fs im).
#[local] Notation bs := defaultBlockSize.

(** ** The blocks *)

(** What remains to be read before the blocks of [data] from [off] to
    [fullLen]: just these bytes, or more if they are full blocks. *)
Definition reads_off (remaining fullLen off : Z) : Prop :=
  remaining = Z.max 0 (fullLen - off) \/ (0 <= fullLen - off <= remaining /\ (bs | fullLen - off)).

Definition blocks_stored (start fullLen off : Z) (data : list byte) (szs : list Z) : Prop :=
  checkBlocks fs bs start szs = Ok tt /\
  forall remaining out, reads_off remaining fullLen off ->
    uncached (readBlocks fs bs start remaining szs out) =
    Ok (remaining - Z.max 0 (fullLen - off),
        out ++ take (Z.to_nat (fullLen - off)) (drop (Z.to_nat off) data)).

Definition block_count_ok (szs : list Z) (len : Z) : Prop :=
  (len <= 0 -> szs = []) /\ (0 < len -> (zlen szs - 1) * bs < len <= zlen szs * bs).

Lemma blocks_stored_nil start fullLen off data :
  fullLen <= off -> blocks_stored start fullLen off data [].
Proof using.
  intros Hle. split; [done|]. intros remaining out _. cbn [readBlocks uncached mret prog_ret].
  rewrite Z.max_l by lia. replace (Z.to_nat (fullLen - off)) with 0%nat by lia.
  by rewrite Z.sub_0_r, take_0, app_nil_r.
Qed.

(** One more block in front. *)
Lemma blocks_stored_cons start fullLen off data sz szs stored :
  let p := take (Z.to_nat (Z.min bs (fullLen - off))) (drop (Z.to_nat off) data) in
  0 <= off < fullLen -> fullLen <= zlen data ->
  blockOnDiskBytes sz = zlen stored -> 0 < zlen stored <= bs ->
  holds (im_img im) start stored -> uncached (readBlock fs start sz) = Ok p ->
  blocks_stored (start + zlen stored) fullLen (off + bs) data szs ->
  blocks_stored start fullLen off data (sz :: szs).
Proof using Him.
  intros p Hoff Hfull Hsz Hst Hh Hr [Hck Hrd].
  pose proof (holds_bound _ _ _ Hh) as Hb. pose proof (im_small im Him).
  assert (1 <= bs) as Hbs by (unfold bs; lia).
  assert (zlen p = Z.min bs (fullLen - off)) as Hp by (unfold p; rewrite zlen_take, zlen_drop; lia).
  split.
  - cbn [checkBlocks]. rewrite Hsz. destruct (Z.eqb_spec (zlen stored) 0); [lia|].
    destruct (Z.ltb_spec bs (zlen stored)); [lia|]. rewrite checkExtent_ok by done. rstep.
    by rewrite i64_small by lia.
  - intros remaining out Hrem. cbn [readBlocks]. rewrite Hsz.
    replace (if remaining <? bs then remaining else bs) with (Z.min bs remaining)
      by (destruct (Z.ltb_spec remaining bs); lia).
    assert (Z.min bs remaining = zlen p /\ reads_off (remaining - zlen p) fullLen (off + bs)) as [-> Hnext].
    { destruct Hrem as [->|[Hge [q Hq]]]; [split; [lia|left; lia]|].
      assert (1 <= q) by nia. assert (bs <= fullLen - off) by nia.
      split; [lia|right]. split; [lia|]. exists (q - 1). lia. }
    destruct (Z.eqb_spec (zlen stored) 0); [lia|]. rewrite uncached_bind, Hr. rstep.
    destruct (Z.ltb_spec (zlen p) (zlen p)); [lia|].
    rewrite uncached_bind, uncached_lift, slice_ok by lia. rstep.
    rewrite Z.sub_0_r, drop_0, (take_ge p) by (unfold zlen; lia).
    rewrite i64_small by lia. rewrite Hrd by done. f_equal. f_equal; [lia|].
    rewrite <- app_assoc. f_equal. unfold p.
    destruct (Z.le_gt_cases bs (fullLen - off)).
    + replace (Z.to_nat (off + bs)) with (Z.to_nat off + Z.to_nat bs)%nat by lia. rewrite <- drop_drop.
      rewrite Z.min_l by lia. apply take_take_app. lia.
    + replace (Z.to_nat (fullLen - (off + bs))) with 0%nat by lia.
      rewrite Z.min_r by lia. by rewrite take_0, app_nil_r.
Qed.

Lemma writeBlocks_spec fuel iw data fullLen off iw' szs :
  iw_blockSize iw = bs -> 0 <= off -> fullLen <= zlen data ->
  writeBlocks fuel iw data fullLen off = Ok (iw', szs) ->
  evolves im iw iw' /\ block_count_ok szs (fullLen - off) /\
  Forall (fun sz => 0 <= sz < 2 ^ 32) szs /\
  (iw_ok iw -> final im iw' -> blocks_stored (zlen (iw_data iw)) fullLen off data szs).
Proof using enclaws Him.
  assert (1 <= bs) as Hbs1 by (unfold bs; lia).
  revert iw off iw' szs. induction fuel as [|fuel IH]; intros iw off iw' szs Hbs Hoff Hfull;
    cbn [writeBlocks]; destruct (Z.ltb_spec off fullLen) as [Hlt|Hge]; try done.
  1,3: intros [= <- <-]; split_and!;
    [reflexivity|split; [done|lia]|apply Forall_nil_2|intros _ _; by apply blocks_stored_nil].
  rewrite Hbs. replace (if fullLen <? off + bs then fullLen else off + bs) with (Z.min fullLen (off + bs))
    by (destruct (Z.ltb_spec fullLen (off + bs)); lia).
  rewrite slice_ok by lia. rstep.
  replace (Z.min fullLen (off + bs) - off) with (Z.min bs (fullLen - off)) by lia.
  set (p := take _ _).
  assert (zlen p = Z.min bs (fullLen - off)) as Hp by (unfold p; rewrite zlen_take, zlen_drop; lia).
  destruct (writeDataBlock iw p) as [[iw1 sz]|] eqn:E; rstep; [|done].
  destruct (writeBlocks fuel iw1 _ _ _) as [[iw2 szs2]|] eqn:E2; rstep; [|done].
  intros [= <- <-].
  apply (writeDataBlock_spec im Him) in E as (stored & -> & Hsz & Hpos & Hrange & Hread);
    [|intros ->; rewrite zlen_nil in Hp; lia|lia].
  apply IH in E2 as (Hev & [Hcnt0 Hcnt] & Hall & Hst); [|done|lia|lia].
  pose proof (iw_Write_evolves im iw stored) as Hev1.
  split_and!; [by etrans| |by apply Forall_cons|].
  - split; [lia|]. intros _. rewrite zlen_cons. destruct (Z.le_gt_cases (fullLen - (off + bs)) 0) as [Hz|Hz].
    + rewrite (Hcnt0 Hz), (@zlen_nil Z). lia.
    + specialize (Hcnt Hz). lia.
  - intros Hok Hfin. destruct (Hev1 Hok) as (_ & Hok1 & _ & _). destruct (Hev Hok1) as (_ & _ & _ & Hback).
    pose proof (Hback Hfin) as Hfin1. pose proof (iw_Write_holds im iw stored Hok Hfin1) as Hh.
    specialize (Hst Hok1 Hfin). iw_simpl. rewrite zlen_app in Hst.
    eapply blocks_stored_cons; eauto; try lia. apply Hread; [|done].
    apply (fin_codec _ _ Hfin1).
Qed.

(** The blocks are logged where the size list says. *)
Lemma writeBlocks_logs fuel iw data fullLen off iw' szs :
  iw_blockSize iw = bs -> 0 <= off -> fullLen <= zlen data ->
  writeBlocks fuel iw data fullLen off = Ok (iw', szs) ->
  exists l, logs iw iw' l /\ forall W, (forall o n, (o, n) ∈ l -> W o n) -> zlen (iw_data iw') < 2 ^ 62 ->
    agrees_list W (zlen (iw_data iw)) szs.
Proof using enclaws Him.
  assert (1 <= bs) as Hbs1 by (unfold bs; lia).
  revert iw off iw' szs. induction fuel as [|fuel IH]; intros iw off iw' szs Hbs Hoff Hfull;
    cbn [writeBlocks]; destruct (Z.ltb_spec off fullLen) as [Hlt|Hge]; try done.
  1,3: intros [= <- <-]; exists []; split; [apply logs_refl|done].
  rewrite Hbs. replace (if fullLen <? off + bs then fullLen else off + bs) with (Z.min fullLen (off + bs))
    by (destruct (Z.ltb_spec fullLen (off + bs)); lia).
  rewrite slice_ok by lia. rstep. set (p := take _ _).
  assert (zlen p = Z.min fullLen (off + bs) - off) as Hp by (unfold p; rewrite zlen_take, zlen_drop; lia).
  destruct (writeDataBlock iw p) as [[iw1 sz]|] eqn:E; rstep; [|done].
  destruct (writeBlocks fuel iw1 _ _ _) as [[iw2 szs2]|] eqn:E2; rstep; [|done]. intros [= <- <-].
  assert (p <> []) as Hne by (intros ->; rewrite zlen_nil in Hp; lia).
  destruct (writeDataBlock_logs im Him _ _ _ _ Hne ltac:(lia) E) as (Hpos & Hlen & Hl).
  assert (iw_blockSize iw1 = bs) as Hbs'.
  { destruct (writeDataBlock_spec im Him _ _ _ _ Hne ltac:(lia) E) as (? & -> & _). done. }
  apply IH in E2 as (l & Hl2 & Hag); [|done|lia|lia]. eexists. split; [by eapply logs_trans|].
  intros W HW Hsmall. specialize (Hag W). rewrite Hlen in Hag. cbn [agrees_list].
  destruct (Z.eqb_spec (blockOnDiskBytes sz) 0); [lia|]. pose proof (zlen_nonneg (iw_data iw)).
  pose proof (lg_grow _ _ _ Hl2). rewrite i64_small by lia. split.
  - intros m [= <- _] _. apply HW. by left.
  - apply Hag; [|done]. intros o m Hin. apply HW. by right.
Qed.

Lemma writeBlocks_total fuel iw data fullLen off :
  1 <= iw_blockSize iw -> 0 <= off -> fullLen <= zlen data -> fullLen - off <= Z.of_nat fuel ->
  exists iw' szs, writeBlocks fuel iw data fullLen off = Ok (iw', szs).
Proof using enclaws.
  revert iw off. induction fuel as [|fuel IH]; intros iw off Hbs Hoff Hfull Hfuel;
    cbn [writeBlocks]; destruct (Z.ltb_spec off fullLen); try (by eexists _, _); [lia|].
  rewrite slice_ok by (destruct (_ <? _) eqn:?; lia). rstep.
  destruct (writeDataBlock_total iw (take (Z.to_nat ((if fullLen <? off + iw_blockSize iw then fullLen
    else off + iw_blockSize iw) - off)) (drop (Z.to_nat off) data))) as (iw1 & sz & E). rewrite E. rstep.
  destruct (IH iw1 (off + iw_blockSize iw)) as (iw2 & szs & ->); try lia.
  - revert E. unfold writeDataBlock. destruct (iw_compress _ _ _) as [[st c]|]; rstep; [|done].
    by intros [= <- _].
  - rstep. by eexists _, _.
Qed.

(** The count the reader derives from the size is the count written. *)
Lemma blockCount_frag szs len q :
  0 <= len < 2 ^ 32 -> q = len / bs -> block_count_ok szs (q * bs) -> blockCount len bs true = Ok (zlen szs).
Proof using.
  intros Hl Hq [Hc0 Hc]. unfold blockCount, udiv, defaultBlockSize in *. cbn [Z.eqb]. rstep. f_equal.
  pose proof (Z.div_mod len 131072 ltac:(lia)). pose proof (Z.mod_pos_bound len 131072 ltac:(lia)).
  rewrite i64_small by lia. destruct (Z.le_gt_cases (q * 131072) 0) as [Hz|Hz].
  - rewrite (Hc0 Hz), (@zlen_nil Z). lia.
  - specialize (Hc Hz). lia.
Qed.

Lemma blockCount_whole szs len :
  0 <= len < 2 ^ 32 -> block_count_ok szs len -> blockCount len bs false = Ok (zlen szs).
Proof using.
  intros Hl [Hc0 Hc]. unfold blockCount, udiv, defaultBlockSize in *. cbn [Z.eqb]. rstep. f_equal.
  rewrite (u64_small (len + 131072)), u64_small by lia.
  pose proof (Z.div_mod (len + 131072 - 1) 131072 ltac:(lia)).
  pose proof (Z.mod_pos_bound (len + 131072 - 1) 131072 ltac:(lia)).
  rewrite i64_small by lia. destruct (Z.le_gt_cases len 0) as [Hz|Hz].
  - rewrite (Hc0 Hz), (@zlen_nil Z). lia.
  - specialize (Hc Hz). lia.
Qed.

(** ** The file *)

Definition fileBody (n : node) (start fragIdx fragOffset : Z) (szs : list Z) (num : Z) : list byte :=
  le_PutUint16 inodeBasicFile ++ le_PutUint16 (Z.land (n_mode n) 0xFFF) ++
  zeros 8 ++ le_PutUint32 num ++
  le_PutUint32 (u32 start) ++ le_PutUint32 fragIdx ++ le_PutUint32 fragOffset ++
  le_PutUint32 (u32 (zlen (n_data n))) ++ uint32Bytes szs.

Lemma emitFileInode_put iw n :
  emitFileInode iw n =
  (let useFrag := negb (opt_NoFragments (iw_opts iw)) in
   fullLen ← (if useFrag then q ← udiv (zlen (n_data n)) (iw_blockSize iw); Ok (q * iw_blockSize iw)
              else Ok (zlen (n_data n)));
   '(iw1, szs) ← writeBlocks (length (n_data n)) iw (n_data n) fullLen 0;
   '(iw1, (fragIdx, fragOffset)) ←
     (if useFrag && (fullLen <? zlen (n_data n))
      then tail ← slice (n_data n) fullLen (zlen (n_data n)); addToFragment iw1 tail
      else Ok (iw1, (invalidFrag, 0)));
   '(iw1, (num, ref)) ← putInode iw1 (fileBody n (zlen (iw_data iw)) fragIdx fragOffset szs);
   Ok (iw1, setRef n num ref)).
Proof using.
  unfold emitFileInode, putInode, nextInode. cbv zeta beta.
  destruct (if _ : bool then _ else _) as [fullLen|]; [|done]. rstep.
  destruct (writeBlocks _ _ _ _ _) as [[iw1 szs]|]; [|done]. rstep.
  destruct (if _ : bool then _ else _) as [[iw2 [fi fo]]|]; [|done]. rstep.
  unfold fileBody. by destruct (iw_writeInodes _ _).
Qed.

Lemma readInodeBody_file i c :
  in_Type i = inodeBasicFile ->
  readInodeBody fs i c =
    ('(b, c) ← readN fs c 16;
     readBlockList fs
       (setFile i (le_Uint32 b) (le_Uint32 (drop 4 b)) (le_Uint32 (drop 8 b)) (le_Uint32 (drop 12 b))
          (in_xattrIdx i))
       c (sb_BlockSize (fs_sb fs))).
Proof using. intros Ht. unfold readInodeBody. by rewrite Ht. Qed.

(** The fields of a decoded file inode. *)
Definition file_fields (n : node) (i : inode) (start fragIdx fragOffset : Z) (szs : list Z) : Prop :=
  in_Size i = zlen (n_data n) /\ in_blocksStart i = start /\ in_fragIdx i = fragIdx /\
  in_fragOffset i = fragOffset /\ in_blockSizes i = szs.

Lemma fileInode_spec iw n start fragIdx fragOffset szs iw' num ref :
  0 <= n_mode n < 2 ^ 16 -> node_type n = sIFREG -> zlen (n_data n) < 2 ^ 32 ->
  Forall (fun sz => 0 <= sz < 2 ^ 32) szs ->
  putInode iw (fileBody n start fragIdx fragOffset szs) = Ok (iw', (num, ref)) ->
  evolves im iw iw' /\ (iw_ok iw -> handed iw iw' num ref) /\
  (iw_ok iw -> final im iw' -> 0 <= start < 2 ^ 32 -> 0 <= fragIdx < 2 ^ 32 -> 0 <= fragOffset < 2 ^ 32 ->
   blockCount (zlen (n_data n)) bs (negb (fragIdx =? invalidFrag)) = Ok (zlen szs) ->
   exists i, uncached (readInode fs ref) = Ok i /\ header_of i inodeBasicFile n num /\
     file_fields n i start fragIdx fragOffset szs).
Proof using enclaws Him.
  intros Hm Ht Hl Hsz E. pose proof (zlen_nonneg (n_data n)) as Hl0. pose proof (zlen_nonneg szs).
  apply (putInode_spec im Him) in E as (Hev & Hh & Hc).
  2:{ intros k. unfold fileBody. zlens. rewrite zlen_words. change (zlen (zeros 8)) with 8. lia. }
  split; [done|]. split; [intros Hok; by apply Hh|]. intros Hok Hfin Hst Hfi Hfo Hcnt.
  destruct (Hh Hok) as [Hnum _]. destruct (Hc Hok Hfin) as (c & rest & Hcur & Hs).
  pose proof (zlen_nonneg rest). unfold fileBody in Hs. rewrite <- !app_assoc in Hs.
  destruct (readInode_at fs ref c _ Hcur Hs) as (c1 & -> & Hs1).
  { zlens. rewrite zlen_words. change (zlen (zeros 8)) with 8. lia. }
  match goal with |- context [inodeOfHeader ?h] => set (i0 := inodeOfHeader h) end.
  assert (header_of i0 inodeBasicFile n num) as Hhd by (by eapply (header_of_fields _ _ _ _ _ Hm Ht)).
  revert Hs1. fields. intros Hs1.
  edestruct (readN_take fs c1 16) as (c2 & Hr2 & Hs2); [|exact Hs1|].
  { zlens. rewrite zlen_words. lia. }
  rewrite readInodeBody_file by apply Hhd. rewrite uncached_bind, Hr2. rstep.
  change (Z.to_nat 16) with 16%nat in *. rewrite !le_Uint32_take, le_Uint32_take0 by lia. fields.
  revert Hs2. fields. intros Hs2.
  rewrite (u32_small (u32 start)), (u32_small start) by (rewrite ?u32_small; lia).
  rewrite (u32_small fragIdx), (u32_small fragOffset) by lia.
  rewrite (u32_small (u32 (zlen (n_data n)))), (u32_small (zlen (n_data n))) by (rewrite ?u32_small; lia).
  rewrite (im_bs im Him). assert (zlen szs <= 2 ^ 24) as Hcl.
  { revert Hcnt. unfold blockCount, udiv, defaultBlockSize. cbn [Z.eqb].
    pose proof (Z.div_le_upper_bound (zlen (n_data n)) 131072 (2 ^ 15) ltac:(lia) ltac:(lia)).
    pose proof (Z.div_pos (zlen (n_data n)) 131072 ltac:(lia) ltac:(lia)).
    rewrite (u64_small (zlen (n_data n) + 131072)), u64_small by lia.
    pose proof (Z.div_le_upper_bound (zlen (n_data n) + 131072 - 1) 131072 (2 ^ 16) ltac:(lia) ltac:(lia)).
    pose proof (Z.div_pos (zlen (n_data n) + 131072 - 1) 131072 ltac:(lia) ltac:(lia)).
    destruct (negb _); rstep; rewrite i64_small by lia; intros [= <-]; lia. }
  erewrite readBlockList_spec; [|done|done|done|exact Hs2].
  eexists. split; [done|]. split; [apply Hhd|]. by split_and!.
Qed.

(** The whole-file read, from what is stored. *)
Lemma readFileLimit_stored `{!SafeIO} `{!SafeIOLaws} n i start fragIdx fragOffset szs fullLen max :
  0 <= start < 2 ^ 32 -> zlen (n_data n) < 2 ^ 32 ->
  file_fields n i start fragIdx fragOffset szs ->
  blocks_stored start fullLen 0 (n_data n) szs ->
  (fragIdx = invalidFrag /\ fullLen = zlen (n_data n) \/
   fragIdx <> invalidFrag /\ 0 <= fullLen < zlen (n_data n) /\ (bs | fullLen) /\
   exists pre post, zlen pre = fragOffset /\
     uncached (readFragment fs fragIdx) = Ok (pre ++ drop (Z.to_nat fullLen) (n_data n) ++ post)) ->
  0 <= fragOffset < 2 ^ 32 ->
  blockCount (zlen (n_data n)) bs (negb (fragIdx =? invalidFrag)) = Ok (zlen szs) ->
  zlen szs <= 2 ^ 24 -> zlen (n_data n) <= (zlen szs + 1) * bs ->
  (0 <= max -> zlen (n_data n) <= max) ->
  uncached (readFileLimit fs i max) = Ok (n_data n).
Proof using Him.
  intros Hst Hl (Hsize & Hbst & Hfi & Hfo & Hszs) [Hck Hrd] Htail Hfor Hcnt Hcl Hreach Hmax.
  pose proof (zlen_nonneg (n_data n)). pose proof (zlen_nonneg szs).
  unfold readFileLimit, maxBytes. rewrite (im_bs im Him), Hszs, Hsize, Hbst.
  unfold defaultBlockSize in *.
  rewrite (u64_small (zlen szs + 1)), u64_small by lia.
  destruct (Z.ltb_spec ((zlen szs + 1) * 131072) (zlen (n_data n))); [lia|].
  replace ((0 <=? max) && (max <? zlen (n_data n))) with false
    by (destruct (Z.leb_spec 0 max), (Z.ltb_spec max (zlen (n_data n))); cbn; lia).
  rewrite (i64_small start), (i64_small (zlen (n_data n))), (i64_small ((zlen szs + 1) * 131072)) by lia.
  rewrite uncached_bind, uncached_lift. unfold defaultBlockSize in *. rewrite Hck. rstep.
  destruct (MakeBytes_some (zlen (n_data n)) ((zlen szs + 1) * 131072)) as (hint & -> & Hhint); [lia|].
  rewrite uncached_bind, uncached_make by (rewrite Hhint; lia). rstep.
  rewrite uncached_bind, Hrd.
  2:{ destruct Htail as [[_ ->]|(_ & Hf & Hdiv & _)]; [left; lia|right].
      rewrite Z.sub_0_r. split; [lia|done]. }
  rstep. rewrite app_nil_l, Z.sub_0_r. change (Z.to_nat 0) with 0%nat. rewrite drop_0.
  unfold readTail. rewrite Hfi, Hfo.
  destruct Htail as [[-> ->]|(Hne & Hf & _ & pre & post & Hpre & Hfrag)].
  - rewrite Z.eqb_refl. cbn [negb andb]. rewrite uncached_bind.
    rewrite take_ge by (unfold zlen; lia). cbn [uncached mret prog_ret]. rstep.
    by rewrite Z.eqb_refl.
  - destruct (Z.eqb_spec fragIdx invalidFrag); [done|]. rewrite Z.max_r by lia.
    destruct (Z.ltb_spec 0 (zlen (n_data n) - fullLen)); [|lia]. cbn [negb andb].
    rewrite uncached_bind, uncached_bind, Hfrag. rstep. rewrite !zlen_app.
    rewrite zlen_drop by lia. rewrite u64_small by lia. pose proof (zlen_nonneg post).
    destruct (Z.ltb_spec (zlen pre + (Z.max 0 (zlen (n_data n) - fullLen) + zlen post))
      (fragOffset + (zlen (n_data n) - fullLen))); [lia|].
    rewrite uncached_bind, uncached_lift, slice_ok by (rewrite ?zlen_app, ?zlen_drop; lia). rstep.
    rewrite <- Hpre. replace (zlen pre + (zlen (n_data n) - fullLen) - zlen pre)
      with (zlen (n_data n) - fullLen) by lia.
    unfold zlen at 2. rewrite Nat2Z.id, drop_app_length, take_app_length'.
    2:{ rewrite length_drop. unfold zlen. lia. }
    rewrite take_drop. cbn [uncached mret prog_ret]. rstep. by rewrite Z.eqb_refl.
Qed.

(** What the reader finds of a file. *)
Definition file_stored `{SafeIO} (n : node) (i : inode) : Prop :=
  in_Size i = zlen (n_data n) /\
  forall max, (0 <= max -> zlen (n_data n) <= max) -> uncached (readFileLimit fs i max) = Ok (n_data n).

(** [W] knows the blocks of [l] and the fragments of the image. *)
Definition known (W : Z -> Z -> Prop) (l : list (Z * Z)) : Prop :=
  (forall o n, (o, n) ∈ l -> W o n) /\
  forall fe, fe ∈ im_frags im -> agrees W (i64 (fe_start fe)) (fe_sizeWord fe).

Lemma known_app W l k : known W (l ++ k) -> known W l /\ known W k.
Proof using. intros [Hl Hf]. split; (split; [|done]); intros o m Hin; apply Hl, elem_of_app; auto. Qed.

(** Where the blocks end and what the tail becomes. *)
Lemma emitTail_spec iw n fullLen iw' fragIdx fragOffset (useFrag : bool) :
  0 <= fullLen <= zlen (n_data n) -> zlen (n_data n) - fullLen <= bs ->
  (useFrag = false -> fullLen = zlen (n_data n)) ->
  (if useFrag && (fullLen <? zlen (n_data n))
   then tail ← slice (n_data n) fullLen (zlen (n_data n)); addToFragment iw tail
   else Ok (iw, (invalidFrag, 0))) = Ok (iw', (fragIdx, fragOffset)) ->
  evolves im iw iw' /\ (iw_ok iw -> exists l, logs iw iw' l) /\
  (iw_ok iw -> final im iw' -> 0 <= fragIdx < 2 ^ 32 /\ 0 <= fragOffset < 2 ^ 32 /\
   (fragIdx = invalidFrag /\ fullLen = zlen (n_data n) \/
    fragIdx < zlen (im_frags im) /\ 0 <= fullLen < zlen (n_data n) /\ useFrag = true /\
    exists pre post, zlen pre = fragOffset /\
      uncached (readFragment fs fragIdx) = Ok (pre ++ drop (Z.to_nat fullLen) (n_data n) ++ post))).
Proof using enclaws Him.
  intros Hf Hroom Hwhole. destruct (Z.ltb_spec fullLen (zlen (n_data n))) as [Hlt|Hge].
  2:{ rewrite andb_false_r. intros [= <- <- <-]. split; [reflexivity|].
      split; [intros _; exists []; apply logs_refl|]. intros _ _. unfold invalidFrag. split_and!; try lia. }
  destruct useFrag; [|rewrite Hwhole in Hlt by done; lia]. cbn [andb].
  rewrite slice_ok by lia. rstep.
  rewrite (take_ge (drop _ _)) by (rewrite length_drop; unfold zlen; lia). intros E.
  pose proof (zlen_drop (n_data n) fullLen ltac:(lia)) as Hd.
  assert (iw_ok iw -> exists l, logs iw iw' l) as Hlogs by (intros; by eapply (addToFragment_logs im Him)).
  apply (addToFragment_spec im Him) in E as [Hev Hfr].
  - splits; [done|done|]. intros Hok Hfin. destruct (Hfr Hok Hfin) as (Hi & Ho & pre & post & Hr & Hp).
    pose proof (im_nfrags im Him). unfold invalidFrag in *. splits; try lia. right. splits; try done; try lia.
    by exists pre, post.
  - intros E0. rewrite E0, zlen_nil in Hd. lia.
  - lia.
Qed.

(** The length of the full blocks. *)
Lemma fullLen_ok (useFrag : bool) len fullLen :
  0 <= len ->
  (if useFrag then q ← udiv len bs; Ok (q * bs) else Ok len) = Ok fullLen ->
  0 <= fullLen <= len /\ len - fullLen <= bs /\ (useFrag = false -> fullLen = len) /\
  (useFrag = true -> fullLen = len / bs * bs).
Proof using.
  intros Hl Efull. pose proof (Z.div_mod len bs ltac:(done)) as Hdm.
  pose proof (Z.mod_pos_bound len bs ltac:(done)). pose proof (Z.div_pos len bs ltac:(done) ltac:(done)).
  unfold udiv in Efull. change (bs =? 0) with false in Efull.
  destruct useFrag; cbn [rbind mbind result_bind] in Efull; injection Efull as <-;
    unfold bs in *; split_and!; intros; try done; lia.
Qed.

(** The fragment of a file is one the image lists. *)
Lemma frag_known W i :
  (forall fe, fe ∈ im_frags im -> agrees W (i64 (fe_start fe)) (fe_sizeWord fe)) ->
  in_fragIdx i = invalidFrag \/ 0 <= in_fragIdx i < zlen (im_frags im) -> agrees_frag W fs i.
Proof using Him.
  intros HW Hi fe Hne Hfe. destruct Hi as [?|Hi]; [done|].
  destruct (lookup_lt_is_Some_2 (im_frags im) (Z.to_nat (in_fragIdx i))) as [fe' Hl]; [unfold zlen in Hi; lia|].
  pose proof (im_entries im Him _ _ Hl) as Hr. rewrite Z2Nat.id, Hfe in Hr by lia. apply Ok_inj in Hr as ->.
  apply HW. by eapply list_elem_of_lookup_2.
Qed.

(** What the three parts of a file leave in the image makes it readable. *)
Lemma file_parts `{!SafeIO} `{!SafeIOLaws} n i start szs fi fo fullLen (useFrag : bool) :
  zlen (n_data n) < 2 ^ 32 -> 0 <= start < 2 ^ 32 -> 0 <= fo < 2 ^ 32 ->
  0 <= fullLen <= zlen (n_data n) -> zlen (n_data n) - fullLen <= bs ->
  (useFrag = true -> fullLen = zlen (n_data n) / bs * bs) ->
  block_count_ok szs fullLen -> file_fields n i start fi fo szs ->
  blocks_stored start fullLen 0 (n_data n) szs ->
  (fi = invalidFrag /\ fullLen = zlen (n_data n) \/
    fi < zlen (im_frags im) /\ 0 <= fullLen < zlen (n_data n) /\ useFrag = true /\
    exists pre post, zlen pre = fo /\
      uncached (readFragment fs fi) = Ok (pre ++ drop (Z.to_nat fullLen) (n_data n) ++ post)) ->
  blockCount (zlen (n_data n)) bs (negb (fi =? invalidFrag)) = Ok (zlen szs) ->
  file_stored n i.
Proof using Him.
  intros Hl Hs Hfo Hf1 Hf2 Hf4 Hcnt Hff Hst Hcase Hbc. pose proof (zlen_nonneg (n_data n)) as Hl0.
  pose proof (im_nfrags im Him). split; [apply Hff|]. intros max Hmax.
  destruct Hcnt as [Hc0 Hc]. unfold bs in *.
  apply (readFileLimit_stored n i start fi fo szs fullLen max);
    [lia|done|exact Hff|exact Hst| |done|exact Hbc| | |exact Hmax].
  - destruct Hcase as [?|(Hne & Hlt & Hu & Hfrag)]; [by left|right]. splits; try done; try lia.
    exists (zlen (n_data n) / bs). unfold bs. by rewrite Hf4.
  - unfold bs. destruct (Z.le_gt_cases fullLen 0) as [Hz|Hz]; [rewrite (Hc0 Hz), (@zlen_nil Z); lia|].
    specialize (Hc Hz). lia.
  - unfold bs. destruct (Z.le_gt_cases fullLen 0) as [Hz|Hz]; [rewrite (Hc0 Hz), (@zlen_nil Z); lia|].
    specialize (Hc Hz). lia.
Qed.

Lemma emitFileInode_spec `{!SafeIO} `{!SafeIOLaws} iw n iw' n' :
  0 <= n_mode n < 2 ^ 16 -> node_type n = sIFREG -> zlen (n_data n) < 2 ^ 32 -> iw_ok iw ->
  emitFileInode iw n = Ok (iw', n') ->
  evolves im iw iw' /\
  exists num ref l, n' = setRef n num ref /\ handed iw iw' num ref /\ logs iw iw' l /\
    (final im iw' -> exists i, uncached (readInode fs ref) = Ok i /\
       header_of i inodeBasicFile n num /\ file_stored n i /\
       forall W, known W l -> agrees_file W fs i).
Proof using enclaws Him.
  intros Hm Ht Hl Hok. rewrite emitFileInode_put. cbv zeta. pose proof (zlen_nonneg (n_data n)) as Hl0.
  assert (iw_blockSize iw = bs) as Hbs by apply Hok. rewrite Hbs.
  set (useFrag := negb (opt_NoFragments (iw_opts iw))).
  destruct (if useFrag then _ else _) as [fullLen|] eqn:Efull; rstep; [|done].
  destruct (fullLen_ok _ _ _ Hl0 Efull) as (Hf1 & Hf2 & Hf3 & Hf4).
  destruct (writeBlocks _ _ _ _ _) as [[iw1 szs]|] eqn:Eb; rstep; [|done].
  destruct (if _ && _ then _ else _) as [[iw2 [fi fo]]|] eqn:Et; rstep; [|done].
  destruct (putInode _ _) as [[iw3 [num ref]]|] eqn:Ep; rstep; [|done]. intros [= <- <-].
  pose proof Eb as Eb'. apply writeBlocks_logs in Eb' as (l1 & Hl1 & Hag); [|done|lia|lia].
  apply writeBlocks_spec in Eb as (Hev1 & Hcnt & Hszs & Hst); [|done|lia|lia].
  apply emitTail_spec in Et as (Hev2 & Hl2 & Htail); [|done..].
  pose proof (putInode_logs _ _ _ _ Ep) as Hl3. apply fileInode_spec in Ep as (Hev3 & Hh & Hi); [|done..].
  destruct (Hev1 Hok) as (_ & Hok1 & Hp1 & Hb1). destruct (Hev2 Hok1) as (_ & Hok2 & Hp2 & Hb2).
  destruct (Hev3 Hok2) as (_ & Hok3 & Hp3 & Hb3). destruct (Hl2 Hok1) as [l2 Hl2'].
  split; [etrans; [done|]; by etrans|]. exists num, ref, (l1 ++ l2 ++ []).
  splits; [done|eapply handed_from; [by eapply progress_trans|by apply Hh]|
    eapply logs_trans; [done|]; by eapply logs_trans|]. intros Hfin.
  specialize (Hst Hok (Hb2 (Hb3 Hfin))). destruct (Htail Hok1 (Hb3 Hfin)) as (Hfi & Hfo & Hcase).
  pose proof (final_data_bound im iw1 Hok1 (Hb2 (Hb3 Hfin))). pose proof (im_small im Him).
  pose proof (lg_grow _ _ _ Hl1). pose proof (zlen_nonneg (iw_data iw)). rewrite Z.sub_0_r in Hcnt.
  pose proof (im_nfrags im Him) as Hnf.
  assert (blockCount (zlen (n_data n)) bs (negb (fi =? invalidFrag)) = Ok (zlen szs)) as Hbc.
  { destruct Hcase as [[-> ->]|(Hne & Hlt & Hu & _)].
    - rewrite Z.eqb_refl. by apply blockCount_whole.
    - destruct (Z.eqb_spec fi invalidFrag); [lia|]. eapply blockCount_frag; [done|done|].
      by rewrite <- Hf4. }
  destruct (Hi Hok2 Hfin) as (i & Hri & Hhd & Hff); [lia|done|done|done|].
  exists i. splits; [done|done| |].
  { apply (file_parts n i (zlen (iw_data iw)) szs fi fo fullLen useFrag); first [done|lia]. }
  intros W [HW Hfr]%known_app. destruct Hff as (_ & Hbst & Hfidx & _ & Hsizes). split.
  - rewrite Hbst, Hsizes, i64_small by lia. apply Hag; [apply HW|lia].
  - apply frag_known; [apply Hfr|]. rewrite Hfidx. destruct Hcase as [[-> _]|[? _]]; [by left|right; lia].
Qed.

Lemma emitFileInode_total iw n : iw_ok iw -> exists iw' n', emitFileInode iw n = Ok (iw', n').
Proof using enclaws.
  intros (Hbs & _). rewrite emitFileInode_put. cbv zeta. pose proof (zlen_nonneg (n_data n)). rewrite Hbs.
  set (full := if negb _ then _ else _).
  assert (exists fullLen, full = Ok fullLen /\ 0 <= fullLen <= zlen (n_data n)) as (fullLen & -> & Hf).
  { unfold full. destruct (negb _); [|eexists; split; [done|lia]]. unfold udiv.
    change (bs =? 0) with false. rstep. eexists. split; [done|].
    pose proof (Z.div_mod (zlen (n_data n)) bs ltac:(done)).
    pose proof (Z.mod_pos_bound (zlen (n_data n)) bs ltac:(done)).
    pose proof (Z.div_pos (zlen (n_data n)) bs ltac:(done) ltac:(done)). unfold bs in *. lia. }
  rstep. destruct (writeBlocks_total (length (n_data n)) iw (n_data n) fullLen 0) as (iw1 & szs & ->);
    [unfold bs in *; lia|lia|lia|unfold zlen in *; lia|].
  rstep. set (t := if _ && _ then _ else _).
  assert (exists x, t = Ok x) as ([iw2 [fi fo]] & ->).
  { unfold t. destruct (_ && _); [|by eexists]. rewrite slice_ok by lia. rstep.
    destruct (addToFragment_total iw1 (take (Z.to_nat (zlen (n_data n) - fullLen))
      (drop (Z.to_nat fullLen) (n_data n)))) as (? & ? & ->). by eexists. }
  rstep. destruct (putInode_total iw2 (fileBody n (zlen (iw_data iw)) fi fo szs)) as (iw3 & [num ref] & ->).
  rstep. by eexists _, _.
Qed.

End file.
