(* ===== verification/WriterDir.v ===== *)
(** * Directory listings, written and read back

    A listing groups the children by inode-table block; each group stores the
    first child's inode number and 16-bit differences to it.  Reading it back
    gives the names, references, types and numbers of the children, in
    order, provided the children of one block have close numbers, which the
    layout of the inode table guarantees (WriterTree.v). *)

From S2P Require Export WriterInode.

#[local] Open Scope Z_scope.

(** The entry the reader makes of a child. *)
Definition entry_of (c : node) : dirEntry :=
  mkDirEntry (n_name c) (n_inodeRef c) (n_inodeNum c) (dirEntryType (n_mode c)).

(** A child a listing can represent. *)
Definition child_ok (c : node) : Prop :=
  1 <= zlen (n_name c) <= 256 /\ 0 <= n_inodeRef c < 2 ^ 48 /\ 0 <= n_inodeNum c < 2 ^ 32.

(** The number of [c] is within 16 signed bits of [base], modulo 2^32. *)
Definition near (base num : Z) : Prop :=
  exists k, - 2 ^ 15 <= k < 2 ^ 15 /\ num = u32 (base + k).

Definition close (a b : node) : Prop := refBlock a = refBlock b -> near (n_inodeNum a) (n_inodeNum b).

(** ** One entry *)

Lemma i16_congr a k : - 2 ^ 15 <= k < 2 ^ 15 -> a mod 2 ^ 16 = k mod 2 ^ 16 -> i16 a = k.
Proof.
  intros Hk E. rewrite <- (i16_small k Hk). unfold i16.
  rewrite <- (Zplus_mod_idemp_l a), E, Zplus_mod_idemp_l. done.
Qed.

(** The 16-bit difference restores the number. *)
Lemma inodeDelta base num :
  0 <= base < 2 ^ 32 -> near base num ->
  u32 (i32 base + i16 (u16 (i16 (num - base)))) = num.
Proof.
  intros Hb (k & Hk & ->).
  assert (i16 (u32 (base + k) - base) = k) as ->.
  { apply i16_congr; [done|]. unfold u32.
    replace (2 ^ 32) with (2 ^ 16 * 2 ^ 16) by done.
    rewrite Z.rem_mul_r by done.
    replace ((base + k) mod 2 ^ 16 + 2 ^ 16 * (((base + k) / 2 ^ 16) mod 2 ^ 16) - base)
      with ((base + k) mod 2 ^ 16 - base + (((base + k) / 2 ^ 16) mod 2 ^ 16) * 2 ^ 16) by ring.
    rewrite Z.mod_add by done. rewrite Zminus_mod_idemp_l. f_equal. ring. }
  assert (i16 (u16 k) = k) as -> by (apply i16_congr; [done|]; unfold u16; by rewrite Z.mod_mod).
  unfold i32, u32. 
  replace ((base + 2 ^ 31) mod 2 ^ 32 - 2 ^ 31 + k) with ((base + 2 ^ 31) mod 2 ^ 32 + (k - 2 ^ 31)) by ring.
  rewrite Zplus_mod_idemp_l. f_equal. ring.
Qed.

(** Block and offset of a reference, written apart, join up again. *)
Lemma ref_parts c :
  0 <= n_inodeRef c < 2 ^ 48 ->
  0 <= refBlock c < 2 ^ 32 /\ 0 <= Z.land (n_inodeRef c) 0xFFFF < 2 ^ 16 /\
  refBlock c * 2 ^ 16 + Z.land (n_inodeRef c) 0xFFFF = n_inodeRef c.
Proof.
  intros Hr. unfold refBlock. rewrite Z.shiftr_div_pow2 by lia.
  change 0xFFFF with (Z.ones 16). rewrite Z.land_ones by lia.
  pose proof (Z.div_mod (n_inodeRef c) (2 ^ 16) ltac:(lia)).
  pose proof (Z.mod_pos_bound (n_inodeRef c) (2 ^ 16) ltac:(lia)).
  assert (0 <= n_inodeRef c / 2 ^ 16 < 2 ^ 32).
  { split; [apply Z.div_pos; lia|]. apply Z.div_lt_upper_bound; lia. }
  rewrite u32_small by lia. lia.
Qed.

Lemma dirEntryType_range mode : 0 <= dirEntryType mode < 2 ^ 16.
Proof. unfold dirEntryType, inodeBasicDir, inodeBasicSymlink, inodeBasicFile. destruct (_ =? _); [lia|]. destruct (_ =? _); lia. Qed.

Lemma zlen_dirEntryBytes base c : zlen (dirEntryBytes base c) = 8 + zlen (n_name c).
Proof. unfold dirEntryBytes. zlens. lia. Qed.

Definition groupBytes (base : Z) (g : list node) : list byte := mjoin (dirEntryBytes base <$> g).

Lemma groupBytes_cons base c g : groupBytes base (c :: g) = dirEntryBytes base c ++ groupBytes base g.
Proof. done. Qed.

(** ** Groups *)

Lemma groupLen_spec base k cs :
  (k <= 256)%nat ->
  (groupLen base k cs <= 256 - k)%nat /\ (groupLen base k cs <= length cs)%nat /\
  Forall (fun c => refBlock c = base) (take (groupLen base k cs) cs).
Proof.
  revert k. induction cs as [|c cs IH]; intros k Hk; cbn [groupLen].
  { split_and!; [lia|cbn; lia|constructor]. }
  destruct (Nat.ltb_spec k 256); cbn [andb]; [|split_and!; [lia|cbn; lia|constructor]].
  destruct (Z.eqb_spec (refBlock c) base); [|split_and!; [lia|cbn; lia|constructor]].
  destruct (IH (S k)) as (H1 & H2 & H3); [lia|]. cbn [length take].
  split_and!; [lia|lia|by constructor].
Qed.

Lemma groupLen_pos c cs : exists j, groupLen (refBlock c) 0 (c :: cs) = S j.
Proof. cbn [groupLen]. rewrite Z.eqb_refl. by eexists. Qed.

Lemma listing_cons fuel c cs listing :
  buildDirListing_loop (S fuel) (c :: cs) = Ok listing ->
  exists j rest, (S j <= 256)%nat /\ (S j <= length (c :: cs))%nat /\
    Forall (fun d => refBlock d = refBlock c) (take (S j) (c :: cs)) /\
    buildDirListing_loop fuel (drop (S j) (c :: cs)) = Ok rest /\
    listing = (le_PutUint32 (Z.of_nat j) ++ le_PutUint32 (refBlock c) ++ le_PutUint32 (n_inodeNum c)) ++
      groupBytes (n_inodeNum c) (take (S j) (c :: cs)) ++ rest.
Proof.
  cbn [buildDirListing_loop]. destruct (groupLen_pos c cs) as [j Hj].
  destruct (groupLen_spec (refBlock c) 0 (c :: cs)) as (H1 & H2 & H3); [lia|]. rewrite Hj in *.
  destruct (buildDirListing_loop fuel _) as [rest|] eqn:E; rstep; [|done]. intros <-%Ok_inj.
  exists j, rest. splits; [lia|done|done|done|]. rewrite <- !app_assoc.
  do 2 f_equal. rewrite u32_small by lia. lia.
Qed.

(** Every child costs at most a header, an entry and its name. *)
Definition listingCost (cs : list node) : Z := foldr (fun c z => 20 + zlen (n_name c) + z) 0 cs.

Lemma listingCost_app cs ds : listingCost (cs ++ ds) = listingCost cs + listingCost ds.
Proof. unfold listingCost. induction cs as [|c cs IH]; [done|]. cbn. rewrite IH. lia. Qed.

Lemma listingCost_perm cs ds : cs ≡ₚ ds -> listingCost cs = listingCost ds.
Proof. unfold listingCost. induction 1; cbn; lia. Qed.

Lemma groupBytes_cost base g : g <> [] -> 12 + zlen (groupBytes base g) <= listingCost g.
Proof.
  assert (forall g, zlen (groupBytes base g) <= listingCost g - 12 * zlen g) as Hg.
  { intros g'. unfold listingCost. induction g' as [|c g' IH]; [done|].
    rewrite groupBytes_cons, zlen_app, zlen_dirEntryBytes, zlen_cons. cbn. lia. }
  intros Hne. specialize (Hg g). pose proof (zlen_pos g Hne). lia.
Qed.

Lemma listing_length fuel cs listing :
  buildDirListing_loop fuel cs = Ok listing -> zlen listing <= listingCost cs.
Proof.
  revert cs listing. induction fuel as [|fuel IH]; intros [|c cs] listing; try done; try (by intros [= <-]).
  intros (j & rest & H1 & H2 & _ & Hr & ->)%listing_cons. apply IH in Hr.
  pose proof (groupBytes_cost (n_inodeNum c) (take (S j) (c :: cs)) ltac:(done)).
  rewrite <- (take_drop (S j) (c :: cs)), listingCost_app, take_drop. zlens. lia.
Qed.

Lemma listing_total fuel cs : (length cs <= fuel)%nat -> exists listing, buildDirListing_loop fuel cs = Ok listing.
Proof.
  revert cs. induction fuel as [|fuel IH]; intros [|c cs] Hf; try (by eexists); [cbn in Hf; lia|].
  cbn [buildDirListing_loop]. destruct (groupLen_pos c cs) as [j ->].
  destruct (IH (drop (S j) (c :: cs))) as [rest ->]; [rewrite length_drop; cbn in *; lia|]. rstep. by eexists.
Qed.

Section listing.
Context `{CodecLib} (fs : FS).

Lemma readDirEntries_spec g c remaining sb base out rest :
  Forall child_ok g -> Forall (fun d => refBlock d = sb) g -> 0 <= base < 2 ^ 32 ->
  Forall (fun d => near base (n_inodeNum d)) g ->
  zlen out + zlen g <= maxDirEntries -> zlen (groupBytes base g) <= remaining ->
  cursor_at fs c (groupBytes base g ++ rest) ->
  exists c', uncached (readDirEntries fs (length g) c remaining sb (i32 base) out) =
      Ok (c', remaining - zlen (groupBytes base g), out ++ (entry_of <$> g)) /\
    cursor_at fs c' rest.
Proof using.
  intros Hok Hsb Hb Hnear. revert c remaining out.
  induction Hok as [|d g (Hname & Href & Hnum) Hok IH]; intros c remaining out Hout Hrem Hc.
  { exists c. split; [|done]. cbn [length readDirEntries fmap list_fmap]. rewrite app_nil_r.
    change (groupBytes base []) with (@nil byte). rewrite zlen_nil, Z.sub_0_r. done. }
  apply Forall_cons in Hsb as [Hsbd Hsb]. apply Forall_cons in Hnear as [Hnd Hnear].
  rewrite groupBytes_cons, zlen_app, zlen_dirEntryBytes in Hrem. rewrite zlen_cons in Hout.
  pose proof (zlen_nonneg (groupBytes base g)). pose proof (zlen_nonneg g).
  rewrite groupBytes_cons, <- app_assoc in Hc. unfold dirEntryBytes in Hc. rewrite <- !app_assoc in Hc.
  cbn [length readDirEntries]. destruct (Z.ltb_spec remaining 8); [lia|].
  destruct (readN_spec fs c 8 (le_PutUint16 (u16 (Z.land (n_inodeRef d) 0xFFFF)) ++
    le_PutUint16 (u16 (i16 (n_inodeNum d - base))) ++ le_PutUint16 (dirEntryType (n_mode d)) ++
    le_PutUint16 (u16 (zlen (n_name d) - 1))) (n_name d ++ groupBytes base g ++ rest))
    as (c1 & Hr1 & Hc1); [by zlens|by rewrite <- !app_assoc|].
  rewrite uncached_bind, Hr1. rstep. cbv zeta.
  rewrite <- (app_nil_r (le_PutUint16 (u16 (zlen (n_name d) - 1)))). fields.
  destruct (ref_parts d Href) as (Hhi & Hlo & Hjoin). pose proof (dirEntryType_range (n_mode d)).
  rewrite (u16_small (u16 (zlen (n_name d) - 1))), (u16_small (zlen (n_name d) - 1))
    by (rewrite ?u16_small; lia).
  rewrite (u16_small (u16 (Z.land (n_inodeRef d) 0xFFFF))), (u16_small (Z.land (n_inodeRef d) 0xFFFF))
    by (rewrite ?u16_small; lia).
  rewrite (u16_small (dirEntryType (n_mode d))) by lia. rewrite Z.sub_add.
  assert (u16 (u16 (i16 (n_inodeNum d - base))) = u16 (i16 (n_inodeNum d - base))) as ->
    by (unfold u16; by rewrite Z.mod_mod).
  destruct (Z.ltb_spec (remaining - 8) (zlen (n_name d))); [lia|].
  destruct (Z.ltb_spec 256 (zlen (n_name d))); [lia|]. cbn [orb].
  destruct (readN_spec fs c1 _ (n_name d) _ eq_refl Hc1) as (c2 & Hr2 & Hc2).
  rewrite uncached_bind, Hr2. rstep. destruct (Z.leb_spec maxDirEntries (zlen out)); [lia|].
  rewrite inodeDelta by done. rewrite Hsbd in Hhi, Hjoin. rewrite inodeRef_join by lia. rewrite Hjoin.
  destruct (IH Hsb Hnear c2 (remaining - 8 - zlen (n_name d)) (out ++ [entry_of d])) as (c3 & Hr3 & Hc3);
    [rewrite zlen_app, zlen_cons, zlen_nil; lia|lia|done|].
  exists c3. split; [|done]. unfold entry_of in Hr3 at 1. rewrite Hr3. f_equal. f_equal; [f_equal|].
  - rewrite groupBytes_cons, zlen_app, zlen_dirEntryBytes. lia.
  - by rewrite <- app_assoc.
Qed.

Lemma readDir_loop_spec wfuel fuel cs listing c out rest :
  Forall child_ok cs -> (forall a b, a ∈ cs -> b ∈ cs -> close a b) ->
  buildDirListing_loop wfuel cs = Ok listing ->
  zlen out + zlen cs <= maxDirEntries -> zlen listing < 12 * (Z.of_nat fuel + 1) ->
  cursor_at fs c (listing ++ rest) ->
  uncached (readDir_loop fs fuel c (zlen listing) out) = Ok (out ++ (entry_of <$> cs)).
Proof using.
  revert fuel cs listing c out. induction wfuel as [|wfuel IH]; intros fuel cs listing c out Hok Hclose Hb Hout Hfuel Hc.
  { destruct cs; [|done]. injection Hb as <-. rewrite app_nil_r. by destruct fuel. }
  destruct cs as [|d cs]. { injection Hb as <-. rewrite app_nil_r. by destruct fuel. }
  apply listing_cons in Hb as (j & lrest & H1 & H2 & Hgrp & Hl & ->).
  set (g := take (S j) (d :: cs)) in *. set (ds := drop (S j) (d :: cs)) in *.
  assert (d :: cs = g ++ ds) as Hsplit by (unfold g, ds; by rewrite take_drop).
  assert (d ∈ g) as Hdg by (unfold g; cbn [take]; left).
  assert (length g = S j) as Hgl by (unfold g; rewrite length_take; lia).
  rewrite Hsplit in *. apply Forall_app in Hok as [Hokg Hokd].
  assert (child_ok d) as (_ & _ & Hnum) by (rewrite Forall_forall in Hokg; by apply Hokg).
  assert (0 <= refBlock d < 2 ^ 32) as Hrb by apply u32_range.
  rewrite zlen_app in Hout.
  set (hdr := le_PutUint32 (Z.of_nat j) ++ le_PutUint32 (refBlock d) ++ le_PutUint32 (n_inodeNum d)) in *.
  assert (zlen hdr = 12) as Hhdr by (by unfold hdr; zlens).
  rewrite !(zlen_app hdr), !(zlen_app (groupBytes _ _)) in Hfuel.
  pose proof (zlen_nonneg (groupBytes (n_inodeNum d) g)). pose proof (zlen_nonneg lrest).
  pose proof (zlen_nonneg ds).
  destruct fuel as [|fuel]; [lia|]. cbn [readDir_loop].
  rewrite !(zlen_app hdr), !(zlen_app (groupBytes _ _)).
  destruct (Z.ltb_spec (zlen hdr + (zlen (groupBytes (n_inodeNum d) g) + zlen lrest)) 12); [lia|].
  rewrite <- app_assoc in Hc. destruct (readN_spec fs c 12 hdr _ Hhdr Hc) as (c1 & Hr1 & Hc1).
  assert (le_Uint32 hdr = Z.of_nat j /\ le_Uint32 (drop 4 hdr) = refBlock d /\
    le_Uint32 (drop 8 hdr) = n_inodeNum d) as (Hw1 & Hw2 & Hw3).
  { unfold hdr. rewrite <- (app_nil_r (le_PutUint32 (n_inodeNum d))). fields.
    rewrite (u32_small (Z.of_nat j)), (u32_small (refBlock d)), (u32_small (n_inodeNum d)) by lia. done. }
  rewrite uncached_bind, Hr1. rstep. cbv zeta. rewrite Hw1, Hw2, Hw3.
  destruct (Z.ltb_spec (Z.of_nat j + 1) 1); [lia|]. destruct (Z.ltb_spec 256 (Z.of_nat j + 1)); [lia|].
  cbn [orb]. replace (Z.to_nat (Z.of_nat j + 1)) with (length g) by lia.
  rewrite <- app_assoc in Hc1.
  destruct (readDirEntries_spec g c1 (zlen (groupBytes (n_inodeNum d) g) + zlen lrest) (refBlock d)
    (n_inodeNum d) out (lrest ++ rest)) as (c2 & Hr2 & Hc2); try done; try lia.
  { rewrite Forall_forall in Hgrp |- *. intros x Hx. apply Hclose; [set_solver|set_solver|]. symmetry. by apply Hgrp. }
  replace (zlen hdr + (zlen (groupBytes (n_inodeNum d) g) + zlen lrest) - 12)
    with (zlen (groupBytes (n_inodeNum d) g) + zlen lrest) by lia.
  rewrite uncached_bind, Hr2. rstep. rewrite Z.add_simpl_l.
  rewrite fmap_app, app_assoc. apply IH; try done.
  - intros a b Ha Hb'. apply Hclose; set_solver.
  - rewrite zlen_app. unfold zlen at 2. rewrite length_fmap. unfold zlen in *. lia.
  - lia.
Qed.

End listing.

(** ** Sorting *)

Lemma string_ltb_irrefl a : string_ltb a a = false.
Proof. induction a as [|x a IH]; [done|]. cbn. by rewrite Z.ltb_irrefl, Z.eqb_refl. Qed.

Lemma string_ltb_trans a b c : string_ltb a b = true -> string_ltb b c = true -> string_ltb a c = true.
Proof.
  revert b c. induction a as [|x a IH]; intros [|y b] [|z c]; cbn; try done.
  intros H1 H2. apply orb_true_iff in H1, H2. rewrite !andb_true_iff, !Z.ltb_lt, !Z.eqb_eq in H1, H2.
  apply orb_true_iff. rewrite andb_true_iff, Z.ltb_lt, Z.eqb_eq.
  destruct H1 as [H1|[H1 H1']], H2 as [H2|[H2 H2']]; [left; lia|left; lia|left; lia|].
  right. split; [lia|]. by eapply IH.
Qed.

Lemma string_ltb_total a b : string_ltb a b = false -> string_ltb b a = false -> a = b.
Proof.
  revert b. induction a as [|x a IH]; intros [|y b]; cbn; try done.
  intros H1 H2. apply orb_false_iff in H1 as [H1%Z.ltb_ge H1'], H2 as [H2%Z.ltb_ge H2'].
  assert (byte.unsigned x = byte.unsigned y) as Hxy by lia. rewrite Hxy, Z.eqb_refl in *. cbn in *.
  rewrite (IH b) by done. f_equal.
  apply (f_equal byte.of_Z) in Hxy. by rewrite !byte.of_Z_unsigned in Hxy.
Qed.

#[global] Instance name_le_total : Total name_le.
Proof.
  intros a b. unfold name_le. destruct (string_ltb (n_name b) (n_name a)) eqn:E; [|by left].
  right. destruct (string_ltb (n_name a) (n_name b)) eqn:E'; [|done].
  pose proof (string_ltb_trans _ _ _ E E') as Hc. by rewrite string_ltb_irrefl in Hc.
Qed.

Lemma sortChildren_perm cs : sortChildren cs ≡ₚ cs.
Proof. apply merge_sort_Permutation. Qed.

Lemma sortChildren_sorted cs : Sorted name_le (sortChildren cs).
Proof. apply Sorted_merge_sort. apply _. Qed.
