(* ===== verification/WriterTree.v ===== *)
(** * The tree the writer emits, found again in the image

    [holds_node im W ref num n] says that the inode at reference [ref], numbered
    [num], is node [n] of the source tree with everything below it: files
    with their contents, links with their targets, directories with a sorted
    listing whose entries lead to the children.  [emitNode_spec] shows it of
    the tree handed to emitNode, by induction on the tree. *)

From S2P Require Export WriterFile WriterDir.

#[local] Open Scope Z_scope.

(** Induction over the nested tree. *)
Lemma node_ind_nested (P : node -> Prop) :
  (forall n, Forall P (n_children n) -> P n) -> forall n, P n.
Proof.
  intros Hn. fix IH 1. intros n. apply Hn. destruct n as [? ? ? ? ? ? cs ? ?]. cbn.
  induction cs as [|c cs IHcs]; constructor; [apply IH|exact IHcs].
Qed.

(** ** Trees the format can represent *)

(** Names of 1 to 256 bytes, distinct within a directory, whose listing fits
    the 16-bit size; targets within the reader's limit; files below 4 GiB. *)
Inductive node_ok : node -> Prop :=
| node_ok_dir n :
    0 <= n_mode n < 2 ^ 16 -> node_type n = sIFDIR ->
    listingCost (n_children n) <= 65532 -> NoDup (n_name <$> n_children n) ->
    (forall c, c ∈ n_children n -> 1 <= zlen (n_name c) <= 256) ->
    (forall c, c ∈ n_children n -> node_ok c) -> node_ok n
| node_ok_link n :
    0 <= n_mode n < 2 ^ 16 -> node_type n = sIFLNK -> zlen (n_target n) <= metaBlockMax -> node_ok n
| node_ok_file n :
    0 <= n_mode n < 2 ^ 16 -> node_type n = sIFREG -> zlen (n_data n) < 2 ^ 32 -> node_ok n.

(** ** The tree in the image *)

Inductive holds_node `{CodecLib} `{SafeIO} (im : image) (W : Z -> Z -> Prop) : Z -> Z -> node -> Prop :=
| holds_dir ref num n i entries cs :
    uncached (readInode (im_fs im) ref) = Ok i -> header_of i inodeBasicDir n num ->
    node_type n = sIFDIR ->
    uncached (readDir (im_fs im) i) = Ok entries ->
    cs ≡ₚ n_children n -> Sorted name_le cs ->
    de_Name <$> entries = n_name <$> cs ->
    de_Type <$> entries = (fun c => dirEntryType (n_mode c)) <$> cs ->
    (forall k e c, entries !! k = Some e -> cs !! k = Some c ->
       holds_node im W (de_InodeRef e) (de_Number e) c) ->
    holds_node im W ref num n
| holds_link ref num n i :
    uncached (readInode (im_fs im) ref) = Ok i -> header_of i inodeBasicSymlink n num ->
    node_type n = sIFLNK -> link_stored n i -> holds_node im W ref num n
| holds_file ref num n i :
    uncached (readInode (im_fs im) ref) = Ok i -> header_of i inodeBasicFile n num ->
    node_type n = sIFREG -> file_stored im n i -> agrees_file W (im_fs im) i -> holds_node im W ref num n.

Section tree.
Context `{CodecLib} `{EncoderLib} {enclaws : EncoderLaws} `{SafeIO} {safeio : SafeIOLaws}.
Context (im : image) (Him : image_ok im).

#[local] Notation fs := (im_fs im).
#[local] Notation bs := defaultBlockSize.

(** ** Numbers and references of children *)

Lemma final_out_bound iw : final im iw -> zlen (mw_out (iw_inodes iw)) < 2 ^ 32.
Proof using Him.
  intros Hfin. destruct (fin_inodes _ _ Hfin) as (rest & b & Ho & _).
  pose proof (holds_bound _ _ _ (im_inodes im Him)) as Hb. pose proof (im_small im Him).
  rewrite Ho, zlen_app in Hb. pose proof (zlen_nonneg b). lia.
Qed.

Lemma mw_step_out m p m' : mw_step m p m' -> zlen (mw_out m) <= zlen (mw_out m').
Proof using. intros (b & s & -> & _). rewrite zlen_app. pose proof (zlen_nonneg b). lia. Qed.

Lemma handed_ref iw iw' num ref :
  zlen (mw_out (iw_inodes iw')) < 2 ^ 32 -> handed iw iw' num ref ->
  0 <= ref < 2 ^ 48 /\ 0 <= num < 2 ^ 32.
Proof using.
  intros Ho (s & _ & -> & -> & Hm & (p & k & Hstep & _)). split; [|apply u32_range].
  apply mw_step_out in Hstep. rewrite ref_value by (try done; lia). unfold mw_ok, metaBlockMax in Hm.
  pose proof (zlen_nonneg (mw_out (iw_inodes s))). pose proof (zlen_nonneg (mw_buf (iw_inodes s))). lia.
Qed.

(** Two inodes handed out one after the other in the same block: fewer than
    8192 bytes, hence few inodes, lie between them. *)
Lemma handed_close iw iw1 iw' a b :
  zlen (mw_out (iw_inodes iw')) < 2 ^ 32 ->
  handed iw iw1 (n_inodeNum a) (n_inodeRef a) -> handed iw1 iw' (n_inodeNum b) (n_inodeRef b) ->
  close a b /\ close b a.
Proof using.
  intros Ho (s & _ & Hra & Hna & Hma & Hp1) (t & Hp2 & Hrb & Hnb & Hmb & (pt & kt & Hstept & _)).
  destruct (progress_trans _ _ _ Hp1 Hp2) as (p & k & Hstep & Hk & Hnum & _).
  apply mw_step_out in Hstept. pose proof (mw_step_out _ _ _ Hstep).
  pose proof (zlen_nonneg (mw_out (iw_inodes s))). pose proof (zlen_nonneg (mw_buf (iw_inodes s))).
  pose proof (zlen_nonneg (mw_buf (iw_inodes t))). unfold mw_ok, metaBlockMax in *.
  assert (refBlock a = zlen (mw_out (iw_inodes s))) as Hba.
  { unfold refBlock. rewrite Hra, ref_value by (try done; lia).
    destruct (ref_split (zlen (mw_out (iw_inodes s))) (zlen (mw_buf (iw_inodes s)))) as [-> _]; [lia|].
    apply u32_small. lia. }
  assert (refBlock b = zlen (mw_out (iw_inodes t))) as Hbb.
  { unfold refBlock. rewrite Hrb, ref_value by (try done; lia).
    destruct (ref_split (zlen (mw_out (iw_inodes t))) (zlen (mw_buf (iw_inodes t)))) as [-> _]; [lia|].
    apply u32_small. lia. }
  assert (refBlock a = refBlock b -> 0 <= k <= 342 /\ n_inodeNum b = u32 (n_inodeNum a + k)) as Hk'.
  { rewrite Hba, Hbb. intros Heq. destruct Hstep as (b' & s' & Hout & Hbuf & Hnil).
    rewrite Hout, zlen_app in Heq. assert (b' = []) as Hb'.
    { destruct b'; [done|]. rewrite zlen_cons in Heq. pose proof (zlen_nonneg b'). lia. }
    rewrite (Hnil Hb') in Hbuf. cbn in Hbuf. apply (f_equal zlen) in Hbuf. rewrite zlen_app in Hbuf.
    split; [lia|]. rewrite Hnb, Hna. unfold u32 in *.
    rewrite Zplus_mod_idemp_l, <- (Zplus_mod_idemp_l (iw_inodeNum t)), Hnum, Zplus_mod_idemp_l. f_equal. ring. }
  assert (0 <= n_inodeNum a < 2 ^ 32) by (rewrite Hna; apply u32_range).
  split; intros E; destruct Hk' as [Hk1 Hk2]; try done.
  - exists k. split; [lia|done].
  - exists (- k). split; [lia|]. rewrite Hk2. unfold u32. rewrite Zplus_mod_idemp_l.
    replace (n_inodeNum a + k + - k) with (n_inodeNum a) by ring. by rewrite Z.mod_small.
Qed.

(** ** Directories *)

Lemma writeDirs_spec iw p iw' :
  iw_writeDirs iw p = Ok iw' ->
  evolves im iw iw' /\
  (iw_ok iw -> final im iw' -> p <> [] -> exists c rest,
     uncached (newMetaCursor fs (i64 (i64 (sb_DirTableStart (fs_sb fs)) +
                  Z.shiftr (metaWriter_ref (iw_dirs iw)) 16))
                 (Z.land (metaWriter_ref (iw_dirs iw)) 0xFFFF)) = Ok c /\
     cursor_at fs c (p ++ rest)) /\
  (iw_ok iw -> final im iw' -> 0 <= metaWriter_ref (iw_dirs iw) < 2 ^ 48).
Proof using enclaws Him.
  unfold iw_writeDirs. destruct (metaWriter_write _ _ _) as [m|] eqn:E; rstep; [|done]. intros [= <-].
  destruct (write_spec _ _ _ _ E) as (Hmok & Hstep & Hfin).
  assert (final im (iw_setDirs iw m) ->
    exists rest, mw_final iw (iw_dirs iw) (p ++ rest) (im_dtab im)) as Hmf.
  { intros Hf. destruct (fin_dirs _ _ Hf) as (rest & Hr). exists rest. apply Hfin.
    by eapply mw_final_conf; [|exact Hr]. }
  assert (iw_ok iw -> final im (iw_setDirs iw m) -> zlen (mw_out (iw_dirs iw)) < 2 ^ 32 /\ mw_ok (iw_dirs iw)) as Hbd.
  { intros Hok Hf. split; [|apply Hok]. destruct (Hmf Hf) as (rest & b & Ho & _).
    pose proof (holds_bound _ _ _ (im_dirs im Him)) as Hb. pose proof (im_small im Him).
    rewrite Ho, zlen_app in Hb. pose proof (zlen_nonneg b). lia. }
  splits.
  - intros Hok. destruct (Hok) as (H1' & H2' & H3' & H4' & H5' & H6' & H7').
    splits; [done|splits; first [done|lia]| |].
    { apply progress_same; [done|done|]. exists []. by rewrite app_nil_r. }
    intros Hf. eapply final_back; [|exact Hf|..]; eauto; try done.
    + exists []. by rewrite app_nil_r.
    + exists []. by rewrite app_nil_r.
    + apply (fin_fragBuf _ _ Hf).
  - intros Hok Hf Hp. destruct (Hbd Hok Hf) as [Ho Hm]. destruct (Hmf Hf) as (rest & b & Hout & Hbs).
    pose proof (fin_codec _ _ Hf) as Hcm. pose proof (im_dirs im Him) as Hdt.
    pose proof (im_small im Him). pose proof (holds_bound _ _ _ Hdt) as Hb.
    rewrite Hout in Hdt, Hb. apply holds_app in Hdt as [_ Hdt]. rewrite zlen_app in Hb.
    pose proof (zlen_nonneg b). pose proof (zlen_nonneg (mw_out (iw_dirs iw))).
    rewrite ref_value by done.
    destruct (ref_split (zlen (mw_out (iw_dirs iw))) (zlen (mw_buf (iw_dirs iw)))) as [-> ->].
    { unfold mw_ok, metaBlockMax in Hm. pose proof (zlen_nonneg (mw_buf (iw_dirs iw))). lia. }
    rewrite (i64_small (sb_DirTableStart _)) by lia. rewrite i64_small by lia.
    destruct (blocks_cursor iw fs (im_img im) (sb_DirTableStart (fs_sb fs) + zlen (mw_out (iw_dirs iw)))
      b (mw_buf (iw_dirs iw)) (p ++ rest)) as (c & Hc & Hcur); try done.
    + by apply (im_rs im Him).
    + lia.
    + by intros [? _]%app_eq_nil.
    + by exists c, rest.
  - intros Hok Hf. destruct (Hbd Hok Hf) as [Ho Hm]. rewrite ref_value by done.
    unfold mw_ok, metaBlockMax in Hm. pose proof (zlen_nonneg (mw_buf (iw_dirs iw))).
    pose proof (zlen_nonneg (mw_out (iw_dirs iw))). lia.
Qed.

(** A listing of at least one child is not empty. *)
Lemma listing_nonempty fuel cs : cs <> [] -> buildDirListing_loop fuel cs <> Ok [].
Proof using.
  destruct cs as [|c cs]; [done|]. intros _. destruct fuel as [|fuel]; [done|]. intros Hl.
  apply listing_cons in Hl as (j & rest & _ & _ & _ & _ & E). apply (f_equal length) in E.
  revert E. rewrite !length_app, !length_PutUint32. cbn [length]. lia.
Qed.

(** Reading the listing of an emitted directory. *)
Lemma readDir_listing i cs listing c rest :
  in_Size i = zlen listing -> zlen listing <= 65532 ->
  buildDirListing_loop (length cs) cs = Ok listing ->
  Forall child_ok cs -> (forall a b, a ∈ cs -> b ∈ cs -> close a b) ->
  (listing <> [] ->
   uncached (newMetaCursor fs (i64 (i64 (sb_DirTableStart (fs_sb fs)) + in_dirStartBlock i))
               (in_dirOffset i)) = Ok c /\ cursor_at fs c (listing ++ rest)) ->
  uncached (readDir fs i) = Ok (entry_of <$> cs).
Proof using.
  intros Hsize Hlen Hl Hok Hclose Hc. unfold readDir. rewrite Hsize, zlen_zero_nil.
  case_bool_decide as Hnil.
  { destruct (decide (cs = [])) as [->|Hne]; [done|]. subst listing. by apply listing_nonempty in Hl. }
  destruct (Hc Hnil) as [Hcur Hs]. rewrite uncached_bind, Hcur. rstep. cbv zeta.
  pose proof (zlen_nonneg listing). rewrite i64_small by lia.
  assert (zlen cs <= listingCost cs) as Hcost.
  { unfold listingCost. clear. induction cs as [|d cs IH]; [done|]. rewrite zlen_cons. cbn.
    pose proof (zlen_nonneg (n_name d)). lia. }
  assert (zlen cs <= zlen listing) as Hcl.
  { clear - Hl. assert (forall fuel cs listing, buildDirListing_loop fuel cs = Ok listing -> zlen cs <= zlen listing) as Hg.
    { clear. intros fuel. induction fuel as [|fuel IH]; intros [|c cs] listing; try done; try (by intros [= <-]).
      intros (j & r & _ & Hj & _ & Hr & ->)%listing_cons. apply IH in Hr.
      assert (forall g, zlen g <= zlen (groupBytes (n_inodeNum c) g)) as Hgb.
      { intros g. induction g as [|d g IHg]; [done|].
        rewrite groupBytes_cons, zlen_app, zlen_dirEntryBytes, zlen_cons.
        pose proof (zlen_nonneg (n_name d)). lia. }
      rewrite <- (take_drop (S j) (c :: cs)) at 1. rewrite zlen_app. pose proof (Hgb (take (S j) (c :: cs))).
      zlens. lia. }
    by eapply Hg. }
  eapply (readDir_loop_spec fs (length cs) _ cs listing c [] rest); try done.
  - rewrite zlen_nil. unfold maxDirEntries. lia.
  - pose proof (Z.div_mod (zlen listing) 12 ltac:(lia)). pose proof (Z.mod_pos_bound (zlen listing) 12 ltac:(lia)).
    rewrite Z2Nat.id by (apply Z.div_pos; lia). lia.
Qed.

Lemma writeDirs_logs iw p iw' : iw_writeDirs iw p = Ok iw' -> logs iw iw' [].
Proof using.
  unfold iw_writeDirs. destruct (metaWriter_write _ _ _); rstep; [|done]. intros [= <-].
  apply logs_none; [|done]. exists []. by rewrite app_nil_r.
Qed.

Lemma emitSymlinkInode_logs iw n iw' n' : emitSymlinkInode iw n = Ok (iw', n') -> logs iw iw' [].
Proof using.
  rewrite emitSymlinkInode_put. destruct (putInode _ _) as [[iw1 [num ref]]|] eqn:E; rstep; [|done].
  intros [= <- _]. by eapply putInode_logs.
Qed.

(** ** Children and their directory *)

(** What emitting child [c], annotated as [c'], gives. *)
Definition emitted (c' c : node) : Prop :=
  n_name c' = n_name c /\ n_mode c' = n_mode c.

Definition emits (c : node) : Prop :=
  forall iw iw' c', iw_ok iw -> emitNode iw c = Ok (iw', c') ->
    evolves im iw iw' /\ emitted c' c /\ handed iw iw' (n_inodeNum c') (n_inodeRef c') /\
    exists l, logs iw iw' l /\
    (final im iw' -> forall W, known im W l -> holds_node im W (n_inodeRef c') (n_inodeNum c') c).

Lemma emitChildren_cons emit iw c cs :
  emitChildren emit iw (c :: cs) =
  ('(iw, c) ← emit iw c; '(iw, cs) ← emitChildren emit iw cs; Ok (iw, c :: cs)).
Proof using. done. Qed.

Lemma emitChildren_spec cs iw iw' cs' :
  Forall emits cs -> iw_ok iw -> emitChildren emitNode iw cs = Ok (iw', cs') ->
  evolves im iw iw' /\
  Forall (fun c' => handed iw iw' (n_inodeNum c') (n_inodeRef c')) cs' /\
  Forall2 emitted cs' cs /\
  exists l, logs iw iw' l /\
  (final im iw' ->
   (forall W, known im W l -> Forall2 (fun c' c => holds_node im W (n_inodeRef c') (n_inodeNum c') c) cs' cs) /\
   (forall a b, a ∈ cs' -> b ∈ cs' -> close a b)).
Proof using Him.
  intros Hcs. revert iw iw' cs'. induction Hcs as [|c cs Hc Hcs IH]; intros iw iw' cs' Hok.
  { intros [= <- <-]. splits; [reflexivity|constructor|constructor|]. exists []. split; [apply logs_refl|].
    intros _. split; [constructor|]. intros a b Ha. by apply not_elem_of_nil in Ha. }
  rewrite emitChildren_cons. destruct (emitNode iw c) as [[iw1 c1]|] eqn:E; rstep; [|done].
  destruct (emitChildren emitNode iw1 cs) as [[iw2 cs2]|] eqn:E2; rstep; [|done].
  intros [= <- <-]. destruct (Hc _ _ _ Hok E) as (Hev & Hem & Hh & l & Hl & Hfin).
  destruct (Hev Hok) as (_ & Hok1 & Hp1 & Hb1).
  destruct (IH _ _ _ Hok1 E2) as (Hev2 & Hh2 & Hem2 & l2 & Hl2 & Hfin2).
  destruct (Hev2 Hok1) as (_ & _ & Hp2 & Hb2).
  splits.
  - by etrans.
  - constructor; [by eapply handed_to|]. eapply Forall_impl; [exact Hh2|]. intros d. by apply handed_from.
  - by constructor.
  - exists (l ++ l2). split; [by eapply logs_trans|]. intros Hf. destruct (Hfin2 Hf) as [Hn Hcl]. split.
    { intros W [HW1 HW2]%known_app. constructor; [apply Hfin; auto|by apply Hn]. }
    pose proof (final_out_bound _ Hf) as Ho. rewrite Forall_forall in Hh2.
    intros a b [->|Ha]%elem_of_cons [->|Hb]%elem_of_cons.
    + intros _. exists 0. split; [lia|]. rewrite Z.add_0_r, u32_small; [done|].
      by eapply handed_ref; [|eapply handed_to].
    + apply (handed_close iw iw1 iw2 c1 b); auto.
    + apply (handed_close iw iw1 iw2 c1 a); auto.
    + by apply Hcl.
Qed.

(** The children as they are emitted, against the tree's. *)
Definition kids (W : Z -> Z -> Prop) : list node -> list node -> Prop :=
  Forall2 (fun c' c => emitted c' c /\ holds_node im W (n_inodeRef c') (n_inodeNum c') c).

Lemma emitted_cost cs' cs : Forall2 emitted cs' cs -> listingCost cs' = listingCost cs.
Proof using.
  intros Hem. unfold listingCost. induction Hem as [|c' c l' l [Hn _] _ IH]; [done|]. cbn. by rewrite Hn, IH.
Qed.

(** Sorting the children sorts the tree's with them. *)
Lemma kids_sort W cs' cs :
  Forall2 emitted cs' cs -> Forall2 (fun c' c => holds_node im W (n_inodeRef c') (n_inodeNum c') c) cs' cs ->
  exists ds, cs ≡ₚ ds /\ kids W (sortChildren cs') ds.
Proof using.
  intros Hem Hnodes. apply (Permutation_Forall2 (symmetry (sortChildren_perm cs')) (l2 := cs)).
  apply Forall2_same_length_lookup_2; [by eapply Forall2_length|]. intros k a b Ha Hb.
  rewrite Forall2_lookup in Hem. specialize (Hem k). rewrite Forall2_lookup in Hnodes. specialize (Hnodes k).
  rewrite Ha, Hb in Hem, Hnodes. inversion Hem; inversion Hnodes; by subst.
Qed.

Lemma kids_sorted W cs ds : kids W cs ds -> Sorted name_le cs -> Sorted name_le ds.
Proof using.
  intros Hall. induction Hall as [|a b l k [[Hn _] _] Hall IH]; intros Hsort; [constructor|].
  inversion Hsort as [|? ? Hs Hhd]; subst. constructor; [by apply IH|].
  destruct Hall as [|a' b' l' k' [[Hn' _] _] _]; constructor.
  inversion Hhd; subst. unfold name_le in *. by rewrite <- Hn, <- Hn'.
Qed.

Lemma kids_entries W cs ds :
  kids W cs ds ->
  de_Name <$> (entry_of <$> cs) = n_name <$> ds /\
  de_Type <$> (entry_of <$> cs) = (fun c => dirEntryType (n_mode c)) <$> ds.
Proof using.
  intros Hall. induction Hall as [|a b l k [[Hn Hm] _] _ [IH1 IH2]]; [done|].
  cbn in *. by rewrite <- Hn, <- Hm, <- IH1, <- IH2.
Qed.

(** A directory whose inode and listing read back holds its subtree. *)
Lemma holds_kids W ref num n i cs ds :
  uncached (readInode fs ref) = Ok i -> header_of i inodeBasicDir n num -> node_type n = sIFDIR ->
  uncached (readDir fs i) = Ok (entry_of <$> cs) -> Sorted name_le cs ->
  n_children n ≡ₚ ds -> kids W cs ds -> holds_node im W ref num n.
Proof using.
  intros Hi Hh Ht Hrd Hsort Hperm Hk. destruct (kids_entries _ _ _ Hk) as [Hnames Htypes].
  eapply (holds_dir im W ref num n i (entry_of <$> cs) ds); try done.
  - by eapply kids_sorted.
  - intros k e c He Hc. rewrite list_lookup_fmap in He.
    destruct (Forall2_lookup_r _ _ _ _ _ Hk Hc) as (c' & Hc' & [_ Hn]).
    rewrite Hc' in He. injection He as <-. exact Hn.
Qed.

(** The children handed out are ones a listing can record. *)
Lemma kids_ok W iw iw' cs' cs ds :
  zlen (mw_out (iw_inodes iw')) < 2 ^ 32 ->
  Forall (fun c' => handed iw iw' (n_inodeNum c') (n_inodeRef c')) cs' ->
  (forall c, c ∈ ds -> 1 <= zlen (n_name c) <= 256) -> cs ≡ₚ cs' -> kids W cs ds -> Forall child_ok cs.
Proof using.
  intros Hout Hh Hnames Hperm Hk. apply Forall_forall. intros d Hd.
  rewrite Forall_forall in Hh. destruct (handed_ref _ _ _ _ Hout (Hh d ltac:(by rewrite <- Hperm))) as [Hr Hn].
  split; [|done]. apply list_elem_of_lookup in Hd as [k Hd].
  destruct (Forall2_lookup_l _ _ _ _ _ Hk Hd) as (c0 & Hc0 & [[Hnm _] _]). rewrite Hnm.
  apply Hnames. by eapply list_elem_of_lookup_2.
Qed.

(** A directory's own records, whatever the length of its listing: the whole
    listing is written, the inode tells where it is, and how long it is as far
    as 16 bits can. *)
Lemma emitDirInode_spec iw n iw' n' :
  0 <= n_mode n < 2 ^ 16 -> node_type n = sIFDIR -> iw_ok iw -> emitDirInode iw n = Ok (iw', n') ->
  exists listing, buildDirListing (setChildren n (sortChildren (n_children n))) = Ok listing /\
  evolves im iw iw' /\ emitted n' n /\ handed iw iw' (n_inodeNum n') (n_inodeRef n') /\ logs iw iw' [] /\
  (final im iw' -> exists i, uncached (readInode fs (n_inodeRef n')) = Ok i /\
     header_of i inodeBasicDir n (n_inodeNum n') /\ in_Size i = dirDataSize (u16 (zlen listing + 3)) /\
     exists c rest, listing <> [] ->
       uncached (newMetaCursor fs (i64 (i64 (sb_DirTableStart (fs_sb fs)) + in_dirStartBlock i))
         (in_dirOffset i)) = Ok c /\ cursor_at fs c (listing ++ rest)).
Proof using enclaws Him.
  intros Hm Ht Hok. rewrite emitDirInode_put. cbv zeta. set (n2 := setChildren n _).
  destruct (buildDirListing n2) as [listing|] eqn:El; rstep; [|done].
  destruct (iw_writeDirs iw listing) as [iw2|] eqn:Ew; rstep; [|done].
  destruct (putInode _ _) as [[iw3 [num ref]]|] eqn:Ep; rstep; [|done]. intros [= <- <-].
  exists listing. split; [done|].
  pose proof (writeDirs_logs _ _ _ Ew) as Hl2. apply writeDirs_spec in Ew as (Hev2 & Hcur & Href).
  pose proof (putInode_logs _ _ _ _ Ep) as Hl3. destruct (Hev2 Hok) as (_ & Hok2 & Hp2 & Hb2).
  assert (evolves im iw2 iw3 /\ handed iw2 iw3 num ref) as [Hev3 Hh3].
  { apply (putInode_spec im Him) in Ep as (? & Hh & _).
    - split; [done|]. by apply Hh.
    - intros k. unfold dirBody. zlens. change (zlen (zeros 8)) with 8. lia. }
  destruct (Hev3 Hok2) as (_ & _ & _ & Hb3). splits.
  - by etrans.
  - done.
  - by eapply handed_from.
  - change (@nil (Z * Z)) with (@nil (Z * Z) ++ []). by eapply logs_trans.
  - intros Hf. pose proof (Hb3 Hf) as Hf2. specialize (Href Hok Hf2).
    apply (dirInode_decode im Him) in Ep as (_ & _ & Hi); [|done|done|done].
    destruct (Hi Hok2 Hf) as (i & Hri & Hhd & Hsize & Hblk & Hoff). exists i. splits; [done|done|done|].
    destruct (decide (listing = [])) as [?|Hne]; [by exists (mkCursor 0 [] 0), []|].
    destruct (Hcur Hok Hf2 Hne) as (c & rest & Hc & Hs). exists c, rest. by rewrite Hblk, Hoff.
Qed.

Lemma emitDir_spec iw n cs' iw1 iw' n' :
  0 <= n_mode n < 2 ^ 16 -> node_type n = sIFDIR ->
  listingCost (n_children n) <= 65532 ->
  (forall c, c ∈ n_children n -> 1 <= zlen (n_name c) <= 256) ->
  Forall emits (n_children n) -> iw_ok iw ->
  emitChildren emitNode iw (n_children n) = Ok (iw1, cs') ->
  emitDirInode iw1 (setChildren n cs') = Ok (iw', n') ->
  evolves im iw iw' /\ emitted n' n /\ handed iw iw' (n_inodeNum n') (n_inodeRef n') /\
  exists l, logs iw iw' l /\
  (final im iw' -> forall W, known im W l -> holds_node im W (n_inodeRef n') (n_inodeNum n') n).
Proof using enclaws Him.
  intros Hm Ht Hcost Hnames Hemits Hok E Ed. apply emitChildren_spec in E as (Hev1 & Hh1 & Hem & l & Hl1 & Hfin1); [|done|done].
  destruct (Hev1 Hok) as (_ & Hok1 & Hp1 & Hb1).
  destruct (emitDirInode_spec iw1 (setChildren n cs') iw' n' Hm Ht Hok1 Ed)
    as (listing & El & Hev2 & Hemd & Hh2 & Hl2 & Hi).
  destruct (Hev2 Hok1) as (_ & _ & _ & Hb2).
  unfold buildDirListing in El. cbn [n_children setChildren] in El.
  pose proof (sortChildren_perm cs') as Hperm. set (cs2 := sortChildren cs') in *.
  pose proof (listing_length _ _ _ El) as Hlen. rewrite (listingCost_perm _ _ Hperm), (emitted_cost _ _ Hem) in Hlen.
  pose proof (zlen_nonneg listing). splits.
  - by etrans.
  - exact Hemd.
  - by eapply handed_from.
  - exists (l ++ []). split; [by eapply logs_trans|].
    intros Hf W [HW _]%known_app. pose proof (Hb2 Hf) as Hf1.
    destruct (Hfin1 Hf1) as [Hnodes Hclose]. specialize (Hnodes W HW).
    destruct (Hi Hf) as (i & Hri & Hhd & Hsize & c & rest & Hc).
    rewrite u16_small, dirDataSize_bias in Hsize by lia. pose proof (final_out_bound _ Hf1) as Hout.
    destruct (kids_sort _ _ _ Hem Hnodes) as (ds & Hds & Hkids).
    eapply (holds_kids W _ _ n i cs2 ds); try done; [|apply sortChildren_sorted].
    eapply readDir_listing; eauto; [lia| |].
    + apply (kids_ok W iw iw1 cs' cs2 ds); try done. intros d Hd. apply Hnames. by rewrite Hds.
    + intros a b Ha Hb. apply Hclose; by rewrite <- Hperm.
Qed.

Lemma emitNode_unfold iw n :
  emitNode iw n =
  (if node_type n =? sIFDIR then
     '(iw, cs) ← emitChildren emitNode iw (n_children n);
     emitDirInode iw (setChildren n cs)
   else if node_type n =? sIFLNK then emitSymlinkInode iw n
   else emitFileInode iw n).
Proof using. by destruct n. Qed.

(** The whole tree. *)
Lemma emitNode_spec n : node_ok n -> emits n.
Proof using enclaws safeio Him.
  induction n as [n IH] using node_ind_nested. intros Hn iw iw' n' Hok. rewrite emitNode_unfold.
  destruct Hn as [n Hm Ht Hcost Hnd Hnames Hcs|n Hm Ht Hl|n Hm Ht Hl]; rewrite Ht.
  - change (sIFDIR =? sIFDIR) with true. cbv iota.
    destruct (emitChildren emitNode iw _) as [[iw1 cs']|] eqn:E; rstep; [|done].
    eapply emitDir_spec; eauto. rewrite Forall_forall in IH |- *. auto.
  - change (sIFLNK =? sIFDIR) with false. change (sIFLNK =? sIFLNK) with true. cbv iota.
    intros E. pose proof (emitSymlinkInode_logs _ _ _ _ E) as Hlog. apply (emitSymlinkInode_spec im Him) in E as (Hev & num & ref & -> & Hh & Hi); [|done..].
    splits; [done|done|by apply Hh|]. exists []. split; [done|]. intros Hf W _. destruct (Hi Hok Hf) as (i & Hri & Hhd & Hst).
    by eapply holds_link.
  - change (sIFREG =? sIFDIR) with false. change (sIFREG =? sIFLNK) with false. cbv iota.
    intros E. apply (emitFileInode_spec im Him) in E as (Hev & num & ref & l & -> & Hh & Hl' & Hi); [|done..].
    splits; [done|done|done|]. exists l. split; [done|]. intros Hf W HW.
    destruct (Hi Hf) as (i & Hri & Hhd & Hst & Hag).
    eapply holds_file; eauto.
Qed.

End tree.
