(* ===== verification/WriterImage.v ===== *)
(** * The finished image, opened

    [buildImage] appends the tables to the data, patches the superblock in,
    and the reader's [Open] accepts the result: the superblock decodes to the
    offsets the tables were written at, the fragment table leads to every
    fragment block, and the root reference to the root of the tree. *)

From S2P Require Export WriterTree.

#[local] Open Scope Z_scope.

(** ** Records of fixed width *)

Lemma zlen_records {A} (f : A -> list byte) w l :
  (forall a, zlen (f a) = w) -> zlen (mjoin (f <$> l)) = w * zlen l.
Proof.
  intros Hf. induction l as [|a l IH].
  { change (mjoin (f <$> [])) with (@nil byte). rewrite (@zlen_nil byte), (@zlen_nil A). lia. }
  change (mjoin (f <$> a :: l)) with (f a ++ mjoin (f <$> l)). rewrite zlen_app, zlen_cons, Hf, IH. lia.
Qed.

Lemma drop_records {A} (f : A -> list byte) w l j a :
  (forall a, zlen (f a) = Z.of_nat w) -> l !! j = Some a ->
  drop (w * j) (mjoin (f <$> l)) = f a ++ mjoin (f <$> drop (S j) l).
Proof.
  intros Hf. revert j. induction l as [|b l IH]; intros [|j]; [done..| |].
  - intros [= ->]. by rewrite Nat.mul_0_r, drop_0.
  - intros Hl. change (mjoin (f <$> b :: l)) with (f b ++ mjoin (f <$> l)).
    pose proof (Hf b) as Hb. unfold zlen in Hb.
    replace (w * S j)%nat with (length (f b) + w * j)%nat by lia.
    rewrite <- drop_drop, drop_app_length. by apply IH.
Qed.

(** The record of an element, where a table of records stands. *)
Lemma holds_record {A} (f : A -> list byte) w img off l q v :
  (forall a, zlen (f a) = Z.of_nat w) -> holds img off (mjoin (f <$> l)) -> l !! q = Some v ->
  holds img (off + Z.of_nat q * Z.of_nat w) (f v).
Proof.
  intros Hw Hh Hv. pose proof (zlen_records f _ l Hw) as Hz. pose proof (lookup_lt_Some _ _ _ Hv).
  rewrite <- (take_drop (w * q) (mjoin (f <$> l))), (drop_records f w l q v Hw Hv) in Hh.
  apply holds_sub in Hh. replace (zlen (take (w * q) (mjoin (f <$> l)))) with (Z.of_nat q * Z.of_nat w) in Hh; [done|].
  unfold zlen in *. rewrite length_take. nia.
Qed.

Lemma zlen_fragEntryBytes fe : zlen (fragEntryBytes fe) = 16.
Proof. unfold fragEntryBytes. zlens. done. Qed.

(** The superblock is patched over the first 96 bytes and nothing else. *)
Lemma copy_holds dst src off b :
  zlen src <= zlen dst -> zlen src <= off -> holds dst off b -> holds (copy dst src) off b.
Proof.
  intros Hl Ho (pre & post & -> & <-). unfold copy.
  rewrite (take_ge src) by (unfold zlen in *; lia).
  exists (src ++ drop (length src) pre), post. split.
  - rewrite drop_app_le by (unfold zlen in *; lia). by rewrite <- app_assoc.
  - unfold zlen in *. rewrite length_app, length_drop. lia.
Qed.

Lemma copy_prefix dst src : zlen src <= zlen dst -> holds (copy dst src) 0 src.
Proof.
  intros Hl. unfold copy. rewrite (take_ge src) by (unfold zlen in *; lia).
  by exists [], (drop (length src) dst).
Qed.

Lemma zlen_copy dst src : zlen src <= zlen dst -> zlen (copy dst src) = zlen dst.
Proof. intros Hl. unfold copy, zlen in *. rewrite length_app, length_take, length_drop. lia. Qed.

(** ** The superblock *)

Section superblock.
Context (iw : imageWriter) (rootRef inodeCount inodeStart dirStart idStart fragStart fragCount bytesUsed : Z).

#[local] Notation sb := (superblock iw rootRef inodeCount inodeStart dirStart idStart fragStart fragCount bytesUsed).

Definition writtenFlags : Z :=
  let flags := flagNoXattrs in
  let flags := if fragCount =? 0 then Z.lor flags flagNoFragments else flags in
  let flags := if opt_Uncompressed (iw_opts iw)
               then Z.lor flags (Z.lor flagUncompressedInodes flagUncompressedData) else flags in
  if hasCompressorOptions iw then Z.lor flags flagCompressorOptions else flags.

Definition writtenID : Z := match iw_comp iw with Some c => compressor_id c | None => compGZIP end.

Lemma zlen_superblock : zlen sb = Z.of_nat superblockSize.
Proof using. unfold superblock. zlens. done. Qed.

(** The flags and the id fit their fields. *)
Lemma writtenFlags_ok :
  0 <= writtenFlags < 2 ^ 16 /\
  (Z.land writtenFlags sbFlagCompressorOptions =? 0) = negb (hasCompressorOptions iw).
Proof using.
  unfold writtenFlags. destruct (_ =? 0), (opt_Uncompressed _), (hasCompressorOptions iw); vm_compute; done.
Qed.

Lemma writtenID_ok : 0 <= writtenID < 2 ^ 16.
Proof using. unfold writtenID. destruct (iw_comp iw) as [[]|]; vm_compute; done. Qed.

(** The decoder reads the fields where the encoder put them. *)
Lemma superblock_decode :
  iw_blockSize iw = defaultBlockSize ->
  0 <= inodeCount < 2 ^ 32 -> 0 <= fragCount < 2 ^ 32 ->
  0 <= rootRef < 2 ^ 64 -> 0 <= inodeStart < 2 ^ 64 -> 0 <= dirStart < 2 ^ 64 -> 0 <= idStart < 2 ^ 64 ->
  0 <= fragStart < 2 ^ 64 -> 0 <= bytesUsed < 2 ^ 64 ->
  decodeSuperblock sb =
  mkSuperblock Magic inodeCount 0 defaultBlockSize fragCount writtenID 17 writtenFlags 1 4 0
    rootRef bytesUsed idStart (2 ^ 64 - 1) inodeStart dirStart fragStart (2 ^ 64 - 1).
Proof using.
  intros Hbs Hic Hfc Hrr His Hds Hid Hfs Hbu.
  destruct writtenFlags_ok as [Hfl _]. pose proof writtenID_ok as Hcid.
  unfold superblock. rewrite Hbs. fold writtenFlags writtenID.
  change (blockLog defaultBlockSize) with 17. unfold decodeSuperblock.
  rewrite <- (app_nil_r (le_PutUint64 0xFFFFFFFFFFFFFFFF)) at 2. fields.
  rewrite (u32_small inodeCount), (u32_small fragCount), (u16_small writtenID), (u16_small writtenFlags),
    (u64_small rootRef), (u64_small inodeStart), (u64_small dirStart), (u64_small idStart),
    (u64_small fragStart), (u64_small bytesUsed) by lia.
  reflexivity.
Qed.

End superblock.

(** ** The fragment table *)

Section image.
Context `{CodecLib} `{EncoderLib} {enclaws : EncoderLaws} `{SafeIO} {safeio : SafeIOLaws}.

Definition perBlock : nat := Z.to_nat fragPerMetaBlock.

Lemma writeFragmentBlocks_spec fuel iw es iw' offs :
  writeFragmentBlocks fuel iw es = Ok (iw', offs) ->
  exists x, iw' = iw_Write iw x /\ zlen offs * 512 < zlen es + 512 <= zlen offs * 512 + 512 /\
  forall img, holds img (zlen (iw_data iw)) x ->
    forall j off, offs !! j = Some off ->
      exists b, metaBlock iw (mjoin (fragEntryBytes <$> take perBlock (drop (perBlock * j) es))) = Ok b /\
        holds img off b /\ drop (perBlock * j) es <> [].
Proof using.
  revert iw es iw' offs. induction fuel as [|fuel IH]; intros iw [|e es] iw' offs; cbn [writeFragmentBlocks];
    try done.
  1,2: intros [= <- <-]; exists []; split; [destruct iw; unfold iw_Write, iw_setData; cbn; by rewrite app_nil_r|];
    split; [by vm_compute|done].
  fold perBlock. unfold writeMetaBlock.
  destruct (metaBlock iw _) as [b|] eqn:Eb; rstep; [|done].
  destruct (writeFragmentBlocks fuel _ _) as [[iw2 offs2]|] eqn:E; rstep; [|done]. intros [= <- <-].
  apply IH in E as (x & -> & Hn & Hx). exists (b ++ x). split_and!.
  - unfold iw_Write, iw_setData. cbn. by rewrite <- app_assoc.
  - rewrite zlen_cons. revert Hn. unfold zlen. rewrite length_drop. change perBlock with 512%nat. cbn [length]. lia.
  - rewrite zlen_cons. revert Hn. unfold zlen. rewrite length_drop. change perBlock with 512%nat. cbn [length]. lia.
  - intros img Hh j off Hj. apply holds_app in Hh as [Hb Hh]. iw_simpl. rewrite zlen_app in Hx.
    destruct j as [|j].
    + injection Hj as <-. rewrite Nat.mul_0_r, drop_0. by exists b.
    + destruct (Hx img Hh j off Hj) as (b' & Hb' & Hh' & Hne). exists b'.
      replace (perBlock * S j)%nat with (perBlock + perBlock * j)%nat by lia.
      rewrite <- drop_drop. split_and!; [|done|done]. rewrite <- Hb'. by apply metaBlock_conf.
Qed.

Lemma writeFragmentBlocks_total fuel iw es :
  (length es <= fuel)%nat -> exists iw' offs, writeFragmentBlocks fuel iw es = Ok (iw', offs).
Proof using enclaws.
  revert iw es. induction fuel as [|fuel IH]; intros iw [|e es] Hf; cbn [writeFragmentBlocks];
    try (by eexists _, _); [cbn in Hf; lia|].
  unfold writeMetaBlock. match goal with |- context [metaBlock iw ?p] => destruct (metaBlock_total iw p) as [b ->] end.
  rstep. edestruct IH as (iw' & offs & ->); [|rstep; by eexists _, _].
  rewrite length_drop. change (Z.to_nat fragPerMetaBlock) with 512%nat. cbn [length] in *. lia.
Qed.

(** Entry [k] is in the block the pointer [k / 512] of the index leads to. *)
Lemma readFragmentEntry_at fs img off g next k fe :
  fs_rs fs = bytes_Reader img -> zlen img < 2 ^ 32 -> 0 <= sb_FragTableStart (fs_sb fs) ->
  Z.of_nat k < sb_FragCount (fs_sb fs) -> 0 <= off < 2 ^ 63 ->
  holds img (sb_FragTableStart (fs_sb fs) + Z.of_nat (k / 512) * 8) (le_PutUint64 off) ->
  uncached (readMetaBlock (fs_rs fs) (fs_d fs) off) = Ok (mjoin (fragEntryBytes <$> g), next) ->
  g !! (k mod 512)%nat = Some fe -> 0 <= fe_start fe < 2 ^ 64 /\ 0 <= fe_sizeWord fe < 2 ^ 32 ->
  uncached (readFragmentEntry fs (Z.of_nat k)) = Ok fe.
Proof using.
  intros Hrs Himg Hst Hk Hoff Hptr Hread Hg [Hs Hw]. pose proof (holds_bound _ _ _ Hptr) as Hpb.
  rewrite zlen_PutUint64 in Hpb. unfold readFragmentEntry.
  destruct (Z.leb_spec (sb_FragCount (fs_sb fs)) (Z.of_nat k)); [lia|].
  change fragPerMetaBlock with (Z.of_nat 512). rewrite <- Nat2Z.inj_div, <- Nat2Z.inj_mod.
  rewrite (i64_small (sb_FragTableStart (fs_sb fs))), i64_small by lia.
  rewrite uncached_bind, uncached_lift, Hrs.
  pose proof (holds_ReadAt img _ (le_PutUint64 off) ltac:(done) Hptr) as Hrd. rewrite length_PutUint64 in Hrd.
  rewrite Hrd. rstep.
  rewrite <- (app_nil_r (le_PutUint64 off)), le_Uint64_Put, u64_small, i64_small by lia.
  rewrite uncached_bind, uncached_readMetaBlockCached, Hread. rstep. change fragEntrySize with 16.
  pose proof (zlen_records fragEntryBytes 16 g zlen_fragEntryBytes) as Hz. pose proof (lookup_lt_Some _ _ _ Hg).
  destruct (Z.ltb_spec (zlen (mjoin (fragEntryBytes <$> g))) (Z.of_nat (k mod 512) * 16 + 16)).
  { unfold zlen in *. lia. }
  replace (Z.to_nat (Z.of_nat (k mod 512) * 16)) with (16 * (k mod 512))%nat by lia.
  rewrite (drop_records _ 16 _ _ fe) by (apply zlen_fragEntryBytes || done).
  generalize (mjoin (fragEntryBytes <$> drop (S (k mod 512)) g)). intros rest.
  unfold fragEntryBytes. rewrite <- !app_assoc. fields. rewrite u64_small, u32_small by done. by destruct fe.
Qed.

Lemma writeFragmentTable_spec iw iw' start :
  writeFragmentTable iw = Ok (iw', start) ->
  exists x, iw' = iw_Write iw x /\ zlen (iw_data iw) <= start <= zlen (iw_data iw) + zlen x /\
  forall fs img, fs_rs fs = bytes_Reader img -> codec_matches iw (fs_d fs) -> zlen img < 2 ^ 32 ->
    sb_FragCount (fs_sb fs) = zlen (iw_fragEntries iw) -> sb_FragTableStart (fs_sb fs) = start ->
    Forall (fun fe => 0 <= fe_start fe < 2 ^ 64 /\ 0 <= fe_sizeWord fe < 2 ^ 32) (iw_fragEntries iw) ->
    holds img (zlen (iw_data iw)) x ->
    forall k fe, iw_fragEntries iw !! k = Some fe ->
      uncached (readFragmentEntry fs (Z.of_nat k)) = Ok fe.
Proof using enclaws.
  unfold writeFragmentTable. destruct (writeFragmentBlocks _ _ _) as [[iw1 offs]|] eqn:E; rstep; [|done].
  intros [= <- <-]. apply writeFragmentBlocks_spec in E as (x & -> & Hn & Hx).
  exists (x ++ mjoin (le_PutUint64 <$> offs)). pose proof (zlen_nonneg (mjoin (le_PutUint64 <$> offs))).
  iw_simpl. rewrite !zlen_app. pose proof (zlen_nonneg x). pose proof (zlen_nonneg (iw_data iw)).
  split_and!; [unfold iw_Write, iw_setData; cbn; by rewrite <- app_assoc|lia|lia|].
  intros fs img Hrs Hcm Himg Hcnt Hstart Hranges Hh k fe Hk.
  apply holds_app in Hh as [Hh Htab]. set (es := iw_fragEntries iw) in *.
  pose proof (lookup_lt_Some _ _ _ Hk) as Hlt. change perBlock with 512%nat in *.
  assert (k = 512 * (k / 512) + k mod 512)%nat as Hkqr by (apply Nat.div_mod_eq).
  assert (k mod 512 < 512)%nat as Hr by (apply Nat.mod_upper_bound; lia).
  destruct (lookup_lt_is_Some_2 offs (k / 512)) as [off Hoff]; [unfold zlen in Hn; lia|].
  destruct (Hx img Hh _ off Hoff) as (b & Hmb & Hb' & Hne).
  set (g := take 512 (drop (512 * (k / 512)) es)) in *.
  assert (g !! (k mod 512)%nat = Some fe) as Hg by (unfold g; by rewrite lookup_take_lt, lookup_drop, <- Hkqr).
  pose proof (zlen_records fragEntryBytes 16 g zlen_fragEntryBytes) as Hpl. pose proof (lookup_lt_Some _ _ _ Hg).
  assert (zlen g <= 512) by (unfold g, zlen; rewrite length_take; lia).
  pose proof (holds_bound _ _ _ Hb') as Hob. pose proof (zlen_nonneg b).
  apply (readFragmentEntry_at fs img off g (off + zlen b) k fe); try done; try lia.
  - rewrite Hcnt. unfold zlen. lia.
  - rewrite Hstart. apply (holds_record le_PutUint64 8 _ _ offs); [apply zlen_PutUint64|done|done].
  - eapply metaBlock_read; try done; [lia| |unfold metaBlockMax; lia].
    intros E. rewrite E, zlen_nil in Hpl. unfold zlen in Hpl. lia.
  - rewrite Forall_lookup in Hranges. by apply (Hranges k).
Qed.

(** ** The states before the tree *)

(** An image that satisfies [image_ok] and holds nothing: what [evolves] says
    of the writer alone is read off at it. *)
Definition nowhere : image :=
  mkImage []
    (mkFS (bytes_Reader []) 0
       (mkSuperblock Magic 0 0 defaultBlockSize 0 compGZIP 17 0 0 4 0 0 0 0 0 0 0 0 0) gzipDecompressor)
    [] [] [].

Lemma nowhere_ok : image_ok nowhere.
Proof using. split; try done; by exists [], []. Qed.

(** The options block, when the compressor has one. *)
Definition lz4Options : list byte :=
  le_PutUint16 (Z.lor (u16 8) metaHeaderCompressedBit) ++
  le_PutUint32 lz4OptionsVersion ++ le_PutUint32 lz4OptionsFlagHC.

Lemma writeCompressorOptions_spec iw :
  writeCompressorOptions iw = iw_Write iw (if hasCompressorOptions iw then lz4Options else []).
Proof using.
  unfold writeCompressorOptions. destruct (hasCompressorOptions iw); cbn [negb].
  - unfold iw_Write, iw_setData, lz4Options. iw_simpl. by rewrite <- app_assoc.
  - destruct iw. unfold iw_Write, iw_setData. cbn. by rewrite app_nil_r.
Qed.

(** The compressor BuildOptions names. *)
Definition optCompressor (opts : BuildOptions) : result (option compressor) :=
  if opt_Uncompressed opts then Ok None
  else c ← newCompressor (opt_Compressor opts); Ok (Some c).

Definition startState (opts : BuildOptions) (comp : option compressor) : imageWriter :=
  let iw := mkImageWriter opts comp (zeros superblockSize) (mkMetaWriter [] []) (mkMetaWriter [] [])
              0 defaultBlockSize [] [] in
  iw_Write iw (if hasCompressorOptions iw then lz4Options else []).

Lemma buildImage_start root opts :
  buildImage root opts =
  (comp ← optCompressor opts;
   '(iw, root) ← emitNode (startState opts comp) root;
   finishImage iw (n_inodeRef root)).
Proof using.
  unfold buildImage, newImageWriter, optCompressor.
  destruct (if opt_Uncompressed opts then _ else _) as [comp|]; [|done]. rstep.
  rewrite writeCompressorOptions_spec. done.
Qed.

Lemma startState_ok opts comp : iw_ok (startState opts comp).
Proof using.
  unfold startState, iw_ok. iw_simpl. rewrite zlen_app, zlen_nil.
  match goal with |- context [zlen (if ?b then _ else _)] =>
    pose proof (zlen_nonneg (if b then lz4Options else [])) end.
  change (zlen (zeros superblockSize)) with 96. change (Z.of_nat superblockSize) with 96.
  splits; first [done | lia | apply Forall_nil_2].
Qed.

Lemma startState_options opts comp :
  hasCompressorOptions (startState opts comp) = true ->
  holds (iw_data (startState opts comp)) (Z.of_nat superblockSize) lz4Options.
Proof using.
  unfold startState. set (iw := mkImageWriter _ _ _ _ _ _ _ _ _).
  change (hasCompressorOptions (iw_Write iw _)) with (hasCompressorOptions iw). intros ->.
  apply (holds_end (zeros superblockSize)).
Qed.

(** ** The end of buildImage *)

Definition decoder_for (iw : imageWriter) : decompressor :=
  match iw_comp iw with Some c => decompressor_of c | None => gzipDecompressor end.

Lemma decoder_for_ok iw :
  newDecompressor (writtenID iw) = Ok (decoder_for iw) /\ codec_matches iw (decoder_for iw).
Proof using.
  unfold writtenID, decoder_for, codec_matches. destruct (iw_comp iw) as [c|]; [|done].
  split; [apply newDecompressor_id|done].
Qed.

(** An image that starts with a superblock the writer made is accepted. *)
Lemma Open_written iw img rootRef inodeCount inodeStart dirStart idStart fragStart fragCount bytesUsed :
  iw_blockSize iw = defaultBlockSize ->
  0 <= inodeCount < 2 ^ 32 -> 0 <= fragCount < 2 ^ 32 ->
  0 <= rootRef < 2 ^ 64 -> 0 <= inodeStart < 2 ^ 64 -> 0 <= dirStart < 2 ^ 64 -> 0 <= idStart < 2 ^ 64 ->
  0 <= fragStart < 2 ^ 64 -> 0 <= bytesUsed < 2 ^ 64 ->
  holds img 0 (superblock iw rootRef inodeCount inodeStart dirStart idStart fragStart fragCount bytesUsed) ->
  (hasCompressorOptions iw = true -> holds img (Z.of_nat superblockSize) lz4Options) ->
  exists sb, Open (bytes_Reader img) (zlen img) = Ok (mkFS (bytes_Reader img) (zlen img) sb (decoder_for iw)) /\
    sb_BlockSize sb = defaultBlockSize /\ sb_RootInode sb = rootRef /\ sb_FragCount sb = fragCount /\
    sb_InodeTableStart sb = inodeStart /\ sb_DirTableStart sb = dirStart /\ sb_FragTableStart sb = fragStart.
Proof using.
  intros Hbs Hic Hfc Hrr His Hds Hid Hfs Hbu Hsb Hopt.
  assert (length (superblock iw rootRef inodeCount inodeStart dirStart idStart fragStart fragCount bytesUsed)
    = superblockSize) as Hlen.
  { pose proof (zlen_superblock iw rootRef inodeCount inodeStart dirStart idStart fragStart fragCount bytesUsed) as E.
    unfold zlen in E. lia. }
  apply holds_ReadAt in Hsb; [|intros E; by rewrite E in Hlen]. rewrite Hlen in Hsb.
  eexists. split.
  - unfold Open, readSuperblock. rstep. rewrite Hsb. rstep. rewrite superblock_decode by done.
    cbn [sb_Magic sb_VersionMajor sb_VersionMinor sb_BlockLog sb_BlockSize]. cbn [negb Z.eqb orb].
    change (negb (Magic =? Magic)) with false.
    change (_ || _) with false. cbv iota. rstep. cbn [sb_Compression].
    destruct (decoder_for_ok iw) as [-> _]. rstep.
    unfold readCompressorOptions. cbn [sb_Flags].
    destruct (writtenFlags_ok iw fragCount) as [_ ->].
    destruct (hasCompressorOptions iw); cbn [negb]; [|reflexivity].
    specialize (Hopt eq_refl). apply holds_app in Hopt as [Ho1 Ho2].
    apply holds_ReadAt in Ho1; [|done]. rewrite length_PutUint16 in Ho1. rewrite Ho1. rstep.
    apply holds_ReadAt in Ho2; [|done]. 
    change (le_Uint16 _) with 32776. cbv zeta.
    change (Z.ldiff 32776 0x8000) with 8. change ((8 =? 0) || (metaBlockMax <? 8)) with false. cbv iota.
    change (Z.to_nat 8) with (length (le_PutUint32 lz4OptionsVersion ++ le_PutUint32 lz4OptionsFlagHC)).
    change (zlen (le_PutUint16 _)) with 2 in Ho2. rewrite Ho2. reflexivity.
  - by split_and!.
Qed.

(** The layout of the tables behind the data. *)
Record layout (iw : imageWriter) (rootRef : Z) (img : list byte) := {
  la_iw : imageWriter;           (* after the last fragment is flushed *)
  la_inodes : list byte; la_dirs : list byte; la_tail : list byte;
  la_fragTable : Z; la_idTable : Z;
  la_flush : flushFragment iw = Ok la_iw;
  la_inodes_ok : mw_final la_iw (iw_inodes la_iw) [] la_inodes;
  la_dirs_ok : mw_final la_iw (iw_dirs la_iw) [] la_dirs;
  la_img : let data := iw_data la_iw ++ la_inodes ++ la_dirs ++ la_tail in
    zlen img = zlen data /\
    img = copy data (superblock la_iw rootRef (iw_inodeNum la_iw) (zlen (iw_data la_iw))
      (zlen (iw_data la_iw) + zlen la_inodes) la_idTable la_fragTable
      (u32 (zlen (iw_fragEntries la_iw))) (zlen data));
  la_id : 0 <= la_idTable <= zlen img;
  la_frag : zlen (iw_fragEntries la_iw) = 0 /\ la_fragTable = bytesUsedNoTable \/
    exists x y iw7, la_tail = x ++ y /\ 0 <= la_fragTable <= zlen img /\
      conf iw7 = conf la_iw /\ iw_fragEntries iw7 = iw_fragEntries la_iw /\
      iw_data iw7 = iw_data la_iw ++ la_inodes ++ la_dirs /\
      exists iw8, writeFragmentTable iw7 = Ok (iw8, la_fragTable) /\ iw8 = iw_Write iw7 x
}.

Lemma finish_fields iw m m' : metaWriter_finish iw m = Ok m' -> mw_buf m' = [].
Proof using.
  unfold metaWriter_finish. destruct (Z.ltb_spec 0 (zlen (mw_buf m))) as [Hb|Hb].
  - unfold metaWriter_emit. destruct (metaBlock iw _); rstep; [|done]. by intros [= <-].
  - intros [= <-]. destruct (mw_buf m); [done|]. rewrite zlen_cons in Hb.
    pose proof (zlen_nonneg l). lia.
Qed.

(** The step that writes the fragment table, or none. *)
Lemma fragTable_step iw n iw' start :
  0 <= n -> (if 0 <? n then writeFragmentTable iw else Ok (iw, bytesUsedNoTable)) = Ok (iw', start) ->
  exists x, iw' = iw_Write iw x /\
    (n = 0 /\ start = bytesUsedNoTable \/
     writeFragmentTable iw = Ok (iw', start) /\ 0 <= start <= zlen (iw_data iw) + zlen x).
Proof using enclaws.
  intros Hn. destruct (Z.ltb_spec 0 n) as [|H'].
  - intros Et. destruct (writeFragmentTable_spec _ _ _ Et) as (x & -> & Hst & _). exists x. split; [done|]. right.
    split; [done|]. pose proof (zlen_nonneg (iw_data iw)). lia.
  - intros [= <- <-]. exists []. split; [destruct iw; unfold iw_Write, iw_setData; cbn; by rewrite app_nil_r|].
    left. split; [lia|done].
Qed.

(** The image buildImage returns has that layout. *)
Lemma finishImage_layout iw rootRef img :
  iw_ok iw -> finishImage iw rootRef = Ok img -> inhabited (layout iw rootRef img).
Proof using enclaws.
  intros Hok. unfold finishImage.
  destruct (flushFragment iw) as [iw4|] eqn:Ef; rstep; [|done]. cbv zeta.
  destruct (flushFragment_spec nowhere nowhere_ok _ _ Ef) as (Hev & Hbuf & _).
  destruct (Hev Hok) as (_ & Hok4 & _ & _).
  destruct (metaWriter_finish iw4 _) as [mi|] eqn:Ei; rstep; [|done]. iw_simpl.
  destruct (metaWriter_finish _ (iw_dirs iw4)) as [md|] eqn:Ed; rstep; [|done]. iw_simpl.
  set (iw7 := iw_Write (iw_Write (iw_setDirs (iw_setInodes iw4 mi) md) (mw_out mi)) (mw_out md)).
  change (mkImageWriter (iw_opts iw4) (iw_comp iw4) _ mi md (iw_inodeNum iw4) (iw_blockSize iw4)
    (iw_fragBuf iw4) (iw_fragEntries iw4)) with iw7.
  destruct (if 0 <? _ then _ else _) as [[iw8 fragTable]|] eqn:Et; rstep; [|done].
  destruct (writeMetaBlock iw8 (zeros 4)) as [iw9|] eqn:Em; rstep; [|done]. iw_simpl.
  intros <-%Ok_inj.
  destruct (fragTable_step _ _ _ _ (zlen_nonneg _) Et) as (x & -> & Hfrag). clear Et.
  unfold writeMetaBlock in Em. destruct (metaBlock _ (zeros 4)) as [b|]; [|done].
  revert Em. rstep. intros [= <-]. iw_simpl.
  set (ptr := le_PutUint64 _).
  assert (iw_data iw7 = iw_data iw4 ++ mw_out mi ++ mw_out md) as Hd7.
  { unfold iw7. iw_simpl. by rewrite <- app_assoc. }
  assert (((iw_data iw7 ++ x) ++ b) ++ ptr = iw_data iw4 ++ mw_out mi ++ mw_out md ++ x ++ b ++ ptr) as Hdata.
  { rewrite Hd7. by rewrite <- !app_assoc. }
  rewrite Hdata.
  match goal with |- inhabited (layout _ _ (copy ?d ?s)) =>
    assert (zlen (copy d s) = zlen d) as Hlen;
    [apply zlen_copy; rewrite zlen_superblock, zlen_app;
     pose proof (zlen_nonneg (mw_out mi ++ mw_out md ++ x ++ b ++ ptr));
     destruct Hok4 as (_ & _ & _ & Hl4 & _); pose proof (zlen_nonneg (iw_fragEntries iw4)); lia|]
  end.
  constructor.
  apply (Build_layout iw rootRef _ iw4 (mw_out mi) (mw_out md) (x ++ b ++ ptr) fragTable
    (zlen ((iw_data iw7 ++ x) ++ b))).
  - done.
  - eapply mw_final_conf; [|eapply finish_spec; [|exact Ei]]; [done|apply Hok4].
  - eapply mw_final_conf; [|eapply finish_spec; [|exact Ed]]; [done|apply Hok4].
  - cbv zeta. split; [exact Hlen|]. rewrite (zlen_app (iw_data iw4) (mw_out mi)). f_equal.
  - rewrite Hlen, <- Hdata, (zlen_app _ ptr). pose proof (zlen_nonneg ptr).
    pose proof (zlen_nonneg ((iw_data iw7 ++ x) ++ b)). lia.
  - destruct Hfrag as [[Hz1 Hz2]|[Hw Hr]]; [by left|right].
    exists x, (b ++ ptr), iw7. splits; [done|lia| |done|done|done|by exists (iw_Write iw7 x)].
    rewrite Hlen, <- Hdata, !zlen_app. pose proof (zlen_nonneg b). pose proof (zlen_nonneg ptr).
    rewrite Hd7, !zlen_app in Hr. rewrite ?Hd7, ?zlen_app. lia.
Qed.

(** ** The finished image *)

(** A flush only appends to the data. *)
Lemma flushFragment_data iw iw' : flushFragment iw = Ok iw' -> exists x, iw_data iw' = iw_data iw ++ x.
Proof using.
  unfold flushFragment. destruct (_ =? 0); [intros <-%Ok_inj; exists []; by rewrite app_nil_r|].
  unfold writeDataBlock. destruct (iw_compress _ _ _) as [[st c]|]; rstep; [|done].
  intros <-%Ok_inj. iw_simpl. by exists st.
Qed.

Section finished.
Context (iw : imageWriter) (rootRef : Z) (img : list byte) (L : layout iw rootRef img).
Context (Hok : iw_ok iw) (Hsmall : zlen img < 2 ^ 32).

#[local] Notation iw4 := (la_iw _ _ _ L).
#[local] Notation itab := (la_inodes _ _ _ L).
#[local] Notation dtab := (la_dirs _ _ _ L).
#[local] Notation data := (iw_data iw4 ++ itab ++ dtab ++ la_tail _ _ _ L).

Lemma finished_state : conf iw4 = conf iw /\ iw_ok iw4 /\ iw_fragBuf iw4 = [].
Proof using enclaws Hok.
  destruct (flushFragment_spec nowhere nowhere_ok _ _ (la_flush _ _ _ L)) as (Hev & Hbuf & _).
  by destruct (Hev Hok) as (Hconf & Hok4 & _ & _).
Qed.

Lemma finished_bounds :
  zlen img = zlen (iw_data iw4) + (zlen itab + (zlen dtab + zlen (la_tail _ _ _ L))) /\
  Z.of_nat superblockSize <= zlen (iw_data iw4) /\ 0 <= zlen (iw_fragEntries iw4) <= zlen (iw_data iw4) /\
  0 <= la_fragTable _ _ _ L < 2 ^ 64.
Proof using enclaws Hok Hsmall.
  destruct finished_state as (_ & (_ & _ & _ & Hl4 & _) & _). destruct (la_img _ _ _ L) as [-> _].
  rewrite !zlen_app. pose proof (zlen_nonneg (iw_fragEntries iw4)). splits; try lia.
  all: destruct (la_frag _ _ _ L) as [[_ ->]|(x & y & iw7 & _ & Hr & _)]; [by vm_compute|lia].
Qed.

(** Past the superblock the image is the data written. *)
Lemma finished_holds off b : Z.of_nat superblockSize <= off -> holds data off b -> holds img off b.
Proof using enclaws Hok Hsmall.
  intros Ho Hb. destruct (la_img _ _ _ L) as [_ ->]. destruct finished_bounds as (_ & Hl & _).
  apply copy_holds; rewrite ?zlen_superblock, ?zlen_app; [|done|done].
  pose proof (zlen_nonneg itab). pose proof (zlen_nonneg dtab). pose proof (zlen_nonneg (la_tail _ _ _ L)). lia.
Qed.

Lemma finished_options :
  (hasCompressorOptions iw = true -> holds (iw_data iw) (Z.of_nat superblockSize) lz4Options) ->
  hasCompressorOptions iw4 = true -> holds img (Z.of_nat superblockSize) lz4Options.
Proof using enclaws Hok Hsmall.
  intros Hopt Hopts. destruct finished_state as ([= _ Hcomp _] & _).
  destruct (flushFragment_data _ _ (la_flush _ _ _ L)) as [x Hx].
  apply finished_holds; [done|]. rewrite Hx. do 2 apply holds_extend. apply Hopt.
  revert Hopts. unfold hasCompressorOptions. by rewrite Hcomp.
Qed.

(** The superblock the reader finds. *)
Definition finished_sb (s : Superblock) : Prop :=
  sb_BlockSize s = defaultBlockSize /\ sb_RootInode s = rootRef /\
  sb_FragCount s = zlen (iw_fragEntries iw4) /\ sb_InodeTableStart s = zlen (iw_data iw4) /\
  sb_DirTableStart s = zlen (iw_data iw4) + zlen itab /\ sb_FragTableStart s = la_fragTable _ _ _ L.

Definition finished_image (s : Superblock) : image :=
  mkImage img (mkFS (bytes_Reader img) (zlen img) s (decoder_for iw4)) (iw_fragEntries iw4) itab dtab.

Lemma finished_open :
  0 <= rootRef < 2 ^ 64 ->
  (hasCompressorOptions iw = true -> holds (iw_data iw) (Z.of_nat superblockSize) lz4Options) ->
  exists s, Open (bytes_Reader img) (zlen img) = Ok (im_fs (finished_image s)) /\ finished_sb s.
Proof using enclaws Hok Hsmall.
  intros Hroot Hopt. destruct finished_state as (_ & (Hbs4 & Hmi4 & Hmd4 & Hl4 & Hfb4 & He4 & Hn4) & _).
  destruct finished_bounds as (Hdl & _ & Hfe & Hft). destruct (la_img _ _ _ L) as [Hlen Himg].
  pose proof (la_id _ _ _ L). pose proof (zlen_nonneg itab). pose proof (zlen_nonneg dtab).
  pose proof (zlen_nonneg (la_tail _ _ _ L)).
  destruct (Open_written iw4 img rootRef (iw_inodeNum iw4) (zlen (iw_data iw4)) (zlen (iw_data iw4) + zlen itab)
    (la_idTable _ _ _ L) (la_fragTable _ _ _ L) (u32 (zlen (iw_fragEntries iw4))) (zlen data))
    as (s & Hopen & Hs1 & Hs2 & Hs3 & Hs4 & Hs5 & Hs6); try done; try lia; try apply u32_range.
  { cbv zeta in Himg. rewrite Himg at 1. apply copy_prefix. rewrite zlen_superblock. lia. }
  { by apply finished_options. }
  rewrite u32_small in Hs3 by lia. by exists s.
Qed.

Lemma finished_fragments s k fe :
  finished_sb s -> iw_fragEntries iw4 !! k = Some fe ->
  uncached (readFragmentEntry (im_fs (finished_image s)) (Z.of_nat k)) = Ok fe.
Proof using enclaws Hok Hsmall.
  intros (_ & _ & Hs3 & _ & _ & Hs6) Hk. destruct finished_state as (_ & (_ & _ & _ & Hl4 & _ & He4 & _) & _).
  destruct finished_bounds as (Hdl & _ & _ & _). pose proof (finished_holds) as Hh. revert Hs6 Hdl Hh.
  destruct (la_frag _ _ _ L) as [[H0' _]|(x & y & iw7 & -> & Hr & Hc7 & He7 & Hd7 & iw8 & Hw & ->)]; intros Hs6 Hdl Hh.
  { apply lookup_lt_Some in Hk. unfold zlen in H0'. lia. }
  destruct (writeFragmentTable_spec _ _ _ Hw) as (x' & Hx & _ & Hread).
  assert (x' = x) as -> by (apply (f_equal iw_data) in Hx; iw_simpl; by apply app_inv_head in Hx).
  assert (iw_fragEntries iw7 !! k = Some fe) as Hk7 by (by rewrite He7).
  eapply (Hread _ img); eauto; try done.
  - injection Hc7 as _ Hcomp _. unfold codec_matches. rewrite Hcomp. apply decoder_for_ok.
  - by rewrite He7.
  - rewrite He7. eapply Forall_impl; [exact He4|]. cbn. intros f Hf. rewrite !zlen_app in *.
    pose proof (zlen_nonneg itab). pose proof (zlen_nonneg dtab). pose proof (zlen_nonneg (x ++ y)).
    rewrite zlen_app in *. lia.
  - rewrite Hd7. apply Hh.
    + rewrite !zlen_app. pose proof (zlen_nonneg itab). pose proof (zlen_nonneg dtab).
      pose proof (zlen_nonneg (iw_fragEntries iw4)). lia.
    + apply (holds_sub _ 0 (iw_data iw4 ++ itab ++ dtab) x y). rewrite <- !app_assoc. apply (holds_end []).
Qed.

Lemma finished_ok s : finished_sb s -> image_ok (finished_image s).
Proof using enclaws Hok Hsmall.
  intros Hs. pose proof Hs as (Hs1 & _ & _ & Hs4 & Hs5 & _). destruct finished_bounds as (Hdl & Hl4 & Hfe & _).
  pose proof (zlen_nonneg itab). pose proof (zlen_nonneg dtab). pose proof (zlen_nonneg (la_tail _ _ _ L)).
  split; cbn [finished_image im_fs im_img im_frags im_itab im_dtab fs_rs fs_size fs_sb]; try done.
  - rewrite Hs4. apply finished_holds; [lia|].
    apply (holds_sub _ 0 (iw_data iw4) itab (dtab ++ la_tail _ _ _ L)), (holds_end []).
  - rewrite Hs5. apply finished_holds; [lia|]. rewrite <- zlen_app.
    apply (holds_sub _ 0 (iw_data iw4 ++ itab) dtab (la_tail _ _ _ L)). rewrite <- app_assoc. apply (holds_end []).
  - intros k fe. by apply finished_fragments.
  - destruct finished_state as (_ & (_ & _ & _ & Hn & _) & _). unfold invalidFrag.
    change (Z.of_nat superblockSize) with 96 in Hn. lia.
Qed.

Lemma finished_final s : final (finished_image s) iw4.
Proof using enclaws Hok Hsmall.
  destruct finished_state as (_ & _ & Hbuf).
  split; cbn [finished_image im_fs im_img im_frags im_itab im_dtab fs_d].
  - apply decoder_for_ok.
  - intros off b Ho Hb. apply finished_holds; [done|]. by apply holds_extend.
  - exists []. apply L.
  - exists []. apply L.
  - exists []. by rewrite app_nil_r.
  - by rewrite Hbuf.
Qed.

End finished.

(** The finished image is one the state before it was on the way to. *)
Lemma finishImage_spec iw rootRef img :
  iw_ok iw -> 0 <= rootRef < 2 ^ 64 ->
  (hasCompressorOptions iw = true -> holds (iw_data iw) (Z.of_nat superblockSize) lz4Options) ->
  finishImage iw rootRef = Ok img -> zlen img < 2 ^ 32 ->
  exists im, im_img im = img /\ Open (bytes_Reader img) (zlen img) = Ok (im_fs im) /\ image_ok im /\
    final im iw /\ sb_RootInode (fs_sb (im_fs im)) = rootRef /\
    exists iw4 l, logs iw iw4 l /\ im_frags im = iw_fragEntries iw4 /\ zlen (iw_data iw4) <= zlen img.
Proof using enclaws.
  intros Hok Hroot Hopt Hfin Hsmall. destruct (finishImage_layout _ _ _ Hok Hfin) as [L].
  destruct (finished_open iw rootRef img L Hok Hsmall Hroot Hopt) as (s & Hopen & Hs).
  pose proof (finished_ok iw rootRef img L Hok Hsmall s Hs) as Him. pose proof Hs as (_ & Hrr & _).
  destruct (flushFragment_spec _ Him _ _ (la_flush _ _ _ L)) as (Hev & _).
  destruct (flushFragment_logs _ Him _ _ Hok (la_flush _ _ _ L)) as [l Hl].
  exists (finished_image iw rootRef img L s). splits; [done|exact Hopen|done| |exact Hrr|].
  - apply (Hev Hok). by apply finished_final.
  - exists (la_iw _ _ _ L), l. splits; [done|done|].
    destruct (finished_bounds iw rootRef img L Hok Hsmall) as (-> & _).
    pose proof (zlen_nonneg (la_inodes _ _ _ L)). pose proof (zlen_nonneg (la_dirs _ _ _ L)).
    pose proof (zlen_nonneg (la_tail _ _ _ L)). lia.
Qed.

End image.
