(* ===== verification/RoundTrip.v ===== *)
(** * From a tree to its image and back

    The specification is the source tree itself: [tree_resolves] follows a
    path, symbolic links included, in the tree.  An image built from a tree
    opens, and resolving a path in it leads to the inode of the node the path
    leads to in the tree ([built_resolve]).  What the methods of FS return
    then follows from what the tree stores. *)

From S2P Require Export WriterImage.

#[local] Open Scope Z_scope.

Lemma lor_range a b n : 0 <= a < 2 ^ n -> 0 <= b < 2 ^ n -> 0 <= Z.lor a b < 2 ^ n.
Proof.
  intros Ha Hb. split; [apply Z.lor_nonneg; lia|].
  destruct (Z.eq_dec (Z.lor a b) 0) as [->|Hne]; [lia|].
  assert (0 <= Z.lor a b) by (apply Z.lor_nonneg; lia).
  destruct (Z.lt_ge_cases n 0); [rewrite Z.pow_neg_r in * by done; lia|].
  destruct (Z.lt_ge_cases (Z.lor a b) (2 ^ n)) as [?|Hge]; [done|]. exfalso.
  assert (n <= Z.log2 (Z.lor a b)) as Hl by (by apply Z.log2_le_pow2; lia).
  assert (Z.testbit (Z.lor a b) (Z.log2 (Z.lor a b)) = true) as Ht by (apply Z.bit_log2; lia).
  rewrite Z.lor_spec, (testbit_high a n), (testbit_high b n) in Ht by done. done.
Qed.

(** ** Paths in a tree *)

Definition is_link (n : node) : bool := node_type n =? sIFLNK.

(** The child a component names. *)
Definition child_at (n : node) (name : list byte) (c : node) : Prop :=
  node_type n = sIFDIR /\ c ∈ n_children n /\ n_name c = name.

(** [tree_resolves root k cur parts ff res]: following [parts] from [cur]
    leads to [res], with links nested at most [k] deep; a final link is
    followed when [ff]. *)
Inductive tree_resolves (root : node) : nat -> node -> list (list byte) -> bool -> node -> Prop :=
| T_nil k cur ff : tree_resolves root k cur [] ff cur
| T_plain k cur name rest ff c res :
    child_at cur name c -> is_link c = false \/ (rest = [] /\ ff = false) ->
    tree_resolves root k c rest ff res ->
    tree_resolves root k cur (name :: rest) ff res
| T_link k cur name rest ff c dest res :
    child_at cur name c -> is_link c = true -> rest <> [] \/ ff = true ->
    tree_resolves root k (if hasPrefixSlash (n_target c) then root else cur)
      (splitPath (n_target c)) true dest ->
    tree_resolves root (S k) dest rest ff res ->
    tree_resolves root (S k) cur (name :: rest) ff res.

Section roundtrip.
Context `{CodecLib} `{EncoderLib} {codecs : CodecLaws} {enclaws : EncoderLaws}.
Context `{SafeIO} {safeio : SafeIOLaws}.

(** ** Building *)

Lemma handed_ref64 iw iw' num ref : handed iw iw' num ref -> 0 <= ref < 2 ^ 64.
Proof using.
  intros (s & _ & -> & _ & Hm & _). unfold metaWriter_ref, mw_ok, metaBlockMax in *.
  apply lor_range; [apply u64_range|]. pose proof (zlen_nonneg (mw_buf (iw_inodes s))). lia.
Qed.

(** A log has one length per offset. *)
Lemma log_functional (l : list (Z * Z)) : NoDup l.*1 -> functional (fun off n => (off, n) ∈ l).
Proof using.
  intros Hnd off n n' [i Hi]%list_elem_of_lookup [j Hj]%list_elem_of_lookup.
  assert (i = j) as ->.
  { eapply (NoDup_lookup _ i j off Hnd); rewrite list_lookup_fmap; [by rewrite Hi|by rewrite Hj]. }
  congruence.
Qed.

(** The log of a whole run knows the blocks of its first part and every
    fragment of the image. *)
Lemma log_known im iw iw4 l L :
  iw_fragEntries iw = [] -> im_frags im = iw_fragEntries iw4 -> logs iw iw4 L ->
  zlen (iw_data iw4) < 2 ^ 62 -> (forall b, b ∈ l -> b ∈ L) -> known im (fun off n => (off, n) ∈ L) l.
Proof using.
  intros H0' Hfr [_ Hr _ Hf] Hb Hl. split; [intros o n; apply Hl|].
  intros fe Hfe n [= <- _] _. rewrite Hfr in Hfe. destruct (Hf _ Hfe) as [Hin|Hin].
  { rewrite H0' in Hin. by apply not_elem_of_nil in Hin. }
  rewrite Forall_forall in Hr. specialize (Hr _ Hin). cbn in Hr. pose proof (zlen_nonneg (iw_data iw)).
  by rewrite i64_small by lia.
Qed.

(** A tree built into an image below 4 GiB is in the opened image. *)
(** Finishing what the start state grew into. *)
Lemma finish_started im0 opts comp iw num rootRef img :
  evolves im0 (startState opts comp) iw -> handed (startState opts comp) iw num rootRef ->
  finishImage iw rootRef = Ok img -> zlen img < 2 ^ 32 ->
  exists im, im_img im = img /\ Open (bytes_Reader img) (zlen img) = Ok (im_fs im) /\ image_ok im /\
    final im iw /\ sb_RootInode (fs_sb (im_fs im)) = rootRef /\
    exists iw4 l, logs iw iw4 l /\ im_frags im = iw_fragEntries iw4 /\ zlen (iw_data iw4) <= zlen img.
Proof using enclaws.
  intros Hev Hh Hfin Hsmall.
  destruct (Hev (startState_ok opts comp)) as (Hconf & Hok & (p & k & _ & _ & _ & x & Hx) & _).
  apply finishImage_spec; try done; [by eapply handed_ref64|].
  intros Hopt. assert (hasCompressorOptions (startState opts comp) = true) as Hopt'.
  { revert Hopt. unfold hasCompressorOptions. by injection Hconf as _ -> _. }
  apply startState_options in Hopt'. rewrite Hx. by apply holds_extend.
Qed.

Lemma buildImage_holds root opts img :
  node_ok root -> buildImage root opts = Ok img -> zlen img < 2 ^ 32 ->
  exists im W num, Open (bytes_Reader img) (zlen img) = Ok (im_fs im) /\ image_ok im /\ functional W /\
    holds_node im W (sb_RootInode (fs_sb (im_fs im))) num root.
Proof using enclaws safeio.
  intros Hroot. rewrite buildImage_start. destruct (optCompressor opts) as [comp|]; rstep; [|done].
  destruct (emitNode _ root) as [[iw root']|] eqn:E; rstep; [|done]. intros Hfin Hsmall.
  pose proof (startState_ok opts comp) as Hok0.
  destruct (emitNode_spec nowhere nowhere_ok root Hroot _ _ _ Hok0 E) as (Hev0 & _ & Hh & _).
  destruct (finish_started _ _ _ _ _ _ _ Hev0 Hh Hfin Hsmall)
    as (im & Himg & Hopen & Him & Hf & Hr & iw4 & l4 & Hl4 & Hfr & Hbound).
  destruct (emitNode_spec im Him root Hroot _ _ _ Hok0 E) as (_ & _ & _ & l & Hl & Hn).
  exists im, (fun off n => (off, n) ∈ l ++ l4), (n_inodeNum root').
  pose proof (logs_trans _ _ _ _ _ Hl Hl4) as HL. splits; [done|done|by apply log_functional, (lg_nodup _ _ _ HL)|].
  rewrite Hr. apply Hn; [done|]. apply (log_known im (startState opts comp) iw4); [done|done|exact HL|lia|].
  intros b Hb. apply elem_of_app. by left.
Qed.

(** A root directory of any length: its inode is found, and its size field is
    the length of the listing as far as 16 bits can tell. *)
Lemma buildImage_root root opts img :
  0 <= n_mode root < 2 ^ 16 -> node_type root = sIFDIR -> Forall node_ok (n_children root) ->
  buildImage root opts = Ok img -> zlen img < 2 ^ 32 ->
  exists fs i num len, Open (bytes_Reader img) (zlen img) = Ok fs /\
    uncached (readInode fs (sb_RootInode (fs_sb fs))) = Ok i /\ header_of i inodeBasicDir root num /\
    in_Size i = dirDataSize (u16 (len + 3)).
Proof using enclaws safeio.
  intros Hm Ht Hcs. rewrite buildImage_start. destruct (optCompressor opts) as [comp|]; rstep; [|done].
  rewrite emitNode_unfold, Ht. change (sIFDIR =? sIFDIR) with true. cbv iota.
  destruct (emitChildren emitNode _ _) as [[iw1 cs']|] eqn:E; rstep; [|done].
  destruct (emitDirInode iw1 _) as [[iw root']|] eqn:Ed; rstep; [|done]. intros Hfin Hsmall.
  pose proof (startState_ok opts comp) as Hok0.
  assert (Forall (emits nowhere) (n_children root)) as Hem.
  { eapply Forall_impl; [exact Hcs|]. intros c. apply emitNode_spec, nowhere_ok. }
  destruct (emitChildren_spec nowhere nowhere_ok _ _ _ _ Hem Hok0 E) as (Hev1 & _).
  destruct (Hev1 Hok0) as (_ & Hok1 & Hp1 & _).
  destruct (emitDirInode_spec nowhere nowhere_ok iw1 (setChildren root cs') iw root' Hm Ht Hok1 Ed)
    as (_ & _ & Hev2 & _ & Hh & _).
  destruct (finish_started nowhere opts comp iw (n_inodeNum root') (n_inodeRef root') img)
    as (im & Himg & Hopen & Him & Hf & Hr & _); [by etrans|by eapply handed_from|done|done|].
  destruct (emitDirInode_spec im Him iw1 (setChildren root cs') iw root' Hm Ht Hok1 Ed)
    as (listing & _ & _ & _ & _ & _ & Hi).
  destruct (Hi Hf) as (i & Hri & Hhd & Hsize & _).
  exists (im_fs im), i, (n_inodeNum root'), (zlen listing). by rewrite Hr.
Qed.

(** ** Nodes and their inodes *)

Lemma itype_dir n : node_type n = sIFDIR -> dirEntryType (n_mode n) = inodeBasicDir.
Proof using. unfold node_type, dirEntryType. by intros ->. Qed.
Lemma itype_link n : node_type n = sIFLNK -> dirEntryType (n_mode n) = inodeBasicSymlink.
Proof using. unfold node_type, dirEntryType. by intros ->. Qed.
Lemma itype_file n : node_type n = sIFREG -> dirEntryType (n_mode n) = inodeBasicFile.
Proof using. unfold node_type, dirEntryType. by intros ->. Qed.

(** The inode of a node. *)
Lemma holds_inode im W ref num n :
  holds_node im W ref num n ->
  exists i, uncached (readInode (im_fs im) ref) = Ok i /\ header_of i (dirEntryType (n_mode n)) n num.
Proof using.
  intros Hn. inversion Hn as [? ? ? i entries cs Hr Hh Ht|? ? ? i Hr Hh Ht|? ? ? i Hr Hh Ht]; subst;
    exists i; (split; [done|]).
  - by rewrite itype_dir. - by rewrite itype_link. - by rewrite itype_file.
Qed.

(** The reader's view of the kind is the node's. *)
Lemma header_kind i n num :
  header_of i (dirEntryType (n_mode n)) n num ->
  (node_type n = sIFDIR -> isDir i = true) /\ (is_link n = false -> isSymlink i = false) /\
  (is_link n = true -> isSymlink i = true) /\ (node_type n = sIFREG -> isRegular i = true).
Proof using.
  intros (Ht & _). unfold isDir, isSymlink, isRegular, is_link. rewrite Ht. splits.
  - intros E. by rewrite itype_dir.
  - intros E%Z.eqb_neq. unfold dirEntryType. fold (node_type n). destruct (Z.eqb_spec (node_type n) sIFDIR); [done|].
    by destruct (Z.eqb_spec (node_type n) sIFLNK).
  - intros E%Z.eqb_eq. by rewrite itype_link.
  - intros E. by rewrite itype_file.
Qed.

Lemma holds_file_inv im W ref num n :
  holds_node im W ref num n -> node_type n = sIFREG ->
  exists i, uncached (readInode (im_fs im) ref) = Ok i /\ header_of i inodeBasicFile n num /\ file_stored im n i /\
    agrees_file W (im_fs im) i.
Proof using.
  intros Hn Ht. inversion Hn as [? ? ? i entries cs Hr Hh Ht'|? ? ? i Hr Hh Ht'|? ? ? i Hr Hh Ht' Hs]; subst;
    rewrite Ht in Ht'; try done. by exists i.
Qed.

Lemma holds_link_inv im W ref num n :
  holds_node im W ref num n -> node_type n = sIFLNK ->
  exists i, uncached (readInode (im_fs im) ref) = Ok i /\ header_of i inodeBasicSymlink n num /\ link_stored n i.
Proof using.
  intros Hn Ht. inversion Hn as [? ? ? i entries cs Hr Hh Ht'|? ? ? i Hr Hh Ht' Hs|? ? ? i Hr Hh Ht']; subst;
    rewrite Ht in Ht'; try done. by exists i.
Qed.

Lemma holds_dir_inv im W ref num n :
  holds_node im W ref num n -> node_type n = sIFDIR ->
  exists i entries cs, uncached (readInode (im_fs im) ref) = Ok i /\ header_of i inodeBasicDir n num /\
    uncached (readDir (im_fs im) i) = Ok entries /\
    cs ≡ₚ n_children n /\ Sorted name_le cs /\
    de_Name <$> entries = n_name <$> cs /\
    de_Type <$> entries = (fun c => dirEntryType (n_mode c)) <$> cs /\
    (forall k e c, entries !! k = Some e -> cs !! k = Some c ->
       holds_node im W (de_InodeRef e) (de_Number e) c).
Proof using.
  intros Hn Ht. inversion Hn as [? ? ? i entries cs Hr Hh Ht'|? ? ? i Hr Hh Ht'|? ? ? i Hr Hh Ht']; subst;
    rewrite Ht in Ht'; try done. exists i, entries, cs. by splits.
Qed.

Lemma node_ok_children n c : node_ok n -> child_at n (n_name c) c -> node_ok c.
Proof using.
  intros Hn (Ht & Hc & _). inversion Hn as [? ? Ht' ? ? ? Hcs|? ? Ht'|? ? Ht']; subst;
    [by apply Hcs|by rewrite Ht in Ht'|by rewrite Ht in Ht'].
Qed.

Lemma node_ok_names n : node_ok n -> node_type n = sIFDIR -> NoDup (n_name <$> n_children n).
Proof using.
  intros Hn Ht. inversion Hn as [? ? Ht' ? Hnd|? ? Ht'|? ? Ht']; subst;
    [done|by rewrite Ht in Ht'|by rewrite Ht in Ht'].
Qed.

(** Looking a child up in the listing finds its inode. *)
Lemma holds_child im W ref num n name c i :
  node_ok n -> holds_node im W ref num n -> uncached (readInode (im_fs im) ref) = Ok i -> child_at n name c ->
  isDir i = true /\ exists entries j ref' num',
    uncached (readDir (im_fs im) i) = Ok entries /\ child_named (im_fs im) entries name j /\
    holds_node im W ref' num' c /\ uncached (readInode (im_fs im) ref') = Ok j.
Proof using.
  intros Hok Hn Hi (Ht & Hc & Hname). pose proof (node_ok_names _ Hok Ht) as Hnd.
  destruct (holds_dir_inv _ _ _ _ _ Hn Ht) as (i' & entries & cs & Hi' & Hh & Hrd & Hperm & _ & Hnames & _ & Hch).
  rewrite Hi in Hi'. injection Hi' as <-. split.
  { unfold isDir. destruct Hh as (-> & _). done. }
  rewrite <- Hperm in Hnd, Hc. apply list_elem_of_lookup in Hc as [k Hk].
  assert ((n_name <$> cs) !! k = Some name) as Hkn by (by rewrite list_lookup_fmap, Hk, <- Hname).
  rewrite <- Hnames in Hkn. rewrite list_lookup_fmap in Hkn.
  destruct (entries !! k) as [e|] eqn:Hek; [|done]. injection Hkn as Hen.
  pose proof (Hch k e c Hek Hk) as Hcn. destruct (holds_inode _ _ _ _ _ Hcn) as (j & Hj & _).
  exists entries, j, (de_InodeRef e), (de_Number e). splits; [done| |done|done].
  exists (take k entries), e, (drop (S k) entries). splits; [by rewrite take_drop_middle|done| |done].
  apply Forall_lookup. intros k' e' [Hk' Hlt]%lookup_take_Some Heq.
  assert ((n_name <$> cs) !! k' = Some name) as Hk'n.
  { rewrite <- Hnames, list_lookup_fmap, Hk'. cbn. by rewrite Heq. }
  assert ((n_name <$> cs) !! k = Some name) as Hkn by (by rewrite list_lookup_fmap, Hk, <- Hname).
  pose proof (NoDup_lookup _ _ _ _ Hnd Hk'n Hkn). lia.
Qed.

(** And back: an inode found in the listing is a child's. *)
Lemma holds_child_inv im W ref num n name i entries j :
  node_ok n -> holds_node im W ref num n -> uncached (readInode (im_fs im) ref) = Ok i ->
  isDir i = true -> uncached (readDir (im_fs im) i) = Ok entries -> child_named (im_fs im) entries name j ->
  exists c ref' num', child_at n name c /\ node_ok c /\ holds_node im W ref' num' c /\
    uncached (readInode (im_fs im) ref') = Ok j.
Proof using.
  intros Hok Hn Hi Hd Hrd (pre & e & post & -> & Hname & _ & Hj).
  destruct (holds_inode _ _ _ _ _ Hn) as (i' & Hi' & Hh). rewrite Hi in Hi'. apply Ok_inj in Hi' as <-.
  assert (node_type n = sIFDIR) as Ht.
  { destruct Hh as (Hty & _). revert Hd. unfold isDir. rewrite Hty. unfold dirEntryType. fold (node_type n).
    destruct (Z.eqb_spec (node_type n) sIFDIR); [done|]. by destruct (Z.eqb_spec (node_type n) sIFLNK). }
  destruct (holds_dir_inv _ _ _ _ _ Hn Ht) as (i' & entries' & cs & Hi' & _ & Hrd' & Hperm & _ & Hnames & _ & Hch).
  rewrite Hi in Hi'. apply Ok_inj in Hi' as <-. rewrite Hrd in Hrd'. apply Ok_inj in Hrd' as <-.
  assert ((pre ++ e :: post) !! length pre = Some e) as He by (by apply list_lookup_middle).
  destruct (cs !! length pre) as [c|] eqn:Hc.
  2:{ apply lookup_ge_None in Hc. apply (f_equal length) in Hnames.
      rewrite !length_fmap, length_app in Hnames. cbn in Hnames. lia. }
  assert (child_at n name c) as Hat.
  { split; [done|]. split; [rewrite <- Hperm; by eapply list_elem_of_lookup_2|].
    apply (f_equal (lookup (length pre))) in Hnames. rewrite !list_lookup_fmap, He, Hc in Hnames.
    injection Hnames as <-. done. }
  exists c, (de_InodeRef e), (de_Number e). splits; [done| |by apply (Hch _ _ _ He Hc)|done].
  pose proof Hat as (_ & _ & <-). by eapply node_ok_children.
Qed.

(** ** Resolution *)

Section resolve.
Context (im : image) (W : Z -> Z -> Prop) (root : node) (rnum : Z) (iroot : inode).
Context (Hroot : holds_node im W (sb_RootInode (fs_sb (im_fs im))) rnum root) (Hok : node_ok root).
Context (Hiroot : uncached (readInode (im_fs im) (sb_RootInode (fs_sb (im_fs im)))) = Ok iroot).

Lemma tree_resolves_sound k cur parts ff res :
  tree_resolves root k cur parts ff res ->
  forall ref num i, node_ok cur -> holds_node im W ref num cur -> uncached (readInode (im_fs im) ref) = Ok i ->
  node_ok res /\ exists ref' num' j, Resolves (im_fs im) k i parts ff j /\
    holds_node im W ref' num' res /\ uncached (readInode (im_fs im) ref') = Ok j.
Proof using Hroot Hok Hiroot.
  induction 1 as [k cur ff|k cur name rest ff c res Hc Hl _ IH|k cur name rest ff c dest res Hc Hl Hlast _ IH1 _ IH2];
    intros ref num i Hokc Hn Hi.
  - split; [done|]. exists ref, num, i. splits; [constructor|done|done].
  - pose proof Hc as (_ & _ & <-). pose proof (node_ok_children _ _ Hokc Hc) as Hokc'.
    destruct (holds_child _ _ _ _ _ _ _ _ Hokc Hn Hi Hc) as (Hd & entries & j & ref' & num' & Hrd & Hnm & Hcn & Hj).
    destruct (IH ref' num' j Hokc' Hcn Hj) as (Hokr & ref2 & num2 & j2 & Hres & Hn2 & Hj2).
    split; [done|]. exists ref2, num2, j2. splits; [|done|done]. eapply R_plain; try done.
    destruct Hl as [Hl|Hl]; [left|by right].
    destruct (holds_inode _ _ _ _ _ Hcn) as (j' & Hj' & Hh). rewrite Hj in Hj'. injection Hj' as <-.
    by apply (header_kind _ _ _ Hh).
  - pose proof Hc as (_ & _ & <-). pose proof (node_ok_children _ _ Hokc Hc) as Hokc'.
    destruct (holds_child _ _ _ _ _ _ _ _ Hokc Hn Hi Hc) as (Hd & entries & j & ref' & num' & Hrd & Hnm & Hcn & Hj).
    assert (node_type c = sIFLNK) as Ht by (by apply Z.eqb_eq).
    destruct (holds_link_inv _ _ _ _ _ Hcn Ht) as (j' & Hj' & Hh & Htarget & _).
    rewrite Hj in Hj'. injection Hj' as <-.
    set (base := if hasPrefixSlash (n_target c) then root else cur) in *.
    assert (exists refb numb ib, node_ok base /\ holds_node im W refb numb base /\
      uncached (readInode (im_fs im) refb) = Ok ib /\ link_base (im_fs im) i (in_symlinkTarget j) ib)
      as (refb & numb & ib & Hokb & Hnb & Hib & Hlb).
    { unfold base, link_base. rewrite Htarget. destruct (hasPrefixSlash (n_target c)); [by eexists _, _, _|].
      by exists ref, num, i. }
    destruct (IH1 refb numb ib Hokb Hnb Hib) as (Hokd & refd & numd & id & Hresd & Hnd & Hid).
    destruct (IH2 refd numd id Hokd Hnd Hid) as (Hokr & ref2 & num2 & j2 & Hres & Hn2 & Hj2).
    split; [done|]. exists ref2, num2, j2. splits; [|done|done].
    eapply R_link; try done.
    + destruct Hh as (E & _). unfold isSymlink. by rewrite E.
    + by rewrite Htarget.
Qed.

Lemma tree_resolves_complete k i parts ff j :
  Resolves (im_fs im) k i parts ff j ->
  forall ref num cur, node_ok cur -> holds_node im W ref num cur -> uncached (readInode (im_fs im) ref) = Ok i ->
  exists res ref' num', tree_resolves root k cur parts ff res /\ node_ok res /\
    holds_node im W ref' num' res /\ uncached (readInode (im_fs im) ref') = Ok j.
Proof using Hroot Hok Hiroot.
  induction 1 as [k i ff|k i name rest ff entries j res Hd Hrd Hnm Hl _ IH
    |k i name rest ff entries l base dest res Hd Hrd Hnm Hl Hlast Hb _ IH1 _ IH2];
    intros ref num cur Hokc Hn Hi.
  - exists cur, ref, num. by splits; [constructor|..].
  - destruct (holds_child_inv _ _ _ _ _ _ _ _ _ Hokc Hn Hi Hd Hrd Hnm) as (c & ref' & num' & Hat & Hokc' & Hcn & Hj).
    destruct (IH _ _ _ Hokc' Hcn Hj) as (r & ref2 & num2 & Hr & Hrest). exists r, ref2, num2.
    split; [|done]. eapply T_plain; [done| |done]. destruct Hl as [Hl|?]; [left|by right].
    destruct (holds_inode _ _ _ _ _ Hcn) as (j' & Hj' & Hh). rewrite Hj in Hj'. apply Ok_inj in Hj' as <-.
    destruct (is_link c) eqn:Hlc; [|done]. destruct (header_kind _ _ _ Hh) as (_ & _ & Hs & _). by rewrite Hs in Hl.
  - destruct (holds_child_inv _ _ _ _ _ _ _ _ _ Hokc Hn Hi Hd Hrd Hnm) as (c & ref' & num' & Hat & Hokc' & Hcn & Hj).
    destruct (holds_inode _ _ _ _ _ Hcn) as (j' & Hj' & Hh). rewrite Hj in Hj'. apply Ok_inj in Hj' as <-.
    assert (is_link c = true) as Hlc.
    { destruct (is_link c) eqn:Hlc; [done|]. destruct (header_kind _ _ _ Hh) as (_ & Hs & _). by rewrite Hs in Hl. }
    assert (node_type c = sIFLNK) as Ht by (by apply Z.eqb_eq).
    destruct (holds_link_inv _ _ _ _ _ Hcn Ht) as (j' & Hj' & _ & Htarget & _).
    rewrite Hj in Hj'. apply Ok_inj in Hj' as <-. rewrite Htarget in *.
    assert (exists refb numb, let b := if hasPrefixSlash (n_target c) then root else cur in
      node_ok b /\ holds_node im W refb numb b /\ uncached (readInode (im_fs im) refb) = Ok base)
      as (refb & numb & Hokb & Hnb & Hib).
    { revert Hb. unfold link_base. destruct (hasPrefixSlash (n_target c)); [by intros ?; eexists _, _|].
      intros ->. by exists ref, num. }
    destruct (IH1 _ _ _ Hokb Hnb Hib) as (d & refd & numd & Hrd' & Hokd & Hnd & Hid).
    destruct (IH2 _ _ _ Hokd Hnd Hid) as (r & ref2 & num2 & Hr & Hrest).
    exists r, ref2, num2. split; [|done]. by eapply T_link.
Qed.

(** Resolving a path in the image leads where it leads in the tree, and
    nowhere else. *)
Lemma built_resolve path ff res :
  tree_resolves root 40 root (splitPath path) ff res ->
  node_ok res /\ exists ref num i, uncached (resolve (im_fs im) path ff) = Ok i /\
    holds_node im W ref num res /\ uncached (readInode (im_fs im) ref) = Ok i.
Proof using Hroot Hok Hiroot.
  intros Hr. destruct (tree_resolves_sound _ _ _ _ _ Hr _ _ _ Hok Hroot Hiroot)
    as (Hokr & ref & num & i & Hres & Hn & Hi).
  split; [done|]. exists ref, num, i. splits; [|done|done]. apply resolve_iff. by exists iroot.
Qed.

Lemma built_resolve_inv path ff i :
  uncached (resolve (im_fs im) path ff) = Ok i ->
  exists res ref num, tree_resolves root 40 root (splitPath path) ff res /\ node_ok res /\
    holds_node im W ref num res /\ uncached (readInode (im_fs im) ref) = Ok i.
Proof using Hroot Hok Hiroot.
  intros (iroot' & Hir & Hr)%resolve_iff. rewrite Hiroot in Hir. apply Ok_inj in Hir as <-.
  by eapply tree_resolves_complete.
Qed.

End resolve.

(** The image of a tree, with everything the proofs about it start from. *)
Lemma built_image root opts img :
  node_ok root -> buildImage root opts = Ok img -> zlen img < 2 ^ 32 ->
  exists im W, Open (bytes_Reader img) (zlen img) = Ok (im_fs im) /\ image_ok im /\ functional W /\
    (forall path ff res, tree_resolves root 40 root (splitPath path) ff res ->
      node_ok res /\ exists ref num i, uncached (resolve (im_fs im) path ff) = Ok i /\
        holds_node im W ref num res /\ uncached (readInode (im_fs im) ref) = Ok i) /\
    (forall path ff i, uncached (resolve (im_fs im) path ff) = Ok i ->
      exists res ref num, tree_resolves root 40 root (splitPath path) ff res /\ node_ok res /\
        holds_node im W ref num res /\ uncached (readInode (im_fs im) ref) = Ok i).
Proof using enclaws safeio.
  intros Hok Hb Hs. destruct (buildImage_holds _ _ _ Hok Hb Hs) as (im & W & num & Hopen & Him & HW & Hn).
  destruct (holds_inode _ _ _ _ _ Hn) as (iroot & Hir & _).
  exists im, W. splits; [done|done|done| |].
  - intros path ff res. by eapply built_resolve.
  - intros path ff i. by eapply built_resolve_inv.
Qed.

(** Every request on a built image names blocks the log knows. *)
Lemma built_names_ok (im : image) W root :
  (forall path ff i, uncached (resolve (im_fs im) path ff) = Ok i ->
    exists res ref num, tree_resolves root 40 root (splitPath path) ff res /\ node_ok res /\
      holds_node im W ref num res /\ uncached (readInode (im_fs im) ref) = Ok i) ->
  forall q, names_ok W (im_fs im) q.
Proof using.
  intros Hres. assert (forall p i, uncached (resolve (im_fs im) p true) = Ok i -> isRegular i = true ->
    agrees_file W (im_fs im) i) as Hf.
  { intros p i Hi Hreg. destruct (Hres _ _ _ Hi) as (n & ref & num & _ & _ & Hn & Hri).
    inversion Hn as [? ? ? i' ? ? Hi' (Ht & _)|? ? ? i' Hi' (Ht & _)|? ? ? i' Hi' _ _ _ Hag]; subst;
      rewrite Hri in Hi'; apply Ok_inj in Hi' as <-; [| |exact Hag];
      revert Hreg; unfold isRegular; by rewrite Ht. }
  intros []; cbn [names_ok]; try done; intros i; apply Hf.
Qed.

(** ** Building returns *)

Lemma emitChildren_total cs iw :
  Forall (fun c => forall iw, iw_ok iw -> exists iw' c', emitNode iw c = Ok (iw', c') /\ iw_ok iw') cs ->
  iw_ok iw -> exists iw' cs', emitChildren emitNode iw cs = Ok (iw', cs') /\ iw_ok iw'.
Proof using.
  intros Hcs. revert iw. induction Hcs as [|c cs Hc _ IH]; intros iw Hok; [by exists iw, []|].
  rewrite emitChildren_cons. destruct (Hc iw Hok) as (iw1 & c' & -> & Hok1). rstep.
  destruct (IH iw1 Hok1) as (iw2 & cs' & -> & Hok2). rstep. by eexists _, _.
Qed.

Lemma emitDirInode_total iw n : exists iw' n', emitDirInode iw n = Ok (iw', n').
Proof using enclaws.
  rewrite emitDirInode_put. cbv zeta. unfold buildDirListing.
  match goal with |- context [buildDirListing_loop ?f ?l] =>
    destruct (listing_total f l (Nat.le_refl _)) as [listing ->] end.
  rstep. unfold iw_writeDirs.
  match goal with |- context [metaWriter_write ?a ?b ?c] => destruct (write_total a b c) as [m ->] end.
  rstep. match goal with |- context [putInode ?a ?b] => destruct (putInode_total a b) as (? & [? ?] & ->) end.
  rstep. by eexists _, _.
Qed.

Lemma emitNode_total n iw :
  node_ok n -> iw_ok iw -> exists iw' n', emitNode iw n = Ok (iw', n') /\ iw_ok iw'.
Proof using enclaws safeio.
  revert iw. induction n as [n IH] using node_ind_nested. intros iw Hn Hok.
  assert (exists iw' n', emitNode iw n = Ok (iw', n')) as (iw' & n' & E).
  { rewrite emitNode_unfold. destruct (node_type n =? sIFDIR) eqn:Ht.
    - apply Z.eqb_eq in Ht. destruct (emitChildren_total (n_children n) iw) as (iw1 & cs' & -> & Hok1); [|done|].
      + rewrite Forall_forall in IH |- *. intros c Hc iw0. apply IH; [done|].
        by eapply node_ok_children.
      + rstep. apply emitDirInode_total.
    - destruct (node_type n =? sIFLNK).
      + rewrite emitSymlinkInode_put.
        match goal with |- context [putInode ?a ?b] => destruct (putInode_total a b) as (? & [? ?] & ->) end.
        rstep. by eexists _, _.
      + by apply emitFileInode_total. }
  exists iw', n'. split; [done|].
  destruct (emitNode_spec nowhere nowhere_ok n Hn _ _ _ Hok E) as (Hev & _). by apply Hev.
Qed.

Lemma finishImage_total iw rootRef : exists img, finishImage iw rootRef = Ok img.
Proof using enclaws.
  unfold finishImage. destruct (flushFragment_total iw) as [iw4 ->]. rstep. cbv zeta.
  destruct (finish_total iw4 (iw_inodes iw4)) as [mi ->]. rstep.
  match goal with |- context [metaWriter_finish ?a ?b] => destruct (finish_total a b) as [md ->] end. rstep.
  match goal with |- context [if ?b then writeFragmentTable ?i else ?d] =>
    assert (exists x, (if b then writeFragmentTable i else d) = Ok x) as [[iw8 ft] ->] end.
  { destruct (_ <? _); [|by eexists]. unfold writeFragmentTable.
    match goal with |- context [writeFragmentBlocks ?f ?i ?e] =>
      destruct (writeFragmentBlocks_total f i e (Nat.le_refl _)) as (? & ? & ->) end. by eexists. }
  rstep. unfold writeMetaBlock.
  match goal with |- context [metaBlock ?i ?p] => destruct (metaBlock_total i p) as [b ->] end.
  rstep. by eexists.
Qed.

Lemma optCompressor_err opts e : optCompressor opts = Err e -> e = ErrUnsupportedCompression.
Proof using.
  unfold optCompressor. destruct (opt_Uncompressed opts); [done|].
  unfold newCompressor. repeat destruct (_ || _) || destruct (_ =? _); rstep; congruence.
Qed.

(** Building fails on an unknown compressor id, and on nothing else. *)
Lemma buildImage_total root opts :
  node_ok root ->
  match optCompressor opts with
  | Ok _ => exists img, buildImage root opts = Ok img
  | Err e => e = ErrUnsupportedCompression /\ buildImage root opts = Err e
  end.
Proof using enclaws safeio.
  intros Hok. rewrite buildImage_start. destruct (optCompressor opts) as [comp|e] eqn:E; rstep.
  - destruct (emitNode_total root (startState opts comp) Hok (startState_ok opts comp)) as (iw & root' & -> & _).
    rstep. apply finishImage_total.
  - split; [|done]. by eapply optCompressor_err.
Qed.

(** No listing of the root is too long to be built. *)
Lemma buildImage_root_total root opts :
  node_type root = sIFDIR -> Forall node_ok (n_children root) ->
  match optCompressor opts with
  | Ok _ => exists img, buildImage root opts = Ok img
  | Err e => e = ErrUnsupportedCompression /\ buildImage root opts = Err e
  end.
Proof using enclaws safeio.
  intros Ht Hcs. rewrite buildImage_start. destruct (optCompressor opts) as [comp|e] eqn:E; rstep.
  2:{ split; [|done]. by eapply optCompressor_err. }
  rewrite emitNode_unfold, Ht. change (sIFDIR =? sIFDIR) with true. cbv iota.
  destruct (emitChildren_total (n_children root) (startState opts comp)) as (iw1 & cs' & -> & _); rstep.
  - eapply Forall_impl; [exact Hcs|]. intros c Hc iw. by apply emitNode_total.
  - apply startState_ok.
  - destruct (emitDirInode_total iw1 (setChildren root cs')) as (iw & root' & ->). rstep. apply finishImage_total.
Qed.

End roundtrip.
