(* ===== verification/HostTree.v ===== *)
(** * Paths in a host tree, and in the tree it becomes

    [host_at t parts u]: following the names [parts] down from [t] leads to
    [u].  Nothing is followed through a link.  The same names lead to the
    node of [u] in the node tree, and nowhere when [u] is left out of it. *)

From S2P Require Export Scan RoundTrip.

#[local] Open Scope Z_scope.

Inductive host_at : host_tree -> list (list byte) -> host_tree -> Prop :=
| at_here t : host_at t [] t
| at_entry perm es name rest t u :
    (name, t) ∈ es -> host_at t rest u -> host_at (HDir perm es) (name :: rest) u.

(** What every tree the host shows is: names legal and distinct in each
    directory, permissions within nine bits. *)
Inductive host_wf : host_tree -> Prop :=
| wf_dir perm es :
    0 <= perm < 2 ^ 9 -> NoDup es.*1 -> Forall hostname es.*1 ->
    (forall name t, (name, t) ∈ es -> host_wf t) -> host_wf (HDir perm es)
| wf_link target : host_wf (HLink target)
| wf_file perm data : 0 <= perm < 2 ^ 9 -> host_wf (HFile perm data)
| wf_other : host_wf HOther.

Section shown.
Context `{HostOS} {laws : HostLaws}.

Lemma shows_wf h path t : shows h path t -> host_wf t.
Proof using laws.
  induction 1 as [? fi es _ _ [Hnd Hn]%os_ReadDir_names _ IH| | |];
    constructor; try done; by apply FileMode_Perm_range.
Qed.

Lemma shows_root_wf h dir t : shows_root h dir t -> host_wf t.
Proof using laws.
  intros (fi & es & -> & _ & [Hnd Hn]%os_ReadDir_names & Hc).
  constructor; [apply FileMode_Perm_range|done|done|]. intros k u Hu. by eapply shows_wf, Hc.
Qed.

End shown.

(** ** The nodes of a tree *)

(** A type with nine permission bits. *)
Lemma lor_type typ perm :
  0 <= perm < 2 ^ 9 -> Z.land typ 0xF000 = typ -> Z.land (Z.lor typ perm) 0xF000 = typ.
Proof.
  intros Hp Ht. rewrite Z.land_lor_distr_l, Ht.
  assert (Z.land perm 0xF000 = 0) as ->; [|apply Z.lor_0_r].
  rewrite <- (Z.mod_small perm (2 ^ 9)), <- Z.land_ones, <- Z.land_assoc by lia. apply Z.land_0_r.
Qed.

Definition host_type (t : host_tree) : Z :=
  match t with HDir _ _ => sIFDIR | HLink _ => sIFLNK | HFile _ _ => sIFREG | HOther => 0 end.

Lemma node_of_type name t n : host_wf t -> node_of name t = Some n -> node_type n = host_type t /\ n_name n = name.
Proof.
  intros Hwf Hn. inversion Hwf; subst; cbn in Hn; try done; injection Hn as <-; split; try done;
    cbn; by apply lor_type.
Qed.

Lemma node_of_child name perm es n k t c :
  node_of name (HDir perm es) = Some n -> (k, t) ∈ es -> node_of k t = Some c -> c ∈ n_children n.
Proof.
  cbn. intros [= <-] Ht Hc. cbn. apply list_elem_of_omap. by exists (k, t).
Qed.

Lemma node_of_child_inv name perm es n c :
  node_of name (HDir perm es) = Some n -> c ∈ n_children n ->
  exists k t, (k, t) ∈ es /\ node_of k t = Some c.
Proof.
  cbn. intros [= <-] Hc. cbn in Hc. apply list_elem_of_omap in Hc as ([k t] & Ht & Hn). by exists k, t.
Qed.

(** Names are distinct, so an entry is determined by its name. *)
Lemma entry_unique (es : list (list byte * host_tree)) k t u :
  NoDup es.*1 -> (k, t) ∈ es -> (k, u) ∈ es -> t = u.
Proof.
  intros Hnd [i Hi]%list_elem_of_lookup [j Hj]%list_elem_of_lookup.
  assert (i = j) as ->; [|congruence].
  eapply (NoDup_lookup _ i j k Hnd); rewrite list_lookup_fmap; [by rewrite Hi|by rewrite Hj].
Qed.

Lemma host_at_components t parts u : host_wf t -> host_at t parts u -> Forall component parts.
Proof.
  intros Hwf Hat. induction Hat as [|perm es name rest t u Ht Hat IH]; constructor.
  - inversion Hwf as [? ? _ _ Hn _| | |]; subst. rewrite Forall_forall in Hn.
    apply (Hn name), list_elem_of_fmap. by exists (name, t).
  - apply IH. inversion Hwf as [? ? _ _ _ Hc| | |]; subst. by eapply Hc.
Qed.

Lemma host_at_wf t parts u : host_wf t -> host_at t parts u -> host_wf u.
Proof.
  intros Hwf Hat. induction Hat as [|perm es name rest t u Ht Hat IH]; [done|].
  apply IH. inversion Hwf as [? ? _ _ _ Hc| | |]; subst. by eapply Hc.
Qed.

(** ** Following names in both trees *)

(** What is not left out is found, whatever may still follow a link. *)
Lemma host_at_resolves root k t parts u ff name n :
  host_wf t -> host_at t parts u -> u <> HOther -> host_type u <> sIFLNK \/ ff = false ->
  node_of name t = Some n ->
  exists m name', node_of name' u = Some m /\ tree_resolves root k n parts ff m.
Proof.
  intros Hwf Hat Hu Hff. revert name n. induction Hat as [t|perm es key rest t u Ht Hat IH]; intros name n Hn.
  { exists n, name. split; [done|constructor]. }
  pose proof Hwf as Hwf'. inversion Hwf as [? ? _ _ _ Hc| | |]; subst. specialize (Hc _ _ Ht).
  destruct (node_of key t) as [c|] eqn:Hkc.
  2:{ exfalso. destruct t; try done. by inversion Hat. }
  destruct (IH Hc Hu Hff _ _ Hkc) as (m & name' & Hm & Hr). exists m, name'. split; [done|].
  destruct (node_of_type _ _ _ Hwf' Hn) as [Htn _]. destruct (node_of_type _ _ _ Hc Hkc) as [Htc Hcn].
  apply (T_plain _ _ _ _ _ _ c); [|unfold is_link; rewrite Htc|done].
  { split; [done|]. split; [by eapply node_of_child|done]. }
  inversion Hat as [|]; subst; [|by left].
  destruct Hff as [Hl|Hff]; [left|by right]. by apply Z.eqb_neq.
Qed.

(** No path leads to what is left out. *)
Lemma host_at_other root k t parts ff name n m :
  host_wf t -> host_at t parts HOther -> node_of name t = Some n -> ~ tree_resolves root k n parts ff m.
Proof.
  intros Hwf Hat. revert name n. remember HOther as u eqn:Hu.
  induction Hat as [t|perm es key rest t u Ht Hat IH]; intros name n Hn; subst; [done|]. intros Hr.
  inversion Hwf as [? ? _ Hnd _ Hc| | |]; subst.
  assert (forall c, child_at n key c -> node_of key t = Some c) as Hchild.
  { intros c (_ & Hcn & <-). destruct (node_of_child_inv _ _ _ _ _ Hn Hcn) as (k' & t' & Ht' & Hk').
    destruct (node_of_type _ _ _ (Hc _ _ Ht') Hk') as [_ Hname]. rewrite Hname in *.
    by rewrite (entry_unique _ _ _ _ Hnd Ht Ht'). }
  inversion Hr as [|? ? ? ? ? c ? Hat' _ Hrest|? ? ? ? ? c ? ? Hat' Hl]; subst; apply Hchild in Hat'.
  - by eapply (IH (Hc _ _ Ht) eq_refl).
  - destruct (node_of_type _ _ _ (Hc _ _ Ht) Hat') as [Htype _]. unfold is_link in Hl. rewrite Htype in Hl.
    destruct t; try done. by inversion Hat.
Qed.
