(* ===== verification/Instances.v ===== *)
(** * Concrete libraries for the witnesses

    The codecs, safeio and the filesystem interface are parameters of the
    development.  Here each gets one concrete implementation that meets its
    laws, so that the theorems can be applied to images that compute: a
    run-length code for constant blocks serves as zlib, lz4 and lzo, a stored
    stream in an xz frame as xz, and the identity as zstd. *)

From S2P Require Export Writer.

#[local] Open Scope Z_scope.

(** A block of [n] copies of [b] is coded as [b] and [n] in 4 bytes. *)
Definition runMax : Z := 2 ^ 20.

Definition runEncode (src : list byte) : option (list byte) :=
  match src with
  | [] => None
  | b :: rest =>
      if forallb (fun x => bool_decide (x = b)) rest && (zlen src <=? runMax)
      then Some (b :: le_split 4 (zlen src)) else None
  end.

Definition runDecode (src : list byte) : option (list byte) :=
  match src with
  | [b; n0; n1; n2; n3] =>
      let n := le_combine [n0; n1; n2; n3] in
      if n <=? runMax then Some (replicate (Z.to_nat n) b) else None
  | _ => None
  end.

Lemma forallb_replicate (b : byte) rest :
  forallb (fun x => bool_decide (x = b)) rest = true -> b :: rest = replicate (S (length rest)) b.
Proof.
  induction rest as [|x rest IH]; [done|]. cbn. intros [Hx Hr]%andb_true_iff.
  apply bool_decide_eq_true in Hx as ->. f_equal. by apply IH.
Qed.

Lemma le_split_4 v : exists a b c d, le_split 4 v = [a; b; c; d].
Proof.
  pose proof (length_le_split 4 v) as Hl.
  destruct (le_split 4 v) as [|a [|b [|c [|d [|? ?]]]]]; try done. by eexists _, _, _, _.
Qed.

Lemma runDecode_runEncode src z :
  runEncode src = Some z -> zlen z = 5 /\ runDecode z = Some src.
Proof.
  destruct src as [|b rest]; [done|]. unfold runEncode.
  destruct (_ && _) eqn:E; [|done]. apply andb_true_iff in E as [Hr%forallb_replicate Hn%Z.leb_le].
  intros [= <-]. split. { unfold zlen. cbn [length]. by rewrite length_le_split. }
  pose proof (le_combine_split 4 (zlen (b :: rest))) as Hc.
  pose proof (zlen_nonneg (b :: rest)). unfold runMax in Hn.
  rewrite Z.mod_small in Hc by lia.
  destruct (le_split_4 (zlen (b :: rest))) as (n0 & n1 & n2 & n3 & E). rewrite E in *.
  unfold runDecode. rewrite Hc. unfold runMax. destruct (Z.leb_spec (zlen (b :: rest)) (2 ^ 20)); [|lia].
  f_equal. rewrite Hr. unfold zlen. by rewrite Nat2Z.id, length_replicate.
Qed.

(** A decoder into a destination of [m] bytes. *)
Definition runUncompress (src : list byte) (m : Z) : result (Z * list byte) :=
  match runDecode src with
  | Some out => if zlen out <=? m then Ok (zlen out, out ++ zeros (Z.to_nat (m - zlen out))) else Err ErrLib
  | None => Err ErrLib
  end.

Definition runCompress (src : list byte) (m : Z) : result (Z * list byte) :=
  match runEncode src with
  | Some z => if zlen z <=? m then Ok (zlen z, z ++ zeros (Z.to_nat (m - zlen z))) else Err ErrLib
  | None => Ok (0, zeros (Z.to_nat m))
  end.

(** An xz stream around the stored bytes: a 12-byte header, an index of one
    record, and the footer. *)
Definition xzHeader : list byte := zeros 12.
Definition xzTrailer : list byte :=
  xz_index 1 (zeros 6) ++ zeros 4 ++ le_PutUint32 1 ++ zeros 2 ++ [Byte.x59; Byte.x5a].
Definition xzPayload (src : list byte) : list byte := take (length src - 32) (drop 12 src).

#[local] Instance toyCodecs : CodecLib := {|
  zlib_NewReader src := match runDecode src with Some out => Ok (Stream out None) | None => Err ErrLib end;
  xz_NewReader cap src :=
    if zlen (xzPayload src) <=? cap then Ok (Stream (xzPayload src) None)
    else Ok (Stream (take (Z.to_nat cap) (xzPayload src)) (Some ErrXzTooLarge));
  lzma_NewReader cap src := if cap <? zlen src then Err ErrXzTooLarge else Ok (Stream src None);
  lzma_MinDictCap := 4096;
  lzo_Decompress := runUncompress;
  lz4_UncompressBlock := runUncompress;
  zstd_DecodeAll mem _ src := if zlen src <=? mem then Ok src else Err ErrIO
|}.

#[local] Instance toyEncoders : EncoderLib := {|
  zlib_Write src := Ok [];
  zlib_Close src := match runEncode src with Some z => Ok z | None => Err ErrLib end;
  zstd_EncodeAll src := src;
  xz_NewWriter := Ok xzHeader;
  xz_Write src := if zlen src <=? runMax then Ok src else Err ErrLib;
  xz_Close src := Ok xzTrailer;
  lz4_CompressBlockBound n := n + 16;
  lz4_CompressBlock src m := if m <? 0 then Err ErrLib else runCompress src m
|}.

Lemma runUncompress_sane src m : sane (runUncompress src m).
Proof. unfold runUncompress. destruct (runDecode src); [|done]. by destruct (_ <=? _). Qed.

Lemma runUncompress_fits src m n dst :
  runUncompress src m = Ok (n, dst) -> 0 <= n <= m /\ zlen dst = m.
Proof.
  unfold runUncompress. destruct (runDecode src) as [out|]; [|done].
  destruct (Z.leb_spec (zlen out) m); [|done]. intros [= <- <-].
  pose proof (zlen_nonneg out). rewrite zlen_app, zlen_zeros; lia.
Qed.

Lemma runCompress_inv src m n dst :
  0 <= m -> runCompress src m = Ok (n, dst) ->
  (0 <= n <= m /\ zlen dst = m) /\ (0 < n -> runEncode src = Some (take (Z.to_nat n) dst)).
Proof.
  intros Hm. unfold runCompress. destruct (runEncode src) as [z|].
  - destruct (Z.leb_spec (zlen z) m); [|done]. intros [= <- <-]. pose proof (zlen_nonneg z).
    rewrite zlen_app, zlen_zeros by lia. split; [lia|]. intros _. f_equal.
    unfold zlen. by rewrite Nat2Z.id, take_app_length.
  - intros [= <- <-]. rewrite zlen_zeros by lia. lia.
Qed.

#[local] Instance toyCodecLaws : CodecLaws.
Proof.
  constructor; cbn.
  - intros src. by destruct (runDecode src).
  - intros cap src. by destruct (_ <=? _).
  - intros cap src. by destruct (_ <? _).
  - intros src r e. destruct (runDecode src); [|done]. by intros [= <-].
  - intros cap src r e. destruct (_ <=? _); intros [= <-]; by intros [= <-].
  - intros cap src r e. destruct (_ <? _); [done|]. by intros [= <-].
  - apply runUncompress_sane.
  - apply runUncompress_sane.
  - intros mem win src. by destruct (_ <=? _).
  - intros mem win src out. destruct (Z.leb_spec (zlen src) mem); [|done]. by intros [= <-].
  - apply runUncompress_fits.
  - apply runUncompress_fits.
Qed.

Section xz_frame.
Context (src : list byte).

#[local] Notation s := (xzHeader ++ src ++ xzTrailer).

Lemma xz_frame_length : zlen s = zlen src + 32.
Proof using. rewrite !zlen_app. change (zlen xzHeader) with 12. change (zlen xzTrailer) with 20. lia. Qed.

Lemma xz_frame_stream : xz_stream 1 s.
Proof using.
  exists xzHeader, src, (zeros 6), (zeros 4), (zeros 2). split_and!; try done. by exists 2.
Qed.

Lemma xz_frame_payload : xzPayload s = src.
Proof using.
  pose proof xz_frame_length as Hl. unfold zlen in Hl. unfold xzPayload.
  replace (length s - 32)%nat with (length src) by lia.
  change 12%nat with (length xzHeader). by rewrite drop_app_length, take_app_length.
Qed.

End xz_frame.

#[local] Instance toyEncoderLaws : EncoderLaws.
Proof.
  constructor; cbn [zlib_Write zlib_Close zstd_EncodeAll xz_NewWriter xz_Write xz_Close
    lz4_CompressBlockBound lz4_CompressBlock toyEncoders zlib_NewReader xz_NewReader
    lz4_UncompressBlock zstd_DecodeAll toyCodecs].
  - done.
  - intros src. by destruct (runEncode src).
  - done.
  - intros src. by destruct (_ <=? _).
  - done.
  - intros src m. destruct (_ <? _); [done|]. unfold runCompress. destruct (runEncode src); [|done].
    by destruct (_ <=? _).
  - lia.
  - intros src m n dst. destruct (Z.ltb_spec m 0); [done|]. intros Hr%runCompress_inv; [|lia]. apply Hr.
  - intros src w z [= <-]. destruct (runEncode src) as [k|] eqn:E; [|done]. intros [= <-].
    apply runDecode_runEncode in E as [Hl E]. cbn [app]. rewrite E. split; [|done]. by intros ->.
  - intros src mem win Hne Hm _ _. split; [done|]. by destruct (Z.leb_spec (zlen src) mem); [|lia].
  - intros src h w z cap [= <-]. destruct (_ <=? runMax); [|done]. intros [= <-] [= <-] Hc.
    rewrite xz_frame_payload. by destruct (Z.leb_spec (zlen src) cap); [|lia].
  - intros src h w z cap [= <-]. destruct (_ <=? runMax); [|done]. intros [= <-] [= <-] Hc.
    rewrite xz_frame_payload. destruct (Z.leb_spec (zlen src) cap); [lia|]. by eexists.
  - intros src h w z [= <-]. destruct (Z.leb_spec (zlen src) runMax) as [Hs|]; [|done]. intros [= <-] [= <-].
    rewrite xz_frame_length. unfold runMax in Hs. split; [lia|]. exists 1. split; [lia|apply xz_frame_stream].
  - intros src m n dst cap. destruct (Z.ltb_spec m 0); [done|]. intros [_ Hr]%runCompress_inv Hn Hcap; [|lia].
    specialize (Hr Hn). apply runDecode_runEncode in Hr as [_ Hr].
    unfold runUncompress. rewrite Hr. destruct (Z.leb_spec (zlen src) cap); [|lia]. by eexists.
  - intros src m n dst cap. destruct (Z.ltb_spec m 0); [done|]. intros [_ Hr]%runCompress_inv Hn Hcap; [|lia].
    specialize (Hr Hn). apply runDecode_runEncode in Hr as [_ Hr].
    unfold runUncompress. rewrite Hr. destruct (Z.leb_spec (zlen src) cap); [lia|]. by eexists.
Qed.

(** safeio and the filesystem interface. *)
#[local] Instance toySafeIO : SafeIO := {|
  safeio_MakeBytes n max := if (0 <=? n) && (n <=? max) then Some (zeros (Z.to_nat n)) else None
|}.

#[local] Instance toySafeIOLaws : SafeIOLaws.
Proof.
  constructor; cbn; intros n max Hn.
  - destruct (Z.leb_spec 0 n), (Z.leb_spec n max); try lia. eexists. split; [done|]. apply zlen_zeros. lia.
  - destruct (Z.leb_spec 0 n), (Z.leb_spec n max); try done. lia.
Qed.

#[local] Instance toyInterface : FsInterface := {|
  DirEntry := Z * list byte * Z;
  Stat := Z * Z * Z;
  NewDirEntry num name typ := (num, name, typ);
  NewStat mode size num := (mode, size, num)
|}.
