(* ===== verification/Examples.v ===== *)
(** * Concrete inputs

    A small tree with a file, a directory and three links, the image the
    writer makes of it with the codecs of Instances.v, and the handle the
    reader opens on it: the inputs at which the theorems are instantiated. *)

From S2P Require Export Instances RoundTrip Concurrency.
From Stdlib Require Import String.

#[local] Open Scope Z_scope.

(** The toy instances are in scope only where a concrete input is built. *)
Module ToyInstances.
#[export] Existing Instances toyCodecs toyEncoders toySafeIO toyInterface.
#[export] Existing Instances toyCodecLaws toyEncoderLaws toySafeIOLaws.
End ToyInstances.
Import ToyInstances.

Definition B (s : string) : list byte := String.list_byte_of_string s.

Definition exFile (name : string) (data : list byte) : node := mkNode (B name) 0x81a4 0 0 [] data [] 0 0.
Definition exDir (name : string) (cs : list node) : node := mkNode (B name) 0x41ed 0 0 [] [] cs 0 0.
Definition exLink (name target : string) : node := mkNode (B name) 0xa1ff 0 0 (B target) [] [] 0 0.

Definition exData : list byte := replicate 20 Byte.x07.
Definition exTree : node :=
  exDir "" [exFile "f" exData; exDir "d" [exLink "up" "../f"; exLink "abs" "/f"; exLink "here" "."; exLink "self" "self"]].
Definition exOpts : BuildOptions := mkBuildOptions false CompressGZIP false.

Definition exImg : list byte :=
  Eval vm_compute in (match buildImage exTree exOpts with Ok img => img | Err _ => [] end).

(** The handle on an image that opens. *)
Definition handle (img : list byte) : FS :=
  match Open (bytes_Reader img) (zlen img) with
  | Ok fs => fs
  | Err _ => mkFS (bytes_Reader img) 0 (decodeSuperblock []) gzipDecompressor
  end.

Definition exFS : FS := handle exImg.

(** For images too long to write out: success is what is evaluated. *)
Definition succeeds {A} (r : result A) : bool := match r with Ok _ => true | Err _ => false end.
Definition image_of (r : result (list byte)) : list byte := match r with Ok img => img | Err _ => [] end.

Lemma image_of_built r : succeeds r = true -> r = Ok (image_of r).
Proof. by destruct r. Qed.

Lemma handle_open img :
  succeeds (Open (bytes_Reader img) (zlen img)) = true -> Open (bytes_Reader img) (zlen img) = Ok (handle img).
Proof. unfold handle. by destruct (Open _ _). Qed.

Lemma exImg_built : buildImage exTree exOpts = Ok exImg.
Proof. vm_compute. reflexivity. Qed.

Lemma exImg_small : zlen exImg < 2 ^ 32.
Proof. vm_compute. reflexivity. Qed.

Lemma exFS_open : Open (bytes_Reader exImg) (zlen exImg) = Ok exFS.
Proof. vm_compute. reflexivity. Qed.

Lemma exFS_wf : sb_wf (fs_sb exFS).
Proof. exact (Open_wf _ _ _ exFS_open). Qed.

(** A tree whose names are distinct and of legal length is representable. *)
Lemma exTree_ok : node_ok exTree.
Proof.
  assert (forall n d, zlen d < 2 ^ 32 -> node_ok (exFile n d)) as Hfile.
  { intros n d Hd. apply node_ok_file; [cbn; lia|done|done]. }
  assert (forall n t, zlen (B t) <= metaBlockMax -> node_ok (exLink n t)) as Hlink.
  { intros n t Ht. apply node_ok_link; [cbn; lia|done|done]. }
  assert (forall n cs, listingCost cs <= 65532 -> bool_decide (NoDup (n_name <$> cs)) = true ->
    Forall (fun c => 1 <= zlen (n_name c) <= 256 /\ node_ok c) cs -> node_ok (exDir n cs)) as Hdir.
  { intros n cs Hcost Hnd Hcs. rewrite Forall_forall in Hcs. apply bool_decide_eq_true in Hnd.
    apply node_ok_dir; [cbn; lia|done|done|done| |]; intros c Hc; by apply Hcs. }
  apply Hdir; [by vm_compute|by vm_compute|]. constructor; [split; [by vm_compute|by apply Hfile]|].
  constructor; [split; [by vm_compute|]|constructor]. apply Hdir; [by vm_compute|by vm_compute|].
  repeat (constructor; [split; [by vm_compute|by apply Hlink]|]). constructor.
Qed.

(** The inode a path leads to in the example. *)
Definition exInode (path : string) : inode :=
  match uncached (resolve exFS (B path) false) with Ok i => i | Err _ => inodeOfHeader [] end.

Definition nFile : node := exFile "f" exData.
Definition nDir : node :=
  exDir "d" [exLink "up" "../f"; exLink "abs" "/f"; exLink "here" "."; exLink "self" "self"].

(** "/d/here/abs" leads to the file, through two links. *)
Lemma exPath_file : tree_resolves exTree 40 exTree (splitPath (B "/d/here/abs")) true nFile.
Proof.
  change (splitPath (B "/d/here/abs")) with [B "d"; B "here"; B "abs"].
  apply (T_plain _ _ _ _ _ _ nDir); [|by left|].
  { split; [done|split; [|done]]. right. left. }
  apply (T_link _ 39 _ _ _ _ (exLink "here" ".") nDir); [|done|by left|constructor|].
  { split; [done|split; [|done]]. do 2 right. left. }
  apply (T_link _ 39 _ _ _ _ (exLink "abs" "/f") nFile); [|done|by right| |constructor].
  { split; [done|split; [|done]]. right. left. }
  apply (T_plain _ _ _ _ _ _ nFile); [|by left|constructor].
  split; [done|split; [|done]]. left.
Qed.

Lemma exPath_dir : tree_resolves exTree 40 exTree (splitPath (B "/d")) true nDir.
Proof.
  apply (T_plain _ _ _ (B "d") _ _ nDir); [|by left|constructor].
  split; [done|split; [|done]]. right. left.
Qed.

Lemma exPath_link : tree_resolves exTree 40 exTree (splitPath (B "/d/up")) false (exLink "up" "../f").
Proof.
  change (splitPath (B "/d/up")) with [B "d"; B "up"].
  apply (T_plain _ _ _ _ _ _ nDir); [|by left|].
  { split; [done|split; [|done]]. right. left. }
  apply (T_plain _ _ _ _ _ _ (exLink "up" "../f")); [|by right|constructor].
  split; [done|split; [|done]]. left.
Qed.
