(* ===== verification/ComponentTheorems.v ===== *)
(** * Theorems about the components

    What each part promises on its own: the cache implements two bounded
    queues, metadata and superblocks survive being written and read, every
    kind of inode and every attribute list is read as the format says, the
    decoders of inodes, directories, attributes and compressed data stay
    within their bounds; and an input at which the code falls short of what it
    means to do. *)

From S2P Require Export Examples XattrSpec InodeFormat.
From Stdlib Require Import String Ascii.

#[local] Open Scope Z_scope.

(** ** The cache *)

(** C21: the block cache implements two first-in-first-out queues, of at most
    16384 metadata and 64 data blocks: any sequence of gets and puts gets the
    same answers from a new cache as from two empty queues, and the states
    correspond at the end. *)
Theorem cache_refines_queues (ops : list cacheOp) :
  exists c, cache_run (Some newBlockCache) ops = (fst (queue_run ([], []) ops), Some c) /\
    implements c (snd (queue_run ([], []) ops)).
Proof. exact (cache_run_queue newBlockCache ([], []) ops implements_new). Qed.

(** Whatever is put into it, the cache never holds more than its caps,
    and its key lists are exactly the keys of its maps, without repetition. *)
Lemma cache_bounded (ops : list cacheOp) :
  match snd (cache_run (Some newBlockCache) ops) with
  | Some c =>
      Z.of_nat (size (bc_meta c)) <= defaultMetaCacheBlocks /\
      Z.of_nat (size (bc_data c)) <= defaultDataCacheBlocks /\
      NoDup (bc_metaKeys c) /\ dom (bc_meta c) = list_to_set (bc_metaKeys c) /\
      NoDup (bc_dataKeys c) /\ dom (bc_data c) = list_to_set (bc_dataKeys c)
  | None => False
  end.
Proof.
  destruct (cache_run_queue newBlockCache ([], []) ops implements_new) as (c & -> & [Hm Hd] & Hcm & Hcd & _).
  cbn [snd]. rewrite (half_wf_size _ _ _ Hm), (half_wf_size _ _ _ Hd).
  destruct Hm as (Hn & Hdm & Hl), Hd as (Hn' & Hdm' & Hl'). rewrite Hcm in Hl. rewrite Hcd in Hl'.
  unfold defaultMetaCacheBlocks, defaultDataCacheBlocks in *. splits; first [done|lia].
Qed.

(** ** Metadata *)

Section metadata.
Context `{CodecLib} `{EncoderLib}.

(** C22: what is written to a metadata table is read back.  Take the
    reference the writer hands out at any point, write any byte strings
    after it, finish the table and place it anywhere in an image: a cursor at
    the reference reads the same bytes, in pieces cut as one likes, wherever
    the 8 KiB blocks happen to end and whichever of them were compressed. *)
Theorem metadata_roundtrip (iw : imageWriter) (fs : FS) img start before m1 ps m2 m3 qs :
  EncoderLaws -> writeAll iw (mkMetaWriter [] []) before = Ok m1 ->
  writeAll iw m1 ps = Ok m2 -> metaWriter_finish iw m2 = Ok m3 ->
  fs_rs fs = bytes_Reader img -> codec_matches iw (fs_d fs) -> zlen img < 2 ^ 32 ->
  holds img start (mw_out m3) -> mjoin qs = mjoin ps -> mjoin ps <> [] ->
  let '(block, off) := inodeRef (metaWriter_ref m1) in
  uncached (c ← newMetaCursor fs (i64 (start + block)) off; readAll fs c (zlen <$> qs)) = Ok qs.
Proof using.
  intros enclaws Hb. apply writeAll_spec in Hb as [Hok _]; [|done]. by apply table_roundtrip.
Qed.

(** A decoded metadata block is no longer than 8 KiB, and ends before the
    next one starts; a read of [n] bytes across blocks returns [n] bytes. *)
Lemma metadata_bounds (fs : FS) at_ data next c n b c' :
  CodecLaws ->
  (uncached (readMetaBlock (fs_rs fs) (fs_d fs) at_) = Ok (data, next) -> zlen data <= metaBlockMax) /\
  (0 <= n -> uncached (readN fs c n) = Ok (b, c') -> zlen b = n).
Proof using.
  intros laws. split; [by apply readMetaBlock_length|].
  intros Hn Hr%readN_length. unfold zlen. lia.
Qed.

(** C33: what the package compresses its own decompressors accept: for every
    compressor and the decompressor its id selects, a nonempty block (of at
    most 1 MiB) comes back whole when it fits the output limit, and otherwise is
    refused, never cut short: with ErrCorrupt, or for lz4 with the library's
    error.  The libraries' laws say only that a library's decoder gives back
    what its encoder was given; that the limits, the size checks, the
    dictionary ceiling, the zstd caps and the shape check of xz streams let
    every such block through is what is shown. *)
Theorem codec_roundtrip (c : compressor) src z maxOut d :
  EncoderLaws -> src <> [] -> zlen src <= maxBlockSize -> 0 <= maxOut ->
  compressor_compress c src = Ok z -> newDecompressor (compressor_id c) = Ok d ->
  z <> [] /\
  (zlen src <= maxOut -> uncached (decompress d z maxOut) = Ok src) /\
  (maxOut < zlen src -> exists e, uncached (decompress d z maxOut) = Err e /\ sane (Err (A := unit) e) /\
     (c <> lz4Compressor -> e = ErrCorrupt)).
Proof using.
  intros enclaws Hs Hb Hm Hz. rewrite newDecompressor_id. intros <-%Ok_inj.
  apply (compress_decoded _ _ _ maxOut) in Hz as [Hne Hd]; [|done..]. unfold decoded_within in Hd.
  split; [done|].
  destruct (Z.leb_spec (zlen src) maxOut); split; intros Hl; [exact Hd|lia..|exact Hd].
Qed.

(** C32: no decompressor returns more than its limit, panics, or loops,
    whatever bytes it is given; and the shared zstd decoder, whose output is
    checked only when it is whole, makes no more than the largest block. *)
Theorem decompress_bounded (d : decompressor) src maxOut :
  CodecLaws -> 0 <= maxOut -> zlen src < 2 ^ 63 ->
  sane (uncached (decompress d src maxOut)) /\
  (forall out, uncached (decompress d src maxOut) = Ok out -> zlen out <= maxOut) /\
  (forall out, zstdDecoder src = Ok out -> zlen out <= maxBlockSize).
Proof using.
  intros laws Hm Hs. splits; [by apply decompress_sane|intros out; by apply decompress_length|].
  intros out. apply zstd_memory.
Qed.

End metadata.

(** ** The superblock *)

(** C23: the superblock the writer encodes is read back field by field, and
    accepted, from any image that starts with it. *)
Theorem superblock_roundtrip (iw : imageWriter) img rootRef inodeCount inodeStart dirStart idStart fragStart
    fragCount bytesUsed :
  iw_blockSize iw = defaultBlockSize -> 0 <= inodeCount < 2 ^ 32 -> 0 <= fragCount < 2 ^ 32 ->
  Forall (fun v => 0 <= v < 2 ^ 64) [rootRef; inodeStart; dirStart; idStart; fragStart; bytesUsed] ->
  holds img 0 (superblock iw rootRef inodeCount inodeStart dirStart idStart fragStart fragCount bytesUsed) ->
  readSuperblock (bytes_Reader img) =
  Ok (mkSuperblock Magic inodeCount 0 defaultBlockSize fragCount (writtenID iw) 17 (writtenFlags iw fragCount) 1 4 0
        rootRef bytesUsed idStart (2 ^ 64 - 1) inodeStart dirStart fragStart (2 ^ 64 - 1)).
Proof.
  intros Hbs Hic Hfc Hr Hh. repeat (apply Forall_cons in Hr as [? Hr]).
  pose proof (zlen_superblock iw rootRef inodeCount inodeStart dirStart idStart fragStart fragCount bytesUsed) as E.
  assert (List.length (superblock iw rootRef inodeCount inodeStart dirStart idStart fragStart fragCount bytesUsed)
    = superblockSize) as Hlen by (unfold zlen in E; lia).
  apply holds_ReadAt in Hh; [|intros E'; by rewrite E' in Hlen]. rewrite Hlen in Hh.
  unfold readSuperblock. rewrite Hh. rstep. by rewrite superblock_decode.
Qed.

(** C36: a superblock is accepted exactly when it can be read and says
    SquashFS 4.0 with a block size that is the power of two block_log names,
    at most 1 MiB; what is returned is what the 96 bytes decode to. *)
Theorem readSuperblock_spec (rs : ReaderAt) (sb : Superblock) :
  readSuperblock rs = Ok sb <->
  exists buf, ReadAt rs 0 superblockSize = Ok buf /\ sb = decodeSuperblock buf /\ sb_wf sb.
Proof.
  split.
  - intros Hr. pose proof Hr as [_ Hwf]%readSuperblock_inv. revert Hr. unfold readSuperblock.
    destruct (ReadAt rs 0 superblockSize) as [buf|]; rstep; [|done]. intros Hr. exists buf. splits; [done| |done].
    revert Hr. by repeat match goal with |- (if ?b then _ else _) = _ -> _ => destruct b; [done|] end; intros [= <-].
  - intros (buf & Hb & -> & Hmag & Hmaj & Hmin & Hlog & Hbs & Hr). unfold readSuperblock. rewrite Hb. rstep.
    rewrite Hmag, Hmaj, Hmin. change (negb (Magic =? Magic)) with false.
    change (negb (4 =? 4) || negb (0 =? 0)) with false. cbv iota.
    rewrite Z.shiftl_mul_pow2, Z.mul_1_l, <- Hbs, Z.eqb_refl by lia.
    unfold maxBlockLog, maxBlockSize.
    destruct (Z.ltb_spec 20 (sb_BlockLog (decodeSuperblock buf))); [lia|].
    destruct (Z.ltb_spec (2 ^ 20) (sb_BlockSize (decodeSuperblock buf))); [lia|].
    by destruct (Z.eqb_spec (sb_BlockSize (decodeSuperblock buf)) 0); [lia|].
Qed.

(** ** Inodes, directories, attributes *)

Section decoders.
Context `{CodecLib} (fs : FS).

(** C30: an inode that decodes is of one of the fourteen types, with every
    field within its width.  A directory's size is what the size field of its
    type can say; a link's size is the length of its target, at most 8 KiB; a
    file lists at most 2^24 blocks: those its size fills, when it has a tail
    fragment, and otherwise those that cover its size, unless the size is
    within a block of 2^64, where rounding it up wraps and the list is empty. *)
Theorem readInode_spec ref i :
  sb_wf (fs_sb fs) -> uncached (readInode fs ref) = Ok i ->
  let bs := sb_BlockSize (fs_sb fs) in
  let n := zlen (in_blockSizes i) in
  inode_wf i /\ 1 <= in_Type i <= 14 /\
  (isDir i = true -> 0 <= in_Size i <= if in_Type i =? inodeBasicDir then 65532 else 2 ^ 32 - 4) /\
  (isSymlink i = true -> in_Size i = zlen (in_symlinkTarget i) /\ zlen (in_symlinkTarget i) <= 8192) /\
  (isRegular i = true ->
     n <= 2 ^ 24 /\
     (in_fragIdx i <> invalidFrag -> n * bs <= in_Size i < (n + 1) * bs) /\
     (in_fragIdx i = invalidFrag -> (n - 1) * bs < in_Size i <= n * bs \/ 2 ^ 64 - bs < in_Size i /\ n = 0)).
Proof using.
  intros Hwf Hr bs n. pose proof (readInode_wf fs _ _ Hr) as Hi. pose proof (readInode_kind fs _ _ Hr) as Hk.
  pose proof Hk as (Hbasic & Hdir & _ & Hlink & Htype). splits; [done|apply Htype|apply Htype|..].
  - intros Hd. specialize (Hdir Hd). destruct (Z.eqb_spec (in_Type i) inodeBasicDir); [by apply Hbasic|done].
  - exact Hlink.
  - intros Hreg. destruct (file_blocks fs Hwf i Hi Hk Hreg) as [Hf Hn]. splits; [by apply Hi|done|].
    intros E. destruct (Hn E) as [|[[_ ?] ?]]; [by left|by right].
Qed.

(** C39: an inode is decoded as the format says, whichever of the fourteen
    kinds it is: where the metadata at a reference holds the bytes of a header
    and a body of that kind (fields in the order and the widths of the format,
    block sizes, target and attribute index where they belong), readInode
    returns the inode with exactly those fields, the type bits of its kind in
    its mode, and zero in the fields the kind does not have. *)
Theorem inode_roundtrip ref h b :
  sb_wf (fs_sb fs) -> head_ok h -> body_ok (sb_BlockSize (fs_sb fs)) b -> inode_at fs ref (stored_inode h b) ->
  uncached (readInode fs ref) = Ok (inode_of h b).
Proof using. intros Hwf Hh Hb Hat. by apply readInode_stored. Qed.

(** C31: a listing that decodes has at most 2^22 entries, each with a name of
    1 to 256 bytes and fields within their widths, and its entries take no
    more bytes than the directory's size; so a basic directory never lists
    more than 65532 bytes of entries. *)
Theorem readDir_bounds ref i es :
  uncached (readInode fs ref) = Ok i -> isDir i = true -> uncached (readDir fs i) = Ok es ->
  zlen es <= maxDirEntries /\ Forall entry_ok es /\ entries_cost es <= in_Size i /\
  (in_Type i = inodeBasicDir -> entries_cost es <= 65532).
Proof using.
  intros Hi%readInode_kind Hd Hr. destruct Hi as (Hbasic & Hdir & _).
  pose proof (readDir_ok fs _ _ Hr) as [Hl He]. pose proof (Hdir Hd).
  pose proof (readDir_cost fs i es ltac:(lia) Hr). splits; [done|done|done|].
  intros Hb%Hbasic. lia.
Qed.

(** C34: the attributes of an inode are those its list stores.  Where an
    image holds, for the inode's index, a list of pairs in the format (the
    table, the pointer, the id entry, the pairs, values inline or out of
    line), the reader returns exactly the map they mean, under their full
    names, unless names and values, with 8 bytes more for each pair, exceed
    16 MiB: then it refuses the list. *)
Theorem xattrs_read img t ps i :
  xattr_format fs img t (in_xattrIdx i) ps -> in_xattrIdx i <> noXattr ->
  uncached (inodeXattrs fs i) =
    if xattr_total ps <=? maxXattrBytes then Ok (Some (xattr_map ps ∅)) else Err ErrTooLarge.
Proof using. intros Hf. by apply (inodeXattrs_spec fs img t _ ps Hf). Qed.

(** C35: the extended attributes of an inode, names and values together, never
    exceed 16 MiB, and reading them neither panics nor loops. *)
Theorem xattrs_bounded i :
  CodecLaws -> sane (uncached (inodeXattrs fs i)) /\
  forall m, uncached (inodeXattrs fs i) = Ok (Some m) -> xattr_bytes m <= maxXattrBytes.
Proof using. intros laws. split; [by apply inodeXattrs_sane|apply inodeXattrs_bytes]. Qed.

End decoders.

(** The number of block sizes of a file: as many blocks as cover it, or,
    when it has a tail fragment, as many as it fills. *)
Lemma blockCount_spec size bs frag n :
  0 <= size < 2 ^ 62 -> 1 <= bs <= 2 ^ 20 -> blockCount size bs frag = Ok n ->
  0 <= n /\ if frag then n * bs <= size < (n + 1) * bs else (n - 1) * bs < size <= n * bs.
Proof.
  intros Hs Hb. unfold blockCount, udiv. destruct (Z.eqb_spec bs 0); [lia|].
  destruct frag; cbn [mbind result_bind rbind]; intros <-%Ok_inj.
  - pose proof (Z.div_mod size bs ltac:(lia)). pose proof (Z.mod_pos_bound size bs ltac:(lia)).
    pose proof (Z.div_pos size bs ltac:(lia) ltac:(lia)).
    rewrite i64_small by nia. split; [lia|nia].
  - rewrite (u64_small (size + bs)), u64_small by lia.
    pose proof (Z.div_mod (size + bs - 1) bs ltac:(lia)).
    pose proof (Z.mod_pos_bound (size + bs - 1) bs ltac:(lia)).
    pose proof (Z.div_pos (size + bs - 1) bs ltac:(lia) ltac:(lia)).
    rewrite i64_small by nia. split; [lia|nia].
Qed.

(** A data size word carries a length below 2^24 and the "stored" flag,
    and is taken apart into both. *)
Lemma size_word_roundtrip n (stored : bool) :
  0 <= n < 2 ^ 24 ->
  blockOnDiskSize (if stored then Z.lor n dataUncompressedBit else n) = (n, negb stored) /\
  blockOnDiskBytes (if stored then Z.lor n dataUncompressedBit else n) = n.
Proof.
  intros Hn. assert (blockOnDiskSize (if stored then Z.lor n dataUncompressedBit else n) = (n, negb stored)) as E.
  { destruct stored; [by apply blockOnDiskSize_stored|by apply blockOnDiskSize_compressed]. }
  split; [done|]. by injection E.
Qed.

(** ** Paths *)

(** C37: splitting a path gives its components, none of them empty or ".", and
    joining components with slashes and splitting again gives them back. *)
Theorem splitPath_roundtrip (p : list byte) (parts : list (list byte)) :
  Forall component (splitPath p) /\ (Forall component parts -> splitPath (joinPath parts) = parts).
Proof. split; [apply splitPath_components|apply splitPath_joinPath]. Qed.

(** ** Files once closed *)

(** Reading a closed file fails with os.ErrClosed whatever the arguments,
    without touching the image; closing again changes nothing; and an open
    file refuses a negative offset. *)
Lemma closed_file `{CodecLib} (f : squashfsFile) plen off :
  squashfsFile_ReadAt (squashfsFile_Close f) plen off = mret ([], Some ErrClosed) /\
  squashfsFile_Close (squashfsFile_Close f) = squashfsFile_Close f /\
  squashfsFile_Size (squashfsFile_Close f) = squashfsFile_Size f /\
  (f_closed f = false -> off < 0 -> squashfsFile_ReadAt f plen off = mret ([], Some ErrNegativeOffset)).
Proof.
  splits; [done|done|done|]. intros Hc Ho. unfold squashfsFile_ReadAt. rewrite Hc.
  by destruct (Z.ltb_spec off 0); [|lia].
Qed.

(** ** Where the code falls short *)

Import ToyInstances.

(** An image whose two files name one data block with two lengths: built with
    the identity codec, then patched so that both words say "compressed" and
    both files start at byte 96. *)
Definition conflictTree : node := exDir "" [exFile "a" (B "01234"); exFile "b" (B "012345")].
Definition conflictImg : list byte :=
  Eval vm_compute in
    (match buildImage conflictTree (mkBuildOptions false CompressZSTD true) with
     | Ok img => <[144%nat:=Byte.x00]> (<[161%nat:=Byte.x60]> (<[180%nat:=Byte.x00]> img))
     | Err _ => []
     end).

(** The data cache is keyed by offset alone, so on an image whose files
    give one offset two lengths an answer depends on what was read before:
    the file "b" reads back when it is first, and is corrupt after "a". *)
Lemma data_cache_conflict :
  exists fs, Open (bytes_Reader conflictImg) (zlen conflictImg) = Ok fs /\
    uncached (serve fs (QReadFile (B "b") 10)) = Ok (ABytes (B "012340")) /\
    fst (serve_all fs [QReadFile (B "b") 10; QReadFile (B "a") 10] (Some newBlockCache)) =
      [Ok (ABytes (B "012340")); Ok (ABytes (B "01234"))] /\
    fst (serve_all fs [QReadFile (B "a") 10; QReadFile (B "b") 10] (Some newBlockCache)) =
      [Ok (ABytes (B "01234")); Err ErrCorrupt].
Proof. exists (handle conflictImg). vm_compute. by repeat split. Qed.

(** ** Instances *)

Definition exWriter : imageWriter := startState exOpts (Some gzipCompressor).

Lemma metadata_roundtrip_witness :
  exists m1 m2 m3, writeAll exWriter (mkMetaWriter [] []) [B "before"] = Ok m1 /\
    writeAll exWriter m1 [B "one"; B "two"] = Ok m2 /\ metaWriter_finish exWriter m2 = Ok m3 /\
    let fs := mkFS (bytes_Reader (mw_out m3)) 0 (fs_sb exFS) gzipDecompressor in
    let '(block, off) := inodeRef (metaWriter_ref m1) in
    uncached (c ← newMetaCursor fs (i64 (0 + block)) off; readAll fs c (zlen <$> [B "on"; B "etwo"])) =
    Ok [B "on"; B "etwo"].
Proof.
  destruct (writeAll_total exWriter (mkMetaWriter [] []) [B "before"]) as [m1 H1].
  destruct (writeAll_total exWriter m1 [B "one"; B "two"]) as [m2 H2].
  destruct (finish_total exWriter m2) as [m3 H3]. exists m1, m2, m3.
  split; [exact H1|split; [exact H2|split; [exact H3|]]].
  refine (metadata_roundtrip exWriter (mkFS (bytes_Reader (mw_out m3)) 0 (fs_sb exFS) gzipDecompressor)
    (mw_out m3) 0 [B "before"] m1 [B "one"; B "two"] m2 m3
    [B "on"; B "etwo"] toyEncoderLaws H1 H2 H3 eq_refl eq_refl _ _ eq_refl _).
  - vm_compute in H1. apply Ok_inj in H1 as <-. vm_compute in H2. apply Ok_inj in H2 as <-.
    vm_compute in H3. apply Ok_inj in H3 as <-. vm_compute. reflexivity.
  - exists [], []. by rewrite app_nil_r.
  - discriminate.
Defined.

Lemma metadata_bounds_witness :
  zlen (B "abc") = 3 /\
  (uncached (readMetaBlock (fs_rs exFS) (fs_d exFS) 0) = Ok (B "", 0) -> zlen (B "") <= metaBlockMax).
Proof. split; [reflexivity|exact (proj1 (metadata_bounds exFS 0 (B "") 0 (mkCursor 0 [] 0) 0 [] (mkCursor 0 [] 0) toyCodecLaws))]. Defined.

(** Through an xz stream of one block: into a block with the room, and into one
    a byte too short. *)
Lemma codec_roundtrip_witness :
  exists z, compressor_compress xzCompressor exData = Ok z /\
    uncached (decompress xzDecompressor z 20) = Ok exData /\
    uncached (decompress xzDecompressor z 19) = Err ErrCorrupt.
Proof.
  eexists. split; [reflexivity|].
  assert (zlen exData <= maxBlockSize) as Hb by (vm_compute; discriminate).
  split.
  - apply (codec_roundtrip xzCompressor exData _ 20 xzDecompressor toyEncoderLaws); [discriminate|exact Hb|lia|reflexivity..|].
    vm_compute. discriminate.
  - destruct (codec_roundtrip xzCompressor exData _ 19 xzDecompressor toyEncoderLaws ltac:(discriminate) Hb ltac:(lia)
      eq_refl eq_refl) as (_ & _ & Hlarge).
    destruct (Hlarge eq_refl) as (e & He & _ & Hx). rewrite He. f_equal. apply Hx. discriminate.
Defined.

Lemma decompress_bounded_witness :
  sane (uncached (decompress lz4Decompressor (B "x") 3)) /\
  (forall out, uncached (decompress lz4Decompressor (B "x") 3) = Ok out -> zlen out <= 3) /\
  (forall out, zstdDecoder (B "x") = Ok out -> zlen out <= maxBlockSize).
Proof. exact (decompress_bounded lz4Decompressor (B "x") 3 toyCodecLaws ltac:(lia) ltac:(by vm_compute)). Defined.

Lemma superblock_roundtrip_witness :
  readSuperblock (bytes_Reader (superblock exWriter 5 4 96 120 200 7 1 300)) =
  Ok (mkSuperblock Magic 4 0 defaultBlockSize 1 (writtenID exWriter) 17 (writtenFlags exWriter 1) 1 4 0
        5 300 200 (2 ^ 64 - 1) 96 120 7 (2 ^ 64 - 1)).
Proof.
  apply (superblock_roundtrip exWriter (superblock exWriter 5 4 96 120 200 7 1 300) 5 4 96 120 200 7 1 300).
  - reflexivity.
  - lia.
  - lia.
  - repeat constructor; lia.
  - exists [], []. by rewrite app_nil_r.
Defined.

(** "/f", 20 bytes with a tail fragment: no full block. *)
Lemma readInode_spec_witness :
  inode_wf (exInode "f") /\ 0 * 131072 <= in_Size (exInode "f") < (0 + 1) * 131072.
Proof.
  assert (exists ref, uncached (readInode exFS ref) = Ok (exInode "f")) as [ref Hr].
  { exists 0. vm_compute. reflexivity. }
  destruct (readInode_spec exFS ref (exInode "f") exFS_wf Hr) as (Hwf & _ & _ & _ & Hfile).
  split; [exact Hwf|]. apply Hfile; vm_compute; [reflexivity|discriminate].
Defined.

Lemma readDir_bounds_witness :
  exists es, uncached (readDir exFS (exInode "/d")) = Ok es /\
    (zlen es <= maxDirEntries /\ Forall entry_ok es /\ entries_cost es <= in_Size (exInode "/d") /\
     (in_Type (exInode "/d") = inodeBasicDir -> entries_cost es <= 65532)).
Proof.
  assert (uncached (readInode exFS 139) = Ok (exInode "/d")) as Hi by (vm_compute; reflexivity).
  destruct (uncached (readDir exFS (exInode "/d"))) as [es|] eqn:He; [|vm_compute in He; discriminate He].
  exists es. split; [reflexivity|].
  exact (readDir_bounds exFS 139 (exInode "/d") es Hi ltac:(vm_compute; reflexivity) He).
Defined.

(** An image of nothing but attributes: the list "user.comment" (inline) and
    "security.label" (out of line), its value, the id entry, and the table. *)
Definition exPairs : list xattr_pair :=
  [mkXattr 0 (B "comment") (B "hello") None; mkXattr 2 (B "label") (B "ctx") (Some 41)].
Definition rawBlock (payload : list byte) : list byte :=
  le_PutUint16 (Z.lor (zlen payload) metaHeaderCompressedBit) ++ payload.
Definition exKV : list byte := rawBlock (mjoin (xattr_stored <$> exPairs) ++ le_PutUint32 3 ++ B "ctx").
Definition exIDs : list byte := rawBlock (le_PutUint64 0 ++ le_PutUint32 2 ++ le_PutUint32 0).
Definition exTableStart : Z := zlen exKV + zlen exIDs.
Definition exXattrImg : list byte :=
  Eval vm_compute in
    exKV ++ exIDs ++ (le_PutUint64 0 ++ le_PutUint32 1 ++ zeros 4) ++ le_PutUint64 (zlen exKV).
Definition exXattrFS : FS :=
  mkFS (bytes_Reader exXattrImg) (zlen exXattrImg)
    (mkSuperblock Magic 0 0 131072 0 1 17 0 0 4 0 0 0 0 exTableStart 0 0 0 0) gzipDecompressor.
Definition exXattrTable : xattrTable := mkXattrTable 0 1 1.

(** An inode table of a file of two blocks with attributes and of a character
    device with attributes; the index of the latter is lost. *)
Definition exHead : inode_head := mkInodeHead 0x1A4 1 2 1700000000 7.
Definition exExtFile : inode_body := ExtFile (2 ^ 40) 200000 0 1 (2 ^ 32 - 1) 0 3 [1000; 2 ^ 24 + 68928].
Definition exExtDev : inode_body := ExtDev true 1 0x103 3.
Definition exInodesFS : FS :=
  let img := rawBlock (stored_inode exHead exExtFile ++ stored_inode exHead exExtDev) in
  mkFS (bytes_Reader img) (zlen img) (mkSuperblock Magic 0 0 131072 0 1 17 0 0 4 0 0 0 0 0 0 0 0 0) gzipDecompressor.

Lemma exInodesFS_wf : sb_wf (fs_sb exInodesFS).
Proof. vm_compute. repeat split; discriminate. Qed.

Lemma exInodes_at : inode_at exInodesFS 0 (stored_inode exHead exExtFile) /\ inode_at exInodesFS 64 (stored_inode exHead exExtDev).
Proof.
  split.
  - eexists _, (stored_inode exHead exExtDev). split; [vm_compute; reflexivity|].
    exists []. split; [vm_compute; reflexivity|constructor].
  - eexists _, []. split; [vm_compute; reflexivity|]. exists []. split; [vm_compute; reflexivity|constructor].
Qed.

Lemma inode_roundtrip_witness :
  uncached (readInode exInodesFS 0) =
    Ok (mkInode 9 0x81A4 1 2 1700000000 7 200000 3 (2 ^ 40) (2 ^ 32 - 1) 0 [1000; 2 ^ 24 + 68928] 0 0 []) /\
  uncached (readInode exInodesFS 64) =
    Ok (mkInode 12 0x21A4 1 2 1700000000 7 0 (2 ^ 32 - 1) 0 0 0 [] 0 0 []).
Proof.
  assert (head_ok exHead) as Hh by (unfold head_ok; cbn; lia).
  split.
  - apply (inode_roundtrip exInodesFS 0 exHead exExtFile exInodesFS_wf Hh); [|exact (proj1 exInodes_at)].
    change (sb_BlockSize (fs_sb exInodesFS)) with 131072. cbn [body_ok exExtFile]. unfold sizes_ok.
    splits; [lia..| |by vm_compute|by vm_compute]. do 2 (apply Forall_cons; split; [lia|]). apply Forall_nil_2.
  - exact (inode_roundtrip exInodesFS 64 exHead exExtDev exInodesFS_wf Hh I (proj2 exInodes_at)).
Defined.

Lemma exXattr_format : xattr_format exXattrFS exXattrImg exXattrTable 0 exPairs.
Proof.
  split; [reflexivity|by vm_compute|by vm_compute|by vm_compute|reflexivity| |by vm_compute|by vm_compute|by vm_compute
         | |by vm_compute|].
  - exists (zeros 4). split; [done|]. exists (exKV ++ exIDs), (le_PutUint64 (zlen exKV)). split; vm_compute; reflexivity.
  - exists (zlen exKV), (drop 2 exIDs), exTableStart, 0, 0.
    split; [by vm_compute|split; [by vm_compute|split; [|split; [|split]]]].
    + exists (exKV ++ exIDs ++ le_PutUint64 0 ++ le_PutUint32 1 ++ zeros 4), []. split; vm_compute; reflexivity.
    + vm_compute. reflexivity.
    + exists [], []. split; vm_compute; reflexivity.
    + eexists _, (le_PutUint32 3 ++ B "ctx"). split; [vm_compute; reflexivity|].
      exists []. split; [vm_compute; reflexivity|constructor].
  - constructor; [by vm_compute|]. constructor; [|constructor].
    split; [by vm_compute|split; [by vm_compute|split; [by vm_compute|split; [by vm_compute|]]]].
    eexists _, []. split; [vm_compute; reflexivity|]. exists []. split; [vm_compute; reflexivity|constructor].
Qed.

Lemma xattrs_read_witness :
  uncached (inodeXattrs exXattrFS (setDir (inodeOfHeader []) 0 0 0 0)) =
    Ok (Some (<[B "security.label" := B "ctx"]> {[B "user.comment" := B "hello"]})).
Proof.
  exact (xattrs_read exXattrFS exXattrImg exXattrTable exPairs (setDir (inodeOfHeader []) 0 0 0 0) exXattr_format
    ltac:(discriminate)).
Defined.

Lemma xattrs_bounded_witness :
  sane (uncached (inodeXattrs exFS (exInode "/d"))) /\
  forall m, uncached (inodeXattrs exFS (exInode "/d")) = Ok (Some m) -> xattr_bytes m <= maxXattrBytes.
Proof. exact (xattrs_bounded exFS (exInode "/d") toyCodecLaws). Defined.

Lemma blockCount_spec_witness : 0 <= 3 /\ (3 - 1) * 131072 < 300000 <= 3 * 131072.
Proof. exact (blockCount_spec 300000 131072 false 3 ltac:(lia) ltac:(lia) ltac:(vm_compute; reflexivity)). Defined.

Lemma size_word_roundtrip_witness :
  blockOnDiskSize (Z.lor 131072 dataUncompressedBit) = (131072, false) /\
  blockOnDiskBytes (Z.lor 131072 dataUncompressedBit) = 131072.
Proof. exact (size_word_roundtrip 131072 true ltac:(lia)). Defined.

Lemma splitPath_roundtrip_witness : splitPath (joinPath [B "a"; B "b"]) = [B "a"; B "b"].
Proof.
  refine (proj2 (splitPath_roundtrip (B "/") [B "a"; B "b"]) _).
  unfold component. apply (bool_decide_unpack _). vm_compute. exact I.
Defined.

Lemma closed_file_witness :
  squashfsFile_ReadAt (mkFile exFS [] [] 0 0 0 131072 false) 1 (-1) = mret ([], Some ErrNegativeOffset).
Proof.
  exact (proj2 (proj2 (proj2 (closed_file (mkFile exFS [] [] 0 0 0 131072 false) 1 (-1)))) eq_refl ltac:(lia)).
Defined.
