(* ===== verification/WriterTheorems.v ===== *)
(** * The writer's theorems

    What an image built from a tree serves once it is opened: every path that
    leads to a node of the tree, symbolic links included, reads back that
    node, and no other path is served.  [answer_after fs pre q] is the answer
    to [q] of a handle that has served the requests [pre]; no claim depends
    on [pre]: what earlier calls left in the cache never shows. *)

From S2P Require Export Examples.
From Stdlib Require Import String.

#[local] Open Scope Z_scope.

Section built.
Context `{CodecLib} `{EncoderLib} `{SafeIO} `{FsInterface}.

(** Everything a claim about a built image assumes: the codecs invert each
    other, the tree is representable, and the image built from it, below
    4 GiB, is open. *)
Record built (root : node) (opts : BuildOptions) (img : list byte) (fs : FS) : Prop := {
  built_codecs : CodecLaws;
  built_encoders : EncoderLaws;
  built_safeio : SafeIOLaws;
  built_tree : node_ok root;
  built_image_of : buildImage root opts = Ok img;
  built_small : zlen img < 2 ^ 32;
  built_open : Open (bytes_Reader img) (zlen img) = Ok fs
}.

(** The answer to [q] once the requests [pre] have been served on the handle. *)
Definition answer_after (fs : FS) (pre : list request) (q : request) : result response :=
  fst (exec (serve fs q) (snd (serve_all fs pre (Some newBlockCache)))).

Lemma built_cache root opts img fs :
  built root opts img fs -> exists W, functional W /\ (forall q, names_ok W fs q).
Proof using.
  intros [? ? ? Hok Hb Hs Ho].
  destruct (built_image root opts img Hok Hb Hs) as (im & W & Ho' & Him & HW & _ & Hres).
  rewrite Ho in Ho'. apply Ok_inj in Ho' as ->. exists W. split; [done|]. by eapply built_names_ok.
Qed.

Lemma built_answer root opts img fs pre q :
  built root opts img fs -> answer_after fs pre q = uncached (serve fs q).
Proof using.
  intros Hb. destruct (built_cache _ _ _ _ Hb) as (W & HW & Hn).
  pose proof (Open_wf _ _ _ (built_open _ _ _ _ Hb)) as Hwf. pose proof (built_safeio _ _ _ _ Hb) as Hsafe.
  assert (Forall (names_ok W fs) pre) as Hpre by (apply Forall_forall; intros; apply Hn).
  destruct (serve_all_uncached fs Hwf W HW pre (Some newBlockCache) Hpre (cache_ok_new _ _)) as [_ Hc].
  by apply (transparent_exec _ _ _ _ _ (serve_transparent fs Hwf W HW q (Hn q)) Hc).
Qed.

Lemma built_node root opts img fs path ff n :
  built root opts img fs -> tree_resolves root 40 root (splitPath path) ff n ->
  exists im W ref num i, im_fs im = fs /\ image_ok im /\ uncached (resolve fs path ff) = Ok i /\
    holds_node im W ref num n /\ uncached (readInode fs ref) = Ok i /\
    header_of i (dirEntryType (n_mode n)) n num.
Proof using.
  intros [? ? ? Hok Hb Hs Ho] Hr. destruct (built_image root opts img Hok Hb Hs) as (im & W & Ho' & Him & _ & Hres & _).
  rewrite Ho in Ho'. apply Ok_inj in Ho' as ->. destruct (Hres _ _ _ Hr) as (_ & ref & num & i & Hi & Hn & Hri).
  destruct (holds_inode _ _ _ _ _ Hn) as (i' & Hi' & Hh). rewrite Hri in Hi'. apply Ok_inj in Hi' as ->.
  by exists im, W, ref, num, i'.
Qed.

Lemma built_file root opts img fs path n :
  built root opts img fs -> tree_resolves root 40 root (splitPath path) true n -> node_type n = sIFREG ->
  exists i, uncached (resolve fs path true) = Ok i /\ inode_wf i /\ isRegular i = true /\
    in_Size i = zlen (n_data n) /\
    forall max, (0 <= max -> zlen (n_data n) <= max) -> uncached (readFileLimit fs i max) = Ok (n_data n).
Proof using.
  intros Hb Hr Ht. destruct (built_node _ _ _ _ _ _ _ Hb Hr) as (im & W & ref & num & i & <- & Him & Hi & Hn & Hri & Hh).
  exists i. destruct (header_kind _ _ _ Hh) as (_ & _ & _ & Hreg).
  destruct (holds_file_inv _ _ _ _ _ Hn Ht) as (i' & Hi' & _ & (Hsz & Hrd) & _). rewrite Hri in Hi'. apply Ok_inj in Hi' as <-.
  splits; [done|by eapply readInode_wf|by apply Hreg|done|done].
Qed.

Lemma built_link root opts img fs path ff n :
  built root opts img fs -> tree_resolves root 40 root (splitPath path) ff n -> node_type n = sIFLNK ->
  exists i, uncached (resolve fs path ff) = Ok i /\ isSymlink i = true /\ in_symlinkTarget i = n_target n.
Proof using.
  intros Hb Hr Ht. destruct (built_node _ _ _ _ _ _ _ Hb Hr) as (im & W & ref & num & i & <- & Him & Hi & Hn & Hri & Hh).
  destruct (header_kind _ _ _ Hh) as (_ & _ & Hl & _). unfold is_link in Hl. rewrite Ht in Hl.
  destruct (holds_link_inv _ _ _ _ _ Hn Ht) as (i' & Hi' & _ & Htg & _). rewrite Hri in Hi'. apply Ok_inj in Hi' as <-.
  exists i. splits; [done|by apply Hl|done].
Qed.

(** What Stat reports, and whether it does. *)
Lemma built_stat root opts img fs path n :
  built root opts img fs -> tree_resolves root 40 root (splitPath path) true n ->
  exists size num, uncached (serve fs (QStat path)) = Ok (AStat (NewStat (n_mode n) size num)) /\
    (node_type n = sIFREG -> size = zlen (n_data n)).
Proof using.
  intros Hb Hr. destruct (built_node _ _ _ _ _ _ _ Hb Hr) as (im & W & ref & num & i & <- & Him & Hi & Hn & Hri & Hh).
  destruct Hh as (_ & Hm & _). exists (in_Size i), (in_Number i). split; [by rewrite serve_Stat_resolve, Hi, <- Hm|].
  intros Ht. destruct (built_file _ _ _ _ _ _ Hb Hr Ht) as (i' & Hi' & _ & _ & Hsz & _).
  rewrite Hi in Hi'. by apply Ok_inj in Hi' as <-.
Qed.

Lemma built_stat_iff root opts img fs path :
  built root opts img fs ->
  ((exists st, uncached (serve fs (QStat path)) = Ok (AStat st)) <->
   exists n, tree_resolves root 40 root (splitPath path) true n) /\
  sane (uncached (serve fs (QStat path))).
Proof using.
  intros Hb. rewrite serve_Stat_resolve. pose proof Hb as [Hc ? ? Hok Hbi Hs Ho].
  pose proof (resolve_sane fs Hc (Open_wf _ _ _ Ho) path true) as Hsane.
  destruct (built_image root opts img Hok Hbi Hs) as (im & W & Ho' & Him & _ & Hto & Hfrom).
  rewrite Ho in Ho'. apply Ok_inj in Ho' as ->.
  destruct (uncached (resolve (im_fs im) path true)) as [i|e] eqn:Hi; rstep.
  - split; [|done]. split; [|by eexists].
    intros _. destruct (Hfrom _ _ _ Hi) as (n & _ & _ & Hr & _). by exists n.
  - split; [|by eapply sane_err]. split; [by intros [? ?]|]. intros [n Hr].
    destruct (Hto _ _ _ Hr) as (_ & _ & _ & i & Hi' & _). congruence.
Qed.

(** C2: reading a file of the tree through the opened image returns its bytes,
    for any path that leads to it, links followed, and any ceiling that is
    negative (none) or at least its length. *)
Theorem build_ReadFile root opts img fs pre path n max :
  built root opts img fs -> tree_resolves root 40 root (splitPath path) true n -> node_type n = sIFREG ->
  (0 <= max -> zlen (n_data n) <= max) ->
  answer_after fs pre (QReadFile path max) = Ok (ABytes (n_data n)).
Proof using.
  intros Hb Hr Ht Hmax. rewrite (built_answer _ _ _ _ _ _ Hb).
  destruct (built_file _ _ _ _ _ _ Hb Hr Ht) as (i & Hi & _ & Hreg & _ & Hrd).
  apply (serve_ReadFile_ok _ _ _ i); auto.
Qed.

(** C3: opening a file of the tree and reading any window of it returns that
    window of its bytes, with io.EOF exactly when the window runs past the
    end. *)
Theorem build_ReadAt root opts img fs pre path n plen off :
  built root opts img fs -> tree_resolves root 40 root (splitPath path) true n -> node_type n = sIFREG ->
  0 <= plen -> 0 <= off ->
  let '(b, e) := readAt_spec (n_data n) plen off in
  answer_after fs pre (QReadAt path plen off) = Ok (AReadAt b e).
Proof using.
  intros Hb Hr Ht Hp Hoff. rewrite (built_answer _ _ _ _ _ _ Hb). pose proof (Open_wf _ _ _ (built_open _ _ _ _ Hb)) as Hwf.
  destruct (built_file _ _ _ _ _ _ Hb Hr Ht) as (i & Hi & Hiwf & Hreg & Hsz & Hrd).
  pose proof (built_safeio _ _ _ _ Hb) as Hsafe.
  specialize (Hrd (-1) ltac:(lia)). pose proof (readFileLimit_content fs Hwf i (-1) _ Hiwf Hrd) as Hc.
  pose proof (readFileLimit_reach _ _ _ _ Hrd) as Hmax.
  destruct (newFile_total fs Hwf i Hiwf Hmax) as (f & Hf & Hof).
  cbn [serve]. rewrite uncached_bind. unfold FS_OpenFile. rewrite uncached_bind, Hi. rstep. rewrite Hreg.
  cbn [negb]. rewrite Hf. rstep. rewrite uncached_bind, (ReadAt_content fs Hwf i f (n_data n)) by done. rstep.
  by destruct (readAt_spec _ _ _).
Qed.

(** C4: listing a directory of the tree returns one entry per child, in name
    order, with the child's name, the type its mode gives and the number of
    an inode the image holds for it. *)
Theorem build_ListDir root opts img fs pre path n :
  built root opts img fs -> tree_resolves root 40 root (splitPath path) true n -> node_type n = sIFDIR ->
  exists cs es, cs ≡ₚ n_children n /\ Sorted name_le cs /\ answer_after fs pre (QListDir path) = Ok (AEntries es) /\
    Forall2 (fun c e => exists ref i, uncached (readInode fs ref) = Ok i /\ in_Mode i = n_mode c /\
               e = NewDirEntry (in_Number i) (n_name c) (dirEntryType (n_mode c))) cs es.
Proof using.
  intros Hb Hr Ht. rewrite (built_answer _ _ _ _ _ _ Hb).
  destruct (built_node _ _ _ _ _ _ _ Hb Hr) as (im & W & ref & num & i & <- & Him & Hi & Hn & Hri & Hh).
  destruct (holds_dir_inv _ _ _ _ _ Hn Ht) as (i' & entries & cs & Hi' & _ & Hrd & Hperm & Hsort & Hnames & Htypes & Hch).
  rewrite Hri in Hi'. apply Ok_inj in Hi' as <-. destruct (header_kind _ _ _ Hh) as (Hdir & _).
  exists cs. eexists. splits; [done|done| |].
  { cbn [serve]. rewrite uncached_bind. unfold FS_ListDir. rewrite uncached_bind, Hi. rstep. rewrite Hdir by done. cbn [negb].
    rewrite uncached_bind, Hrd. rstep. rewrite uncached_bind, uncached_make by apply zlen_nonneg. rstep.
    reflexivity. }
  apply Forall2_fmap_r, Forall2_same_length_lookup. split.
  { apply (f_equal List.length) in Hnames. by rewrite !length_fmap in Hnames. }
  intros k c e Hk He. pose proof (Hch k e c He Hk) as Hcn.
  destruct (holds_inode _ _ _ _ _ Hcn) as (j & Hj & _ & Hm & Hnum & _).
  exists (de_InodeRef e), j. splits; [done|done|].
  apply (f_equal (lookup k)) in Hnames, Htypes. rewrite !list_lookup_fmap, He, Hk in Hnames. rewrite !list_lookup_fmap, He, Hk in Htypes.
  injection Hnames as ->. injection Htypes as ->. rewrite Hnum. f_equal.
  unfold u8, dirEntryType. destruct (_ =? sIFDIR); [done|]. by destruct (_ =? sIFLNK).
Qed.

(** C5: reading a link of the tree, itself not followed, returns its target. *)
Theorem build_ReadLink root opts img fs pre path n :
  built root opts img fs -> tree_resolves root 40 root (splitPath path) false n -> node_type n = sIFLNK ->
  answer_after fs pre (QReadLink path) = Ok (ABytes (n_target n)).
Proof using.
  intros Hb Hr Ht. rewrite (built_answer _ _ _ _ _ _ Hb).
  destruct (built_link _ _ _ _ _ _ _ Hb Hr Ht) as (i & Hi & Hl & <-). by apply serve_ReadLink_ok.
Qed.

(** C6: Stat of a node of the tree reports its mode, and for a file the
    length of its bytes; no extended attributes are reported. *)
Theorem build_Stat root opts img fs pre path n :
  built root opts img fs -> tree_resolves root 40 root (splitPath path) true n ->
  (exists size num, answer_after fs pre (QStat path) = Ok (AStat (NewStat (n_mode n) size num)) /\
     (node_type n = sIFREG -> size = zlen (n_data n))) /\
  answer_after fs pre (QXattrs path) = Ok (AXattrs None).
Proof using.
  intros Hb Hr. rewrite !(built_answer _ _ _ _ _ _ Hb). split; [by eapply built_stat|].
  destruct (built_node _ _ _ _ _ _ _ Hb Hr) as (im & W & ref & num & i & <- & Him & Hi & Hn & Hri & Hh).
  destruct Hh as (_ & _ & _ & Hx). cbn [serve]. rewrite uncached_bind. unfold FS_Xattrs, inodeXattrs.
  rewrite uncached_bind, Hi. rstep. rewrite Hx. by rewrite Z.eqb_refl.
Qed.

(** C26: a method called on the wrong kind of node refuses it with its own
    error: reading or opening a directory, listing a file, and reading the
    target of what is not a link. *)
Theorem build_wrong_kind root opts img fs pre path n max plen off :
  built root opts img fs ->
  (tree_resolves root 40 root (splitPath path) true n -> node_type n = sIFDIR ->
   answer_after fs pre (QReadFile path max) = Err ErrNotRegular /\
   answer_after fs pre (QReadAt path plen off) = Err ErrNotRegular) /\
  (tree_resolves root 40 root (splitPath path) true n -> node_type n = sIFREG ->
   answer_after fs pre (QListDir path) = Err ErrNotDirectory) /\
  (tree_resolves root 40 root (splitPath path) false n -> node_type n <> sIFLNK ->
   answer_after fs pre (QReadLink path) = Err ErrNotSymlink).
Proof using.
  intros Hb. rewrite !(built_answer _ _ _ _ _ _ Hb). cbn [serve]. rewrite !uncached_bind.
  splits; intros Hr Ht;
    destruct (built_node _ _ _ _ _ _ _ Hb Hr) as (im & W & ref & num & i & <- & Him & Hi & Hn & Hri & Hh).
  - destruct Hh as (Hty & _). rewrite itype_dir in Hty by done.
    unfold FS_ReadFileLimit, FS_OpenFile. rewrite !uncached_bind, Hi. rstep. unfold isRegular. by rewrite Hty.
  - destruct Hh as (Hty & _). rewrite itype_file in Hty by done.
    unfold FS_ListDir. rewrite !uncached_bind, Hi. rstep. unfold isDir. by rewrite Hty.
  - destruct (header_kind _ _ _ Hh) as (_ & Hl & _).
    unfold FS_ReadLink. rewrite !uncached_bind, Hi. rstep. rewrite Hl; [done|]. by apply Z.eqb_neq.
Qed.

(** C7: the opened image serves exactly the paths that lead somewhere in the
    tree: Stat succeeds on these and, with an error of the package, fails on
    every other. *)
Theorem build_resolves_iff root opts img fs pre path :
  built root opts img fs ->
  ((exists st, answer_after fs pre (QStat path) = Ok (AStat st)) <->
   exists n, tree_resolves root 40 root (splitPath path) true n) /\
  sane (answer_after fs pre (QStat path)).
Proof using.
  intros Hb. rewrite !(built_answer _ _ _ _ _ _ Hb). by eapply built_stat_iff.
Qed.

(** C18: on a built image the shared cache never shows: whatever was served
    before, every answer is the one of a handle with no cache; and in every
    interleaving of concurrent calls each call that returns gives it too. *)
Theorem build_cache_transparent root opts img fs :
  built root opts img fs ->
  (forall pre q, answer_after fs pre q = uncached (serve fs q)) /\
  (forall qs ts c i q r, rtc pool_step (serve fs <$> qs, Some newBlockCache) (ts, c) ->
     qs !! i = Some q -> ts !! i = Some (Ret r) -> r = uncached (serve fs q)).
Proof using.
  intros Hb. split; [intros pre q; by eapply built_answer|]. intros qs ts c i q r Hsteps Hq Hr.
  destruct (built_cache _ _ _ _ Hb) as (W & HW & Hn). pose proof (Open_wf _ _ _ (built_open _ _ _ _ Hb)) as Hwf.
  pose proof (built_safeio _ _ _ _ Hb) as Hsafe.
  eapply (serve_pool_uncached fs Hwf W HW qs); eauto. apply Forall_forall. intros; apply Hn.
Qed.

(** C8: building a representable tree returns an image unless the compressor
    id is unknown, which is the only error; and an image below 4 GiB opens. *)
Theorem build_total root opts :
  CodecLaws -> EncoderLaws -> SafeIOLaws -> node_ok root ->
  match optCompressor opts with
  | Ok _ => exists img, buildImage root opts = Ok img /\
      (zlen img < 2 ^ 32 -> exists fs, Open (bytes_Reader img) (zlen img) = Ok fs)
  | Err e => e = ErrUnsupportedCompression /\ buildImage root opts = Err e
  end.
Proof using.
  intros ? ? ? Hok. pose proof (buildImage_total root opts Hok) as Ht.
  destruct (optCompressor opts); [|done]. destruct Ht as [img Hb]. exists img. split; [done|]. intros Hs.
  destruct (built_image root opts img Hok Hb Hs) as (im & W & Ho & _). by exists (im_fs im).
Qed.

(** C40: the size of a directory's listing is cut to 16 bits.  A root directory
    is built without an error however many children it has; but its inode
    says at most 65532 bytes, and when the children's names need more than
    that, the opened image never lists them all: ListDir fails or leaves some
    out. *)
Theorem directory_overflow root opts :
  CodecLaws -> EncoderLaws -> SafeIOLaws ->
  0 <= n_mode root < 2 ^ 16 -> node_type root = sIFDIR -> Forall node_ok (n_children root) ->
  match optCompressor opts with
  | Ok _ => exists img, buildImage root opts = Ok img
  | Err e => e = ErrUnsupportedCompression /\ buildImage root opts = Err e
  end /\
  forall img, buildImage root opts = Ok img -> zlen img < 2 ^ 32 ->
    exists fs i, Open (bytes_Reader img) (zlen img) = Ok fs /\ uncached (resolve fs [slash] true) = Ok i /\
      isDir i = true /\ in_Size i <= 65532 /\
      (65532 < names_cost (n_name <$> n_children root) ->
       forall out, uncached (serve fs (QListDir [slash])) = Ok (AEntries out) ->
       exists es, uncached (readDir fs i) = Ok es /\
         out = (fun e => NewDirEntry (de_Number e) (de_Name e) (u8 (de_Type e))) <$> es /\
         ~ de_Name <$> es ≡ₚ n_name <$> n_children root).
Proof using.
  intros codecs enclaws safeio Hm Ht Hcs. split; [by apply buildImage_root_total|]. intros img Hb Hs.
  destruct (buildImage_root root opts img Hm Ht Hcs Hb Hs) as (fs & i & num & len & Hopen & Hi & (Hty & _) & Hsize).
  assert (isDir i = true) as Hd by (unfold isDir; by rewrite Hty).
  assert (uncached (resolve fs [slash] true) = Ok i) as Hr by (apply resolve_iff; exists i; split; [done|constructor]).
  assert (0 <= in_Size i <= 65532) as Hle.
  { rewrite Hsize. pose proof (u16_range (len + 3)). unfold dirDataSize. destruct (_ <=? 3) eqn:E; [lia|].
    apply Z.leb_gt in E. lia. }
  exists fs, i. splits; [done|done|done|lia|]. intros Hcost out. cbn [serve].
  rewrite uncached_bind. unfold FS_ListDir. rewrite uncached_bind, Hr. rstep. rewrite Hd. cbn [negb].
  rewrite uncached_bind. destruct (uncached (readDir fs i)) as [es|] eqn:Hes; rstep; [|done].
  rewrite uncached_bind, uncached_make by apply zlen_nonneg. rstep. intros [= <-].
  exists es. splits; [done|done|]. intros Hperm%names_cost_perm.
  pose proof (readDir_cost fs i es ltac:(lia) Hes) as Hec. rewrite entries_cost_names in Hec. lia.
Qed.

End built.

(** ** The theorems at the example tree *)

Import ToyInstances.

Lemma exBuilt : built exTree exOpts exImg exFS.
Proof.
  split; [exact toyCodecLaws|exact toyEncoderLaws|exact toySafeIOLaws|exact exTree_ok|exact exImg_built
    |exact exImg_small|exact exFS_open].
Qed.

(** What was served before. *)
Definition exBefore : list request := [QReadFile (B "f") 7; QReadFile (B "/f") (-1); QListDir (B "/")].

Lemma build_ReadFile_witness : answer_after exFS exBefore (QReadFile (B "/d/here/abs") 20) = Ok (ABytes exData).
Proof.
  exact (build_ReadFile exTree exOpts exImg exFS exBefore (B "/d/here/abs") nFile 20
    exBuilt exPath_file eq_refl (fun _ => ltac:(vm_compute; discriminate))).
Defined.

Lemma build_ReadAt_witness :
  answer_after exFS exBefore (QReadAt (B "/d/here/abs") 30 13) = Ok (AReadAt (replicate 7 Byte.x07) (Some ErrEOF)).
Proof.
  exact (build_ReadAt exTree exOpts exImg exFS exBefore (B "/d/here/abs") nFile 30 13
    exBuilt exPath_file eq_refl ltac:(lia) ltac:(lia)).
Defined.

Lemma build_ListDir_witness :
  exists cs es, cs ≡ₚ n_children nDir /\ Sorted name_le cs /\
    answer_after exFS exBefore (QListDir (B "/d")) = Ok (AEntries es) /\
    Forall2 (fun c e => exists ref i, uncached (readInode exFS ref) = Ok i /\ in_Mode i = n_mode c /\
               e = NewDirEntry (in_Number i) (n_name c) (dirEntryType (n_mode c))) cs es.
Proof. exact (build_ListDir exTree exOpts exImg exFS exBefore (B "/d") nDir exBuilt exPath_dir eq_refl). Defined.

Lemma build_ReadLink_witness : answer_after exFS exBefore (QReadLink (B "/d/up")) = Ok (ABytes (B "../f")).
Proof.
  exact (build_ReadLink exTree exOpts exImg exFS exBefore (B "/d/up") (exLink "up" "../f") exBuilt exPath_link eq_refl).
Defined.

Lemma build_Stat_witness :
  (exists size num, answer_after exFS exBefore (QStat (B "/d/here/abs")) = Ok (AStat (NewStat 0x81a4 size num)) /\
     (node_type nFile = sIFREG -> size = 20)) /\
  answer_after exFS exBefore (QXattrs (B "/d/here/abs")) = Ok (AXattrs None).
Proof. exact (build_Stat exTree exOpts exImg exFS exBefore (B "/d/here/abs") nFile exBuilt exPath_file). Defined.

Lemma build_wrong_kind_witness :
  (answer_after exFS exBefore (QReadFile (B "/d") 9) = Err ErrNotRegular /\
   answer_after exFS exBefore (QReadAt (B "/d") 1 1) = Err ErrNotRegular) /\
  answer_after exFS exBefore (QListDir (B "/d/here/abs")) = Err ErrNotDirectory.
Proof.
  split.
  - exact (proj1 (build_wrong_kind exTree exOpts exImg exFS exBefore (B "/d") nDir 9 1 1 exBuilt) exPath_dir eq_refl).
  - exact (proj1 (proj2 (build_wrong_kind exTree exOpts exImg exFS exBefore (B "/d/here/abs") nFile 9 1 1 exBuilt))
      exPath_file eq_refl).
Defined.

Lemma build_resolves_iff_witness :
  ((exists st, answer_after exFS exBefore (QStat (B "/d/up")) = Ok (AStat st)) <->
   exists n, tree_resolves exTree 40 exTree (splitPath (B "/d/up")) true n) /\
  sane (answer_after exFS exBefore (QStat (B "/d/up"))).
Proof. exact (build_resolves_iff exTree exOpts exImg exFS exBefore (B "/d/up") exBuilt). Defined.

Lemma build_cache_transparent_witness :
  (forall pre q, answer_after exFS pre q = uncached (serve exFS q)) /\
  (forall qs ts c i q r, rtc pool_step (serve exFS <$> qs, Some newBlockCache) (ts, c) ->
     qs !! i = Some q -> ts !! i = Some (Ret r) -> r = uncached (serve exFS q)).
Proof. exact (build_cache_transparent exTree exOpts exImg exFS exBuilt). Defined.

Lemma build_total_witness :
  exists img, buildImage exTree exOpts = Ok img /\
    (zlen img < 2 ^ 32 -> exists fs, Open (bytes_Reader img) (zlen img) = Ok fs).
Proof. exact (build_total exTree exOpts toyCodecLaws toyEncoderLaws toySafeIOLaws exTree_ok). Defined.

(** 320 links with distinct names of 200 bytes: 66 KB of listing. *)
Definition bigSuffix (k : nat) : list byte := [Byte.x61 ; byte.of_Z (48 + Z.of_nat k / 64); byte.of_Z (48 + Z.of_nat k mod 64)].
Definition bigName (k : nat) : list byte := replicate 197 Byte.x61 ++ bigSuffix k.
Definition bigTree : node :=
  mkNode [] 0x41ed 0 0 [] [] ((fun k => mkNode (bigName k) 0xa1ff 0 0 (B "f") [] [] 0 0) <$> seq 0 320) 0 0.
Definition bigOpts : BuildOptions := mkBuildOptions true CompressGZIP false.

Lemma zlen_bigName k : zlen (bigName k) = 200.
Proof. unfold bigName, zlen. by rewrite length_app, length_replicate. Qed.

Lemma bigTree_names : n_name <$> n_children bigTree = bigName <$> seq 0 320.
Proof. cbn [n_children bigTree]. rewrite <- list_fmap_compose. by apply list_fmap_ext. Qed.

Lemma bigTree_distinct : NoDup (n_name <$> n_children bigTree).
Proof.
  rewrite bigTree_names. unfold bigName. change (NoDup ((app (replicate 197 Byte.x61) ∘ bigSuffix) <$> seq 0 320)).
  rewrite list_fmap_compose. apply NoDup_fmap_2; [apply _|]. apply (bool_decide_unpack _). vm_compute. exact I.
Qed.

Lemma bigTree_cost : 65532 < names_cost (n_name <$> n_children bigTree).
Proof.
  rewrite bigTree_names. pose proof (names_cost_ge 200 (bigName <$> seq 0 320)) as Hge.
  unfold zlen in Hge at 2. rewrite length_fmap, length_seq in Hge.
  enough (Forall (fun s => 200 <= zlen s) (bigName <$> seq 0 320)) as Hall by (specialize (Hge Hall); lia).
  apply Forall_fmap, Forall_true. intros k. change (200 <= zlen (bigName k)). by rewrite zlen_bigName.
Qed.

Lemma bigTree_children : Forall node_ok (n_children bigTree).
Proof. apply Forall_fmap, Forall_true. intros k. apply node_ok_link; [cbn; lia|done|by vm_compute]. Qed.

Lemma directory_overflow_witness :
  NoDup (n_name <$> n_children bigTree) /\
  exists img, buildImage bigTree bigOpts = Ok img /\
    (zlen img < 2 ^ 32 ->
     exists fs i, Open (bytes_Reader img) (zlen img) = Ok fs /\ uncached (resolve fs [slash] true) = Ok i /\
       isDir i = true /\ in_Size i <= 65532 /\
       forall out, uncached (serve fs (QListDir [slash])) = Ok (AEntries out) ->
       exists es, uncached (readDir fs i) = Ok es /\
         out = (fun e => NewDirEntry (de_Number e) (de_Name e) (u8 (de_Type e))) <$> es /\
         ~ de_Name <$> es ≡ₚ n_name <$> n_children bigTree).
Proof.
  split; [exact bigTree_distinct|].
  destruct (directory_overflow bigTree bigOpts toyCodecLaws toyEncoderLaws toySafeIOLaws
    ltac:(cbn; lia) eq_refl bigTree_children) as [[img Hb] Hcut].
  exists img. split; [exact Hb|]. intros Hs. destruct (Hcut img Hb Hs) as (fs & i & Ho & Hi & Hd & Hsz & Hl).
  exists fs, i. exact (conj Ho (conj Hi (conj Hd (conj Hsz (Hl bigTree_cost))))).
Defined.
