(* ===== verification/ReaderTheorems.v ===== *)
(** * The reader's theorems

    What the handle promises on any image: no panic, bounded results and
    allocations, one content for both ways to read a file, path resolution as
    specified, and, for requests whose blocks agree on their lengths, answers
    that depend neither on what the cache holds nor on how calls interleave.
    The instances at the example image are at the end. *)

From S2P Require Export Examples.
From Stdlib Require Import String.
From stdpp Require Import relations.

#[local] Open Scope Z_scope.

Section reader.
Context `{CodecLib} `{SafeIO} `{FsInterface}.

(** ** Any image, any sequence of requests *)

(** C9: whatever bytes the image holds, a handle that opened on it answers
    every sequence of requests, over the cache it fills as it goes, without a
    panic or an endless loop, and within the bounds of [response_ok]. *)
Theorem requests_safe (rs : ReaderAt) (size : Z) (fs : FS) (qs : list request) :
  CodecLaws -> SafeIOLaws -> Open rs size = Ok fs -> Forall request_ok qs ->
  Forall2 response_ok qs (fst (serve_all fs qs (Some newBlockCache))).
Proof using.
  intros laws safeio Hopen Hqs.
  exact (serve_all_safe fs (Open_wf _ _ _ Hopen) qs _ Hqs (cache_ok_new _ _)).
Qed.

(** C24: no request makes an allocation sized by the image that is larger than
    a metadata block, a data block, the entry cap, the block list cap, or the
    ceiling the caller gave; whatever valid entries the cache holds. *)
Theorem request_allocations (rs : ReaderAt) (size : Z) (fs : FS) (q : request) :
  CodecLaws -> SafeIOLaws -> Open rs size = Ok fs -> request_ok q ->
  wp (okMeta fs) (okBlock fs) (alloc_bound fs q) (serve fs q) (response_ok q).
Proof using. intros laws safeio Hopen Hq. exact (serve_safe fs (Open_wf _ _ _ Hopen) q Hq). Qed.

(** C14: concurrent calls on one handle.  In every interleaving of their
    effects on the shared cache, each call that has returned returned an
    answer within [response_ok], and the cache stays well formed and within
    its caps. *)
Theorem concurrent_safe (rs : ReaderAt) (size : Z) (fs : FS) (qs : list request) ts c :
  CodecLaws -> SafeIOLaws -> Open rs size = Ok fs -> Forall request_ok qs ->
  rtc pool_step (serve fs <$> qs, Some newBlockCache) (ts, c) ->
  cache_wf_opt c /\ forall i q r, qs !! i = Some q -> ts !! i = Some (Ret r) -> response_ok q r.
Proof using.
  intros laws safeio Hopen Hqs Hsteps. pose proof (Open_wf _ _ _ Hopen) as Hwf.
  assert (pool_ok (okMeta fs) (okBlock fs) any_size (response_ok <$> qs) (serve fs <$> qs) (Some newBlockCache)) as Hok.
  { split; [|split; [apply cache_ok_new|apply cache_wf_new]].
    apply Forall2_fmap_2, Forall_Forall2_diag. eapply Forall_impl; [exact Hqs|]. intros q Hq. cbn.
    eapply wp_okA_mono; [|exact (serve_safe fs Hwf q Hq)]. done. }
  split. { apply pool_reachable_ok with (1 := Hsteps) in Hok. apply Hok. }
  intros i q r Hq Hr. eapply pool_result; [exact Hok|exact Hsteps|exact Hr|].
  by rewrite list_lookup_fmap, Hq.
Qed.

(** C17: when the compressed blocks the requests refer to have one length per
    offset, answers never depend on the cache: a sequence of requests is
    answered as with no cache at all, and so is each call of any
    interleaving. *)
Theorem cache_transparent (rs : ReaderAt) (size : Z) (fs : FS) (W : Z -> Z -> Prop) (qs : list request) :
  SafeIOLaws -> Open rs size = Ok fs -> functional W -> Forall (names_ok W fs) qs ->
  fst (serve_all fs qs (Some newBlockCache)) = (fun q => uncached (serve fs q)) <$> qs /\
  forall ts c i q r, rtc pool_step (serve fs <$> qs, Some newBlockCache) (ts, c) ->
    qs !! i = Some q -> ts !! i = Some (Ret r) -> r = uncached (serve fs q).
Proof using.
  intros safeio Hopen HW Hqs. pose proof (Open_wf _ _ _ Hopen) as Hwf. split.
  - by apply (serve_all_uncached fs Hwf W HW qs _ Hqs (cache_ok_new _ _)).
  - intros ts c i q r. by apply serve_pool_uncached with (W := W).
Qed.

(** ** Reading files *)

Lemma serve_ReadFile fs path max out :
  uncached (serve fs (QReadFile path max)) = Ok (ABytes out) ->
  exists i, uncached (resolve fs path true) = Ok i /\ inode_wf i /\ isRegular i = true /\
    uncached (readFileLimit fs i max) = Ok out.
Proof using.
  cbn [serve]. rewrite uncached_bind. unfold FS_ReadFileLimit. rewrite uncached_bind.
  destruct (uncached (resolve fs path true)) as [i|] eqn:Hi; rstep; [|done].
  destruct (isRegular i) eqn:Hr; [|done]. cbn [negb].
  destruct (uncached (readFileLimit fs i max)) as [b|] eqn:Hb; rstep; [|done]. intros [= <-].
  exists i. splits; [done|by eapply resolve_wf|done|done].
Qed.

(** The two ways to read a file, with no cache. *)
Lemma ReadFile_ReadAt fs path max out plen off b e :
  SafeIOLaws -> sb_wf (fs_sb fs) -> 0 <= plen -> 0 <= off -> readAt_spec out plen off = (b, e) ->
  uncached (serve fs (QReadFile path max)) = Ok (ABytes out) ->
  uncached (serve fs (QReadAt path plen off)) = Ok (AReadAt b e).
Proof using.
  intros safeio Hwf Hp Ho Hspec (i & Hi & Hiwf & Hreg & Hrd)%serve_ReadFile.
  pose proof (readFileLimit_content fs Hwf i max _ Hiwf Hrd) as Hc.
  destruct (newFile_total fs Hwf i Hiwf (readFileLimit_reach _ _ _ _ Hrd)) as (f & Hf & Hof).
  cbn [serve]. rewrite uncached_bind. unfold FS_OpenFile. rewrite uncached_bind, Hi. rstep. rewrite Hreg.
  cbn [negb]. rewrite Hf. rstep. rewrite uncached_bind, (ReadAt_content fs Hwf i f out) by done. by rewrite Hspec.
Qed.

(** C16: reading a file whole and reading it piece by piece agree: every
    window ReadAt serves is the window of what ReadFile returns, with io.EOF
    exactly when it runs past the end.  On any image this holds of the two run
    without a cache; and of the two run on one handle, one after the other or
    apart, after whatever calls have filled its cache, when the compressed
    blocks that those calls and this file refer to have one length per offset. *)
Theorem ReadAt_matches_ReadFile (rs : ReaderAt) (size : Z) (fs : FS) path max out plen off :
  SafeIOLaws -> Open rs size = Ok fs -> 0 <= plen -> 0 <= off ->
  let '(b, e) := readAt_spec out plen off in
  (uncached (serve fs (QReadFile path max)) = Ok (ABytes out) ->
   uncached (serve fs (QReadAt path plen off)) = Ok (AReadAt b e)) /\
  (forall W qs ts c ts' c', functional W -> Forall (names_ok W fs) qs -> names_ok W fs (QReadFile path max) ->
     rtc pool_step (serve fs <$> qs, Some newBlockCache) (ts, c) ->
     rtc pool_step (serve fs <$> qs, Some newBlockCache) (ts', c') ->
     fst (exec (serve fs (QReadFile path max)) c) = Ok (ABytes out) ->
     fst (exec (serve fs (QReadAt path plen off)) c') = Ok (AReadAt b e)).
Proof using.
  intros safeio Hopen Hp Ho. pose proof (Open_wf _ _ _ Hopen) as Hwf.
  destruct (readAt_spec out plen off) as [b e] eqn:Hspec.
  split; [by eapply ReadFile_ReadAt|]. intros W qs ts c ts' c' HW Hqs Hn Hc Hc'.
  rewrite (serve_after_pool fs Hwf W HW qs Hqs ts c) by done.
  rewrite (serve_after_pool fs Hwf W HW qs Hqs ts' c' (QReadAt path plen off)) by done. by eapply ReadFile_ReadAt.
Qed.

(** C19: what ReadFile returns is the content the inode describes: as long as
    its size says, each block of it the decoded block at the running offset
    (zeros when the block is sparse), and the rest in the tail fragment.  On
    any image this holds of a run without a cache; and of one on a handle,
    after whatever calls have filled its cache, when the compressed blocks
    that those calls and this file refer to have one length per offset. *)
Theorem ReadFile_content (rs : ReaderAt) (size : Z) (fs : FS) path max out :
  SafeIOLaws -> Open rs size = Ok fs ->
  let content := exists i, uncached (resolve fs path true) = Ok i /\ isRegular i = true /\ FileContent fs i out in
  (uncached (serve fs (QReadFile path max)) = Ok (ABytes out) -> content) /\
  (forall W qs ts c, functional W -> Forall (names_ok W fs) qs -> names_ok W fs (QReadFile path max) ->
     rtc pool_step (serve fs <$> qs, Some newBlockCache) (ts, c) ->
     fst (exec (serve fs (QReadFile path max)) c) = Ok (ABytes out) -> content).
Proof using.
  intros safeio Hopen content. pose proof (Open_wf _ _ _ Hopen) as Hwf.
  assert (uncached (serve fs (QReadFile path max)) = Ok (ABytes out) -> content) as Hunc.
  { intros (i & Hi & Hiwf & Hreg & Hrd)%serve_ReadFile. exists i. splits; [done|done|].
    by apply (readFileLimit_content fs Hwf i max). }
  split; [done|]. intros W qs ts c HW Hqs Hn Hc. by rewrite (serve_after_pool fs Hwf W HW qs Hqs ts c).
Qed.

(** C29: which sizes a reader refuses.  A file that a path leads to has the
    block list its size asks for, so its size is within (blocks + 1) times the
    block size, with one exception: without a tail fragment and within a
    block of 2^64, the sum that rounds the size up wraps and the list is
    empty.  Exactly such a file is refused as corrupt for its size, read whole
    or opened; every other one can be opened, at its size, and read whole it is
    refused as too large when the caller's ceiling is below its size. *)
Theorem ReadFile_limits (rs : ReaderAt) (size : Z) (fs : FS) path max i :
  Open rs size = Ok fs -> uncached (resolve fs path true) = Ok i -> isRegular i = true ->
  let bs := sb_BlockSize (fs_sb fs) in
  let n := zlen (in_blockSizes i) in
  (in_fragIdx i = invalidFrag /\ 2 ^ 64 - bs < in_Size i /\ n = 0 /\
     uncached (FS_ReadFileLimit fs path max) = Err ErrCorrupt /\
     uncached (FS_OpenFile fs path) = Err ErrCorrupt) \/
  (in_Size i <= (n + 1) * bs /\
     (exists f, uncached (FS_OpenFile fs path) = Ok f /\ squashfsFile_Size f = in_Size i) /\
     (0 <= max < in_Size i -> uncached (FS_ReadFileLimit fs path max) = Err ErrTooLarge)).
Proof using.
  intros Hopen Hi Hr bs n. pose proof (Open_wf _ _ _ Hopen) as Hwf.
  pose proof (resolve_wf _ _ _ _ Hi) as Hiwf. pose proof (resolve_kind _ _ _ _ Hi) as Hk.
  destruct (file_reach fs Hwf i Hiwf Hk Hr) as [Hw Hn]. pose proof (maxBytes_exact fs Hwf i Hiwf) as Hmb.
  fold bs n in Hmb. unfold FS_ReadFileLimit, FS_OpenFile. rewrite !uncached_bind, Hi. rstep. rewrite Hr. cbn [negb].
  destruct (Z.le_gt_cases (in_Size i) (maxBytes fs i)) as [Hle|Hgt].
  - right. splits; [lia|..].
    + destruct (newFile_total fs Hwf i Hiwf Hle) as (f & Hf & Hof). exists f. split; [done|]. apply Hof.
    + intros Hmax. unfold readFileLimit. destruct (Z.ltb_spec (maxBytes fs i) (in_Size i)); [lia|].
      by rewrite (proj2 (Z.leb_le 0 max)), (proj2 (Z.ltb_lt max (in_Size i))) by lia.
  - left. destruct (file_blocks fs Hwf i Hiwf Hk Hr) as [Hf Hnf]. fold bs n in Hf, Hnf.
    assert (in_fragIdx i = invalidFrag) as E by (destruct (Z.eq_dec (in_fragIdx i) invalidFrag); [done|exfalso; lia]).
    assert (1 <= bs) by (unfold sb_wf in Hwf; unfold bs; lia).
    destruct (Hnf E) as [|[[_ Hbig] Hn0]]; [exfalso; nia|]. splits; [done|done|done|..].
    + unfold readFileLimit. by destruct (Z.ltb_spec (maxBytes fs i) (in_Size i)); [|lia].
    + unfold newFile. by destruct (Z.ltb_spec (maxBytes fs i) (in_Size i)); [|lia].
Qed.

(** ** Paths *)

(** C20: a path resolves to an inode exactly when [Resolves] derives it from
    the root: component by component through directory listings, links
    followed from the containing directory or the root, at most 40 deep. *)
Theorem resolve_spec (fs : FS) path ff res :
  uncached (resolve fs path ff) = Ok res <->
  exists root, uncached (readInode fs (sb_RootInode (fs_sb fs))) = Ok root /\
    Resolves fs 40 root (splitPath path) ff res.
Proof using. apply resolve_iff. Qed.

(** C27: resolution fails at the first component that cannot be taken: with
    ErrNotDirectory past what is not a directory, with the listing's error,
    and with ErrNotFound when no entry has the name. *)
Theorem resolve_errors (fs : FS) dirpath path d name rest ff :
  uncached (resolve fs dirpath true) = Ok d -> splitPath path = splitPath dirpath ++ name :: rest ->
  (isDir d = false -> uncached (resolve fs path ff) = Err ErrNotDirectory) /\
  (forall e, isDir d = true -> uncached (readDir fs d) = Err e -> uncached (resolve fs path ff) = Err e) /\
  (forall entries, isDir d = true -> uncached (readDir fs d) = Ok entries ->
     Forall (fun e => de_Name e <> name) entries -> uncached (resolve fs path ff) = Err ErrNotFound).
Proof using.
  intros Hd Hp. rewrite (resolve_prefix fs _ _ _ _ _ ff Hd Hp). cbn [walk]. splits.
  - by intros ->.
  - intros e -> He. cbn [negb]. by rewrite uncached_bind, He.
  - intros entries -> He Hnone. cbn [negb]. rewrite uncached_bind, He. rstep.
    by rewrite uncached_bind, findChild_none.
Qed.

(** A link whose target starts with its own name, and so never ends, is
    refused with ErrTooManyLinks, in whatever directory it lies. *)
Lemma self_link_refused (fs : FS) dirpath path d name rest more entries l ff :
  uncached (resolve fs dirpath true) = Ok d -> isDir d = true -> uncached (readDir fs d) = Ok entries ->
  child_named fs entries name l -> isSymlink l = true ->
  hasPrefixSlash (in_symlinkTarget l) = false -> splitPath (in_symlinkTarget l) = name :: more ->
  splitPath path = splitPath dirpath ++ name :: rest -> rest <> [] \/ ff = true ->
  uncached (resolve fs path ff) = Err ErrTooManyLinks.
Proof using.
  intros Hd Hdir He Hc Hs Hp Ht Hpath Hl. rewrite (resolve_prefix fs _ _ _ _ _ ff Hd Hpath).
  eapply walk_self_link; eauto. eapply resolveFrom_self_link; eauto. unfold maxSymlinkHops. lia.
Qed.

(** C38: the hop limit bounds how deep links nest, not how many a lookup
    follows: a path that ends in any number of links to "." resolves to the
    directory they lie in. *)
Theorem dot_links_resolve (fs : FS) dirpath path d name n entries l :
  uncached (resolve fs dirpath true) = Ok d -> isDir d = true -> uncached (readDir fs d) = Ok entries ->
  child_named fs entries name l -> isSymlink l = true -> in_symlinkTarget l = [dot] ->
  splitPath path = splitPath dirpath ++ replicate (S n) name ->
  uncached (resolve fs path true) = Ok d.
Proof using.
  intros Hd Hdir He Hc Hs Ht Hpath. rewrite (resolve_prefix fs _ _ _ _ _ true Hd Hpath).
  change (name :: replicate n name) with (replicate (S n) name).
  apply (walk_dot_links fs (S n) 40 0 d name entries l); try done. lia.
Qed.

End reader.

(** ** The theorems at the example image *)

Import ToyInstances.

Definition exRequests : list request :=
  [QReadFile (B "/f") 100; QListDir (B "d"); QReadAt (B "f") 30 7; QStat (B "/d/here/abs");
   QReadLink (B "d/up"); QXattrs (B "/"); QReadFile (B "/d/self") 5; QMutate (DeleteFile (B "f"))].

Lemma exRequests_ok : Forall request_ok exRequests.
Proof. repeat constructor. all: cbn; lia. Qed.

Lemma requests_safe_witness :
  Forall2 response_ok exRequests (fst (serve_all exFS exRequests (Some newBlockCache))).
Proof.
  exact (requests_safe (bytes_Reader exImg) (zlen exImg) exFS exRequests toyCodecLaws toySafeIOLaws exFS_open
    exRequests_ok).
Defined.

Lemma request_allocations_witness :
  wp (okMeta exFS) (okBlock exFS) (alloc_bound exFS (QReadFile (B "f") 100)) (serve exFS (QReadFile (B "f") 100))
    (response_ok (QReadFile (B "f") 100)).
Proof.
  exact (request_allocations (bytes_Reader exImg) (zlen exImg) exFS (QReadFile (B "f") 100)
    toyCodecLaws toySafeIOLaws exFS_open I).
Defined.

(** Two reads of one file, taking turns. *)
Definition exPool : list request := [QReadFile (B "f") 100; QReadAt (B "f") 8 4].
Definition exRun : list (prog response) * option blockCache :=
  run_schedule (mjoin (replicate 40 [0%nat; 1%nat])) (serve exFS <$> exPool, Some newBlockCache).

Lemma exPool_ok : Forall request_ok exPool.
Proof. repeat constructor; cbn; lia. Qed.

Lemma exRun_steps : rtc pool_step (serve exFS <$> exPool, Some newBlockCache) (fst exRun, snd exRun).
Proof. rewrite <- surjective_pairing. apply run_schedule_steps. Qed.

Lemma concurrent_safe_witness :
  fst exRun = [Ret (Ok (ABytes exData)); Ret (Ok (AReadAt (replicate 8 Byte.x07) None))] /\
  (cache_wf_opt (snd exRun) /\
   forall i q r, exPool !! i = Some q -> fst exRun !! i = Some (Ret r) -> response_ok q r).
Proof.
  split; [vm_compute; reflexivity|].
  exact (concurrent_safe (bytes_Reader exImg) (zlen exImg) exFS exPool (fst exRun) (snd exRun)
    toyCodecLaws toySafeIOLaws exFS_open exPool_ok exRun_steps).
Defined.

(** The one data block of the example, a fragment of 5 bytes at offset 96. *)
Definition exKnown (off n : Z) : Prop := off = 96 /\ n = 5.

Lemma exKnown_functional : functional exKnown.
Proof. by intros off n n' [_ ->] [_ ->]. Qed.

Lemma exPool_names : Forall (names_ok exKnown exFS) exPool.
Proof.
  assert (forall i, uncached (resolve exFS (B "f") true) = Ok i -> isRegular i = true -> agrees_file exKnown exFS i) as Hf.
  { intros i Hi _. vm_compute in Hi. apply Ok_inj in Hi as <-. split; [exact I|].
    intros fe _ Hfe. vm_compute in Hfe. apply Ok_inj in Hfe as <-.
    intros n Hn _. vm_compute in Hn. injection Hn as <-. by vm_compute. }
  constructor; [exact Hf|]. constructor; [exact Hf|constructor].
Qed.

Lemma cache_transparent_witness :
  fst (serve_all exFS exPool (Some newBlockCache)) = (fun q => uncached (serve exFS q)) <$> exPool /\
  forall ts c i q r, rtc pool_step (serve exFS <$> exPool, Some newBlockCache) (ts, c) ->
    exPool !! i = Some q -> ts !! i = Some (Ret r) -> r = uncached (serve exFS q).
Proof.
  exact (cache_transparent (bytes_Reader exImg) (zlen exImg) exFS exKnown exPool toySafeIOLaws exFS_open
    exKnown_functional exPool_names).
Defined.

Lemma exRead : uncached (serve exFS (QReadFile (B "/d/abs") 100)) = Ok (ABytes exData).
Proof. vm_compute. reflexivity. Qed.

(** Without a cache, through a link; and on a handle, out of the cache that two
    interleaved reads have filled. *)
Lemma ReadAt_matches_ReadFile_witness :
  uncached (serve exFS (QReadAt (B "/d/abs") 9 15)) = Ok (AReadAt (replicate 5 Byte.x07) (Some ErrEOF)) /\
  fst (exec (serve exFS (QReadAt (B "f") 9 15)) (snd exRun)) = Ok (AReadAt (replicate 5 Byte.x07) (Some ErrEOF)).
Proof.
  split.
  - exact (proj1 (ReadAt_matches_ReadFile (bytes_Reader exImg) (zlen exImg) exFS (B "/d/abs") 100 exData 9 15
      toySafeIOLaws exFS_open ltac:(lia) ltac:(lia)) exRead).
  - refine (proj2 (ReadAt_matches_ReadFile (bytes_Reader exImg) (zlen exImg) exFS (B "f") 100 exData 9 15
      toySafeIOLaws exFS_open ltac:(lia) ltac:(lia)) exKnown exPool _ _ _ _
      exKnown_functional exPool_names (Forall_inv exPool_names) exRun_steps exRun_steps _).
    vm_compute. reflexivity.
Defined.

Lemma ReadFile_content_witness :
  (exists i, uncached (resolve exFS (B "/d/abs") true) = Ok i /\ isRegular i = true /\ FileContent exFS i exData) /\
  (exists i, uncached (resolve exFS (B "f") true) = Ok i /\ isRegular i = true /\ FileContent exFS i exData).
Proof.
  split.
  - exact (proj1 (ReadFile_content (bytes_Reader exImg) (zlen exImg) exFS (B "/d/abs") 100 exData
      toySafeIOLaws exFS_open) exRead).
  - refine (proj2 (ReadFile_content (bytes_Reader exImg) (zlen exImg) exFS (B "f") 100 exData
      toySafeIOLaws exFS_open) exKnown exPool _ _ exKnown_functional exPool_names (Forall_inv exPool_names) exRun_steps _).
    vm_compute. reflexivity.
Defined.

(** "/f" is 20 bytes, with a tail fragment. *)
Lemma ReadFile_limits_witness :
  (exists f, uncached (FS_OpenFile exFS (B "f")) = Ok f /\ squashfsFile_Size f = 20) /\
  uncached (FS_ReadFileLimit exFS (B "f") 19) = Err ErrTooLarge.
Proof.
  destruct (ReadFile_limits (bytes_Reader exImg) (zlen exImg) exFS (B "f") 19 (exInode "f") exFS_open
    ltac:(vm_compute; reflexivity) ltac:(vm_compute; reflexivity)) as [(_ & Hbig & _)|(_ & Hopen & Hlarge)].
  { vm_compute in Hbig. discriminate Hbig. }
  split; [exact Hopen|]. apply Hlarge. vm_compute. split; [discriminate|reflexivity].
Defined.

(** The directory "/d", its entries and its links. *)
Definition exD : inode := match uncached (resolve exFS (B "/d") true) with Ok i => i | Err _ => inodeOfHeader [] end.
Definition exEntries : list dirEntry := match uncached (readDir exFS exD) with Ok es => es | Err _ => [] end.
Definition exLinkInode (path : string) : inode :=
  match uncached (resolve exFS (B path) false) with Ok i => i | Err _ => inodeOfHeader [] end.

Lemma exD_resolves : uncached (resolve exFS (B "/d") true) = Ok exD.
Proof. vm_compute. reflexivity. Qed.
Lemma exD_listing : uncached (readDir exFS exD) = Ok exEntries.
Proof. vm_compute. reflexivity. Qed.
Lemma exSelf : child_named exFS exEntries (B "self") (exLinkInode "/d/self").
Proof. apply findChild_spec. vm_compute. reflexivity. Qed.
Lemma exHere : child_named exFS exEntries (B "here") (exLinkInode "/d/here").
Proof. apply findChild_spec. vm_compute. reflexivity. Qed.
Lemma exNoF : Forall (fun e => de_Name e <> B "f") exEntries.
Proof. apply (bool_decide_unpack _). vm_compute. exact I. Qed.

(** "../f" in "/d": no entry is named ".."; and "f" is not in "/d". *)
Lemma resolve_errors_witness : uncached (resolve exFS (B "/d/f/x") true) = Err ErrNotFound.
Proof.
  exact (proj2 (proj2 (resolve_errors exFS (B "/d") (B "/d/f/x") exD (B "f") [B "x"] true exD_resolves eq_refl))
    exEntries eq_refl exD_listing exNoF).
Defined.

Lemma exD_dir : isDir exD = true.
Proof. vm_compute. reflexivity. Qed.
Lemma exSelf_link : isSymlink (exLinkInode "/d/self") = true /\ in_symlinkTarget (exLinkInode "/d/self") = B "self".
Proof. vm_compute. done. Qed.
Lemma exHere_link : isSymlink (exLinkInode "/d/here") = true /\ in_symlinkTarget (exLinkInode "/d/here") = [dot].
Proof. vm_compute. done. Qed.

Lemma self_link_refused_witness : uncached (resolve exFS (B "/d/self/x") false) = Err ErrTooManyLinks.
Proof.
  apply (self_link_refused exFS (B "/d") (B "/d/self/x") exD (B "self") [B "x"] [] exEntries
    (exLinkInode "/d/self") false exD_resolves exD_dir exD_listing exSelf (proj1 exSelf_link)).
  - by rewrite (proj2 exSelf_link).
  - by rewrite (proj2 exSelf_link).
  - reflexivity.
  - by left.
Defined.

Lemma dot_links_resolve_witness : uncached (resolve exFS (B "/d/here/here/here") true) = Ok exD.
Proof.
  apply (dot_links_resolve exFS (B "/d") (B "/d/here/here/here") exD (B "here") 2 exEntries
    (exLinkInode "/d/here") exD_resolves exD_dir exD_listing exHere (proj1 exHere_link) (proj2 exHere_link)).
  reflexivity.
Defined.
