(* ===== verification/HandleTheorems.v ===== *)
(** * Theorems about handles and files in use

    A reader that fails never makes a call answer wrongly, nor spoils the
    cache for the calls to come; and the calls on one open file, Close among
    them, behave as if each took place at the moment it began. *)

From S2P Require Export Faults FileCalls ReaderTheorems.
From Stdlib Require Import String.

#[local] Open Scope Z_scope.

Section handles.
Context `{CodecLib} `{SafeIO} `{FsInterface}.

(** C10: when the reader under the handle fails, whichever of its reads fail,
    no call answers wrongly, where the compressed blocks that the calls refer
    to have one length per offset ([functional W], [names_ok]; without it an
    answer depends on the cache even over a sound reader): calls at the same
    time, each over a reader that reads what the image holds or fails with an
    error of its own, answer what the image answers, or return that error; a
    ReadAt may deliver the first bytes of its answer with it.  And what they
    leave in the cache is true: every later such call over the sound reader
    answers as with no cache. *)
Theorem reader_faults (rs : ReaderAt) (size : Z) (fs : FS) (W : Z -> Z -> Prop) (fcs : list faulty_call) ts c :
  SafeIOLaws -> Open rs size = Ok fs -> functional W -> Forall (faulty_ok fs W) fcs ->
  rtc pool_step (serve_faulty fs <$> fcs, Some newBlockCache) (ts, c) ->
  (forall i fc r, fcs !! i = Some fc -> ts !! i = Some (Ret r) ->
     let r0 := uncached (serve fs (fc_request fc)) in
     r = r0 \/
     exists e, fc_errs fc e /\
       (r = Err e \/
        exists b, r = Ok (AReadAt b (Some e)) /\ forall b0 x, r0 = Ok (AReadAt b0 x) -> b `prefix_of` b0)) /\
  (forall q, names_ok W fs q -> fst (exec (serve fs q) c) = uncached (serve fs q)).
Proof using.
  intros safeio Hopen HW Hfcs Hsteps. pose proof (Open_wf _ _ _ Hopen) as Hwf.
  destruct (serve_faulty_pool fs Hwf W HW fcs ts c Hfcs Hsteps) as [Hr Hc]. split; [exact Hr|].
  intros q Hq. by apply (transparent_exec _ _ _ _ c (serve_transparent fs Hwf W HW q Hq) Hc).
Qed.

(** C25: concurrent calls always finish, whatever the image holds and
    whichever reads of it fail.  No interleaving goes on for ever, and one
    that cannot go on has returned from every call: without a panic, without
    having cut a loop short (no loop of a call needs more iterations than
    its fuel, computed from its input), and with an answer within the bounds
    of its request or the error of its reader. *)
Theorem concurrent_terminates (rs : ReaderAt) (size : Z) (fs : FS) (fcs : list faulty_call) :
  CodecLaws -> SafeIOLaws -> Open rs size = Ok fs ->
  Forall (fun fc => fault_ok fs fc /\ request_ok (fc_request fc)) fcs ->
  Acc (flip pool_step) (serve_faulty fs <$> fcs, Some newBlockCache) /\
  forall ts c, rtc pool_step (serve_faulty fs <$> fcs, Some newBlockCache) (ts, c) ->
    (forall cfg, ~ pool_step (ts, c) cfg) ->
    Forall2 (fun fc p => exists r, p = Ret r /\ r <> Err Panic /\ r <> Err OutOfFuel /\
      (response_ok (fc_request fc) r \/
       exists e, fc_errs fc e /\ (r = Err e \/ exists b, r = Ok (AReadAt b (Some e))))) fcs ts.
Proof using.
  intros laws safeio Hopen Hfcs. pose proof (Open_wf _ _ _ Hopen) as Hwf. split; [apply pool_terminates|].
  intros ts c Hsteps Hstuck.
  assert (pool_ok (okMeta fs) (okBlock fs) any_size (faulty_bounded <$> fcs) (serve_faulty fs <$> fcs) (Some newBlockCache)) as Hok.
  { split; [|split; [apply cache_ok_new|apply cache_wf_new]].
    apply Forall2_fmap_2, Forall_Forall2_diag. eapply Forall_impl; [exact Hfcs|].
    intros fc [Hf Hq]. by apply serve_faulty_safe. }
  destruct (pool_reachable_ok _ _ _ _ _ _ Hsteps Hok) as (Hts & _). cbn [fst] in Hts.
  rewrite Forall2_fmap_r in Hts. apply pool_progress in Hstuck.
  apply Forall2_same_length_lookup_2; [symmetry; by eapply Forall2_length|]. intros i fc p Hfc Hp.
  destruct (Forall_lookup_1 _ _ _ _ Hstuck Hp) as [r ->]. exists r. split; [done|].
  by destruct (Forall2_lookup_lr _ _ _ _ _ _ Hts Hp Hfc) as [[] Hb].
Qed.

Lemma opened_file rs size fs path max out f :
  SafeIOLaws -> Open rs size = Ok fs ->
  uncached (serve fs (QReadFile path max)) = Ok (ABytes out) -> uncached (FS_OpenFile fs path) = Ok f ->
  exists i, uncached (resolve fs path true) = Ok i /\ isRegular i = true /\ inode_wf i /\ file_of fs i f /\
    FileContent fs i out.
Proof using.
  intros safeio Hopen (i & Hi & Hiwf & Hreg & Hrd)%serve_ReadFile. pose proof (Open_wf _ _ _ Hopen) as Hwf.
  unfold FS_OpenFile. rewrite uncached_bind, Hi. rstep. rewrite Hreg. cbn [negb]. intros Hf.
  exists i. split_and!; [done..|by apply newFile_ok|]. by apply (readFileLimit_content fs Hwf i max).
Qed.

(** C15: calls on one open file whose compressed blocks, with those the other
    calls refer to, have one length per offset, and which ReadFile of its path
    reads as [out].  The file is closed exactly when a Close has begun.
    Whatever the interleaving with each other and with calls on the handle,
    what a call gives is what it gives run alone on the file as it was when
    the call began: a ReadAt that begins after a Close has begun fails with
    os.ErrClosed and delivers nothing, and one that began before is not
    disturbed by it and delivers its window of [out]. *)
Theorem file_calls_atomic (rs : ReaderAt) (size : Z) (fs : FS) (W : Z -> Z -> Prop) path max out f qs s :
  SafeIOLaws -> Open rs size = Ok fs -> functional W -> names_ok W fs (QReadAt path 0 0) ->
  uncached (serve fs (QReadFile path max)) = Ok (ABytes out) -> uncached (FS_OpenFile fs path) = Ok f ->
  Forall (call_ok fs W) qs -> rtc file_step (file_start f qs (Some newBlockCache)) s ->
  (st_file s = f /\ ~ close_begun qs s \/ st_file s = squashfsFile_Close f /\ close_begun qs s) /\
  (forall s' i q r, rtc file_step s s' -> qs !! i = Some q -> st_callers s' !! i = Some (Running (Ret r)) ->
     (r = at_once f q \/ r = at_once (squashfsFile_Close f) q) /\
     (st_callers s !! i = Some (Waiting q) -> st_file s = squashfsFile_Close f ->
        r = at_once (squashfsFile_Close f) q) /\
     (forall p, st_callers s !! i = Some (Running p) -> st_file s = f -> r = at_once f q)) /\
  (forall plen off, 0 <= plen -> 0 <= off ->
     at_once f (CReadAt plen off) = (let '(b, e) := readAt_spec out plen off in Ok (FRead b e)) /\
     at_once (squashfsFile_Close f) (CReadAt plen off) = Ok (FRead [] (Some ErrClosed))).
Proof using.
  intros safeio Hopen HW Hnames Hread Hopened Hqs Hsteps. pose proof (Open_wf _ _ _ Hopen) as Hwf.
  destruct (opened_file _ _ _ _ _ _ _ safeio Hopen Hread Hopened) as (i & Hi & Hreg & Hiwf & Hf & Hc).
  pose proof (Hnames i Hi Hreg) as Hag. assert (f_closed f = false) as Hfc by apply Hf.
  assert (forall b, file_at f b = f -> b = false) as Hopen'.
  { intros [] E; [|done]. rewrite <- E in Hfc. done. }
  pose proof (begun_reachable _ _ _ Hsteps (begun_start f qs (Some newBlockCache) Hfc)) as Hbegun.
  destruct (file_reached fs Hwf W HW i f Hiwf Hf Hag qs s Hqs Hsteps) as [b Hok].
  pose proof (file_closed fs W i f Hf qs b s Hok Hbegun) as Hiff. pose proof Hok as (Hfile & Hts & _). splits.
  - rewrite Hfile. destruct b; [right; split; [done|by apply Hiff]|left; split; [done|]].
    intros Hcb. by apply Hiff in Hcb.
  - intros s' k q r Hlater Hq Hr. splits.
    + destruct (file_reached fs Hwf W HW i f Hiwf Hf Hag qs s' Hqs) as [b' Hok']; [by etrans|].
      assert ((answers f <$> qs) !! k = Some (answers f q)) as HQ by (by rewrite list_lookup_fmap, Hq).
      destruct (state_result _ _ _ _ _ _ _ _ _ _ Hok' HQ Hr) as [[-> _]|[_ ->]]; auto.
    + intros Hw Hcl. apply (file_later fs W f qs s s' b k (fun r => r = at_once (squashfsFile_Close f) q) r (Waiting q) Hok Hw); [|done|done].
      assert (call_ok fs W q) as Hcq by (rewrite Forall_lookup in Hqs; eauto).
      intros b' Hb'. assert (b' = true) as ->.
      { apply Hb'. destruct b; [done|]. rewrite Hfile in Hcl. cbn in Hcl. rewrite Hcl in Hfc. done. }
      by apply (begin_at_once fs Hwf W HW i f Hiwf Hf Hag true q Hcq).
    + intros p Hp Hopn. rewrite Hfile in Hopn. apply Hopen' in Hopn as ->.
      apply (file_later fs W f qs s s' false k (fun r => r = at_once f q) r (Running p) Hok Hp); [|done|done].
      assert ((answers f <$> qs) !! k = Some (answers f q)) as HQ by (by rewrite list_lookup_fmap, Hq).
      pose proof (Forall2_lookup_lr _ _ _ _ _ _ Hts HQ Hp) as Hwp. cbn in Hwp |- *.
      eapply wp_mono; [|exact Hwp]. intros r' [[-> _]|[? _]]; done.
  - intros plen off Hp Ho. split; [|done]. unfold at_once. cbn [begin fst].
    rewrite uncached_bind, (ReadAt_content fs Hwf i f out) by done. rstep. by destruct (readAt_spec _ _ _).
Qed.

End handles.

(** ** Instances *)

Import ToyInstances.

(** The example image on a disk whose sector at 96, the data, is bad. *)
Definition bad_ReadAt (off : Z) (n : nat) : result (list byte) :=
  if off =? 96 then Err ErrIO else bytes_ReadAt exImg off n.

Lemma bad_ReadAt_len off n b : bad_ReadAt off n = Ok b -> List.length b = n.
Proof. unfold bad_ReadAt. destruct (_ =? _); [done|]. apply bytes_ReadAt_len. Qed.

Lemma bad_ReadAt_sane off n : sane (bad_ReadAt off n).
Proof. unfold bad_ReadAt. destruct (_ =? _); [done|]. apply bytes_ReadAt_sane. Qed.

Definition bad_Reader : ReaderAt :=
  {| ReadAt := bad_ReadAt; ReadAt_len := bad_ReadAt_len; ReadAt_sane := bad_ReadAt_sane |}.

Definition exFaulty : list faulty_call :=
  mkFaulty (fun e => e = ErrIO) bad_Reader <$> [QReadFile (B "f") 100; QReadAt (B "f") 8 4].

Lemma exFaulty_ok : Forall (faulty_ok exFS exKnown) exFaulty.
Proof.
  pose proof exPool_names as Hn. apply Forall_cons in Hn as [Hn1 Hn2]. apply Forall_cons in Hn2 as [Hn2 _].
  assert (reads_as (fun e => e = ErrIO) bad_Reader (fs_rs exFS)) as Hrs.
  { intros off n _. change (fs_rs exFS) with (bytes_Reader exImg). cbn [bad_Reader ReadAt bytes_Reader].
    unfold bad_ReadAt. destruct (_ =? _); [right; by exists ErrIO|by left]. }
  constructor; [split_and!; [by intros e ->|exact Hrs|exact Hn1]|].
  constructor; [split_and!; [by intros e ->|exact Hrs|exact Hn2]|constructor].
Qed.

Definition exFaultyRun : list (prog response) * option blockCache :=
  run_schedule (mjoin (replicate 40 [0%nat; 1%nat])) (serve_faulty exFS <$> exFaulty, Some newBlockCache).

Lemma exFaultyRun_steps :
  rtc pool_step (serve_faulty exFS <$> exFaulty, Some newBlockCache) (fst exFaultyRun, snd exFaultyRun).
Proof. rewrite <- surjective_pairing. apply run_schedule_steps. Qed.

(** The bad sector fails both reads; on the sound disk the file then reads. *)
Lemma reader_faults_witness :
  fst exFaultyRun = [Ret (Err ErrIO); Ret (Ok (AReadAt [] (Some ErrIO)))] /\
  fst (exec (serve exFS (QReadFile (B "f") 100)) (snd exFaultyRun)) = Ok (ABytes exData).
Proof.
  split; [vm_compute; reflexivity|].
  transitivity (uncached (serve exFS (QReadFile (B "f") 100))); [|vm_compute; reflexivity].
  apply (proj2 (reader_faults (bytes_Reader exImg) (zlen exImg) exFS exKnown exFaulty (fst exFaultyRun) (snd exFaultyRun)
    toySafeIOLaws exFS_open exKnown_functional exFaulty_ok exFaultyRun_steps) (QReadFile (B "f") 100)).
  exact (Forall_inv exPool_names).
Defined.

(** The same two calls: however they take turns they finish, and the run above
    shows how. *)
Lemma exFaulty_safe : Forall (fun fc => fault_ok exFS fc /\ request_ok (fc_request fc)) exFaulty.
Proof.
  pose proof exFaulty_ok as Hf. apply Forall_cons in Hf as [(H1 & H2 & _) Hf]. apply Forall_cons in Hf as [(H3 & H4 & _) _].
  constructor; [split; [exact (conj H1 H2)|exact I]|]. constructor; [|constructor]. split; [exact (conj H3 H4)|]. cbn. lia.
Qed.

Lemma exFaultyRun_stuck cfg : ~ pool_step (fst exFaultyRun, snd exFaultyRun) cfg.
Proof.
  assert (fst exFaultyRun = [Ret (Err ErrIO); Ret (Ok (AReadAt [] (Some ErrIO)))]) as -> by (vm_compute; reflexivity).
  generalize (snd exFaultyRun). intros c Hs. inversion Hs as [? ? i p p' ? Hi Hp]; subst.
  destruct i as [|[|i]]; cbn in Hi; [injection Hi as <-; discriminate Hp..|discriminate Hi].
Qed.

Lemma concurrent_terminates_witness :
  Acc (flip pool_step) (serve_faulty exFS <$> exFaulty, Some newBlockCache) /\
  Forall2 (fun fc p => exists r, p = Ret r /\ r <> Err Panic /\ r <> Err OutOfFuel /\
    (response_ok (fc_request fc) r \/
     exists e, fc_errs fc e /\ (r = Err e \/ exists b, r = Ok (AReadAt b (Some e))))) exFaulty (fst exFaultyRun).
Proof.
  destruct (concurrent_terminates (bytes_Reader exImg) (zlen exImg) exFS exFaulty toyCodecLaws toySafeIOLaws exFS_open
    exFaulty_safe) as [Hacc Hend].
  split; [exact Hacc|]. exact (Hend _ _ exFaultyRun_steps exFaultyRun_stuck).
Defined.

(** Two reads of "/f" and a Close between their beginnings. *)
Definition exFile : squashfsFile :=
  match uncached (FS_OpenFile exFS (B "f")) with Ok f => f | Err _ => mkFile exFS [] [] 0 0 0 1 false end.
Definition exCalls : list fileCall := [CReadAt 8 4; CClose; CReadAt 8 4; CServe (QReadAt (B "f") 8 4)].
Definition exClosed : fileState := run_files [0%nat; 1%nat] (file_start exFile exCalls (Some newBlockCache)).
Definition exDone : fileState := run_files (mjoin (replicate 40 [2%nat; 0%nat; 3%nat])) exClosed.

Lemma exCalls_ok : Forall (call_ok exFS exKnown) exCalls.
Proof.
  pose proof exPool_names as Hn. apply Forall_cons in Hn as [_ Hn]. apply Forall_cons in Hn as [Hn _].
  do 3 (constructor; [exact I|]). constructor; [exact Hn|constructor].
Qed.

Lemma exFile_open : uncached (FS_OpenFile exFS (B "f")) = Ok exFile.
Proof. vm_compute. reflexivity. Qed.

Lemma exFile_read : uncached (serve exFS (QReadFile (B "f") 100)) = Ok (ABytes exData).
Proof. vm_compute. reflexivity. Qed.

Lemma exFile_names : names_ok exKnown exFS (QReadAt (B "f") 0 0).
Proof. exact (Forall_inv exPool_names). Qed.

(** The read that had begun delivers; the one that had not is refused. *)
Lemma file_calls_atomic_witness :
  close_begun exCalls exClosed /\
  st_callers exDone =
    [Running (Ret (Ok (FRead (replicate 8 Byte.x07) None))); Running (Ret (Ok FClosed));
     Running (Ret (Ok (FRead [] (Some ErrClosed)))); Running (Ret (Ok (FServed (AReadAt (replicate 8 Byte.x07) None))))] /\
  forall r, st_callers exDone !! 2%nat = Some (Running (Ret r)) -> r = Ok (FRead [] (Some ErrClosed)).
Proof.
  destruct (file_calls_atomic (bytes_Reader exImg) (zlen exImg) exFS exKnown (B "f") 100 exData exFile exCalls exClosed
    toySafeIOLaws exFS_open exKnown_functional exFile_names exFile_read exFile_open exCalls_ok (run_files_steps _ _))
    as (Hfile & Hcalls & Hgive).
  assert (st_file exClosed = squashfsFile_Close exFile) as Hclosed by (vm_compute; reflexivity).
  split; [|split; [vm_compute; reflexivity|]].
  - destruct Hfile as [[E _]|[_ Hbegun]]; [|exact Hbegun].
    rewrite Hclosed in E. apply (f_equal f_closed) in E. vm_compute in E. discriminate E.
  - intros r Hr.
    destruct (Hcalls exDone 2%nat (CReadAt 8 4) r (run_files_steps _ _) eq_refl Hr) as (_ & Hlate & _).
    rewrite Hlate; [|vm_compute; reflexivity|exact Hclosed].
    exact (proj2 (Hgive 8 4 ltac:(lia) ltac:(lia))).
Defined.
