(* ===== verification/HostTheorems.v ===== *)
(** * Theorems about building from and opening on the host

    The scan returns what the host shows; a directory built into an image and
    opened from the file reads back; nothing is written unless all of it could
    be read; and no file is left open by a failed open.  The instances run on
    a host in memory. *)

From S2P Require Export HostTree WriterTheorems ReaderTheorems.
From Stdlib Require Import String.

#[local] Open Scope Z_scope.

Section host.
Context `{HostOS}.

(** The fuel decides only whether the scan returns. *)
Lemma scanDir_fuel fuel fuel' h dir root root' :
  scanDir fuel h dir = Ok root -> scanDir fuel' h dir = Ok root' -> root = root'.
Proof using.
  intros (t & Ht & Hn & Hh)%scanDir_sound (t' & Ht' & Hn' & Hh')%scanDir_sound.
  pose proof (scanDir_complete h (Nat.max fuel fuel') dir t root Ht Hn ltac:(lia)) as E.
  pose proof (scanDir_complete h (Nat.max fuel fuel') dir t' root' Ht' Hn' ltac:(lia)). congruence.
Qed.

(** C11: scanning a directory returns the tree the host shows below it: given
    fuel for its height, the scan returns the node of what the host shows
    (devices, pipes and sockets left out), and whatever a scan returns is
    such a node; so it fails when any entry cannot be read. *)
Theorem scanDir_spec (h : host) (dir : list byte) :
  (forall t root fuel, shows_root h dir t -> node_of [] t = Some root -> (height t <= S fuel)%nat ->
     scanDir fuel h dir = Ok root) /\
  (forall fuel root, scanDir fuel h dir = Ok root ->
     exists t, shows_root h dir t /\ node_of [] t = Some root /\ (height t <= S fuel)%nat).
Proof using. split; [intros; by eapply scanDir_complete|intros fuel root; apply scanDir_sound]. Qed.

(** C12: OpenFile opens exactly one file, which the handle closes, or leaves
    none open: on every error the open files are those from before, whichever
    step failed; after an open, Close gives them back, and a second Close
    reports os.ErrClosed and changes nothing. *)
Theorem OpenFile_files (h : host) path h' r :
  HostLaws -> OpenFile h path = (h', r) ->
  sane r /\
  match r with
  | Err _ => os_files h' = os_files h
  | Ok fs =>
      sb_wf (FS_Superblock fs) /\
      (exists f, h_closer fs = Some f /\ f ∉ os_files h /\ os_files h' = {[f]} ∪ os_files h) /\
      let '(h2, _) := FS_Close h' fs in os_files h2 = os_files h /\ FS_Close h2 fs = (h2, Some ErrClosed)
  end.
Proof using.
  intros laws Ho. pose proof (OpenFile_sane h path) as Hs. rewrite Ho in Hs. split; [done|].
  destruct r as [fs|]; [|by eapply OpenFile_fails].
  destruct (OpenFile_inv _ _ _ _ Ho) as (f & size & Hf & _ & Hopen & Hc).
  pose proof (os_Open_files _ _ _ _ Hf) as [Hnew Hfs]. pose proof (close_opened _ _ _ _ Hf) as Hcl.
  splits; [by eapply Open_wf|by exists f|]. unfold FS_Close. rewrite Hc.
  destruct (os_Close h' f) as [h2 e] eqn:E. cbn in Hcl. split; [done|]. apply os_Close_closed. by rewrite Hcl.
Qed.


Section build.
Context `{CodecLib} `{EncoderLib} `{SafeIO} `{FsInterface}.

(** C28: BuildFromDir writes the image file only once the whole directory is
    read and laid out: either it fails and the host is untouched, or what it
    writes, with mode 0644, is the image of exactly the tree the host shows. *)
Theorem BuildFromDir_writes fuel (h : host) imgPath srcDir opts h' r :
  BuildFromDir fuel h imgPath srcDir opts = (h', r) ->
  (h' = h /\ r <> None) \/
  exists t root img, shows_root h srcDir t /\ node_of [] t = Some root /\ buildImage root opts = Ok img /\
    os_WriteFile h imgPath img imageMode = (h', r).
Proof using.
  unfold BuildFromDir. destruct (scanDir fuel h srcDir) as [root|e] eqn:Hs; [|intros [= <- <-]; by left].
  destruct (buildImage root opts) as [img|e] eqn:Hb; [|intros [= <- <-]; by left]. intros Hw. right.
  apply scanDir_sound in Hs as (t & Ht & Hn & _). by exists t, root, img.
Qed.

Lemma built_from_dir fuel (h : host) imgPath srcDir opts t root h1 h2 fs :
  HostLaws -> CodecLaws -> EncoderLaws -> SafeIOLaws ->
  shows_root h srcDir t -> node_of [] t = Some root -> node_ok root ->
  BuildFromDir fuel h imgPath srcDir opts = (h1, None) ->
  OpenFile h1 imgPath = (h2, Ok fs) -> fs_size (h_fs fs) < 2 ^ 32 ->
  exists img fs0 rs, built root opts img fs0 /\ h_fs fs = with_reader rs fs0 /\ same_reads rs (fs_rs fs0).
Proof using.
  intros ? ? enclaws safeio Ht Hn Hok. unfold BuildFromDir.
  destruct (scanDir fuel h srcDir) as [root'|] eqn:Hs; [|done].
  pose proof (scanDir_complete h (height t) srcDir t root Ht Hn ltac:(lia)) as Hs'.
  rewrite (scanDir_fuel _ _ _ _ _ _ Hs Hs'). clear root' Hs Hs'.
  destruct (buildImage root opts) as [img|] eqn:Hb; [|done]. intros Hw Ho Hsize.
  destruct (OpenFile_inv _ _ _ _ Ho) as (f & size & Hf & Hsz & Hopen & _).
  destruct (os_WriteFile_Open _ _ _ _ _ _ _ Hw Hf) as [Hsz' Hrd]. rewrite Hsz in Hsz'. apply Ok_inj in Hsz' as ->.
  pose proof (Open_inv _ _ _ Hopen) as (_ & _ & _ & Hfs). rewrite Hfs in Hsize.
  destruct (built_image root opts img Hok Hb Hsize) as (im & W & Hopen0 & _).
  destruct (Open_reads (fun _ => False) _ _ _ _ (same_reads_as _ _ _ Hrd) Hopen0) as [Hsame|(e & [] & _)].
  rewrite Hopen in Hsame. apply Ok_inj in Hsame.
  exists img, (im_fs im), (os_File h2 f). split_and!; [by split|done|].
  by destruct (Open_inv _ _ _ Hopen0) as (_ & _ & -> & _).
Qed.

Lemma answer_after_same fs rs pre q :
  same_reads rs (fs_rs fs) -> answer_after (with_reader rs fs) pre q = answer_after fs pre q.
Proof using. intros Hrs. unfold answer_after. by rewrite serve_all_same, serve_same. Qed.

(** C1: a directory of the host built into an image file and opened from it
    reads back.  Wherever its entries lead: a regular file returns its bytes
    and a link its target, Stat of a directory or file has the host's
    permissions, and what is neither (a device, pipe or socket) is not
    there; whatever was asked before. *)
Theorem BuildFromDir_roundtrip fuel (h : host) imgPath srcDir opts t root h1 h2 fs pre parts :
  HostLaws -> CodecLaws -> EncoderLaws -> SafeIOLaws ->
  shows_root h srcDir t -> node_of [] t = Some root -> node_ok root ->
  BuildFromDir fuel h imgPath srcDir opts = (h1, None) ->
  OpenFile h1 imgPath = (h2, Ok fs) -> fs_size (h_fs fs) < 2 ^ 32 ->
  let answer q := answer_after (h_fs fs) pre q in
  (forall perm data, host_at t parts (HFile perm data) ->
     answer (QReadFile (joinPath parts) (-1)) = Ok (ABytes data) /\
     exists num, answer (QStat (joinPath parts)) = Ok (AStat (NewStat (Z.lor sIFREG perm) (zlen data) num))) /\
  (forall target, host_at t parts (HLink target) ->
     answer (QReadLink (joinPath parts)) = Ok (ABytes target)) /\
  (forall perm es, host_at t parts (HDir perm es) ->
     exists size num, answer (QStat (joinPath parts)) = Ok (AStat (NewStat (Z.lor sIFDIR perm) size num))) /\
  (host_at t parts HOther -> exists e, answer (QStat (joinPath parts)) = Err e /\ sane (Err (A := unit) e)).
Proof using.
  intros laws codecs enclaws safeio Ht Hn Hok Hbuild Hopen Hsize answer. subst answer. cbv beta.
  destruct (built_from_dir _ _ _ _ _ _ _ _ _ _ laws codecs enclaws safeio Ht Hn Hok Hbuild Hopen Hsize)
    as (img & fs0 & rs & Hb & -> & Hrs).
  pose proof (shows_root_wf _ _ _ Ht) as Hwf. setoid_rewrite (answer_after_same _ _ pre _ Hrs).
  setoid_rewrite (built_answer _ _ _ _ pre _ Hb).
  assert (forall u, host_at t parts u -> splitPath (joinPath parts) = parts) as Hsplit.
  { intros u Hat. by eapply splitPath_joinPath, host_at_components. }
  splits.
  - intros perm data Hat.
    destruct (host_at_resolves root 40 t parts _ true [] root Hwf Hat ltac:(done) ltac:(by left) Hn) as (m & nm & Hm & Hr).
    rewrite <- (Hsplit _ Hat) in Hr. cbn in Hm. injection Hm as <-.
    destruct (node_of_type nm (HFile perm data) _ (host_at_wf _ _ _ Hwf Hat) eq_refl) as [Htype _]. split.
    + destruct (built_file _ _ _ _ _ _ Hb Hr Htype) as (i & Hi & _ & Hreg & _ & Hrd).
      apply (serve_ReadFile_ok _ _ _ i); [done|done|]. apply Hrd. lia.
    + destruct (built_stat _ _ _ _ _ _ Hb Hr) as (size & num & Hst & Hsz). exists num. by rewrite Hst, (Hsz Htype).
  - intros target Hat.
    destruct (host_at_resolves root 40 t parts _ false [] root Hwf Hat ltac:(done) ltac:(by right) Hn) as (m & nm & Hm & Hr).
    rewrite <- (Hsplit _ Hat) in Hr. cbn in Hm. injection Hm as <-.
    destruct (built_link _ _ _ _ _ _ _ Hb Hr eq_refl) as (i & Hi & Hl & Htg).
    rewrite (serve_ReadLink_ok _ _ i) by done. by rewrite Htg.
  - intros perm es Hat.
    destruct (host_at_resolves root 40 t parts _ true [] root Hwf Hat ltac:(done) ltac:(by left) Hn) as (m & nm & Hm & Hr).
    rewrite <- (Hsplit _ Hat) in Hr. cbn in Hm. injection Hm as <-.
    destruct (built_stat _ _ _ _ _ _ Hb Hr) as (size & num & Hst & _). by exists size, num.
  - intros Hat. destruct (built_stat_iff _ _ _ _ (joinPath parts) Hb) as [Hiff Hsane].
    destruct (uncached (serve fs0 (QStat (joinPath parts)))) as [st|e] eqn:E.
    2:{ exists e. split; [done|by eapply sane_err]. }
    exfalso. destruct (proj1 Hiff) as [m Hm].
    { rewrite serve_Stat_resolve in E. destruct (uncached (resolve _ _ true)); [|done].
      revert E. rstep. intros <-%Ok_inj. by eexists. }
    rewrite (Hsplit _ Hat) in Hm. by eapply host_at_other.
Qed.

End build.
End host.

(** ** A host in memory *)

Import ToyInstances.

Record toyHost := mkToyHost {
  th_tree : host_tree;
  th_written : gmap (list byte) (list byte);
  th_files : gmap Z (list byte)
}.

Fixpoint host_find (t : host_tree) (parts : list (list byte)) : option host_tree :=
  match parts, t with
  | [], _ => Some t
  | name :: rest, HDir _ es =>
      match List.find (fun e => bool_decide (fst e = name)) es with
      | Some (_, u) => host_find u rest
      | None => None
      end
  | _ :: _, _ => None
  end.

#[local] Instance hostname_dec s : Decision (hostname s).
Proof. unfold hostname, component. apply _. Defined.

Definition toyFind (h : toyHost) (p : list byte) : option host_tree := host_find (th_tree h) (splitPath p).

Definition toyFd (m : gmap Z (list byte)) : Z := map_fold (fun k _ n => Z.max (k + 1) n) 3 m.

Lemma toyFd_fresh m : m !! toyFd m = None.
Proof.
  assert (forall k, k ∈ dom m -> k < toyFd m) as Hlt.
  { unfold toyFd. induction m as [|k b m Hk Hfold IH] using map_first_key_ind; [set_solver|].
    rewrite map_fold_insert_first_key by done. intros j. rewrite dom_insert, elem_of_union, elem_of_singleton.
    intros [->|Hj]; [lia|]. specialize (IH j Hj). lia. }
  destruct (m !! toyFd m) eqn:E; [|done]. apply elem_of_dom_2 in E. specialize (Hlt _ E). lia.
Qed.

(** A file that is closed: every read fails. *)
Definition closed_ReadAt (off : Z) (n : nat) : result (list byte) :=
  if off <? 0 then Err ErrIO else match n with O => Ok [] | S _ => Err ErrClosed end.

Lemma closed_ReadAt_len off n b : closed_ReadAt off n = Ok b -> List.length b = n.
Proof. unfold closed_ReadAt. destruct (_ <? _), n; try done. by intros [= <-]. Qed.

Lemma closed_ReadAt_sane off n : sane (closed_ReadAt off n).
Proof. unfold closed_ReadAt. by destruct (_ <? _), n. Qed.

Definition closed_Reader : ReaderAt :=
  {| ReadAt := closed_ReadAt; ReadAt_len := closed_ReadAt_len; ReadAt_sane := closed_ReadAt_sane |}.

#[local] Instance toyOS : HostOS := {
  host := toyHost;
  os_Lstat h p :=
    match toyFind h p with
    | Some (HDir perm _) => Ok (ModeDir + perm)
    | Some (HLink _) => Ok (ModeSymlink + 0x1FF)
    | Some (HFile perm _) => Ok perm
    | Some HOther => Ok (2 ^ 26)
    | None => Err ErrNotFound
    end;
  os_ReadDir h p :=
    match toyFind h p with
    | Some (HDir _ es) =>
        if decide (NoDup (fst <$> es) /\ Forall hostname (fst <$> es)) then Ok (fst <$> es) else Err ErrIO
    | _ => Err ErrNotDirectory
    end;
  os_Readlink h p := match toyFind h p with Some (HLink target) => Ok target | _ => Err ErrIO end;
  os_ReadFile h p := match toyFind h p with Some (HFile _ data) => Ok data | _ => Err ErrIO end;
  os_WriteFile h p b _ := (mkToyHost (th_tree h) (<[p:=b]> (th_written h)) (th_files h), None);
  os_Open h p :=
    match th_written h !! p with
    | Some b =>
        let f := toyFd (th_files h) in
        (mkToyHost (th_tree h) (th_written h) (<[f:=b]> (th_files h)), Ok f)
    | None => (h, Err ErrNotFound)
    end;
  os_File_Size h f := match th_files h !! f with Some b => Ok (zlen b) | None => Err ErrClosed end;
  os_File h f := match th_files h !! f with Some b => bytes_Reader b | None => closed_Reader end;
  os_Close h f :=
    match th_files h !! f with
    | Some _ => (mkToyHost (th_tree h) (th_written h) (delete f (th_files h)), None)
    | None => (h, Some ErrClosed)
    end;
  os_files h := dom (th_files h)
}.

#[local] Instance toyHostLaws : HostLaws.
Proof.
  split; cbn.
  - intros h p. by destruct (toyFind h p) as [[]|].
  - intros h p. destruct (toyFind h p) as [[]|]; try done. by case_decide.
  - intros h p. by destruct (toyFind h p) as [[]|].
  - intros h p. by destruct (toyFind h p) as [[]|].
  - intros h f. by destruct (th_files h !! f).
  - intros h p. by destruct (th_written h !! p).
  - intros h p names. destruct (toyFind h p) as [[]|]; try done. case_decide; [|done]. by intros <-%Ok_inj.
  - intros h p h' f. destruct (th_written h !! p); [|done]. intros [= <- <-]. cbn. split.
    + apply not_elem_of_dom, toyFd_fresh.
    + by rewrite dom_insert_L.
  - intros h p h' e. destruct (th_written h !! p); [done|]. by intros [= <- _].
  - intros h f. destruct (th_files h !! f) eqn:E; cbn; [by rewrite dom_delete_L|].
    apply not_elem_of_dom in E. set_solver.
  - intros h f Hf%not_elem_of_dom. by rewrite Hf.
  - intros h f off n Hoff. destruct (th_files h !! f); cbn; unfold bytes_ReadAt, closed_ReadAt;
      by destruct (Z.ltb_spec off 0); [|lia].
  - intros h f off n Hf%not_elem_of_dom Hoff Hn. rewrite Hf. cbn. unfold closed_ReadAt.
    destruct (Z.ltb_spec off 0); [lia|]. by destruct n; [lia|].
  - intros h p b perm h1 h2 f [= <-]. cbn. rewrite lookup_insert_eq. intros [= <- <-]. cbn.
    by rewrite lookup_insert_eq.
Qed.

(** The example tree under "/src", with a device beside the links. *)
Definition exSource : host_tree :=
  HDir 0x1ED
    [(B "f", HFile 0x1A4 exData);
     (B "d", HDir 0x1ED [(B "dev", HOther); (B "up", HLink (B "../f")); (B "abs", HLink (B "/f"));
                         (B "here", HLink (B ".")); (B "self", HLink (B "self"))])].
Definition exHost : toyHost := mkToyHost (HDir 0x1ED [(B "src", exSource)]) ∅ ∅.

(** The host after the build, and after the image is opened. *)
Definition exBuiltHost : toyHost := fst (BuildFromDir 1 exHost (B "/img") (B "/src") exOpts).

(** What the host shows is what its tree holds. *)
Ltac show_entries :=
  let Hin := fresh in
  intros ? ? Hin; repeat (apply elem_of_cons in Hin as [[= -> ->]|Hin]); [..|by apply not_elem_of_nil in Hin].
Ltac show_leaf :=
  change (HFile 0x1A4) with (HFile (FileMode_Perm 0x1A4));
  first [apply (shows_file _ _ 0x1A4)
        |apply (shows_link _ _ (ModeSymlink + 0x1FF))
        |apply (shows_other _ _ (2 ^ 26))]; vm_compute; reflexivity.

Lemma exHost_shows : shows_root exHost (B "/src") exSource.
Proof.
  exists (ModeDir + 0x1ED). eexists. splits; [reflexivity|vm_compute; reflexivity|vm_compute; reflexivity|].
  show_entries.
  - show_leaf.
  - change (HDir 0x1ED) with (HDir (FileMode_Perm (ModeDir + 0x1ED))).
    apply shows_dir; [vm_compute; reflexivity..|]. show_entries; show_leaf.
Qed.

Lemma exHost_scan : node_of [] exSource = Some exTree.
Proof. reflexivity. Qed.

Lemma scanDir_spec_witness : scanDir 1 exHost (B "/src") = Ok exTree.
Proof. exact (proj1 (scanDir_spec exHost (B "/src")) exSource exTree 1%nat exHost_shows exHost_scan (le_n 2)). Defined.

Lemma exBuild : BuildFromDir 1 exHost (B "/img") (B "/src") exOpts = (exBuiltHost, None).
Proof. vm_compute. reflexivity. Qed.

Lemma exOpened_ok : exists h2 fs, OpenFile exBuiltHost (B "/img") = (h2, Ok fs).
Proof.
  assert (succeeds (snd (OpenFile exBuiltHost (B "/img"))) = true) as E by (vm_compute; reflexivity).
  destruct (@OpenFile toyOS exBuiltHost (B "/img")) as [h2 [fs|]]; [by exists h2, fs|done].
Qed.

Lemma OpenFile_files_witness :
  exists h2 fs, OpenFile exBuiltHost (B "/img") = (h2, Ok fs) /\
    let '(h3, _) := FS_Close h2 fs in os_files h3 = os_files exBuiltHost /\ FS_Close h3 fs = (h3, Some ErrClosed).
Proof.
  destruct exOpened_ok as (h2 & fs & E). exists h2, fs. split; [exact E|].
  exact (proj2 (proj2 (proj2 (OpenFile_files exBuiltHost (B "/img") h2 (Ok fs) toyHostLaws E)))).
Defined.

Lemma BuildFromDir_writes_witness :
  (exBuiltHost = exHost /\ @None err <> None) \/
  exists t root img, shows_root exHost (B "/src") t /\ node_of [] t = Some root /\ buildImage root exOpts = Ok img /\
    os_WriteFile exHost (B "/img") img imageMode = (exBuiltHost, None).
Proof. exact (BuildFromDir_writes 1 exHost (B "/img") (B "/src") exOpts exBuiltHost None exBuild). Defined.

Lemma exOpened_size h2 fs : OpenFile exBuiltHost (B "/img") = (h2, Ok fs) -> fs_size (h_fs fs) < 2 ^ 32.
Proof.
  intros E.
  assert (match snd (OpenFile exBuiltHost (B "/img")) with Ok fs => fs_size (h_fs fs) <? 2 ^ 32 | Err _ => false end = true)
    as Hs by (vm_compute; reflexivity).
  rewrite E in Hs. cbn [snd] in Hs. by apply Z.ltb_lt.
Qed.

(** "/f" and "/d/up" read back, "/d/dev" is not there. *)
Lemma BuildFromDir_roundtrip_witness :
  exists h2 fs, OpenFile exBuiltHost (B "/img") = (h2, Ok fs) /\
    answer_after (h_fs fs) exBefore (QReadFile (joinPath [B "f"]) (-1)) = Ok (ABytes exData) /\
    answer_after (h_fs fs) exBefore (QReadLink (joinPath [B "d"; B "up"])) = Ok (ABytes (B "../f")) /\
    exists e, answer_after (h_fs fs) exBefore (QStat (joinPath [B "d"; B "dev"])) = Err e /\ sane (Err (A := unit) e).
Proof.
  destruct exOpened_ok as (h2 & fs & E). exists h2, fs. split; [exact E|].
  pose proof (fun parts => BuildFromDir_roundtrip 1 exHost (B "/img") (B "/src") exOpts exSource exTree exBuiltHost h2 fs
    exBefore parts toyHostLaws toyCodecLaws toyEncoderLaws toySafeIOLaws exHost_shows exHost_scan exTree_ok exBuild E
    (exOpened_size h2 fs E)) as H. cbv zeta in H. splits.
  - apply (proj1 (H [B "f"]) 0x1A4). eapply at_entry; [by left|constructor].
  - apply (proj1 (proj2 (H [B "d"; B "up"]))). eapply at_entry; [by right; left|].
    eapply at_entry; [by right; left|constructor].
  - apply (proj2 (proj2 (proj2 (H [B "d"; B "dev"])))). eapply at_entry; [by right; left|].
    eapply at_entry; [by left|constructor].
Defined.







